(* ===== verification/_CoqProject ===== *)
-Q . S2P
Prelude.v
Transition.v
Weak.v
Ring.v
Queue.v
Spsc.v
SpscWeak.v
Mpmc.v
MpmcWeak.v
Crc32c.v
Frame.v
Arena.v
Slab.v
TimerWheel.v
Text.v
Core.v
Types.v
ModelConfig.v
ModelRepository.v
Metrics.v
Executor.v
ServerConfig.v
Socket.v
Session.v
TorchBackend.v
Runtime.v
Server.v
Actor.v
WorkStealing.v
WorkStealingWeak.v
Seqlock.v
SeqlockWeak.v
Fiber.v
Pool.v
Reactor.v
Platform.v
Connections.v
MetricsServer.v
Pipeline.v
Registry.v
IoUring.v
Shutdown.v
