(* ===== verification/Prelude.v ===== *)
(** * Jellybean runtime: verification library

    Jellybean is a C++ inference server: a reactor per core runs coroutines that read
    requests from sockets, hand them to per-model executors and write the answers back;
    around it are lock-free queues, allocators, a timer wheel, an actor layer with a
    binary frame format, and a repository of models. This library translates that code
    into executable definitions and step relations, file by file, and proves what makes
    each part correct, and where it is not, what goes wrong.

    ** Parts, files and sources

    Paths are relative to the repository's [src/] and [include/jellybean/].

    - Foundations. This file: machine integers with their wraps, outcomes (assertion,
      abort, undefined behaviour, exception, no fuel), spans of bytes, lists and counting.
      [Transition]: reachability and invariant rules for step relations, histories of
      FIFO queues, runs by execution. [Weak]: the C++ memory model with release-acquire,
      relaxed accesses and fences, by views. [Ring]: positions and slots of ring buffers. [Queue]: the class of
      bounded queues that clients are verified against. [Text]: strings, numbers and
      their parsing. [Core]: the exceptions with the handlers that take them, and when a
      message is logged (core/errors.hpp, core/logging.hpp). [Types]: requests and
      responses (inference/types.hpp).
    - Queues. [Spsc] (concurrency/spsc_queue.hpp) and [Mpmc] (concurrency/mpmc_queue.hpp):
      the methods as functions, and their atomic accesses as steps of any interleaving.
      [WorkStealing] (scheduler/work_stealing_deque.hpp) and [Seqlock]
      (concurrency/seqlock.hpp): one shared access a step. [SpscWeak], [MpmcWeak],
      [WorkStealingWeak] and [SeqlockWeak]: the same accesses with the memory orders and
      fences of the source, on the memory of [Weak].
    - Frames. [Crc32c] and [Frame] (proto/wire.hpp, proto/frame.hpp, proto/codec.cpp).
    - Memory. [Arena] (memory/arena.hpp, arena.cpp), [Slab] (memory/slab.hpp), [Platform]
      (memory/huge_pages.hpp/.cpp, and scheduler/scheduler.hpp/.cpp, the processors).
    - Event loop. [TimerWheel] (reactor/timer_wheel.hpp/.cpp), [Fiber] (scheduler/fiber.hpp:
      [Task] and the coroutine frames it owns), [Pool] (reactor/continuation_pool.hpp/.cpp and
      reactor/future_awaitable.hpp), [Reactor] (reactor/reactor.hpp/.cpp, the poll of
      reactor/epoll_backend.cpp, concurrency/backoff.hpp, [Yield], the loop of [main] and
      the signal handler), [IoUring] (reactor/io_uring_backend.hpp/.cpp), [Socket]
      (net/async_socket.hpp/.cpp).
    - Models. [ModelConfig] (model/model_config.hpp/.cpp), [ModelRepository]
      (model/model_registry.hpp/.cpp, model_repository.hpp/.cpp, model_metadata.hpp), [TorchBackend]
      (inference/torch_backend.cpp), [Executor] (model/model_executor.hpp/.cpp), [Runtime]
      (inference/runtime.hpp/.cpp), [Metrics] (telemetry/metrics.hpp/.cpp, the text of
      telemetry/metrics_export.cpp), [MetricsServer] (the socket server of
      telemetry/metrics_export.hpp/.cpp).
    - Server. [ServerConfig] (both loaders of the configuration file), [Session] (the
      coroutine of a connection), [Server] ([main] up to its loop, [accept_loop]) and
      [Connections] ([AsyncAcceptAwaitable], the accept loop, the sessions and their
      registrations with epoll, as one transition system) and [Shutdown] (the end of
      [main] and the destructors of its objects) of server/main.cpp; [Pipeline] ([Session],
      [Executor] and [TorchBackend] composed).
    - Actors. [Actor] (actor/actor.hpp/.cpp, mailbox.hpp). [Registry] (actor/registry.hpp,
      [ActorBase], and inference/registry.hpp, over one map of shared pointers).

    ** How the parts meet

    [Actor]'s mailbox is verified against the class [Queue.BoundedQueue], of which [Spsc]
    and [Mpmc] give instances. [Executor] and [Reactor] use the bounded FIFO queue that
    [Mpmc] shows the lock-free one to be; they allow it to refuse or to miss as
    [Mpmc] shows it may. A call of [Runtime] on an executor is a
    call of [Executor]; [Executor] is parametric in the backend's [infer_batch], of which
    [TorchBackend] shows one response per request, and [Session] in the runtime's answer,
    which [TorchBackend] shows to fit its buffer ([Session.fits]). [Server] composes
    [ServerConfig], [ModelRepository] and the steps of [Runtime]. [Pool] schedules what
    [Reactor] resumes; the futures it waits on are the promises of [Executor]. Released
    handles of [Fiber] are the handles of [Reactor]. [Connections] takes [Socket]'s socket
    objects and abstracts the sessions of [Session] to their suspension points, the queues
    of [Reactor] and the tasks of [Pool] to the handles in them. [Pipeline] gives
    [Executor] the backend of [TorchBackend] and [Session] what the executor answers.
    [Shutdown] runs the threads of [Pool] beside [main]'s.

    ** What is shown

    - Round trips: frames, model configurations and server configurations are read back
      as written; exactly the well-formed frames are accepted, and bursts are detected;
      the three CRC implementations agree.
    - Concurrency: the queues, the work-stealing deque and the sequence lock implement
      their sequential specifications in every interleaving and keep threads apart, and
      so they do under the C++ memory model with the orders the source gives: what is
      stored is the newest known, nobody is stuck, plain memory is not raced on (but by a
      thief that is too late, and by the data of a sequence lock unless they are atomic);
      executors answer each call once; the runtime stops each executor at most once; the
      continuation pool serves each wait once and sleeps through none; the reactor
      resumes in order and does not wait on work; every coroutine of the server is in one
      hand at a time, and epoll resumes the one whose descriptor had the event.
    - Memory: the allocators hand out disjoint, aligned, live regions for requests that do
      not overflow; messages and tasks behave as values with one owner per block or frame,
      unless a message is set from its own payload.
    - Functional behaviour: timers fire on their tick, unless one is rearmed by whole turns of
      the wheel; scans account for every directory when the configurations parse;
      batching is transparent, so that clients get the answers to their own requests;
      sessions serve the requests of well-formed clients, whose fields arrive whole, and
      end; the server serves what was loaded, or exits with the code the source gives; the
      metrics server accounts for its descriptors and sends its text.
    - Errors: lemmas and properties of their own show, by runs or by equations, what the
      code does wrong: lost wakeups and stop signals, leaks that leave the server without
      descriptors, misread fields, reads past a short input, mixed-up batches, misfiring
      timers, a shutdown that waits for a client or uses what it destroyed.

    ** Conventions

    An integer is a [Z] with its wrap written ([u64], [+w]); a float that is only carried is
    its bit pattern. Functions that may fail without returning have results in [outcome]
    or an option whose [None] is undefined behaviour. A component shared by threads is a
    state record, a program point per thread and an inductive step relation; properties are
    about the states reachable from the constructor's. Steps interleave sequentially
    consistently, except in the files named [...Weak]: there a load may read any message
    its thread does not know to be overwritten, and threads may also synchronise outside
    the component at any step. A file [...Weak] has no methods of its own: what the
    methods compute is in the file it is named after. Plain memory is checked for races
    there. The cells of [WorkStealingWeak] are plain: a thief's read that races, undefined
    in C++, gives any value, and the theorem says where that happens. What the callbacks
    of [SeqlockWeak] access is relaxed atomics; that plain data, which the interface
    admits, race is shown in [SeqlockWeak.plain_cells_race]. The
    flags and counters of the executor, the pool and the reactor, most of them used under
    a mutex or beside one, stay sequentially consistent. Lists in the state
    that no code keeps ([trace], [log], [posted], [enqueued] and the like) record history.

    Bounds: tickets of [Mpmc] below 2^63, counters of [Spsc] exact to 2^64 by their wraps,
    fewer than 2^63 - 1 writes of a [Seqlock] (2^62 in [SeqlockWeak]), ticks below 2^61;
    each theorem names its bound. Fuel: [TimerWheel.advance] turns once per tick, the read
    loops of [Session] and [Socket] once per arrival or byte, and the theorems show the
    fuel given to be enough.

    ** Not modelled

    The trial program for ONNX, the tests and the tools; hints to the compiler. spdlog,
    libtorch, liburing, [malloc], [mmap], the file system and the kernel's answers are
    parameters. Clocks are arguments or left open. *)
From stdpp Require Export base list numbers gmap option relations.
From coqutil Require Export Word.LittleEndianList.
From coqutil Require Export Byte.
From Stdlib Require Export ZArith Lia Zbitwise Permutation.

#[global] Open Scope Z_scope.

(** ** Machine integers

    A [w]-bit unsigned integer is a [Z] in [0, 2^w); every arithmetic result
    that C++ would reduce modulo [2^w] is written with one of these wraps. *)

Definition wrap (w z : Z) : Z := z `mod` 2 ^ w.

Definition u8 (z : Z) : Z := wrap 8 z.

Definition u16 (z : Z) : Z := wrap 16 z.

Definition u32 (z : Z) : Z := wrap 32 z.

Definition u64 (z : Z) : Z := wrap 64 z.

(** [static_cast<intptr_t>] / two's complement reading of a 64-bit word. *)
Definition s64 (z : Z) : Z :=
  let r := u64 z in if r <? 2 ^ 63 then r else r - 2 ^ 64.

Declare Scope word_scope.
Delimit Scope word_scope with word.
Notation "x +w y" := (u64 (x + y)) (at level 50, left associativity) : word_scope.
Notation "x -w y" := (u64 (x - y)) (at level 50, left associativity) : word_scope.
Notation "x *w y" := (u64 (x * y)) (at level 40, left associativity) : word_scope.
#[global] Open Scope word_scope.

(** [a] is representable as a [size_t] / [uint64_t]. *)
Definition is_u64 (z : Z) : Prop := 0 <= z < 2 ^ 64.

Definition is_u32 (z : Z) : Prop := 0 <= z < 2 ^ 32.

Definition is_u16 (z : Z) : Prop := 0 <= z < 2 ^ 16.

(** ** Automation *)

Create HintDb word.
Create Rewrite HintDb word_rw.
Create Rewrite HintDb span.

(** Unfold the wraps, turn [mod] and [/] into linear equations, call [lia]. *)
Ltac word_lia :=
  unfold u8, u16, u32, u64, wrap, is_u64, is_u32, is_u16 in *;
  Z.div_mod_to_equations; lia.

(** Case analysis on every boolean test and [decide] of the goal. *)
Ltac split_tests :=
  repeat first
    [ case_decide
    | match goal with
      | |- context [Z.ltb ?a ?b] => destruct (Z.ltb_spec a b)
      | |- context [Z.leb ?a ?b] => destruct (Z.leb_spec a b)
      | |- context [Z.eqb ?a ?b] => destruct (Z.eqb_spec a b)
      end ].

(** The same for a hypothesis. *)
Ltac split_tests_in H :=
  repeat match type of H with
  | context [Z.ltb ?a ?b] => destruct (Z.ltb_spec a b)
  | context [Z.leb ?a ?b] => destruct (Z.leb_spec a b)
  | context [Z.eqb ?a ?b] => destruct (Z.eqb_spec a b)
  | context [decide ?P] => destruct (decide P)
  end.

(** ** Lemmas on wraps *)

Lemma wrap_range w z : 0 <= w → 0 <= wrap w z < 2 ^ w.
Proof. intros. apply Z.mod_pos_bound. lia. Qed.

Lemma wrap_small w z : 0 <= z < 2 ^ w → wrap w z = z.
Proof. apply Z.mod_small. Qed.

Lemma u64_range z : 0 <= u64 z < 2 ^ 64.
Proof. by apply wrap_range. Qed.

Lemma u64_small z : 0 <= z < 2 ^ 64 → u64 z = z.
Proof. apply wrap_small. Qed.

Lemma u32_small z : 0 <= z < 2 ^ 32 → u32 z = z.
Proof. apply wrap_small. Qed.

Lemma u16_small z : 0 <= z < 2 ^ 16 → u16 z = z.
Proof. apply wrap_small. Qed.

Lemma u64_idemp z : u64 (u64 z) = u64 z.
Proof. apply u64_small, u64_range. Qed.

Lemma u64_add_l a b : u64 (u64 a + b) = u64 (a + b).
Proof. apply Zplus_mod_idemp_l. Qed.

Lemma u64_add_r a b : u64 (a + u64 b) = u64 (a + b).
Proof. apply Zplus_mod_idemp_r. Qed.

Lemma u64_sub_l a b : u64 (u64 a - b) = u64 (a - b).
Proof. apply Zminus_mod_idemp_l. Qed.

Lemma u64_sub_r a b : u64 (a - u64 b) = u64 (a - b).
Proof. apply Zminus_mod_idemp_r. Qed.

Lemma s64_small z : - 2 ^ 63 <= z < 2 ^ 63 → s64 (u64 z) = z.
Proof.
  intros. unfold s64. rewrite u64_idemp.
  destruct (Z.ltb_spec (u64 z) (2 ^ 63)); word_lia.
Qed.

Lemma s64_id z : 0 <= z < 2 ^ 63 → s64 z = z.
Proof. intros. rewrite <- (u64_small z) at 1 by lia. apply s64_small. lia. Qed.

#[export] Hint Resolve u64_range : word.
#[export] Hint Rewrite u64_idemp u64_add_l u64_add_r u64_sub_l u64_sub_r : word_rw.

(** ** Outcomes

    What a call that may fail without returning does: an [assert] of the source
    that does not hold, [std::abort], undefined behaviour, an exception, or a loop
    that the fuel of its model did not cover. *)

Inductive exception :=
| invalid_argument
| out_of_range
| filesystem_error
| length_error
| bad_alloc
| system_error
| MemoryException.

Inductive fault :=
| AssertionFailed
| Aborted
| UndefinedBehaviour
| OutOfFuel
| Thrown (e : exception).

Inductive outcome (A : Type) :=
| Done (a : A)
| Fault (f : fault).
Arguments Done {_} _.
Arguments Fault {_} _.

#[export] Instance outcome_ret : MRet outcome := λ A a, Done a.

#[export] Instance outcome_bind : MBind outcome := λ A B f o,
  match o with Done a => f a | Fault e => Fault e end.

Definition assert (b : bool) : outcome () := if b then Done () else Fault AssertionFailed.

(** Dereferencing: no object there is undefined behaviour. *)
Definition deref {A} (o : option A) : outcome A :=
  match o with Some a => Done a | None => Fault UndefinedBehaviour end.

Lemma bind_done {A B} (o : outcome A) (f : A → outcome B) b :
  o ≫= f = Done b → ∃ a, o = Done a ∧ f a = Done b.
Proof. destruct o as [a|e]; [by exists a|done]. Qed.

(** ** Powers of two

    [(n & (n - 1)) == 0], the test that guards every capacity and alignment of
    the program, holds of a positive [n] exactly when [n] is a power of two. *)

Definition is_pow2 (n : Z) : bool := Z.land n (n - 1) =? 0.

Lemma is_pow2_pow k : 0 <= k → is_pow2 (2 ^ k) = true.
Proof.
  intros Hk. apply Z.eqb_eq.
  replace (2 ^ k - 1) with (Z.ones k) by (rewrite Z.ones_equiv; lia).
  rewrite Z.land_ones by done. apply Z.mod_same. lia.
Qed.

Lemma is_pow2_inv n : 0 < n → is_pow2 n = true → ∃ k, 0 <= k ∧ n = 2 ^ k.
Proof.
  intros Hn [=H%Z.eqb_eq]. exists (Z.log2 n). pose proof (Z.log2_nonneg n).
  split; [done|]. pose proof (Z.log2_spec n Hn) as [Hlo Hhi].
  destruct (Z.eq_dec n (2 ^ Z.log2 n)) as [|Hne]; [done|]. exfalso.
  assert (Hl : Z.log2 (n - 1) = Z.log2 n) by (apply Z.log2_unique; lia).
  assert (Hb : Z.testbit (Z.land n (n - 1)) (Z.log2 n) = true).
  { rewrite Z.land_spec, Z.bit_log2 by done.
    rewrite <- Hl. by rewrite Z.bit_log2 by lia. }
  by rewrite H, Z.bits_0 in Hb.
Qed.

(** Masking with a power of two minus one is reduction modulo that power. *)
Lemma land_mask n x : 0 < n → is_pow2 n = true → Z.land x (n - 1) = x `mod` n.
Proof.
  intros Hn (k & Hk & ->)%is_pow2_inv; [|done].
  replace (2 ^ k - 1) with (Z.ones k) by (rewrite Z.ones_equiv; lia).
  by apply Z.land_ones.
Qed.

(** [x & ~(2^k - 1)] on 64-bit words clears the low [k] bits. *)
Lemma land_lnot_mask k x :
  0 <= k <= 64 → 0 <= x < 2 ^ 64 → Z.land x (u64 (Z.lnot (2 ^ k - 1))) = x - x `mod` 2 ^ k.
Proof.
  intros Hk Hx.
  replace (2 ^ k - 1) with (Z.ones k) by (rewrite Z.ones_equiv; lia).
  unfold u64, wrap. rewrite <- Z.land_ones by lia.
  rewrite Z.land_assoc, (Z.land_comm x), <- Z.land_assoc, Z.land_ones by lia.
  rewrite (Z.mod_small x) by done.
  rewrite Z.land_comm. rewrite <- Z.ldiff_land, Z.ldiff_ones_r by lia.
  rewrite Z.shiftr_div_pow2, Z.shiftl_mul_pow2 by lia.
  pose proof (Z.div_mod x (2 ^ k)). lia.
Qed.

(** ** Lists *)

Section lists.
Context {A : Type}.
Implicit Types l : list A.

Lemma take_app_exact l k n : n = length l → take n (l ++ k) = l.
Proof. intros ->. by rewrite take_app_length. Qed.

Lemma drop_app_exact l k n : n = length l → drop n (l ++ k) = k.
Proof. intros ->. by rewrite drop_app_length. Qed.

(** One piece of a list cut at [n]: the step of a proof that a list is the
    concatenation of its consecutive pieces. *)
Lemma peel_piece n l k : drop n l = k → l = take n l ++ k.
Proof. intros <-. by rewrite take_drop. Qed.

Lemma take_drop_split l n m :
  (n + m <= length l)%nat → l = take n l ++ take m (drop n l) ++ drop (n + m) l.
Proof.
  intros. rewrite <- drop_drop, take_drop. by rewrite take_drop.
Qed.
End lists.

Section buckets.
Context {A : Type}.

(** Replacing one bucket, seen from the concatenation of all. *)
Lemma concat_bucket (ls : list (list A)) i l :
  ls !! i = Some l →
  ∃ rest, concat ls ≡ₚ l ++ rest ∧ ∀ l', concat (<[i := l']> ls) ≡ₚ l' ++ rest.
Proof.
  intros Hi. exists (concat (take i ls) ++ concat (drop (S i) ls)). split.
  - rewrite <- (take_drop_middle ls i l Hi) at 1. rewrite concat_app. simpl.
    rewrite !app_assoc. by rewrite (Permutation_app_comm (concat (take i ls)) l).
  - intros l'. rewrite insert_take_drop by by eapply lookup_lt_Some.
    rewrite concat_app. simpl. rewrite !app_assoc.
    by rewrite (Permutation_app_comm (concat (take i ls)) l').
Qed.

End buckets.

(** *** Counting occurrences *)

Section occurrences.
Context {A : Type} `{!EqDecision A}.

Fixpoint occ (x : A) (l : list A) : nat :=
  match l with
  | [] => 0
  | y :: l => (if decide (y = x) then 1 else 0) + occ x l
  end.

Lemma occ_app x l k : occ x (l ++ k) = (occ x l + occ x k)%nat.
Proof. induction l; simpl; lia. Qed.

Lemma occ_perm x l k : l ≡ₚ k → occ x l = occ x k.
Proof. induction 1; simpl; lia. Qed.

Lemma occ_elem x l : (0 < occ x l)%nat ↔ x ∈ l.
Proof.
  induction l as [|y l IH]; simpl; [split; [lia|by intros ?%elem_of_nil]|].
  rewrite elem_of_cons, <- IH. destruct (decide (y = x)) as [->|Hne]; split.
  - intros _. by left.
  - lia.
  - intros ?. right. lia.
  - intros [->|?]; [done|lia].
Qed.

(** Replacing one bucket changes a count by the difference of the buckets. *)
Lemma occ_concat_insert x (ls : list (list A)) i l l' :
  ls !! i = Some l →
  (occ x (concat (<[i := l']> ls)) + occ x l = occ x (concat ls) + occ x l')%nat.
Proof.
  intros Hi. destruct (concat_bucket ls i l Hi) as (rest & H1 & H2).
  rewrite (occ_perm x _ _ (H2 l')), (occ_perm x _ _ H1), !occ_app. lia.
Qed.

Lemma occ_fmap_insert {B} (f : B → list A) x (ls : list B) i b b' :
  ls !! i = Some b →
  (occ x (concat (f <$> <[i := b']> ls)) + occ x (f b) = occ x (concat (f <$> ls)) + occ x (f b'))%nat.
Proof.
  intros Hi. rewrite list_fmap_insert. apply occ_concat_insert. by rewrite list_lookup_fmap, Hi.
Qed.

Lemma occ_fmap_lookup {B} (f : B → list A) x (ls : list B) i b :
  ls !! i = Some b → (occ x (f b) <= occ x (concat (f <$> ls)))%nat.
Proof.
  intros Hi. apply list_elem_of_split_length in Hi as (l1 & l2 & -> & _).
  rewrite fmap_app, concat_app, occ_app. csimpl. rewrite occ_app. lia.
Qed.

Lemma occ_replicate {B} (f : B → list A) x n b :
  occ x (f b) = 0%nat → occ x (concat (f <$> replicate n b)) = 0%nat.
Proof.
  intros H. induction n as [|n IH]; [done|]. rewrite replicate_S, fmap_cons. simpl.
  by rewrite occ_app, H, IH.
Qed.
End occurrences.

(** ** Alignment

    The rounding expression [(value + alignment - 1) & ~(alignment - 1)] of
    [align_up] (include/jellybean/proto/wire.hpp); the arena and the huge page
    allocator write the same expression inline. *)
Definition align_up (value alignment : Z) : Z :=
  Z.land (value +w alignment -w 1) (u64 (Z.lnot (alignment -w 1))).

Lemma align_up_pow2 v k :
  0 <= v → 0 <= k < 64 → v + 2 ^ k - 1 < 2 ^ 64 →
  align_up v (2 ^ k) = v + 2 ^ k - 1 - (v + 2 ^ k - 1) `mod` 2 ^ k.
Proof.
  intros Hv Hk Hb. unfold align_up.
  pose proof (Z.pow_pos_nonneg 2 k). pose proof (Z.pow_lt_mono_r 2 k 64).
  rewrite u64_sub_l, (u64_small (2 ^ k - 1)), (u64_small (v + _ - 1)) by lia.
  apply land_lnot_mask; lia.
Qed.

(** The result is the least multiple of [a] that is not below [v]. *)
Lemma align_up_spec v a :
  0 <= v → 0 < a < 2 ^ 64 → is_pow2 a = true → v + a - 1 < 2 ^ 64 →
  v <= align_up v a < v + a ∧ align_up v a `mod` a = 0.
Proof.
  intros Hv Ha (k & Hk & ->)%is_pow2_inv Hb; [|lia].
  assert (k < 64) by (apply (Z.pow_lt_mono_r_iff 2); lia).
  rewrite align_up_pow2 by lia. set (x := v + 2 ^ k - 1).
  pose proof (Z.mod_pos_bound x (2 ^ k)). split; [lia|].
  rewrite <- Zminus_mod_idemp_l, Z.sub_diag. apply Z.mod_0_l. lia.
Qed.

(** ** Little-endian fields *)

Lemma le_combine_split_small n z :
  0 <= z < 2 ^ (Z.of_nat n * 8) → le_combine (le_split n z) = z.
Proof. intros. rewrite le_combine_split. by apply Z.mod_small. Qed.

(** ** Spans of bytes

    A [std::span] or buffer is a list of bytes; a [memcpy] whose range leaves the
    buffer is undefined behaviour, which is [None]. *)

Definition span_size (buf : list byte) : Z := Z.of_nat (length buf).

Definition span_read (buf : list byte) (off n : Z) : option (list byte) :=
  if (0 <=? off) && (0 <=? n) && (off + n <=? span_size buf)
  then Some (take (Z.to_nat n) (drop (Z.to_nat off) buf)) else None.

Definition span_write (buf : list byte) (off : Z) (src : list byte) : option (list byte) :=
  if (0 <=? off) && (off + span_size src <=? span_size buf)
  then Some (take (Z.to_nat off) buf ++ src ++ drop (Z.to_nat (off + span_size src)) buf)
  else None.

Lemma span_size_app a b : span_size (a ++ b) = span_size a + span_size b.
Proof. unfold span_size. rewrite length_app. lia. Qed.

Lemma span_size_nonneg a : 0 <= span_size a.
Proof. unfold span_size. lia. Qed.

Lemma span_size_le_split n z : span_size (le_split n z) = Z.of_nat n.
Proof. unfold span_size. by rewrite length_le_split. Qed.

Lemma span_size_replicate n b : span_size (replicate n b) = Z.of_nat n.
Proof. unfold span_size. by rewrite length_replicate. Qed.

#[export] Hint Rewrite span_size_app span_size_le_split span_size_replicate : span.

(** Reading a middle piece. *)
Lemma span_read_mid a m c off n :
  off = span_size a → n = span_size m → span_read (a ++ m ++ c) off n = Some m.
Proof.
  intros -> ->. unfold span_read. rewrite !span_size_app.
  pose proof (span_size_nonneg a). pose proof (span_size_nonneg m).
  pose proof (span_size_nonneg c).
  repeat (rewrite (proj2 (Z.leb_le _ _)) by lia). simpl. f_equal.
  unfold span_size. rewrite !Nat2Z.id, drop_app_length. apply take_app_length.
Qed.

Lemma span_write_mid a m c src off :
  off = span_size a → length src = length m →
  span_write (a ++ m ++ c) off src = Some (a ++ src ++ c).
Proof.
  intros -> Hl. unfold span_write, span_size. rewrite !length_app, Hl.
  repeat (rewrite (proj2 (Z.leb_le _ _)) by lia). simpl. f_equal.
  rewrite Nat2Z.id, take_app_length. do 2 f_equal.
  rewrite app_assoc. apply drop_app_exact. rewrite length_app. lia.
Qed.

Lemma span_read_prefix m c n : n = span_size m → span_read (m ++ c) 0 n = Some m.
Proof. apply (span_read_mid []). done. Qed.

Lemma span_write_prefix m c src : length src = length m → span_write (m ++ c) 0 src = Some (src ++ c).
Proof. apply (span_write_mid []). done. Qed.

(** Inside its bounds a read succeeds and splits the buffer. *)
Lemma span_read_split buf off n :
  0 <= off → 0 <= n → off + n <= span_size buf →
  ∃ a m c, buf = a ++ m ++ c ∧ span_size a = off ∧ span_size m = n ∧
           span_read buf off n = Some m.
Proof.
  intros Ho Hn Hb.
  exists (take (Z.to_nat off) buf), (take (Z.to_nat n) (drop (Z.to_nat off) buf)),
    (drop (Z.to_nat (off + n)) buf).
  unfold span_read. repeat (rewrite (proj2 (Z.leb_le _ _)) by lia). simpl.
  unfold span_size in *. rewrite !length_take, length_drop. split; [|split_and!; [lia|lia|done]].
  rewrite Z2Nat.inj_add by lia. apply take_drop_split. lia.
Qed.
