(* ===== verification/Transition.v ===== *)
(** * Transition systems

    The concurrent components are step relations on a state record, one step per
    atomic access of the source. This file holds what they share: reachable
    states, the invariant rules, and histories of operations of a bounded FIFO
    queue with the sequential specification they are checked against. *)
From S2P Require Import Prelude.

(** ** Reachability and invariants *)

Section reachability.
Context {State : Type} (init : State → Prop) (step : State → State → Prop).

Definition reachable (s : State) : Prop := ∃ s0, init s0 ∧ rtc step s0 s.

Lemma reachable_init s : init s → reachable s.
Proof. intros. by exists s. Qed.

Lemma reachable_step s s' : reachable s → step s s' → reachable s'.
Proof. intros (s0 & ? & ?) ?. exists s0. split; [done|]. by eapply rtc_r. Qed.

Lemma reachable_ind' (P : State → Prop) :
  (∀ s, init s → P s) →
  (∀ s s', reachable s → P s → step s s' → P s') →
  ∀ s, reachable s → P s.
Proof.
  intros Hi Hs s (s0 & H0 & Hr). revert s Hr.
  refine (rtc_ind_r (λ s, P s) s0 (Hi s0 H0) _).
  intros y z Hy Hyz IH. apply (Hs y z); [|done|done]. by exists s0.
Qed.

(** The rule for an invariant that only holds while a counter that never
    decreases stays under a bound. *)
Lemma reachable_ind_bounded (P : State → Prop) (m : State → Z) (bound : Z) :
  (∀ s, init s → P s) →
  (∀ s s', step s s' → m s <= m s') →
  (∀ s s', P s → step s s' → m s' <= bound → P s') →
  ∀ s, reachable s → m s <= bound → P s.
Proof.
  intros Hi Hm Hs. apply (reachable_ind' (λ s, m s <= bound → P s)); [auto|].
  intros s s' _ IH Hstep Hb. apply (Hs s s'); [|done|done]. apply IH.
  specialize (Hm s s' Hstep). lia.
Qed.
End reachability.

(** ** Runs by execution

    A step relation with a function that takes a step for a choice among those enabled:
    concrete runs are computed. *)

Section execution.
Context {State Choice : Type} (init : State → Prop) (step : State → State → Prop).
Context (exec : Choice → State → option State).
Context (exec_step : ∀ c s s', exec c s = Some s' → step s s').

Fixpoint execute (cs : list Choice) (s : State) : option State :=
  match cs with
  | [] => Some s
  | c :: cs => match exec c s with Some s' => execute cs s' | None => None end
  end.

(** The end of a run, or its start if a choice is not enabled. *)
Definition end_of (cs : list Choice) (s : State) : State := default s (execute cs s).

Lemma end_reachable cs s : init s → reachable init step (end_of cs s).
Proof.
  intros Hs. exists s. split; [done|]. unfold end_of.
  destruct (execute cs s) as [s'|] eqn:E; [|done]. simpl. clear Hs. revert s E.
  induction cs as [|c cs IH]; intros s E; simpl in E; [by injection E as ->|].
  destruct (exec c s) as [s1|] eqn:Ec; [|done]. eapply rtc_l; [by eapply exec_step|by apply IH].
Qed.

Lemma exec_observe {A} (f : State → A) c s a :
  f <$> exec c s = Some a → ∃ s', step s s' ∧ f s' = a.
Proof.
  destruct (exec c s) as [s'|] eqn:E; [|done]. intros [= <-].
  exists s'. split; [by eapply exec_step|done].
Qed.
End execution.

(** ** Histories of a bounded FIFO queue *)

Section fifo.
Context {T : Type}.

(** What one completed operation answered: [EvFull] is a push that returned
    [false], [EvEmpty] a pop that returned [nullopt]. *)
Inductive event :=
| EvPush (x : T)
| EvFull
| EvPop (x : T)
| EvEmpty.

(** The sequential specification: a queue of at most [cap] elements. *)
Inductive fifo_step (cap : nat) : list T → event → list T → Prop :=
| fifo_push q x : (length q < cap)%nat → fifo_step cap q (EvPush x) (q ++ [x])
| fifo_full q : length q = cap → fifo_step cap q EvFull q
| fifo_pop x q : fifo_step cap (x :: q) (EvPop x) q
| fifo_empty : fifo_step cap [] EvEmpty [].

(** [fifo_run cap tr q]: from the empty queue, the history [tr] (oldest event
    first) is legal and leaves the contents [q]. *)
Inductive fifo_run (cap : nat) : list event → list T → Prop :=
| run_nil : fifo_run cap [] []
| run_snoc tr e q q' : fifo_run cap tr q → fifo_step cap q e q' → fifo_run cap (tr ++ [e]) q'.

Definition pushed (tr : list event) : list T :=
  omap (λ e, match e with EvPush x => Some x | _ => None end) tr.

Definition popped (tr : list event) : list T :=
  omap (λ e, match e with EvPop x => Some x | _ => None end) tr.

Lemma pushed_app a b : pushed (a ++ b) = pushed a ++ pushed b.
Proof. apply omap_app. Qed.

Lemma popped_app a b : popped (a ++ b) = popped a ++ popped b.
Proof. apply omap_app. Qed.

Lemma pushed_push tr x : pushed (tr ++ [EvPush x]) = pushed tr ++ [x].
Proof. by rewrite pushed_app. Qed.

Lemma pushed_pop tr x : pushed (tr ++ [EvPop x]) = pushed tr.
Proof. rewrite pushed_app. apply app_nil_r. Qed.

Lemma popped_push tr x : popped (tr ++ [EvPush x]) = popped tr.
Proof. rewrite popped_app. apply app_nil_r. Qed.

Lemma popped_pop tr x : popped (tr ++ [EvPop x]) = popped tr ++ [x].
Proof. by rewrite popped_app. Qed.

(** A legal history neither loses, duplicates nor reorders elements. *)
Lemma fifo_run_contents cap tr q :
  fifo_run cap tr q → pushed tr = popped tr ++ q ∧ (length q <= cap)%nat.
Proof.
  induction 1 as [|tr e q q' _ [IH1 IH2] Hs]; [split; [done|simpl; lia]|].
  rewrite pushed_app, popped_app, IH1.
  inversion Hs; subst; simpl in *; rewrite ?app_nil_r, ?length_app; simpl;
    rewrite <- ?app_assoc; (split; [done|lia]).
Qed.
End fifo.
Arguments event : clear implicits.
