(* ===== verification/Weak.v ===== *)
(** * Weak memory

    The memory that the atomics of the queues are verified against, beyond interleavings:
    the release-acquire fragment of the C++ memory model with relaxed accesses, fences and
    compare-exchange, in the operational style with views. A location keeps every message
    ever stored in it, in modification order; a view says, per location, up to which
    message something is known. A load may read any message not older than what its thread
    knows. A release store hands its thread's knowledge on with the message, and an
    acquire load takes it.

    Two things are checked instead of modelled. A store is appended to its location, and
    has no answer if its thread does not know the newest message; a plain access has no
    answer if it races, that is, if its thread does not know the newest access. The
    components show that neither ever happens to them. An access to plain memory here is
    exclusive (it constructs, or moves out and destroys), so that each counts as a store.
    Cycles of dependencies and reads-from are excluded, as in the repaired C++ model
    (RC11); a compare-exchange that is [seq_cst] is treated as [acq_rel], which allows
    more. *)
From S2P Require Import Prelude.

(** The orders of [std::memory_order] that the program names. *)
Inductive order := Relaxed | Acquire | Release | AcqRel | SeqCst.

Definition acquires (o : order) : bool := match o with Relaxed | Release => false | _ => true end.

Definition releases (o : order) : bool := match o with Relaxed | Acquire => false | _ => true end.

Section memory.
Context {L V : Type} `{!EqDecision L}.

(** ** Data *)

Definition view : Type := L → nat.

Definition bot : view := λ _, 0%nat.

Definition join (a b : view) : view := λ l, (a l `max` b l)%nat.

(** Only message [n] of [l]. *)
Definition at_ (l : L) (n : nat) : view := λ l', if decide (l' = l) then n else 0%nat.

(** [by_rmw]: stored by a read-modify-write, so that nothing comes between it and the
    message before. *)
Record message := { value : V; carries : view; by_rmw : bool }.

(** [sc]: what the [seq_cst] fences so far have known. *)
Record memory := { cells : L → list message; sc : view }.

(** What a thread knows, what it will know after an acquire fence, and what it knew at its
    last release fence. *)
Record thread := { cur : view; acq : view; rel : view }.

Definition memory_new (init : L → V) : memory := {|
  cells l := [{| value := init l; carries := bot; by_rmw := false |}]; sc := bot |}.

Definition thread_new : thread := {| cur := bot; acq := bot; rel := bot |}.

Definition latest (mem : memory) (l : L) : nat := pred (length (cells mem l)).

(** The newest value. *)
Definition newest (mem : memory) (l : L) : option V := value <$> last (cells mem l).

Definition push_message (mem : memory) (l : L) (m : message) : memory := {|
  cells l' := if decide (l' = l) then cells mem l ++ [m] else cells mem l'; sc := sc mem |}.

(** ** Accesses *)

(** The thread after reading message [m], the [n]-th of [l]. *)
Definition see (o : order) (l : L) (n : nat) (m : message) (th : thread) : thread := {|
  cur := join (cur th) (join (at_ l n) (if acquires o then carries m else bot));
  acq := join (acq th) (join (at_ l n) (carries m));
  rel := rel th |}.

(** The thread after storing message [n] of [l]. *)
Definition note (l : L) (n : nat) (th : thread) : thread := {|
  cur := join (cur th) (at_ l n); acq := join (acq th) (at_ l n); rel := rel th |}.

(** [load] of message [n]. *)
Definition load (o : order) (l : L) (n : nat) (mem : memory) (th : thread) : option (V * thread) :=
  if (cur th l <=? n)%nat then (λ m, (value m, see o l n m th)) <$> cells mem l !! n else None.

Definition knows (mem : memory) (th : thread) (l : L) : bool := (cur th l =? latest mem l)%nat.

Definition handed_on (o : order) (l : L) (n : nat) (th : thread) : view :=
  join (at_ l n) (if releases o then cur th else rel th).

Definition store (o : order) (l : L) (v : V) (mem : memory) (th : thread) : option (memory * thread) :=
  if knows mem th l then
    let n := length (cells mem l) in
    let th := note l n th in
    Some (push_message mem l {| value := v; carries := handed_on o l n th; by_rmw := false |}, th)
  else None.

(** The exchange of a [compare_exchange] that succeeds: it reads the newest message, and
    its message continues the release sequence of the one it read. *)
Definition exchange (o : order) (l : L) (v : V) (mem : memory) (th : thread) :
    option (V * memory * thread) :=
  let n := length (cells mem l) in
  m ← cells mem l !! pred n;
  let th := note l n (see o l (pred n) m th) in
  Some (value m, push_message mem l
    {| value := v; carries := join (carries m) (handed_on o l n th); by_rmw := true |}, th).

(** An exchange cannot read any other message with the value expected: the next one is a
    read-modify-write of it already. *)
Definition exchange_confined (mem : memory) (l : L) (expected : V) : Prop :=
  ∀ n m, cells mem l !! n = Some m → value m = expected → (n < latest mem l)%nat →
    ∃ m', cells mem l !! S n = Some m' ∧ by_rmw m' = true.

(** An exclusive access to plain memory: [None] is a race. *)
Definition plain_read (l : L) (mem : memory) (th : thread) : option V :=
  if knows mem th l then newest mem l else None.

Definition plain_write (l : L) (v : V) (mem : memory) (th : thread) : option (memory * thread) :=
  store Relaxed l v mem th.

(** ** Fences and other synchronisation *)

Definition fence_acquire (th : thread) : thread :=
  {| cur := join (cur th) (acq th); acq := acq th; rel := rel th |}.

Definition fence_release (th : thread) : thread :=
  {| cur := cur th; acq := acq th; rel := cur th |}.

Definition fence_seq_cst (mem : memory) (th : thread) : memory * thread :=
  let c := join (join (cur th) (acq th)) (sc mem) in
  ({| cells := cells mem; sc := c |}, {| cur := c; acq := c; rel := c |}).

(** The thread learns what another knows: synchronisation outside the component. *)
Definition learn (from : view) (th : thread) : thread :=
  {| cur := join (cur th) from; acq := join (acq th) from; rel := rel th |}.

(** ** Order of views *)

Definition view_le (a b : view) : Prop := ∀ l, (a l <= b l)%nat.

#[export] Instance view_le_preorder : PreOrder view_le.
Proof. split; [by intros a l|]. intros a b c H1 H2 l. specialize (H1 l). specialize (H2 l). lia. Qed.

Lemma join_l a b : view_le a (join a b).
Proof. intros l. unfold join. lia. Qed.

Lemma join_r a b : view_le b (join a b).
Proof. intros l. unfold join. lia. Qed.

Lemma join_lub a b c : view_le a c → view_le b c → view_le (join a b) c.
Proof. intros H1 H2 l. specialize (H1 l). specialize (H2 l). unfold join. lia. Qed.

Lemma bot_le a : view_le bot a.
Proof. intros l. unfold bot. lia. Qed.

Lemma at_le l n a : (n <= a l)%nat → view_le (at_ l n) a.
Proof. intros H l'. unfold at_. case_decide; subst; lia. Qed.

Lemma at_same l n : at_ l n l = n.
Proof. unfold at_. by rewrite decide_True. Qed.

Lemma at_other l n l' : l' ≠ l → at_ l n l' = 0%nat.
Proof. intros. unfold at_. by rewrite decide_False. Qed.

(** ** Well-formedness: views stay inside the memory *)

Definition closed (mem : memory) (v : view) : Prop := ∀ l, (v l <= latest mem l)%nat.

Definition thread_closed (mem : memory) (th : thread) : Prop :=
  closed mem (cur th) ∧ closed mem (acq th) ∧ closed mem (rel th).

Record memory_ok (mem : memory) : Prop := {
  ok_inhabited : ∀ l, (0 < length (cells mem l))%nat;
  ok_carries : ∀ l n m, cells mem l !! n = Some m → closed mem (carries m) ∧ (n <= carries m l)%nat;
  ok_sc : closed mem (sc mem) }.

Lemma closed_le mem a b : view_le a b → closed mem b → closed mem a.
Proof. intros H1 H2 l. specialize (H1 l). specialize (H2 l). lia. Qed.

Lemma closed_join mem a b : closed mem a → closed mem b → closed mem (join a b).
Proof. apply join_lub. Qed.

Lemma closed_bot mem : closed mem bot.
Proof. apply bot_le. Qed.

Lemma closed_at mem l n : (n <= latest mem l)%nat → closed mem (at_ l n).
Proof. apply at_le. Qed.

Lemma memory_new_ok init : memory_ok (memory_new init).
Proof.
  split; simpl; [lia| |apply closed_bot]. intros l n m H.
  destruct n as [|n]; [|done]. injection H as <-. simpl. split; [apply closed_bot|lia].
Qed.

Lemma thread_new_closed mem : thread_closed mem thread_new.
Proof. split_and!; apply closed_bot. Qed.

(** The memory only grows. *)
Definition memory_le (mem mem' : memory) : Prop := ∀ l, cells mem l `prefix_of` cells mem' l.

Lemma memory_le_latest mem mem' l : memory_le mem mem' → (latest mem l <= latest mem' l)%nat.
Proof. intros H. specialize (H l). apply prefix_length in H. unfold latest. lia. Qed.

Lemma closed_mono mem mem' v : memory_le mem mem' → closed mem v → closed mem' v.
Proof. intros H Hv l. pose proof (memory_le_latest _ _ l H). specialize (Hv l). lia. Qed.

Lemma thread_closed_mono mem mem' th :
  memory_le mem mem' → thread_closed mem th → thread_closed mem' th.
Proof. intros H (? & ? & ?). split_and!; by eapply closed_mono. Qed.

Lemma push_message_le mem l m : memory_le mem (push_message mem l m).
Proof. intros l'. simpl. case_decide; [subst; by apply prefix_app_r|done]. Qed.

Lemma cells_push_same mem l m : cells (push_message mem l m) l = cells mem l ++ [m].
Proof. simpl. by rewrite decide_True. Qed.

Lemma cells_push_other mem l m l' : l' ≠ l → cells (push_message mem l m) l' = cells mem l'.
Proof. intros. simpl. by rewrite decide_False. Qed.

Lemma latest_push_same mem l m :
  (0 < length (cells mem l))%nat → latest (push_message mem l m) l = S (latest mem l).
Proof. intros. unfold latest. rewrite cells_push_same, length_app. simpl. lia. Qed.

Lemma latest_push_other mem l m l' : l' ≠ l → latest (push_message mem l m) l' = latest mem l'.
Proof. intros. unfold latest. by rewrite cells_push_other. Qed.

Lemma push_message_ok mem l m :
  memory_ok mem → closed (push_message mem l m) (carries m) →
  (length (cells mem l) <= carries m l)%nat → memory_ok (push_message mem l m).
Proof.
  intros [Hi Hc Hs] Hm Hl. pose proof (push_message_le mem l m) as Hle. split.
  - intros l'. pose proof (prefix_length _ _ (Hle l')). specialize (Hi l'). lia.
  - intros l' n m' H. destruct (decide (l' = l)) as [->|Hne].
    + rewrite cells_push_same in H. apply lookup_app_Some in H as [H|[H1 H2]].
      * destruct (Hc _ _ _ H). split; [by eapply closed_mono|done].
      * apply list_lookup_singleton_Some in H2 as [H2 <-]. split; [done|lia].
    + rewrite cells_push_other in H by done. destruct (Hc _ _ _ H).
      split; [by eapply closed_mono|done].
  - by eapply closed_mono.
Qed.

(** ** What the accesses do *)

Lemma load_inv o l n mem th v th' :
  load o l n mem th = Some (v, th') →
  ∃ m, cells mem l !! n = Some m ∧ value m = v ∧ (cur th l <= n)%nat ∧ th' = see o l n m th.
Proof.
  unfold load. destruct (Nat.leb_spec (cur th l) n) as [Hle|]; [|done].
  destruct (cells mem l !! n) as [m|]; [|done]. intros [= <- <-]. by exists m.
Qed.

(** A thread can always load: the newest message at least. *)
Lemma load_newest o l mem th :
  memory_ok mem → thread_closed mem th → ∃ v th', load o l (latest mem l) mem th = Some (v, th').
Proof.
  intros Hm (Hc & _). unfold load. specialize (Hc l).
  destruct (Nat.leb_spec (cur th l) (latest mem l)); [|lia].
  destruct (lookup_lt_is_Some_2 (cells mem l) (latest mem l)) as [m ->]; [|by eexists _, _].
  unfold latest. pose proof (ok_inhabited _ Hm l). lia.
Qed.

Lemma see_closed o l n m mem th :
  memory_ok mem → thread_closed mem th → cells mem l !! n = Some m →
  thread_closed mem (see o l n m th).
Proof.
  intros Hm (H1 & H2 & H3) Hn. destruct (ok_carries _ Hm _ _ _ Hn) as [Hc _].
  apply lookup_lt_Some in Hn. assert (closed mem (at_ l n)) by (apply closed_at; unfold latest; lia).
  split_and!; simpl; [|by repeat apply closed_join|done].
  repeat apply closed_join; [done|done|]. destruct (acquires o); [done|apply closed_bot].
Qed.

Lemma load_closed o l n mem th v th' :
  memory_ok mem → thread_closed mem th → load o l n mem th = Some (v, th') → thread_closed mem th'.
Proof. intros ?? (m & ? & ? & ? & ->)%load_inv. by apply see_closed. Qed.

Lemma see_cur_le o l n m th : view_le (cur th) (cur (see o l n m th)).
Proof. apply join_l. Qed.

(** An acquire load takes exactly what the message carries. *)
Lemma see_acquire o l n m th v l' :
  acquires o = true → (n <= carries m l)%nat → v = cur (see o l n m th) →
  v l' = (cur th l' `max` carries m l')%nat.
Proof.
  intros Ho Hn ->. simpl. rewrite Ho. unfold join, at_. case_decide; subst; lia.
Qed.

(** A relaxed load takes the message alone. *)
Lemma see_relaxed l n m th l' :
  cur (see Relaxed l n m th) l' = (cur th l' `max` at_ l n l')%nat.
Proof. simpl. unfold join, bot. lia. Qed.

Lemma store_inv o l v mem th mem' th' :
  store o l v mem th = Some (mem', th') →
  cur th l = latest mem l ∧ th' = note l (length (cells mem l)) th ∧
  mem' = push_message mem l {| value := v;
    carries := handed_on o l (length (cells mem l)) (note l (length (cells mem l)) th); by_rmw := false |}.
Proof.
  unfold store, knows. destruct (Nat.eqb_spec (cur th l) (latest mem l)); [|done].
  by intros [= <- <-].
Qed.

Lemma store_defined o l v mem th :
  thread_closed mem th → (latest mem l <= cur th l)%nat → ∃ r, store o l v mem th = Some r.
Proof.
  intros (Hc & _) Hl. specialize (Hc l). unfold store, knows.
  destruct (Nat.eqb_spec (cur th l) (latest mem l)); [by eexists|lia].
Qed.

Lemma handed_on_self o l n th : (n <= handed_on o l n th l)%nat.
Proof. unfold handed_on, join. rewrite at_same. lia. Qed.

Lemma handed_on_closed o l n mem th :
  thread_closed mem th → (n <= latest mem l)%nat → closed mem (handed_on o l n th).
Proof.
  intros (? & _ & ?) ?. apply closed_join; [by apply closed_at|by destruct (releases o)].
Qed.

Lemma note_closed l n mem th :
  thread_closed mem th → (n <= latest mem l)%nat → thread_closed mem (note l n th).
Proof.
  intros (? & ? & ?) ?. split_and!; [..|done]; (apply closed_join; [done|by apply closed_at]).
Qed.

Lemma store_ok o l v mem th mem' th' :
  memory_ok mem → thread_closed mem th → store o l v mem th = Some (mem', th') →
  memory_ok mem' ∧ thread_closed mem' th' ∧ memory_le mem mem'.
Proof.
  intros Hm Hth (Hk & -> & ->)%store_inv. pose proof (ok_inhabited _ Hm l).
  set (m := {| value := v |}).
  assert (thread_closed (push_message mem l m) (note l (length (cells mem l)) th)) as Hc.
  { apply note_closed; [eapply thread_closed_mono; [apply push_message_le|done]|].
    rewrite latest_push_same by done. unfold latest. lia. }
  split_and!; [|done|apply push_message_le]. apply push_message_ok; [done| |apply handed_on_self].
  apply handed_on_closed; [done|]. rewrite latest_push_same by done. unfold latest. lia.
Qed.

Lemma exchange_inv o l v mem th u mem' th' :
  memory_ok mem → exchange o l v mem th = Some (u, mem', th') →
  ∃ m, cells mem l !! latest mem l = Some m ∧ value m = u ∧
    th' = note l (length (cells mem l)) (see o l (latest mem l) m th) ∧
    mem' = push_message mem l {| value := v;
      carries := join (carries m) (handed_on o l (length (cells mem l)) th'); by_rmw := true |}.
Proof.
  intros Hm. unfold exchange, latest. destruct (cells mem l !! _) as [m|]; [|done].
  simpl. intros [= <- <- <-]. by exists m.
Qed.

Lemma exchange_ok o l v mem th u mem' th' :
  memory_ok mem → thread_closed mem th → exchange o l v mem th = Some (u, mem', th') →
  memory_ok mem' ∧ thread_closed mem' th' ∧ memory_le mem mem'.
Proof.
  intros Hm Hth (m & Hl & _ & -> & ->)%exchange_inv; [|done]. pose proof (ok_inhabited _ Hm l).
  set (m' := {| value := v |}). pose proof (push_message_le mem l m') as Hle.
  assert (length (cells mem l) <= latest (push_message mem l m') l)%nat
    by (rewrite latest_push_same by done; unfold latest; lia).
  assert (thread_closed (push_message mem l m')
    (note l (length (cells mem l)) (see o l (latest mem l) m th))) as Hc.
  { apply note_closed; [|done]. eapply thread_closed_mono; [done|]. by apply see_closed. }
  destruct (ok_carries _ Hm _ _ _ Hl) as [Hcm _].
  split_and!; [|done|done]. apply push_message_ok; [done| |].
  - apply closed_join; [by eapply closed_mono|by apply handed_on_closed].
  - etrans; [apply handed_on_self|apply join_r].
Qed.

Lemma fence_acquire_closed mem th : thread_closed mem th → thread_closed mem (fence_acquire th).
Proof. intros (? & ? & ?). split_and!; try done. by apply closed_join. Qed.

Lemma fence_release_closed mem th : thread_closed mem th → thread_closed mem (fence_release th).
Proof. by intros (? & ? & ?). Qed.

Lemma fence_seq_cst_ok mem th mem' th' :
  memory_ok mem → thread_closed mem th → fence_seq_cst mem th = (mem', th') →
  memory_ok mem' ∧ thread_closed mem' th' ∧ memory_le mem mem'.
Proof.
  intros Hm (H1 & H2 & H3) [= <- <-].
  assert (closed mem (join (join (cur th) (acq th)) (sc mem))) as Hc
    by (repeat apply closed_join; try done; apply Hm).
  split_and!; [split; [apply Hm|apply Hm|done]|done|by intros l].
Qed.

Lemma learn_closed mem from th : closed mem from → thread_closed mem th → thread_closed mem (learn from th).
Proof. intros ? (? & ? & ?). split_and!; try done; by apply closed_join. Qed.

Lemma newest_push_same mem l m : newest (push_message mem l m) l = Some (value m).
Proof. unfold newest. by rewrite cells_push_same, last_snoc. Qed.

Lemma newest_push_other mem l m l' : l' ≠ l → newest (push_message mem l m) l' = newest mem l'.
Proof. intros. unfold newest. by rewrite cells_push_other. Qed.

Lemma newest_lookup mem l m :
  cells mem l !! latest mem l = Some m → newest mem l = Some (value m).
Proof. intros H. unfold newest. rewrite last_lookup. unfold latest in H. by rewrite H. Qed.

Lemma latest_message mem l : memory_ok mem → ∃ m, cells mem l !! latest mem l = Some m.
Proof.
  intros Hm. apply lookup_lt_is_Some_2. pose proof (ok_inhabited _ Hm l). unfold latest. lia.
Qed.

Lemma plain_read_defined mem th l :
  thread_closed mem th → (latest mem l <= cur th l)%nat → plain_read l mem th = newest mem l.
Proof.
  intros (Hc & _) Hl. specialize (Hc l). unfold plain_read, knows.
  by destruct (Nat.eqb_spec (cur th l) (latest mem l)); [|lia].
Qed.

Lemma plain_read_inv mem th l v :
  plain_read l mem th = Some v → cur th l = latest mem l ∧ newest mem l = Some v.
Proof. unfold plain_read, knows. by destruct (Nat.eqb_spec (cur th l) (latest mem l)). Qed.
End memory.
Arguments view : clear implicits.
Arguments message : clear implicits.
Arguments memory : clear implicits.
Arguments thread : clear implicits.

(** ** Automation *)

Create HintDb weak.
#[export] Hint Resolve join_l join_r bot_le push_message_le closed_bot : weak.
#[export] Hint Resolve load_closed see_closed fence_acquire_closed fence_release_closed
  learn_closed thread_closed_mono closed_mono : weak.
