(* ===== verification/Ring.v ===== *)
(** * Ring buffers

    Index arithmetic shared by the queues: a position is a 64-bit counter that
    only grows, its slot is [pos & MASK]. *)
From S2P Require Import Prelude.

(** The [requires] clause of [SpscQueue] and [MpmcQueue]. *)
Class RingCapacity (Capacity : Z) : Prop := {
  capacity_pos : 0 < Capacity < 2 ^ 64;
  capacity_pow2 : is_pow2 Capacity = true }.

#[export] Instance capacity_4 : RingCapacity 4.
Proof. by split. Qed.

#[export] Instance capacity_2 : RingCapacity 2.
Proof. by split. Qed.

#[export] Instance capacity_1024 : RingCapacity 1024.
Proof. by split. Qed.

Section ring.
Context (Capacity : Z).

Definition MASK : Z := Capacity -w 1.

Definition slot_index (pos : Z) : nat := Z.to_nat (Z.land pos MASK).

Context `{!RingCapacity Capacity}.

Lemma slot_index_mod pos : slot_index pos = Z.to_nat (pos `mod` Capacity).
Proof.
  pose proof capacity_pos. unfold slot_index, MASK. rewrite u64_small by lia.
  rewrite land_mask; [done|lia|apply capacity_pow2].
Qed.

Lemma slot_index_lt pos : (slot_index pos < Z.to_nat Capacity)%nat.
Proof.
  pose proof capacity_pos. rewrite slot_index_mod.
  pose proof (Z.mod_pos_bound pos Capacity). lia.
Qed.

Lemma capacity_divides : (Capacity | 2 ^ 64).
Proof.
  pose proof capacity_pos as Hc.
  destruct (is_pow2_inv Capacity) as (k & Hk & ->); [lia|apply capacity_pow2|].
  exists (2 ^ (64 - k)). assert (k < 64) by (apply (Z.pow_lt_mono_r_iff 2); lia).
  rewrite <- Z.pow_add_r by lia. f_equal. lia.
Qed.

Lemma capacity_half : Capacity <= 2 ^ 63.
Proof.
  pose proof capacity_pos as Hc.
  destruct (is_pow2_inv Capacity) as (k & Hk & ->); [lia|apply capacity_pow2|].
  assert (k < 64) by (apply (Z.pow_lt_mono_r_iff 2); lia).
  apply Z.pow_le_mono_r; lia.
Qed.

(** The wrap of the counter does not disturb the slots. *)
Lemma slot_index_u64 pos : slot_index (u64 pos) = slot_index pos.
Proof.
  pose proof capacity_pos. rewrite !slot_index_mod. unfold u64, wrap. f_equal.
  destruct capacity_divides as [d Hd]. rewrite Hd, Z.mul_comm.
  assert (0 < d) by nia. rewrite Z.rem_mul_r by lia.
  rewrite Z.mul_comm, Z_mod_plus_full. by apply Z.mod_mod; lia.
Qed.

Lemma slot_index_congr p q :
  slot_index p = slot_index q ↔ p `mod` Capacity = q `mod` Capacity.
Proof.
  pose proof capacity_pos. rewrite !slot_index_mod.
  pose proof (Z.mod_pos_bound p Capacity ltac:(lia)).
  pose proof (Z.mod_pos_bound q Capacity ltac:(lia)).
  generalize dependent (p `mod` Capacity). generalize dependent (q `mod` Capacity).
  intros. split; [apply Z2Nat.inj; lia|by intros ->].
Qed.

Lemma slot_index_inj p q :
  - Capacity < p - q < Capacity → slot_index p = slot_index q → p = q.
Proof.
  intros Hd Hi%slot_index_congr. pose proof capacity_pos.
  pose proof (Z.div_mod p Capacity ltac:(lia)). pose proof (Z.div_mod q Capacity ltac:(lia)).
  destruct (Z.lt_trichotomy (p / Capacity) (q / Capacity)) as [|[E|]]; [nia| |nia].
  rewrite E in *. lia.
Qed.

(** Two positions that share a slot are equal or a whole ring apart. *)
Lemma slot_index_apart p q :
  slot_index p = slot_index q → p = q ∨ p + Capacity <= q ∨ q + Capacity <= p.
Proof.
  intros Hi. destruct (Z.eq_dec p q); [by left|right].
  destruct (Z.le_gt_cases (p + Capacity) q); [by left|].
  destruct (Z.le_gt_cases (q + Capacity) p); [by right|].
  exfalso. by apply slot_index_inj in Hi; [|lia].
Qed.

Lemma slot_index_add_cap p : slot_index (p + Capacity) = slot_index p.
Proof. apply slot_index_congr. rewrite <- (Z.mul_1_l Capacity) at 1. apply Z_mod_plus_full. Qed.

(** From any position, the next [Capacity] positions visit every slot. *)
Lemma slot_index_onto pos i :
  (i < Z.to_nat Capacity)%nat →
  ∃ k, (k < Z.to_nat Capacity)%nat ∧ slot_index (pos + Z.of_nat k) = i.
Proof.
  intros Hi. pose proof capacity_pos.
  exists (Z.to_nat ((Z.of_nat i - pos) `mod` Capacity)).
  pose proof (Z.mod_pos_bound (Z.of_nat i - pos) Capacity).
  split; [lia|]. rewrite Z2Nat.id by lia. rewrite slot_index_mod, Zplus_mod_idemp_r.
  replace (pos + (Z.of_nat i - pos)) with (Z.of_nat i) by lia.
  rewrite Z.mod_small by lia. lia.
Qed.

(** ** Positions as counts

    The [j]-th element goes to the slot [slot_of j], in its turn number [turn_of j]. *)
Definition ring_size : nat := Z.to_nat Capacity.

Definition slot_of (j : nat) : nat := slot_index (Z.of_nat j).

Definition turn_of (j : nat) : nat := (j / ring_size)%nat.

Lemma ring_size_pos : (0 < ring_size)%nat ∧ Z.of_nat ring_size = Capacity.
Proof. pose proof capacity_pos. unfold ring_size. lia. Qed.

Lemma slot_of_inj j k :
  (j < k + ring_size)%nat → (k < j + ring_size)%nat → slot_of j = slot_of k → j = k.
Proof.
  pose proof ring_size_pos as [_ Hc]. intros H1 H2 E. apply slot_index_inj in E; lia.
Qed.

Lemma slot_of_add j : slot_of (j + ring_size) = slot_of j.
Proof.
  pose proof ring_size_pos as [_ Hc]. unfold slot_of. rewrite Nat2Z.inj_add, Hc.
  apply slot_index_add_cap.
Qed.

Lemma slot_of_u64 j : slot_index (u64 (Z.of_nat j)) = slot_of j.
Proof. apply slot_index_u64. Qed.

Lemma turn_of_add j : turn_of (j + ring_size) = S (turn_of j).
Proof.
  pose proof ring_size_pos. unfold turn_of.
  replace (j + ring_size)%nat with (j + 1 * ring_size)%nat by lia. rewrite Nat.div_add by lia. lia.
Qed.

Lemma turn_of_small j : (j < ring_size)%nat → turn_of j = 0%nat.
Proof. apply Nat.div_small. Qed.

Lemma ring_slot_mod j : slot_of j = (j mod ring_size)%nat.
Proof.
  pose proof ring_size_pos as [Hp Hc]. unfold slot_of. rewrite slot_index_mod, <- Hc.
  rewrite <- Nat2Z.inj_mod. apply Nat2Z.id.
Qed.

Lemma slot_of_turn j : j = (slot_of j + turn_of j * ring_size)%nat.
Proof.
  pose proof ring_size_pos as [Hp _]. rewrite ring_slot_mod. unfold turn_of.
  pose proof (Nat.div_mod j ring_size). lia.
Qed.

Lemma ring_slot_lt j : (slot_of j < ring_size)%nat.
Proof. apply slot_index_lt. Qed.

(** ** What a ring holds

    [ring_holds buf pos f]: walking the ring once from position [pos], the
    [k]-th slot holds [f k]. *)
Definition ring_holds {A} (buf : list A) (pos : Z) (f : nat → A) : Prop :=
  length buf = Z.to_nat Capacity ∧
  ∀ k, (k < Z.to_nat Capacity)%nat → buf !! slot_index (pos + Z.of_nat k) = Some (f k).

Lemma ring_holds_ext {A} (buf : list A) pos f g :
  ring_holds buf pos f → (∀ k, (k < Z.to_nat Capacity)%nat → f k = g k) → ring_holds buf pos g.
Proof. intros [Hl H] Hfg. split; [done|]. intros k Hk. by rewrite H, Hfg. Qed.

Lemma ring_holds_insert {A} (buf : list A) pos f k0 o :
  ring_holds buf pos f → (k0 < Z.to_nat Capacity)%nat →
  ring_holds (<[slot_index (pos + Z.of_nat k0) := o]> buf) pos
    (λ k, if decide (k = k0) then o else f k).
Proof.
  intros [Hl H] Hk0. split; [by rewrite length_insert|]. intros k Hk. case_decide as E.
  - subst k. apply list_lookup_insert_eq. rewrite Hl. apply slot_index_lt.
  - rewrite list_lookup_insert_ne; [by apply H|].
    intros Heq%slot_index_inj; lia.
Qed.

Lemma ring_holds_shift {A} (buf : list A) pos f :
  ring_holds buf pos f →
  ring_holds buf (pos + 1)
    (λ k, if decide (S k = Z.to_nat Capacity) then f O else f (S k)).
Proof.
  intros [Hl H]. split; [done|]. intros k Hk. case_decide as E.
  - rewrite <- (H O) by lia. f_equal.
    replace (pos + 1 + Z.of_nat k) with (pos + Z.of_nat 0 + Capacity) by lia.
    apply slot_index_add_cap.
  - rewrite <- (H (S k)) by lia. do 2 f_equal. lia.
Qed.

Lemma ring_holds_lookup {A} (buf : list A) pos f k p :
  ring_holds buf pos f → (k < Z.to_nat Capacity)%nat → p = u64 (pos + Z.of_nat k) →
  buf !! slot_index p = Some (f k).
Proof. intros [_ H] Hk ->. rewrite slot_index_u64. by apply H. Qed.

Lemma ring_holds_replicate {A} (o : A) pos :
  ring_holds (replicate (Z.to_nat Capacity) o) pos (λ _, o).
Proof.
  split; [apply length_replicate|]. intros k Hk.
  apply lookup_replicate_2, slot_index_lt.
Qed.
End ring.
