(* ===== verification/Queue.v ===== *)
(** * The interface of the bounded queues

    What the reactor, the mailboxes and the model executors rely on when they hold
    a queue: a new queue is empty, a push is accepted exactly while there is room,
    a pop returns the oldest element, and no operation runs into undefined
    behaviour. [Spsc] and [Mpmc] provide instances; the clients are verified
    against this class. *)
From S2P Require Import Prelude.

(** Operations are option-valued: [None] is undefined behaviour. [bq_holds n q xs]:
    the queue [q] holds [xs] and at least [n] more pushes keep its counters
    exact. *)
Class BoundedQueue (Q T : Type) := {
  bq_capacity : nat;
  bq_budget : Z;
  bq_new : Q;
  bq_push : Q → T → option (Q * bool);
  bq_pop : Q → option (Q * option T);
  bq_holds : Z → Q → list T → Prop;
  bq_new_holds : bq_holds bq_budget bq_new [];
  bq_holds_mono n m q xs : m <= n → bq_holds n q xs → bq_holds m q xs;
  bq_push_spec n q xs x :
    0 < n → bq_holds n q xs →
    if decide (length xs < bq_capacity)%nat
    then ∃ q', bq_push q x = Some (q', true) ∧ bq_holds (n - 1) q' (xs ++ [x])
    else bq_push q x = Some (q, false);
  bq_pop_spec n q xs :
    0 <= n → bq_holds n q xs →
    match xs with
    | [] => bq_pop q = Some (q, None)
    | x :: xs' => ∃ q', bq_pop q = Some (q', Some x) ∧ bq_holds n q' xs'
    end }.

Section clients.
Context {Q T : Type} `{!BoundedQueue Q T}.

(** [while (auto x = q.try_pop()) ...]: the elements popped, in order. The fuel
    bounds the loop; [None] is undefined behaviour or too little fuel. *)
Fixpoint pop_all (fuel : nat) (q : Q) : option (Q * list T) :=
  match fuel with
  | O => None
  | S fuel =>
      match bq_pop q with
      | Some (q', Some x) =>
          match pop_all fuel q' with
          | Some (q'', xs) => Some (q'', x :: xs)
          | None => None
          end
      | Some (q', None) => Some (q', [])
      | None => None
      end
  end.

Lemma pop_all_spec fuel n q xs :
  0 <= n → bq_holds n q xs → (length xs < fuel)%nat →
  ∃ q', pop_all fuel q = Some (q', xs) ∧ bq_holds n q' [].
Proof.
  intros Hn. revert q xs. induction fuel as [|fuel IH]; intros q xs Hq Hf; [lia|].
  pose proof (bq_pop_spec n q xs Hn Hq) as Hp. cbn [pop_all].
  destruct xs as [|x xs]; [rewrite Hp; by eexists|].
  destruct Hp as (q' & -> & Hq'). simpl in Hf.
  destruct (IH q' xs Hq') as (q'' & -> & Hq''); [lia|]. by exists q''.
Qed.
End clients.
