(* ===== verification/Spsc.v ===== *)
(** * Single-producer single-consumer queue
      ([include/jellybean/concurrency/spsc_queue.hpp])

    Two models of the same code. The sequential one is the body of each method as
    a function on the queue object. The concurrent one cuts [emplace] and
    [try_pop] at their atomic accesses and interleaves one producer thread with
    one consumer thread (sequentially consistent interleaving). Slot storage is an
    [option]: [None] is raw memory, [Some x] a live object; constructing over a
    live object and moving out of raw memory are errors the model can express. *)
From S2P Require Import Prelude.
From S2P Require Import Transition.
From S2P Require Import Ring.
From S2P Require Import Queue.

Section spsc.
Context {T : Type} (Capacity : Z).

(** ** The queue object and its methods *)

Record spsc_queue := {
  head_ : Z;
  tail_ : Z;
  buffer_ : list (option T) }.

Definition spsc_new : spsc_queue :=
  {| head_ := 0; tail_ := 0; buffer_ := replicate (Z.to_nat Capacity) None |}.

(** [None] is undefined behaviour or a leaked object. *)
Definition emplace (q : spsc_queue) (item : T) : option (spsc_queue * bool) :=
  let t := tail_ q in
  let next := t +w 1 in
  let current_head := head_ q in
  if Capacity <? next -w current_head then Some (q, false)
  else match buffer_ q !! slot_index Capacity t with
       | Some None =>
           Some ({| head_ := head_ q; tail_ := next;
                    buffer_ := <[slot_index Capacity t := Some item]> (buffer_ q) |}, true)
       | _ => None
       end.

Definition try_pop (q : spsc_queue) : option (spsc_queue * option T) :=
  let h := head_ q in
  if h =? tail_ q then Some (q, None)
  else match buffer_ q !! slot_index Capacity h with
       | Some (Some item) =>
           Some ({| head_ := h +w 1; tail_ := tail_ q;
                    buffer_ := <[slot_index Capacity h := None]> (buffer_ q) |}, Some item)
       | _ => None
       end.

Definition empty (q : spsc_queue) : bool := head_ q =? tail_ q.

Definition size (q : spsc_queue) : Z := tail_ q -w head_ q.

(** ** The two threads *)

(** Where the producer is inside [emplace]: between calls, after
    [tail_.load], past the full check, object constructed. *)
Inductive producer :=
| PIdle
| PLoadHead (item : T) (t : Z)
| PConstruct (item : T) (t : Z)
| PPublish (item : T) (t : Z).

(** Where the consumer is inside [try_pop]: between calls, after
    [head_.load], past the empty check, object moved out. *)
Inductive consumer :=
| CIdle
| CLoadTail (h : Z)
| CTake (h : Z)
| CPublish (h : Z) (item : T).

Record state := {
  queue : spsc_queue;
  prod : producer;
  cons : consumer;
  trace : list (event T) }.

Definition initial (s : state) : Prop :=
  queue s = spsc_new ∧ prod s = PIdle ∧ cons s = CIdle ∧ trace s = [].

Definition set_buffer (q : spsc_queue) (i : nat) (o : option T) : spsc_queue :=
  {| head_ := head_ q; tail_ := tail_ q; buffer_ := <[i := o]> (buffer_ q) |}.

Definition set_tail (q : spsc_queue) (t : Z) : spsc_queue :=
  {| head_ := head_ q; tail_ := t; buffer_ := buffer_ q |}.

Definition set_head (q : spsc_queue) (h : Z) : spsc_queue :=
  {| head_ := h; tail_ := tail_ q; buffer_ := buffer_ q |}.

(** One atomic access of the producer. *)
Inductive produce : state → state → Prop :=
| produce_load_tail q c tr item :
    produce {| queue := q; prod := PIdle; cons := c; trace := tr |}
            {| queue := q; prod := PLoadHead item (tail_ q); cons := c; trace := tr |}
| produce_full q c tr item t :
    (Capacity <? t +w 1 -w head_ q) = true →
    produce {| queue := q; prod := PLoadHead item t; cons := c; trace := tr |}
            {| queue := q; prod := PIdle; cons := c; trace := tr ++ [EvFull] |}
| produce_room q c tr item t :
    (Capacity <? t +w 1 -w head_ q) = false →
    produce {| queue := q; prod := PLoadHead item t; cons := c; trace := tr |}
            {| queue := q; prod := PConstruct item t; cons := c; trace := tr |}
| produce_construct q c tr item t :
    produce {| queue := q; prod := PConstruct item t; cons := c; trace := tr |}
            {| queue := set_buffer q (slot_index Capacity t) (Some item);
               prod := PPublish item t; cons := c; trace := tr |}
| produce_store_tail q c tr item t :
    produce {| queue := q; prod := PPublish item t; cons := c; trace := tr |}
            {| queue := set_tail q (t +w 1); prod := PIdle; cons := c;
               trace := tr ++ [EvPush item] |}.

(** One atomic access of the consumer. *)
Inductive consume : state → state → Prop :=
| consume_load_head q p tr :
    consume {| queue := q; prod := p; cons := CIdle; trace := tr |}
            {| queue := q; prod := p; cons := CLoadTail (head_ q); trace := tr |}
| consume_empty q p tr h :
    (h =? tail_ q) = true →
    consume {| queue := q; prod := p; cons := CLoadTail h; trace := tr |}
            {| queue := q; prod := p; cons := CIdle; trace := tr ++ [EvEmpty] |}
| consume_some q p tr h :
    (h =? tail_ q) = false →
    consume {| queue := q; prod := p; cons := CLoadTail h; trace := tr |}
            {| queue := q; prod := p; cons := CTake h; trace := tr |}
| consume_take q p tr h item :
    buffer_ q !! slot_index Capacity h = Some (Some item) →
    consume {| queue := q; prod := p; cons := CTake h; trace := tr |}
            {| queue := set_buffer q (slot_index Capacity h) None; prod := p;
               cons := CPublish h item; trace := tr |}
| consume_store_head q p tr h item :
    consume {| queue := q; prod := p; cons := CPublish h item; trace := tr |}
            {| queue := set_head q (h +w 1); prod := p; cons := CIdle;
               trace := tr ++ [EvPop item] |}.

Definition step (s s' : state) : Prop := produce s s' ∨ consume s s'.

(** ** Specification *)

(** What the storage of the [k]-th position from the head holds when the queue
    contains [xs]. *)
Definition expected (xs : list T) (p : producer) (c : consumer) (k : nat) : option T :=
  if decide (k < length xs)%nat then
    match c with
    | CPublish _ _ => if decide (k = 0)%nat then None else xs !! k
    | _ => xs !! k
    end
  else if decide (k = length xs) then
    match p with PPublish x _ => Some x | _ => None end
  else None.

(** The object [q] represents the contents [xs]; [hd] is the head position
    before wrapping. *)
Definition represents (q : spsc_queue) (p : producer) (c : consumer)
    (xs : list T) (hd : Z) : Prop :=
  head_ q = u64 hd ∧
  tail_ q = u64 (hd + Z.of_nat (length xs)) ∧
  (length xs <= Z.to_nat Capacity)%nat ∧
  ring_holds Capacity (buffer_ q) hd (expected xs p c).

Definition producer_ok (q : spsc_queue) (xs : list T) (p : producer) : Prop :=
  match p with
  | PIdle => True
  | PLoadHead _ t => t = tail_ q
  | PConstruct _ t | PPublish _ t => t = tail_ q ∧ (length xs < Z.to_nat Capacity)%nat
  end.

Definition consumer_ok (q : spsc_queue) (xs : list T) (c : consumer) : Prop :=
  match c with
  | CIdle => True
  | CLoadTail h => h = head_ q
  | CTake h => h = head_ q ∧ xs ≠ []
  | CPublish h item => h = head_ q ∧ head xs = Some item
  end.

(** The invariant: the queue object, the two threads and the history agree on one
    list of contents. *)
Definition inv (s : state) : Prop :=
  ∃ xs hd,
    represents (queue s) (prod s) (cons s) xs hd ∧
    producer_ok (queue s) xs (prod s) ∧
    consumer_ok (queue s) xs (cons s) ∧
    fifo_run (Z.to_nat Capacity) (trace s) xs.

(** ** Lemmas *)

Context `{!RingCapacity Capacity}.

Lemma positions_differ hd (n : nat) :
  (n <= Z.to_nat Capacity)%nat → (u64 hd =? u64 (hd + Z.of_nat n)) = bool_decide (n = O).
Proof.
  intros Hn. pose proof (capacity_pos (Capacity := Capacity)).
  case_bool_decide as E.
  - subst n. by rewrite Z.add_0_r, Z.eqb_refl.
  - apply Z.eqb_neq. word_lia.
Qed.

Lemma room_test hd (n : nat) :
  (n <= Z.to_nat Capacity)%nat →
  (Capacity <? u64 (hd + Z.of_nat n) +w 1 -w u64 hd) = bool_decide (n = Z.to_nat Capacity).
Proof.
  intros Hn. pose proof (capacity_pos (Capacity := Capacity)).
  pose proof (capacity_half Capacity).
  replace (u64 (hd + Z.of_nat n) +w 1 -w u64 hd) with (Z.of_nat n + 1) by word_lia.
  case_bool_decide; [apply Z.ltb_lt|apply Z.ltb_ge]; lia.
Qed.

Lemma represents_slot q p c xs hd k pos :
  represents q p c xs hd → (k < Z.to_nat Capacity)%nat → pos = u64 (hd + Z.of_nat k) →
  buffer_ q !! slot_index Capacity pos = Some (expected xs p c k).
Proof. intros (_ & _ & _ & Hr). by apply ring_holds_lookup. Qed.

(** A step that only moves a thread between points with the same expectation. *)
Lemma represents_move q p p' c c' xs hd :
  represents q p c xs hd → (∀ k, expected xs p c k = expected xs p' c' k) →
  represents q p' c' xs hd.
Proof.
  intros (? & ? & ? & Hr) He. split_and!; try done.
  eapply ring_holds_ext; [exact Hr|]. intros. apply He.
Qed.

Lemma represents_construct q c xs hd x t t' :
  represents q (PConstruct x t) c xs hd → (length xs < Z.to_nat Capacity)%nat →
  t' = tail_ q →
  represents (set_buffer q (slot_index Capacity t') (Some x)) (PPublish x t) c xs hd.
Proof.
  intros (Hh & Ht & Hb & Hr) Hroom ->. split_and!; try done. simpl.
  rewrite Ht, slot_index_u64 by done.
  eapply ring_holds_ext; [by apply ring_holds_insert|].
  intros k Hk. unfold expected. simpl. by repeat case_decide; subst; try lia.
Qed.

Lemma represents_publish q c xs hd x t :
  represents q (PPublish x t) c xs hd → (length xs < Z.to_nat Capacity)%nat →
  (∀ h, c = CTake h → xs ≠ []) → (∀ h i, c = CPublish h i → xs ≠ []) →
  represents (set_tail q (tail_ q +w 1)) PIdle c (xs ++ [x]) hd.
Proof.
  intros (Hh & Ht & Hb & Hr) Hroom Hc1 Hc2. unfold represents; simpl.
  rewrite length_app; simpl. split_and!; [done| |lia|].
  - rewrite Ht, u64_add_l. f_equal. lia.
  - eapply ring_holds_ext; [exact Hr|]. intros k Hk. unfold expected.
    rewrite length_app; simpl.
    assert (Hx : ∀ k, (k < length xs + 1)%nat → (xs ++ [x]) !! k =
      if decide (k = length xs) then Some x else xs !! k).
    { intros j Hj. case_decide as E; [subst; by apply list_lookup_middle|].
      apply lookup_app_l. lia. }
    destruct c as [| | |h i]; repeat case_decide; try lia; rewrite ?Hx by lia;
      repeat case_decide; try lia; try done.
    subst. simpl in *. destruct xs; [by destruct (Hc2 h i)|simpl in *; lia].
Qed.
Lemma represents_take q p h x xs hd :
  represents q p (CTake h) (x :: xs) hd →
  represents (set_buffer q (slot_index Capacity (head_ q)) None) p (CPublish h x) (x :: xs) hd.
Proof.
  intros (Hh & Ht & Hb & Hr). split_and!; try done. simpl. simpl in Hb.
  pose proof (ring_holds_insert _ _ _ _ O None Hr ltac:(lia)) as Hr'.
  replace (hd + Z.of_nat 0) with hd in Hr' by lia.
  rewrite Hh, slot_index_u64 by done. eapply ring_holds_ext; [exact Hr'|].
  intros k Hk. unfold expected. simpl. by repeat case_decide; subst; try lia.
Qed.

Lemma represents_pop q p h x xs hd :
  represents q p (CPublish h x) (x :: xs) hd → producer_ok q (x :: xs) p →
  represents (set_head q (head_ q +w 1)) p CIdle xs (hd + 1).
Proof.
  intros (Hh & Ht & Hb & Hr) Hp. simpl in Hb. unfold represents; simpl.
  split_and!; [|rewrite Ht; f_equal; simpl; lia|lia|].
  - rewrite Hh. apply u64_add_l.
  - eapply ring_holds_ext; [by apply ring_holds_shift|].
    intros k Hk. unfold expected. simpl.
    destruct p; simpl in Hp; repeat case_decide; try done; lia.
Qed.

(** ** Preservation *)

Lemma spsc_inv_initial s : initial s → inv s.
Proof.
  intros (Hq & Hp & Hc & Htr). exists [], 0. rewrite Hq, Hp, Hc, Htr. split_and!; try done.
  - split_and!; try done; [simpl; lia|]. simpl.
    eapply ring_holds_ext; [by apply ring_holds_replicate|].
    intros k Hk. unfold expected. simpl. by repeat case_decide.
  - constructor.
Qed.

Lemma inv_produce s s' : inv s → produce s s' → inv s'.
Proof.
  intros (xs & hd & Hrep & Hp & Hc & Hrun) Hs.
  destruct Hs as [q c tr x|q c tr x t Hfull|q c tr x t Hroom|q c tr x t|q c tr x t];
    simpl in *.
  - exists xs, hd. split_and!; try done; by eapply represents_move.
  - exists xs, hd. pose proof Hrep as (Hh & Ht & Hb & _). subst t.
    rewrite Hh, Ht, room_test in Hfull by done. apply bool_decide_eq_true in Hfull.
    split_and!; try done; [..|eapply run_snoc; [done|by constructor]].
    all: by eapply represents_move.
  - exists xs, hd. pose proof Hrep as (Hh & Ht & Hb & _). subst t.
    rewrite Hh, Ht, room_test in Hroom by done. apply bool_decide_eq_false in Hroom.
    split_and!; try done; simpl; try lia.
    all: by eapply represents_move.
  - exists xs, hd. destruct Hp as [Ht Hlen].
    split_and!; try done. by apply represents_construct.
  - destruct Hp as [-> Hlen]. exists (xs ++ [x]), hd. split_and!; try done; simpl.
    + eapply represents_publish; [exact Hrep|done|..].
      * intros h ->. by destruct Hc.
      * intros h i -> ->. by destruct Hc.
    + destruct c; simpl in *; try done; [split; [by apply Hc|by intros []%app_nil]|].
      split; [by apply Hc|]. destruct xs; by destruct Hc.
    + eapply run_snoc; [done|by constructor].
Qed.

Lemma inv_consume s s' : inv s → consume s s' → inv s'.
Proof.
  intros (xs & hd & Hrep & Hp & Hc & Hrun) Hs.
  destruct Hs as [q p tr|q p tr h He|q p tr h He|q p tr h x Hx|q p tr h x]; simpl in *.
  - exists xs, hd. split_and!; try done; by eapply represents_move.
  - exists xs, hd. pose proof Hrep as (Hh & Ht & Hb & _). subst h.
    rewrite Hh, Ht, positions_differ in He by done. apply bool_decide_eq_true in He.
    apply nil_length_inv in He as ->.
    split_and!; try done; [..|eapply run_snoc; [done|constructor]].
    all: by eapply represents_move.
  - exists xs, hd. pose proof Hrep as (Hh & Ht & Hb & _). subst h.
    rewrite Hh, Ht, positions_differ in He by done. apply bool_decide_eq_false in He.
    split_and!; try done; simpl.
    all: first [by eapply represents_move|split; [done|by intros ->]].
  - exists xs, hd. destruct Hc as [-> Hne]. destruct xs as [|y xs]; [done|].
    pose proof Hrep as (Hh & _ & Hb & _). simpl in Hb.
    rewrite (represents_slot _ _ _ _ _ O _ Hrep) in Hx by (lia || by rewrite Z.add_0_r).
    unfold expected in Hx. simpl in Hx. injection Hx as ->.
    split_and!; try done. by apply represents_take.
  - destruct Hc as [-> Hx]. destruct xs as [|y xs]; [done|]. injection Hx as ->.
    exists xs, (hd + 1). split_and!; try done.
    + by eapply represents_pop.
    + destruct p; simpl in *; try done; (split; [by apply Hp|lia]).
    + eapply run_snoc; [done|constructor].
Qed.

Lemma spsc_reachable_inv s : reachable initial step s → inv s.
Proof.
  apply reachable_ind'; [apply spsc_inv_initial|].
  intros s1 s2 _ Hi [Hs|Hs]; [by eapply inv_produce|by eapply inv_consume].
Qed.

(** ** The methods as functions *)

(** The queue between two calls, with the contents [xs]. *)
Definition holds (q : spsc_queue) (xs : list T) : Prop := ∃ hd, represents q PIdle CIdle xs hd.

Lemma spsc_emplace_spec q xs x :
  holds q xs →
  if decide (length xs < Z.to_nat Capacity)%nat
  then ∃ q', emplace q x = Some (q', true) ∧ holds q' (xs ++ [x])
  else emplace q x = Some (q, false).
Proof.
  intros [hd Hrep]. pose proof Hrep as (Hh & Ht & Hb & _). unfold emplace.
  assert ((Capacity <? tail_ q +w 1 -w head_ q) = bool_decide (length xs = Z.to_nat Capacity))
    as -> by (rewrite Hh, Ht; by apply room_test).
  case_decide as Hroom; [|by rewrite bool_decide_eq_true_2 by lia].
  rewrite bool_decide_eq_false_2 by lia.
  rewrite (represents_slot _ _ _ _ _ (length xs) _ Hrep) by done.
  unfold expected. rewrite decide_False, decide_True by lia.
  eexists. split; [done|]. exists hd.
  apply (represents_publish (set_buffer q (slot_index Capacity (tail_ q)) (Some x))
    CIdle xs hd x (tail_ q)); [|done..].
  apply represents_construct; [|done..]. by eapply represents_move.
Qed.

Lemma spsc_try_pop_spec q xs :
  holds q xs →
  match xs with
  | [] => try_pop q = Some (q, None)
  | x :: xs' => ∃ q', try_pop q = Some (q', Some x) ∧ holds q' xs'
  end.
Proof.
  intros [hd Hrep]. pose proof Hrep as (Hh & Ht & Hb & _). unfold try_pop.
  assert ((head_ q =? tail_ q) = bool_decide (length xs = O))
    as -> by (rewrite Hh, Ht; by apply positions_differ).
  destruct xs as [|x xs]; [done|].
  rewrite bool_decide_eq_false_2 by done. simpl in Hb.
  rewrite (represents_slot _ _ _ _ _ O _ Hrep) by (lia || by rewrite Z.add_0_r).
  unfold expected; simpl. eexists. split; [done|]. exists (hd + 1).
  apply (represents_pop (set_buffer q (slot_index Capacity (head_ q)) None) PIdle (head_ q) x);
    [|done].
  apply represents_take. by eapply represents_move.
Qed.

Lemma size_spec q xs : holds q xs → size q = Z.of_nat (length xs) ∧ empty q = bool_decide (xs = []).
Proof.
  intros [hd (Hh & Ht & Hb & _)]. pose proof (capacity_pos (Capacity := Capacity)).
  unfold size, empty. rewrite Hh, Ht, positions_differ by done. split; [word_lia|].
  by destruct xs.
Qed.

Lemma spsc_new_holds : holds spsc_new [].
Proof.
  exists 0. split_and!; try done; [simpl; lia|]. simpl.
  eapply ring_holds_ext; [by apply ring_holds_replicate|].
  intros k Hk. unfold expected. simpl. by repeat case_decide.
Qed.

(** The indices wrap without harm: the number of pushes is not bounded. *)
#[export, refine] Instance spsc_bounded_queue : BoundedQueue spsc_queue T := {
  bq_capacity := Z.to_nat Capacity;
  bq_budget := 2 ^ 64;
  bq_new := spsc_new;
  bq_push := emplace;
  bq_pop := try_pop;
  bq_holds _ := holds }.
Proof.
  - apply spsc_new_holds.
  - done.
  - intros _ q xs x _. apply spsc_emplace_spec.
  - intros _ q xs _. apply spsc_try_pop_spec.
Defined.

(** [~SpscQueue]: pop until empty; a full ring needs one more turn than its
    capacity. *)
Definition destroy (q : spsc_queue) : option (spsc_queue * list T) :=
  pop_all (S (Z.to_nat Capacity)) q.
End spsc.
Arguments spsc_queue : clear implicits.
Arguments state : clear implicits.

(** ** Properties *)

(** C5. The queue is a bounded FIFO queue under every interleaving of its two
    threads, for runs of any length (the 64-bit indices wrap): the history of
    answers, taken at the accesses where each call takes effect, is legal for a
    queue of [Capacity] elements. In particular the elements popped are a prefix of
    the elements pushed, in order, and [false] and [nullopt] are answered only when
    the queue really is full, respectively empty. *)
Theorem spsc_linearizable {T} (Capacity : Z) `{!RingCapacity Capacity} (s : state T) :
  reachable (initial Capacity) (step Capacity) s →
  ∃ xs, fifo_run (Z.to_nat Capacity) (trace s) xs ∧
        pushed (trace s) = popped (trace s) ++ xs ∧ (length xs <= Z.to_nat Capacity)%nat.
Proof.
  intros (xs & hd & _ & _ & _ & Hrun)%spsc_reachable_inv; [|done].
  exists xs. split; [done|]. by eapply fifo_run_contents.
Qed.

(** One push and one pop, overlapping in time. *)
Definition overlap_state : state nat :=
  {| queue := {| head_ := 1; tail_ := 1; buffer_ := [None; None] |};
     prod := PIdle; cons := CIdle; trace := [EvPush 5%nat; EvPop 5%nat] |}.

Lemma overlap_reachable : reachable (initial 2) (step 2) overlap_state.
Proof.
  exists {| queue := spsc_new 2; prod := PIdle; cons := CIdle; trace := [] |}.
  split; [done|].
  eapply rtc_l; [left; apply (produce_load_tail 2 _ CIdle [] 5%nat)|simpl].
  eapply rtc_l; [left; by apply produce_room|].
  eapply rtc_l; [left; apply produce_construct|].
  eapply rtc_l; [right; apply consume_load_head|].
  eapply rtc_l; [left; apply produce_store_tail|].
  eapply rtc_l; [right; by apply consume_some|].
  eapply rtc_l; [right; by apply consume_take|].
  eapply rtc_l; [right; apply consume_store_head|].
  apply rtc_refl.
Qed.

Lemma spsc_linearizable_witness :
  ∃ xs, fifo_run 2 (trace overlap_state) xs ∧
        pushed (trace overlap_state) = popped (trace overlap_state) ++ xs ∧ (length xs <= 2)%nat.
Proof. exact (spsc_linearizable 2 overlap_state overlap_reachable). Defined.

(** The two threads never touch the same slot at the same time, the producer
    only constructs in raw memory, the consumer only moves out of a live object, and
    neither thread is ever blocked inside a call: each of its accesses is enabled. *)
Theorem spsc_threads_safe {T} (Capacity : Z) `{!RingCapacity Capacity} (s : state T) :
  reachable (initial Capacity) (step Capacity) s →
  (∀ x t, prod s = PConstruct x t →
     buffer_ (queue s) !! slot_index Capacity t = Some None) ∧
  (∀ h, cons s = CTake h →
     ∃ x, buffer_ (queue s) !! slot_index Capacity h = Some (Some x)) ∧
  (∀ x t h, prod s = PConstruct x t → cons s = CTake h →
     slot_index Capacity t ≠ slot_index Capacity h) ∧
  (prod s ≠ PIdle → ∃ s', produce Capacity s s') ∧
  (cons s ≠ CIdle → ∃ s', consume Capacity s s').
Proof.
  intros (xs & hd & Hrep & Hp & Hc & _)%spsc_reachable_inv; [|done].
  assert (H1 : ∀ x t, prod s = PConstruct x t →
    buffer_ (queue s) !! slot_index Capacity t = Some None).
  { intros x t E. rewrite E in *. destruct Hp as [-> Hlen]. pose proof Hrep as (_ & Ht & _).
    rewrite (represents_slot _ _ _ _ _ _ (length xs) _ Hrep) by done.
    unfold expected. by rewrite decide_False, decide_True by lia. }
  assert (H2 : ∀ h, cons s = CTake h →
    ∃ x, buffer_ (queue s) !! slot_index Capacity h = Some (Some x)).
  { intros h E. rewrite E in *. destruct Hc as [-> Hne]. destruct xs as [|x xs]; [done|].
    pose proof Hrep as (Hh & _ & Hb & _). simpl in Hb. exists x.
    by rewrite (represents_slot _ _ _ _ _ _ O _ Hrep) by (lia || by rewrite Z.add_0_r). }
  split_and!; [done|done| | |].
  - intros x t h E1 E2 E3. specialize (H1 x t E1). destruct (H2 h E2) as [y Hy].
    rewrite E3 in H1. congruence.
  - destruct s as [q [|x t|x t|x t] c tr]; intros Hne; [done|..].
    + destruct (Capacity <? t +w 1 -w head_ q) eqn:E; eexists; by constructor.
    + eexists. by constructor.
    + eexists. by constructor.
  - destruct s as [q p [|h|h|h x] tr]; intros Hne; [done|..].
    + destruct (h =? tail_ q) eqn:E; eexists; by constructor.
    + destruct (H2 h eq_refl) as [y Hy]. eexists. by constructor.
    + eexists. by constructor.
Qed.

(** The producer is about to construct while the consumer is about to take. *)
Definition busy_state : state nat :=
  {| queue := {| head_ := 0; tail_ := 1; buffer_ := [Some 5%nat; None] |};
     prod := PConstruct 6%nat 1; cons := CTake 0; trace := [EvPush 5%nat] |}.

Lemma busy_reachable : reachable (initial 2) (step 2) busy_state.
Proof.
  exists {| queue := spsc_new 2; prod := PIdle; cons := CIdle; trace := [] |}.
  split; [done|].
  eapply rtc_l; [left; apply (produce_load_tail 2 _ CIdle [] 5%nat)|simpl].
  eapply rtc_l; [left; by apply produce_room|].
  eapply rtc_l; [left; apply produce_construct|].
  eapply rtc_l; [left; apply produce_store_tail|].
  eapply rtc_l; [right; apply consume_load_head|].
  eapply rtc_l; [right; by apply consume_some|].
  eapply rtc_l; [left; apply (produce_load_tail 2 _ _ _ 6%nat)|simpl].
  eapply rtc_l; [left; by apply produce_room|].
  apply rtc_refl.
Qed.

Lemma spsc_threads_safe_witness :
  slot_index 2 1 ≠ slot_index 2 0 ∧ ∃ s', produce 2 busy_state s'.
Proof.
  destruct (spsc_threads_safe 2 busy_state busy_reachable) as (_ & _ & H3 & H4 & _).
  split; [by apply (H3 6%nat 1 0)|by apply H4].
Defined.

(** The methods called one at a time: a new queue is empty; [emplace] appends
    while fewer than [Capacity] elements are held and otherwise answers [false] and
    changes nothing; [try_pop] returns the oldest element; [size] and [empty] are
    exact; and the destructor destroys every remaining element. *)
Theorem spsc_methods {T} (Capacity : Z) `{!RingCapacity Capacity} (q : spsc_queue T) xs x :
  holds Capacity q xs →
  (if decide (length xs < Z.to_nat Capacity)%nat
   then ∃ q', emplace Capacity q x = Some (q', true) ∧ holds Capacity q' (xs ++ [x])
   else emplace Capacity q x = Some (q, false)) ∧
  (match xs with
   | [] => try_pop Capacity q = Some (q, None)
   | y :: ys => ∃ q', try_pop Capacity q = Some (q', Some y) ∧ holds Capacity q' ys
   end) ∧
  size q = Z.of_nat (length xs) ∧ empty q = bool_decide (xs = []) ∧
  ∃ q', destroy Capacity q = Some (q', xs) ∧ holds Capacity q' [].
Proof.
  intros Hq. pose proof (size_spec Capacity q xs Hq) as [? ?].
  split_and!; [by apply spsc_emplace_spec|by apply spsc_try_pop_spec|done|done|].
  apply (pop_all_spec (BoundedQueue0 := spsc_bounded_queue Capacity) _ 0); [done|done|].
  destruct Hq as (hd & _ & _ & Hb & _). lia.
Qed.

Lemma spsc_methods_witness :
  ∃ q', emplace 2 (spsc_new 2) 7%nat = Some (q', true) ∧ holds 2 q' [7%nat].
Proof. exact (proj1 (spsc_methods 2 (spsc_new 2) [] 7%nat (spsc_new_holds 2))). Defined.
