(* ===== verification/SpscWeak.v ===== *)
(** * The single-producer single-consumer queue under weak memory
      ([include/jellybean/concurrency/spsc_queue.hpp])

    The accesses of [emplace] and [try_pop] with the memory orders of the source, on the
    memory of [Weak]. The program points are those of [Spsc]; a slot's storage is plain
    memory. The two threads may also synchronise outside the queue at any time. *)
From S2P Require Import Prelude.
From S2P Require Import Transition.
From S2P Require Import Ring.
From S2P Require Import Weak.
From S2P Require Import Spsc.

(** ** Locations *)

Inductive loc := Head | Tail | Slot (i : nat).

#[export] Instance loc_eq_dec : EqDecision loc.
Proof. solve_decision. Defined.

Section spsc_weak.
Context {T : Type} (Capacity : Z).

(** An index or an object ([None]: raw memory). *)
Inductive cell := Word (n : Z) | Object (o : option T).

Record state := {
  mem : memory loc cell;
  pview : thread loc;
  cview : thread loc;
  prod : @producer T;
  cons : @consumer T;
  trace : list (event T) }.

Definition cells_new (l : loc) : cell :=
  match l with Head | Tail => Word 0 | Slot _ => Object None end.

Definition initial (s : state) : Prop := s = {|
  mem := memory_new cells_new; pview := thread_new; cview := thread_new;
  prod := PIdle; cons := CIdle; trace := [] |}.

Definition slot_at (pos : Z) : loc := Slot (slot_index Capacity pos).

(** ** Steps *)

Definition set_producer (s : state) (m : memory loc cell) (th : thread loc) (p : @producer T)
    (tr : list (event T)) : state := {|
  mem := m; pview := th; cview := cview s; prod := p; cons := cons s; trace := tr |}.

Definition set_consumer (s : state) (m : memory loc cell) (th : thread loc) (c : @consumer T)
    (tr : list (event T)) : state := {|
  mem := m; pview := pview s; cview := th; prod := prod s; cons := c; trace := tr |}.

(** One access of [emplace]; the last step is synchronisation outside the queue. *)
Inductive produce (s : state) : state → Prop :=
| produce_load_tail item n t th :
    prod s = PIdle → load Relaxed Tail n (mem s) (pview s) = Some (Word t, th) →
    produce s (set_producer s (mem s) th (PLoadHead item t) (trace s))
| produce_full item t n h th :
    prod s = PLoadHead item t → load Acquire Head n (mem s) (pview s) = Some (Word h, th) →
    (Capacity <? t +w 1 -w h) = true →
    produce s (set_producer s (mem s) th PIdle (trace s ++ [EvFull]))
| produce_room item t n h th :
    prod s = PLoadHead item t → load Acquire Head n (mem s) (pview s) = Some (Word h, th) →
    (Capacity <? t +w 1 -w h) = false →
    produce s (set_producer s (mem s) th (PConstruct item t) (trace s))
| produce_construct item t m th :
    prod s = PConstruct item t →
    plain_read (slot_at t) (mem s) (pview s) = Some (Object None) →
    plain_write (slot_at t) (Object (Some item)) (mem s) (pview s) = Some (m, th) →
    produce s (set_producer s m th (PPublish item t) (trace s))
| produce_store_tail item t m th :
    prod s = PPublish item t →
    store Release Tail (Word (t +w 1)) (mem s) (pview s) = Some (m, th) →
    produce s (set_producer s m th PIdle (trace s ++ [EvPush item]))
| produce_learns :
    produce s (set_producer s (mem s) (learn (cur (cview s)) (pview s)) (prod s) (trace s)).

(** One access of [try_pop]. *)
Inductive consume (s : state) : state → Prop :=
| consume_load_head n h th :
    cons s = CIdle → load Relaxed Head n (mem s) (cview s) = Some (Word h, th) →
    consume s (set_consumer s (mem s) th (CLoadTail h) (trace s))
| consume_empty h n t th :
    cons s = CLoadTail h → load Acquire Tail n (mem s) (cview s) = Some (Word t, th) →
    (h =? t) = true →
    consume s (set_consumer s (mem s) th CIdle (trace s ++ [EvEmpty]))
| consume_some h n t th :
    cons s = CLoadTail h → load Acquire Tail n (mem s) (cview s) = Some (Word t, th) →
    (h =? t) = false →
    consume s (set_consumer s (mem s) th (CTake h) (trace s))
| consume_take h item m th :
    cons s = CTake h →
    plain_read (slot_at h) (mem s) (cview s) = Some (Object (Some item)) →
    plain_write (slot_at h) (Object None) (mem s) (cview s) = Some (m, th) →
    consume s (set_consumer s m th (CPublish h item) (trace s))
| consume_store_head h item m th :
    cons s = CPublish h item →
    store Release Head (Word (h +w 1)) (mem s) (cview s) = Some (m, th) →
    consume s (set_consumer s m th CIdle (trace s ++ [EvPop item]))
| consume_learns :
    consume s (set_consumer s (mem s) (learn (cur (pview s)) (cview s)) (cons s) (trace s)).

Definition step (s s' : state) : Prop := produce s s' ∨ consume s s'.

(** The same as a function: who moves, and the message its load reads. *)
Inductive choice := Producer (item : T) (n : nat) | Consumer (n : nat) | ProducerLearns | ConsumerLearns.

Definition exec (c : choice) (s : state) : option state :=
  match c with
  | Producer x n =>
      match prod s with
      | PIdle =>
          match load Relaxed Tail n (mem s) (pview s) with
          | Some (Word t, th) => Some (set_producer s (mem s) th (PLoadHead x t) (trace s))
          | _ => None
          end
      | PLoadHead item t =>
          match load Acquire Head n (mem s) (pview s) with
          | Some (Word h, th) =>
              Some (if Capacity <? t +w 1 -w h
                    then set_producer s (mem s) th PIdle (trace s ++ [EvFull])
                    else set_producer s (mem s) th (PConstruct item t) (trace s))
          | _ => None
          end
      | PConstruct item t =>
          match plain_read (slot_at t) (mem s) (pview s),
                plain_write (slot_at t) (Object (Some item)) (mem s) (pview s) with
          | Some (Object None), Some (m, th) => Some (set_producer s m th (PPublish item t) (trace s))
          | _, _ => None
          end
      | PPublish item t =>
          match store Release Tail (Word (t +w 1)) (mem s) (pview s) with
          | Some (m, th) => Some (set_producer s m th PIdle (trace s ++ [EvPush item]))
          | None => None
          end
      end
  | Consumer n =>
      match cons s with
      | CIdle =>
          match load Relaxed Head n (mem s) (cview s) with
          | Some (Word h, th) => Some (set_consumer s (mem s) th (CLoadTail h) (trace s))
          | _ => None
          end
      | CLoadTail h =>
          match load Acquire Tail n (mem s) (cview s) with
          | Some (Word t, th) =>
              Some (if h =? t then set_consumer s (mem s) th CIdle (trace s ++ [EvEmpty])
                    else set_consumer s (mem s) th (CTake h) (trace s))
          | _ => None
          end
      | CTake h =>
          match plain_read (slot_at h) (mem s) (cview s),
                plain_write (slot_at h) (Object None) (mem s) (cview s) with
          | Some (Object (Some item)), Some (m, th) =>
              Some (set_consumer s m th (CPublish h item) (trace s))
          | _, _ => None
          end
      | CPublish h item =>
          match store Release Head (Word (h +w 1)) (mem s) (cview s) with
          | Some (m, th) => Some (set_consumer s m th CIdle (trace s ++ [EvPop item]))
          | None => None
          end
      end
  | ProducerLearns =>
      Some (set_producer s (mem s) (learn (cur (cview s)) (pview s)) (prod s) (trace s))
  | ConsumerLearns =>
      Some (set_consumer s (mem s) (learn (cur (pview s)) (cview s)) (cons s) (trace s))
  end.

Lemma spsc_exec_step c s s' : exec c s = Some s' → step s s'.
Proof.
  unfold exec. intros Hs. destruct c as [x n|n| |]; [left|right|left|right].
  3, 4: injection Hs as <-; constructor.
  all: repeat case_match; simplify_eq; by econstructor.
Qed.

(** ** Specification *)

(** The calls that did something. *)
Definition successes (tr : list (event T)) : list (event T) :=
  omap (λ e, match e with EvPush _ | EvPop _ => Some e | _ => None end) tr.

(** ** The invariant *)

Abbreviation cap := (ring_size Capacity).
Abbreviation round := (turn_of Capacity).

(** The slot of position [j]. *)
Definition slot (j : nat) : loc := Slot (slot_of Capacity j).

(** Who knows an index knows what was done to the slots before it. The construction of
    position [j] is access [2 * round j + 1] of its slot, its destruction the next. *)
Definition good (v : view loc) : Prop :=
  (∀ j, (j < v Tail)%nat → (2 * round j + 1 <= v (slot j))%nat) ∧
  (∀ j, (j < v Head)%nat → (2 * round j + 2 <= v (slot j))%nat).

Definition being_pushed (s : state) : list T :=
  match prod s with PPublish x _ => [x] | _ => [] end.

(** Elements constructed, and the number of those taken. *)
Definition made (s : state) : list T := pushed (trace s) ++ being_pushed s.

Definition taken (s : state) : nat :=
  (length (popped (trace s)) + match cons s with CPublish _ _ => 1 | _ => 0 end)%nat.

(** An index with [n] stores so far. *)
Definition counts (m : memory loc cell) (l : loc) (n : nat) : Prop :=
  length (cells m l) = S n ∧
  ∀ k msg, cells m l !! k = Some msg → value msg = Word (u64 (Z.of_nat k)) ∧ good (carries msg).

Definition producer_ok (s : state) : Prop :=
  let np := length (pushed (trace s)) in
  let v := cur (pview s) in
  v Tail = np ∧ (np <= v Head + cap)%nat ∧
  match prod s with
  | PIdle => True
  | PLoadHead _ t => t = u64 (Z.of_nat np)
  | PConstruct _ t => t = u64 (Z.of_nat np) ∧ (np < v Head + cap)%nat
  | PPublish _ t => t = u64 (Z.of_nat np) ∧ (np < v Head + cap)%nat ∧
      (2 * round np + 1 <= v (slot np))%nat
  end.

Definition consumer_ok (s : state) : Prop :=
  let nh := length (popped (trace s)) in
  let v := cur (cview s) in
  v Head = nh ∧ (nh <= v Tail)%nat ∧
  match cons s with
  | CIdle => True
  | CLoadTail h => h = u64 (Z.of_nat nh)
  | CTake h => h = u64 (Z.of_nat nh) ∧ (nh < v Tail)%nat
  | CPublish h x => h = u64 (Z.of_nat nh) ∧ (nh < v Tail)%nat ∧
      (2 * round nh + 2 <= v (slot nh))%nat ∧ pushed (trace s) !! nh = Some x
  end.

(** What the slots of the ring hold, from the next position to take on. *)
Definition slots_ok (s : state) : Prop :=
  ∀ j, (taken s <= j < taken s + cap)%nat →
    newest (mem s) (slot j) = Some (Object (made s !! j)) ∧
    latest (mem s) (slot j) = (2 * round j + if decide (j < length (made s)) then 1 else 0)%nat.

Record inv (s : state) : Prop := {
  inv_memory : memory_ok (mem s);
  inv_pclosed : thread_closed (mem s) (pview s);
  inv_cclosed : thread_closed (mem s) (cview s);
  inv_pgood : good (cur (pview s));
  inv_cgood : good (cur (cview s));
  inv_tail : counts (mem s) Tail (length (pushed (trace s)));
  inv_head : counts (mem s) Head (length (popped (trace s)));
  inv_producer : producer_ok s;
  inv_consumer : consumer_ok s;
  inv_slots : slots_ok s;
  inv_run : ∃ xs, fifo_run cap (successes (trace s)) xs }.

Context `{!RingCapacity Capacity}.

Lemma slot_inj j k : (j < k + cap)%nat → (k < j + cap)%nat → slot j = slot k → j = k.
Proof. intros H1 H2 E. apply (slot_of_inj Capacity); [done..|]. unfold slot in E. congruence. Qed.

Lemma slot_add_cap j : slot (j + cap) = slot j.
Proof. unfold slot. by rewrite slot_of_add. Qed.

Lemma slot_at_u64 j : slot_at (u64 (Z.of_nat j)) = slot j.
Proof. unfold slot, slot_at. by rewrite slot_of_u64. Qed.

(** ** Views *)

Lemma good_bot : good bot.
Proof. split; unfold bot; lia. Qed.

Lemma spsc_good_ext v w : good v → (∀ l, w l = v l) → good w.
Proof. intros [H1 H2] E. split; intros j; rewrite !E; auto. Qed.

Lemma spsc_good_join v w : good v → good w → good (join v w).
Proof.
  intros [H1 H2] [H3 H4]. unfold join.
  split; intros j Hj; specialize (H1 j); specialize (H2 j); specialize (H3 j);
    specialize (H4 j); lia.
Qed.

(** Knowing more of the slots does no harm. *)
Lemma good_note l n th : l ≠ Head → l ≠ Tail → good (cur th) → good (cur (note l n th)).
Proof.
  intros H1 H2 [H3 H4]. unfold note. simpl. unfold join.
  split; intros j Hj; rewrite !at_other in Hj by done; specialize (H3 j); specialize (H4 j); lia.
Qed.

Lemma good_learn from th : good from → good (cur th) → good (cur (learn from th)).
Proof. intros. by apply spsc_good_join. Qed.

Lemma good_acquire m l k n msg th :
  memory_ok m → counts m l k → cells m l !! n = Some msg → good (cur th) →
  good (cur (see Acquire l n msg th)).
Proof.
  intros Hm [_ Hl] Hn Hg. destruct (Hl _ _ Hn) as [_ Hc].
  eapply spsc_good_ext; [by apply (spsc_good_join _ _ Hg Hc)|]. intros l'.
  by apply (see_acquire Acquire l n msg th); [|apply (ok_carries _ Hm)|].
Qed.

Lemma counts_latest m l n : counts m l n → latest m l = n.
Proof. intros [H _]. unfold latest. lia. Qed.

(** ** Loads *)

(** A thread reads its own index as it left it. *)
Lemma load_own m l k n th w th' :
  counts m l k → cur th l = k → load Relaxed l n m th = Some (Word w, th') →
  w = u64 (Z.of_nat k) ∧ ∀ l', cur th' l' = cur th l'.
Proof.
  intros [Hl Hc] Hk (msg & Hn & Hv & Hle & ->)%load_inv.
  assert (n = k) as -> by (apply lookup_lt_Some in Hn; lia).
  destruct (Hc _ _ Hn) as [Hw _]. split; [congruence|].
  intros l'. rewrite see_relaxed. unfold at_. case_decide; subst; lia.
Qed.

(** An acquire load of the other index finds a value it has had, not older than known. *)
Lemma load_other m l k n th w th' :
  memory_ok m → thread_closed m th → counts m l k → good (cur th) →
  load Acquire l n m th = Some (Word w, th') →
  w = u64 (Z.of_nat n) ∧ (cur th l <= n <= k)%nat ∧ (n <= cur th' l)%nat ∧
  view_le (cur th) (cur th') ∧ good (cur th') ∧ thread_closed m th'.
Proof.
  intros Hm Hth Hc Hg Hload. pose proof (load_closed _ _ _ _ _ _ _ Hm Hth Hload).
  apply load_inv in Hload as (msg & Hn & Hv & Hle & ->).
  destruct (proj2 Hc _ _ Hn) as [Hw _]. destruct (ok_carries _ Hm _ _ _ Hn).
  split_and!; [congruence|done| | |apply see_cur_le| |done].
  - apply lookup_lt_Some in Hn. destruct Hc. lia.
  - erewrite (see_acquire Acquire l n msg th) by done. lia.
  - by eapply good_acquire.
Qed.

(** The full check is exact for the index that was read. *)
Lemma full_test np n :
  (np <= n + cap)%nat → (n <= np)%nat →
  (Capacity <? u64 (Z.of_nat np) +w 1 -w u64 (Z.of_nat n)) = bool_decide (np = n + cap)%nat.
Proof.
  intros H1 H2. pose proof (ring_size_pos Capacity) as [Hcap Hc]. pose proof (capacity_half Capacity).
  replace (u64 (Z.of_nat np) +w 1 -w u64 (Z.of_nat n)) with (Z.of_nat np - Z.of_nat n + 1) by word_lia.
  case_bool_decide; [apply Z.ltb_lt|apply Z.ltb_ge]; lia.
Qed.

Lemma empty_test nh n :
  (nh <= n <= nh + cap)%nat →
  (u64 (Z.of_nat nh) =? u64 (Z.of_nat n)) = bool_decide (n = nh).
Proof.
  intros H1. pose proof (ring_size_pos Capacity) as [Hcap Hc]. pose proof (capacity_half Capacity).
  case_bool_decide; [subst; apply Z.eqb_refl|]. apply Z.eqb_neq. word_lia.
Qed.

(** ** Consequences of the invariant *)

Lemma inv_bounds s :
  inv s →
  (length (popped (trace s)) <= cur (cview s) Tail <= length (pushed (trace s)))%nat ∧
  (cur (pview s) Head <= length (popped (trace s)))%nat ∧
  (length (pushed (trace s)) <= cur (pview s) Head + cap)%nat.
Proof.
  intros []. destruct inv_producer0 as (Hp1 & Hp2 & _). destruct inv_consumer0 as (Hc1 & Hc2 & _).
  pose proof (proj1 inv_cclosed0 Tail) as H1. pose proof (proj1 inv_pclosed0 Head) as H2.
  rewrite (counts_latest _ _ _ inv_tail0) in H1. rewrite (counts_latest _ _ _ inv_head0) in H2. lia.
Qed.

Lemma successes_app a b : successes (a ++ b) = successes a ++ successes b.
Proof. apply omap_app. Qed.

Lemma pushed_successes tr : pushed (successes tr) = pushed tr.
Proof. induction tr as [|[]]; csimpl; unfold pushed in *; simpl; congruence. Qed.

Lemma popped_successes tr : popped (successes tr) = popped tr.
Proof. induction tr as [|[]]; csimpl; unfold popped in *; simpl; congruence. Qed.

Lemma inv_contents s :
  inv s → ∃ xs, fifo_run cap (successes (trace s)) xs ∧ pushed (trace s) = popped (trace s) ++ xs.
Proof.
  intros Hi. destruct (inv_run s Hi) as [xs Hr]. exists xs. split; [done|].
  apply fifo_run_contents in Hr as [Hr _]. by rewrite pushed_successes, popped_successes in Hr.
Qed.

Lemma same_contents tr tr' :
  successes tr' = successes tr → pushed tr' = pushed tr ∧ popped tr' = popped tr.
Proof.
  intros E. rewrite <- (pushed_successes tr), <- (popped_successes tr), <- E.
  by rewrite pushed_successes, popped_successes.
Qed.

(** ** Preservation *)

Lemma spsc_weak_initial s : initial s → inv s.
Proof.
  intros ->. pose proof (ring_size_pos Capacity) as [Hcap Hc].
  assert (∀ l, l = Head ∨ l = Tail → counts (memory_new cells_new) l 0) as Hcounts.
  { intros l Hl. split; [done|]. intros [|k] msg; [|done]. intros [= <-].
    split; [by destruct Hl as [->| ->]|apply good_bot]. }
  split; simpl; try apply thread_new_closed; try apply good_bot; auto using memory_new_ok.
  - split_and!; [done|simpl; lia|done].
  - done.
  - intros j Hj. unfold taken in Hj. simpl in Hj. split; [done|].
    rewrite turn_of_small by lia. done.
  - exists []. constructor.
Qed.

(** A step of the producer that stores nothing. *)
Lemma inv_producer_local s th p tr :
  inv s → being_pushed (set_producer s (mem s) th p tr) = being_pushed s →
  thread_closed (mem s) th → good (cur th) → successes tr = successes (trace s) →
  producer_ok (set_producer s (mem s) th p tr) → inv (set_producer s (mem s) th p tr).
Proof.
  intros [] Hb Hth Hg Htr Hok. destruct (same_contents _ _ Htr) as [Hpu Hpo].
  split; simpl; rewrite ?Hpu, ?Hpo, ?Htr; try done.
  - unfold consumer_ok. simpl. by rewrite Hpu, Hpo.
  - unfold slots_ok, made, taken in *. rewrite Hb. simpl. by rewrite Hpu, Hpo.
Qed.

Lemma inv_consumer_local s th c tr :
  inv s → taken (set_consumer s (mem s) th c tr) = taken s →
  thread_closed (mem s) th → good (cur th) → successes tr = successes (trace s) →
  consumer_ok (set_consumer s (mem s) th c tr) → inv (set_consumer s (mem s) th c tr).
Proof.
  intros [] Hb Hth Hg Htr Hok. destruct (same_contents _ _ Htr) as [Hpu Hpo].
  split; simpl; rewrite ?Hpu, ?Hpo, ?Htr; try done.
  - unfold producer_ok. simpl. by rewrite Hpu.
  - unfold slots_ok, made in *. rewrite Hb. simpl. by rewrite Hpu.
Qed.

(** A view that grows inside the memory keeps its own index. *)
Lemma own_index m l n th th' :
  counts m l n → thread_closed m th' → view_le (cur th) (cur th') → cur th l = n → cur th' l = n.
Proof.
  intros Hc [Hcl _] Hle Hn. specialize (Hcl l). specialize (Hle l).
  rewrite (counts_latest _ _ _ Hc) in Hcl. lia.
Qed.

Lemma produce_load_head s item t n h th :
  inv s → prod s = PLoadHead item t → load Acquire Head n (mem s) (pview s) = Some (Word h, th) →
  let np := length (pushed (trace s)) in
  thread_closed (mem s) th ∧ good (cur th) ∧ cur th Tail = np ∧ (np <= cur th Head + cap)%nat ∧
  t = u64 (Z.of_nat np) ∧ (cur (pview s) Head <= n <= length (popped (trace s)))%nat ∧
  (n <= cur th Head)%nat ∧ (Capacity <? t +w 1 -w h) = bool_decide (np = n + cap)%nat.
Proof.
  intros Hi Hp Hload np. pose proof (inv_bounds s Hi) as (Hb1 & Hb2 & Hb3). destruct Hi.
  destruct (load_other _ _ _ _ _ _ _ inv_memory0 inv_pclosed0 inv_head0 inv_pgood0 Hload)
    as (-> & Hn & Hn' & Hle & Hg & Hcl).
  destruct inv_producer0 as (Ht & Hr & Hpt). rewrite Hp in Hpt. subst t.
  pose proof (Hle Head) as HleH. fold np in Hr, Hb3.
  split_and!; try done; try lia; [by eapply own_index|]. apply full_test; unfold np; lia.
Qed.

Lemma consume_load_tail s n h t th :
  inv s → cons s = CLoadTail h → load Acquire Tail n (mem s) (cview s) = Some (Word t, th) →
  let nh := length (popped (trace s)) in
  thread_closed (mem s) th ∧ good (cur th) ∧ cur th Head = nh ∧ (nh <= cur th Tail)%nat ∧
  h = u64 (Z.of_nat nh) ∧ (cur (cview s) Tail <= n <= length (pushed (trace s)))%nat ∧
  (n <= cur th Tail)%nat ∧ (h =? t) = bool_decide (n = nh)%nat.
Proof.
  intros Hi Hp Hload nh. pose proof (inv_bounds s Hi) as (Hb1 & Hb2 & Hb3). destruct Hi.
  destruct (load_other _ _ _ _ _ _ _ inv_memory0 inv_cclosed0 inv_tail0 inv_cgood0 Hload)
    as (-> & Hn & Hn' & Hle & Hg & Hcl).
  destruct inv_consumer0 as (Ht & Hr & Hpt). rewrite Hp in Hpt. subst h.
  pose proof (Hle Tail) as HleT. fold nh in Hr, Hb1.
  split_and!; try done; try lia; [by eapply own_index|]. apply empty_test; unfold nh; lia.
Qed.
Lemma counts_push_other m l n l' msg :
  l ≠ l' → counts m l n → counts (push_message m l' msg) l n.
Proof. intros Hne [H1 H2]. unfold counts. by rewrite cells_push_other. Qed.

Lemma counts_push m l n msg :
  counts m l n → value msg = Word (u64 (Z.of_nat (S n))) → good (carries msg) →
  counts (push_message m l msg) l (S n).
Proof.
  intros [H1 H2] Hv Hg. unfold counts. rewrite cells_push_same, length_app. split; [simpl; lia|].
  intros k msg' [Hk|[Hk Hm]]%lookup_app_Some; [by apply H2|].
  apply list_lookup_singleton_Some in Hm as [Hk' <-]. by replace k with (S n) by lia.
Qed.

(** The message of a release store carries all its thread knows. *)
Lemma handed_release_good l n th :
  (n <= cur th l)%nat → good (cur th) → good (handed_on Release l n th).
Proof.
  intros Hn Hg. eapply spsc_good_ext; [exact Hg|]. intros l'. unfold handed_on, join, at_. simpl.
  case_decide; subst; lia.
Qed.

Lemma slot_distinct l j : l = Head ∨ l = Tail → slot j ≠ l.
Proof. by intros [->| ->]. Qed.

Lemma write_slot (m : memory loc cell) j0 msg a j :
  memory_ok m → (a <= j0 < a + cap)%nat → (a <= j < a + cap)%nat →
  newest (push_message m (slot j0) msg) (slot j) =
    (if decide (j = j0) then Some (value msg) else newest m (slot j)) ∧
  latest (push_message m (slot j0) msg) (slot j) =
    (if decide (j = j0) then S (latest m (slot j)) else latest m (slot j)).
Proof.
  intros Hm H0 Hj. case_decide as E.
  - subst j. split; [apply newest_push_same|]. apply latest_push_same, ok_inhabited, Hm.
  - assert (slot j ≠ slot j0) by (intros Hs%slot_inj; lia).
    split; [by apply newest_push_other|by apply latest_push_other].
Qed.

(** What the producer finds in its slot. *)
Lemma producer_slot s item t :
  inv s → prod s = PConstruct item t →
  let np := length (pushed (trace s)) in
  slot_at t = slot np ∧ (taken s <= np < taken s + cap)%nat ∧
  newest (mem s) (slot np) = Some (Object None) ∧
  (latest (mem s) (slot np) = 2 * round np ∧ 2 * round np <= cur (pview s) (slot np))%nat.
Proof.
  intros Hi Hp np. pose proof (inv_bounds s Hi) as (Hb1 & Hb2 & Hb3). destruct Hi.
  destruct inv_producer0 as (Ht & Hr & Hpt). rewrite Hp in Hpt. destruct Hpt as [-> Hroom].
  fold np in Hr, Hroom, Ht, Hb1.
  assert (made s = pushed (trace s)) as Hmade
    by (unfold made, being_pushed; rewrite Hp; apply app_nil_r).
  assert (taken s <= np < taken s + cap)%nat as Hw.
  { unfold taken. destruct inv_consumer0 as (Hc1 & Hc2 & Hcc). destruct (cons s); lia. }
  destruct (inv_slots0 np Hw) as [Hnew Hlat].
  rewrite Hmade, lookup_ge_None_2 in Hnew by done.
  rewrite Hmade, decide_False in Hlat by (unfold np; lia).
  split_and!; [apply slot_at_u64|lia|lia|done|lia|].
  destruct (decide (np < cap)%nat); [rewrite turn_of_small by done; lia|].
  destruct inv_pgood0 as [_ Hg]. specialize (Hg (np - cap)%nat ltac:(lia)).
  rewrite <- (slot_add_cap (np - cap)) in Hg.
  pose proof (turn_of_add Capacity (np - cap)) as Hra.
  replace (np - cap + cap)%nat with np in * by lia. lia.
Qed.

(** What the consumer finds in its slot. *)
Lemma consumer_slot s h :
  inv s → cons s = CTake h →
  let nh := length (popped (trace s)) in
  slot_at h = slot nh ∧ (nh < length (pushed (trace s)))%nat ∧ taken s = nh ∧
  (∃ x, pushed (trace s) !! nh = Some x ∧ newest (mem s) (slot nh) = Some (Object (Some x))) ∧
  (latest (mem s) (slot nh) = 2 * round nh + 1 ∧ 2 * round nh + 1 <= cur (cview s) (slot nh))%nat.
Proof.
  intros Hi Hp nh. pose proof (inv_bounds s Hi) as (Hb1 & Hb2 & Hb3). destruct Hi.
  destruct inv_consumer0 as (Ht & Hr & Hpt). rewrite Hp in Hpt. destruct Hpt as [-> Hroom].
  fold nh in Hr, Hroom, Ht, Hb1, Hb2. pose proof (ring_size_pos Capacity) as [Hcap _].
  assert (taken s = nh) as Htk by (unfold taken; rewrite Hp; lia).
  destruct (lookup_lt_is_Some_2 (pushed (trace s)) nh) as [x Hx]; [lia|].
  destruct (inv_slots0 nh ltac:(lia)) as [Hnew Hlat].
  assert (made s !! nh = Some x) as Hmx by (unfold made; by apply lookup_app_l_Some).
  rewrite Hmx in Hnew. rewrite decide_True in Hlat by (by eapply lookup_lt_Some).
  split_and!; [apply slot_at_u64|lia|done|by exists x|lia|].
  destruct inv_cgood0 as [Hg _]. specialize (Hg nh ltac:(lia)). lia.
Qed.
Lemma inv_construct s item t m th :
  inv s → prod s = PConstruct item t →
  plain_write (slot_at t) (Object (Some item)) (mem s) (pview s) = Some (m, th) →
  inv (set_producer s m th (PPublish item t) (trace s)).
Proof.
  intros Hi Hp Hw. destruct (producer_slot s item t Hi Hp) as (Hs & Hwin & _ & Hlat & _).
  rewrite Hs in Hw. destruct Hi.
  destruct (store_ok _ _ _ _ _ _ _ inv_memory0 inv_pclosed0 Hw) as (Hm & Hth & Hle).
  apply store_inv in Hw as (_ & -> & ->). set (np := length (pushed (trace s))) in *.
  split; simpl; try done.
  - by eapply thread_closed_mono.
  - by apply good_note.
  - destruct inv_producer0 as (Ht & Hr & Hpt). rewrite Hp in Hpt.
    unfold producer_ok; simpl; unfold join. fold np in Ht, Hr, Hpt. fold np.
    rewrite at_same, (at_other _ _ Tail), (at_other _ _ Head) by done.
    destruct Hpt as [-> Hpt]. split_and!; try lia.
    pose proof (ok_inhabited _ inv_memory0 (slot np)). unfold latest in Hlat. lia.
  - intros j Hj. change (taken (set_producer s _ _ _ _)) with (taken s) in Hj.
    destruct (write_slot (mem s) np {| value := Object (Some item);
      carries := handed_on Relaxed (slot np) (length (cells (mem s) (slot np)))
        (note (slot np) (length (cells (mem s) (slot np))) (pview s));
      by_rmw := false |} (taken s) j inv_memory0 Hwin Hj) as [Hn Hl].
    simpl. rewrite Hn, Hl. clear Hn Hl. destruct (inv_slots0 j Hj) as [Hn Hl].
    unfold made, being_pushed in *. rewrite Hp, app_nil_r in Hn, Hl. simpl.
    rewrite length_app. simpl. fold np in Hl |- *.
    destruct (decide (j = np)) as [->|Hne].
    + rewrite lookup_app_r, Nat.sub_diag by done. split; [done|]. rewrite Hl. rewrite decide_False, decide_True by lia. lia.
    + rewrite Hn, Hl. split; [|repeat case_decide; lia]. do 2 f_equal.
      destruct (decide (j < np)%nat); [by rewrite lookup_app_l by done|].
      rewrite !lookup_ge_None_2; [done|rewrite length_app; simpl; fold np; lia|fold np; lia].
Qed.

Lemma inv_store_tail s item t m th :
  inv s → prod s = PPublish item t →
  store Release Tail (Word (t +w 1)) (mem s) (pview s) = Some (m, th) →
  inv (set_producer s m th PIdle (trace s ++ [EvPush item])).
Proof.
  intros Hi Hp Hw. pose proof (inv_bounds s Hi) as (Hb1 & Hb2 & Hb3).
  destruct (inv_contents s Hi) as (xs & Hrun & Hxs). destruct Hi.
  destruct (store_ok _ _ _ _ _ _ _ inv_memory0 inv_pclosed0 Hw) as (Hm & Hth & Hle).
  apply store_inv in Hw as (_ & -> & ->). set (np := length (pushed (trace s))) in *.
  destruct inv_producer0 as (Ht & Hr & Hpt). rewrite Hp in Hpt. destruct Hpt as (-> & Hroom & Hslot).
  fold np in Ht, Hr, Hroom, Hslot. set (th := note Tail (length (cells (mem s) Tail)) (pview s)) in *.
  assert (length (cells (mem s) Tail) = S np) as Hlen by apply inv_tail0.
  assert (cur th Tail = S np ∧ ∀ l, l ≠ Tail → cur th l = cur (pview s) l) as [HT Hoth].
  { unfold th. simpl. unfold join. rewrite at_same, Hlen. split; [lia|]. intros l Hl.
    rewrite at_other by done. lia. }
  assert (good (cur th)) as Hg.
  { destruct inv_pgood0 as [G1 G2]. split; intros j; rewrite ?HT, !Hoth by done; [|apply G2].
    intros Hj. destruct (decide (j = np)) as [->|]; [done|]. apply G1. lia. }
  clearbody th.
  split; simpl; rewrite ?pushed_push, ?popped_push, ?length_app, ?Nat.add_1_r; simpl; try done.
  - by eapply thread_closed_mono.
  - apply counts_push; [done|simpl; f_equal; word_lia|]. apply handed_release_good; [|done].
    rewrite HT, Hlen. lia.
  - unfold producer_ok. simpl. rewrite pushed_push, length_app, HT, Hoth by done. simpl. fold np.
    split_and!; lia || done.
  - unfold consumer_ok in *. simpl. rewrite pushed_push, popped_push.
    destruct inv_consumer0 as (? & ? & Hc). split_and!; [done|done|].
    destruct (cons s); try done. destruct Hc as (? & ? & ? & ?). split_and!; try done.
    by apply lookup_app_l_Some.
  - unfold slots_ok, made, taken, being_pushed in *. simpl.
    rewrite pushed_push, popped_push, app_nil_r, Hp in *. intros j Hj.
    rewrite newest_push_other, latest_push_other by done. by apply inv_slots0.
  - exists (xs ++ [item]). rewrite successes_app. eapply run_snoc; [exact Hrun|]. constructor.
    apply (f_equal length) in Hxs. rewrite length_app in Hxs. fold np in Hxs. lia.
Qed.
Lemma inv_take s h item m th :
  inv s → cons s = CTake h →
  plain_read (slot_at h) (mem s) (cview s) = Some (Object (Some item)) →
  plain_write (slot_at h) (Object None) (mem s) (cview s) = Some (m, th) →
  inv (set_consumer s m th (CPublish h item) (trace s)).
Proof.
  intros Hi Hp Hrd Hw. pose proof (inv_bounds s Hi) as (Hb1 & Hb2 & Hb3).
  destruct (consumer_slot s h Hi Hp) as (Hs & Hlt & Htk & (x & Hx & Hnew) & Hlat & _).
  rewrite Hs in Hw, Hrd. apply plain_read_inv in Hrd as [_ Hrd].
  rewrite Hnew in Hrd. injection Hrd as ->. pose proof (ring_size_pos Capacity) as [Hcap _]. destruct Hi.
  destruct (store_ok _ _ _ _ _ _ _ inv_memory0 inv_cclosed0 Hw) as (Hm & Hth & Hle).
  apply store_inv in Hw as (_ & -> & ->). set (nh := length (popped (trace s))) in *.
  split; simpl; try done.
  - by eapply thread_closed_mono.
  - by apply good_note.
  - destruct inv_consumer0 as (Ht & Hr & Hpt). rewrite Hp in Hpt.
    unfold consumer_ok; simpl; unfold join. fold nh in Ht, Hr, Hpt. fold nh.
    rewrite at_same, (at_other _ _ Tail), (at_other _ _ Head) by done.
    destruct Hpt as [-> Hpt]. split_and!; try done; try lia.
    pose proof (ok_inhabited _ inv_memory0 (slot nh)). unfold latest in Hlat. lia.
  - assert (taken (set_consumer s (push_message (mem s) (slot nh) {| value := Object None;
      carries := handed_on Relaxed (slot nh) (length (cells (mem s) (slot nh)))
        (note (slot nh) (length (cells (mem s) (slot nh))) (cview s)); by_rmw := false |})
      (note (slot nh) (length (cells (mem s) (slot nh))) (cview s)) (CPublish h item) (trace s)) = S nh)
      as Htk' by (unfold taken; simpl; fold nh; lia).
    intros j. rewrite Htk'. intros Hj.
    change (made (set_consumer s _ _ _ _)) with (made s). simpl.
    assert (length (made s) <= nh + cap)%nat as Hml.
    { unfold made, being_pushed. rewrite length_app.
      destruct inv_producer0 as (_ & _ & Hpp). destruct (prod s); simpl; lia. }
    destruct (decide (j = nh + cap)%nat) as [->|Hne].
    + rewrite slot_add_cap, (turn_of_add Capacity), newest_push_same.
      rewrite latest_push_same by apply ok_inhabited, inv_memory0.
      rewrite lookup_ge_None_2, decide_False by lia. split; [done|lia].
    + assert (slot j ≠ slot nh) by (intros E%slot_inj; lia).
      rewrite newest_push_other, latest_push_other by done. apply inv_slots0. lia.
Qed.

Lemma inv_store_head s h item m th :
  inv s → cons s = CPublish h item →
  store Release Head (Word (h +w 1)) (mem s) (cview s) = Some (m, th) →
  inv (set_consumer s m th CIdle (trace s ++ [EvPop item])).
Proof.
  intros Hi Hp Hw. pose proof (inv_bounds s Hi) as (Hb1 & Hb2 & Hb3).
  destruct (inv_contents s Hi) as (xs & Hrun & Hxs). destruct Hi.
  destruct (store_ok _ _ _ _ _ _ _ inv_memory0 inv_cclosed0 Hw) as (Hm & Hth & Hle).
  apply store_inv in Hw as (_ & -> & ->). set (nh := length (popped (trace s))) in *.
  destruct inv_consumer0 as (Ht & Hr & Hpt). rewrite Hp in Hpt.
  destruct Hpt as (-> & Hroom & Hslot & Hx).
  fold nh in Ht, Hr, Hroom, Hslot, Hx. set (th := note Head (length (cells (mem s) Head)) (cview s)) in *.
  assert (length (cells (mem s) Head) = S nh) as Hlen by apply inv_head0.
  assert (cur th Head = S nh ∧ ∀ l, l ≠ Head → cur th l = cur (cview s) l) as [HT Hoth].
  { unfold th. simpl. unfold join. rewrite at_same, Hlen. split; [lia|]. intros l Hl.
    rewrite at_other by done. lia. }
  assert (good (cur th)) as Hg.
  { destruct inv_cgood0 as [G1 G2]. split; intros j; rewrite ?HT, !Hoth by done; [apply G1|].
    intros Hj. destruct (decide (j = nh)) as [->|]; [done|]. apply G2. lia. }
  clearbody th.
  split; simpl; rewrite ?pushed_pop, ?popped_pop, ?length_app, ?Nat.add_1_r; simpl; try done.
  - by eapply thread_closed_mono.
  - apply counts_push; [done|simpl; f_equal; word_lia|]. apply handed_release_good; [|done].
    rewrite HT, Hlen. lia.
  - unfold producer_ok in *. simpl. by rewrite pushed_pop.
  - unfold consumer_ok. simpl. rewrite popped_pop, length_app, HT, Hoth by done. simpl. fold nh.
    split_and!; lia || done.
  - unfold slots_ok, made, taken, being_pushed in *. simpl.
    rewrite Hp in inv_slots0. rewrite pushed_pop, popped_pop, (length_app (popped _)).
    simpl. fold nh in inv_slots0 |- *.
    intros j Hj. rewrite newest_push_other, latest_push_other by done. apply inv_slots0. lia.
  - rewrite Hxs, lookup_app_r, Nat.sub_diag in Hx by done. destruct xs as [|y xs]; [done|].
    injection Hx as ->. exists xs. rewrite successes_app. eapply run_snoc; [exact Hrun|]. constructor.
Qed.

Lemma spsc_inv_produce s s' : inv s → produce s s' → inv s'.
Proof.
  intros Hi Hs. destruct Hs as [item n t th Hp Hl|item t n h th Hp Hl Hf|item t n h th Hp Hl Hf| | |].
  - pose proof (inv_producer s Hi) as (Ht & Hr & _).
    destruct (load_own _ _ _ _ _ _ _ (inv_tail s Hi) Ht Hl) as [-> Heq].
    apply inv_producer_local; try done.
    + unfold being_pushed. by rewrite Hp.
    + eapply load_closed; [apply Hi|apply Hi|done].
    + eapply spsc_good_ext; [apply (inv_pgood s Hi)|done].
    + unfold producer_ok. simpl. by rewrite !Heq.
  - destruct (produce_load_head s item t n h th Hi Hp Hl) as (? & ? & ? & ? & _).
    apply inv_producer_local; try done.
    + unfold being_pushed. by rewrite Hp.
    + rewrite successes_app. apply app_nil_r.
    + unfold producer_ok. simpl. by rewrite pushed_app, app_nil_r.
  - destruct (produce_load_head s item t n h th Hi Hp Hl) as (? & ? & ? & ? & -> & ? & ? & Ht).
    rewrite Hf in Ht. symmetry in Ht. apply bool_decide_eq_false in Ht.
    pose proof (inv_bounds s Hi) as (Hb1 & Hb2 & Hb3).
    apply inv_producer_local; try done.
    + unfold being_pushed. by rewrite Hp.
    + unfold producer_ok. simpl. split_and!; try done. lia.
  - by eapply inv_construct.
  - by eapply inv_store_tail.
  - assert (thread_closed (mem s) (learn (cur (cview s)) (pview s))) as Hcl
      by (apply learn_closed; [apply (inv_cclosed s Hi)|apply Hi]).
    apply inv_producer_local; try done.
    + apply good_learn; apply Hi.
    + pose proof (inv_producer s Hi) as (Ht & Hr & Hp). unfold producer_ok. simpl.
      pose proof (own_index _ _ _ _ _ (inv_tail s Hi) Hcl (join_l _ _) Ht) as Ht'. simpl in Ht'.
      pose proof (join_l (cur (pview s)) (cur (cview s))) as Hle. pose proof (Hle Head).
      split_and!; [done|lia|]. destruct (prod s); try done.
      * destruct Hp. split; [done|lia].
      * destruct Hp as (? & ? & ?). pose proof (Hle (slot (length (pushed (trace s))))).
        split_and!; [done|lia|lia].
Qed.

Lemma spsc_inv_consume s s' : inv s → consume s s' → inv s'.
Proof.
  intros Hi Hs. destruct Hs as [n h th Hp Hl|h n t th Hp Hl Hf|h n t th Hp Hl Hf| | |].
  - pose proof (inv_consumer s Hi) as (Ht & Hr & _).
    destruct (load_own _ _ _ _ _ _ _ (inv_head s Hi) Ht Hl) as [-> Heq].
    apply inv_consumer_local; try done.
    + unfold taken. by rewrite Hp.
    + eapply load_closed; [apply Hi|apply (inv_cclosed s Hi)|done].
    + eapply spsc_good_ext; [apply (inv_cgood s Hi)|done].
    + unfold consumer_ok. simpl. by rewrite !Heq.
  - destruct (consume_load_tail s n h t th Hi Hp Hl) as (? & ? & ? & ? & _).
    apply inv_consumer_local; try done.
    + unfold taken. simpl. by rewrite Hp, popped_app, app_nil_r.
    + rewrite successes_app. apply app_nil_r.
    + unfold consumer_ok. simpl. by rewrite popped_app, app_nil_r.
  - destruct (consume_load_tail s n h t th Hi Hp Hl) as (? & ? & ? & ? & -> & ? & ? & Ht).
    rewrite Hf in Ht. symmetry in Ht. apply bool_decide_eq_false in Ht.
    pose proof (inv_bounds s Hi) as (Hb1 & Hb2 & Hb3).
    apply inv_consumer_local; try done.
    + unfold taken. by rewrite Hp.
    + unfold consumer_ok. simpl. split_and!; try done. lia.
  - by eapply inv_take.
  - by eapply inv_store_head.
  - assert (thread_closed (mem s) (learn (cur (pview s)) (cview s))) as Hcl
      by (apply learn_closed; [apply (inv_pclosed s Hi)|apply Hi]).
    apply inv_consumer_local; try done.
    + apply good_learn; apply Hi.
    + pose proof (inv_consumer s Hi) as (Ht & Hr & Hp). unfold consumer_ok. simpl.
      pose proof (own_index _ _ _ _ _ (inv_head s Hi) Hcl (join_l _ _) Ht) as Ht'. simpl in Ht'.
      pose proof (join_l (cur (cview s)) (cur (pview s))) as Hle. pose proof (Hle Tail).
      split_and!; [done|lia|]. destruct (cons s); try done.
      * destruct Hp. split; [done|lia].
      * destruct Hp as (? & ? & ? & ?). pose proof (Hle (slot (length (popped (trace s))))).
        split_and!; try done; lia.
Qed.

Lemma spsc_weak_inv s : reachable initial step s → inv s.
Proof.
  apply reachable_ind'; [apply spsc_weak_initial|].
  intros s1 s2 _ Hi [Hs|Hs]; [by eapply spsc_inv_produce|by eapply spsc_inv_consume].
Qed.
End spsc_weak.
Arguments state : clear implicits.
Arguments cell : clear implicits.

(** A step that records another event, or none. *)
Ltac other_event := try match goal with
  | H : ?tr = ?tr ++ _ |- _ => apply (f_equal length) in H; rewrite length_app in H; simpl in H; lia
  | H : ?tr ++ _ = ?tr ++ _ |- _ => apply app_inv_head in H; discriminate
  end.

Section moves.
Context {T : Type} (Capacity : Z) `{!RingCapacity Capacity} (s : state T) (Hi : inv Capacity s).

(** The producer constructs in raw memory whose newest access it knows. *)
Lemma constructs_raw x t :
  prod s = PConstruct x t → plain_read (slot_at Capacity t) (mem s) (pview s) = Some (Object None).
Proof.
  intros Hp. destruct (producer_slot Capacity s x t Hi Hp) as (-> & _ & Hn & ? & ?).
  rewrite plain_read_defined; [done|apply Hi|lia].
Qed.

(** The consumer moves out of the oldest element, whose construction it knows. *)
Lemma takes_live h :
  cons s = CTake h → ∃ x, pushed (trace s) !! length (popped (trace s)) = Some x ∧
    plain_read (slot_at Capacity h) (mem s) (cview s) = Some (Object (Some x)).
Proof.
  intros Hp. destruct (consumer_slot Capacity s h Hi Hp) as (-> & _ & _ & (x & ? & Hn) & ? & ?).
  exists x. rewrite plain_read_defined; [done|apply (inv_cclosed _ s Hi)|lia].
Qed.

Lemma producer_moves : prod s ≠ PIdle → ∃ s', produce Capacity s s' ∧ prod s' ≠ prod s.
Proof.
  intros Hne. destruct (prod s) as [|x t|x t|x t] eqn:Hp; [done| | |].
  + destruct (load_newest Acquire Head (mem s) (pview s)) as ([h|o] & th & Hl); [apply Hi|apply Hi| |].
    * destruct (Capacity <? t +w 1 -w h) eqn:Hf; eexists.
      all: split; [by econstructor|done].
    * apply load_inv in Hl as (m & Hm & Hv & _).
      destruct (proj2 (inv_head _ s Hi) _ _ Hm). congruence.
  + destruct (producer_slot Capacity s x t Hi Hp) as (Hs & _ & _ & ? & ?).
    destruct (store_defined Relaxed (slot_at Capacity t) (Object (Some x)) (mem s) (pview s))
      as [[m th] Hst]; [apply Hi|rewrite Hs; lia|].
    eexists. split; [eapply produce_construct; [done|by eapply constructs_raw|done]|done].
  + destruct (store_defined Release Tail (Word (t +w 1)) (mem s) (pview s)) as [[m th] Hst].
    { apply Hi. }
    { rewrite (counts_latest _ _ _ _ (inv_tail _ s Hi)). by rewrite (proj1 (inv_producer _ s Hi)). }
    eexists. split; [by eapply produce_store_tail|done].
Qed.

Lemma consumer_moves : cons s ≠ CIdle → ∃ s', consume Capacity s s' ∧ cons s' ≠ cons s.
Proof.
  intros Hne. destruct (cons s) as [|h|h|h x] eqn:Hp; [done| | |].
  + destruct (load_newest Acquire Tail (mem s) (cview s)) as ([t|o] & th & Hl);
      [apply Hi|apply (inv_cclosed _ s Hi)| |].
    * destruct (h =? t) eqn:Hf; eexists.
      all: split; [by econstructor|done].
    * apply load_inv in Hl as (m & Hm & Hv & _).
      destruct (proj2 (inv_tail _ s Hi) _ _ Hm). congruence.
  + destruct (consumer_slot Capacity s h Hi Hp) as (Hs & _ & _ & _ & ? & ?).
    destruct (store_defined Relaxed (slot_at Capacity h) (Object None) (mem s) (cview s))
      as [[m th] Hst]; [apply (inv_cclosed _ s Hi)|rewrite Hs; lia|].
    destruct (takes_live h Hp) as (x & _ & Hx).
    eexists. split; [by eapply consume_take|done].
  + destruct (store_defined Release Head (Word (h +w 1)) (mem s) (cview s)) as [[m th] Hst].
    { apply (inv_cclosed _ s Hi). }
    { rewrite (counts_latest _ _ _ _ (inv_head _ s Hi)). by rewrite (proj1 (inv_consumer _ s Hi)). }
    eexists. split; [by eapply consume_store_head|done].
Qed.
End moves.

(** ** Properties *)

(** C6. Under the C++ memory model with the orders of the source, and whatever else the two
    threads synchronise on: the successful pushes and pops form a legal history of a
    bounded FIFO queue. No access races or is undefined: the producer constructs in raw
    memory it knows the newest access of, the consumer moves out of the live object it
    knows of, and each index is stored only by the thread that knows its newest value. A
    thread inside a call is never stuck. [false] is answered only if the queue is full
    according to some number of pops not smaller than what the producer knows of,
    [nullopt] only if the consumer knows of no push that has not been popped. *)
Theorem spsc_weak_safe {T} (Capacity : Z) `{!RingCapacity Capacity} (s : state T) :
  reachable initial (step Capacity) s →
  let np := length (pushed (trace s)) in
  let nh := length (popped (trace s)) in
  (∃ xs, fifo_run (ring_size Capacity) (successes (trace s)) xs ∧ pushed (trace s) = popped (trace s) ++ xs) ∧
  (∀ x t, prod s = PConstruct x t →
     plain_read (slot_at Capacity t) (mem s) (pview s) = Some (Object None)) ∧
  (∀ h, cons s = CTake h → ∃ x, pushed (trace s) !! nh = Some x ∧
     plain_read (slot_at Capacity h) (mem s) (cview s) = Some (Object (Some x))) ∧
  (prod s ≠ PIdle → ∃ s', produce Capacity s s' ∧ prod s' ≠ prod s) ∧
  (cons s ≠ CIdle → ∃ s', consume Capacity s s' ∧ cons s' ≠ cons s) ∧
  (∀ s', step Capacity s s' → trace s' = trace s ++ [EvFull] →
     ∃ n, (cur (pview s) Head <= n <= nh)%nat ∧ np = (n + ring_size Capacity)%nat) ∧
  (∀ s', step Capacity s s' → trace s' = trace s ++ [EvEmpty] → (cur (cview s) Tail <= nh)%nat).
Proof.
  intros Hi%spsc_weak_inv np nh; [|done].
  split_and!; [by apply inv_contents|by apply constructs_raw|by apply takes_live|
    by apply producer_moves|by apply consumer_moves| |].
  - intros s' [Hs|Hs] Htr; destruct Hs; simpl in Htr; other_event.
    destruct (produce_load_head Capacity s item t n h th Hi) as (_ & _ & _ & _ & _ & Hn & _ & Hf);
      [done..|].
    exists n. split; [done|]. assert (bool_decide (np = (n + ring_size Capacity)%nat) = true) as Hb by (unfold np; congruence).
    by apply bool_decide_eq_true_1 in Hb.
  - intros s' [Hs|Hs] Htr; destruct Hs; simpl in Htr; other_event.
    destruct (consume_load_tail Capacity s n h t th Hi) as (_ & _ & _ & _ & _ & Hn & _ & Hf);
      [done..|].
    assert (bool_decide (n = nh) = true) as Hb by (unfold nh; congruence).
    apply bool_decide_eq_true_1 in Hb. lia.
Qed.

(** A run: two elements come and go, and the producer, which reads [head_] as it first
    was, is about to be refused by an empty queue. *)
Definition stale_run : state nat :=
  end_of (exec 2) (
    ([Producer 5 0; Producer 5 0; Producer 5 0; Producer 5 0] ++
     [Producer 6 1; Producer 6 0; Producer 6 0; Producer 6 0] ++
     [Consumer 0; Consumer 2; Consumer 0; Consumer 0] ++
     [Consumer 1; Consumer 2; Consumer 0; Consumer 0] ++ [Producer 7 2])%nat)
    {| mem := memory_new cells_new; pview := thread_new; cview := thread_new;
       prod := PIdle; cons := CIdle; trace := [] |}.

Lemma spsc_stale_reachable : reachable initial (step 2) stale_run.
Proof. by apply end_reachable; [apply spsc_exec_step|]. Qed.

Lemma stale_full : ∃ s', step 2 stale_run s' ∧ trace s' = trace stale_run ++ [EvFull].
Proof.
  apply (exec_observe (step 2) (exec 2) (spsc_exec_step 2) trace (Producer 7%nat 0%nat)).
  by vm_compute.
Qed.

Lemma spsc_weak_safe_witness :
  pushed (trace stale_run) = popped (trace stale_run) ∧ cur (pview stale_run) Head = 0%nat.
Proof.
  split; [by vm_compute|].
  destruct (spsc_weak_safe 2 stale_run spsc_stale_reachable) as (_ & _ & _ & _ & _ & Hfull & _).
  destruct stale_full as (s' & Hs & Htr). destruct (Hfull s' Hs Htr) as (n & Hn & Hnp).
  assert (length (pushed (trace stale_run)) = 2%nat) as Hl by by vm_compute.
  rewrite Hl in Hnp. change (ring_size 2) with 2%nat in Hnp. lia.
Defined.
