(* ===== verification/Mpmc.v ===== *)
(** * Multi-producer multi-consumer queue
      ([include/jellybean/concurrency/mpmc_queue.hpp])

    Any number of threads run [emplace] and [try_pop], cut at their atomic
    accesses and interleaved (sequentially consistent). A position is a ticket:
    the [p]-th successful push and the [p]-th successful pop meet in slot
    [p & MASK]. The history [trace] records an operation when its
    [compare_exchange_weak] claims the ticket; [returned] records what each
    [try_pop] really handed to its caller. The signed difference of the source is
    exact as long as the tickets stay below [2^63], which the theorems assume of
    the run. *)
From S2P Require Import Prelude.
From S2P Require Import Transition.
From S2P Require Import Ring.
From S2P Require Import Queue.

Section mpmc.
Context {T : Type} (Capacity : Z).

(** ** The queue object *)

Record slot := { sequence : Z; storage : option T }.

Record mpmc_queue := {
  slots_ : list slot;
  enqueue_pos_ : Z;
  dequeue_pos_ : Z }.

Definition mpmc_new : mpmc_queue := {|
  slots_ := (λ i, {| sequence := Z.of_nat i; storage := None |}) <$> seq 0 (Z.to_nat Capacity);
  enqueue_pos_ := 0;
  dequeue_pos_ := 0 |}.

(** [static_cast<intptr_t>(seq) - static_cast<intptr_t>(pos)]. *)
Definition signed_diff (sq pos : Z) : Z := s64 sq - s64 pos.

(** ** The threads *)

(** Where a thread is: between calls; about to load the slot's sequence; about to
    compare-exchange the position; about to reload the position; ticket claimed,
    about to construct or move out; about to store the sequence. *)
Inductive thread :=
| Idle
| PushLoad (item : T) (pos : Z)
| PushCas (item : T) (pos : Z)
| PushReload (item : T)
| PushConstruct (item : T) (pos : Z)
| PushPublish (item : T) (pos : Z)
| PopLoad (pos : Z)
| PopCas (pos : Z)
| PopReload
| PopTake (pos : Z)
| PopPublish (pos : Z) (item : T).

Record state := {
  queue : mpmc_queue;
  threads : list thread;
  trace : list (event T);
  returned : list (Z * T) }.

Definition initial (s : state) : Prop :=
  queue s = mpmc_new ∧ (∀ t th, threads s !! t = Some th → th = Idle) ∧
  trace s = [] ∧ returned s = [].

Definition slot_at (q : mpmc_queue) (pos : Z) : option slot :=
  slots_ q !! slot_index Capacity pos.

Definition set_slot (q : mpmc_queue) (pos : Z) (sl : slot) : mpmc_queue := {|
  slots_ := <[slot_index Capacity pos := sl]> (slots_ q);
  enqueue_pos_ := enqueue_pos_ q;
  dequeue_pos_ := dequeue_pos_ q |}.

(** The ticket [p] of the history: the element of the [p]-th push. *)
Definition pushed_at (tr : list (event T)) (p : Z) : option T := pushed tr !! Z.to_nat p.

(** [thread_step th q tr th' q' tr' ret]: one atomic access of a thread at [th].
    [ret] is what the access makes [try_pop] return. *)
Inductive thread_step : thread → mpmc_queue → list (event T) →
    thread → mpmc_queue → list (event T) → list (Z * T) → Prop :=
| push_begin q tr x :
    thread_step Idle q tr (PushLoad x (enqueue_pos_ q)) q tr []
| push_ready q tr x pos sl :
    slot_at q pos = Some sl → signed_diff (sequence sl) pos = 0 →
    thread_step (PushLoad x pos) q tr (PushCas x pos) q tr []
| push_full q tr x pos sl :
    slot_at q pos = Some sl → signed_diff (sequence sl) pos < 0 →
    thread_step (PushLoad x pos) q tr Idle q tr []
| push_lost q tr x pos sl :
    slot_at q pos = Some sl → 0 < signed_diff (sequence sl) pos →
    thread_step (PushLoad x pos) q tr (PushReload x) q tr []
| push_reload q tr x :
    thread_step (PushReload x) q tr (PushLoad x (enqueue_pos_ q)) q tr []
| push_cas_fail q tr x pos :
    (* a weak exchange may also fail when the position is unchanged *)
    thread_step (PushCas x pos) q tr (PushLoad x (enqueue_pos_ q)) q tr []
| push_cas q tr x pos :
    enqueue_pos_ q = pos →
    thread_step (PushCas x pos) q tr (PushConstruct x pos)
      {| slots_ := slots_ q; enqueue_pos_ := pos +w 1; dequeue_pos_ := dequeue_pos_ q |}
      (tr ++ [EvPush x]) []
| push_construct q tr x pos sl :
    slot_at q pos = Some sl →
    thread_step (PushConstruct x pos) q tr (PushPublish x pos)
      (set_slot q pos {| sequence := sequence sl; storage := Some x |}) tr []
| push_publish q tr x pos sl :
    slot_at q pos = Some sl →
    thread_step (PushPublish x pos) q tr Idle
      (set_slot q pos {| sequence := pos +w 1; storage := storage sl |}) tr []
| pop_begin q tr :
    thread_step Idle q tr (PopLoad (dequeue_pos_ q)) q tr []
| pop_ready q tr pos sl :
    slot_at q pos = Some sl → signed_diff (sequence sl) (pos +w 1) = 0 →
    thread_step (PopLoad pos) q tr (PopCas pos) q tr []
| pop_empty q tr pos sl :
    slot_at q pos = Some sl → signed_diff (sequence sl) (pos +w 1) < 0 →
    thread_step (PopLoad pos) q tr Idle q tr []
| pop_lost q tr pos sl :
    slot_at q pos = Some sl → 0 < signed_diff (sequence sl) (pos +w 1) →
    thread_step (PopLoad pos) q tr PopReload q tr []
| pop_reload q tr :
    thread_step PopReload q tr (PopLoad (dequeue_pos_ q)) q tr []
| pop_cas_fail q tr pos :
    thread_step (PopCas pos) q tr (PopLoad (dequeue_pos_ q)) q tr []
| pop_cas q tr pos :
    dequeue_pos_ q = pos →
    thread_step (PopCas pos) q tr (PopTake pos)
      {| slots_ := slots_ q; enqueue_pos_ := enqueue_pos_ q; dequeue_pos_ := pos +w 1 |}
      (tr ++ from_option (λ x, [EvPop x]) [] (pushed_at tr pos)) []
| pop_take q tr pos sl x :
    slot_at q pos = Some sl → storage sl = Some x →
    thread_step (PopTake pos) q tr (PopPublish pos x)
      (set_slot q pos {| sequence := sequence sl; storage := None |}) tr []
| pop_publish q tr pos sl x :
    slot_at q pos = Some sl →
    thread_step (PopPublish pos x) q tr Idle
      (set_slot q pos {| sequence := pos +w MASK Capacity +w 1; storage := storage sl |})
      tr [(pos, x)].

Inductive step : state → state → Prop :=
| step_thread t th q ths tr rt th' q' tr' ret :
    ths !! t = Some th →
    thread_step th q tr th' q' tr' ret →
    step {| queue := q; threads := ths; trace := tr; returned := rt |}
         {| queue := q'; threads := <[t := th']> ths; trace := tr';
            returned := rt ++ ret |}.

(** ** The invariant *)

(** The stages of a slot's turn with the ticket it serves; [t] is the thread that
    owns the slot in that stage. *)
Inductive phase :=
| Free
| Writing (t : nat)
| Written (t : nat)
| Ready
| Taking (t : nat)
| Taken (t : nat).

(** What slot and counters look like in each stage: [E] pushes and [D] pops have
    claimed their tickets, [xs] are the elements pushed. *)
Definition slot_ok (xs : list T) (D : Z) (sl : slot) (p : Z) (ph : phase) : Prop :=
  let E := Z.of_nat (length xs) in
  match ph with
  | Free => sequence sl = p ∧ storage sl = None ∧ E <= p < E + Capacity ∧ p - Capacity < D
  | Writing _ => sequence sl = p ∧ storage sl = None ∧ 0 <= D <= p ∧ p < E
  | Written _ =>
      sequence sl = p ∧ storage sl = xs !! Z.to_nat p ∧ 0 <= D <= p ∧ p < E
  | Ready =>
      sequence sl = p + 1 ∧ storage sl = xs !! Z.to_nat p ∧ 0 <= D <= p ∧ p < E
  | Taking _ =>
      sequence sl = p + 1 ∧ storage sl = xs !! Z.to_nat p ∧ 0 <= p < D ∧ E <= p + Capacity
  | Taken _ => sequence sl = p + 1 ∧ storage sl = None ∧ 0 <= p < D ∧ E <= p + Capacity
  end.

Definition owner (ph : phase) : option nat :=
  match ph with
  | Writing t | Written t | Taking t | Taken t => Some t
  | _ => None
  end.

(** The turn of the slot of position [p]. *)
Definition turn_at (turns : list (Z * phase)) (p : Z) : option (Z * phase) :=
  turns !! slot_index Capacity p.

Definition thread_ok (xs : list T) (D : Z) (q : mpmc_queue) (turns : list (Z * phase))
    (t : nat) (th : thread) : Prop :=
  let E := Z.of_nat (length xs) in
  match th with
  | Idle | PushReload _ | PopReload => True
  | PushLoad _ pos => 0 <= pos <= E
  | PushCas _ pos => 0 <= pos <= E ∧ ∃ sl, slot_at q pos = Some sl ∧ pos <= sequence sl
  | PushConstruct x p => turn_at turns p = Some (p, Writing t) ∧ xs !! Z.to_nat p = Some x
  | PushPublish x p => turn_at turns p = Some (p, Written t) ∧ xs !! Z.to_nat p = Some x
  | PopLoad pos => 0 <= pos <= D
  | PopCas pos => 0 <= pos <= D ∧ ∃ sl, slot_at q pos = Some sl ∧ pos + 1 <= sequence sl
  | PopTake p => turn_at turns p = Some (p, Taking t)
  | PopPublish p x => turn_at turns p = Some (p, Taken t) ∧ xs !! Z.to_nat p = Some x
  end.

(** The thread that owns a slot is where the stage says. *)
Definition owner_ok (ths : list thread) (p : Z) (ph : phase) : Prop :=
  match ph with
  | Free | Ready => True
  | Writing t => ∃ x, ths !! t = Some (PushConstruct x p)
  | Written t => ∃ x, ths !! t = Some (PushPublish x p)
  | Taking t => ths !! t = Some (PopTake p)
  | Taken t => ∃ x, ths !! t = Some (PopPublish p x)
  end.

(** A pop with ticket [p] is in flight. *)
Definition is_popping (ph : phase) : Prop := ∃ t, ph = Taking t ∨ ph = Taken t.

Definition popping (turns : list (Z * phase)) (p : Z) : Prop :=
  ∃ ph, turn_at turns p = Some (p, ph) ∧ is_popping ph.

(** Every claimed pop ticket is either in flight or has been returned, once. *)
Definition returned_ok (xs : list T) (D : Z) (turns : list (Z * phase))
    (rt : list (Z * T)) : Prop :=
  NoDup rt.*1 ∧
  (∀ p x, (p, x) ∈ rt → 0 <= p < D ∧ xs !! Z.to_nat p = Some x ∧ ¬ popping turns p) ∧
  (∀ p, 0 <= p < D → p ∈ rt.*1 ∨ popping turns p).

Record inv_with (s : state) (turns : list (Z * phase)) : Prop := {
  inv_slots_length : length (slots_ (queue s)) = Z.to_nat Capacity;
  inv_turns_length : length turns = Z.to_nat Capacity;
  inv_enqueue : enqueue_pos_ (queue s) = Z.of_nat (length (pushed (trace s)));
  inv_dequeue : dequeue_pos_ (queue s) = Z.of_nat (length (popped (trace s)));
  inv_run : ∃ xs, fifo_run (Z.to_nat Capacity) (trace s) xs;
  inv_slots : ∀ i p ph, turns !! i = Some (p, ph) →
    i = slot_index Capacity p ∧
    (∃ sl, slots_ (queue s) !! i = Some sl ∧
      slot_ok (pushed (trace s)) (dequeue_pos_ (queue s)) sl p ph) ∧
    owner_ok (threads s) p ph;
  inv_threads : ∀ t th, threads s !! t = Some th →
    thread_ok (pushed (trace s)) (dequeue_pos_ (queue s)) (queue s) turns t th;
  inv_returned :
    returned_ok (pushed (trace s)) (dequeue_pos_ (queue s)) turns (returned s) }.

Definition inv (s : state) : Prop := ∃ turns, inv_with s turns.
(** ** Lemmas *)

Context `{!RingCapacity Capacity}.

Definition ticket_of (th : thread) : option Z :=
  match th with
  | PushConstruct _ p | PushPublish _ p | PopTake p | PopPublish p _ => Some p
  | _ => None
  end.

Lemma owner_ok_insert ths t th th' p ph :
  owner_ok ths p ph → ths !! t = Some th → ticket_of th ≠ Some p →
  owner_ok (<[t:=th']> ths) p ph.
Proof.
  intros Ho Ht Hn.
  assert (Hne : ∀ t' th2, ths !! t' = Some th2 → ticket_of th2 = Some p → t ≠ t').
  { intros t' th2 H1 H2 <-. congruence. }
  destruct ph as [|t'|t'| |t'|t']; simpl in *; try done.
  - destruct Ho as [x Hx]. exists x. rewrite list_lookup_insert_ne; [done|].
    by eapply Hne.
  - destruct Ho as [x Hx]. exists x. rewrite list_lookup_insert_ne; [done|].
    by eapply Hne.
  - rewrite list_lookup_insert_ne; [done|]. by eapply Hne.
  - destruct Ho as [x Hx]. exists x. rewrite list_lookup_insert_ne; [done|].
    by eapply Hne.
Qed.

Lemma thread_ok_mono xs D q turns xs' D' q' turns' t th :
  thread_ok xs D q turns t th →
  xs `prefix_of` xs' → D <= D' →
  (∀ pos sl, slot_at q pos = Some sl →
    ∃ sl', slot_at q' pos = Some sl' ∧ sequence sl <= sequence sl') →
  (∀ p ph, turn_at turns p = Some (p, ph) → owner ph = Some t →
    turn_at turns' p = Some (p, ph)) →
  thread_ok xs' D' q' turns' t th.
Proof.
  intros Hok Hx HD Hs Ht. pose proof (prefix_length _ _ Hx).
  assert (Hl : ∀ n x, xs !! n = Some x → xs' !! n = Some x)
    by (intros n x ?; by eapply prefix_lookup_Some).
  destruct th; simpl in *; try done; try lia.
  - destruct Hok as [? (sl & ? & ?)]. destruct (Hs pos sl) as (sl' & ? & ?); [done|].
    split; [lia|]. exists sl'. split; [done|lia].
  - destruct Hok as [? ?]. split; [by apply Ht|by apply Hl].
  - destruct Hok as [? ?]. split; [by apply Ht|by apply Hl].
  - destruct Hok as [? (sl & ? & ?)]. destruct (Hs pos sl) as (sl' & ? & ?); [done|].
    split; [lia|]. exists sl'. split; [done|lia].
  - by apply Ht.
  - destruct Hok as [? ?]. split; [by apply Ht|by apply Hl].
Qed.

Lemma turn_at_insert turns i p1 ph1 p :
  (i < length turns)%nat →
  turn_at (<[i:=(p1, ph1)]> turns) p =
    if decide (slot_index Capacity p = i) then Some (p1, ph1) else turn_at turns p.
Proof.
  intros Hi. unfold turn_at. case_decide as E.
  - rewrite E. by apply list_lookup_insert_eq.
  - apply list_lookup_insert_ne. congruence.
Qed.

Lemma popping_insert turns i p1 ph1 p :
  (i < length turns)%nat → slot_index Capacity p1 = i →
  popping (<[i:=(p1, ph1)]> turns) p ↔
    if decide (slot_index Capacity p = i) then p = p1 ∧ is_popping ph1 else popping turns p.
Proof.
  intros Hi Hp1. unfold popping. rewrite turn_at_insert by done. case_decide as E; [|done].
  split; [|intros [-> ?]; eauto]. by intros (ph & [= -> ->] & ?).
Qed.

(** A step of thread [t] that leaves the shared state alone. *)
Lemma inv_local q ths tr rt turns t th th' :
  inv_with {| queue := q; threads := ths; trace := tr; returned := rt |} turns →
  ths !! t = Some th → ticket_of th = None →
  thread_ok (pushed tr) (dequeue_pos_ q) q turns t th' →
  inv_with {| queue := q; threads := <[t:=th']> ths; trace := tr; returned := rt ++ [] |} turns.
Proof.
  intros [] Ht Hn Hok. simpl in *. rewrite app_nil_r. split; simpl; try done.
  - intros i p ph Hi. destruct (inv_slots0 i p ph Hi) as (? & ? & ?). split_and!; try done.
    eapply owner_ok_insert; [done|done|]. by rewrite Hn.
  - intros t' th2 H2. destruct (decide (t = t')) as [<-|].
    + rewrite list_lookup_insert_eq in H2 by by eapply lookup_lt_Some.
      by injection H2 as <-.
    + rewrite list_lookup_insert_ne in H2 by done. by apply inv_threads0.
Qed.

(** A step of thread [t] on the slot [i]: the general frame. *)
Lemma inv_update q ths tr rt turns t th th' q' tr' ret i p0 ph0 sl0 p1 ph1 sl1 :
  inv_with {| queue := q; threads := ths; trace := tr; returned := rt |} turns →
  ths !! t = Some th →
  turns !! i = Some (p0, ph0) → slots_ q !! i = Some sl0 →
  (owner ph0 = None ∨ owner ph0 = Some t) →
  (∀ p, ticket_of th = Some p → p = p0) →
  slots_ q' = <[i:=sl1]> (slots_ q) → sequence sl0 <= sequence sl1 →
  slot_index Capacity p1 = i →
  pushed tr `prefix_of` pushed tr' → dequeue_pos_ q <= dequeue_pos_ q' →
  enqueue_pos_ q' = Z.of_nat (length (pushed tr')) →
  dequeue_pos_ q' = Z.of_nat (length (popped tr')) →
  (∃ xs, fifo_run (Z.to_nat Capacity) tr' xs) →
  (∀ p ph sl, slot_index Capacity p ≠ i → turn_at turns p = Some (p, ph) →
     slot_ok (pushed tr) (dequeue_pos_ q) sl p ph →
     slot_ok (pushed tr') (dequeue_pos_ q') sl p ph) →
  slot_ok (pushed tr') (dequeue_pos_ q') sl1 p1 ph1 →
  owner_ok (<[t:=th']> ths) p1 ph1 →
  thread_ok (pushed tr') (dequeue_pos_ q') q' (<[i:=(p1, ph1)]> turns) t th' →
  returned_ok (pushed tr') (dequeue_pos_ q') (<[i:=(p1, ph1)]> turns) (rt ++ ret) →
  inv_with {| queue := q'; threads := <[t:=th']> ths; trace := tr'; returned := rt ++ ret |}
    (<[i:=(p1, ph1)]> turns).
Proof.
  intros [] Ht Hturn Hslot Hown Htick Hq' Hseq Hp1 Hpre HD HE' HD' Hrun Hoth Hnew Hownn Hthn Hret.
  simpl in *. assert (Hlt : (i < length turns)%nat) by by eapply lookup_lt_Some.
  assert (Hls : (i < length (slots_ q))%nat) by by eapply lookup_lt_Some.
  split; simpl; try done.
  - by rewrite Hq', length_insert.
  - by rewrite length_insert.
  - intros j p ph Hj. destruct (decide (i = j)) as [<-|Hij].
    + rewrite list_lookup_insert_eq in Hj by done. injection Hj as <- <-.
      split_and!; [done| |done]. exists sl1. rewrite Hq'.
      by rewrite list_lookup_insert_eq by done.
    + rewrite list_lookup_insert_ne in Hj by done.
      destruct (inv_slots0 j p ph Hj) as (Hjp & (sl & Hsl & Hok) & Ho).
      split_and!; [done| |].
      * exists sl. rewrite Hq', list_lookup_insert_ne by done. split; [done|].
        apply Hoth; [congruence|by unfold turn_at; rewrite <- Hjp|done].
      * eapply owner_ok_insert; [done|done|]. intros Hp%Htick. subst p.
        destruct (inv_slots0 i p0 ph0 Hturn) as [? _]. congruence.
  - intros t' th2 H2. destruct (decide (t = t')) as [<-|Htt].
    + rewrite list_lookup_insert_eq in H2 by by eapply lookup_lt_Some.
      by injection H2 as <-.
    + rewrite list_lookup_insert_ne in H2 by done.
      eapply thread_ok_mono; [by apply inv_threads0|done|done|..].
      * intros pos sl Hsl. unfold slot_at in *. rewrite Hq'.
        destruct (decide (i = slot_index Capacity pos)) as [E|].
        -- rewrite <- E in *. rewrite list_lookup_insert_eq by done. exists sl1. split; [done|].
           by simplify_eq.
        -- rewrite list_lookup_insert_ne by done. exists sl. split; [done|lia].
      * intros p ph Hp Ho. rewrite turn_at_insert by done. case_decide as E; [|done].
        unfold turn_at in Hp. rewrite E, Hturn in Hp. injection Hp as <- <-.
        destruct Hown; congruence.
Qed.
(** ** Counting facts *)

Lemma inv_counts s turns :
  inv_with s turns →
  0 <= dequeue_pos_ (queue s) <= enqueue_pos_ (queue s) ∧
  enqueue_pos_ (queue s) <= dequeue_pos_ (queue s) + Capacity.
Proof.
  intros Hinv. pose proof (capacity_pos (Capacity := Capacity)).
  pose proof (inv_enqueue _ _ Hinv). pose proof (inv_dequeue _ _ Hinv).
  destruct (inv_run _ _ Hinv) as [xs [Hx Hl]%fifo_run_contents].
  apply (f_equal length) in Hx. rewrite length_app in Hx. lia.
Qed.

Lemma slot_ok_bounds xs D sl p ph :
  slot_ok xs D sl p ph → 0 < Capacity → D <= Z.of_nat (length xs) →
  0 <= p ∧ p <= sequence sl <= p + 1 ∧ sequence sl <= Z.of_nat (length xs) + Capacity.
Proof. destruct ph; simpl; intros; lia. Qed.

(** Every position has a slot, and the slot a turn. *)
Lemma inv_turn s turns pos :
  inv_with s turns →
  ∃ p ph sl, turn_at turns pos = Some (p, ph) ∧ slot_at (queue s) pos = Some sl ∧
    slot_index Capacity p = slot_index Capacity pos ∧
    slot_ok (pushed (trace s)) (dequeue_pos_ (queue s)) sl p ph ∧ owner_ok (threads s) p ph.
Proof.
  intros []. pose proof (slot_index_lt Capacity pos) as Hlt.
  destruct (lookup_lt_is_Some_2 turns (slot_index Capacity pos)) as [[p ph] Hp]; [lia|].
  destruct (inv_slots0 _ _ _ Hp) as (Hi & (sl & Hsl & Hok) & Ho).
  exists p, ph, sl. by split_and!.
Qed.

Lemma signed_diff_exact a b :
  0 <= a < 2 ^ 63 → 0 <= b < 2 ^ 63 → signed_diff a b = a - b.
Proof. intros. unfold signed_diff. by rewrite !s64_id. Qed.

(** The turn that a thread in possession of a ticket refers to. *)
Lemma inv_owned s turns p ph :
  inv_with s turns → turn_at turns p = Some (p, ph) →
  ∃ sl, slot_at (queue s) p = Some sl ∧
    slot_ok (pushed (trace s)) (dequeue_pos_ (queue s)) sl p ph.
Proof.
  intros Hinv Hp. destruct (inv_turn s turns p Hinv) as (p' & ph' & sl & Ht & Hs & _ & Hok & _).
  rewrite Hp in Ht. injection Ht as <- <-. by exists sl.
Qed.

(** ** The claiming steps *)

Hypothesis capacity_ge_2 : 2 <= Capacity.

(** A thread that saw the sequence it waited for, and finds the position
    unchanged, finds the slot free. *)
Lemma push_slot_free s turns p ph sl pos :
  inv_with s turns → slot_ok (pushed (trace s)) (dequeue_pos_ (queue s)) sl p ph →
  slot_index Capacity p = slot_index Capacity pos → pos <= sequence sl →
  enqueue_pos_ (queue s) = pos → ph = Free ∧ p = pos.
Proof.
  intros Hinv Hok Hi%slot_index_apart Hs He; [|done].
  pose proof (inv_counts s turns Hinv). pose proof (inv_enqueue _ _ Hinv).
  destruct ph; simpl in Hok; (split; [try done; exfalso|]; lia).
Qed.

Lemma pop_slot_ready s turns p ph sl pos :
  inv_with s turns → slot_ok (pushed (trace s)) (dequeue_pos_ (queue s)) sl p ph →
  slot_index Capacity p = slot_index Capacity pos → pos + 1 <= sequence sl →
  dequeue_pos_ (queue s) = pos → ph = Ready ∧ p = pos.
Proof.
  intros Hinv Hok Hi%slot_index_apart Hs He; [|done].
  pose proof (inv_counts s turns Hinv). pose proof (inv_enqueue _ _ Hinv).
  destruct ph; simpl in Hok; (split; [try done; exfalso|]; lia).
Qed.

Lemma slot_at_insert q i sl p :
  (i < length (slots_ q))%nat →
  <[i:=sl]> (slots_ q) !! slot_index Capacity p =
    if decide (slot_index Capacity p = i) then Some sl else slot_at q p.
Proof.
  intros Hi. case_decide as E; [rewrite E; by apply list_lookup_insert_eq|].
  apply list_lookup_insert_ne. congruence.
Qed.

(** Inserting a stage that pops nothing where nothing is popped. *)
Lemma returned_ok_insert xs xs' D turns rt i p0 ph0 p1 ph1 :
  returned_ok xs D turns rt → xs `prefix_of` xs' →
  turns !! i = Some (p0, ph0) → i = slot_index Capacity p0 → slot_index Capacity p1 = i →
  (is_popping ph0 ↔ is_popping ph1) → (is_popping ph0 → p0 = p1) →
  returned_ok xs' D (<[i:=(p1, ph1)]> turns) rt.
Proof.
  intros (Hnd & Hin & Hall) Hpre Hi Hi0 Hi1 Hpop Heq.
  assert (Hlt : (i < length turns)%nat) by by eapply lookup_lt_Some.
  assert (Hiff : ∀ p, popping (<[i:=(p1, ph1)]> turns) p ↔ popping turns p).
  { intros p. rewrite popping_insert by done. case_decide as E; [|done].
    unfold popping, turn_at. rewrite E, Hi. split.
    - intros [-> Hp]. exists ph0. rewrite <- Hpop in Hp. by rewrite Heq.
    - intros (ph & [= -> ->] & Hp). split; [by rewrite Heq|by rewrite <- Hpop]. }
  split_and!; [done| |].
  - intros p x Hx. destruct (Hin p x Hx) as (? & Hl & ?). split_and!; [lia|lia| |by rewrite Hiff].
    by eapply prefix_lookup_Some.
  - intros p Hp. rewrite Hiff. by apply Hall.
Qed.

Lemma not_popping ph : owner ph = None → ¬ is_popping ph.
Proof. intros Ho (t & [-> | ->]); done. Qed.

Lemma inv_push_cas q ths tr rt turns t x pos :
  inv_with {| queue := q; threads := ths; trace := tr; returned := rt |} turns →
  ths !! t = Some (PushCas x pos) → enqueue_pos_ q = pos →
  Z.of_nat (length (pushed (tr ++ [EvPush x]))) + Capacity < 2 ^ 63 →
  ∃ turns', inv_with
    {| queue := {| slots_ := slots_ q; enqueue_pos_ := pos +w 1; dequeue_pos_ := dequeue_pos_ q |};
       threads := <[t:=PushConstruct x pos]> ths; trace := tr ++ [EvPush x];
       returned := rt ++ [] |} turns'.
Proof.
  intros Hinv Ht He Hb.
  destruct (inv_threads _ _ Hinv t _ Ht) as [Hpos (sl & Hsl & Hseq)]. simpl in *.
  destruct (inv_turn _ _ pos Hinv) as (p & ph & sl' & Hturn & Hsl' & Hi & Hok & Hown).
  simpl in *. rewrite Hsl in Hsl'. injection Hsl' as <-.
  destruct (push_slot_free _ _ p ph sl pos Hinv Hok Hi Hseq He) as [-> ->].
  pose proof (inv_counts _ _ Hinv) as Hc. simpl in Hc.
  pose proof (inv_enqueue _ _ Hinv) as HE. simpl in HE.
  pose proof (pushed_push tr x) as Hpl. rewrite Hpl, length_app in Hb. simpl in Hb.
  pose proof (popped_push tr x) as Hpp.
  assert (Hlk : pushed (tr ++ [EvPush x]) !! Z.to_nat pos = Some x).
  { rewrite Hpl, <- He, HE, Nat2Z.id. by apply list_lookup_middle. }
  eexists. eapply (inv_update q ths tr rt turns t (PushCas x pos) _ _ _ _
    (slot_index Capacity pos) pos Free sl pos (Writing t) sl); try done; simpl.
  - by left.
  - symmetry. by apply list_insert_id.
  - rewrite Hpl. by apply prefix_app_r.
  - rewrite Hpl, length_app, u64_small; simpl; lia.
  - rewrite Hpp. apply Hinv.
  - destruct (inv_run _ _ Hinv) as [xs Hrun]. simpl in Hrun. exists (xs ++ [x]).
    eapply run_snoc; [done|]. constructor.
    destruct (fifo_run_contents _ _ _ Hrun) as [Hx _].
    apply (f_equal length) in Hx. rewrite length_app in Hx.
    pose proof (inv_dequeue _ _ Hinv) as HD. simpl in HD. simpl in Hok. lia.
  - intros p ph sl2 Hne Hp Hok2. rewrite Hpl.
    destruct ph; simpl in Hok2 |- *; rewrite length_app; simpl;
      rewrite ?lookup_app_l by lia; split_and!; try apply Hok2; try lia.
    + assert (p ≠ pos) by congruence. lia.
    + destruct (Z.eq_dec (Z.of_nat (length (pushed tr))) (p + Capacity)); [|lia].
      exfalso. apply Hne. rewrite <- (slot_index_add_cap Capacity p). f_equal. lia.
    + destruct (Z.eq_dec (Z.of_nat (length (pushed tr))) (p + Capacity)); [|lia].
      exfalso. apply Hne. rewrite <- (slot_index_add_cap Capacity p). f_equal. lia.
  - simpl in Hok. rewrite Hpl, length_app. simpl. split_and!; try apply Hok; lia.
  - exists x. apply list_lookup_insert_eq. by eapply lookup_lt_Some.
  - split; [|done]. rewrite turn_at_insert by (by eapply lookup_lt_Some).
    by rewrite decide_True.
  - rewrite app_nil_r, Hpl. eapply returned_ok_insert; [apply Hinv| |done|done|done|..].
    + by apply prefix_app_r.
    + split; intros (t' & [|]); done.
    + intros (t' & [|]); done.
Qed.
(** The returned tickets when the slot [i] starts serving the pop of ticket [D]. *)
Lemma returned_ok_claim xs D turns rt i ph0 t :
  returned_ok xs D turns rt → 0 <= D →
  turns !! i = Some (D, ph0) → i = slot_index Capacity D → ¬ is_popping ph0 →
  returned_ok xs (D + 1) (<[i:=(D, Taking t)]> turns) rt.
Proof.
  intros (Hnd & Hin & Hall) HD Hi Hi0 Hph.
  assert (Hlt : (i < length turns)%nat) by by eapply lookup_lt_Some.
  split_and!; [done| |].
  - intros p x Hx. destruct (Hin p x Hx) as (? & Hl & Hnp). split_and!; [lia|lia|done|].
    rewrite popping_insert by done. case_decide; [lia|done].
  - intros p Hp. rewrite popping_insert by done. destruct (Z.eq_dec p D) as [->|].
    + right. rewrite decide_True by done. split; [done|]. exists t. by left.
    + destruct (Hall p) as [|Hpop]; [lia|by left|]. right. case_decide as E; [|done].
      destruct Hpop as (ph & Hturn & Hpop). unfold turn_at in Hturn.
      rewrite E, Hi in Hturn. by injection Hturn as -> ->.
Qed.

Lemma inv_pop_cas q ths tr rt turns t pos :
  inv_with {| queue := q; threads := ths; trace := tr; returned := rt |} turns →
  ths !! t = Some (PopCas pos) → dequeue_pos_ q = pos →
  Z.of_nat (length (pushed tr)) + Capacity < 2 ^ 63 →
  ∃ turns', inv_with
    {| queue := {| slots_ := slots_ q; enqueue_pos_ := enqueue_pos_ q; dequeue_pos_ := pos +w 1 |};
       threads := <[t:=PopTake pos]> ths;
       trace := tr ++ from_option (λ x, [EvPop x]) [] (pushed_at tr pos);
       returned := rt ++ [] |} turns'.
Proof.
  intros Hinv Ht He Hb.
  destruct (inv_threads _ _ Hinv t _ Ht) as [Hpos (sl & Hsl & Hseq)]. simpl in *.
  destruct (inv_turn _ _ pos Hinv) as (p & ph & sl' & Hturn & Hsl' & Hi & Hok & Hown).
  simpl in *. rewrite Hsl in Hsl'. injection Hsl' as <-.
  destruct (pop_slot_ready _ _ p ph sl pos Hinv Hok Hi Hseq He) as [-> ->].
  pose proof (inv_counts _ _ Hinv) as Hc. simpl in Hc.
  pose proof (inv_dequeue _ _ Hinv) as HD. simpl in HD.
  pose proof (inv_enqueue _ _ Hinv) as HE. simpl in HE. simpl in Hok.
  destruct (lookup_lt_is_Some_2 (pushed tr) (Z.to_nat pos)) as [x Hx]; [lia|].
  unfold pushed_at. rewrite Hx. simpl.
  pose proof (pushed_pop tr x) as Hpl. pose proof (popped_pop tr x) as Hpp.
  eexists. eapply (inv_update q ths tr rt turns t (PopCas pos) _ _ _ _
    (slot_index Capacity pos) pos Ready sl pos (Taking t) sl); try done; simpl.
  - by left.
  - symmetry. by apply list_insert_id.
  - by rewrite Hpl.
  - rewrite u64_small; lia.
  - by rewrite Hpl.
  - rewrite Hpp, length_app, u64_small; simpl; lia.
  - destruct (inv_run _ _ Hinv) as [xs Hrun]. simpl in Hrun.
    destruct (fifo_run_contents _ _ _ Hrun) as [Hxs Hlen].
    destruct xs as [|y xs].
    { rewrite app_nil_r in Hxs. rewrite Hxs in *. lia. }
    assert (y = x) as ->.
    { rewrite Hxs in Hx. rewrite <- He, HD, Nat2Z.id in Hx.
      rewrite list_lookup_middle in Hx by done. by injection Hx. }
    exists xs. eapply run_snoc; [done|constructor].
  - intros p ph sl2 Hne Hp Hok2. rewrite Hpl, u64_small by lia.
    destruct ph; simpl in Hok2 |- *; split_and!; try apply Hok2; try lia.
    all: assert (p ≠ pos) by congruence; lia.
  - rewrite Hpl, u64_small by lia. simpl. split_and!; try apply Hok; lia.
  - apply list_lookup_insert_eq. by eapply lookup_lt_Some.
  - rewrite turn_at_insert by (by eapply lookup_lt_Some). by rewrite decide_True.
  - rewrite app_nil_r, Hpl, u64_small by lia. eapply returned_ok_claim; try done; [|lia|].
    + rewrite <- He. apply Hinv.
    + by apply not_popping.
Qed.

(** ** The steps inside a slot *)

(** A step of the owner of a slot that leaves counters and history alone. *)
Lemma inv_slot_step q ths tr rt turns t th p ph sl th' p1 ph1 sl1 ret :
  inv_with {| queue := q; threads := ths; trace := tr; returned := rt |} turns →
  ths !! t = Some th → ticket_of th = Some p → turn_at turns p = Some (p, ph) →
  owner ph = Some t → slot_at q p = Some sl → sequence sl <= sequence sl1 →
  slot_index Capacity p1 = slot_index Capacity p →
  slot_ok (pushed tr) (dequeue_pos_ q) sl1 p1 ph1 →
  owner_ok (<[t:=th']> ths) p1 ph1 →
  thread_ok (pushed tr) (dequeue_pos_ q) (set_slot q p sl1)
    (<[slot_index Capacity p:=(p1, ph1)]> turns) t th' →
  returned_ok (pushed tr) (dequeue_pos_ q) (<[slot_index Capacity p:=(p1, ph1)]> turns)
    (rt ++ ret) →
  inv_with {| queue := set_slot q p sl1; threads := <[t:=th']> ths; trace := tr;
              returned := rt ++ ret |} (<[slot_index Capacity p:=(p1, ph1)]> turns).
Proof.
  intros Hinv Ht Htk Hturn Ho Hsl Hseq Hi Hok Hown Hth Hret.
  eapply (inv_update q ths tr rt turns t th _ _ _ _ (slot_index Capacity p) p ph sl);
    try done; simpl; try apply Hinv; first [by right|congruence|lia].
Qed.

Lemma turn_insert_same turns p p1 ph1 old :
  turn_at turns p = Some old → slot_index Capacity p1 = slot_index Capacity p →
  turn_at (<[slot_index Capacity p:=(p1, ph1)]> turns) p1 = Some (p1, ph1).
Proof.
  intros Hp Hi. rewrite turn_at_insert by (by eapply lookup_lt_Some).
  by rewrite decide_True.
Qed.

Lemma inv_push_construct q ths tr rt turns t x p sl :
  inv_with {| queue := q; threads := ths; trace := tr; returned := rt |} turns →
  ths !! t = Some (PushConstruct x p) → slot_at q p = Some sl →
  ∃ turns', inv_with
    {| queue := set_slot q p {| sequence := sequence sl; storage := Some x |};
       threads := <[t:=PushPublish x p]> ths; trace := tr; returned := rt ++ [] |} turns'.
Proof.
  intros Hinv Ht Hsl. destruct (inv_threads _ _ Hinv t _ Ht) as [Hturn Hx]. simpl in *.
  destruct (inv_owned _ _ p _ Hinv Hturn) as (sl' & Hsl' & Hok). simpl in *.
  rewrite Hsl in Hsl'. injection Hsl' as <-.
  eexists. eapply (inv_slot_step _ _ _ _ _ t _ p _ sl _ p (Written t)); try done; simpl.
  - rewrite Hx. split_and!; try apply Hok; done.
  - exists x. apply list_lookup_insert_eq. by eapply lookup_lt_Some.
  - split; [by eapply turn_insert_same|done].
  - rewrite app_nil_r. eapply returned_ok_insert; [apply Hinv|done|exact Hturn|done|done|..].
    + split; intros (t' & [|]); done.
    + intros (t' & [|]); done.
Qed.

Lemma inv_push_publish q ths tr rt turns t x p sl :
  inv_with {| queue := q; threads := ths; trace := tr; returned := rt |} turns →
  Z.of_nat (length (pushed tr)) + Capacity < 2 ^ 63 →
  ths !! t = Some (PushPublish x p) → slot_at q p = Some sl →
  ∃ turns', inv_with
    {| queue := set_slot q p {| sequence := p +w 1; storage := storage sl |};
       threads := <[t:=Idle]> ths; trace := tr; returned := rt ++ [] |} turns'.
Proof.
  intros Hinv Hb Ht Hsl. destruct (inv_threads _ _ Hinv t _ Ht) as [Hturn Hx]. simpl in *.
  destruct (inv_owned _ _ p _ Hinv Hturn) as (sl' & Hsl' & Hok). simpl in *.
  rewrite Hsl in Hsl'. injection Hsl' as <-.
  eexists. eapply (inv_slot_step _ _ _ _ _ t _ p _ sl _ p Ready); try done; simpl;
    rewrite ?(u64_small (p + 1)) by lia.
  - lia.
  - split_and!; try apply Hok; lia.
  - rewrite app_nil_r. eapply returned_ok_insert; [apply Hinv|done|exact Hturn|done|done|..].
    + split; intros (t' & [|]); done.
    + intros (t' & [|]); done.
Qed.

Lemma inv_pop_take q ths tr rt turns t x p sl :
  inv_with {| queue := q; threads := ths; trace := tr; returned := rt |} turns →
  ths !! t = Some (PopTake p) → slot_at q p = Some sl → storage sl = Some x →
  ∃ turns', inv_with
    {| queue := set_slot q p {| sequence := sequence sl; storage := None |};
       threads := <[t:=PopPublish p x]> ths; trace := tr; returned := rt ++ [] |} turns'.
Proof.
  intros Hinv Ht Hsl Hst. pose proof (inv_threads _ _ Hinv t _ Ht) as Hturn. simpl in *.
  destruct (inv_owned _ _ p _ Hinv Hturn) as (sl' & Hsl' & Hok). simpl in *.
  rewrite Hsl in Hsl'. injection Hsl' as <-. rewrite Hst in Hok.
  eexists. eapply (inv_slot_step _ _ _ _ _ t _ p _ sl _ p (Taken t)); try done; simpl.
  - split_and!; try apply Hok; done.
  - exists x. apply list_lookup_insert_eq. by eapply lookup_lt_Some.
  - split; [by eapply turn_insert_same|]. by destruct Hok as (_ & ? & _).
  - rewrite app_nil_r. eapply returned_ok_insert; [apply Hinv|done|exact Hturn|done|done|..].
    + split; intros _; exists t; [by right|by left].
    + done.
Qed.

(** The returned tickets when the pop of ticket [p] returns. *)
Lemma returned_ok_return xs D turns rt p x t p1 :
  returned_ok xs D turns rt → turn_at turns p = Some (p, Taken t) →
  0 <= p < D → xs !! Z.to_nat p = Some x →
  slot_index Capacity p1 = slot_index Capacity p →
  returned_ok xs D (<[slot_index Capacity p:=(p1, Free)]> turns) (rt ++ [(p, x)]).
Proof.
  intros (Hnd & Hin & Hall) Hturn Hp Hx Hi.
  assert (Hlt : (slot_index Capacity p < length turns)%nat) by by eapply lookup_lt_Some.
  assert (Hpop : popping turns p) by (exists (Taken t); split; [done|exists t; by right]).
  assert (Hiff : ∀ p', popping (<[slot_index Capacity p:=(p1, Free)]> turns) p' →
    popping turns p' ∧ p' ≠ p).
  { intros p'. rewrite popping_insert by done. case_decide as E.
    - intros [_ (? & [|])]; done.
    - intros ?. split; [done|]. by intros ->. }
  assert (Hiff2 : ∀ p', popping turns p' → p' ≠ p →
    popping (<[slot_index Capacity p:=(p1, Free)]> turns) p').
  { intros p' Hp' Hne. rewrite popping_insert by done. case_decide as E; [|done].
    destruct Hp' as (ph & Hph & _). unfold turn_at in *. rewrite E in Hph. congruence. }
  unfold returned_ok. rewrite fmap_app. split_and!.
  - apply NoDup_app. split; [done|]. split; [|apply NoDup_singleton].
    intros p' Hp'. simpl. rewrite list_elem_of_singleton. intros ->.
    apply list_elem_of_fmap in Hp' as ([p' x'] & -> & Hp').
    by apply (Hin _ _ Hp').
  - intros p' x' [Hp'|Hp']%elem_of_app.
    + destruct (Hin _ _ Hp') as (? & ? & Hn). split_and!; [lia|lia|done|].
      by intros [? _]%Hiff.
    + apply list_elem_of_singleton in Hp'. injection Hp' as -> ->.
      split_and!; [lia|lia|done|]. by intros [_ ?]%Hiff.
  - intros p' Hp'. destruct (Z.eq_dec p' p) as [->|Hne].
    + left. apply elem_of_app. right. simpl. by apply list_elem_of_singleton.
    + destruct (Hall p' Hp') as [?|?]; [left; apply elem_of_app; by left|].
      right. by apply Hiff2.
Qed.

Lemma inv_pop_publish q ths tr rt turns t x p sl :
  inv_with {| queue := q; threads := ths; trace := tr; returned := rt |} turns →
  Z.of_nat (length (pushed tr)) + Capacity < 2 ^ 63 →
  ths !! t = Some (PopPublish p x) → slot_at q p = Some sl →
  ∃ turns', inv_with
    {| queue := set_slot q p {| sequence := p +w MASK Capacity +w 1; storage := storage sl |};
       threads := <[t:=Idle]> ths; trace := tr; returned := rt ++ [(p, x)] |} turns'.
Proof.
  intros Hinv Hb Ht Hsl. destruct (inv_threads _ _ Hinv t _ Ht) as [Hturn Hx]. simpl in *.
  destruct (inv_owned _ _ p _ Hinv Hturn) as (sl' & Hsl' & Hok). simpl in *.
  rewrite Hsl in Hsl'. injection Hsl' as <-.
  pose proof (inv_counts _ _ Hinv) as Hc. pose proof (inv_enqueue _ _ Hinv) as HE.
  simpl in Hc, HE.
  assert (Hnew : p +w MASK Capacity +w 1 = p + Capacity).
  { unfold MASK. rewrite (u64_small (Capacity - 1)) by lia.
    rewrite (u64_small (p + _)), u64_small by lia. lia. }
  assert (Hi : slot_index Capacity (p + Capacity) = slot_index Capacity p)
    by apply slot_index_add_cap, _.
  rewrite Hnew. eexists.
  eapply (inv_slot_step _ _ _ _ _ t _ p _ sl _ (p + Capacity) Free); try done; simpl.
  - lia.
  - split_and!; try apply Hok; lia.
  - eapply returned_ok_return; [apply Hinv|done|lia|done|done].
Qed.

(** ** Every step preserves the invariant *)

Lemma mpmc_inv_initial s : initial s → inv s.
Proof.
  intros (Hq & Hth & Htr & Hrt). pose proof (capacity_pos (Capacity := Capacity)).
  exists ((λ i, (Z.of_nat i, Free)) <$> seq 0 (Z.to_nat Capacity)).
  split; rewrite ?Hq, ?Htr, ?Hrt; simpl; rewrite ?length_fmap, ?length_seq; try done.
  - by exists []; constructor.
  - intros i p ph (j & Hj & [-> Hl]%lookup_seq)%list_lookup_fmap_Some.
    simpl in *. injection Hj as -> ->. split_and!; [| |done].
    + rewrite slot_index_mod by done. rewrite Z.mod_small by lia. lia.
    + exists {| sequence := Z.of_nat i; storage := None |}. split; [|simpl; split_and!; done || lia].
      by rewrite list_lookup_fmap, lookup_seq_lt by lia.
  - intros t th Ht. by rewrite (Hth t th Ht).
  - split_and!; [constructor|by intros p x ?%elem_of_nil|lia].
Qed.

(** The signed difference a thread computes is the exact one. *)
Lemma inv_diff s turns pos sl d :
  inv_with s turns → slot_at (queue s) pos = Some sl → 0 <= pos + d < 2 ^ 63 →
  Z.of_nat (length (pushed (trace s))) + Capacity < 2 ^ 63 →
  signed_diff (sequence sl) (pos + d) = sequence sl - (pos + d).
Proof.
  intros Hinv Hsl Hp Hb. pose proof (capacity_pos (Capacity := Capacity)).
  pose proof (inv_counts _ _ Hinv). pose proof (inv_enqueue _ _ Hinv).
  destruct (inv_turn _ _ pos Hinv) as (p & ph & sl' & _ & Hsl' & _ & Hok & _).
  rewrite Hsl in Hsl'. injection Hsl' as <-.
  apply slot_ok_bounds in Hok; [|lia|lia]. apply signed_diff_exact; lia.
Qed.

Lemma inv_thread_step q ths tr rt turns t th th' q' tr' ret :
  inv_with {| queue := q; threads := ths; trace := tr; returned := rt |} turns →
  ths !! t = Some th → thread_step th q tr th' q' tr' ret →
  Z.of_nat (length (pushed tr')) + Capacity < 2 ^ 63 →
  inv {| queue := q'; threads := <[t := th']> ths; trace := tr'; returned := rt ++ ret |}.
Proof.
  intros Hinv Ht Hs Hb. pose proof (inv_threads _ _ Hinv t _ Ht) as Hok.
  pose proof (inv_counts _ _ Hinv) as Hc. pose proof (inv_enqueue _ _ Hinv) as HE.
  simpl in *.
  destruct Hs as
    [q tr x|q tr x pos sl Hsl Hd|q tr x pos sl Hsl Hd|q tr x pos sl Hsl Hd|q tr x|q tr x pos
    |q tr x pos He|q tr x pos sl Hsl|q tr x pos sl Hsl
    |q tr|q tr pos sl Hsl Hd|q tr pos sl Hsl Hd|q tr pos sl Hsl Hd|q tr|q tr pos
    |q tr pos He|q tr pos sl x Hsl Hst|q tr pos sl x Hsl]; simpl in *;
    try by (exists turns; eapply inv_local; [done|done|done|simpl; lia || done]).
  - exists turns; eapply inv_local; [done|done|done|]. split; [lia|]. exists sl. split; [done|].
    pose proof (inv_diff _ _ pos sl 0 Hinv Hsl) as Hx. simpl in Hx. rewrite Z.add_0_r in Hx. lia.
  - by eapply inv_push_cas.
  - by eapply inv_push_construct.
  - by eapply inv_push_publish.
  - exists turns; eapply inv_local; [done|done|done|]. split; [lia|]. exists sl. split; [done|].
    rewrite u64_small in Hd by lia.
    pose proof (inv_diff _ _ pos sl 1 Hinv Hsl) as Hx. simpl in Hx. lia.
  - eapply inv_pop_cas; [done|done|done|]. rewrite pushed_app, length_app in Hb. lia.
  - by eapply inv_pop_take.
  - by eapply inv_pop_publish.
Qed.

Definition pushes (s : state) : Z := Z.of_nat (length (pushed (trace s))).

Lemma pushes_step s s' : step s s' → pushes s <= pushes s'.
Proof.
  destruct 1 as [t th q ths tr rt th' q' tr' ret _ Hs]. unfold pushes; simpl.
  assert (∃ l, tr' = tr ++ l) as [l ->].
  { destruct Hs; first [by eexists|exists []; by rewrite app_nil_r]. }
  rewrite pushed_app, length_app. lia.
Qed.

Lemma mpmc_reachable_inv s :
  reachable initial step s → pushes s + Capacity < 2 ^ 63 → inv s.
Proof.
  intros Hr Hb. revert s Hr Hb.
  assert (∀ s, reachable initial step s → pushes s <= 2 ^ 63 - Capacity - 1 → inv s) as H.
  { apply reachable_ind_bounded; [apply mpmc_inv_initial|apply pushes_step|].
    intros s s' [turns Hi] Hs Hb. destruct Hs as [t th q ths tr rt th' q' tr' ret Ht Hs].
    unfold pushes in Hb. simpl in Hb. eapply inv_thread_step; [done|done|done|lia]. }
  intros s Hr Hb. apply H; [done|lia].
Qed.

(** ** What the answers mean *)

(** The pop of ticket [p] has claimed it and has not finished. *)
Definition popping_thread (s : state) (p : Z) : Prop :=
  ∃ t, threads s !! t = Some (PopTake p) ∨ ∃ x, threads s !! t = Some (PopPublish p x).

(** The push of ticket [p] has claimed it and has not finished. *)
Definition pushing_thread (s : state) (p : Z) : Prop :=
  ∃ t x, threads s !! t = Some (PushConstruct x p) ∨ threads s !! t = Some (PushPublish x p).

Lemma refused_push s turns pos sl :
  inv_with s turns → 0 <= pos <= enqueue_pos_ (queue s) →
  slot_at (queue s) pos = Some sl → sequence sl < pos →
  pos = enqueue_pos_ (queue s) ∧
  (enqueue_pos_ (queue s) = dequeue_pos_ (queue s) + Capacity ∨
   popping_thread s (enqueue_pos_ (queue s) - Capacity)).
Proof.
  intros Hinv Hpos Hsl Hseq. pose proof (inv_counts _ _ Hinv).
  pose proof (inv_enqueue _ _ Hinv) as HE.
  destruct (inv_turn _ _ pos Hinv) as (p & ph & sl' & _ & Hsl' & Hi & Hok & Hown).
  rewrite Hsl in Hsl'. injection Hsl' as <-.
  apply slot_index_apart in Hi; [|done].
  destruct ph as [|t|t| |t|t]; simpl in Hok; try (split; [lia|left; lia]); try lia.
  - assert (p = enqueue_pos_ (queue s) - Capacity) as -> by lia.
    split; [lia|right]. exists t. by left.
  - assert (p = enqueue_pos_ (queue s) - Capacity) as -> by lia.
    split; [lia|right]. exists t. right. by destruct Hown as [x ?]; exists x.
Qed.

Lemma missed_pop s turns pos sl :
  inv_with s turns → 0 <= pos <= dequeue_pos_ (queue s) →
  slot_at (queue s) pos = Some sl → sequence sl < pos + 1 →
  pos = dequeue_pos_ (queue s) ∧
  (enqueue_pos_ (queue s) = dequeue_pos_ (queue s) ∨
   pushing_thread s (dequeue_pos_ (queue s))).
Proof.
  intros Hinv Hpos Hsl Hseq. pose proof (inv_counts _ _ Hinv).
  pose proof (inv_enqueue _ _ Hinv) as HE.
  destruct (inv_turn _ _ pos Hinv) as (p & ph & sl' & _ & Hsl' & Hi & Hok & Hown).
  rewrite Hsl in Hsl'. injection Hsl' as <-.
  apply slot_index_apart in Hi; [|done].
  destruct ph as [|t|t| |t|t]; simpl in Hok; try (split; [lia|left; lia]); try lia.
  - assert (p = dequeue_pos_ (queue s)) as -> by lia.
    split; [lia|right]. destruct Hown as [x ?]. exists t, x. by left.
  - assert (p = dequeue_pos_ (queue s)) as -> by lia.
    split; [lia|right]. destruct Hown as [x ?]. exists t, x. by right.
Qed.

(** A thread inside a call can always take its next step. *)
Lemma thread_enabled s turns t th :
  inv_with s turns → threads s !! t = Some th → ∃ s', step s s'.
Proof.
  intros Hinv Ht. destruct s as [q ths tr rt]. simpl in *.
  assert (Hgo : (∃ th' q' tr' ret, thread_step th q tr th' q' tr' ret) → ∃ s',
    step {| queue := q; threads := ths; trace := tr; returned := rt |} s').
  { intros (? & ? & ? & ? & Hs). eexists. by eapply step_thread. }
  apply Hgo. clear Hgo.
  assert (Hslot : ∀ pos, ∃ sl, slot_at q pos = Some sl).
  { intros pos. destruct (inv_turn _ _ pos Hinv) as (? & ? & sl & _ & ? & _). by exists sl. }
  pose proof (inv_threads _ _ Hinv t th Ht) as Hok. simpl in Hok.
  destruct th as [|x pos|x pos|x|x pos|x pos|pos|pos| |pos|pos x].
  - do 4 eexists. apply pop_begin.
  - destruct (Hslot pos) as [sl Hsl].
    destruct (Z.lt_trichotomy (signed_diff (sequence sl) pos) 0) as [|[|]]; do 4 eexists;
      [by eapply push_full|by eapply push_ready|by eapply push_lost].
  - do 4 eexists. apply push_cas_fail.
  - do 4 eexists. apply push_reload.
  - destruct (Hslot pos) as [sl Hsl]. do 4 eexists. by eapply push_construct.
  - destruct (Hslot pos) as [sl Hsl]. do 4 eexists. by eapply push_publish.
  - destruct (Hslot pos) as [sl Hsl].
    destruct (Z.lt_trichotomy (signed_diff (sequence sl) (pos +w 1)) 0) as [|[|]];
      do 4 eexists; [by eapply pop_empty|by eapply pop_ready|by eapply pop_lost].
  - do 4 eexists. apply pop_cas_fail.
  - do 4 eexists. apply pop_reload.
  - destruct (inv_owned _ _ pos _ Hinv Hok) as (sl & Hsl & Hs). simpl in Hs.
    destruct Hs as (_ & Hst & Hp & _). simpl in *. pose proof (inv_counts _ _ Hinv).
    pose proof (inv_enqueue _ _ Hinv). simpl in *.
    destruct (lookup_lt_is_Some_2 (pushed tr) (Z.to_nat pos)) as [x Hx]; [lia|].
    do 4 eexists. eapply pop_take; [done|]. by rewrite Hst.
  - destruct (Hslot pos) as [sl Hsl]. do 4 eexists. by eapply pop_publish.
Qed.

(** The slot a thread holds a ticket for, and what it finds there. *)
Lemma ticket_turn s turns t th p :
  inv_with s turns → threads s !! t = Some th → ticket_of th = Some p →
  ∃ ph, turn_at turns p = Some (p, ph) ∧ owner ph = Some t.
Proof.
  intros Hinv Ht Hp. pose proof (inv_threads _ _ Hinv t th Ht) as Hok.
  destruct th; simpl in *; try done; injection Hp as ->;
    solve [by eexists|by destruct Hok; eexists].
Qed.

Lemma tickets_apart s turns t1 t2 th1 th2 p1 p2 :
  inv_with s turns → threads s !! t1 = Some th1 → threads s !! t2 = Some th2 →
  ticket_of th1 = Some p1 → ticket_of th2 = Some p2 →
  slot_index Capacity p1 = slot_index Capacity p2 → t1 = t2.
Proof.
  intros Hinv H1 H2 Hp1 Hp2 Hi.
  destruct (ticket_turn _ _ _ _ _ Hinv H1 Hp1) as (ph1 & Ht1 & Ho1).
  destruct (ticket_turn _ _ _ _ _ Hinv H2 Hp2) as (ph2 & Ht2 & Ho2).
  unfold turn_at in *. rewrite Hi, Ht2 in Ht1. injection Ht1 as -> ->. congruence.
Qed.

(** ** The methods without interference

    The bodies as functions on the queue object, for a caller that runs alone.
    [None] is undefined behaviour or an exhausted retry loop. *)

Fixpoint emplace_loop (fuel : nat) (q : mpmc_queue) (item : T) (pos : Z) :
    option (mpmc_queue * bool) :=
  match fuel, slot_at q pos with
  | S fuel, Some sl =>
      let diff := signed_diff (sequence sl) pos in
      if diff =? 0 then
        if enqueue_pos_ q =? pos then
          Some (set_slot {| slots_ := slots_ q; enqueue_pos_ := pos +w 1;
                            dequeue_pos_ := dequeue_pos_ q |} pos
                  {| sequence := pos +w 1; storage := Some item |}, true)
        else emplace_loop fuel q item (enqueue_pos_ q)
      else if diff <? 0 then Some (q, false)
      else emplace_loop fuel q item (enqueue_pos_ q)
  | _, _ => None
  end.

Definition emplace (q : mpmc_queue) (item : T) : option (mpmc_queue * bool) :=
  emplace_loop 2 q item (enqueue_pos_ q).

Fixpoint try_pop_loop (fuel : nat) (q : mpmc_queue) (pos : Z) :
    option (mpmc_queue * option T) :=
  match fuel, slot_at q pos with
  | S fuel, Some sl =>
      let diff := signed_diff (sequence sl) (pos +w 1) in
      if diff =? 0 then
        if dequeue_pos_ q =? pos then
          match storage sl with
          | Some item =>
              Some (set_slot {| slots_ := slots_ q; enqueue_pos_ := enqueue_pos_ q;
                                dequeue_pos_ := pos +w 1 |} pos
                      {| sequence := pos +w MASK Capacity +w 1; storage := None |}, Some item)
          | None => None
          end
        else try_pop_loop fuel q (dequeue_pos_ q)
      else if diff <? 0 then Some (q, None)
      else try_pop_loop fuel q (dequeue_pos_ q)
  | _, _ => None
  end.

Definition try_pop (q : mpmc_queue) : option (mpmc_queue * option T) :=
  try_pop_loop 2 q (dequeue_pos_ q).

(** The queue between calls, with the contents [xs] and room in its counters for
    [n] more pushes. *)
Definition holds (n : Z) (q : mpmc_queue) (xs : list T) : Prop :=
  ∃ tr rt, inv {| queue := q; threads := [Idle]; trace := tr; returned := rt |} ∧
    fifo_run (Z.to_nat Capacity) tr xs ∧
    Z.of_nat (length (pushed tr)) + n + Capacity < 2 ^ 63.

(** One step of the only thread. *)
Lemma solo_step q th tr rt th' q' tr' ret :
  inv {| queue := q; threads := [th]; trace := tr; returned := rt |} →
  thread_step th q tr th' q' tr' ret →
  Z.of_nat (length (pushed tr')) + Capacity < 2 ^ 63 →
  inv {| queue := q'; threads := [th']; trace := tr'; returned := rt ++ ret |}.
Proof. intros [turns Hi] Hs Hb. by eapply (inv_thread_step q [th] tr rt turns 0%nat th). Qed.

Lemma solo_owner p ph : owner_ok [Idle] p ph → owner ph = None.
Proof.
  destruct ph as [|t|t| |t|t]; simpl; try done; destruct t; simpl; try done; by intros [].
Qed.

(** Slot and counters of a queue between calls. *)
Lemma holds_slot n q xs pos :
  holds n q xs →
  ∃ tr p sl, pushed tr = popped tr ++ xs ∧
    enqueue_pos_ q = Z.of_nat (length (pushed tr)) ∧
    dequeue_pos_ q = Z.of_nat (length (popped tr)) ∧
    enqueue_pos_ q = dequeue_pos_ q + Z.of_nat (length xs) ∧
    (length xs <= Z.to_nat Capacity)%nat ∧
    enqueue_pos_ q + n + Capacity < 2 ^ 63 ∧
    slot_at q pos = Some sl ∧ (p = pos ∨ p + Capacity <= pos ∨ pos + Capacity <= p) ∧
    (sequence sl = p ∧ storage sl = None ∧ enqueue_pos_ q <= p < dequeue_pos_ q + Capacity ∨
     sequence sl = p + 1 ∧ storage sl = pushed tr !! Z.to_nat p ∧
       dequeue_pos_ q <= p < enqueue_pos_ q).
Proof.
  intros (tr & rt & [turns Hinv] & Hrun & Hb).
  destruct (fifo_run_contents _ _ _ Hrun) as [Hx Hcap].
  pose proof (inv_enqueue _ _ Hinv) as HE. pose proof (inv_dequeue _ _ Hinv) as HD.
  destruct (inv_turn _ _ pos Hinv) as (p & ph & sl & _ & Hsl & Hi & Hok & Hown). simpl in *.
  apply slot_index_apart in Hi; [|done].
  exists tr, p, sl. pose proof (f_equal length Hx) as Hl. rewrite length_app in Hl.
  split_and!; try done; try lia.
  apply solo_owner in Hown.
  destruct ph; simpl in *; try done; [left|right]; split_and!; try apply Hok; lia.
Qed.

Lemma slot_at_set_slot q pos sl old :
  slot_at q pos = Some old → slot_at (set_slot q pos sl) pos = Some sl.
Proof. intros ?%lookup_lt_Some. by apply list_lookup_insert_eq. Qed.

Lemma mpmc_emplace_spec n q xs x :
  0 < n → holds n q xs →
  if decide (length xs < Z.to_nat Capacity)%nat
  then ∃ q', emplace q x = Some (q', true) ∧ holds (n - 1) q' (xs ++ [x])
  else emplace q x = Some (q, false).
Proof.
  intros Hn Hq. pose proof (capacity_pos (Capacity := Capacity)).
  destruct (holds_slot n q xs (enqueue_pos_ q) Hq)
    as (tr' & p & sl & Hx & HE & HD & Hlen & Hcap & Hb & Hsl & Hp & Hok).
  unfold emplace, emplace_loop. rewrite Hsl, Z.eqb_refl.
  rewrite signed_diff_exact by lia. case_decide as Hroom; [|].
  2: { rewrite (proj2 (Z.eqb_neq _ _)) by lia. by rewrite (proj2 (Z.ltb_lt _ _)) by lia. }
  destruct Hok as [(Hs & Hst & Hr)|(Hs & Hst & Hr)]; [|lia].
  rewrite (proj2 (Z.eqb_eq _ _)) by lia. eexists. split; [done|].
  destruct Hq as (tr & rt & Hinv & Hrun & Hb').
  exists (tr ++ [EvPush x]), (((((rt ++ []) ++ []) ++ []) ++ []) ++ []).
  rewrite pushed_push, length_app. simpl. split_and!; [|eapply run_snoc; [done|by constructor]|lia].
  assert (Hbt : Z.of_nat (length (pushed (tr ++ [EvPush x]))) + Capacity < 2 ^ 63)
    by (rewrite pushed_push, length_app; simpl; lia).
  eapply solo_step in Hinv; [|apply (push_begin q tr x)|lia].
  eapply solo_step in Hinv; [|by apply (push_ready _ _ _ _ sl); [|rewrite signed_diff_exact by lia; lia]|lia].
  eapply solo_step in Hinv; [|by apply push_cas|done].
  eapply solo_step in Hinv; [|by eapply push_construct|done].
  eapply solo_step in Hinv; [|by eapply push_publish, slot_at_set_slot|done].
  unfold set_slot in *. simpl in *. by rewrite list_insert_insert_eq in Hinv.
Qed.

Lemma mpmc_try_pop_spec n q xs :
  0 <= n → holds n q xs →
  match xs with
  | [] => try_pop q = Some (q, None)
  | x :: xs' => ∃ q', try_pop q = Some (q', Some x) ∧ holds n q' xs'
  end.
Proof.
  intros Hn Hq. pose proof (capacity_pos (Capacity := Capacity)).
  destruct (holds_slot n q xs (dequeue_pos_ q) Hq)
    as (tr' & p & sl & Hx & HE & HD & Hlen & Hcap & Hb & Hsl & Hp & Hok).
  unfold try_pop, try_pop_loop. rewrite Hsl, Z.eqb_refl.
  rewrite (u64_small (dequeue_pos_ q + 1)) by lia.
  rewrite signed_diff_exact by lia. destruct xs as [|x xs]; simpl in Hlen, Hcap.
  { rewrite (proj2 (Z.eqb_neq _ _)) by lia. by rewrite (proj2 (Z.ltb_lt _ _)) by lia. }
  destruct Hok as [(Hs & Hst & Hr)|(Hs & Hst & Hr)]; [lia|].
  assert (p = dequeue_pos_ q) as -> by lia.
  rewrite Hx, HD, Nat2Z.id, list_lookup_middle in Hst by done.
  rewrite (proj2 (Z.eqb_eq _ _)) by lia. rewrite Hst. eexists. split; [done|].
  destruct Hq as (tr & rt & Hinv & Hrun & Hb').
  pose proof Hinv as [turns Hi]. pose proof (inv_dequeue _ _ Hi) as HD2. simpl in HD2.
  destruct (fifo_run_contents _ _ _ Hrun) as [Hx2 _].
  assert (Hat : pushed_at tr (dequeue_pos_ q) = Some x).
  { unfold pushed_at. rewrite Hx2, HD2, Nat2Z.id. by apply list_lookup_middle. }
  exists (tr ++ [EvPop x]), (((((rt ++ []) ++ []) ++ []) ++ []) ++ [(dequeue_pos_ q, x)]).
  rewrite pushed_pop. split_and!; [|eapply run_snoc; [done|by constructor]|lia].
  assert (Hbt : Z.of_nat (length (pushed (tr ++ [EvPop x]))) + Capacity < 2 ^ 63)
    by (rewrite pushed_pop; lia).
  eapply solo_step in Hinv; [|apply (pop_begin q tr)|lia].
  eapply solo_step in Hinv;
    [|by apply (pop_ready _ _ _ sl); [|rewrite u64_small, signed_diff_exact by lia; lia]|lia].
  eapply solo_step in Hinv; [|by apply pop_cas|by rewrite Hat].
  rewrite Hat in Hinv. simpl in Hinv.
  eapply solo_step in Hinv; [|by eapply pop_take|done].
  eapply solo_step in Hinv; [|by eapply pop_publish, slot_at_set_slot|done].
  unfold set_slot in *. simpl in *. rewrite list_insert_insert_eq in Hinv.
  by rewrite (u64_small (dequeue_pos_ q + 1)) in Hinv by lia.
Qed.

Lemma mpmc_new_holds n : n + Capacity < 2 ^ 63 → holds n mpmc_new [].
Proof.
  intros Hn. exists [], []. split_and!; [|constructor|done].
  apply mpmc_inv_initial. split_and!; try done.
  by intros [|t] th; [intros [= <-]|].
Qed.

Lemma holds_mono n m q xs : m <= n → holds n q xs → holds m q xs.
Proof. intros ? (tr & rt & ? & ? & ?). exists tr, rt. split_and!; [done|done|lia]. Qed.

#[export, refine] Instance mpmc_bounded_queue : BoundedQueue mpmc_queue T := {
  bq_capacity := Z.to_nat Capacity;
  bq_budget := 2 ^ 63 - Capacity - 1;
  bq_new := mpmc_new;
  bq_push := emplace;
  bq_pop := try_pop;
  bq_holds := holds }.
Proof.
  - apply mpmc_new_holds. lia.
  - apply holds_mono.
  - apply mpmc_emplace_spec.
  - apply mpmc_try_pop_spec.
Defined.

(** [~MpmcQueue]: pop until empty. *)
Definition destroy (q : mpmc_queue) : option (mpmc_queue * list T) :=
  pop_all (S (Z.to_nat Capacity)) q.

Lemma holds_length n q xs : holds n q xs → (length xs <= Z.to_nat Capacity)%nat.
Proof. intros (tr & rt & _ & Hrun & _). by eapply fifo_run_contents. Qed.
End mpmc.
Arguments mpmc_queue : clear implicits.
Arguments state : clear implicits.
Arguments thread : clear implicits.

(** ** Properties *)

(** Three threads on a queue of two slots. Threads 0 and 1 push 5 and 7, thread 2
    pops; [stalled_state] stops thread 0 right after it has claimed ticket 0, with
    thread 1 done and thread 2 about to look at the slot; [served_state] lets all
    three finish. *)
Definition start_state : state nat :=
  {| queue := mpmc_new 2; threads := [Idle; Idle; Idle]; trace := []; returned := [] |}.

Definition stalled_state : state nat :=
  {| queue := {| slots_ := [ {| sequence := 0; storage := None |};
                             {| sequence := 2; storage := Some 7%nat |} ];
                 enqueue_pos_ := 2; dequeue_pos_ := 0 |};
     threads := [PushConstruct 5%nat 0; Idle; PopLoad 0];
     trace := [EvPush 5%nat; EvPush 7%nat]; returned := [] |}.

Definition served_state : state nat :=
  {| queue := {| slots_ := [ {| sequence := 2; storage := None |};
                             {| sequence := 2; storage := Some 7%nat |} ];
                 enqueue_pos_ := 2; dequeue_pos_ := 1 |};
     threads := [Idle; Idle; Idle];
     trace := [EvPush 5%nat; EvPush 7%nat; EvPop 5%nat]; returned := [(0, 5%nat)] |}.

(** Run thread [t] by the rule [rule]. *)
Tactic Notation "run_thread" constr(t) uconstr(rule) :=
  eapply rtc_l; [eapply (step_thread 2 t); [reflexivity|eapply rule; try reflexivity]|simpl].

Lemma stalled_run : rtc (step 2) start_state stalled_state.
Proof.
  run_thread 0%nat (push_begin 2 (mpmc_new 2) [] 5%nat).
  run_thread 0%nat (push_ready (T:=nat) 2).
  run_thread 0%nat (push_cas (T:=nat) 2).
  run_thread 1%nat (push_begin (T:=nat) 2 _ _ 7%nat).
  run_thread 1%nat (push_ready (T:=nat) 2).
  run_thread 1%nat (push_cas (T:=nat) 2).
  run_thread 1%nat (push_construct (T:=nat) 2).
  run_thread 1%nat (push_publish (T:=nat) 2).
  run_thread 2%nat (pop_begin (T:=nat) 2).
  apply rtc_refl.
Qed.

Lemma start_initial : initial 2 start_state.
Proof.
  split_and!; try done. by intros [|[|[|]]] th; simpl; intros [= <-].
Qed.

Lemma stalled_reachable : reachable (initial 2) (step 2) stalled_state.
Proof. exists start_state. split; [apply start_initial|apply stalled_run]. Qed.

Lemma served_reachable : reachable (initial 2) (step 2) served_state.
Proof.
  exists start_state. split; [apply start_initial|]. etrans; [apply stalled_run|].
  run_thread 0%nat (push_construct (T:=nat) 2).
  run_thread 0%nat (push_publish (T:=nat) 2).
  run_thread 2%nat (pop_ready (T:=nat) 2).
  run_thread 2%nat (pop_cas (T:=nat) 2).
  run_thread 2%nat (pop_take (T:=nat) 2).
  run_thread 2%nat (pop_publish (T:=nat) 2).
  apply rtc_refl.
Qed.

(** C7. Whatever the number of threads and their interleaving, the order in which
    the calls claim their tickets is a legal history of a FIFO queue of [Capacity]
    elements; each [try_pop] returns exactly the element its ticket stands for, no
    ticket is returned twice, and once every thread has left the queue every ticket
    claimed by a pop has been returned: no element is lost, duplicated or
    invented. *)
Theorem mpmc_exactly_once {T} (Capacity : Z) `{!RingCapacity Capacity} (s : state T) :
  2 <= Capacity →
  reachable (initial Capacity) (step Capacity) s → pushes s + Capacity < 2 ^ 63 →
  (∃ xs, fifo_run (Z.to_nat Capacity) (trace s) xs ∧
     pushed (trace s) = popped (trace s) ++ xs) ∧
  NoDup (returned s).*1 ∧
  (∀ p x, (p, x) ∈ returned s → popped (trace s) !! Z.to_nat p = Some x) ∧
  ((∀ t th, threads s !! t = Some th → th = Idle) →
     ∀ k, (k < length (popped (trace s)))%nat → Z.of_nat k ∈ (returned s).*1).
Proof.
  intros H2 Hr Hb. destruct (mpmc_reachable_inv Capacity H2 s Hr Hb) as [turns Hinv].
  destruct (inv_run _ _ _ Hinv) as [xs Hrun].
  destruct (fifo_run_contents _ _ _ Hrun) as [Hx _].
  destruct (inv_returned _ _ _ Hinv) as (Hnd & Hin & Hall).
  pose proof (inv_dequeue _ _ _ Hinv) as HD.
  split_and!; [by exists xs|done| |].
  - intros p x Hp. destruct (Hin p x Hp) as (Hlt & Hl & _).
    rewrite Hx, lookup_app_l in Hl by lia. done.
  - intros Hidle k Hk. destruct (Hall (Z.of_nat k)) as [?|(ph & Hturn & t & Hph)]; [lia|done|].
    exfalso. destruct (inv_slots _ _ _ Hinv _ _ _ Hturn) as (_ & _ & Ho).
    destruct Hph as [-> | ->]; simpl in Ho; [|destruct Ho as [x Ho]]; by apply Hidle in Ho.
Qed.

Lemma mpmc_exactly_once_witness :
  ∃ xs, fifo_run 2 (trace served_state) xs ∧ pushed (trace served_state) =
    popped (trace served_state) ++ xs.
Proof.
  exact (proj1 (mpmc_exactly_once 2 served_state ltac:(done) served_reachable ltac:(done))).
Defined.

(** No step of a reachable state is undefined behaviour and no two threads are
    ever inside the same slot: two threads with tickets for one slot are the same
    thread, a push constructs in raw memory, a pop moves out of a live object. Every
    thread always has a next step: none is ever blocked. *)
Theorem mpmc_slots_exclusive {T} (Capacity : Z) `{!RingCapacity Capacity} (s : state T) :
  2 <= Capacity →
  reachable (initial Capacity) (step Capacity) s → pushes s + Capacity < 2 ^ 63 →
  (∀ t1 t2 th1 th2 p1 p2, threads s !! t1 = Some th1 → threads s !! t2 = Some th2 →
     ticket_of th1 = Some p1 → ticket_of th2 = Some p2 →
     slot_index Capacity p1 = slot_index Capacity p2 → t1 = t2) ∧
  (∀ t x p, threads s !! t = Some (PushConstruct x p) →
     ∃ sl, slot_at Capacity (queue s) p = Some sl ∧ storage sl = None) ∧
  (∀ t p, threads s !! t = Some (PopTake p) →
     ∃ sl x, slot_at Capacity (queue s) p = Some sl ∧ storage sl = Some x ∧
       pushed (trace s) !! Z.to_nat p = Some x) ∧
  (∀ t th, threads s !! t = Some th → ∃ s', step Capacity s s').
Proof.
  intros H2 Hr Hb. destruct (mpmc_reachable_inv Capacity H2 s Hr Hb) as [turns Hinv].
  split_and!.
  - intros. by eapply (tickets_apart Capacity s turns).
  - intros t x p Ht. destruct (inv_threads _ _ _ Hinv t _ Ht) as [Hturn _].
    destruct (inv_owned _ _ _ _ _ Hinv Hturn) as (sl & Hsl & _ & Hst & _). by exists sl.
  - intros t p Ht. pose proof (inv_threads _ _ _ Hinv t _ Ht) as Hturn.
    destruct (inv_owned _ _ _ _ _ Hinv Hturn) as (sl & Hsl & _ & Hst & Hp & _).
    pose proof (inv_counts _ _ _ Hinv). pose proof (inv_enqueue _ _ _ Hinv).
    destruct (lookup_lt_is_Some_2 (pushed (trace s)) (Z.to_nat p)) as [x Hx]; [lia|].
    exists sl, x. by rewrite Hst.
  - intros t th. by eapply (thread_enabled Capacity).
Qed.

Lemma mpmc_slots_exclusive_witness :
  ∃ sl, slot_at 2 (queue stalled_state) 0 = Some sl ∧ storage sl = None.
Proof.
  destruct (mpmc_slots_exclusive 2 stalled_state ltac:(done) stalled_reachable ltac:(done))
    as (_ & H & _). by apply (H 0%nat 5%nat 0).
Defined.

(** A refused push and an empty-handed pop are justified: a push answers
    [false] only when the queue is full, or while a pop that has claimed the oldest
    slot has not left it; a pop answers [nullopt] only when the queue is empty, or
    while the push of the oldest element has not published it. *)
Theorem mpmc_answers_justified {T} (Capacity : Z) `{!RingCapacity Capacity} (s : state T)
    t pos sl x :
  2 <= Capacity →
  reachable (initial Capacity) (step Capacity) s → pushes s + Capacity < 2 ^ 63 →
  slot_at Capacity (queue s) pos = Some sl →
  (threads s !! t = Some (PushLoad x pos) → signed_diff (sequence sl) pos < 0 →
     length (pushed (trace s)) = (length (popped (trace s)) + Z.to_nat Capacity)%nat ∨
     popping_thread s (Z.of_nat (length (pushed (trace s))) - Capacity)) ∧
  (threads s !! t = Some (PopLoad pos) → signed_diff (sequence sl) (pos +w 1) < 0 →
     length (pushed (trace s)) = length (popped (trace s)) ∨
     pushing_thread s (Z.of_nat (length (popped (trace s))))).
Proof.
  intros H2 Hr Hb Hsl. destruct (mpmc_reachable_inv Capacity H2 s Hr Hb) as [turns Hinv].
  pose proof (inv_counts _ _ _ Hinv) as Hc. pose proof (inv_enqueue _ _ _ Hinv) as HE.
  pose proof (inv_dequeue _ _ _ Hinv) as HD. unfold pushes in Hb.
  split; intros Ht Hd; pose proof (inv_threads _ _ _ Hinv t _ Ht) as Hpos; simpl in Hpos.
  - pose proof (inv_diff Capacity H2 s turns pos sl 0 Hinv Hsl) as Hx. rewrite Z.add_0_r in Hx.
    rewrite Hx in Hd by lia.
    destruct (refused_push Capacity H2 s turns pos sl Hinv) as [-> [?|?]]; [lia|done|lia|left; lia|].
    right. by rewrite <- HE.
  - pose proof (inv_diff Capacity H2 s turns pos sl 1 Hinv Hsl) as Hx. rewrite u64_small in Hd by lia.
    rewrite Hx in Hd by lia.
    destruct (missed_pop Capacity H2 s turns pos sl Hinv) as [-> [?|?]]; [lia|done|lia|left; lia|].
    right. by rewrite <- HD.
Qed.

Lemma mpmc_answers_justified_witness : pushing_thread stalled_state 0.
Proof.
  destruct (mpmc_answers_justified 2 stalled_state 2%nat 0 {| sequence := 0; storage := None |}
    0%nat ltac:(done) stalled_reachable ltac:(done) eq_refl) as [_ H].
  by destruct (H eq_refl eq_refl) as [?|?].
Defined.

(** The converse fails: [try_pop] answers [nullopt], which the source comments
    as the queue being empty, although a push that has already returned [true] sits
    in the queue, when the push of an earlier ticket has stalled. *)
Theorem mpmc_pop_misses_completed_push :
  ∃ s : state nat,
    reachable (initial 2) (step 2) s ∧
    threads s = [PushConstruct 5%nat 0; Idle; PopLoad 0] ∧
    pushed (trace s) = [5%nat; 7%nat] ∧ popped (trace s) = [] ∧
    slot_at 2 (queue s) 1 = Some {| sequence := 2; storage := Some 7%nat |} ∧
    thread_step 2 (PopLoad 0) (queue s) (trace s) Idle (queue s) (trace s) [].
Proof.
  exists stalled_state. split_and!; [apply stalled_reachable|done..|].
  by eapply pop_empty.
Qed.

(** The methods called one at a time: [emplace] appends while fewer than
    [Capacity] elements are held and otherwise answers [false] and changes nothing,
    [try_pop] returns the oldest element, neither retry loop needs a second turn, and
    the destructor destroys every remaining element. *)
Theorem mpmc_methods {T} (Capacity : Z) `{!RingCapacity Capacity} (H2 : 2 <= Capacity) n
    (q : mpmc_queue T) xs x :
  0 < n → holds Capacity n q xs →
  (if decide (length xs < Z.to_nat Capacity)%nat
   then ∃ q', emplace Capacity q x = Some (q', true) ∧ holds Capacity (n - 1) q' (xs ++ [x])
   else emplace Capacity q x = Some (q, false)) ∧
  (match xs with
   | [] => try_pop Capacity q = Some (q, None)
   | y :: ys => ∃ q', try_pop Capacity q = Some (q', Some y) ∧ holds Capacity n q' ys
   end) ∧
  ∃ q', destroy Capacity H2 q = Some (q', xs) ∧ holds Capacity n q' [].
Proof.
  intros Hn Hq. split; [by apply mpmc_emplace_spec|].
  split; [apply (mpmc_try_pop_spec Capacity H2 n); [lia|done]|].
  apply (pop_all_spec (BoundedQueue0 := mpmc_bounded_queue Capacity H2)); [lia|done|].
  apply holds_length in Hq. lia.
Qed.

Lemma mpmc_methods_witness :
  ∃ q', emplace 2 (mpmc_new 2) 7%nat = Some (q', true) ∧ holds 2 4 q' [7%nat].
Proof.
  exact (proj1 (mpmc_methods 2 ltac:(done) 5 (mpmc_new 2) [] 7%nat ltac:(done)
    (mpmc_new_holds 2 ltac:(done) 5 ltac:(done)))).
Defined.
