(* ===== verification/MpmcWeak.v ===== *)
(** * The multi-producer multi-consumer queue under weak memory
      ([include/jellybean/concurrency/mpmc_queue.hpp])

    The accesses of [emplace] and [try_pop] with the memory orders of the source, on the
    memory of [Weak], by any number of threads. The program points are those of [Mpmc];
    a slot's storage is plain memory. Threads may also synchronise outside the queue at
    any time. The constructor's stores happen before everything else. *)
From S2P Require Import Prelude.
From S2P Require Import Transition.
From S2P Require Import Ring.
From S2P Require Import Weak.
From S2P Require Import Mpmc.

(** ** Locations *)

Inductive loc := EnqueuePos | DequeuePos | Sequence (i : nat) | Storage (i : nat).

#[export] Instance loc_eq_dec : EqDecision loc.
Proof. solve_decision. Defined.

Section mpmc_weak.
Context {T : Type} (Capacity : Z).

(** A counter or an object ([None]: raw memory). *)
Inductive cell := Word (n : Z) | Object (o : option T).

(** A thread: where it is and what it knows. *)
Record state := {
  mem : memory loc cell;
  threads : list (Mpmc.thread T * Weak.thread loc);
  trace : list (event T);
  returned : list (nat * T) }.

Definition cells_new (l : loc) : cell :=
  match l with
  | EnqueuePos | DequeuePos => Word 0
  | Sequence i => Word (Z.of_nat i)
  | Storage _ => Object None
  end.

Definition state_new (n : nat) : state := {|
  mem := memory_new cells_new; threads := replicate n (Idle, thread_new);
  trace := []; returned := [] |}.

Definition initial (s : state) : Prop := ∃ n, s = state_new n.

Definition sequence_at (pos : Z) : loc := Sequence (slot_index Capacity pos).

Definition storage_at (pos : Z) : loc := Storage (slot_index Capacity pos).

(** ** Steps *)

(** [access p th m tr p' th' m' tr' ret]: one access of a thread at [p] that knows [th];
    the history gets a push or a pop when the exchange claims its ticket, and [ret] is what
    [try_pop] returns. *)
Inductive access : Mpmc.thread T → Weak.thread loc → memory loc cell → list (event T) →
    Mpmc.thread T → Weak.thread loc → memory loc cell → list (event T) → list (nat * T) → Prop :=
| push_begin th m tr x n pos th' :
    load Relaxed EnqueuePos n m th = Some (Word pos, th') →
    access Idle th m tr (PushLoad x pos) th' m tr []
| push_ready th m tr x pos n sq th' :
    load Acquire (sequence_at pos) n m th = Some (Word sq, th') → signed_diff sq pos = 0 →
    access (PushLoad x pos) th m tr (PushCas x pos) th' m tr []
| push_full th m tr x pos n sq th' :
    load Acquire (sequence_at pos) n m th = Some (Word sq, th') → signed_diff sq pos < 0 →
    access (PushLoad x pos) th m tr Idle th' m tr []
| push_lost th m tr x pos n sq th' :
    load Acquire (sequence_at pos) n m th = Some (Word sq, th') → 0 < signed_diff sq pos →
    access (PushLoad x pos) th m tr (PushReload x) th' m tr []
| push_reload th m tr x n pos th' :
    load Relaxed EnqueuePos n m th = Some (Word pos, th') →
    access (PushReload x) th m tr (PushLoad x pos) th' m tr []
| push_cas_fail th m tr x pos n pos' th' :
    load Relaxed EnqueuePos n m th = Some (Word pos', th') →
    access (PushCas x pos) th m tr (PushLoad x pos') th' m tr []
| push_cas th m tr x pos m' th' :
    exchange Relaxed EnqueuePos (Word (pos +w 1)) m th = Some (Word pos, m', th') →
    access (PushCas x pos) th m tr (PushConstruct x pos) th' m' (tr ++ [EvPush x]) []
| push_construct th m tr x pos m' th' :
    plain_read (storage_at pos) m th = Some (Object None) →
    plain_write (storage_at pos) (Object (Some x)) m th = Some (m', th') →
    access (PushConstruct x pos) th m tr (PushPublish x pos) th' m' tr []
| push_publish th m tr x pos m' th' :
    store Release (sequence_at pos) (Word (pos +w 1)) m th = Some (m', th') →
    access (PushPublish x pos) th m tr Idle th' m' tr []
| pop_begin th m tr n pos th' :
    load Relaxed DequeuePos n m th = Some (Word pos, th') →
    access Idle th m tr (PopLoad pos) th' m tr []
| pop_ready th m tr pos n sq th' :
    load Acquire (sequence_at pos) n m th = Some (Word sq, th') → signed_diff sq (pos +w 1) = 0 →
    access (PopLoad pos) th m tr (PopCas pos) th' m tr []
| pop_empty th m tr pos n sq th' :
    load Acquire (sequence_at pos) n m th = Some (Word sq, th') → signed_diff sq (pos +w 1) < 0 →
    access (PopLoad pos) th m tr Idle th' m tr []
| pop_lost th m tr pos n sq th' :
    load Acquire (sequence_at pos) n m th = Some (Word sq, th') → 0 < signed_diff sq (pos +w 1) →
    access (PopLoad pos) th m tr PopReload th' m tr []
| pop_reload th m tr n pos th' :
    load Relaxed DequeuePos n m th = Some (Word pos, th') →
    access PopReload th m tr (PopLoad pos) th' m tr []
| pop_cas_fail th m tr pos n pos' th' :
    load Relaxed DequeuePos n m th = Some (Word pos', th') →
    access (PopCas pos) th m tr (PopLoad pos') th' m tr []
| pop_cas th m tr pos m' th' :
    exchange Relaxed DequeuePos (Word (pos +w 1)) m th = Some (Word pos, m', th') →
    access (PopCas pos) th m tr (PopTake pos) th' m'
      (tr ++ from_option (λ x, [EvPop x]) [] (pushed_at tr pos)) []
| pop_take th m tr pos x m' th' :
    plain_read (storage_at pos) m th = Some (Object (Some x)) →
    plain_write (storage_at pos) (Object None) m th = Some (m', th') →
    access (PopTake pos) th m tr (PopPublish pos x) th' m' tr []
| pop_publish th m tr pos x m' th' :
    store Release (sequence_at pos) (Word (pos +w MASK Capacity +w 1)) m th = Some (m', th') →
    access (PopPublish pos x) th m tr Idle th' m' tr [(Z.to_nat pos, x)].

Inductive step (s : state) : state → Prop :=
| step_access t p th p' th' m' tr' ret :
    threads s !! t = Some (p, th) →
    access p th (mem s) (trace s) p' th' m' tr' ret →
    step s {| mem := m'; threads := <[t := (p', th')]> (threads s); trace := tr';
              returned := returned s ++ ret |}
| step_learns t t' p th p' th' :
    threads s !! t = Some (p, th) → threads s !! t' = Some (p', th') →
    step s {| mem := mem s; threads := <[t := (p, learn (cur th') th)]> (threads s);
              trace := trace s; returned := returned s |}.

(** The same as a function: which thread moves, whether an idle one calls [emplace], and
    the message its load reads; [None] is the exchange. *)
Inductive choice := Act (t : nat) (call : option T) (n : option nat) | Learns (t t' : nat).

(** A load of a number, and what follows. *)
Definition with_word (o : order) (l : loc) (n : option nat) (m : memory loc cell) (th : Weak.thread loc)
    (next : Z → Mpmc.thread T) : option (Mpmc.thread T * Weak.thread loc) :=
  match n with
  | Some n => match load o l n m th with
              | Some (Word w, th') => Some (next w, th')
              | _ => None
              end
  | None => None
  end.

Definition exec_access (call : option T) (n : option nat) (p : Mpmc.thread T) (th : Weak.thread loc)
    (m : memory loc cell) (tr : list (event T)) :
    option (Mpmc.thread T * Weak.thread loc * memory loc cell * list (event T) * list (nat * T)) :=
  let loaded (r : option (Mpmc.thread T * Weak.thread loc)) :=
    match r with Some (p', th') => Some (p', th', m, tr, []) | None => None end in
  match p, n with
  | Idle, _ =>
      match call with
      | Some x => loaded (with_word Relaxed EnqueuePos n m th (PushLoad x))
      | None => loaded (with_word Relaxed DequeuePos n m th PopLoad)
      end
  | PushLoad x pos, _ =>
      loaded (with_word Acquire (sequence_at pos) n m th (λ sq,
        if signed_diff sq pos =? 0 then PushCas x pos
        else if signed_diff sq pos <? 0 then Idle else PushReload x))
  | PushReload x, _ => loaded (with_word Relaxed EnqueuePos n m th (PushLoad x))
  | PushCas x pos, Some _ => loaded (with_word Relaxed EnqueuePos n m th (PushLoad x))
  | PushCas x pos, None =>
      match exchange Relaxed EnqueuePos (Word (pos +w 1)) m th with
      | Some (Word w, m', th') =>
          if w =? pos then Some (PushConstruct x pos, th', m', tr ++ [EvPush x], []) else None
      | _ => None
      end
  | PushConstruct x pos, _ =>
      match plain_read (storage_at pos) m th, plain_write (storage_at pos) (Object (Some x)) m th with
      | Some (Object None), Some (m', th') => Some (PushPublish x pos, th', m', tr, [])
      | _, _ => None
      end
  | PushPublish x pos, _ =>
      match store Release (sequence_at pos) (Word (pos +w 1)) m th with
      | Some (m', th') => Some (Idle, th', m', tr, [])
      | None => None
      end
  | PopLoad pos, _ =>
      loaded (with_word Acquire (sequence_at pos) n m th (λ sq,
        if signed_diff sq (pos +w 1) =? 0 then PopCas pos
        else if signed_diff sq (pos +w 1) <? 0 then Idle else PopReload))
  | PopReload, _ => loaded (with_word Relaxed DequeuePos n m th PopLoad)
  | PopCas pos, Some _ => loaded (with_word Relaxed DequeuePos n m th PopLoad)
  | PopCas pos, None =>
      match exchange Relaxed DequeuePos (Word (pos +w 1)) m th with
      | Some (Word w, m', th') =>
          if w =? pos then
            Some (PopTake pos, th', m', tr ++ from_option (λ x, [EvPop x]) [] (pushed_at tr pos), [])
          else None
      | _ => None
      end
  | PopTake pos, _ =>
      match plain_read (storage_at pos) m th, plain_write (storage_at pos) (Object None) m th with
      | Some (Object (Some x)), Some (m', th') => Some (PopPublish pos x, th', m', tr, [])
      | _, _ => None
      end
  | PopPublish pos x, _ =>
      match store Release (sequence_at pos) (Word (pos +w MASK Capacity +w 1)) m th with
      | Some (m', th') => Some (Idle, th', m', tr, [(Z.to_nat pos, x)])
      | None => None
      end
  end.

Definition exec (c : choice) (s : state) : option state :=
  match c with
  | Act t call n =>
      match threads s !! t with
      | Some (p, th) =>
          match exec_access call n p th (mem s) (trace s) with
          | Some (p', th', m', tr', ret) =>
              Some {| mem := m'; threads := <[t := (p', th')]> (threads s); trace := tr';
                      returned := returned s ++ ret |}
          | None => None
          end
      | None => None
      end
  | Learns t t' =>
      match threads s !! t, threads s !! t' with
      | Some (p, th), Some (p', th') =>
          Some {| mem := mem s; threads := <[t := (p, learn (cur th') th)]> (threads s);
                  trace := trace s; returned := returned s |}
      | _, _ => None
      end
  end.

Lemma mpmc_with_word_inv o l n m th next p' th' :
  with_word o l n m th next = Some (p', th') →
  ∃ k w, n = Some k ∧ load o l k m th = Some (Word w, th') ∧ p' = next w.
Proof. unfold with_word. intros H. repeat case_match; simplify_eq. eauto. Qed.

Lemma mpmc_exec_access_sound call n p th m tr p' th' m' tr' ret :
  exec_access call n p th m tr = Some (p', th', m', tr', ret) → access p th m tr p' th' m' tr' ret.
Proof.
  unfold exec_access. intros H.
  destruct p; repeat case_match; simplify_eq; try (by econstructor);
    repeat match goal with
    | E : with_word _ _ _ _ _ _ = Some _ |- _ => apply mpmc_with_word_inv in E as (? & ? & ? & ? & ->)
    | E : (_ =? _) = true |- _ => apply Z.eqb_eq in E; subst
    end; try (by econstructor).
  all: case_match eqn:E1; [apply Z.eqb_eq in E1; by econstructor|apply Z.eqb_neq in E1].
  all: case_match eqn:E2; [apply Z.ltb_lt in E2|apply Z.ltb_ge in E2].
  all: econstructor; [done|lia].
Qed.

Lemma mpmc_exec_step c s s' : exec c s = Some s' → step s s'.
Proof.
  unfold exec. intros H. repeat case_match; simplify_eq.
  - eapply step_access; [done|by eapply mpmc_exec_access_sound].
  - by eapply step_learns.
Qed.

(** ** The invariant *)

Abbreviation cap := (ring_size Capacity).
Abbreviation round := (turn_of Capacity).
Abbreviation slot := (slot_of Capacity).

(** The ticket that slot [i] serves in turn [r]. *)
Definition ticket (i r : nat) : nat := (i + r * cap)%nat.

(** Message [n] of a slot's sequence: an even one opens the slot for the push of turn
    [n / 2], an odd one for the pop. *)
Definition sequence_value (i n : nat) : Z :=
  Z.of_nat (ticket i (n / 2)) + if Nat.odd n then 1 else 0.

(** What the slot then holds. *)
Definition content (pushes : list T) (i n : nat) : option T :=
  if Nat.odd n then pushes !! ticket i (n / 2) else None.

(** Who knows a sequence number knows the accesses to the storage before it. *)
Definition good (v : view loc) : Prop := ∀ i, (v (Sequence i) <= v (Storage i))%nat.

(** The slot a thread owns and the message that opened it. *)
Definition held (p : Mpmc.thread T) : option (nat * nat) :=
  match p with
  | PushConstruct _ pos | PushPublish _ pos =>
      let k := Z.to_nat pos in Some (slot k, 2 * round k)%nat
  | PopTake pos | PopPublish pos _ =>
      let k := Z.to_nat pos in Some (slot k, 2 * round k + 1)%nat
  | _ => None
  end.

Definition publishing (p : Mpmc.thread T) : bool :=
  match p with PushPublish _ _ | PopPublish _ _ => true | _ => false end.

(** A position is a ticket that was claimed or is the next. *)
Definition position (pos : Z) (bound : nat) : Prop := ∃ k, pos = Z.of_nat k ∧ (k <= bound)%nat.

Definition point_ok (pushes : list T) (D : nat) (v : view loc) (p : Mpmc.thread T) : Prop :=
  let E := length pushes in
  match p with
  | Idle | PushReload _ | PopReload => True
  | PushLoad _ pos => position pos E
  | PushCas _ pos => ∃ k, pos = Z.of_nat k ∧ (k <= E)%nat ∧ (2 * round k <= v (Sequence (slot k)))%nat
  | PushConstruct x pos | PushPublish x pos => ∃ k, pos = Z.of_nat k ∧ pushes !! k = Some x
  | PopLoad pos => position pos D
  | PopCas pos =>
      ∃ k, pos = Z.of_nat k ∧ (k <= D)%nat ∧ (2 * round k + 1 <= v (Sequence (slot k)))%nat
  | PopTake pos => ∃ k, pos = Z.of_nat k ∧ (k < D)%nat
  | PopPublish pos x => ∃ k, pos = Z.of_nat k ∧ (k < D)%nat ∧ pushes !! k = Some x
  end.

(** The owner of slot [i] knows the message that opened it, and has the storage to itself. *)
Definition owner_ok (m : memory loc cell) (pushes : list T) (v : view loc) (p : Mpmc.thread T) : Prop :=
  ∀ i n, held p = Some (i, n) →
    latest m (Sequence i) = n ∧ (n <= v (Sequence i))%nat ∧
    let n' := if publishing p then S n else n in
    latest m (Storage i) = n' ∧ (n' <= v (Storage i))%nat ∧
    newest m (Storage i) = Some (Object (content pushes i n')).

Record thread_ok (m : memory loc cell) (pushes : list T) (D : nat)
    (p : Mpmc.thread T) (th : Weak.thread loc) : Prop := {
  th_closed : thread_closed m th;
  th_good : good (cur th);
  th_point : point_ok pushes D (cur th) p;
  th_owner : owner_ok m pushes (cur th) p }.

(** A position counter with [n] exchanges so far. *)
Definition counter (m : memory loc cell) (l : loc) (n : nat) : Prop :=
  length (cells m l) = S n ∧
  ∀ k msg, cells m l !! k = Some msg →
    value msg = Word (Z.of_nat k) ∧ (k ≠ 0%nat → by_rmw msg = true).

(** The sequence of slot [i]: turns passed belong to tickets claimed. *)
Record slot_ok (m : memory loc cell) (E D i : nat) : Prop := {
  sq_messages : ∀ n msg, cells m (Sequence i) !! n = Some msg →
    value msg = Word (sequence_value i n) ∧ good (carries msg);
  sq_pushed : ∀ r, (2 * r + 1 <= latest m (Sequence i))%nat → (ticket i r < E)%nat;
  sq_popped : ∀ r, (2 * r + 2 <= latest m (Sequence i))%nat → (ticket i r < D)%nat }.

(** A slot nobody owns holds what its sequence says. *)
Definition settled (m : memory loc cell) (pushes : list T) (i : nat) : Prop :=
  latest m (Storage i) = latest m (Sequence i) ∧
  newest m (Storage i) = Some (Object (content pushes i (latest m (Sequence i)))).

(** Every pop ticket is returned or in the hands of a thread. *)
Definition popping (ths : list (Mpmc.thread T * Weak.thread loc)) (k : nat) : Prop :=
  ∃ t p th, ths !! t = Some (p, th) ∧ held p = Some (slot k, 2 * round k + 1)%nat.

Record returned_ok (pushes : list T) (D : nat) (ths : list (Mpmc.thread T * Weak.thread loc))
    (rt : list (nat * T)) : Prop := {
  rt_once : NoDup rt.*1;
  rt_right : ∀ k x, (k, x) ∈ rt → (k < D)%nat ∧ pushes !! k = Some x ∧ ¬ popping ths k;
  rt_all : ∀ k, (k < D)%nat → k ∈ rt.*1 ∨ popping ths k }.

Record inv (s : state) : Prop := {
  inv_memory : memory_ok (mem s);
  inv_enqueue : counter (mem s) EnqueuePos (length (pushed (trace s)));
  inv_dequeue : counter (mem s) DequeuePos (length (popped (trace s)));
  inv_slots : ∀ i, (i < cap)%nat →
    slot_ok (mem s) (length (pushed (trace s))) (length (popped (trace s))) i ∧
    ((∃ t p th n, threads s !! t = Some (p, th) ∧ held p = Some (i, n)) ∨
     settled (mem s) (pushed (trace s)) i);
  inv_threads : ∀ t p th, threads s !! t = Some (p, th) →
    thread_ok (mem s) (pushed (trace s)) (length (popped (trace s))) p th;
  inv_apart : ∀ t t' p p' th th' k, threads s !! t = Some (p, th) → threads s !! t' = Some (p', th') →
    held p = Some k → held p' = Some k → t = t';
  inv_run : ∃ xs, fifo_run cap (trace s) xs;
  inv_returned : returned_ok (pushed (trace s)) (length (popped (trace s))) (threads s) (returned s) }.

(** ** Positions and sequence numbers *)

Context `{!RingCapacity Capacity}.
Hypothesis capacity_ge_2 : 2 <= Capacity.

Lemma ticket_slot k : ticket (slot k) (round k) = k.
Proof. symmetry. apply (slot_of_turn Capacity). Qed.

Lemma key_inj j k n : slot j = slot k → (2 * round j + n = 2 * round k + n)%nat → j = k.
Proof.
  intros H1 H2. rewrite <- (ticket_slot j), <- (ticket_slot k), H1.
  by replace (round j) with (round k) by lia.
Qed.

Lemma half_odd r : ((2 * r + 1) / 2 = r)%nat ∧ Nat.odd (2 * r + 1) = true.
Proof. split; [symmetry; apply (Nat.div_unique _ 2 r 1); lia|apply Nat.odd_odd]. Qed.

Lemma half_even r : ((2 * r) / 2 = r)%nat ∧ Nat.odd (2 * r) = false.
Proof. split; [symmetry; apply (Nat.div_unique _ 2 r 0); lia|apply Nat.odd_even]. Qed.

Lemma parity n : (∃ r, n = 2 * r)%nat ∨ (∃ r, n = 2 * r + 1)%nat.
Proof. destruct (Nat.Even_or_Odd n) as [[r Hr]|[r Hr]]; eauto. Qed.

Lemma sequence_even i r : sequence_value i (2 * r) = Z.of_nat (ticket i r).
Proof. unfold sequence_value. destruct (half_even r) as [-> ->]. lia. Qed.

Lemma sequence_odd i r : sequence_value i (2 * r + 1) = Z.of_nat (ticket i r) + 1.
Proof. unfold sequence_value. by destruct (half_odd r) as [-> ->]. Qed.

Lemma content_even xs i r : content xs i (2 * r) = None.
Proof. unfold content. by destruct (half_even r) as [_ ->]. Qed.

Lemma content_odd xs i r : content xs i (2 * r + 1) = xs !! ticket i r.
Proof. unfold content. by destruct (half_odd r) as [-> ->]. Qed.

Lemma ticket_inj i r r' : ticket i r = ticket i r' → r = r'.
Proof. pose proof (ring_size_pos Capacity). unfold ticket. intros. nia. Qed.

Lemma ticket_gap i r r' : (ticket i r + 1 ≠ ticket i r')%nat.
Proof.
  pose proof (ring_size_pos Capacity) as [_ Hc]. assert (2 <= cap)%nat by lia. unfold ticket.
  intros H1. destruct (Nat.lt_trichotomy r r') as [|[->|]]; nia.
Qed.

(** A sequence number equal to a position is the message that opens the slot for it. *)
Lemma sequence_push k n : sequence_value (slot k) n = Z.of_nat k → n = (2 * round k)%nat.
Proof.
  rewrite <- (ticket_slot k) at 2. destruct (parity n) as [[r ->]|[r ->]].
  - rewrite sequence_even. intros H. f_equal. apply (ticket_inj (slot k)). lia.
  - rewrite sequence_odd. intros H. exfalso. apply (ticket_gap (slot k) r (round k)). lia.
Qed.

Lemma sequence_pop k n : sequence_value (slot k) n = Z.of_nat k + 1 → n = (2 * round k + 1)%nat.
Proof.
  rewrite <- (ticket_slot k) at 2. destruct (parity n) as [[r ->]|[r ->]].
  - rewrite sequence_even. intros H. exfalso. apply (ticket_gap (slot k) (round k) r). lia.
  - rewrite sequence_odd. intros H. do 2 f_equal. apply (ticket_inj (slot k)). lia.
Qed.

(** ** Views *)

Lemma mpmc_good_join v w : good v → good w → good (join v w).
Proof. intros H1 H2 i. specialize (H1 i). specialize (H2 i). unfold join. lia. Qed.

Lemma mpmc_good_ext v w : good v → (∀ l, w l = v l) → good w.
Proof. intros H1 E i. rewrite !E. apply H1. Qed.

(** Knowledge of a counter or of a storage does no harm. *)
Lemma mpmc_good_at v l n : (∀ i, l ≠ Sequence i) → good v → good (join v (at_ l n)).
Proof.
  intros Hl H1 i. specialize (H1 i). unfold join. rewrite (at_other l n (Sequence i)) by done. lia.
Qed.

(** ** Consequences of the invariant *)

Lemma mpmc_inv_counts s :
  inv s → (length (popped (trace s)) <= length (pushed (trace s)) <= length (popped (trace s)) + cap)%nat.
Proof.
  intros Hi. destruct (inv_run s Hi) as [xs [Hx Hl]%fifo_run_contents].
  apply (f_equal length) in Hx. rewrite length_app in Hx. lia.
Qed.

(** What the owner of a slot relies on has been pushed. *)
Lemma owned_content pushes D v p i n :
  point_ok pushes D v p → (D <= length pushes)%nat → held p = Some (i, n) →
  let n' := if publishing p then S n else n in
  ∀ xs, content (pushes ++ xs) i n' = content pushes i n'.
Proof.
  intros Hp HD Hh n' xs. unfold n'.
  assert (∀ k, (k < length pushes)%nat →
    content (pushes ++ xs) (slot k) (2 * round k + 1) = content pushes (slot k) (2 * round k + 1)) as Hodd.
  { intros k Hk. rewrite !content_odd, ticket_slot. by apply lookup_app_l. }
  assert (∀ k, content (pushes ++ xs) (slot k) (2 * round k) = content pushes (slot k) (2 * round k))
    as Heven by (intros k; by rewrite !content_even).
  destruct p; cbn [held publishing point_ok] in *; try done; injection Hh as <- <-.
  - apply Heven.
  - destruct Hp as (k & -> & Hx). rewrite Nat2Z.id, <- Nat.add_1_r. apply Hodd.
    by eapply lookup_lt_Some.
  - destruct Hp as (k & -> & Hk). rewrite Nat2Z.id. apply Hodd. lia.
  - destruct Hp as (k & -> & Hk & _).
    set (r := round (Z.to_nat (Z.of_nat k))).
    assert (∀ ys, content ys (slot (Z.to_nat (Z.of_nat k))) (S (2 * r + 1)) = None) as Hnone.
    { intros ys. rewrite <- (content_even ys (slot (Z.to_nat (Z.of_nat k))) (r + 1)). f_equal. lia. }
    by etrans; [apply Hnone|symmetry; apply Hnone].
Qed.

Lemma point_ok_mono pushes D v pushes' D' v' p :
  point_ok pushes D v p → pushes `prefix_of` pushes' → (D <= D')%nat → view_le v v' →
  point_ok pushes' D' v' p.
Proof.
  intros Hp Hx HD Hv. pose proof (prefix_length _ _ Hx).
  assert (∀ k x, pushes !! k = Some x → pushes' !! k = Some x) as Hl
    by (intros; by eapply prefix_lookup_Some).
  destruct p; simpl in *; try done; destruct Hp as (k & -> & Hk); exists k; split; try done;
    try lia; try naive_solver lia.
  all: destruct Hk as [? Hk]; pose proof (Hv (Sequence (slot k))); split; lia.
Qed.

(** Another thread's store leaves a thread's slot alone. *)
Lemma mpmc_thread_ok_mono m m' pushes xs D D' p th :
  thread_ok m pushes D p th → memory_le m m' → (D <= length pushes)%nat → (D <= D')%nat →
  (∀ i n, held p = Some (i, n) → latest m' (Sequence i) = latest m (Sequence i) ∧
     latest m' (Storage i) = latest m (Storage i) ∧ newest m' (Storage i) = newest m (Storage i)) →
  thread_ok m' (pushes ++ xs) D' p th.
Proof.
  intros [H1 H2 H3 H4] Hle HDE HD Hsame. split; [by eapply thread_closed_mono|done| |].
  - eapply point_ok_mono; [done|by apply prefix_app_r|done|done].
  - intros i n Hh. destruct (Hsame i n Hh) as (-> & -> & ->).
    destruct (H4 i n Hh) as (? & ? & ? & ? & Hc). cbv zeta. split_and!; try done.
    by rewrite (owned_content pushes D (cur th) p i n).
Qed.

(** ** The frame of a step *)

Lemma slot_ok_mono m m' E D E' D' i :
  slot_ok m E D i → cells m' (Sequence i) = cells m (Sequence i) → (E <= E')%nat → (D <= D')%nat →
  slot_ok m' E' D' i.
Proof.
  intros [H1 H2 H3] Hc HE HD. unfold latest in *. split; unfold latest; rewrite Hc; [done|..].
  - intros r Hr. specialize (H2 r Hr). lia.
  - intros r Hr. specialize (H3 r Hr). lia.
Qed.

Lemma settled_content m E D i pushes xs :
  slot_ok m E D i → E = length pushes →
  content (pushes ++ xs) i (latest m (Sequence i)) = content pushes i (latest m (Sequence i)).
Proof.
  intros [_ H _] ->. destruct (parity (latest m (Sequence i))) as [[r Hr]|[r Hr]]; rewrite Hr.
  - by rewrite !content_even.
  - rewrite !content_odd. apply lookup_app_l, H. lia.
Qed.

(** Two threads that own one slot are one. *)
Lemma owners_same s t t' p p' th th' i n n' :
  inv s → threads s !! t = Some (p, th) → threads s !! t' = Some (p', th') →
  held p = Some (i, n) → held p' = Some (i, n') → t = t'.
Proof.
  intros Hi H1 H2 Hp Hp'.
  destruct (th_owner _ _ _ _ _ (inv_threads s Hi _ _ _ H1) _ _ Hp) as (Hn & _).
  destruct (th_owner _ _ _ _ _ (inv_threads s Hi _ _ _ H2) _ _ Hp') as (Hn' & _).
  eapply (inv_apart s Hi); [done|done|done|]. congruence.
Qed.

Lemma held_dec p i : {∃ n, held p = Some (i, n)} + {∀ n, held p ≠ Some (i, n)}.
Proof.
  destruct (held p) as [[j n]|]; [|by right]. destruct (decide (j = i)) as [->|Hne].
  - left. by exists n.
  - right. intros n' [= ? ?]. done.
Defined.

Lemma inv_frame s t p th p' th' m' tr' rt' xs :
  inv s → threads s !! t = Some (p, th) →
  memory_ok m' → memory_le (mem s) m' →
  counter m' EnqueuePos (length (pushed tr')) → counter m' DequeuePos (length (popped tr')) →
  pushed tr' = pushed (trace s) ++ xs → (length (popped (trace s)) <= length (popped tr'))%nat →
  (∃ q, fifo_run cap tr' q) →
  (∀ i, (∀ n, held p ≠ Some (i, n)) → cells m' (Sequence i) = cells (mem s) (Sequence i) ∧
     cells m' (Storage i) = cells (mem s) (Storage i)) →
  (∀ i n, (i < cap)%nat → held p = Some (i, n) ∨ held p' = Some (i, n) →
     slot_ok m' (length (pushed tr')) (length (popped tr')) i ∧
     ((∃ n', held p' = Some (i, n')) ∨ settled m' (pushed tr') i)) →
  (∀ t' q thq k, t' ≠ t → threads s !! t' = Some (q, thq) → held p' = Some k → held q ≠ Some k) →
  thread_ok m' (pushed tr') (length (popped tr')) p' th' →
  returned_ok (pushed tr') (length (popped tr')) (<[t := (p', th')]> (threads s)) rt' →
  inv {| mem := m'; threads := <[t := (p', th')]> (threads s); trace := tr'; returned := rt' |}.
Proof.
  intros Hi Ht Hm Hle HE HD Hpu Hpo Hrun Hoth Hown Hnew Hok Hret.
  assert (t < length (threads s))%nat as Hlt by by eapply lookup_lt_Some.
  pose proof (mpmc_inv_counts s Hi) as Hcnt.
  split; simpl; try done.
  - intros i Hic.
    assert ((∃ n, held p = Some (i, n) ∨ held p' = Some (i, n)) ∨
      (∀ n, held p ≠ Some (i, n)) ∧ (∀ n, held p' ≠ Some (i, n))) as [[n Hn]|[Hno _]]
      by (destruct (held_dec p i) as [[]|]; destruct (held_dec p' i) as [[]|]; eauto).
    { destruct (Hown i n Hic Hn) as [Hs [[n' Hn']|Hset]]; (split; [done|]); [left|by right].
      exists t, p', th', n'. by rewrite list_lookup_insert_eq. }
    destruct (Hoth i) as [Hsq Hst]; [done|].
    destruct (inv_slots s Hi i Hic) as [Hs Hhold]. split.
    { eapply slot_ok_mono; [done|done|rewrite Hpu, length_app; lia|done]. }
    destruct Hhold as [(t0 & p0 & th0 & n0 & H0 & Hh0)|[Hl Hn]]; [left|right].
    + exists t0, p0, th0, n0. split; [|done].
      rewrite list_lookup_insert_ne; [done|]. intros <-. simplify_eq. by eapply Hno.
    + unfold settled, latest, newest in *. rewrite Hst, Hsq, Hpu. split; [done|].
      rewrite Hn. do 2 f_equal. symmetry. by eapply settled_content.
  - intros t0 q thq Hq. apply list_lookup_insert_Some in Hq as [(<- & [= <- <-] & _)|[Hne Hq]]; [done|].
    rewrite Hpu. eapply mpmc_thread_ok_mono; [by eapply (inv_threads s Hi)|done|lia|done|].
    intros i n Hqn. destruct (Hoth i) as [Hsq Hst].
    { intros n' Hn'. apply Hne. exact (owners_same s t t0 p q th thq i n' n Hi Ht Hq Hn' Hqn). }
    unfold latest, newest. by rewrite Hsq, Hst.
  - intros t1 t2 q1 q2 th1 th2 k H1 H2 Hk1 Hk2.
    apply list_lookup_insert_Some in H1 as [(<- & [= <- <-] & _)|[Hne1 H1]];
      apply list_lookup_insert_Some in H2 as [(<- & [= <- <-] & _)|[Hne2 H2]]; try done.
    + by destruct (Hnew t2 q2 th2 k).
    + by destruct (Hnew t1 q1 th1 k).
    + by eapply (inv_apart s Hi).
Qed.

(** ** Loads *)

Lemma good_agree v w :
  good v → (∀ i, w (Sequence i) = v (Sequence i) ∧ w (Storage i) = v (Storage i)) → good w.
Proof. intros H1 E i. destruct (E i) as [-> ->]. apply H1. Qed.

Lemma load_counter m l n k th pos th' :
  (∀ i, l ≠ Sequence i) → memory_ok m → counter m l k → thread_closed m th → good (cur th) →
  load Relaxed l n m th = Some (Word pos, th') →
  position pos k ∧ thread_closed m th' ∧ good (cur th').
Proof.
  intros Hl Hm [Hlen Hc] Hth Hg Hload. pose proof (load_closed _ _ _ _ _ _ _ Hm Hth Hload).
  apply load_inv in Hload as (msg & Hn & Hv & _ & ->). destruct (Hc _ _ Hn) as [Hw _].
  split_and!; [|done|].
  - exists n. apply lookup_lt_Some in Hn. split; [congruence|lia].
  - apply (mpmc_good_ext (join (cur th) (at_ l n))); [by apply mpmc_good_at|]. intros l'.
    by rewrite see_relaxed.
Qed.

Lemma sequence_at_slot k : sequence_at (Z.of_nat k) = Sequence (slot k).
Proof. done. Qed.

Lemma load_sequence m E D n k th sq th' :
  memory_ok m → slot_ok m E D (slot k) → thread_closed m th → good (cur th) →
  load Acquire (Sequence (slot k)) n m th = Some (Word sq, th') →
  sq = sequence_value (slot k) n ∧ (cur th (Sequence (slot k)) <= n <= latest m (Sequence (slot k)))%nat ∧
  (n <= cur th' (Sequence (slot k)))%nat ∧ thread_closed m th' ∧ good (cur th').
Proof.
  intros Hm Hs Hth Hg Hload. pose proof (load_closed _ _ _ _ _ _ _ Hm Hth Hload).
  apply load_inv in Hload as (msg & Hn & Hv & Hle & ->).
  destruct (sq_messages _ _ _ _ Hs _ _ Hn) as [Hw Hgm].
  destruct (ok_carries _ Hm _ _ _ Hn) as [_ Hself]. split_and!; [congruence|done| | |done|].
  - apply lookup_lt_Some in Hn. unfold latest. lia.
  - erewrite (see_acquire Acquire _ n msg th) by done. lia.
  - apply (mpmc_good_ext (join (cur th) (carries msg))); [by apply mpmc_good_join|]. intros l'.
    by apply (see_acquire Acquire (Sequence (slot k)) n msg th).
Qed.

(** Sequence numbers stay within the bound of the positions. *)
Lemma sequence_bound m E D i n :
  slot_ok m E D i → (i < cap)%nat → (D <= E)%nat → (n <= latest m (Sequence i))%nat →
  0 <= sequence_value i n <= Z.of_nat E + Capacity.
Proof.
  intros [_ H1 H2] Hi HD Hn. pose proof (ring_size_pos Capacity) as [_ Hc].
  destruct (parity n) as [[[|r] ->]|[r ->]].
  - rewrite (sequence_even i 0). unfold ticket. lia.
  - rewrite sequence_even. specialize (H2 r ltac:(lia)). unfold ticket in *. lia.
  - rewrite sequence_odd. specialize (H1 r ltac:(lia)). lia.
Qed.

Definition within_bound (s : state) : Prop :=
  Z.of_nat (length (pushed (trace s))) + Capacity < 2 ^ 63.

(** The comparison of a sequence number with a position. *)
Lemma sequence_diff s k n j :
  inv s → within_bound s → (n <= latest (mem s) (Sequence (slot k)))%nat →
  (j <= S (length (pushed (trace s))))%nat →
  signed_diff (sequence_value (slot k) n) (Z.of_nat j) = sequence_value (slot k) n - Z.of_nat j.
Proof.
  intros Hi Hb Hn Hj. pose proof (mpmc_inv_counts s Hi).
  destruct (inv_slots s Hi (slot k)) as [Hs _]; [apply (ring_slot_lt Capacity)|].
  pose proof (sequence_bound _ _ _ _ n Hs (ring_slot_lt Capacity k) ltac:(lia) Hn).
  unfold within_bound in Hb. apply signed_diff_exact; lia.
Qed.

(** ** Steps that store nothing *)

Lemma popping_same ths t p th p' th' k :
  ths !! t = Some (p, th) → held p' = held p →
  popping (<[t := (p', th')]> ths) k ↔ popping ths k.
Proof.
  intros Ht Hh. assert (t < length ths)%nat by by eapply lookup_lt_Some. split.
  - intros (t0 & p0 & th0 & H0 & Hk).
    apply list_lookup_insert_Some in H0 as [(<- & [= <- <-] & _)|[_ H0]].
    + exists t, p, th. by rewrite <- Hh.
    + by exists t0, p0, th0.
  - intros (t0 & p0 & th0 & H0 & Hk). destruct (decide (t0 = t)) as [->|Hne].
    + simplify_eq. exists t, p', th'. by rewrite list_lookup_insert_eq, Hh by done.
    + exists t0, p0, th0. by rewrite list_lookup_insert_ne by done.
Qed.

Lemma returned_same pushes D ths rt t p th p' th' :
  returned_ok pushes D ths rt → ths !! t = Some (p, th) → held p' = held p →
  returned_ok pushes D (<[t := (p', th')]> ths) rt.
Proof.
  intros [H1 H2 H3] Ht Hh. split; [done|..].
  - intros k x Hk. rewrite (popping_same _ _ _ _ _ _ _ Ht Hh). by apply H2.
  - intros k Hk. rewrite (popping_same _ _ _ _ _ _ _ Ht Hh). by apply H3.
Qed.

Lemma mpmc_inv_local s t p th p' th' :
  inv s → threads s !! t = Some (p, th) → held p' = held p →
  thread_ok (mem s) (pushed (trace s)) (length (popped (trace s))) p' th' →
  inv {| mem := mem s; threads := <[t := (p', th')]> (threads s); trace := trace s;
         returned := returned s |}.
Proof.
  intros Hi Ht Hh Hok. apply (inv_frame s t p th p' th' _ _ _ []); try apply Hi; try done.
  - by intros l.
  - by rewrite app_nil_r.
  - intros i n Hic. rewrite Hh. intros Hn. split; [by apply (inv_slots s Hi)|]. left.
    exists n. by destruct Hn.
  - intros t' q thq k Hne Hq Hk Hk'. apply Hne. rewrite Hh in Hk.
    symmetry. by eapply (inv_apart s Hi).
  - eapply returned_same; [apply Hi|done|done].
Qed.

(** A thread that owns nothing has only to know where it is. *)
Lemma thread_ok_idle m pushes D p th :
  thread_closed m th → good (cur th) → point_ok pushes D (cur th) p → held p = None →
  thread_ok m pushes D p th.
Proof. intros. split; [done..|]. intros i n Hh. congruence. Qed.

(** ** Claiming a ticket *)

(** A slot nobody owns with the key of a ticket is settled. *)
Lemma owned_key s t p th i n :
  inv s → threads s !! t = Some (p, th) → held p = Some (i, n) →
  ∃ k, i = slot k ∧
    ((n = 2 * round k ∧ k < length (pushed (trace s)))%nat ∨
     (n = 2 * round k + 1 ∧ k < length (popped (trace s)))%nat).
Proof.
  intros Hi Ht Hh. pose proof (th_point _ _ _ _ _ (inv_threads s Hi _ _ _ Ht)) as Hp.
  destruct p; cbn [held point_ok] in *; try done; injection Hh as <- <-.
  - destruct Hp as (k & -> & Hx). exists k. rewrite Nat2Z.id. apply lookup_lt_Some in Hx. auto.
  - destruct Hp as (k & -> & Hx). exists k. rewrite Nat2Z.id. apply lookup_lt_Some in Hx. auto.
  - destruct Hp as (k & -> & Hx). exists k. rewrite Nat2Z.id. auto.
  - destruct Hp as (k & -> & Hx & _). exists k. rewrite Nat2Z.id. auto.
Qed.

(** The slot of the next ticket, once its sequence has been seen. *)
Lemma free_push_slot s :
  inv s → let E := length (pushed (trace s)) in
  (2 * round E <= latest (mem s) (Sequence (slot E)))%nat →
  latest (mem s) (Sequence (slot E)) = (2 * round E)%nat ∧
  (E < length (popped (trace s)) + cap)%nat ∧ settled (mem s) (pushed (trace s)) (slot E) ∧
  (∀ t p th, threads s !! t = Some (p, th) → held p ≠ Some (slot E, 2 * round E)%nat).
Proof.
  intros Hi E Hge. destruct (inv_slots s Hi (slot E) (ring_slot_lt Capacity E)) as [Hs Hhold].
  assert (latest (mem s) (Sequence (slot E)) = (2 * round E)%nat) as Hl.
  { destruct (Nat.le_gt_cases (2 * round E + 1) (latest (mem s) (Sequence (slot E)))) as [Hgt|]; [|lia].
    apply (sq_pushed _ _ _ _ Hs) in Hgt. rewrite ticket_slot in Hgt. unfold E in Hgt. lia. }
  assert (∀ t p th n, threads s !! t = Some (p, th) → held p = Some (slot E, n) → False) as Hno.
  { intros t p th n Ht Hh.
    destruct (th_owner _ _ _ _ _ (inv_threads s Hi _ _ _ Ht) _ _ Hh) as (Hn & _).
    destruct (owned_key s t p th _ n Hi Ht Hh) as (k & Hk & [[-> Hlt]|[-> Hlt]]); [|lia].
    assert (k = E) by (apply (key_inj k E 0); [done|lia]). unfold E in *. lia. }
  split_and!; [done| | |].
  - destruct (round E) as [|r] eqn:Hr.
    + pose proof (slot_of_turn Capacity E) as HE. rewrite Hr in HE.
      pose proof (ring_slot_lt Capacity E). lia.
    + pose proof (sq_popped _ _ _ _ Hs r ltac:(lia)) as Hpop.
      pose proof (ticket_slot E) as HE. rewrite Hr in HE. unfold ticket in *. lia.
  - destruct Hhold as [(t & p & th & n & Ht & Hh)|]; [|done]. by destruct (Hno t p th n).
  - intros t p th Ht Hh. by eapply Hno.
Qed.

Lemma ready_pop_slot s :
  inv s → let D := length (popped (trace s)) in
  (2 * round D + 1 <= latest (mem s) (Sequence (slot D)))%nat →
  latest (mem s) (Sequence (slot D)) = (2 * round D + 1)%nat ∧
  (D < length (pushed (trace s)))%nat ∧ settled (mem s) (pushed (trace s)) (slot D) ∧
  (∀ t p th, threads s !! t = Some (p, th) → held p ≠ Some (slot D, 2 * round D + 1)%nat).
Proof.
  intros Hi D Hge. destruct (inv_slots s Hi (slot D) (ring_slot_lt Capacity D)) as [Hs Hhold].
  assert (latest (mem s) (Sequence (slot D)) = (2 * round D + 1)%nat) as Hl.
  { destruct (Nat.le_gt_cases (2 * round D + 2) (latest (mem s) (Sequence (slot D)))) as [Hgt|]; [|lia].
    apply (sq_popped _ _ _ _ Hs) in Hgt. rewrite ticket_slot in Hgt. unfold D in Hgt. lia. }
  assert (∀ t p th n, threads s !! t = Some (p, th) → held p = Some (slot D, n) → False) as Hno.
  { intros t p th n Ht Hh.
    destruct (th_owner _ _ _ _ _ (inv_threads s Hi _ _ _ Ht) _ _ Hh) as (Hn & _).
    destruct (owned_key s t p th _ n Hi Ht Hh) as (k & Hk & [[-> Hlt]|[-> Hlt]]); [lia|].
    assert (k = D) by (apply (key_inj k D 0); [done|lia]). unfold D in *. lia. }
  split_and!; [done| | |].
  - pose proof (sq_pushed _ _ _ _ Hs (round D) ltac:(lia)) as Hpu. by rewrite ticket_slot in Hpu.
  - destruct Hhold as [(t & p & th & n & Ht & Hh)|]; [|done]. by destruct (Hno t p th n).
  - intros t p th Ht Hh. by eapply Hno.
Qed.

(** The exchange of a counter. *)
Lemma exchange_counter m l k w th u m' th' :
  memory_ok m → counter m l k → thread_closed m th →
  exchange Relaxed l (Word w) m th = Some (Word u, m', th') →
  u = Z.of_nat k ∧ memory_ok m' ∧ memory_le m m' ∧ thread_closed m' th' ∧
  (∀ l', l' ≠ l → cells m' l' = cells m l' ∧ cur th' l' = cur th l') ∧
  (w = Z.of_nat (S k) → counter m' l (S k)).
Proof.
  intros Hm [Hlen Hc] Hth He. destruct (exchange_ok _ _ _ _ _ _ _ _ Hm Hth He) as (? & ? & ?).
  apply exchange_inv in He as (msg & Hn & Hv & -> & ->); [|done].
  assert (latest m l = k) as Hk by (unfold latest; lia). rewrite Hk in Hn.
  destruct (Hc _ _ Hn) as [Hw _]. split_and!; try done; [congruence|..].
  - intros l' Hl'. split; [by rewrite cells_push_other|].
    simpl. unfold join, bot. rewrite !at_other by done. lia.
  - intros ->. unfold counter. rewrite cells_push_same, length_app. split; [simpl; lia|].
    intros j msg' [Hj|[Hj Hmsg]]%lookup_app_Some; [by apply Hc|].
    apply list_lookup_singleton_Some in Hmsg as [Hj' <-]. by replace j with (S k) by lia.
Qed.

Lemma counter_frame m m' l k : cells m' l = cells m l → counter m l k → counter m' l k.
Proof. unfold counter. by intros ->. Qed.

(** A thread that claims a ticket to push is not popping; one that claims ticket [k] to
    pop is popping it. *)
Lemma popping_pushes s t x k th ph j :
  threads s !! t = Some (PushCas x (Z.of_nat k), th) →
  popping (<[t := (PushConstruct x (Z.of_nat k), ph)]> (threads s)) j ↔ popping (threads s) j.
Proof.
  intros Ht. split.
  - intros (t0 & p0 & th0 & H0 & Hh0).
    apply list_lookup_insert_Some in H0 as [(<- & [= <- <-] & _)|[_ H0]]; [|by exists t0, p0, th0].
    cbn [held] in Hh0. injection Hh0 as _ Hh0. lia.
  - intros (t0 & p0 & th0 & H0 & Hh0). exists t0, p0, th0.
    rewrite list_lookup_insert_ne; [done|]. intros <-. by simplify_eq.
Qed.

Lemma popping_pops s t k th ph j :
  threads s !! t = Some (PopCas (Z.of_nat k), th) →
  popping (<[t := (PopTake (Z.of_nat k), ph)]> (threads s)) j ↔ j = k ∨ popping (threads s) j.
Proof.
  intros Ht. assert (t < length (threads s))%nat by by eapply lookup_lt_Some. split.
  - intros (t0 & p0 & th0 & H0 & Hh0).
    apply list_lookup_insert_Some in H0 as [(<- & [= <- <-] & _)|[_ H0]]; [|right; by exists t0, p0, th0].
    left. cbn [held] in Hh0. rewrite Nat2Z.id in Hh0. injection Hh0 as Hs Hr.
    symmetry. apply (key_inj k j 0); [done|lia].
  - intros [->|(t0 & p0 & th0 & H0 & Hh0)].
    + exists t, (PopTake (Z.of_nat k)), ph. rewrite list_lookup_insert_eq by done.
      cbn [held]. by rewrite Nat2Z.id.
    + exists t0, p0, th0. rewrite list_lookup_insert_ne; [done|]. intros <-. by simplify_eq.
Qed.

Lemma mpmc_inv_push_cas s t th x pos m' th' :
  inv s → within_bound s → threads s !! t = Some (PushCas x pos, th) →
  exchange Relaxed EnqueuePos (Word (pos +w 1)) (mem s) th = Some (Word pos, m', th') →
  inv {| mem := m'; threads := <[t := (PushConstruct x pos, th')]> (threads s);
         trace := trace s ++ [EvPush x]; returned := returned s |}.
Proof.
  intros Hi Hb Ht He. pose proof (inv_threads s Hi _ _ _ Ht) as [H1 H2 (k & -> & Hk & Hseq) _].
  destruct (exchange_counter _ _ _ _ _ _ _ _ (inv_memory s Hi) (inv_enqueue s Hi) H1 He)
    as (HE & Hm & Hle & Hth & Hoth & Hcnt).
  apply Nat2Z.inj in HE as ->. set (E := length (pushed (trace s))) in *.
  pose proof (proj1 H1 (Sequence (slot E))) as Hlat.
  pose proof (free_push_slot s Hi) as Hfree. cbv zeta in Hfree. fold E in Hfree.
  destruct Hfree as (Hl & Hroom & [Hst Hnew] & Hno); [lia|].
  assert (∀ i, cells m' (Sequence i) = cells (mem s) (Sequence i) ∧
    cells m' (Storage i) = cells (mem s) (Storage i)) as Hcells by (intros i; split; by apply Hoth).
  pose proof (λ k' ph, popping_pushes s t x E th ph k' Ht) as Hpop.
  apply (inv_frame s t (PushCas x (Z.of_nat E)) th _ _ _ _ _ [x]); rewrite ?pushed_push, ?popped_push; try done.
  - rewrite length_app, Nat.add_1_r. apply Hcnt. unfold within_bound in Hb. fold E in Hb. word_lia.
  - eapply counter_frame; [by apply Hoth|apply Hi].
  - destruct (inv_run s Hi) as [q Hq]. exists (q ++ [x]). eapply run_snoc; [done|]. constructor.
    apply fifo_run_contents in Hq as [Hq _]. apply (f_equal length) in Hq.
    rewrite length_app in Hq. fold E in Hq. lia.
  - intros i n Hic [|Hn]; [done|]. split; [|left; by exists n].
    eapply slot_ok_mono; [by apply (inv_slots s Hi)|by apply Hcells|rewrite length_app; lia|done].
  - intros t' q thq key Hne Hq Hkey Hkey'. cbn [held] in Hkey. rewrite Nat2Z.id in Hkey.
    injection Hkey as <-. by eapply Hno.
  - split; [done|..].
    + eapply good_agree; [exact H2|]. intros i. split; by apply Hoth.
    + exists E. split; [done|]. unfold E. by apply list_lookup_middle.
    + intros i n Hh. cbn [held publishing] in *. rewrite Nat2Z.id in Hh. injection Hh as <- <-.
      destruct (Hcells (slot E)) as [Hc1 Hc2]. unfold latest, newest in *. cbv zeta.
      rewrite Hc1, Hc2. destruct (Hoth (Sequence (slot E))) as [_ ->]; [done|].
      destruct (Hoth (Storage (slot E))) as [_ ->]; [done|]. specialize (H2 (slot E)).
      split_and!; [lia|lia|lia|lia|].
      rewrite Hnew, Hl, content_even. do 2 f_equal. symmetry. apply content_even.
  - destruct (inv_returned s Hi) as [R1 R2 R3]. split; [done|..].
    + intros k' y Hy. rewrite Hpop. destruct (R2 k' y Hy) as (? & ? & ?). split_and!; try done.
      by apply lookup_app_l_Some.
    + intros k' Hk'. rewrite Hpop. by apply R3.
Qed.

Lemma mpmc_inv_pop_cas s t th pos m' th' :
  inv s → within_bound s → threads s !! t = Some (PopCas pos, th) →
  exchange Relaxed DequeuePos (Word (pos +w 1)) (mem s) th = Some (Word pos, m', th') →
  inv {| mem := m'; threads := <[t := (PopTake pos, th')]> (threads s);
         trace := trace s ++ from_option (λ x, [EvPop x]) [] (pushed_at (trace s) pos);
         returned := returned s |}.
Proof.
  intros Hi Hb Ht He. pose proof (inv_threads s Hi _ _ _ Ht) as [H1 H2 (k & -> & Hk & Hseq) _].
  destruct (exchange_counter _ _ _ _ _ _ _ _ (inv_memory s Hi) (inv_dequeue s Hi) H1 He)
    as (HD & Hm & Hle & Hth & Hoth & Hcnt).
  apply Nat2Z.inj in HD as ->. set (D := length (popped (trace s))) in *.
  pose proof (proj1 H1 (Sequence (slot D))) as Hlat.
  pose proof (ready_pop_slot s Hi) as Hready. cbv zeta in Hready. fold D in Hready.
  destruct Hready as (Hl & Hroom & [Hst Hnew] & Hno); [lia|].
  destruct (lookup_lt_is_Some_2 (pushed (trace s)) D Hroom) as [y Hy].
  unfold pushed_at. rewrite Nat2Z.id, Hy. cbn [from_option].
  assert (∀ i, cells m' (Sequence i) = cells (mem s) (Sequence i) ∧
    cells m' (Storage i) = cells (mem s) (Storage i)) as Hcells by (intros i; split; by apply Hoth).
  pose proof (λ k' ph, popping_pops s t D th ph k' Ht) as Hpop.
  apply (inv_frame s t (PopCas (Z.of_nat D)) th _ _ _ _ _ []); rewrite ?pushed_pop, ?popped_pop; try done.
  - eapply counter_frame; [by apply Hoth|apply Hi].
  - rewrite length_app, Nat.add_1_r. apply Hcnt. unfold within_bound in Hb. fold D. word_lia.
  - by rewrite app_nil_r.
  - rewrite length_app. lia.
  - destruct (inv_run s Hi) as [q Hq]. pose proof Hq as [Hx _]%fifo_run_contents.
    rewrite Hx, lookup_app_r, Nat.sub_diag in Hy by done. destruct q as [|z q]; [done|].
    injection Hy as ->. exists q. eapply run_snoc; [done|constructor].
  - intros i n Hic [|Hn]; [done|]. split; [|left; by exists n].
    eapply slot_ok_mono; [by apply (inv_slots s Hi)|by apply Hcells|done|rewrite length_app; lia].
  - intros t' q thq key Hne Hq Hkey Hkey'. cbn [held] in Hkey. rewrite Nat2Z.id in Hkey.
    injection Hkey as <-. by eapply Hno.
  - split; [done|..].
    + eapply good_agree; [exact H2|]. intros i. split; by apply Hoth.
    + exists D. rewrite length_app. split; [done|]. fold D. simpl. lia.
    + intros i n Hh. cbn [held publishing] in *. rewrite Nat2Z.id in Hh. injection Hh as <- <-.
      destruct (Hcells (slot D)) as [Hc1 Hc2]. unfold latest, newest in *. cbv zeta.
      rewrite Hc1, Hc2. destruct (Hoth (Sequence (slot D))) as [_ ->]; [done|].
      destruct (Hoth (Storage (slot D))) as [_ ->]; [done|]. specialize (H2 (slot D)).
      split_and!; [lia|lia|lia|lia|]. by rewrite Hnew, Hl.
  - destruct (inv_returned s Hi) as [R1 R2 R3]. rewrite length_app. simpl. split; [done|..].
    + intros k' z Hz. rewrite Hpop. destruct (R2 k' z Hz) as (Hkd & ? & ?). fold D in Hkd.
      split_and!; [lia|done|]. intros [->|]; [lia|done].
    + intros k' Hk'. rewrite Hpop. destruct (decide (k' = D)) as [->|]; [by right; left|].
      destruct (R3 k') as [|]; [fold D; lia|by left|by right; right].
Qed.

(** ** Working in an owned slot *)

Lemma owner_slot s t p th i n :
  inv s → threads s !! t = Some (p, th) → held p = Some (i, n) →
  (i < cap)%nat ∧ slot_ok (mem s) (length (pushed (trace s))) (length (popped (trace s))) i.
Proof.
  intros Hi Ht Hh. destruct (owned_key s t p th i n Hi Ht Hh) as (k & -> & _).
  split; [apply (ring_slot_lt Capacity)|]. apply (inv_slots s Hi), (ring_slot_lt Capacity).
Qed.

(** The owner constructs or moves out. *)
Lemma inv_storage s t p p' th i n v m' th' :
  inv s → threads s !! t = Some (p, th) → held p = Some (i, n) → held p' = held p →
  publishing p = false → publishing p' = true →
  plain_write (Storage i) v (mem s) th = Some (m', th') → v = Object (content (pushed (trace s)) i (S n)) →
  point_ok (pushed (trace s)) (length (popped (trace s))) (cur th') p' →
  inv {| mem := m'; threads := <[t := (p', th')]> (threads s); trace := trace s; returned := returned s |}.
Proof.
  intros Hi Ht Hh Hh' Hp Hp' Hw -> Hpt. pose proof (inv_threads s Hi _ _ _ Ht) as [H1 H2 _ H4].
  destruct (H4 i n Hh) as (Hl & Hle & Hl2 & Hle2 & Hnew). rewrite Hp in *.
  destruct (store_ok _ _ _ _ _ _ _ (inv_memory s Hi) H1 Hw) as (Hm & Hth & Hmle).
  apply store_inv in Hw as (_ & -> & ->). pose proof (ok_inhabited _ (inv_memory s Hi) (Storage i)).
  destruct (owner_slot s t p th i n Hi Ht Hh) as [Hic Hs].
  apply (inv_frame s t p th _ _ _ _ _ []); try done.
  - eapply counter_frame; [by apply cells_push_other|apply Hi].
  - eapply counter_frame; [by apply cells_push_other|apply Hi].
  - by rewrite app_nil_r.
  - apply Hi.
  - intros j Hj. assert (j ≠ i) by (intros ->; by destruct (Hj n)).
    split; apply cells_push_other; congruence.
  - intros j n' Hj Hn'. rewrite Hh' in Hn'. assert (j = i) as -> by (destruct Hn'; congruence).
    split; [|left; exists n; congruence].
    eapply slot_ok_mono; [done|by apply cells_push_other|done|done].
  - intros t' q thq key Hne Hq Hkey Hkey'. apply Hne. rewrite Hh' in Hkey.
    symmetry. by eapply (inv_apart s Hi).
  - split; [done| |done|].
    + by apply mpmc_good_at.
    + intros j n' Hj. assert (j = i ∧ n' = n) as [-> ->] by (rewrite Hh', Hh in Hj; split; congruence).
      rewrite Hp'. cbv zeta. rewrite latest_push_other, latest_push_same by done.
      rewrite newest_push_same. simpl. unfold join. rewrite at_same, at_other by done.
      unfold latest in *. split_and!; lia || done.
  - eapply returned_same; [apply Hi|done|done].
Qed.

(** The owner stores the next sequence number and leaves the slot. *)
Lemma inv_publish s t p th i n v m' th' rt :
  inv s → threads s !! t = Some (p, th) → held p = Some (i, n) → publishing p = true →
  store Release (Sequence i) (Word v) (mem s) th = Some (m', th') → v = sequence_value i (S n) →
  (∀ r, (2 * r = n)%nat → (ticket i r < length (pushed (trace s)))%nat) →
  (∀ r, (2 * r + 1 = n)%nat → (ticket i r < length (popped (trace s)))%nat) →
  returned_ok (pushed (trace s)) (length (popped (trace s))) (<[t := (Idle, th')]> (threads s)) rt →
  inv {| mem := m'; threads := <[t := (Idle, th')]> (threads s); trace := trace s; returned := rt |}.
Proof.
  intros Hi Ht Hh Hp Hw -> Hpu Hpo Hret. pose proof (inv_threads s Hi _ _ _ Ht) as [H1 H2 _ H4].
  destruct (H4 i n Hh) as (Hl & Hle & Hl2 & Hle2 & Hnew). rewrite Hp in *.
  destruct (store_ok _ _ _ _ _ _ _ (inv_memory s Hi) H1 Hw) as (Hm & Hth & Hmle).
  apply store_inv in Hw as (_ & -> & ->). pose proof (ok_inhabited _ (inv_memory s Hi) (Sequence i)).
  destruct (owner_slot s t p th i n Hi Ht Hh) as [Hic [S1 S2 S3]].
  set (th' := note (Sequence i) (length (cells (mem s) (Sequence i))) th) in *.
  assert (length (cells (mem s) (Sequence i)) = S n) as Hlen by (unfold latest in Hl; lia).
  assert (good (cur th')) as Hg.
  { intros j. unfold th'. simpl. unfold join. rewrite Hlen.
    rewrite (at_other _ _ (Storage j)) by done. unfold at_. specialize (H2 j).
    case_decide; simplify_eq; lia. }
  assert (S n <= cur th' (Sequence i))%nat as Hcur.
  { unfold th'. simpl. unfold join. rewrite at_same. lia. }
  clearbody th'.
  apply (inv_frame s t p th _ _ _ _ _ []); try done.
  - eapply counter_frame; [by apply cells_push_other|apply Hi].
  - eapply counter_frame; [by apply cells_push_other|apply Hi].
  - by rewrite app_nil_r.
  - apply Hi.
  - intros j Hj. assert (j ≠ i) by (intros ->; by destruct (Hj n)).
    split; apply cells_push_other; congruence.
  - intros j n' Hj [Hn'|]; [|done]. assert (j = i) as -> by congruence. split.
    + split; rewrite ?cells_push_same, ?latest_push_same, ?Hl by done.
      * intros k msg [Hk|[Hk Hmsg]]%lookup_app_Some; [by apply S1|].
        apply list_lookup_singleton_Some in Hmsg as [Hk' <-]. replace k with (S n) by lia.
        split; [done|]. simpl. eapply mpmc_good_ext; [exact Hg|]. intros l. rewrite Hlen.
        unfold handed_on, join, at_. simpl. case_decide; subst; lia.
      * intros r Hr. destruct (decide (2 * r = n)%nat); [by apply Hpu|]. apply S2. lia.
      * intros r Hr. destruct (decide (2 * r + 1 = n)%nat); [by apply Hpo|]. apply S3. lia.
    + right. unfold settled. rewrite latest_push_same by done.
      rewrite latest_push_other, newest_push_other by done. by rewrite Hl, Hl2, Hnew.
Qed.

(** ** Preservation *)

(** A load of a position counter or of a sequence, as a step. *)
Lemma inv_load_counter s t p th l b n pos th' p' :
  inv s → threads s !! t = Some (p, th) → held p = None → held p' = None →
  (∀ i, l ≠ Sequence i) → counter (mem s) l b → load Relaxed l n (mem s) th = Some (Word pos, th') →
  (position pos b → point_ok (pushed (trace s)) (length (popped (trace s))) (cur th') p') →
  inv {| mem := mem s; threads := <[t := (p', th')]> (threads s); trace := trace s;
         returned := returned s |}.
Proof.
  intros Hi Ht Hp Hp' Hl Hc Hload Hpt. pose proof (inv_threads s Hi _ _ _ Ht) as [H1 H2 _ _].
  destruct (load_counter _ _ _ _ _ _ _ Hl (inv_memory s Hi) Hc H1 H2 Hload) as (? & ? & ?).
  eapply mpmc_inv_local; [done|done|congruence|]. apply thread_ok_idle; auto.
Qed.

Lemma inv_load_sequence s t p th k n sq th' p' :
  inv s → threads s !! t = Some (p, th) → held p = None → held p' = None →
  load Acquire (Sequence (slot k)) n (mem s) th = Some (Word sq, th') →
  (sq = sequence_value (slot k) n → (n <= cur th' (Sequence (slot k)))%nat →
   (n <= latest (mem s) (Sequence (slot k)))%nat →
   point_ok (pushed (trace s)) (length (popped (trace s))) (cur th') p') →
  inv {| mem := mem s; threads := <[t := (p', th')]> (threads s); trace := trace s;
         returned := returned s |}.
Proof.
  intros Hi Ht Hp Hp' Hload Hpt. pose proof (inv_threads s Hi _ _ _ Ht) as [H1 H2 _ _].
  destruct (inv_slots s Hi (slot k) (ring_slot_lt Capacity k)) as [Hs _].
  destruct (load_sequence _ _ _ _ _ _ _ _ (inv_memory s Hi) Hs H1 H2 Hload) as (? & ? & ? & ? & ?).
  eapply mpmc_inv_local; [done|done|congruence|]. apply thread_ok_idle; try done. apply Hpt; naive_solver.
Qed.

(** A thread that leaves without a pop ticket changes nothing of what is returned. *)
Lemma returned_frame pushes D ths rt t p th th' :
  returned_ok pushes D ths rt → ths !! t = Some (p, th) →
  (∀ k, held p ≠ Some (slot k, 2 * round k + 1)%nat) →
  returned_ok pushes D (<[t := (Idle, th')]> ths) rt.
Proof.
  intros [R1 R2 R3] Ht Hno.
  assert (∀ k, popping (<[t := (Idle, th')]> ths) k ↔ popping ths k) as Hpop.
  { intros k. split; intros (t0 & p0 & th0 & H0 & Hh0).
    - apply list_lookup_insert_Some in H0 as [(<- & [= <- <-] & _)|[_ H0]]; [done|]. by exists t0, p0, th0.
    - exists t0, p0, th0. rewrite list_lookup_insert_ne; [done|]. intros <-. simplify_eq. by eapply Hno. }
  split; [done|..].
  - intros k x Hk. rewrite Hpop. by apply R2.
  - intros k Hk. rewrite Hpop. by apply R3.
Qed.

(** A claimed pop ticket is returned. *)
Lemma returned_pop s t th k x th' :
  inv s → threads s !! t = Some (PopPublish (Z.of_nat k) x, th) →
  returned_ok (pushed (trace s)) (length (popped (trace s))) (<[t := (Idle, th')]> (threads s))
    (returned s ++ [(k, x)]).
Proof.
  intros Hi Ht. pose proof (th_point _ _ _ _ _ (inv_threads s Hi _ _ _ Ht)) as (k' & Hk & HkD & Hx).
  apply Nat2Z.inj in Hk as <-. destruct (inv_returned s Hi) as [R1 R2 R3].
  assert (held (PopPublish (Z.of_nat k) x) = Some (slot k, 2 * round k + 1)%nat) as Hh
    by (cbn [held]; by rewrite Nat2Z.id).
  assert (popping (threads s) k) as Hpk by by exists t, (PopPublish (Z.of_nat k) x), th.
  assert (∀ j, popping (<[t := (Idle, th')]> (threads s)) j ↔ popping (threads s) j ∧ j ≠ k) as Hpop.
  { intros j. split.
    - intros (t0 & p0 & th0 & H0 & Hh0).
      apply list_lookup_insert_Some in H0 as [(<- & [= <- <-] & _)|[Hne H0]]; [done|].
      split; [by exists t0, p0, th0|]. intros ->. apply Hne. by eapply (inv_apart s Hi).
    - intros [(t0 & p0 & th0 & H0 & Hh0) Hne]. exists t0, p0, th0.
      rewrite list_lookup_insert_ne; [done|]. intros <-. apply Hne.
      rewrite Ht in H0. injection H0 as <- <-. rewrite Hh in Hh0. injection Hh0 as Hs Hr. symmetry. apply (key_inj k j 0); [done|lia]. }
  split.
  - rewrite fmap_app. apply NoDup_app. split_and!; [done| |apply NoDup_singleton].
    intros j Hj Hj'. apply list_elem_of_singleton in Hj'. simpl in Hj'. subst j.
    apply list_elem_of_fmap in Hj as ([j' y] & -> & Hj). by apply (R2 _ _ Hj).
  - intros j y Hj. rewrite Hpop. apply elem_of_app in Hj as [Hj|Hj].
    + destruct (R2 j y Hj) as (? & ? & ?). split_and!; try done. by intros [].
    + apply list_elem_of_singleton in Hj as [= -> ->]. split_and!; try done. by intros [].
  - intros j Hj. rewrite Hpop, fmap_app, elem_of_app. destruct (decide (j = k)) as [->|Hne].
    + left. right. by left.
    + destruct (R3 j Hj); [by left; left|by right].
Qed.

Lemma next_position k s : (k <= length (pushed (trace s)))%nat → within_bound s →
  Z.of_nat k +w 1 = Z.of_nat (S k).
Proof.
  unfold within_bound. intros. pose proof (ring_size_pos Capacity). word_lia.
Qed.

Lemma mpmc_inv_push_publish s t th x pos m' th' :
  inv s → within_bound s → threads s !! t = Some (PushPublish x pos, th) →
  store Release (sequence_at pos) (Word (pos +w 1)) (mem s) th = Some (m', th') →
  inv {| mem := m'; threads := <[t := (Idle, th')]> (threads s); trace := trace s; returned := returned s |}.
Proof.
  intros Hi Hb Ht Hst. pose proof (mpmc_inv_counts s Hi) as Hcnt.
  destruct (th_point _ _ _ _ _ (inv_threads s Hi _ _ _ Ht)) as (k & -> & Hx).
  pose proof (lookup_lt_Some _ _ _ Hx).
  eapply (inv_publish s t _ _ (slot k) (2 * round k)%nat); try done.
  - cbn [held]. by rewrite Nat2Z.id.
  - rewrite (next_position k s) by (done || lia).
    replace (S (2 * round k)) with (2 * round k + 1)%nat by lia.
    rewrite sequence_odd, ticket_slot. lia.
  - intros r Hr. replace r with (round k) by lia. by rewrite ticket_slot.
  - lia.
  - eapply returned_frame; [apply Hi|done|]. intros j. cbn [held]. intros [= _ ?]. lia.
Qed.

Lemma mpmc_inv_pop_publish s t th x pos m' th' :
  inv s → within_bound s → threads s !! t = Some (PopPublish pos x, th) →
  store Release (sequence_at pos) (Word (pos +w MASK Capacity +w 1)) (mem s) th = Some (m', th') →
  inv {| mem := m'; threads := <[t := (Idle, th')]> (threads s); trace := trace s;
         returned := returned s ++ [(Z.to_nat pos, x)] |}.
Proof.
  intros Hi Hb Ht Hst. pose proof (mpmc_inv_counts s Hi) as Hcnt.
  pose proof (ring_size_pos Capacity) as [_ Hcap].
  destruct (th_point _ _ _ _ _ (inv_threads s Hi _ _ _ Ht)) as (k & -> & Hk & Hx).
  rewrite Nat2Z.id. pose proof (lookup_lt_Some _ _ _ Hx).
  eapply (inv_publish s t _ _ (slot k) (2 * round k + 1)%nat); try done.
  - cbn [held]. by rewrite Nat2Z.id.
  - replace (S (2 * round k + 1)) with (2 * (round k + 1))%nat by lia.
    rewrite sequence_even. pose proof (ticket_slot k) as Htk. unfold ticket in *.
    unfold MASK, within_bound in *. replace (slot k + (round k + 1) * cap)%nat with (k + cap)%nat by lia.
    rewrite Nat2Z.inj_add, Hcap. pose proof (capacity_pos (Capacity := Capacity)). word_lia.
  - lia.
  - intros r Hr. replace r with (round k) by lia. by rewrite ticket_slot.
  - by eapply returned_pop.
Qed.

Lemma mpmc_inv_access s t p th p' th' m' tr' ret :
  inv s → within_bound s → threads s !! t = Some (p, th) →
  access p th (mem s) (trace s) p' th' m' tr' ret →
  inv {| mem := m'; threads := <[t := (p', th')]> (threads s); trace := tr';
         returned := returned s ++ ret |}.
Proof.
  intros Hi Hb Ht Ha. pose proof (mpmc_inv_counts s Hi) as Hcnt.
  pose proof (ring_size_pos Capacity) as [_ Hcap].
  pose proof (th_point _ _ _ _ _ (inv_threads s Hi _ _ _ Ht)) as Hpt.
  remember (mem s) as m eqn:Em. remember (trace s) as tr eqn:Etr.
  destruct Ha; subst; rewrite ?app_nil_r; cbn [point_ok] in Hpt.
  - eapply (inv_load_counter s t _ _ EnqueuePos); try done; apply Hi.
  - destruct Hpt as (k & -> & Hk). eapply (inv_load_sequence s t _ _ k); [done..|].
    intros -> Hn Hnl. rewrite (sequence_diff s) in H0 by (done || lia).
    rewrite (sequence_push k n) in Hn by lia. by exists k.
  - destruct Hpt as (k & -> & Hk). by eapply (inv_load_sequence s t _ _ k).
  - destruct Hpt as (k & -> & Hk). by eapply (inv_load_sequence s t _ _ k).
  - eapply (inv_load_counter s t _ _ EnqueuePos); try done; apply Hi.
  - eapply (inv_load_counter s t _ _ EnqueuePos); try done; apply Hi.
  - by eapply mpmc_inv_push_cas.
  - destruct Hpt as (k & -> & Hx). eapply (inv_storage s t _ _ _ (slot k) (2 * round k)%nat); try done.
    + cbn [held]. by rewrite Nat2Z.id.
    + f_equal. replace (S (2 * round k)) with (2 * round k + 1)%nat by lia.
      by rewrite content_odd, ticket_slot.
    + by exists k.
  - by eapply mpmc_inv_push_publish.
  - eapply (inv_load_counter s t _ _ DequeuePos); try done; apply Hi.
  - destruct Hpt as (k & -> & Hk). eapply (inv_load_sequence s t _ _ k); [done..|].
    intros -> Hn Hnl. rewrite (next_position k s), (sequence_diff s) in H0 by (done || lia).
    rewrite (sequence_pop k n) in Hn by lia. by exists k.
  - destruct Hpt as (k & -> & Hk). by eapply (inv_load_sequence s t _ _ k).
  - destruct Hpt as (k & -> & Hk). by eapply (inv_load_sequence s t _ _ k).
  - eapply (inv_load_counter s t _ _ DequeuePos); try done; apply Hi.
  - eapply (inv_load_counter s t _ _ DequeuePos); try done; apply Hi.
  - by eapply mpmc_inv_pop_cas.
  - destruct Hpt as (k & -> & Hk).
    assert (held (PopTake (Z.of_nat k)) = Some (slot k, 2 * round k + 1)%nat) as Hh
      by (cbn [held]; by rewrite Nat2Z.id).
    eapply (inv_storage s t _ _ _ (slot k) (2 * round k + 1)%nat); try done.
    + f_equal. replace (S (2 * round k + 1)) with (2 * (round k + 1))%nat by lia.
      symmetry. apply content_even.
    + exists k. split_and!; [done|done|].
      destruct (th_owner _ _ _ _ _ (inv_threads s Hi _ _ _ Ht) _ _ Hh) as (_ & _ & _ & _ & Hnew).
      apply plain_read_inv in H as [_ H]. change (storage_at (Z.of_nat k)) with (Storage (slot k)) in H.
      cbn [publishing] in Hnew. rewrite content_odd, ticket_slot in Hnew. congruence.
  - by eapply mpmc_inv_pop_publish.
Qed.

Lemma mpmc_inv_learns s t t' p th p' th' :
  inv s → threads s !! t = Some (p, th) → threads s !! t' = Some (p', th') →
  inv {| mem := mem s; threads := <[t := (p, learn (cur th') th)]> (threads s);
         trace := trace s; returned := returned s |}.
Proof.
  intros Hi Ht Ht'. destruct (inv_threads s Hi _ _ _ Ht) as [H1 H2 H3 H4].
  destruct (inv_threads s Hi _ _ _ Ht') as [(H1' & _) H2' _ _].
  eapply mpmc_inv_local; [done|done|done|]. split.
  - by apply learn_closed.
  - by apply mpmc_good_join.
  - eapply point_ok_mono; [done|done|done|apply join_l].
  - intros i n Hh. destruct (H4 i n Hh) as (? & ? & ? & ? & ?).
    pose proof (join_l (cur th) (cur th') (Sequence i)). pose proof (join_l (cur th) (cur th') (Storage i)).
    cbv zeta. simpl. split_and!; try done; lia.
Qed.

Lemma mpmc_weak_initial s : initial s → inv s.
Proof.
  intros [n ->]. pose proof (ring_size_pos Capacity) as [Hp Hc].
  assert (∀ t p th, threads (state_new n) !! t = Some (p, th) → p = Idle ∧ th = thread_new) as Hth.
  { intros t p th H. apply lookup_replicate_1 in H as [[= -> ->] _]. done. }
  assert (∀ l, l = EnqueuePos ∨ l = DequeuePos → counter (memory_new cells_new) l 0) as Hcounter.
  { intros l Hl. split; [done|]. intros [|k] msg; [|done]. intros [= <-].
    split; [by destruct Hl as [->| ->]|done]. }
  split; simpl; auto using memory_new_ok.
  - intros i Hi. split; [|right].
    + split; try (unfold latest; simpl; lia). intros [|k] msg; [|done]. intros [= <-].
      split; [|intros j; simpl; unfold bot; lia]. simpl. rewrite <- (Z.add_0_r (Z.of_nat i)).
      unfold sequence_value, ticket. simpl. do 2 f_equal. lia.
    + by split.
  - intros t p th H. destruct (Hth t p th H) as [-> ->]. split; try done; [apply thread_new_closed|].
    intros i. simpl. unfold bot. lia.
  - intros t t' p p' th th' k H1 _ Hk. destruct (Hth _ _ _ H1) as [-> _]. done.
  - exists []. constructor.
  - split; simpl; [constructor|by intros k x ?%elem_of_nil|lia].
Qed.

Lemma pushed_grows s s' : step s s' →
  Z.of_nat (length (pushed (trace s))) + Capacity <= Z.of_nat (length (pushed (trace s'))) + Capacity.
Proof.
  intros [t p th p' th' m' tr' ret Ht Ha|]; simpl; [|lia].
  destruct Ha; rewrite ?pushed_app, ?length_app; lia.
Qed.

Lemma mpmc_weak_inv s : reachable initial step s → within_bound s → inv s.
Proof.
  intros Hr Hb. revert s Hr Hb.
  assert (∀ s, reachable initial step s →
    Z.of_nat (length (pushed (trace s))) + Capacity <= 2 ^ 63 - 1 → inv s) as H.
  { apply reachable_ind_bounded; [apply mpmc_weak_initial|apply pushed_grows|].
    intros s s' Hi Hs Hb. pose proof (pushed_grows s s' Hs).
    destruct Hs as [t p th p' th' m' tr' ret Ht Ha|t t' p th p' th' Ht Ht'].
    - eapply mpmc_inv_access; [done|unfold within_bound; lia|done|done].
    - by eapply mpmc_inv_learns. }
  intros s Hr Hb. apply H; [done|]. unfold within_bound in Hb. lia.
Qed.

(** ** Answers *)

Lemma counter_confined m l k v : counter m l k → exchange_confined m l v.
Proof.
  intros [Hlen Hc] n msg Hn _ Hlt. unfold latest in Hlt.
  destruct (lookup_lt_is_Some_2 (cells m l) (S n)) as [msg' Hn']; [lia|].
  exists msg'. split; [done|]. by apply (Hc _ _ Hn').
Qed.

Lemma load_word m l k th o :
  memory_ok m → thread_closed m th → counter m l k → ∃ n w th', load o l n m th = Some (Word w, th').
Proof.
  intros Hm Hth Hc. destruct (load_newest o l m th Hm Hth) as (v & th' & Hl).
  pose proof Hl as (msg & Hn & Hv & _)%load_inv. destruct (proj2 Hc _ _ Hn) as [Hw _].
  exists (latest m l), (Z.of_nat (latest m l)), th'. congruence.
Qed.

Lemma mpmc_access_enabled s t p th :
  inv s → threads s !! t = Some (p, th) →
  ∃ p' th' m' tr' ret, access p th (mem s) (trace s) p' th' m' tr' ret ∧ p' ≠ p.
Proof.
  intros Hi Ht. pose proof (inv_threads s Hi _ _ _ Ht) as [H1 H2 H3 H4].
  destruct (load_word _ _ _ th Relaxed (inv_memory s Hi) H1 (inv_enqueue s Hi)) as (ne & we & the & He).
  destruct (load_word _ _ _ th Relaxed (inv_memory s Hi) H1 (inv_dequeue s Hi)) as (nd & wd & thd & Hd).
  assert (∀ k, ∃ n w th', load Acquire (sequence_at (Z.of_nat k)) n (mem s) th = Some (Word w, th')) as Hsq.
  { intros k. destruct (load_newest Acquire (Sequence (slot k)) (mem s) th (inv_memory s Hi) H1) as (v & th' & Hl).
    pose proof Hl as (msg & Hn & Hv & _)%load_inv.
    destruct (inv_slots s Hi (slot k) (ring_slot_lt Capacity k)) as [Hs _].
    destruct (sq_messages _ _ _ _ Hs _ _ Hn) as [Hw _]. eexists _, _, th'. rewrite <- Hw, Hv. exact Hl. }
  destruct p; cbn [point_ok] in H3.
  - eexists _, _, _, _, _. split; [by eapply pop_begin|done].
  - destruct H3 as (k & -> & _). destruct (Hsq k) as (n & w & th' & Hl).
    destruct (Z.lt_trichotomy (signed_diff w (Z.of_nat k)) 0) as [?|[?|?]];
      eexists _, _, _, _, _; (split; [|shelve]).
    + by eapply push_full.
    + by eapply push_ready.
    + by eapply push_lost.
  - eexists _, _, _, _, _. split; [by eapply push_cas_fail|done].
  - eexists _, _, _, _, _. split; [by eapply push_reload|done].
  - destruct H3 as (k & -> & _). destruct (H4 (slot k) (2 * round k)%nat) as (_ & _ & Hl & Hle & Hn).
    { cbn [held]. by rewrite Nat2Z.id. }
    cbn [publishing] in *. rewrite content_even in Hn.
    destruct (store_defined Relaxed (Storage (slot k)) (Object (Some item)) (mem s) th H1) as [[m' th'] Hst]; [lia|].
    eexists _, _, _, _, _. split; [eapply push_construct; [|exact Hst]|done].
    change (storage_at (Z.of_nat k)) with (Storage (slot k)). rewrite plain_read_defined by (done || lia). done.
  - destruct H3 as (k & -> & _). destruct (H4 (slot k) (2 * round k)%nat) as (Hl & Hle & _).
    { cbn [held]. by rewrite Nat2Z.id. }
    destruct (store_defined Release (Sequence (slot k)) (Word (Z.of_nat k +w 1)) (mem s) th H1) as [[m' th'] Hst]; [lia|].
    eexists _, _, _, _, _. split; [by eapply push_publish|done].
  - destruct H3 as (k & -> & _). destruct (Hsq k) as (n & w & th' & Hl).
    destruct (Z.lt_trichotomy (signed_diff w (Z.of_nat k +w 1)) 0) as [?|[?|?]];
      eexists _, _, _, _, _; (split; [|shelve]).
    + by eapply pop_empty.
    + by eapply pop_ready.
    + by eapply pop_lost.
  - eexists _, _, _, _, _. split; [by eapply pop_cas_fail|done].
  - eexists _, _, _, _, _. split; [by eapply pop_reload|done].
  - destruct H3 as (k & -> & Hk). destruct (H4 (slot k) (2 * round k + 1)%nat) as (_ & _ & Hl & Hle & Hn).
    { cbn [held]. by rewrite Nat2Z.id. }
    cbn [publishing] in *. rewrite content_odd, ticket_slot in Hn.
    pose proof (mpmc_inv_counts s Hi). destruct (lookup_lt_is_Some_2 (pushed (trace s)) k) as [x Hx]; [lia|].
    rewrite Hx in Hn.
    destruct (store_defined Relaxed (Storage (slot k)) (Object None) (mem s) th H1) as [[m' th'] Hst]; [lia|].
    eexists _, _, _, _, _. split; [eapply pop_take; [|exact Hst]|done].
    change (storage_at (Z.of_nat k)) with (Storage (slot k)). rewrite plain_read_defined by (done || lia). done.
  - destruct H3 as (k & -> & _). destruct (H4 (slot k) (2 * round k + 1)%nat) as (Hl & Hle & _).
    { cbn [held]. by rewrite Nat2Z.id. }
    destruct (store_defined Release (Sequence (slot k)) (Word (Z.of_nat k +w MASK Capacity +w 1)) (mem s) th H1)
      as [[m' th'] Hst]; [lia|].
    eexists _, _, _, _, _. split; [by eapply pop_publish|done].
  Unshelve. all: done.
Qed.
End mpmc_weak.
Arguments state : clear implicits.
Arguments cell : clear implicits.

(** ** Properties *)

(** C8. Under the C++ memory model with the orders of the source, whatever the number of
    threads and whatever else they synchronise on, as long as the tickets stay below 2^63:
    the order in which calls claim their tickets is a legal history of a bounded FIFO
    queue, each ticket is returned once, with its element, and none is lost. No access
    races or is undefined: a push constructs in raw memory and a pop moves out of the
    object of its ticket, each knowing the newest access; an exchange of a position can
    only succeed on its newest value. No thread is ever stuck. *)
Theorem mpmc_weak_safe {T} (Capacity : Z) `{!RingCapacity Capacity} (s : state T) :
  2 <= Capacity →
  reachable initial (step Capacity) s →
  Z.of_nat (length (pushed (trace s))) + Capacity < 2 ^ 63 →
  (∃ xs, fifo_run (ring_size Capacity) (trace s) xs ∧ pushed (trace s) = popped (trace s) ++ xs) ∧
  NoDup (returned s).*1 ∧
  (∀ k x, (k, x) ∈ returned s → popped (trace s) !! k = Some x) ∧
  ((∀ t p th, threads s !! t = Some (p, th) → p = Idle) →
     ∀ k, (k < length (popped (trace s)))%nat → k ∈ (returned s).*1) ∧
  (∀ t x pos th, threads s !! t = Some (PushConstruct x pos, th) →
     plain_read (storage_at Capacity pos) (mem s) th = Some (Object None)) ∧
  (∀ t pos th, threads s !! t = Some (PopTake pos, th) →
     ∃ x, pushed (trace s) !! Z.to_nat pos = Some x ∧
       plain_read (storage_at Capacity pos) (mem s) th = Some (Object (Some x))) ∧
  (∀ v, exchange_confined (mem s) EnqueuePos v ∧ exchange_confined (mem s) DequeuePos v) ∧
  (∀ t p th, threads s !! t = Some (p, th) → ∃ p' th' m' tr' ret,
     access Capacity p th (mem s) (trace s) p' th' m' tr' ret ∧ p' ≠ p).
Proof.
  intros H2 Hr Hb. pose proof (mpmc_weak_inv Capacity H2 s Hr Hb) as Hi.
  destruct (inv_run _ _ Hi) as [xs Hx]. pose proof Hx as [Hxs _]%fifo_run_contents.
  pose proof (mpmc_inv_counts _ _ Hi) as Hcnt. destruct (inv_returned _ _ Hi) as [R1 R2 R3].
  split_and!; [by exists xs|done| | | | | |].
  - intros k x Hk. destruct (R2 k x Hk) as (? & Hp & _).
    by rewrite Hxs, lookup_app_l in Hp.
  - intros Hidle k Hk. destruct (R3 k Hk) as [|(t & p & th & Ht & Hh)]; [done|].
    by rewrite (Hidle t p th Ht) in Hh.
  - intros t x pos th Ht. destruct (mpmc_access_enabled Capacity s t _ th Hi Ht)
      as (? & ? & ? & ? & ? & Ha & _).
    by inversion Ha; subst.
  - intros t pos th Ht. destruct (inv_threads _ _ Hi _ _ _ Ht) as [H1 _ (k & -> & Hk) H4].
    destruct (H4 (slot_of Capacity k) (2 * turn_of Capacity k + 1)%nat) as (_ & _ & Hl & Hle & Hn).
    { cbn [held]. by rewrite Nat2Z.id. }
    cbn [publishing] in *. rewrite content_odd, ticket_slot in Hn by done. rewrite Nat2Z.id.
    destruct (lookup_lt_is_Some_2 (pushed (trace s)) k) as [x Hx']; [lia|]. exists x.
    split; [done|]. rewrite Hx' in Hn.
    change (storage_at Capacity (Z.of_nat k)) with (Storage (slot_of Capacity k)).
    by rewrite plain_read_defined by (done || lia).
  - intros v. split; eapply counter_confined; apply Hi.
  - intros t p th Ht. by eapply mpmc_access_enabled.
Qed.

(** One thread has pushed 5, another has claimed the ticket to pop it, while a
    third, which had read a stale position, is about to find the queue full. *)
Definition claim_run : state nat :=
  end_of (exec 2) [Act 0 (Some 5%nat) (Some 0%nat); Act 0 None (Some 0%nat); Act 0 None None;
      Act 0 None None; Act 0 None None;
      Act 0 (Some 6%nat) (Some 1%nat); Act 0 None (Some 0%nat); Act 0 None None;
      Act 1 (Some 7%nat) (Some 0%nat); Act 1 None (Some 1%nat); Act 1 None (Some 2%nat);
      Act 2 None (Some 0%nat); Act 2 None (Some 1%nat); Act 2 None None]
    (state_new 3).

Lemma claim_reachable : reachable initial (step 2) claim_run.
Proof. apply end_reachable; [apply mpmc_exec_step|by exists 3%nat]. Qed.

Lemma mpmc_weak_safe_witness :
  pushed (trace claim_run) = [5%nat; 6%nat] ∧
  (fst <$> threads claim_run) = [PushConstruct 6%nat 1; PushLoad 7%nat 2; PopTake 0] ∧
  ∃ xs, fifo_run (ring_size 2) (trace claim_run) xs ∧
    pushed (trace claim_run) = popped (trace claim_run) ++ xs.
Proof.
  split; [by vm_compute|split; [by vm_compute|]].
  apply (mpmc_weak_safe 2 claim_run); [done|apply claim_reachable|by vm_compute].
Defined.
