(* ===== verification/Crc32c.v ===== *)
(** * CRC-32C ([src/src/proto/codec.cpp], lines 15-76)

    The table-driven software checksum, the loop over the SSE4.2 intrinsics, a
    bit-serial reference, their equality, and what the checksum detects.

    A byte string is read as the little-endian integer [le_combine]; the state
    of the checksum after [n] bytes is then [8 n] bit steps from the initial
    state exclusive-or that integer ([crc32c_fold_iter]), from which equality of
    the three implementations and the detection of burst errors follow. *)
From S2P Require Import Prelude.

Definition CRC32C_POLYNOMIAL : Z := 0x82F63B78.

Definition TABLE_SIZE : nat := 256.

Definition BITS_PER_BYTE : nat := 8.

(** One turn of the inner loop of [make_crc32c_table]. *)
Definition crc_bit (crc : Z) : Z :=
  if Z.land crc 1 =? 0 then Z.shiftr crc 1
  else Z.lxor (Z.shiftr crc 1) CRC32C_POLYNOMIAL.

Definition make_crc32c_table : list Z :=
  (λ i : nat, Nat.iter BITS_PER_BYTE crc_bit (Z.of_nat i)) <$> seq 0 TABLE_SIZE.

Definition CRC32C_TABLE : list Z := make_crc32c_table.

(** The body of the loop of [crc32c_software]. *)
Definition crc32c_step (crc : Z) (value : byte) : Z :=
  let idx := u8 (Z.land (Z.lxor crc (byte.unsigned value)) 0xFF) in
  Z.lxor (Z.shiftr crc 8) (CRC32C_TABLE !!! Z.to_nat idx).

Definition crc32c_software (data : list byte) : Z :=
  u32 (Z.lnot (foldl crc32c_step 0xFFFFFFFF data)).

(** The branch of [crc32c] compiled when SSE4.2 is available. The two intrinsics
    are the processor's: parameters of the model. *)
Section hardware.
Context (mm_crc32_u8 : Z → Z → Z) (mm_crc32_u64 : Z → Z → Z).

(** The two [while] loops: eight bytes at a time, then one at a time. *)
Fixpoint crc32c_hw_loop (crc : Z) (p : list byte) : Z :=
  match p with
  | b0 :: b1 :: b2 :: b3 :: b4 :: b5 :: b6 :: b7 :: p' =>
      let chunk := le_combine [b0; b1; b2; b3; b4; b5; b6; b7] in
      crc32c_hw_loop (u32 (mm_crc32_u64 crc chunk)) p'
  | _ => foldl (λ crc b, mm_crc32_u8 crc (byte.unsigned b)) crc p
  end.

Definition crc32c_hw (data : list byte) : Z :=
  u32 (Z.lnot (crc32c_hw_loop 0xFFFFFFFF data)).
End hardware.

(** The bit-serial definition of CRC-32C: the message, as one integer, divided
    bit by bit by the reflected polynomial. *)
Definition crc32c_reference (data : list byte) : Z :=
  Z.lxor (Nat.iter (8 * length data) crc_bit (Z.lxor 0xFFFFFFFF (le_combine data)))
    0xFFFFFFFF.

(** The checksum the codec calls ([crc32c]); both compiled branches are equal to
    it by the theorems below. *)
Definition crc32c (data : list byte) : Z := crc32c_software data.

(** ** The bit step is linear and injective *)

Lemma crc_bit_testbit crc i :
  0 <= i →
  Z.testbit (crc_bit crc) i =
    xorb (Z.testbit crc (i + 1)) (Z.testbit crc 0 && Z.testbit CRC32C_POLYNOMIAL i).
Proof.
  intros Hi. unfold crc_bit. change 1 with (Z.ones 1) at 1.
  rewrite Z.land_ones by done. rewrite <- Z.bit0_mod.
  destruct (Z.testbit crc 0) eqn:E; simpl (Z.b2z _ =? 0); cbv iota;
    rewrite ?Z.lxor_spec, Z.shiftr_spec by done; by rewrite ?andb_true_l, ?xorb_false_r.
Qed.

Lemma crc_bit_lxor a b : crc_bit (Z.lxor a b) = Z.lxor (crc_bit a) (crc_bit b).
Proof.
  apply Z.bits_inj'. intros i Hi.
  rewrite Z.lxor_spec, !crc_bit_testbit, !Z.lxor_spec by done.
  by destruct (Z.testbit a (i + 1)), (Z.testbit b (i + 1)), (Z.testbit a 0),
    (Z.testbit b 0), (Z.testbit CRC32C_POLYNOMIAL i).
Qed.

Lemma crc_bit_double d k : 0 < k → crc_bit (Z.shiftl d k) = Z.shiftl d (k - 1).
Proof.
  intros Hk. apply Z.bits_inj'. intros i Hi.
  rewrite crc_bit_testbit, (Z.shiftl_spec_low d k 0) by lia.
  rewrite xorb_false_r, !Z.shiftl_spec by lia. f_equal; lia.
Qed.

Lemma crc_bit_range crc : 0 <= crc < 2 ^ 32 → 0 <= crc_bit crc < 2 ^ 32.
Proof.
  intros Hc. unfold crc_bit.
  assert (Hs : 0 <= Z.shiftr crc 1 < 2 ^ 31).
  { rewrite Z.shiftr_div_pow2 by done. Z.div_mod_to_equations; lia. }
  destruct (Z.eqb_spec (Z.land crc 1) 0); [lia|]. split.
  - apply Z.lxor_nonneg. unfold CRC32C_POLYNOMIAL. lia.
  - destruct (Z.eq_dec (Z.lxor (Z.shiftr crc 1) CRC32C_POLYNOMIAL) 0) as [->|Hn]; [lia|].
    assert (0 <= Z.lxor (Z.shiftr crc 1) CRC32C_POLYNOMIAL).
    { apply Z.lxor_nonneg. unfold CRC32C_POLYNOMIAL. lia. }
    apply Z.log2_lt_pow2; [lia|].
    eapply Z.le_lt_trans; [apply Z.log2_lxor; unfold CRC32C_POLYNOMIAL; lia|].
    apply Z.max_lub_lt; [|done].
    destruct (Z.eq_dec (Z.shiftr crc 1) 0) as [->|]; [done|].
    apply Z.log2_lt_pow2; lia.
Qed.

Lemma crc_bit_zero_inv d : 0 <= d < 2 ^ 32 → crc_bit d = 0 → d = 0.
Proof.
  intros Hd. unfold crc_bit. change 1 with (Z.ones 1) at 1.
  rewrite Z.land_ones, Z.shiftr_div_pow2 by done.
  destruct (Z.eqb_spec (d `mod` 2 ^ 1) 0) as [Hm|Hm]; intros H.
  - Z.div_mod_to_equations; lia.
  - apply Z.lxor_eq in H. unfold CRC32C_POLYNOMIAL in H. Z.div_mod_to_equations; lia.
Qed.

Lemma iter_crc_bit_lxor n a b :
  Nat.iter n crc_bit (Z.lxor a b) = Z.lxor (Nat.iter n crc_bit a) (Nat.iter n crc_bit b).
Proof. induction n as [|n IH]; [done|]. simpl. by rewrite IH, crc_bit_lxor. Qed.

Lemma iter_crc_bit_shiftl n d k :
  Z.of_nat n <= k → Nat.iter n crc_bit (Z.shiftl d k) = Z.shiftl d (k - Z.of_nat n).
Proof.
  induction n as [|n IH]; intros Hn; [by rewrite Z.sub_0_r|].
  simpl. rewrite IH, crc_bit_double by lia. f_equal; lia.
Qed.

Lemma iter_crc_bit_range n d : 0 <= d < 2 ^ 32 → 0 <= Nat.iter n crc_bit d < 2 ^ 32.
Proof. intros. induction n; [done|]. by apply crc_bit_range. Qed.

Lemma iter_crc_bit_nonzero n d :
  0 < d < 2 ^ 32 → Nat.iter n crc_bit d ≠ 0.
Proof.
  intros Hd. induction n as [|n IH]; simpl; [lia|].
  intros H. apply IH, crc_bit_zero_inv; [|done]. apply iter_crc_bit_range. lia.
Qed.

Lemma iter_add {A} (f : A → A) n m x : Nat.iter (n + m) f x = Nat.iter n f (Nat.iter m f x).
Proof. apply Nat.iter_add. Qed.

(** ** The checksum of a message as one division *)

Lemma crc_table_lookup i :
  0 <= i < 256 → CRC32C_TABLE !!! Z.to_nat i = Nat.iter 8 crc_bit i.
Proof.
  intros Hi. unfold CRC32C_TABLE, make_crc32c_table.
  apply list_lookup_total_correct. rewrite list_lookup_fmap.
  rewrite lookup_seq_lt by (unfold TABLE_SIZE; lia). simpl. by rewrite Z2Nat.id by lia.
Qed.

(** A table step is eight bit steps. *)
Lemma crc32c_step_iter crc b :
  crc32c_step crc b = Nat.iter 8 crc_bit (Z.lxor crc (byte.unsigned b)).
Proof.
  unfold crc32c_step. set (x := Z.lxor crc (byte.unsigned b)).
  change 0xFF with (Z.ones 8). rewrite Z.land_ones by done.
  unfold u8, wrap. rewrite Z.mod_mod by done.
  rewrite crc_table_lookup by (apply Z.mod_pos_bound; done).
  assert (Hx : x = Z.lxor (Z.shiftl (Z.shiftr x 8) 8) (x `mod` 2 ^ 8)).
  { apply Z.bits_inj'. intros i Hi. rewrite Z.lxor_spec.
    destruct (Z.lt_ge_cases i 8).
    - by rewrite Z.shiftl_spec_low, Z.mod_pow2_bits_low, xorb_false_l by lia.
    - rewrite Z.mod_pow2_bits_high, xorb_false_r, Z.shiftl_spec_high, Z.shiftr_spec by lia.
      f_equal; lia. }
  rewrite Hx at 2. rewrite iter_crc_bit_lxor, iter_crc_bit_shiftl by done.
  rewrite Z.shiftl_0_r. f_equal. unfold x.
  rewrite Z.shiftr_lxor. rewrite (Z.shiftr_div_pow2 (byte.unsigned b)) by done.
  rewrite (Z.div_small (byte.unsigned b)) by apply byte.unsigned_range.
  by rewrite Z.lxor_0_r.
Qed.

Lemma lor_shiftl_lxor a b : 0 <= a < 2 ^ 8 → Z.lor a (Z.shiftl b 8) = Z.lxor a (Z.shiftl b 8).
Proof.
  intros Ha. symmetry. apply Z.lxor_lor.
  rewrite <- (Z.mod_small a (2 ^ 8)) by done. apply Z.bits_inj'. intros i Hi.
  rewrite Z.land_spec, Z.bits_0. destruct (Z.lt_ge_cases i 8).
  - by rewrite Z.shiftl_spec_low, andb_false_r by lia.
  - by rewrite Z.mod_pow2_bits_high by lia.
Qed.

Lemma le_combine_cons b l :
  le_combine (b :: l) = Z.lxor (byte.unsigned b) (Z.shiftl (le_combine l) 8).
Proof. simpl. apply lor_shiftl_lxor, byte.unsigned_range. Qed.

Lemma crc32c_fold_iter crc data :
  foldl crc32c_step crc data = Nat.iter (8 * length data) crc_bit (Z.lxor crc (le_combine data)).
Proof.
  revert crc. induction data as [|b l IH]; intros crc; [by rewrite Z.lxor_0_r|].
  cbn [foldl]. rewrite IH, crc32c_step_iter, le_combine_cons, <- Z.lxor_assoc.
  replace (8 * length (b :: l))%nat with (8 * length l + 8)%nat by (simpl; lia).
  rewrite iter_add, (iter_crc_bit_lxor 8 (Z.lxor crc _)), iter_crc_bit_shiftl by done.
  by rewrite Z.shiftl_0_r.
Qed.

Lemma crc_state_range crc data :
  0 <= crc < 2 ^ 32 → 0 <= foldl crc32c_step crc data < 2 ^ 32.
Proof.
  revert crc. induction data as [|b l IH]; intros crc Hc; [done|]. simpl.
  apply IH. rewrite crc32c_step_iter. apply iter_crc_bit_range.
  pose proof (byte.unsigned_range b).
  split; [apply Z.lxor_nonneg; lia|].
  destruct (Z.eq_dec (Z.lxor crc (byte.unsigned b)) 0) as [->|]; [done|].
  assert (0 <= Z.lxor crc (byte.unsigned b)) by (apply Z.lxor_nonneg; lia).
  apply Z.log2_lt_pow2; [lia|]. eapply Z.le_lt_trans; [apply Z.log2_lxor; lia|].
  apply Z.max_lub_lt.
  - destruct (Z.eq_dec crc 0) as [->|]; [done|]. apply Z.log2_lt_pow2; lia.
  - destruct (Z.eq_dec (byte.unsigned b) 0) as [->|]; [done|]. apply Z.log2_lt_pow2; lia.
Qed.

Lemma lnot_u32 x : 0 <= x < 2 ^ 32 → u32 (Z.lnot x) = Z.lxor x 0xFFFFFFFF.
Proof.
  intros Hx. unfold u32, wrap. change 0xFFFFFFFF with (Z.ones 32).
  apply Z.bits_inj'. intros i Hi. rewrite Z.lxor_spec.
  destruct (Z.lt_ge_cases i 32).
  - rewrite Z.mod_pow2_bits_low, Z.lnot_spec, Z.ones_spec_low by lia.
    by destruct (Z.testbit x i).
  - rewrite Z.mod_pow2_bits_high, Z.ones_spec_high by lia.
    rewrite <- (Z.mod_small x (2 ^ 32)) by done. by rewrite Z.mod_pow2_bits_high by lia.
Qed.

Lemma crc32c_software_is_reference data : crc32c_software data = crc32c_reference data.
Proof.
  unfold crc32c_software, crc32c_reference.
  rewrite lnot_u32 by by apply crc_state_range. by rewrite crc32c_fold_iter.
Qed.

Lemma crc32c_range data : 0 <= crc32c data < 2 ^ 32.
Proof. by apply wrap_range. Qed.

(** ** The intrinsics loop *)

(** Intel's documented semantics of [_mm_crc32_u8] and [_mm_crc32_u64]: the
    operand is divided, least significant bit first, into the running checksum. *)
Definition crc32_instr (bits : nat) (crc v : Z) : Z :=
  Nat.iter bits crc_bit (Z.lxor crc v).

Lemma crc32_instr_fold crc data :
  crc32_instr (8 * length data) crc (le_combine data) = foldl crc32c_step crc data.
Proof. by rewrite crc32c_fold_iter. Qed.

Section hw_proof.
Context (mm_crc32_u8 mm_crc32_u64 : Z → Z → Z).
Hypothesis mm_crc32_u8_spec : ∀ crc v,
  is_u32 crc → 0 <= v < 2 ^ 8 → mm_crc32_u8 crc v = crc32_instr 8 crc v.
Hypothesis mm_crc32_u64_spec : ∀ crc v,
  is_u32 crc → is_u64 v → mm_crc32_u64 crc v = crc32_instr 64 crc v.

Lemma hw_bytes crc data :
  is_u32 crc →
  foldl (λ crc b, mm_crc32_u8 crc (byte.unsigned b)) crc data = foldl crc32c_step crc data.
Proof.
  revert crc. induction data as [|b l IH]; intros crc Hc; [done|]. simpl.
  rewrite mm_crc32_u8_spec by (done || apply byte.unsigned_range).
  unfold crc32_instr. rewrite <- crc32c_step_iter. apply IH, (crc_state_range crc [b] Hc).
Qed.

Lemma hw_chunk crc chunk :
  is_u32 crc → length chunk = 8%nat →
  u32 (mm_crc32_u64 crc (le_combine chunk)) = foldl crc32c_step crc chunk.
Proof.
  intros Hc Hl. rewrite mm_crc32_u64_spec; [|done|].
  - rewrite <- crc32_instr_fold, Hl. apply u32_small.
    pose proof (crc32_instr_fold crc chunk) as Hf. rewrite Hl in Hf.
    rewrite Hf. by apply crc_state_range.
  - pose proof (le_combine_bound chunk) as Hb. by rewrite Hl in Hb.
Qed.

Lemma crc32c_hw_loop_correct n crc data :
  (length data <= n)%nat → is_u32 crc →
  crc32c_hw_loop mm_crc32_u8 mm_crc32_u64 crc data = foldl crc32c_step crc data.
Proof.
  revert crc data. induction n as [n IH] using lt_wf_ind. intros crc data Hn Hc.
  destruct data as [|b0 [|b1 [|b2 [|b3 [|b4 [|b5 [|b6 [|b7 l]]]]]]]];
    cbn [crc32c_hw_loop]; try by apply hw_bytes.
  change (b0 :: b1 :: b2 :: b3 :: b4 :: b5 :: b6 :: b7 :: l)
    with ([b0; b1; b2; b3; b4; b5; b6; b7] ++ l).
  rewrite foldl_app, hw_chunk by done.
  simpl in Hn. apply (IH (length l)); [lia|done|]. by apply crc_state_range.
Qed.

Lemma crc32c_hw_is_software data :
  crc32c_hw mm_crc32_u8 mm_crc32_u64 data = crc32c_software data.
Proof.
  unfold crc32c_hw, crc32c_software. by erewrite crc32c_hw_loop_correct.
Qed.
End hw_proof.

(** ** Burst errors *)

(** [m1] and [m2] differ inside one window of 32 consecutive bits, starting at
    bit [k] of the message (bit 0 is the low bit of the first byte). *)
Definition burst32 (m1 m2 : list byte) (k : Z) : Prop :=
  length m1 = length m2 ∧ 0 <= k ∧
  ∃ d, 0 < d < 2 ^ 32 ∧ Z.lxor (le_combine m1) (le_combine m2) = Z.shiftl d k.

Lemma le_combine_lxor_bound m1 m2 :
  length m1 = length m2 →
  0 <= Z.lxor (le_combine m1) (le_combine m2) < 2 ^ (8 * Z.of_nat (length m1)).
Proof.
  intros Hl. pose proof (le_combine_bound m1) as [H1 H1'].
  pose proof (le_combine_bound m2) as [H2 H2']. rewrite <- Hl in H2'.
  set (n := 8 * Z.of_nat (length m1)) in *.
  rewrite <- (Z.mod_small (le_combine m1) (2 ^ n)) by lia.
  rewrite <- (Z.mod_small (le_combine m2) (2 ^ n)) by lia.
  rewrite <- !Z.land_ones by lia.
  replace (Z.lxor _ _) with (Z.land (Z.lxor (le_combine m1) (le_combine m2)) (Z.ones n)).
  - rewrite Z.land_ones by lia. apply Z.mod_pos_bound. lia.
  - apply Z.bits_inj'. intros i Hi. rewrite Z.land_spec, !Z.lxor_spec, !Z.land_spec.
    by destruct (Z.testbit _ i), (Z.testbit _ i), (Z.testbit _ i).
Qed.

Lemma crc32c_burst_neq m1 m2 k : burst32 m1 m2 k → crc32c m1 ≠ crc32c m2.
Proof.
  intros (Hl & Hk & d & Hd & Hx) Heq. unfold crc32c in Heq.
  rewrite !crc32c_software_is_reference in Heq. unfold crc32c_reference in Heq.
  apply (f_equal (λ x, Z.lxor x 0xFFFFFFFF)) in Heq.
  rewrite !Z.lxor_assoc, !Z.lxor_nilpotent, !Z.lxor_0_r, <- Hl in Heq.
  apply Z.lxor_eq_0_iff in Heq. rewrite <- iter_crc_bit_lxor in Heq.
  replace (Z.lxor (Z.lxor _ _) _) with (Z.shiftl d k) in Heq.
  2: { rewrite <- Hx. apply Z.bits_inj'. intros i Hi. rewrite !Z.lxor_spec.
       by destruct (Z.testbit _ i), (Z.testbit _ i), (Z.testbit _ i). }
  assert (Hk' : k <= Z.of_nat (8 * length m1)).
  { pose proof (le_combine_lxor_bound m1 m2 Hl) as [_ Hb]. rewrite Hx in Hb.
    rewrite Z.shiftl_mul_pow2 in Hb by done.
    destruct (Z.le_gt_cases k (8 * Z.of_nat (length m1))); [lia|].
    pose proof (Z.pow_lt_mono_r 2 (8 * Z.of_nat (length m1)) k). nia. }
  replace (8 * length m1)%nat with ((8 * length m1 - Z.to_nat k) + Z.to_nat k)%nat in Heq by lia.
  rewrite iter_add, iter_crc_bit_shiftl in Heq by lia.
  replace (k - Z.of_nat (Z.to_nat k)) with 0 in Heq by lia.
  rewrite Z.shiftl_0_r in Heq. by apply iter_crc_bit_nonzero in Heq.
Qed.

(** ** Properties *)

(** C2. The checksum the codec computes does not depend on how it was compiled:
    the table-driven loop, the loop over the SSE4.2 intrinsics (eight bytes at a
    time, then the tail) and the bit-serial definition of CRC-32C agree on every
    byte string. *)
Theorem crc32c_implementations_agree (mm_crc32_u8 mm_crc32_u64 : Z → Z → Z) :
  (∀ crc v, is_u32 crc → 0 <= v < 2 ^ 8 → mm_crc32_u8 crc v = crc32_instr 8 crc v) →
  (∀ crc v, is_u32 crc → is_u64 v → mm_crc32_u64 crc v = crc32_instr 64 crc v) →
  ∀ data, crc32c_hw mm_crc32_u8 mm_crc32_u64 data = crc32c_software data ∧
          crc32c_software data = crc32c_reference data.
Proof.
  intros H8 H64 data. split; [by apply crc32c_hw_is_software|].
  apply crc32c_software_is_reference.
Qed.

(** The check value of CRC-32C: the string 123456789. *)
Definition check_input : list byte := byte.of_Z <$> [49; 50; 51; 52; 53; 54; 55; 56; 57].

Lemma crc32c_implementations_agree_witness :
  crc32c_hw (crc32_instr 8) (crc32_instr 64) check_input = crc32c_software check_input ∧
  crc32c_software check_input = 0xE3069283.
Proof.
  split; [|vm_compute; reflexivity].
  exact (proj1 (crc32c_implementations_agree (crc32_instr 8) (crc32_instr 64)
    (λ _ _ _ _, eq_refl) (λ _ _ _ _, eq_refl) check_input)).
Defined.
