(* ===== verification/Frame.v ===== *)
(** * Actor frames ([include/jellybean/proto/wire.hpp], [frame.hpp],
      [src/src/proto/codec.cpp])

    The binary frame of the actor protocol: a packed 32-byte little-endian
    header, the payload, zero padding to 8 bytes, and a CRC-32C of header and
    payload. Every access to a span goes through [span_read] and [span_write],
    so a result that is not [None] is also a proof that the code stays inside
    its buffers. *)
From S2P Require Import Prelude.
From S2P Require Import Crc32c.

(** ** wire.hpp *)

Definition MAGIC : Z := 0x48454C31.

Definition VERSION : Z := 1.

Definition PAYLOAD_ALIGNMENT : Z := 8.

Definition CRC_SIZE : Z := 4.

Inductive MessageType :=
| Handshake | ActorMessage | Heartbeat | RaftAppend | RaftVote | RaftSnapshot.

Definition MessageType_value (t : MessageType) : Z :=
  match t with
  | Handshake => 0x0001
  | ActorMessage => 0x0002
  | Heartbeat => 0x0003
  | RaftAppend => 0x0010
  | RaftVote => 0x0011
  | RaftSnapshot => 0x0012
  end.

Record FrameHeader := {
  magic : Z; version : Z; type : Z; flags : Z; reserved : Z;
  payload_length : Z; actor_id : Z; message_id : Z }.

Definition sizeof_FrameHeader : Z := 32.

(** The object representation of the packed struct on a little-endian host:
    what [memcpy(buffer, &header, sizeof(header))] writes. *)
Definition header_bytes (h : FrameHeader) : list byte :=
  le_split 4 (magic h) ++ le_split 2 (version h) ++ le_split 2 (type h) ++
  le_split 2 (flags h) ++ le_split 2 (reserved h) ++ le_split 4 (payload_length h) ++
  le_split 8 (actor_id h) ++ le_split 8 (message_id h).

(** The struct read back from 32 bytes ([reinterpret_cast<const FrameHeader*>]). *)
Definition header_of_bytes (bs : list byte) : FrameHeader :=
  let field off n := le_combine (take n (drop off bs)) in
  {| magic := field 0 4; version := field 4 2; type := field 6 2; flags := field 8 2;
     reserved := field 10 2; payload_length := field 12 4;
     actor_id := field 16 8; message_id := field 24 8 |}%nat.

Record ParsedFrame := {
  header : FrameHeader; payload_owned : list byte; valid : bool;
  expected_crc : Z; actual_crc : Z }.

(** [ParsedFrame parsed{}]. *)
Definition empty_frame : ParsedFrame := {|
  header := {| magic := 0; version := 0; type := 0; flags := 0; reserved := 0;
               payload_length := 0; actor_id := 0; message_id := 0 |};
  payload_owned := []; valid := false; expected_crc := 0; actual_crc := 0 |}.

Definition header_ptr (p : ParsedFrame) : option FrameHeader :=
  if valid p then Some (header p) else None.

Definition payload_size_fits (payload_size : Z) : bool := payload_size <=? 2 ^ 32 - 1.

Definition encoded_frame_size (payload_size : Z) : Z :=
  sizeof_FrameHeader +w align_up payload_size PAYLOAD_ALIGNMENT +w CRC_SIZE.

(** ** frame.hpp *)

Record FrameLayout := {
  header_size : Z; payload_size : Z; padded_payload_size : Z;
  crc_offset : Z; total_size : Z }.

Definition layout_for_payload (size : Z) : FrameLayout :=
  let padded := align_up size PAYLOAD_ALIGNMENT in
  let crc_off := sizeof_FrameHeader +w padded in
  {| header_size := sizeof_FrameHeader; payload_size := size;
     padded_payload_size := padded; crc_offset := crc_off;
     total_size := crc_off +w CRC_SIZE |}.

(** ** codec.cpp *)

Definition parse_frame (buffer : list byte) : option ParsedFrame :=
  if span_size buffer <? sizeof_FrameHeader +w CRC_SIZE then Some empty_frame else
  hb ← span_read buffer 0 sizeof_FrameHeader;
  let h := header_of_bytes hb in
  if negb (magic h =? MAGIC) || negb (version h =? VERSION) then Some empty_frame else
  let psize := payload_length h in
  let layout := layout_for_payload psize in
  if (total_size layout <? sizeof_FrameHeader +w CRC_SIZE)
     || (span_size buffer <? total_size layout) then Some empty_frame else
  wire ← span_read buffer (crc_offset layout) CRC_SIZE;
  covered ← span_read buffer 0 (sizeof_FrameHeader +w psize);
  payload ← span_read buffer sizeof_FrameHeader psize;
  let wire_crc := le_combine wire in
  let computed_crc := crc32c covered in
  Some {| header := h; payload_owned := payload; expected_crc := computed_crc;
          actual_crc := wire_crc; valid := computed_crc =? wire_crc |}.

Definition encode_frame (buffer : list byte) (t : MessageType)
    (flags actor_id message_id : Z) (payload : list byte) : option (list byte * Z) :=
  if negb (payload_size_fits (span_size payload)) then Some (buffer, 0) else
  let layout := layout_for_payload (span_size payload) in
  if (span_size buffer <? total_size layout)
     || (total_size layout <? sizeof_FrameHeader +w CRC_SIZE) then Some (buffer, 0) else
  let h := {| magic := MAGIC; version := VERSION; type := u16 (MessageType_value t);
              flags := flags; reserved := 0; payload_length := u32 (span_size payload);
              actor_id := actor_id; message_id := message_id |} in
  buffer ← span_write buffer 0 (header_bytes h);
  buffer ← (if bool_decide (payload = []) then Some buffer
            else span_write buffer sizeof_FrameHeader payload);
  let padding_size := padded_payload_size layout -w span_size payload in
  buffer ← (if 0 <? padding_size
            then span_write buffer (sizeof_FrameHeader +w span_size payload)
                   (replicate (Z.to_nat padding_size) Byte.x00)
            else Some buffer);
  covered ← span_read buffer 0 (sizeof_FrameHeader +w span_size payload);
  buffer ← span_write buffer (crc_offset layout) (le_split 4 (crc32c covered));
  Some (buffer, total_size layout).

(** The overload without flags and message id. *)
Definition encode_frame_simple (buffer : list byte) (t : MessageType)
    (actor_id : Z) (payload : list byte) : option (list byte * Z) :=
  encode_frame buffer t 0 actor_id 0 payload.

(** ** Specification: the byte image of a frame *)

(** Number of padding bytes after a payload of [n] bytes. *)
Definition pad_len (n : Z) : Z := (- n) `mod` PAYLOAD_ALIGNMENT.

Definition frame_image (h : FrameHeader) (payload padding : list byte) : list byte :=
  header_bytes h ++ payload ++ padding ++ le_split 4 (crc32c (header_bytes h ++ payload)).

(** The header [encode_frame] builds. *)
Definition frame_header (t : MessageType) (fl aid mid n : Z) : FrameHeader :=
  {| magic := MAGIC; version := VERSION; type := MessageType_value t; flags := fl;
     reserved := 0; payload_length := n; actor_id := aid; message_id := mid |}.

Definition header_ok (h : FrameHeader) : Prop :=
  is_u32 (magic h) ∧ is_u16 (version h) ∧ is_u16 (type h) ∧ is_u16 (flags h) ∧
  is_u16 (reserved h) ∧ is_u32 (payload_length h) ∧ is_u64 (actor_id h) ∧
  is_u64 (message_id h).

(** Header and payload belong to the current protocol version and agree. *)
Definition frame_ok (h : FrameHeader) (payload padding : list byte) : Prop :=
  header_ok h ∧ magic h = MAGIC ∧ version h = VERSION ∧
  payload_length h = span_size payload ∧ span_size padding = pad_len (span_size payload).

(** ** Layout lemmas *)

Lemma align8 n : 0 <= n < 2 ^ 32 → align_up n PAYLOAD_ALIGNMENT = n + pad_len n.
Proof.
  intros Hn. unfold pad_len. change PAYLOAD_ALIGNMENT with (2 ^ 3).
  rewrite align_up_pow2 by lia. Z.div_mod_to_equations; lia.
Qed.

Lemma pad_len_range n : 0 <= pad_len n < 8.
Proof. apply Z.mod_pos_bound. done. Qed.

Lemma layout_spec n :
  0 <= n < 2 ^ 32 →
  padded_payload_size (layout_for_payload n) = n + pad_len n ∧
  crc_offset (layout_for_payload n) = 32 + (n + pad_len n) ∧
  total_size (layout_for_payload n) = 36 + (n + pad_len n).
Proof.
  intros Hn. pose proof (pad_len_range n). unfold layout_for_payload. simpl.
  rewrite align8 by done. unfold sizeof_FrameHeader, CRC_SIZE.
  rewrite !u64_small; rewrite ?u64_small; lia.
Qed.

Lemma header_bytes_length h : span_size (header_bytes h) = 32.
Proof. unfold header_bytes. by autorewrite with span. Qed.

Lemma header_of_bytes_of h : header_ok h → header_of_bytes (header_bytes h) = h.
Proof.
  intros (? & ? & ? & ? & ? & ? & ? & ?). unfold header_of_bytes, header_bytes.
  destruct h as [m v t f r p a i]. cbn [magic version type flags reserved payload_length
    actor_id message_id] in *.
  f_equal.
  all: repeat (rewrite drop_app_ge by (rewrite length_le_split; lia);
               rewrite length_le_split; simpl (_ - _)%nat).
  all: rewrite drop_0.
  all: try (rewrite take_app_exact by by rewrite length_le_split).
  all: try (rewrite take_ge by (rewrite length_le_split; lia)).
  all: by apply le_combine_split_small.
Qed.

(** The length field of a header is in range whatever bytes it was read from. *)
Lemma header_of_bytes_ok bs : header_ok (header_of_bytes bs).
Proof.
  assert (H : ∀ off n, 0 <= le_combine (take n (drop off bs)) < 2 ^ (8 * Z.of_nat n)).
  { intros off n. pose proof (le_combine_bound (take n (drop off bs))) as [H1 H2].
    split; [done|]. eapply Z.lt_le_trans; [exact H2|].
    apply Z.pow_le_mono_r; [done|]. rewrite length_take. lia. }
  unfold header_ok, is_u16, is_u32, is_u64; simpl. split_and!; apply H.
Qed.

Lemma header_bytes_of bs : span_size bs = 32 → header_bytes (header_of_bytes bs) = bs.
Proof.
  unfold span_size. intros Hl. unfold header_bytes, header_of_bytes.
  cbn [magic version type flags reserved payload_length actor_id message_id].
  rewrite !split_le_combine' by (rewrite length_take, ?length_drop; lia).
  symmetry. rewrite drop_0. do 7 (apply peel_piece; rewrite ?drop_drop; simpl (_ + _)%nat).
  symmetry. apply take_ge. rewrite length_drop. lia.
Qed.

Lemma frame_image_size h payload padding :
  span_size (frame_image h payload padding) = 36 + (span_size payload + span_size padding).
Proof.
  unfold frame_image. autorewrite with span. rewrite header_bytes_length. lia.
Qed.

Lemma span_size_replicate_Z n b : 0 <= n → span_size (replicate (Z.to_nat n) b) = n.
Proof. intros. rewrite span_size_replicate. lia. Qed.

(** ** [parse_frame] *)

(** A successful header check leaves this: the total the guard compared. *)
Lemma parse_guard_total n : 0 <= n < 2 ^ 32 →
  (total_size (layout_for_payload n) <? sizeof_FrameHeader +w CRC_SIZE) = false.
Proof.
  intros Hn. apply Z.ltb_ge. destruct (layout_spec n Hn) as (_ & _ & ->).
  pose proof (pad_len_range n). change (sizeof_FrameHeader +w CRC_SIZE) with 36. lia.
Qed.

(** The bytes of a buffer that passes every check of [parse_frame]. *)
Lemma parse_frame_split buffer :
  36 <= span_size buffer →
  let h := header_of_bytes (take 32 buffer) in
  total_size (layout_for_payload (payload_length h)) <= span_size buffer →
  ∃ payload padding trailer rest,
    buffer = header_bytes h ++ payload ++ padding ++ trailer ++ rest ∧
    span_size payload = payload_length h ∧
    span_size padding = pad_len (payload_length h) ∧ span_size trailer = 4.
Proof.
  intros Hl h Htot. pose proof (header_of_bytes_ok (take 32 buffer)) as Hok.
  assert (Hn : is_u32 (payload_length h)) by apply Hok.
  destruct (layout_spec _ Hn) as (_ & _ & Ht). rewrite Ht in Htot.
  pose proof (pad_len_range (payload_length h)) as Hp. unfold is_u32 in Hn.
  set (n := payload_length h) in *.
  exists (take (Z.to_nat n) (drop 32 buffer)),
    (take (Z.to_nat (pad_len n)) (drop (32 + Z.to_nat n) buffer)),
    (take 4 (drop (32 + Z.to_nat n + Z.to_nat (pad_len n)) buffer)),
    (drop (36 + Z.to_nat n + Z.to_nat (pad_len n)) buffer).
  unfold span_size in *. rewrite !length_take, !length_drop.
  split; [|lia]. unfold h.
  rewrite header_bytes_of by (unfold span_size; rewrite length_take; lia).
  do 4 (apply peel_piece; rewrite ?drop_drop). f_equal. lia.
Qed.

(** What [parse_frame] returns on a buffer that passes the header checks. *)
Lemma parse_frame_eq h payload padding trailer rest :
  frame_ok h payload padding → span_size trailer = 4 →
  parse_frame (header_bytes h ++ payload ++ padding ++ trailer ++ rest) =
    let c := crc32c (header_bytes h ++ payload) in
    Some {| header := h; payload_owned := payload; expected_crc := c;
            actual_crc := le_combine trailer; valid := c =? le_combine trailer |}.
Proof.
  intros (Hok & Hm & Hv & Hlen & Hpad) Ht.
  rewrite <- Hlen in Hpad.
  pose proof (header_bytes_length h) as Hh. pose proof (pad_len_range (payload_length h)).
  pose proof (span_size_nonneg rest). assert (Hn : is_u32 (payload_length h)) by apply Hok.
  destruct (layout_spec _ Hn) as (_ & Hco & Hto). unfold is_u32 in Hn.
  unfold parse_frame. rewrite !span_size_app. change (sizeof_FrameHeader +w CRC_SIZE) with 36.
  rewrite (proj2 (Z.ltb_ge _ 36)) by lia.
  rewrite (span_read_prefix (header_bytes h)) by done.
  cbn [mbind option_bind]. rewrite header_of_bytes_of, Hm, Hv by done.
  cbn [negb orb Z.eqb MAGIC VERSION Pos.eqb]. pose proof (parse_guard_total _ Hn) as Hg.
  change (sizeof_FrameHeader +w CRC_SIZE) with 36 in Hg. rewrite Hg. cbn [orb].
  rewrite (proj2 (Z.ltb_ge _ _)) by lia. rewrite Hco.
  rewrite !app_assoc, <- (app_assoc _ trailer rest).
  rewrite (span_read_mid _ trailer rest (32 + _)) by (rewrite ?span_size_app; unfold CRC_SIZE; lia).
  cbn [mbind option_bind]. rewrite <- (app_assoc _ padding).
  rewrite u64_small by (unfold sizeof_FrameHeader; lia).
  rewrite (span_read_prefix (header_bytes h ++ payload))
    by (rewrite span_size_app; unfold sizeof_FrameHeader; lia).
  cbn [mbind option_bind]. rewrite <- app_assoc.
  by rewrite (span_read_mid (header_bytes h) payload _ sizeof_FrameHeader) by (unfold sizeof_FrameHeader; lia).
Qed.

(** ** [encode_frame] *)

Lemma MessageType_value_u16 t : u16 (MessageType_value t) = MessageType_value t.
Proof. by destruct t. Qed.

(** The size test of [encode_frame], as a fact about the lengths. *)
Definition encode_fits (buffer payload : list byte) : Prop :=
  span_size payload < 2 ^ 32 ∧
  36 + (span_size payload + pad_len (span_size payload)) <= span_size buffer.

#[export] Instance encode_fits_dec buffer payload : Decision (encode_fits buffer payload).
Proof. unfold encode_fits. apply _. Defined.

(** A buffer that is large enough, cut at the boundaries of the frame. *)
Lemma encode_buffer_split buffer n :
  0 <= n → 36 + (n + pad_len n) <= span_size buffer →
  ∃ hb p0 z0 c0, buffer = hb ++ p0 ++ z0 ++ c0 ++ drop (Z.to_nat (36 + (n + pad_len n))) buffer ∧
    span_size hb = 32 ∧ span_size p0 = n ∧ span_size z0 = pad_len n ∧ span_size c0 = 4.
Proof.
  intros Hn Hb. pose proof (pad_len_range n).
  exists (take 32 buffer), (take (Z.to_nat n) (drop 32 buffer)),
    (take (Z.to_nat (pad_len n)) (drop (32 + Z.to_nat n) buffer)),
    (take 4 (drop (32 + Z.to_nat n + Z.to_nat (pad_len n)) buffer)).
  unfold span_size in *. rewrite !length_take, !length_drop. split; [|lia].
  rewrite <- (drop_0 buffer) at 1. rewrite <- (drop_0 buffer) at 2.
  do 4 (apply peel_piece; rewrite ?drop_drop). f_equal. lia.
Qed.

Lemma encode_frame_fits buffer t fl aid mid payload :
  encode_fits buffer payload →
  let n := span_size payload in
  encode_frame buffer t fl aid mid payload =
    Some (frame_image (frame_header t fl aid mid n) payload
            (replicate (Z.to_nat (pad_len n)) Byte.x00) ++
          drop (Z.to_nat (36 + (n + pad_len n))) buffer, 36 + (n + pad_len n)).
Proof.
  intros [Hn Hb] n. fold n in Hn, Hb. pose proof (span_size_nonneg payload : 0 <= n) as Hn0.
  pose proof (pad_len_range n) as Hp.
  destruct (layout_spec n) as (Hpad & Hco & Hto); [lia|].
  unfold encode_frame. fold n. change (sizeof_FrameHeader +w CRC_SIZE) with 36.
  rewrite Hto, Hco, Hpad. unfold payload_size_fits.
  rewrite (proj2 (Z.leb_le _ _)), (proj2 (Z.ltb_ge (span_size buffer) _)),
    (proj2 (Z.ltb_ge _ 36)) by lia.
  cbn [negb orb].
  rewrite MessageType_value_u16, (u32_small n), (u64_small (_ - n)),
    (u64_small (sizeof_FrameHeader + n)) by (unfold sizeof_FrameHeader; lia).
  replace (n + pad_len n - n) with (pad_len n) by lia.
  change {| magic := MAGIC |} with (frame_header t fl aid mid n).
  pose proof (header_bytes_length (frame_header t fl aid mid n)) as Hh.
  destruct (encode_buffer_split buffer n Hn0 Hb) as (hb & p0 & z0 & c0 & Hbuf & L1 & L2 & L3 & L4).
  set (rest := drop _ buffer) in *. rewrite Hbuf. clear Hbuf Hb.
  unfold frame_image. set (H := header_bytes _) in *.
  assert (Hlen : ∀ a b, span_size a = span_size b → length a = length b)
    by (unfold span_size; intros; lia).
  rewrite (span_write_prefix hb) by (apply Hlen; lia). cbn [mbind option_bind].
  replace (if bool_decide (payload = []) then _ else _)
    with (Some (H ++ payload ++ z0 ++ c0 ++ rest)).
  2: { case_bool_decide as E.
       - subst payload. assert (p0 = []) as -> by (apply nil_length_inv, (Hlen _ []); done). done.
       - by rewrite (span_write_mid H p0) by (done || apply Hlen; lia). }
  cbn [mbind option_bind]. set (Z0 := replicate _ Byte.x00).
  assert (HZ : span_size Z0 = pad_len n) by (apply span_size_replicate_Z; lia).
  replace (if 0 <? pad_len n then _ else _) with (Some (H ++ payload ++ Z0 ++ c0 ++ rest)).
  2: { destruct (Z.ltb_spec 0 (pad_len n)).
       - rewrite (app_assoc H payload (z0 ++ _)), (span_write_mid (H ++ payload) z0);
           [by rewrite <- app_assoc| |].
         + rewrite span_size_app. unfold sizeof_FrameHeader. lia.
         + apply Hlen. lia.
       - replace Z0 with z0; [done|]. transitivity (@nil byte); [|symmetry];
           apply nil_length_inv, (Hlen _ []); change (span_size []) with 0; lia. }
  cbn [mbind option_bind]. rewrite (app_assoc H).
  rewrite (span_read_prefix (H ++ payload))
    by (rewrite span_size_app; unfold sizeof_FrameHeader; lia).
  cbn [mbind option_bind]. rewrite (app_assoc (H ++ payload)).
  rewrite (span_write_mid _ c0) by (rewrite ?span_size_app, ?length_le_split;
    unfold span_size in *; lia).
  cbn [mbind option_bind]. by rewrite <- !app_assoc.
Qed.

Lemma encode_frame_too_big buffer t fl aid mid payload :
  ¬ encode_fits buffer payload →
  encode_frame buffer t fl aid mid payload = Some (buffer, 0).
Proof.
  intros Hf. unfold encode_frame, payload_size_fits.
  destruct (Z.leb_spec (span_size payload) (2 ^ 32 - 1)); [|done]. cbn [negb].
  pose proof (span_size_nonneg payload).
  destruct (layout_spec (span_size payload)) as (_ & _ & ->); [lia|].
  rewrite (proj2 (Z.ltb_lt (span_size buffer) _)); [done|].
  unfold encode_fits in Hf. lia.
Qed.

Lemma frame_header_ok t fl aid mid payload :
  is_u16 fl → is_u64 aid → is_u64 mid → span_size payload < 2 ^ 32 →
  let n := span_size payload in
  frame_ok (frame_header t fl aid mid n) payload (replicate (Z.to_nat (pad_len n)) Byte.x00).
Proof.
  intros Hf Ha Hm Hn n. pose proof (span_size_nonneg payload : 0 <= n).
  pose proof (pad_len_range n). unfold frame_ok, header_ok; simpl.
  split_and!; try done; try (unfold is_u16, is_u32; by destruct t).
  apply span_size_replicate_Z. fold n. lia.
Qed.

(** ** Acceptance *)

Definition valid_frame (h : FrameHeader) (payload : list byte) : ParsedFrame :=
  let c := crc32c (header_bytes h ++ payload) in
  {| header := h; payload_owned := payload; expected_crc := c; actual_crc := c;
     valid := true |}.

Lemma parse_frame_image h payload padding rest :
  frame_ok h payload padding →
  parse_frame (frame_image h payload padding ++ rest) = Some (valid_frame h payload).
Proof.
  intros Hok. unfold frame_image. rewrite <- !app_assoc.
  rewrite parse_frame_eq by (done || apply span_size_le_split).
  rewrite le_combine_split_small by apply crc32c_range. simpl.
  by rewrite Z.eqb_refl.
Qed.

(** A buffer is rejected before its checksum is looked at, or it has the shape
    of a frame up to the four bytes of the trailer. *)
Lemma parse_frame_cases buffer :
  parse_frame buffer = Some empty_frame ∨
  ∃ h payload padding trailer rest, frame_ok h payload padding ∧ span_size trailer = 4 ∧
    buffer = header_bytes h ++ payload ++ padding ++ trailer ++ rest.
Proof.
  unfold parse_frame. change (sizeof_FrameHeader +w CRC_SIZE) with 36.
  destruct (Z.ltb_spec (span_size buffer) 36) as [|Hsz]; [by left|].
  assert (span_read buffer 0 sizeof_FrameHeader = Some (take 32 buffer)) as ->.
  { rewrite <- (take_drop 32 buffer) at 1. apply span_read_prefix.
    unfold span_size, sizeof_FrameHeader in *. rewrite length_take. lia. }
  cbn [mbind option_bind]. pose proof (header_of_bytes_ok (take 32 buffer)) as Hok.
  pose proof (parse_frame_split buffer Hsz) as Hsplit.
  set (h := header_of_bytes (take 32 buffer)) in *. simpl in Hsplit.
  destruct (Z.eqb_spec (magic h) MAGIC) as [Hm|]; [|by left].
  destruct (Z.eqb_spec (version h) VERSION) as [Hv|]; [|by left]. cbn [negb orb].
  assert (Hn : is_u32 (payload_length h)) by apply Hok.
  pose proof (parse_guard_total _ Hn) as Hg.
  change (sizeof_FrameHeader +w CRC_SIZE) with 36 in Hg. rewrite Hg. cbn [orb].
  destruct (Z.ltb_spec (span_size buffer) (total_size (layout_for_payload (payload_length h))))
    as [|Ht]; [by left|]. right.
  destruct (Hsplit Ht) as (payload & padding & trailer & rest & Hb & L1 & L2 & L3).
  exists h, payload, padding, trailer, rest. split; [|done].
  unfold frame_ok. by rewrite L1.
Qed.

(** Header and payload of a buffer that has the shape of a frame are what its length field
    cuts off. *)
Lemma frame_pieces_unique h payload padding h0 pl0 padding0 damaged tr tr0 rest rest0 :
  frame_ok h payload padding → frame_ok h0 pl0 padding0 →
  length (header_bytes h ++ payload) = length damaged →
  payload_length (header_of_bytes (take 32 damaged)) = payload_length h →
  span_size tr = 4 → span_size tr0 = 4 →
  damaged ++ padding ++ tr ++ rest = header_bytes h0 ++ pl0 ++ padding0 ++ tr0 ++ rest0 →
  damaged = header_bytes h0 ++ pl0 ∧ tr0 = tr.
Proof.
  intros (_ & _ & _ & Hn & Hp) (Hok0 & _ & _ & Hn0 & Hp0) Hsize Hlen Htr Htr0 Hb.
  pose proof (header_bytes_length h) as Hh. pose proof (header_bytes_length h0) as Hh0.
  unfold span_size in *. rewrite length_app in Hsize.
  assert (take 32 damaged = header_bytes h0) as Ht.
  { apply (f_equal (take 32)) in Hb. rewrite take_app_le in Hb by lia. rewrite Hb.
    apply take_app_length'. lia. }
  rewrite Ht, header_of_bytes_of in Hlen by done.
  assert (length pl0 = length payload) as Hpl by lia. rewrite Hpl in Hp0.
  rewrite (app_assoc (header_bytes h0)) in Hb.
  apply app_inj_1 in Hb as [-> Hb]; [|rewrite length_app; lia].
  apply app_inj_1 in Hb as [_ Hb]; [|lia]. apply app_inj_1 in Hb as [-> _]; [done|lia].
Qed.

(** ** Properties *)

(** C1. Round trip of the codec: when the buffer is large enough, [encode_frame]
    returns the size announced by [encoded_frame_size], leaves the bytes after the
    frame alone, and [parse_frame] of the result (with anything after it) is a valid
    frame carrying exactly the given type, flags, ids and payload. *)
Theorem encode_parse_roundtrip buffer t fl aid mid payload :
  is_u16 fl → is_u64 aid → is_u64 mid → encode_fits buffer payload →
  let n := encoded_frame_size (span_size payload) in
  ∃ frame,
    encode_frame buffer t fl aid mid payload = Some (frame ++ drop (Z.to_nat n) buffer, n) ∧
    span_size frame = n ∧
    ∀ rest, parse_frame (frame ++ rest) =
      Some (valid_frame (frame_header t fl aid mid (span_size payload)) payload).
Proof.
  intros Hf Ha Hm Hfit n. pose proof (proj1 Hfit) as Hn.
  pose proof (span_size_nonneg payload). pose proof (pad_len_range (span_size payload)).
  assert (n = 36 + (span_size payload + pad_len (span_size payload))) as Hn'.
  { unfold n, encoded_frame_size. rewrite align8 by lia.
    unfold sizeof_FrameHeader, CRC_SIZE. rewrite !u64_small; rewrite ?u64_small; lia. }
  exists (frame_image (frame_header t fl aid mid (span_size payload)) payload
    (replicate (Z.to_nat (pad_len (span_size payload))) Byte.x00)).
  rewrite Hn'. split; [by apply encode_frame_fits|]. split.
  - rewrite frame_image_size, span_size_replicate_Z by lia. lia.
  - intros rest. by apply parse_frame_image, frame_header_ok.
Qed.

Lemma encode_parse_roundtrip_witness :
  ∃ frame,
    encode_frame (replicate 50 Byte.x00) ActorMessage 7 42 99 [Byte.x11; Byte.x22; Byte.x33] =
      Some (frame ++ drop 44 (replicate 50 Byte.x00), 44) ∧
    ∀ rest, parse_frame (frame ++ rest) =
      Some (valid_frame (frame_header ActorMessage 7 42 99 3) [Byte.x11; Byte.x22; Byte.x33]).
Proof.
  destruct (encode_parse_roundtrip (replicate 50 Byte.x00) ActorMessage 7 42 99
    [Byte.x11; Byte.x22; Byte.x33]) as (frame & H1 & _ & H2);
    [unfold is_u16; lia | unfold is_u64; lia | unfold is_u64; lia | split; vm_compute; done |].
  exists frame. split; [exact H1 | exact H2].
Defined.

(** C3. [parse_frame] is total on untrusted input and accepts exactly the frames:
    on every buffer it returns a result without leaving the buffer, and that result
    exposes header [h] and payload [pl] if and only if the buffer starts with the
    byte image of a well-formed frame for [h] and [pl]. *)
Theorem parse_frame_accepts_exactly_frames buffer :
  ∃ p, parse_frame buffer = Some p ∧
    ∀ h pl, header_ptr p = Some h ∧ payload_owned p = pl ↔
      ∃ padding rest, frame_ok h pl padding ∧ buffer = frame_image h pl padding ++ rest.
Proof.
  assert (Hback : ∀ p, parse_frame buffer = Some p → ∀ h pl,
    (∃ padding rest, frame_ok h pl padding ∧ buffer = frame_image h pl padding ++ rest) →
    header_ptr p = Some h ∧ payload_owned p = pl).
  { intros p Hp h pl (padding & rest & Hok & ->).
    rewrite parse_frame_image in Hp by done. injection Hp as <-. done. }
  destruct (parse_frame_cases buffer) as [He|(h0 & pl0 & padding & tr & rest & Hok & Ht & Hb)].
  - exists empty_frame. split; [done|]. intros h pl. split; [by intros [? _]|by apply (Hback _ He)].
  - pose proof (parse_frame_eq h0 pl0 padding tr rest Hok Ht) as Hp. rewrite <- Hb in Hp.
    eexists. split; [exact Hp|]. intros h pl. split; [|by apply (Hback _ Hp)].
    unfold header_ptr. cbn [valid header payload_owned].
    destruct (Z.eqb_spec (crc32c (header_bytes h0 ++ pl0)) (le_combine tr)) as [Hc|];
      [|by intros [? _]].
    intros [[= <-] <-]. exists padding, rest. split; [done|]. unfold frame_image.
    rewrite Hc, split_le_combine' by (unfold span_size in Ht; lia). by rewrite <- !app_assoc.
Qed.

(** C4. Damage in transit is detected, except in the length field: take a frame and
    replace its header and payload bytes, well-formed afterwards or not, by others that
    differ from them in a window of at most 32 consecutive bits and announce the same
    payload length; let the padding be anything. Whatever follows the frame,
    [parse_frame] does not report a valid frame. (Damage to the length field changes
    which bytes are checked: [damaged_length_can_pass].) *)
Theorem parse_frame_detects_burst h payload padding damaged k rest :
  frame_ok h payload padding →
  burst32 (header_bytes h ++ payload) damaged k →
  payload_length (header_of_bytes (take 32 damaged)) = payload_length h →
  ∃ p, parse_frame (damaged ++ padding ++ le_split 4 (crc32c (header_bytes h ++ payload)) ++ rest) = Some p ∧
       valid p = false ∧ header_ptr p = None.
Proof.
  intros Hok Hburst Hlen. pose proof (proj1 Hburst) as Hsize. apply crc32c_burst_neq in Hburst.
  set (crc := crc32c (header_bytes h ++ payload)) in *.
  destruct (parse_frame_cases (damaged ++ padding ++ le_split 4 crc ++ rest))
    as [He|(h0 & pl0 & padding0 & tr & rest0 & Hok0 & Htr & Hb)].
  { exists empty_frame. by split_and!. }
  assert (damaged = header_bytes h0 ++ pl0 ∧ tr = le_split 4 crc) as [-> ->].
  { by apply (frame_pieces_unique h payload padding h0 pl0 padding0 damaged _ _ rest rest0). }
  rewrite Hb, parse_frame_eq by done. eexists. split; [done|]. unfold header_ptr. cbn [valid].
  rewrite le_combine_split_small by apply crc32c_range.
  by rewrite (proj2 (Z.eqb_neq _ _)) by congruence.
Qed.

(** One bit of the length field, and what is checked is a frame inside the payload. *)
Lemma damaged_length_can_pass :
  let inner := frame_header Heartbeat 0 7 0 4 in
  let payload := drop 32 (frame_image inner (replicate 4 Byte.xaa) (replicate 4 Byte.x00)) in
  let h := frame_header Heartbeat 0 7 0 12 in
  frame_ok h payload (replicate 4 Byte.x00) ∧
  burst32 (header_bytes h ++ payload) (header_bytes inner ++ payload) 99 ∧
  parse_frame (header_bytes inner ++ payload ++ replicate 4 Byte.x00 ++
    le_split 4 (crc32c (header_bytes h ++ payload))) = Some (valid_frame inner (replicate 4 Byte.xaa)).
Proof.
  cbv zeta. split; [|split].
  - apply (frame_header_ok Heartbeat 0 7 0 (drop 32 (frame_image (frame_header Heartbeat 0 7 0 4)
      (replicate 4 Byte.xaa) (replicate 4 Byte.x00)))); unfold is_u16, is_u64; done || lia.
  - split; [by vm_compute|]. split; [done|]. exists 1. split; [done|]. by vm_compute.
  - by vm_compute.
Qed.

Definition demo_header : FrameHeader := frame_header Heartbeat 0 7 0 4.

Lemma parse_frame_detects_burst_witness :
  ∃ p, parse_frame (header_bytes demo_header ++ [Byte.xab; Byte.xbb; Byte.xcc; Byte.xdd] ++
         replicate 4 Byte.x00 ++
         le_split 4 (crc32c (header_bytes demo_header ++
           [Byte.xaa; Byte.xbb; Byte.xcc; Byte.xdd])) ++ []) = Some p ∧ valid p = false.
Proof.
  destruct (parse_frame_detects_burst demo_header [Byte.xaa; Byte.xbb; Byte.xcc; Byte.xdd]
    (replicate 4 Byte.x00) (header_bytes demo_header ++ [Byte.xab; Byte.xbb; Byte.xcc; Byte.xdd]) 256 [])
    as (p & H1 & H2 & _).
  - apply (frame_header_ok Heartbeat 0 7 0 [Byte.xaa; Byte.xbb; Byte.xcc; Byte.xdd]);
      unfold is_u16, is_u64; done || lia.
  - split; [done|]. split; [done|]. exists 1. split; [done|]. vm_compute. reflexivity.
  - done.
  - exists p. split; [exact H1|exact H2].
Defined.
