(* ===== verification/Arena.v ===== *)
(** * Arena allocator ([include/jellybean/memory/arena.hpp], [src/memory/arena.cpp])

    The heap is a finite map from addresses to the blocks [malloc] handed out, each
    with its length in bytes and the [Block] header the arena keeps at its start.
    The arena is its six fields; pointers are 64-bit words, 0 is [nullptr].
    [malloc] is a parameter: it answers 0 or the address of fresh memory. *)
From S2P Require Import Prelude.

(** ** Data *)

Record Block := { next : Z; size : Z; used : Z }.

(** An allocated piece of the heap. *)
Record chunk := { bytes : Z; header : Block }.

Abbreviation heap := (gmap Z chunk).

(** [sizeof(Block)] and the offset of [data] (three words, then
    [alignas(std::max_align_t)]). *)
Definition sizeof_Block : Z := 48.

Definition data (block : Z) : Z := block + 32.

Record ArenaAllocator := {
  current_ : Z;
  end_ : Z;
  head_ : Z;
  first_block_ : Z;
  block_size_ : Z;
  total_allocated_ : Z }.

Definition DEFAULT_BLOCK_SIZE : Z := 2 * 1024 * 1024.

Definition arena_new (block_size : Z) : ArenaAllocator := {|
  current_ := 0; end_ := 0; head_ := 0; first_block_ := 0;
  block_size_ := block_size; total_allocated_ := 0 |}.

(** ** Operations *)

Section operations.
Context (malloc : heap → Z → Z).

Definition set_header (h : heap) (p : Z) (f : Block → Block) : outcome heap :=
  c ← deref (h !! p);
  mret (<[p := {| bytes := bytes c; header := f (header c) |}]> h).

Definition set_used (u : Z) (b : Block) : Block :=
  {| next := next b; size := size b; used := u |}.

Definition set_next (n : Z) (b : Block) : Block :=
  {| next := n; size := size b; used := used b |}.

Definition allocate_block (a : ArenaAllocator) (h : heap) (min_size : Z) :
    outcome (Z * ArenaAllocator * heap) :=
  let sz := Z.max (block_size_ a) min_size in
  let n := sizeof_Block +w sz -w 1 in
  let ptr := malloc h n in
  if ptr =? 0 then Fault Aborted else
  let h := <[ptr := {| bytes := n; header := {| next := 0; size := sz; used := 0 |} |}]> h in
  h ← (if first_block_ a =? 0 then mret h else set_header h (head_ a) (set_next ptr));
  mret (ptr,
        {| current_ := current_ a; end_ := end_ a; head_ := ptr;
           first_block_ := if first_block_ a =? 0 then ptr else first_block_ a;
           block_size_ := block_size_ a; total_allocated_ := total_allocated_ a +w sz |},
        h).

Definition allocate_slow (a : ArenaAllocator) (h : heap) (sz alignment : Z) :
    outcome (Z * ArenaAllocator * heap) :=
  h ← (if head_ a =? 0 then mret h
       else set_header h (head_ a) (set_used (current_ a -w data (head_ a))));
  let min_size := sz +w alignment in
  ' (block, a, h) ← allocate_block a h min_size;
  let cur := data block in
  let aligned := align_up cur alignment in
  c ← deref (h !! block);
  mret (aligned,
        {| current_ := aligned +w sz; end_ := data block +w size (header c);
           head_ := head_ a; first_block_ := first_block_ a;
           block_size_ := block_size_ a; total_allocated_ := total_allocated_ a |},
        h).

Definition allocate (a : ArenaAllocator) (h : heap) (sz alignment : Z) :
    outcome (Z * ArenaAllocator * heap) :=
  assert (negb (alignment =? 0));;
  assert (Z.land alignment (alignment -w 1) =? 0);;
  let cur := current_ a in
  let aligned := align_up cur alignment in
  assert (cur <=? aligned);;
  let next := aligned +w sz in
  assert (aligned <=? next);;
  if next <=? end_ a then
    mret (aligned,
          {| current_ := next; end_ := end_ a; head_ := head_ a;
             first_block_ := first_block_ a; block_size_ := block_size_ a;
             total_allocated_ := total_allocated_ a |}, h)
  else allocate_slow a h sz alignment.
End operations.

(** The [while (curr)] loop of the destructor and of the move assignment. *)
Fixpoint free_blocks (fuel : nat) (h : heap) (curr : Z) : outcome heap :=
  match fuel with
  | O => Fault OutOfFuel
  | S fuel =>
      if curr =? 0 then mret h
      else c ← deref (h !! curr); free_blocks fuel (delete curr h) (next (header c))
  end.

(** The chain has at most as many blocks as the heap. *)
Definition chain_fuel (h : heap) : nat := S (S (map_size h)).

Definition arena_destroy (a : ArenaAllocator) (h : heap) : outcome heap :=
  free_blocks (chain_fuel h) h (first_block_ a).

(** The moved-to object and what is left of [other]. *)
Definition arena_move (other : ArenaAllocator) : ArenaAllocator * ArenaAllocator :=
  (other,
   {| current_ := 0; end_ := 0; head_ := 0; first_block_ := 0;
      block_size_ := block_size_ other; total_allocated_ := 0 |}).

(** [this != &other]; assigning an arena to itself does nothing. *)
Definition arena_move_assign (this other : ArenaAllocator) (h : heap) :
    outcome (ArenaAllocator * ArenaAllocator * heap) :=
  h ← free_blocks (chain_fuel h) h (first_block_ this);
  mret (arena_move other, h).

Fixpoint sum_used (fuel : nat) (a : ArenaAllocator) (h : heap) (total curr : Z) : outcome Z :=
  match fuel with
  | O => Fault OutOfFuel
  | S fuel =>
      if curr =? 0 then mret total
      else c ← deref (h !! curr);
           sum_used fuel a h
             (total +w (if curr =? head_ a then current_ a -w data curr else used (header c)))
             (next (header c))
  end.

Definition bytes_allocated (a : ArenaAllocator) (h : heap) : outcome Z :=
  sum_used (chain_fuel h) a h 0 (first_block_ a).

Definition bytes_wasted (a : ArenaAllocator) (h : heap) : outcome Z :=
  n ← bytes_allocated a h; mret (total_allocated_ a -w n).

Fixpoint clear_used (fuel : nat) (h : heap) (curr : Z) : outcome heap :=
  match fuel with
  | O => Fault OutOfFuel
  | S fuel =>
      if curr =? 0 then mret h
      else c ← deref (h !! curr);
           h ← set_header h curr (set_used 0);
           clear_used fuel h (next (header c))
  end.

Definition reset (a : ArenaAllocator) (h : heap) : outcome (ArenaAllocator * heap) :=
  if first_block_ a =? 0 then mret (a, h)
  else
    h ← clear_used (chain_fuel h) h (first_block_ a);
    c ← deref (h !! first_block_ a);
    mret ({| current_ := data (first_block_ a);
             end_ := data (first_block_ a) +w size (header c);
             head_ := first_block_ a; first_block_ := first_block_ a;
             block_size_ := block_size_ a; total_allocated_ := total_allocated_ a |}, h).

(** ** Invariant *)

Definition disjoint (p n q m : Z) : Prop := p + n <= q ∨ q + m <= p.

(** User-space addresses of x86-64. *)
Abbreviation address_limit := (2 ^ 47).

(** Pieces of the heap are inside the address space and do not overlap. *)
Record heap_ok (h : heap) : Prop := {
  heap_bounds : ∀ p c, h !! p = Some c → 0 < p ∧ 0 < bytes c ∧ p + bytes c <= address_limit;
  heap_disjoint : ∀ p q c d, h !! p = Some c → h !! q = Some d → p ≠ q →
    disjoint p (bytes c) q (bytes d) }.

(** What the arena relies on of [malloc]: a non-null answer is fresh memory. *)
Class MallocSpec (malloc : heap → Z → Z) : Prop :=
  malloc_fresh : ∀ h n, 0 < n → malloc h n ≠ 0 →
    0 < malloc h n ∧ malloc h n + n <= address_limit ∧ h !! malloc h n = None ∧
    ∀ q c, h !! q = Some c → disjoint (malloc h n) n q (bytes c).

Definition next_of (h : heap) (b : Z) : option Z := (λ c, next (header c)) <$> h !! b.

(** Following [next] from [p] visits exactly the blocks [bs]. *)
Fixpoint chain (h : heap) (p : Z) (bs : list Z) : Prop :=
  match bs with
  | [] => p = 0
  | b :: bs => p = b ∧ b ≠ 0 ∧ ∃ n, next_of h b = Some n ∧ chain h n bs
  end.

(** The bytes of block [b] already given out. *)
Definition fill (a : ArenaAllocator) (b : Z) (c : chunk) : Z :=
  if b =? head_ a then current_ a - data b else used (header c).

(** [pre]: the blocks up to the active one; [post]: the blocks behind it (after a
    [reset]); [orphans]: blocks no longer in the chain; [live]: the non-empty
    regions given out since the last [reset]; [h0]: the heap when the arena was
    made. *)
Record arena_ok (a : ArenaAllocator) (h0 h : heap) (pre post orphans : list Z)
    (live : list (Z * Z)) : Prop := {
  ok_heap : heap_ok h;
  ok_chain : chain h (first_block_ a) (pre ++ post);
  ok_nodup : NoDup (pre ++ post ++ orphans);
  ok_foreign : ∀ p, p ∉ pre ++ post ++ orphans → h !! p = h0 !! p;
  ok_owned : ∀ p, p ∈ pre ++ post ++ orphans → h0 !! p = None ∧
    ∃ c, h !! p = Some c ∧ bytes c = 47 + size (header c) ∧
      0 <= used (header c) <= size (header c);
  ok_head : match last pre with
    | None => head_ a = 0 ∧ current_ a = 0 ∧ end_ a = 0 ∧ post = []
    | Some b => head_ a = b ∧ ∃ c, h !! b = Some c ∧
        data b <= current_ a <= end_ a ∧ end_ a = data b + size (header c)
    end;
  ok_post : ∀ b c, b ∈ post → h !! b = Some c → used (header c) = 0;
  ok_live : ∀ p n, (p, n) ∈ live → 0 < n ∧ ∃ b c, b ∈ pre ∧ h !! b = Some c ∧
    data b <= p ∧ p + n <= data b + fill a b c;
  ok_disjoint : ForallOrdPairs (λ r1 r2, disjoint r1.1 r1.2 r2.1 r2.2) live;
  ok_block_size : 0 <= block_size_ a ∧ block_size_ a + 48 < 2 ^ 64 }.

(** ** Chains *)

Lemma chain_ext h h' p bs :
  chain h p bs → (∀ b, b ∈ bs → next_of h' b = next_of h b) → chain h' p bs.
Proof.
  revert p. induction bs as [|b bs IH]; intros p; [done|].
  intros (-> & Hb & n & Hn & Hc) He. split_and!; [done|done|]. exists n.
  rewrite He by set_solver. split; [done|]. apply IH; [done|]. set_solver.
Qed.

Lemma chain_elem h p bs b : chain h p bs → b ∈ bs → b ≠ 0 ∧ ∃ c, h !! b = Some c.
Proof.
  revert p. induction bs as [|x bs IH]; intros p; [by intros _ ?%elem_of_nil|].
  intros (-> & Hx & n & Hn & Hc) [->|Hb]%elem_of_cons; [|by eapply IH].
  split; [done|]. unfold next_of in Hn. destruct (h !! x) as [c|]; [by exists c|done].
Qed.

Lemma chain_first h p bs : chain h p bs → p = from_option id 0 (head bs).
Proof. destruct bs as [|b bs]; simpl; [done|]. by intros [-> _]. Qed.

(** [b->next = ptr] cuts the chain behind [b] and appends the block [ptr]. *)
Lemma chain_append h h' p l b post ptr :
  chain h p (l ++ b :: post) → (∀ x, x ∈ l → next_of h' x = next_of h x) →
  next_of h' b = Some ptr → ptr ≠ 0 → next_of h' ptr = Some 0 →
  chain h' p (l ++ [b; ptr]).
Proof.
  revert p. induction l as [|x l IH]; intros p; simpl.
  - intros (-> & Hb & n & _ & _) _ Hnb Hp Hnp. split_and!; [done|done|].
    exists ptr. split_and!; [done|done|done|]. by exists 0.
  - intros (-> & Hx & n & Hn & Hc) He Hnb Hp Hnp. split_and!; [done|done|].
    exists n. rewrite He by set_solver. split; [done|]. apply IH; [done| |done..].
    set_solver.
Qed.

Lemma last_inv {A} (l : list A) x : last l = Some x → ∃ l', l = l' ++ [x].
Proof.
  intros H. destruct (exists_last (l := l)) as (l' & y & ->); [by destruct l|].
  rewrite last_snoc in H. injection H as ->. by exists l'.
Qed.

(** ** Heap updates *)

Lemma set_header_done h p f c :
  h !! p = Some c →
  set_header h p f = Done (<[p := {| bytes := bytes c; header := f (header c) |}]> h).
Proof. intros Hc. unfold set_header. by rewrite Hc. Qed.

Lemma next_of_update h p c b x :
  h !! p = Some c → next b = next (header c) →
  next_of (<[p := {| bytes := bytes c; header := b |}]> h) x = next_of h x.
Proof.
  intros Hc Hn. unfold next_of. destruct (decide (p = x)) as [<-|].
  - by rewrite lookup_insert_eq, Hc; simpl; rewrite Hn.
  - by rewrite lookup_insert_ne.
Qed.

Lemma heap_ok_update h p c b :
  heap_ok h → h !! p = Some c → heap_ok (<[p := {| bytes := bytes c; header := b |}]> h).
Proof.
  intros [Hb Hd] Hc.
  assert (Hold : ∀ q d, <[p := {| bytes := bytes c; header := b |}]> h !! q = Some d →
    ∃ d', h !! q = Some d' ∧ bytes d' = bytes d).
  { intros q d. destruct (decide (p = q)) as [<-|].
    - rewrite lookup_insert_eq. intros [= <-]. by exists c.
    - rewrite lookup_insert_ne by done. by exists d. }
  split.
  - intros q d (d' & Hq & <-)%Hold. by apply Hb.
  - intros q r d e (d' & Hq & <-)%Hold (e' & Hr & <-)%Hold. by apply Hd.
Qed.

Lemma heap_ok_insert h p c :
  heap_ok h → 0 < p → 0 < bytes c → p + bytes c <= address_limit →
  (∀ q d, h !! q = Some d → disjoint p (bytes c) q (bytes d)) →
  heap_ok (<[p := c]> h).
Proof.
  intros [Hb Hd] Hp Hc Hpc Hfresh. split.
  - intros q d [[<- <-]|[_ ?]]%lookup_insert_Some; [done|by apply Hb].
  - intros q r d e [[<- <-]|[? Hq]]%lookup_insert_Some [[<- <-]|[? Hr]]%lookup_insert_Some Hne;
      [done|by apply Hfresh| |by apply Hd].
    destruct (Hfresh _ _ Hq); [by right|by left].
Qed.

(** A change of the [used] field of a block of the chain. *)
Lemma ok_set_used a h0 h pre post orphans live p u c :
  arena_ok a h0 h pre post orphans live →
  h !! p = Some c → p ∈ pre ++ post → 0 <= u <= size (header c) →
  (p ∈ post → u = 0) → (live = [] ∨ p = head_ a) →
  arena_ok a h0 (<[p := {| bytes := bytes c; header := set_used u (header c) |}]> h)
    pre post orphans live.
Proof.
  intros [] Hc Hp Hu Hpost Hlive. set (h' := <[p := _]> h).
  assert (Hself : h' !! p = Some {| bytes := bytes c; header := set_used u (header c) |})
    by apply lookup_insert_eq.
  assert (Hother : ∀ q, p ≠ q → h' !! q = h !! q) by (intros; by apply lookup_insert_ne).
  split; try done.
  - by apply heap_ok_update.
  - eapply chain_ext; [done|]. intros. by apply next_of_update.
  - intros q Hq. rewrite Hother; [by apply ok_foreign0|]. set_solver.
  - intros q Hq. destruct (ok_owned0 q Hq) as (? & d & Hd & ? & ?). split; [done|].
    destruct (decide (p = q)) as [<-|]; [|rewrite Hother by done; by exists d].
    eexists. split; [done|]. rewrite Hc in Hd. by injection Hd as <-.
  - destruct (last pre) as [b|]; [|done]. destruct ok_head0 as (? & d & Hd & ? & ?).
    split; [done|]. destruct (decide (p = b)) as [<-|]; [|rewrite Hother by done; by exists d].
    eexists. split; [done|]. rewrite Hc in Hd. by injection Hd as <-.
  - intros b d Hb Hd. destruct (decide (p = b)) as [<-|].
    + rewrite Hself in Hd. injection Hd as <-. by apply Hpost.
    + rewrite Hother in Hd by done. by eapply ok_post0.
  - intros q n Hq. destruct (ok_live0 q n Hq) as (? & b & d & ? & Hd & ? & Hfill).
    split; [done|]. exists b. destruct Hlive as [->|Hh]; [by apply elem_of_nil in Hq|].
    destruct (decide (p = b)) as [<-|]; [|exists d; by rewrite Hother].
    eexists. split_and!; [done|done|done|]. revert Hfill. unfold fill. by rewrite Hh, Z.eqb_refl.
Qed.

(** ** Allocation *)

Section allocation.
Context (malloc : heap → Z → Z) `{!MallocSpec malloc}.

(** Requests whose size arithmetic stays inside 64 bits. *)
Definition request_ok (sz alignment : Z) : Prop :=
  0 <= sz ∧ 0 < alignment ∧ is_pow2 alignment = true ∧ sz + alignment + 48 < 2 ^ 63.

(** Recording the high-water mark of the active block. *)
Lemma ok_freeze a h0 h pre post orphans live b :
  arena_ok a h0 h pre post orphans live → last pre = Some b →
  ∃ h' c, set_header h b (set_used (current_ a -w data b)) = Done h' ∧
    arena_ok a h0 h' pre post orphans live ∧ h' !! b = Some c ∧
    used (header c) = current_ a - data b.
Proof.
  intros Hok Hl. pose proof Hok as []. rewrite Hl in ok_head0.
  destruct ok_head0 as (Hh & c & Hc & Hcur & He).
  destruct (heap_bounds _ ok_heap0 _ _ Hc) as (? & ? & ?).
  destruct (last_inv _ _ Hl) as [l ->].
  destruct (ok_owned0 b) as (_ & d & Hd & Hb & _); [set_solver|].
  rewrite Hc in Hd. injection Hd as <-. unfold data in *.
  rewrite u64_small by lia. eexists _, _. split; [by apply set_header_done|].
  split; [|split; [apply lookup_insert_eq|done]].
  apply ok_set_used; try done; [set_solver|lia| |by right].
  intros Hbp. exfalso. apply NoDup_app in ok_nodup0 as (_ & Hn & _). eapply (Hn b); set_solver.
Qed.

Definition set_current (a : ArenaAllocator) (v : Z) : ArenaAllocator := {|
  current_ := v; end_ := end_ a; head_ := head_ a; first_block_ := first_block_ a;
  block_size_ := block_size_ a; total_allocated_ := total_allocated_ a |}.

(** The regions given out, with one more; empty ones are not tracked. *)
Definition give (p n : Z) (live : list (Z * Z)) : list (Z * Z) :=
  if n =? 0 then live else (p, n) :: live.

(** Live regions of the active block end below [current_], those of other blocks
    lie in other pieces of the heap. *)
Lemma live_apart a h0 h pre post orphans live b p n q m :
  arena_ok a h0 h pre post orphans live → last pre = Some b →
  current_ a <= p → p + n <= end_ a → (q, m) ∈ live → disjoint p n q m.
Proof.
  intros [] Hl Hp Hn Hq. rewrite Hl in ok_head0. destruct ok_head0 as (Hh & c & Hc & Hcur & He).
  destruct (ok_live0 _ _ Hq) as (_ & b' & c' & Hb' & Hc' & Hq1 & Hq2).
  unfold fill in Hq2. destruct (Z.eqb_spec b' (head_ a)) as [->|Hne]; [right; lia|].
  destruct (ok_owned0 b') as (_ & d & Hd & ? & ?); [apply elem_of_app; by left|].
  destruct (ok_owned0 b) as (_ & e & Hee & ? & ?).
  { apply elem_of_app. left. by apply last_Some_elem_of. }
  rewrite Hc' in Hd. injection Hd as <-. rewrite Hc in Hee. injection Hee as <-.
  destruct (heap_disjoint _ ok_heap0 b b' c c') as [?|?]; try done; [congruence|..];
    unfold disjoint, data in *; lia.
Qed.

(** Moving the bump pointer of the active block over a new region. *)
Lemma ok_extend a h0 h pre post orphans live b p n :
  arena_ok a h0 h pre post orphans live → last pre = Some b →
  0 <= n → current_ a <= p → p + n <= end_ a →
  arena_ok (set_current a (p + n)) h0 h pre post orphans (give p n live).
Proof.
  intros Hok Hl Hn Hp He. pose proof Hok as []. rewrite Hl in ok_head0.
  destruct ok_head0 as (Hh & c & Hc & Hcur & Hend).
  assert (Hold : ∀ q m, (q, m) ∈ live → 0 < m ∧ ∃ b c, b ∈ pre ∧ h !! b = Some c ∧
    data b <= q ∧ q + m <= data b + fill (set_current a (p + n)) b c).
  { intros q m Hq. destruct (ok_live0 q m Hq) as (? & b' & c' & ? & ? & ? & Hf).
    split; [done|]. exists b', c'. split_and!; try done. unfold fill in *. simpl.
    destruct (b' =? head_ a); lia. }
  split; try done.
  - rewrite Hl. split; [done|]. exists c. simpl. split_and!; [done|lia..].
  - unfold give. destruct (Z.eqb_spec n 0) as [_|]; [done|].
    intros q m [[= -> ->]|Hq]%elem_of_cons; [|by apply Hold]. split; [lia|].
    exists b, c. split_and!; [by apply last_Some_elem_of|done|lia|].
    unfold fill. simpl. rewrite Hh, Z.eqb_refl. lia.
  - unfold give. destruct (Z.eqb_spec n 0) as [_|]; [done|].
    constructor; [|done]. apply Forall_forall. intros [q m] Hq. simpl.
    by eapply live_apart.
Qed.

(** What [allocate_slow] leaves of the heap when the chain gets a new block. *)
Definition linked (h : heap) (pre : list Z) (ptr : Z) (c : chunk) (h' : heap) : Prop :=
  match last pre with
  | None => h' = <[ptr := c]> h
  | Some b => ∃ d, h !! b = Some d ∧
      h' = <[b := {| bytes := bytes d; header := set_next ptr (header d) |}]> (<[ptr := c]> h)
  end.

Lemma linked_lookup h pre ptr c h' :
  linked h pre ptr c h' → h !! ptr = None →
  h' !! ptr = Some c ∧
  (∀ q, q ≠ ptr → last pre ≠ Some q → h' !! q = h !! q) ∧
  (∀ b d, last pre = Some b → h !! b = Some d →
     h' !! b = Some {| bytes := bytes d; header := set_next ptr (header d) |}).
Proof.
  unfold linked. intros Hl Hf. destruct (last pre) as [b|].
  - destruct Hl as (d & Hd & ->). assert (b ≠ ptr) by congruence. split_and!.
    + by rewrite lookup_insert_ne, lookup_insert_eq by done.
    + intros q Hq Hqb. by rewrite !lookup_insert_ne by congruence.
    + intros ? e [= <-] He. rewrite lookup_insert_eq. congruence.
  - subst h'. split_and!; [apply lookup_insert_eq| |done].
    intros q Hq _. by rewrite lookup_insert_ne.
Qed.

Lemma linked_heap_ok h pre ptr c h' :
  linked h pre ptr c h' → heap_ok h → h !! ptr = None →
  0 < ptr → 0 < bytes c → ptr + bytes c <= address_limit →
  (∀ q d, h !! q = Some d → disjoint ptr (bytes c) q (bytes d)) → heap_ok h'.
Proof.
  unfold linked. intros Hl Hok Hf ? ? ? ?. pose proof (heap_ok_insert h ptr c Hok) as Hi.
  destruct (last pre) as [b|]; [|subst; by apply Hi].
  destruct Hl as (d & Hd & ->). apply heap_ok_update; [by apply Hi|].
  rewrite lookup_insert_ne; congruence.
Qed.

Lemma linked_chain h pre post ptr c h' p :
  linked h pre ptr c h' → chain h p (pre ++ post) → h !! ptr = None → NoDup pre → 0 < ptr →
  (last pre = None → post = []) → next (header c) = 0 →
  chain h' (if p =? 0 then ptr else p) (pre ++ [ptr]).
Proof.
  intros Hl Hc Hf Hnd Hp Hpost Hn.
  destruct (linked_lookup _ _ _ _ _ Hl Hf) as (Hptr & Hoth & Hlast).
  assert (Hnp : next_of h' ptr = Some 0) by (unfold next_of; rewrite Hptr; simpl; by rewrite Hn).
  destruct (last pre) as [b|] eqn:Hb.
  - pose proof (last_inv _ _ Hb) as [l Hpre].
    assert (Hpne : p ≠ 0).
    { rewrite (chain_first _ _ _ Hc). rewrite Hpre in Hc |- *.
      destruct l as [|x l]; simpl in Hc |- *; by destruct Hc as (_ & ? & _). }
    rewrite (proj2 (Z.eqb_neq _ _) Hpne).
    assert (Hx : ∀ x, x ∈ pre → x ≠ ptr).
    { intros x Hx ->. destruct (chain_elem _ _ _ ptr Hc) as [_ [d Hd]]; [set_solver|congruence]. }
    unfold linked in Hl. rewrite Hb in Hl. destruct Hl as (d & Hd & _).
    rewrite Hpre, <- app_assoc in Hc |- *. simpl in Hc |- *.
    eapply chain_append; [exact Hc| | |lia|done].
    + intros x Hxl. unfold next_of. rewrite Hoth; [done|apply Hx; set_solver|].
      intros [= ->]. rewrite Hpre in Hnd. apply NoDup_app in Hnd as (_ & Hdisj & _).
      apply (Hdisj x Hxl). set_solver.
    + unfold next_of. by rewrite (Hlast b d).
  - apply last_None in Hb as ->. rewrite Hpost in Hc by done. simpl in Hc. subst p. simpl.
    split_and!; [done|lia|]. by exists 0.
Qed.

(** The arena right after the chain got the block [ptr]: nothing of it given out. *)
Definition opened (a : ArenaAllocator) (ptr sz : Z) : ArenaAllocator := {|
  current_ := data ptr; end_ := data ptr + sz; head_ := ptr;
  first_block_ := if first_block_ a =? 0 then ptr else first_block_ a;
  block_size_ := block_size_ a; total_allocated_ := total_allocated_ a +w sz |}.

Lemma ok_opened a h0 h pre post orphans live ptr c h' :
  arena_ok a h0 h pre post orphans live →
  (∀ b c, last pre = Some b → h !! b = Some c → used (header c) = current_ a - data b) →
  linked h pre ptr c h' → h !! ptr = None →
  0 < ptr → ptr + bytes c <= address_limit → bytes c = 47 + size (header c) →
  0 <= size (header c) → used (header c) = 0 → next (header c) = 0 →
  (∀ q d, h !! q = Some d → disjoint ptr (bytes c) q (bytes d)) →
  arena_ok (opened a ptr (size (header c))) h0 h' (pre ++ [ptr]) [] (post ++ orphans) live.
Proof.
  intros Hok Hfrozen Hl Hf Hp Hpb Hb Hs Hu Hn Hfresh. pose proof Hok as [].
  destruct (linked_lookup _ _ _ _ _ Hl Hf) as (Hptr & Hoth & Hlast).
  assert (Hnew : ptr ∉ pre ++ post ++ orphans).
  { intros Hin. destruct (ok_owned0 ptr Hin) as (_ & d & Hd & _). congruence. }
  assert (Hmem : ∀ q, q ∈ (pre ++ [ptr]) ++ [] ++ post ++ orphans ↔
    q = ptr ∨ q ∈ pre ++ post ++ orphans) by (intros q; set_solver).
  assert (Hkeep : ∀ q d, q ≠ ptr → h !! q = Some d → ∃ d', h' !! q = Some d' ∧
    bytes d' = bytes d ∧ size (header d') = size (header d) ∧ used (header d') = used (header d)).
  { intros q d Hq Hd. destruct (decide (last pre = Some q)) as [Hlq|].
    - eexists. by split; [by apply Hlast|].
    - exists d. by rewrite Hoth. }
  split; try done.
  - eapply linked_heap_ok; try done. lia.
  - rewrite app_nil_r. eapply linked_chain; try done.
    + by apply NoDup_app in ok_nodup0 as [? _].
    + intros Hlp. by rewrite Hlp in ok_head0; destruct ok_head0 as (_ & _ & _ & ?).
  - assert ((pre ++ [ptr]) ++ [] ++ post ++ orphans ≡ₚ ptr :: pre ++ post ++ orphans) as ->.
    { rewrite <- app_assoc. symmetry. apply Permutation_middle. }
    by constructor.
  - intros q Hq. rewrite Hmem in Hq. rewrite Hoth; [apply ok_foreign0; tauto|tauto|].
    intros Hlq%last_Some_elem_of. apply Hq. right. set_solver.
  - intros q [->|Hq]%Hmem.
    + split; [rewrite <- ok_foreign0 by done; done|]. exists c. by rewrite Hu.
    + destruct (ok_owned0 q Hq) as (? & d & Hd & Hbd & Hud). split; [done|].
      assert (q ≠ ptr) by congruence. destruct (Hkeep q d) as (d' & ? & Eb & Es & Eu); [done..|].
      exists d'. by rewrite Eb, Es, Eu.
  - rewrite last_snoc. split; [done|]. exists c. simpl. split_and!; [done|lia..].
  - by intros b d ?%elem_of_nil.
  - intros q n Hq. destruct (ok_live0 q n Hq) as (? & b & d & Hbp & Hd & ? & Hfill).
    split; [done|]. assert (b ≠ ptr) by congruence.
    destruct (Hkeep b d) as (d' & Hd' & _ & _ & Hud'); [done..|].
    exists b, d'. split_and!; [set_solver|done|done|]. unfold fill in *. simpl.
    rewrite (proj2 (Z.eqb_neq b ptr)) by done. rewrite Hud'.
    destruct (Z.eqb_spec b (head_ a)) as [->|]; [|done].
    destruct (last pre) as [b'|] eqn:Hb'; [|apply last_None in Hb' as ->; set_solver].
    destruct ok_head0 as (Hh & _). rewrite Hh in *. rewrite (Hfrozen b' d) by done. lia.
Qed.

Lemma ok_allocate_block a h0 h pre post orphans live min :
  arena_ok a h0 h pre post orphans live →
  (∀ b c, last pre = Some b → h !! b = Some c → used (header c) = current_ a - data b) →
  0 <= min → min + 48 < 2 ^ 64 →
  allocate_block malloc a h min = Fault Aborted ∨
  ∃ ptr a' h' c, allocate_block malloc a h min = Done (ptr, a', h') ∧
    h' !! ptr = Some c ∧ min <= size (header c) ∧ ptr + 47 + size (header c) <= address_limit ∧
    0 < ptr ∧
    opened a ptr (size (header c)) =
      {| current_ := data ptr; end_ := data ptr + size (header c); head_ := head_ a';
         first_block_ := first_block_ a'; block_size_ := block_size_ a';
         total_allocated_ := total_allocated_ a' |} ∧
    arena_ok (opened a ptr (size (header c))) h0 h' (pre ++ [ptr]) [] (post ++ orphans) live.
Proof.
  intros Hok Hfrozen Hmin Hb. unfold allocate_block. pose proof Hok as [].
  set (sz := Z.max (block_size_ a) min).
  assert (Hn : sizeof_Block +w sz -w 1 = 47 + sz) by (unfold sizeof_Block; word_lia).
  rewrite Hn. pose proof (malloc_fresh h (47 + sz) ltac:(lia)) as Hmf.
  revert Hmf. generalize (malloc h (47 + sz)). intros ptr Hmf.
  destruct (Z.eqb_spec ptr 0) as [|Hp]; [by left|right].
  destruct (Hmf Hp) as (? & ? & Hf & Hfresh).
  set (c := {| bytes := 47 + sz; header := {| next := 0; size := sz; used := 0 |} |}).
  assert (∃ h', (if first_block_ a =? 0 then mret (<[ptr:=c]> h)
      else set_header (<[ptr:=c]> h) (head_ a) (set_next ptr)) = Done h' ∧
    linked h pre ptr c h') as (h' & Hh' & Hl).
  { unfold linked. destruct (last pre) as [b|] eqn:Hlb.
    - destruct ok_head0 as (-> & d & Hd & _).
      assert (first_block_ a ≠ 0) as ->%Z.eqb_neq.
      { rewrite (chain_first _ _ _ ok_chain0). destruct (pre ++ post) as [|x l] eqn:E.
        - apply app_nil in E as [-> ->]. done.
        - simpl. by eapply chain_elem; [done|left]. }
      assert (ptr ≠ b) by congruence. eexists. split.
      { apply set_header_done. by rewrite lookup_insert_ne. }
      by exists d.
    - apply last_None in Hlb as ->. destruct ok_head0 as (_ & _ & _ & ->).
      simpl in ok_chain0. rewrite ok_chain0. simpl. by eexists. }
  assert (Hptr : h' !! ptr = Some c) by by eapply linked_lookup.
  eexists ptr, _, h', c. split; [rewrite Hh'; reflexivity|].
  split_and!; [done|simpl; lia|simpl; lia|lia|done|].
  eapply ok_opened; try done; simpl; lia.
Qed.

Lemma align_up_ok v al :
  0 <= v <= address_limit → 0 < al < 2 ^ 63 → is_pow2 al = true →
  v <= align_up v al < v + al ∧ align_up v al `mod` al = 0.
Proof. intros. apply align_up_spec; try done; lia. Qed.

Lemma ok_allocate_slow a h0 h pre post orphans live sz al :
  arena_ok a h0 h pre post orphans live → request_ok sz al →
  allocate_slow malloc a h sz al = Fault Aborted ∨
  ∃ p a' h' ptr, allocate_slow malloc a h sz al = Done (p, a', h') ∧ p `mod` al = 0 ∧
    arena_ok a' h0 h' (pre ++ [ptr]) [] (post ++ orphans) (give p sz live).
Proof.
  intros Hok (Hsz & Hal & Hpow & Hb). unfold allocate_slow.
  assert (∃ h1, (if head_ a =? 0 then mret h
      else set_header h (head_ a) (set_used (current_ a -w data (head_ a)))) = Done h1 ∧
    arena_ok a h0 h1 pre post orphans live ∧
    (∀ b c, last pre = Some b → h1 !! b = Some c → used (header c) = current_ a - data b))
    as (h1 & -> & Hok1 & Hfrozen).
  { destruct (last pre) as [b|] eqn:Hl.
    - destruct (ok_freeze _ _ _ _ _ _ _ _ Hok Hl) as (h1 & c & Hh1 & Hok1 & Hc & Hu).
      pose proof (ok_head _ _ _ _ _ _ _ Hok) as Hh. rewrite Hl in Hh. destruct Hh as (-> & _).
      pose proof (ok_chain _ _ _ _ _ _ _ Hok) as Hch.
      destruct (chain_elem _ _ _ b Hch) as [Hb0 _].
      { apply elem_of_app. left. by apply last_Some_elem_of. }
      rewrite (proj2 (Z.eqb_neq _ _) Hb0). exists h1. split_and!; [done|done|].
      intros b' c' [= <-] Hc'. rewrite Hc in Hc'. by injection Hc' as <-.
    - pose proof (ok_head _ _ _ _ _ _ _ Hok) as Hh. rewrite Hl in Hh. destruct Hh as (-> & _).
      by exists h. }
  rewrite u64_small by lia. simpl.
  destruct (ok_allocate_block a h0 h1 pre post orphans live (sz + al) Hok1 Hfrozen)
    as [->|(ptr & a2 & h2 & c & -> & Hc & Hmin & Hlim & Hptr & Heq & Hok2)]; [lia|lia|by left|].
  right. simpl. rewrite Hc. simpl.
  destruct (align_up_ok (data ptr) al) as [Ha Hm]; [unfold data; lia|lia|done|].
  eexists _, _, h2, ptr. split; [reflexivity|]. split; [done|].
  apply (ok_extend _ _ _ _ _ _ _ ptr (align_up (data ptr) al) sz) in Hok2;
    [|by rewrite last_snoc|done|simpl; lia|simpl; lia].
  rewrite Heq in Hok2. rewrite (u64_small (align_up _ _ + sz)) by (unfold data in *; lia).
  assert (0 <= data ptr + size (header c) < 2 ^ 64).
  { clear - Hlim Hmin Hptr Hsz Hal. unfold data. lia. }
  rewrite (u64_small (data ptr + size (header c))) by done. exact Hok2.
Qed.

Lemma ok_allocate a h0 h pre post orphans live sz al :
  arena_ok a h0 h pre post orphans live → request_ok sz al →
  allocate malloc a h sz al = Fault Aborted ∨
  ∃ p a' h' pre' post' orphans', allocate malloc a h sz al = Done (p, a', h') ∧
    p `mod` al = 0 ∧ arena_ok a' h0 h' pre' post' orphans' (give p sz live) ∧
    (post ++ orphans = [] → post' ++ orphans' = []).
Proof.
  intros Hok Hreq. pose proof Hreq as (Hsz & Hal & Hpow & Hb). unfold allocate.
  assert (Hcur : 0 <= current_ a <= end_ a ∧ end_ a <= address_limit ∧
    (last pre = None → current_ a = 0 ∧ end_ a = 0)).
  { pose proof Hok as []. destruct (last pre) as [b|] eqn:Hl.
    - destruct ok_head0 as (_ & c & Hc & Hcur & Hend).
      destruct (heap_bounds _ ok_heap0 _ _ Hc) as (? & ? & ?).
      destruct (ok_owned0 b) as (_ & d & Hd & ? & ?).
      { apply elem_of_app. left. by apply last_Some_elem_of. }
      rewrite Hc in Hd. injection Hd as <-. unfold data in *. split_and!; [lia..|done].
    - destruct ok_head0 as (_ & -> & -> & _). split_and!; [lia..|done]. }
  destruct (align_up_ok (current_ a) al) as [Ha Hm]; [lia|lia|done|].
  rewrite (proj2 (Z.eqb_neq al 0)) by lia. rewrite (u64_small (al - 1)) by lia.
  fold (is_pow2 al). rewrite Hpow. simpl.
  rewrite (proj2 (Z.leb_le (current_ a) _)) by lia. simpl. rewrite u64_small by lia.
  rewrite (proj2 (Z.leb_le (align_up _ _) _)) by lia. simpl.
  destruct (Z.leb_spec (align_up (current_ a) al + sz) (end_ a)) as [Hfit|Hfull].
  - right. eexists (align_up (current_ a) al), _, h, pre, post, orphans.
    split_and!; [reflexivity|done| |done]. destruct (last pre) as [b|] eqn:Hl.
    + by eapply ok_extend; [| |done|lia|].
    + destruct Hcur as (_ & _ & [Hc0 He0]); [done|]. rewrite Hc0 in *.
      assert (align_up 0 al + sz = 0) as -> by lia. assert (sz = 0) as -> by lia.
      destruct a. simpl in *. by subst.
  - destruct (ok_allocate_slow a h0 h pre post orphans live sz al Hok Hreq)
      as [->|(p & a' & h' & ptr & -> & ? & ?)]; [by left|right].
    eexists p, a', h', _, _, _. split_and!; [done..|]. by simpl.
Qed.
End allocation.

(** ** Reset and destruction *)

Lemma ok_forget a h0 h pre post orphans live :
  arena_ok a h0 h pre post orphans live → arena_ok a h0 h pre post orphans [].
Proof. intros []. split; try done; [by intros p n ?%elem_of_nil|constructor]. Qed.

Lemma chain_length h p bs : chain h p bs → NoDup bs → (length bs < chain_fuel h)%nat.
Proof.
  intros Hc Hnd. unfold chain_fuel. assert (length bs <= base.size (dom h))%nat as Hle.
  { rewrite <- (size_list_to_set (C := gset Z) bs Hnd). apply subseteq_size.
    intros b Hb%elem_of_list_to_set. apply elem_of_dom.
    destruct (chain_elem _ _ _ _ Hc Hb) as [_ [c ->]]. by eexists. }
  rewrite size_dom in Hle. change (map_size h) with (base.size h). lia.
Qed.

Lemma ok_clear fuel a h0 h pre post orphans p bs :
  arena_ok a h0 h pre post orphans [] → chain h p bs → (length bs < fuel)%nat →
  (∀ b, b ∈ bs → b ∈ pre ++ post) →
  ∃ h', clear_used fuel h p = Done h' ∧ arena_ok a h0 h' pre post orphans [] ∧
    (∀ b c, h !! b = Some c → ∃ c', h' !! b = Some c' ∧ bytes c' = bytes c ∧
      size (header c') = size (header c) ∧
      (b ∈ bs ∨ used (header c) = 0 → used (header c') = 0)).
Proof.
  revert h p fuel. induction bs as [|b bs IH]; intros h p fuel Hok Hc Hf Hin;
    (destruct fuel as [|fuel]; simpl in Hf; [lia|]); simpl in Hc; cbn [clear_used].
  - subst p. exists h. split_and!; [done|done|]. intros b c Hb. exists c. split_and!; try done.
    by intros [?%elem_of_nil|].
  - destruct Hc as (-> & Hb & n & Hn & Hc). rewrite (proj2 (Z.eqb_neq b 0)) by done.
    unfold next_of in Hn. destruct (h !! b) as [c|] eqn:Hbc; [|done]. injection Hn as <-.
    simpl. rewrite (set_header_done _ _ _ _ Hbc). simpl. set (h1 := <[b := _]> h).
    destruct (ok_owned _ _ _ _ _ _ _ Hok b) as (_ & d & Hd & _ & Hu); [set_solver|].
    rewrite Hbc in Hd. injection Hd as <-.
    assert (Hok1 : arena_ok a h0 h1 pre post orphans []).
    { apply ok_set_used; [done|done|apply Hin; set_solver|lia|done|by left]. }
    destruct (IH h1 (next (header c)) fuel Hok1) as (h' & -> & Hok' & Hz); [|lia|set_solver|].
    { eapply chain_ext; [done|]. intros. by apply next_of_update. }
    exists h'. split_and!; [done|done|]. intros q e Hq.
    destruct (decide (q = b)) as [->|Hne].
    + rewrite Hbc in Hq. injection Hq as <-.
      destruct (Hz b _ (lookup_insert_eq _ _ _)) as (c' & ? & ? & ? & Hz').
      exists c'. split_and!; try done. intros _. apply Hz'. by right.
    + destruct (Hz q e) as (c' & ? & ? & ? & Hz'); [unfold h1; by rewrite lookup_insert_ne|].
      exists c'. split_and!; try done. intros [[->|?]%elem_of_cons|?]; [done|..];
        apply Hz'; [by left|by right].
Qed.

Lemma ok_reset a h0 h pre post orphans live :
  arena_ok a h0 h pre post orphans live →
  ∃ a' h' pre' post', reset a h = Done (a', h') ∧ arena_ok a' h0 h' pre' post' orphans [] ∧
    pre' ++ post' = pre ++ post.
Proof.
  intros Hok%ok_forget. unfold reset. pose proof (ok_chain _ _ _ _ _ _ _ Hok) as Hch.
  destruct (Z.eqb_spec (first_block_ a) 0) as [Hz|Hnz]; [by exists a, h, pre, post|].
  assert (Hnd : NoDup (pre ++ post)).
  { pose proof (ok_nodup _ _ _ _ _ _ _ Hok) as Hnd. rewrite app_assoc in Hnd.
    by apply NoDup_app in Hnd as [? _]. }
  destruct (ok_clear (chain_fuel h) a h0 h pre post orphans (first_block_ a) (pre ++ post))
    as (h' & -> & Hok' & Hz); [done|done|by eapply chain_length|done|]. simpl.
  destruct (pre ++ post) as [|b rest] eqn:E; [done|].
  pose proof Hch as (Hfb & _). rewrite Hfb in *.
  destruct (chain_elem _ _ _ b Hch) as [_ [c0 Hc0]]; [by left|].
  destruct (Hz b c0 Hc0) as (c & Hc & Hbc & Hsc & Huc). rewrite Hc. simpl.
  exists {| current_ := data b; end_ := data b + size (header c); head_ := b;
            first_block_ := b; block_size_ := block_size_ a;
            total_allocated_ := total_allocated_ a |}, h', [b], rest.
  pose proof Hok' as [].
  destruct (ok_owned0 b) as (_ & d & Hd & ? & ?).
  { rewrite app_assoc, E. by left. }
  rewrite Hc in Hd. injection Hd as <-. destruct (heap_bounds _ ok_heap0 _ _ Hc) as (? & ? & ?).
  unfold data in *. split_and!; [rewrite u64_small by lia; done| |done].
  split; simpl; unfold data; rewrite ?app_assoc, ?E in *; try done.
  - by rewrite Hfb in ok_chain0.
  - split; [done|]. exists c. split_and!; [done|lia..].
  - intros q e Hq He. destruct (chain_elem _ _ _ q Hch) as [_ [e0 He0]]; [by right|].
    destruct (Hz q e0 He0) as (e' & He' & _ & _ & Hue). rewrite He in He'. injection He' as <-.
    apply Hue. left. by right.
  - by intros p n ?%elem_of_nil.
Qed.

(** Freeing a chain removes exactly its blocks. *)
Lemma free_blocks_chain fuel h p bs :
  chain h p bs → NoDup bs → (length bs < fuel)%nat →
  ∃ h', free_blocks fuel h p = Done h' ∧
    ∀ q, h' !! q = if decide (q ∈ bs) then None else h !! q.
Proof.
  revert h p fuel. induction bs as [|b bs IH]; intros h p fuel Hc Hnd Hf;
    (destruct fuel as [|fuel]; simpl in Hf; [lia|]); simpl in Hc; cbn [free_blocks].
  - subst p. exists h. split; [done|]. intros q. by rewrite decide_False by apply not_elem_of_nil.
  - destruct Hc as (-> & Hb & n & Hn & Hc). rewrite (proj2 (Z.eqb_neq b 0)) by done.
    apply NoDup_cons in Hnd as [Hni Hnd].
    unfold next_of in Hn. destruct (h !! b) as [c|] eqn:Hbc; [|done]. injection Hn as <-.
    simpl. destruct (IH (delete b h) (next (header c)) fuel) as (h' & -> & Hh'); [|done|lia|].
    { eapply chain_ext; [done|]. intros x Hx. unfold next_of. rewrite lookup_delete_ne; [done|].
      by intros ->. }
    exists h'. split; [done|]. intros q. rewrite Hh'. destruct (decide (q = b)) as [->|Hne].
    + rewrite lookup_delete_eq. rewrite (decide_True (P := b ∈ b :: bs)) by by left.
      by destruct (decide (b ∈ bs)).
    + rewrite lookup_delete_ne by done.
      destruct (decide (q ∈ bs)), (decide (q ∈ b :: bs)); try done; set_solver.
Qed.

Lemma ok_destroy a h0 h pre post orphans live :
  arena_ok a h0 h pre post orphans live →
  ∃ h', arena_destroy a h = Done h' ∧
    ∀ q, h' !! q = if decide (q ∈ orphans) then h !! q else h0 !! q.
Proof.
  intros []. assert (Hnd : NoDup (pre ++ post)).
  { rewrite app_assoc in ok_nodup0. by apply NoDup_app in ok_nodup0 as [? _]. }
  destruct (free_blocks_chain (chain_fuel h) h (first_block_ a) (pre ++ post))
    as (h' & Hh' & Hq); [done|done|by eapply chain_length|].
  exists h'. split; [done|]. intros q. rewrite Hq. rewrite app_assoc in ok_nodup0.
  apply NoDup_app in ok_nodup0 as (_ & Hdisj & _).
  destruct (decide (q ∈ pre ++ post)) as [Hin|Hnin].
  - rewrite decide_False by by apply Hdisj. symmetry. apply ok_owned0. set_solver.
  - destruct (decide (q ∈ orphans)); [done|]. apply ok_foreign0. set_solver.
Qed.

Lemma ok_new block_size h0 :
  heap_ok h0 → 0 <= block_size → block_size + 48 < 2 ^ 64 →
  arena_ok (arena_new block_size) h0 h0 [] [] [] [].
Proof.
  intros. split; try done; simpl; try (by constructor).
  - by intros p ?%elem_of_nil.
  - by intros b c ?%elem_of_nil.
  - by intros p n ?%elem_of_nil.
Qed.

(** ** Runs *)

Inductive arena_op :=
| OpAllocate (sz alignment : Z)
| OpReset.

Definition op_ok (op : arena_op) : Prop :=
  match op with OpAllocate sz al => request_ok sz al | OpReset => True end.

(** A client: the arena, the heap, the non-empty regions it may use (all those it
    got since the last [reset]), and every answer with the alignment asked for. *)
Record client := {
  arena : ArenaAllocator;
  memory : heap;
  usable : list (Z * Z);
  answers : list (Z * Z) }.

Definition client_op (malloc : heap → Z → Z) (s : client) (op : arena_op) : outcome client :=
  match op with
  | OpAllocate sz al =>
      ' (p, a, h) ← allocate malloc (arena s) (memory s) sz al;
      mret {| arena := a; memory := h; usable := give p sz (usable s);
              answers := (p, al) :: answers s |}
  | OpReset =>
      ' (a, h) ← reset (arena s) (memory s);
      mret {| arena := a; memory := h; usable := []; answers := answers s |}
  end.

Fixpoint client_run (malloc : heap → Z → Z) (s : client) (ops : list arena_op) :
    outcome client :=
  match ops with
  | [] => mret s
  | op :: ops => s ← client_op malloc s op; client_run malloc s ops
  end.

Definition client_new (block_size : Z) (h0 : heap) : client :=
  {| arena := arena_new block_size; memory := h0; usable := []; answers := [] |}.

Lemma client_run_ok malloc `{!MallocSpec malloc} ops s h0 pre post orphans :
  arena_ok (arena s) h0 (memory s) pre post orphans (usable s) →
  Forall op_ok ops → Forall (λ r, r.1 `mod` r.2 = 0) (answers s) →
  client_run malloc s ops = Fault Aborted ∨
  ∃ s' pre' post' orphans', client_run malloc s ops = Done s' ∧
    arena_ok (arena s') h0 (memory s') pre' post' orphans' (usable s') ∧
    Forall (λ r, r.1 `mod` r.2 = 0) (answers s') ∧
    (post ++ orphans = [] → OpReset ∉ ops → post' ++ orphans' = []).
Proof.
  revert s pre post orphans. induction ops as [|op ops IH]; intros s pre post orphans Hok Hops Hal.
  { right. by exists s, pre, post, orphans. }
  apply Forall_cons in Hops as [Hop Hops]. simpl. destruct op as [sz al|]; simpl.
  - destruct (ok_allocate malloc _ _ _ _ _ _ _ sz al Hok Hop)
      as [->|(p & a & h & pre' & post' & orph' & -> & Hm & Hok' & Hkeep)]; [by left|]. simpl.
    destruct (IH {| arena := a; memory := h; usable := give p sz (usable s);
      answers := (p, al) :: answers s |} pre' post' orph' Hok' Hops) as [?|(s' & pre2 & post2 & orph2 & ? & ? & ? & Hk)];
      [by constructor|by left|right].
    exists s', pre2, post2, orph2. split_and!; [done..|]. intros He Hn. apply Hk; [auto|].
    set_solver.
  - destruct (ok_reset _ _ _ _ _ _ _ Hok) as (a & h & pre' & post' & -> & Hok' & _). simpl.
    destruct (IH {| arena := a; memory := h; usable := []; answers := answers s |}
      pre' post' orphans Hok' Hops Hal) as [?|(s' & pre2 & post2 & orph2 & ? & ? & ? & Hk)];
      [by left|right].
    exists s', pre2, post2, orph2. split_and!; [done..|]. intros _ Hn. set_solver.
Qed.

(** A [malloc] that satisfies the specification: it places every piece behind all
    the others. *)
Definition bump_malloc (h : heap) (n : Z) : Z :=
  let p := map_fold (λ q c top, Z.max top (q + Z.max 0 (bytes c))) 4096 h + 16 in
  if p + n <=? address_limit then p else 0.

#[export] Instance bump_malloc_spec : MallocSpec bump_malloc.
Proof.
  assert (Htop : ∀ h : heap,
    let top := map_fold (λ q c top, Z.max top (q + Z.max 0 (bytes c))) 4096 h in
    4096 <= top ∧ ∀ q c, h !! q = Some c → q + Z.max 0 (bytes c) <= top).
  { intros h. apply (map_fold_weak_ind (λ top (m : heap), 4096 <= top ∧
      ∀ q c, m !! q = Some c → q + Z.max 0 (bytes c) <= top)).
    - split; [done|]. by intros q c ?%lookup_empty_Some.
    - intros q c m top _ [H1 H2]. split; [lia|].
      intros q' c' [[<- <-]|[_ Hq']]%lookup_insert_Some; [lia|].
      specialize (H2 q' c' Hq'). lia. }
  intros h n Hn. unfold bump_malloc. destruct (Htop h) as [H1 H2].
  revert H1 H2. generalize (map_fold (λ q c top, Z.max top (q + Z.max 0 (bytes c))) 4096 h).
  intros top H1 H2. destruct (Z.leb_spec (top + 16 + n) address_limit); [|done]. intros _.
  split_and!; [lia|lia| |].
  - destruct (h !! (top + 16)) as [c|] eqn:Hc; [|done]. specialize (H2 _ _ Hc). lia.
  - intros q c Hq. right. specialize (H2 _ _ Hq). lia.
Qed.

(** ** Properties *)

(** C9. Whatever a client asks for (with alignments that are powers of two, and size,
    alignment and 48 bytes of overhead together below [2^63]: larger requests overflow and
    can get memory that is not there) in whatever order with [reset], the arena never runs
    into undefined behaviour or a failed assertion: it only aborts when [malloc] fails.
    Every answer is aligned as asked; the regions handed out since the last [reset] are
    pairwise disjoint and each lies inside one block that the arena got from [malloc], and
    memory the arena does not own is untouched. *)
Theorem arena_regions_safe malloc `{!MallocSpec malloc} ops block_size h0 :
  heap_ok h0 → 0 <= block_size → block_size + 48 < 2 ^ 64 → Forall op_ok ops →
  client_run malloc (client_new block_size h0) ops = Fault Aborted ∨
  ∃ s, client_run malloc (client_new block_size h0) ops = Done s ∧
    Forall (λ r, r.1 `mod` r.2 = 0) (answers s) ∧
    ForallOrdPairs (λ r1 r2, disjoint r1.1 r1.2 r2.1 r2.2) (usable s) ∧
    (∀ p n, (p, n) ∈ usable s → 0 < n ∧
       ∃ b c, memory s !! b = Some c ∧ h0 !! b = None ∧ data b <= p ∧ p + n <= b + bytes c) ∧
    (∀ q c, h0 !! q = Some c → memory s !! q = Some c).
Proof.
  intros Hh Hb1 Hb2 Hops.
  destruct (client_run_ok malloc ops (client_new block_size h0) h0 [] [] [])
    as [?|(s & pre & post & orph & Hs & Hok & Hal & _)];
    [by apply ok_new|done|by constructor|by left|right].
  exists s. split_and!; [done..|by eapply ok_disjoint| |]; pose proof Hok as [].
  - intros p n Hpn. destruct (ok_live0 p n Hpn) as (Hn & b & c & Hbp & Hc & Hp & Hf).
    split; [done|]. destruct (ok_owned0 b) as (? & d & Hd & ? & ?).
    { apply elem_of_app. by left. }
    rewrite Hc in Hd. injection Hd as <-. exists b, c. split_and!; [done..|].
    unfold fill in Hf. destruct (Z.eqb_spec b (head_ (arena s))) as [Hbh|]; [|unfold data in *; lia].
    destruct (last pre) as [b'|] eqn:Hl; [|apply last_None in Hl as ->; by apply elem_of_nil in Hbp].
    destruct ok_head0 as (Hh' & c' & Hc' & Hcur & Hend). rewrite <- Hh', <- Hbh, Hc in Hc'.
    injection Hc' as <-. rewrite <- Hh', <- Hbh in Hend. unfold data in *. lia.
  - intros q c Hq. rewrite ok_foreign0; [done|].
    intros Hin. destruct (ok_owned0 q Hin) as [? _]. congruence.
Qed.

Definition sample_ops : list arena_op :=
  [OpAllocate 24 8; OpAllocate 100 64; OpAllocate 1 1; OpReset; OpAllocate 40 16].

Lemma sample_ops_ok : Forall op_ok sample_ops.
Proof. by repeat constructor. Qed.

Lemma empty_heap_ok : heap_ok ∅.
Proof. split; [by intros p c ?%lookup_empty_Some|by intros p q c d ?%lookup_empty_Some]. Qed.

Lemma arena_regions_safe_witness :
  client_run bump_malloc (client_new 128 ∅) sample_ops ≠ Fault Aborted ∧
  ∃ s, client_run bump_malloc (client_new 128 ∅) sample_ops = Done s.
Proof.
  split; [by vm_compute|].
  destruct (arena_regions_safe bump_malloc sample_ops 128 ∅ empty_heap_ok ltac:(done) ltac:(done)
    sample_ops_ok) as [H|(s & H & _)]; [by vm_compute in H|by exists s].
Defined.

(** Destroying an arena that was never reset gives back every block it took
    and leaves the rest of the heap as it was: nothing leaks, nothing is freed
    twice; after [reset]s everything the program had before is still intact. *)
Theorem arena_destroy_frees malloc `{!MallocSpec malloc} ops block_size h0 s :
  heap_ok h0 → 0 <= block_size → block_size + 48 < 2 ^ 64 → Forall op_ok ops →
  client_run malloc (client_new block_size h0) ops = Done s →
  ∃ h', arena_destroy (arena s) (memory s) = Done h' ∧
    (∀ q c, h0 !! q = Some c → h' !! q = Some c) ∧
    (OpReset ∉ ops → h' = h0).
Proof.
  intros Hh Hb1 Hb2 Hops Hrun.
  destruct (client_run_ok malloc ops (client_new block_size h0) h0 [] [] [])
    as [Ha|(s' & pre & post & orph & Hs & Hok & _ & Hno)];
    [by apply ok_new|done|by constructor|by rewrite Hrun in Ha|].
  rewrite Hrun in Hs. injection Hs as <-.
  destruct (ok_destroy _ _ _ _ _ _ _ Hok) as (h' & Hd & Hq). exists h'. split_and!; [done| |].
  - intros q c Hc. rewrite Hq. destruct (decide (q ∈ orph)) as [Ho|]; [|done].
    destruct (ok_owned _ _ _ _ _ _ _ Hok q) as [? _]; [set_solver|congruence].
  - intros Hn. destruct (proj1 (app_nil _ _) (Hno eq_refl Hn)) as [_ ->]. apply map_eq. intros q.
    rewrite Hq. by rewrite decide_False by apply not_elem_of_nil.
Qed.

Lemma arena_destroy_frees_witness :
  ∃ s h', client_run bump_malloc (client_new 128 ∅) [OpAllocate 100 8; OpAllocate 100 8] = Done s ∧
    arena_destroy (arena s) (memory s) = Done h' ∧ h' = ∅.
Proof.
  destruct (client_run bump_malloc (client_new 128 ∅) [OpAllocate 100 8; OpAllocate 100 8])
    as [s|e] eqn:E; [|by vm_compute in E].
  destruct (arena_destroy_frees bump_malloc [OpAllocate 100 8; OpAllocate 100 8] 128 ∅ s
    empty_heap_ok ltac:(done) ltac:(done) ltac:(by repeat constructor) E) as (h' & Hd & _ & Hn).
  exists s, h'. split_and!; [done..|]. apply Hn. by intros [|[|?%elem_of_nil]%elem_of_cons]%elem_of_cons.
Defined.

(** [reset] does not recycle the blocks behind the first: the next time a block
    is needed, a new one is linked over them. After three blocks, a [reset] and two
    more blocks' worth of requests the destructor leaves two blocks allocated that
    nothing points to, and [bytes_wasted] still counts them. *)
Theorem arena_reset_leaks :
  ∃ s h', client_run bump_malloc (client_new 128 ∅)
      [OpAllocate 100 8; OpAllocate 100 8; OpAllocate 100 8; OpReset;
       OpAllocate 100 8; OpAllocate 100 8] = Done s ∧
    arena_destroy (arena s) (memory s) = Done h' ∧
    base.size (memory s) = 4%nat ∧ base.size h' = 2%nat ∧
    total_allocated_ (arena s) = 4 * 128.
Proof.
  destruct (client_run bump_malloc (client_new 128 ∅)
    [OpAllocate 100 8; OpAllocate 100 8; OpAllocate 100 8; OpReset;
     OpAllocate 100 8; OpAllocate 100 8]) as [s|e] eqn:E; [|by vm_compute in E].
  vm_compute in E. injection E as <-. eexists _, _. split; [reflexivity|].
  split; [vm_compute; reflexivity|]. by vm_compute.
Qed.
