(* ===== verification/Slab.v ===== *)
(** * Slab allocator ([include/jellybean/memory/slab.hpp])

    Chunks live in a heap of slot arrays; a pointer is a chunk and an index in it.
    A slot is the union of the source: the link of a free slot or a live object;
    reading the member that is not there is undefined behaviour. *)
From S2P Require Import Prelude.

Section slab.
Context {T : Type} (ChunkObjects : nat).

(** ** Data *)

Abbreviation ptr := (Z * nat)%type.

Inductive Slot :=
| next_free (p : option ptr)
| object (x : T).

Abbreviation memory := (gmap Z (list Slot)).

Record SlabAllocator := {
  chunks_ : list Z;
  free_list_head_ : option ptr }.

Definition slab_new : SlabAllocator := {| chunks_ := []; free_list_head_ := None |}.

Definition slot_at (m : memory) (p : ptr) : option Slot := m !! p.1 ≫= λ c, c !! p.2.

Definition set_slot (m : memory) (p : ptr) (v : Slot) : memory :=
  alter (λ c, <[p.2 := v]> c) p.1 m.

(** ** Operations *)

(** [std::make_unique<Chunk>]: [None] is [std::bad_alloc]. *)
Context (make_chunk : memory → option Z).

(** The chaining loop: slots [i], [i+1], ... of the chunk [b]. *)
Fixpoint chain_slots (b : Z) (i n : nat) (head : option ptr) : list Slot * option ptr :=
  match n with
  | O => ([], head)
  | S n =>
      let '(slots, head') := chain_slots b (S i) n (Some (b, i)) in
      (next_free head :: slots, head')
  end.

Definition allocate_chunk (s : SlabAllocator) (m : memory) : outcome (SlabAllocator * memory) :=
  match make_chunk m with
  | None => Fault Aborted
  | Some b =>
      let '(slots, head) := chain_slots b 0 ChunkObjects (free_list_head_ s) in
      mret ({| chunks_ := chunks_ s ++ [b]; free_list_head_ := head |}, <[b := slots]> m)
  end.

Definition allocate (s : SlabAllocator) (m : memory) (x : T) :
    outcome (ptr * SlabAllocator * memory) :=
  ' (s, m) ← (match free_list_head_ s with
              | None => allocate_chunk s m
              | Some _ => mret (s, m)
              end);
  slot ← deref (free_list_head_ s);
  match slot_at m slot with
  | Some (next_free nx) =>
      mret (slot, {| chunks_ := chunks_ s; free_list_head_ := nx |},
            set_slot m slot (object x))
  | _ => Fault UndefinedBehaviour
  end.

Definition deallocate (s : SlabAllocator) (m : memory) (p : option ptr) :
    outcome (SlabAllocator * memory) :=
  match p with
  | None => mret (s, m)
  | Some p =>
      match slot_at m p with
      | Some (object _) =>
          mret ({| chunks_ := chunks_ s; free_list_head_ := Some p |},
                set_slot m p (next_free (free_list_head_ s)))
      | _ => Fault UndefinedBehaviour
      end
  end.

(** The defaulted move constructor: the vector is emptied, the raw pointer is
    copied and stays in the moved-from object. *)
Definition slab_move (other : SlabAllocator) : SlabAllocator * SlabAllocator :=
  (other, {| chunks_ := []; free_list_head_ := free_list_head_ other |}).

(** ** Specification *)

(** The free list from [head] visits exactly [l]. *)
Fixpoint free_list (m : memory) (head : option ptr) (l : list ptr) : Prop :=
  match l with
  | [] => head = None
  | p :: l => head = Some p ∧ ∃ nx, slot_at m p = Some (next_free nx) ∧ free_list m nx l
  end.

(** The allocator represents the live objects [live]. *)
Record slab_ok (s : SlabAllocator) (m : memory) (live : gmap ptr T) : Prop := {
  ok_chunks : ∀ b, b ∈ chunks_ s → ∃ c, m !! b = Some c ∧ length c = ChunkObjects;
  ok_chunks_nodup : NoDup (chunks_ s);
  ok_free : ∃ l, free_list m (free_list_head_ s) l ∧ NoDup l ∧
    ∀ p, p ∈ l ↔ p.1 ∈ chunks_ s ∧ (p.2 < ChunkObjects)%nat ∧ live !! p = None;
  ok_live : ∀ p x, live !! p = Some x →
    p.1 ∈ chunks_ s ∧ (p.2 < ChunkObjects)%nat ∧ slot_at m p = Some (object x) }.

(** ** Lemmas *)

Lemma slot_at_set m p q v :
  is_Some (slot_at m p) → slot_at (set_slot m p v) q = if decide (p = q) then Some v else slot_at m q.
Proof.
  destruct p as [b i], q as [b' j]. unfold slot_at, set_slot. simpl.
  destruct (m !! b) as [c|] eqn:Hb; simpl; [|by intros [? ?]].
  intros Hi%lookup_lt_is_Some. destruct (decide (b = b')) as [<-|Hne].
  - rewrite lookup_alter_eq, Hb. simpl. case_decide as E.
    + injection E as <-. by apply list_lookup_insert_eq.
    + apply list_lookup_insert_ne. congruence.
  - rewrite lookup_alter_ne by done. rewrite decide_False by congruence. done.
Qed.

Lemma set_slot_chunk m p v b c :
  m !! b = Some c → ∃ c', set_slot m p v !! b = Some c' ∧ length c' = length c.
Proof.
  intros Hc. unfold set_slot. destruct (decide (p.1 = b)) as [<-|].
  - rewrite lookup_alter_eq, Hc. eexists. split; [done|]. apply length_insert.
  - rewrite lookup_alter_ne by done. by exists c.
Qed.

Lemma free_list_ext m m' head l :
  free_list m head l → (∀ p, p ∈ l → slot_at m' p = slot_at m p) → free_list m' head l.
Proof.
  revert head. induction l as [|p l IH]; intros head; [done|].
  intros (-> & nx & Hp & Hl) He. split; [done|]. exists nx. rewrite He by by left.
  split; [done|]. apply IH; [done|]. intros. apply He. by right.
Qed.

Lemma chain_slots_length b i n head : length (chain_slots b i n head).1 = n.
Proof.
  revert i head. induction n as [|n IH]; intros i head; [done|]. simpl.
  specialize (IH (S i) (Some (b, i))). by destruct (chain_slots b (S i) n (Some (b, i))); simpl in *; f_equal.
Qed.

(** The slots of a new chunk come first in the free list, the last one at the
    front. *)
Lemma chain_slots_free m b i n head l :
  free_list m head l →
  (∀ k v, (chain_slots b i n head).1 !! k = Some v → slot_at m (b, i + k)%nat = Some v) →
  free_list m (chain_slots b i n head).2 (reverse ((λ k, (b, k)) <$> seq i n) ++ l).
Proof.
  revert i head l. induction n as [|n IH]; intros i head l Hl Hs; [done|]. simpl in *.
  destruct (chain_slots b (S i) n (Some (b, i))) as [slots head'] eqn:E. simpl in *.
  rewrite reverse_cons, <- app_assoc. simpl. specialize (IH (S i) (Some (b, i))). rewrite E in IH. simpl in IH.
  apply IH.
  - split; [done|]. exists head. split; [|done]. specialize (Hs O _ eq_refl).
    by rewrite Nat.add_0_r in Hs.
  - intros k v Hk. specialize (Hs (S k) v Hk). by rewrite Nat.add_succ_r in Hs.
Qed.

Context (chunk_pos : (0 < ChunkObjects)%nat)
  (chunk_fresh : ∀ m b, make_chunk m = Some b → m !! b = None).

Lemma slab_new_ok m : slab_ok slab_new m ∅.
Proof.
  split; simpl; [by intros b ?%elem_of_nil|constructor| |by intros p x ?%lookup_empty_Some].
  exists []. split_and!; [done|constructor|]. intros p. split; [by intros ?%elem_of_nil|].
  by intros [?%elem_of_nil _].
Qed.

Lemma ok_allocate_chunk s m live b :
  slab_ok s m live → free_list_head_ s = None → make_chunk m = Some b →
  ∃ s' m', allocate_chunk s m = Done (s', m') ∧ slab_ok s' m' live ∧
    free_list_head_ s' ≠ None ∧ chunks_ s' = chunks_ s ++ [b] ∧
    (∀ b', b' ≠ b → m' !! b' = m !! b').
Proof.
  intros [] Hh Hb. unfold allocate_chunk. rewrite Hb, Hh.
  pose proof (chain_slots_length b 0 ChunkObjects None) as Hlen.
  pose proof (chain_slots_free (<[b:=(chain_slots b 0 ChunkObjects None).1]> m)
    b 0 ChunkObjects None []) as Hfree.
  destruct (chain_slots b 0 ChunkObjects None) as [slots head]. simpl in *.
  pose proof (chunk_fresh _ _ Hb) as Hf.
  assert (Hnb : b ∉ chunks_ s).
  { intros Hin. destruct (ok_chunks0 b Hin) as (c & ? & _). congruence. }
  eexists _, _. split; [reflexivity|]. simpl.
  assert (Hl : free_list (<[b:=slots]> m) head (reverse ((λ k, (b, k)) <$> seq 0 ChunkObjects) ++ [])).
  { apply Hfree; [done|]. intros k v Hk. unfold slot_at. simpl. by rewrite lookup_insert_eq. }
  rewrite app_nil_r in Hl.
  assert (Hdead : ∀ i, live !! (b, i) = None).
  { intros i. destruct (live !! (b, i)) as [x|] eqn:E; [|done].
    by destruct (ok_live0 _ _ E) as (? & _). }
  destruct ok_free0 as (l & Hl0 & _ & Hall). rewrite Hh in Hl0.
  destruct l as [|q l]; [|by destruct Hl0].
  split_and!; [| |done|intros; by rewrite lookup_insert_ne].
  - split; simpl.
    + intros b' [Hb'| ->%list_elem_of_singleton]%elem_of_app.
      * rewrite lookup_insert_ne by congruence. by apply ok_chunks0.
      * exists slots. by rewrite lookup_insert_eq.
    + apply NoDup_app. split_and!; [done|set_solver|apply NoDup_singleton].
    + eexists. split_and!; [exact Hl| |].
      * rewrite reverse_Permutation.
        apply NoDup_fmap; [by intros ? ? [= ]|apply NoDup_seq].
      * intros [b' i]. rewrite elem_of_reverse, list_elem_of_fmap. simpl.
        rewrite elem_of_app, list_elem_of_singleton. split.
        -- intros (k & [= -> ->] & Hk%elem_of_seq). split_and!; [by right|lia|done].
        -- intros ([Hin| ->] & Hi & Hn); [|exists i; split; [done|apply elem_of_seq; lia]].
           exfalso. apply (elem_of_nil (b', i)), Hall. by split_and!.
    + intros p x Hp. destruct (ok_live0 p x Hp) as (Hin & ? & Hs). split_and!; [set_solver|done|].
      unfold slot_at in *. rewrite lookup_insert_ne by congruence. done.
  - simpl. intros ->. destruct ChunkObjects as [|n]; [lia|].
    rewrite seq_S, fmap_app, reverse_app in Hl. by destruct Hl.
Qed.

Lemma slab_ok_allocate s m live x :
  slab_ok s m live →
  (allocate s m x = Fault Aborted ∧ make_chunk m = None) ∨
  ∃ p s' m', allocate s m x = Done (p, s', m') ∧ live !! p = None ∧
    slab_ok s' m' (<[p := x]> live) ∧
    (free_list_head_ s ≠ None → free_list_head_ s = Some p ∧ chunks_ s' = chunks_ s) ∧
    (∀ b, b ∉ chunks_ s' → m' !! b = m !! b).
Proof.
  intros Hok. unfold allocate.
  assert ((free_list_head_ s = None ∧ make_chunk m = None) ∨ ∃ s1 m1,
    (match free_list_head_ s with None => allocate_chunk s m | Some _ => mret (s, m) end) =
      Done (s1, m1) ∧ slab_ok s1 m1 live ∧ free_list_head_ s1 ≠ None ∧
    (free_list_head_ s ≠ None → s1 = s) ∧ (∀ b, b ∉ chunks_ s1 → m1 !! b = m !! b))
    as [[-> Hnone]|(s1 & m1 & -> & Hok1 & Hh1 & Hs1 & Hm1)].
  { destruct (free_list_head_ s) as [q|] eqn:Hh; [right; exists s, m; by rewrite Hh|].
    destruct (make_chunk m) as [b|] eqn:Hb; [|by left]. right.
    destruct (ok_allocate_chunk s m live b Hok Hh Hb) as (s1 & m1 & ? & ? & ? & Hc & Hm).
    exists s1, m1. split_and!; [done..|]. intros b' Hb'. apply Hm. intros ->. apply Hb'.
    rewrite Hc. set_solver. }
  - left. unfold allocate_chunk. by rewrite Hnone.
  - right. simpl. destruct (free_list_head_ s1) as [p|] eqn:Hp; [|done]. simpl.
    destruct Hok1 as [? ? (l & Hl & Hnd & Hall) ?]. rewrite Hp in Hl.
    destruct l as [|q l]; [done|]. destruct Hl as ([= <-] & nx & Hslot & Hl).
    rewrite Hslot. apply NoDup_cons in Hnd as [Hpl Hnd].
    assert (Hpin : p ∈ p :: l) by by left. apply Hall in Hpin as (Hpc & Hpi & Hpn).
    eexists p, _, _. split; [reflexivity|].
    assert (Hsome : is_Some (slot_at m1 p)) by by eexists.
    split_and!; [done| |intros Hne; by rewrite <- (Hs1 Hne)|].
    + split; simpl; [|done| |].
      * intros b Hb. destruct (ok_chunks0 b Hb) as (c & Hc & <-). by apply set_slot_chunk.
      * exists l. split_and!; [|done|].
        -- eapply free_list_ext; [done|]. intros q Hq. rewrite slot_at_set by done.
           rewrite decide_False; [done|]. by intros ->.
        -- intros q. destruct (decide (p = q)) as [<-|Hne].
           ++ rewrite lookup_insert_eq. split; [done|]. by intros (_ & _ & ?).
           ++ rewrite lookup_insert_ne by done. rewrite <- Hall. split; [by right|].
              by intros [->|?]%elem_of_cons.
      * intros q y [[<- <-]|[Hne Hq]]%lookup_insert_Some; rewrite slot_at_set by done.
        -- by rewrite decide_True.
        -- rewrite decide_False by done. by apply ok_live0.
    + simpl. intros b Hb. unfold set_slot. rewrite lookup_alter_ne; [by apply Hm1|].
      intros <-. done.
Qed.

Lemma ok_deallocate s m live p x :
  slab_ok s m live → live !! p = Some x →
  ∃ s' m', deallocate s m (Some p) = Done (s', m') ∧ slab_ok s' m' (delete p live) ∧
    free_list_head_ s' = Some p ∧ chunks_ s' = chunks_ s ∧
    (∀ b, b ∉ chunks_ s → m' !! b = m !! b).
Proof.
  intros [? ? (l & Hl & Hnd & Hall) ?] Hp. simpl. destruct (ok_live0 p x Hp) as (Hc & Hi & Hs).
  rewrite Hs. eexists _, _. split; [reflexivity|].
  assert (Hsome : is_Some (slot_at m p)) by by eexists.
  assert (Hpl : p ∉ l) by (rewrite Hall; intros (_ & _ & ?); congruence).
  split_and!; [|done|done|].
  - split; simpl; [|done| |].
    + intros b Hb. destruct (ok_chunks0 b Hb) as (c & ? & <-). by apply set_slot_chunk.
    + exists (p :: l). split_and!; [| |].
      * split; [done|]. exists (free_list_head_ s). rewrite slot_at_set by done.
        split; [by rewrite decide_True|]. eapply free_list_ext; [done|]. intros q Hq.
        rewrite slot_at_set by done. rewrite decide_False; [done|]. by intros ->.
      * by constructor.
      * intros q. destruct (decide (p = q)) as [<-|Hne].
        -- rewrite lookup_delete_eq. split; [done|]. intros _. by left.
        -- rewrite lookup_delete_ne by done. rewrite <- Hall. split; [|by right].
           by intros [->|?]%elem_of_cons.
    + intros q y [Hne Hq]%lookup_delete_Some. rewrite slot_at_set by done.
      rewrite decide_False by done. by apply ok_live0.
  - intros b Hb. simpl. unfold set_slot. apply lookup_alter_ne. by intros <-.
Qed.
End slab.
Arguments Slot : clear implicits.

(** ** Properties *)

(** C10. A slab allocator is a pool of objects: [allocate] answers a slot that holds
    no live object, makes exactly that slot live and takes a new chunk only when
    none of its slots is free; [deallocate] of a live object makes exactly that slot
    free and it is the next one handed out; all other live objects and all foreign
    memory stay as they were; freeing a slot that is not live (a double free) is
    undefined behaviour. *)
Theorem slab_implements_pool {T} ChunkObjects (make_chunk : gmap Z (list (Slot T)) → option Z)
    s m live :
  (0 < ChunkObjects)%nat → (∀ m b, make_chunk m = Some b → m !! b = None) →
  slab_ok ChunkObjects s m live →
  (∀ x, (allocate ChunkObjects make_chunk s m x = Fault Aborted ∧ make_chunk m = None) ∨
     ∃ p s' m', allocate ChunkObjects make_chunk s m x = Done (p, s', m') ∧ live !! p = None ∧
       slab_ok ChunkObjects s' m' (<[p := x]> live) ∧
       (free_list_head_ s ≠ None → chunks_ s' = chunks_ s) ∧
       (∀ b, b ∉ chunks_ s' → m' !! b = m !! b)) ∧
  (∀ p x, live !! p = Some x →
     ∃ s' m', deallocate s m (Some p) = Done (s', m') ∧
       slab_ok ChunkObjects s' m' (delete p live) ∧
       (∀ b, b ∉ chunks_ s → m' !! b = m !! b) ∧
       ∀ y, ∃ s2 m2, allocate ChunkObjects make_chunk s' m' y = Done (p, s2, m2)) ∧
  (∀ p, p.1 ∈ chunks_ s → (p.2 < ChunkObjects)%nat → live !! p = None →
     deallocate s m (Some p) = Fault UndefinedBehaviour).
Proof.
  intros Hpos Hfresh Hok. split_and!.
  - intros x. destruct (slab_ok_allocate ChunkObjects make_chunk Hpos Hfresh s m live x Hok)
      as [?|(p & s' & m' & ? & ? & ? & Hg & ?)]; [by left|right].
    exists p, s', m'. split_and!; [done..|intros; by apply Hg|done].
  - intros p x Hp. destruct (ok_deallocate ChunkObjects Hpos s m live p x Hok Hp)
      as (s' & m' & ? & Hok' & Hh & ? & ?).
    exists s', m'. split_and!; [done..|]. intros y.
    destruct (slab_ok_allocate ChunkObjects make_chunk Hpos Hfresh s' m' _ y Hok')
      as [[Ha _]|(q & s2 & m2 & Ha & _ & _ & Hg & _)].
    + unfold allocate in Ha. rewrite Hh in Ha. simpl in Ha.
      rewrite Hh in Ha. simpl in Ha. by destruct (slot_at m' p) as [[]|].
    + destruct Hg as [Hg _]; [by rewrite Hh|]. rewrite Hh in Hg. injection Hg as <-.
      by exists s2, m2.
  - intros p Hc Hi Hn. destruct Hok as [_ _ (l & Hl & _ & Hall) _]. simpl.
    assert (Hp : p ∈ l) by (by apply Hall).
    assert (∃ nx, slot_at m p = Some (next_free nx)) as [nx ->]; [|done].
    clear Hall. revert Hl. generalize (free_list_head_ s). induction l as [|q l IH]; intros head.
    { by apply elem_of_nil in Hp. }
    intros (_ & nx & Hq & Hl). apply elem_of_cons in Hp as [->|Hp]; [by exists nx|by eapply IH].
Qed.

(** A chunk allocator for the examples: the first unused number. *)
Definition next_chunk (m : gmap Z (list (Slot nat))) : option Z := Some (fresh (dom m)).

Lemma next_chunk_fresh m b : next_chunk m = Some b → m !! b = None.
Proof. intros [= <-]. apply not_elem_of_dom, is_fresh. Qed.

Lemma slab_implements_pool_witness :
  ∃ p s' m', allocate 2 next_chunk slab_new ∅ 7%nat = Done (p, s', m') ∧
    slab_ok 2 s' m' {[p := 7%nat]}.
Proof.
  destruct (slab_implements_pool 2 next_chunk slab_new ∅ ∅ ltac:(lia) next_chunk_fresh
    (slab_new_ok 2 ∅)) as [H _].
  destruct (H 7%nat) as [[_ ?]|(p & s' & m' & ? & _ & Hok & _)]; [done|].
  by exists p, s', m'.
Defined.

(** The defaulted move leaves the moved-from allocator with the free list of
    the new one: it still hands out a slot of memory it no longer owns, and once the
    new owner has used that slot, allocating from the old one is undefined
    behaviour. *)
Theorem slab_move_aliases {T} ChunkObjects (make_chunk : gmap Z (list (Slot T)) → option Z)
    s m live x y p s1 m1 :
  (0 < ChunkObjects)%nat → (∀ m b, make_chunk m = Some b → m !! b = None) →
  slab_ok ChunkObjects s m live → free_list_head_ s ≠ None →
  allocate ChunkObjects make_chunk (slab_move s).1 m x = Done (p, s1, m1) →
  chunks_ (slab_move s).2 = [] ∧
  (∃ s2 m2, allocate ChunkObjects make_chunk (slab_move s).2 m y = Done (p, s2, m2)) ∧
  allocate ChunkObjects make_chunk (slab_move s).2 m1 y = Fault UndefinedBehaviour.
Proof.
  intros Hpos Hfresh Hok Hh Ha. simpl in *. split; [done|].
  destruct (slab_ok_allocate ChunkObjects make_chunk Hpos Hfresh s m live x Hok)
    as [[Ha' _]|(q & s' & m' & Ha' & _ & Hok' & Hg & _)]; [congruence|].
  rewrite Ha in Ha'. injection Ha' as <- <- <-. destruct (Hg Hh) as [Hp _].
  assert (Hs : slot_at m1 p = Some (object x)).
  { apply (ok_live _ _ _ _ Hok'). apply lookup_insert_eq. }
  unfold allocate in *. simpl in *. rewrite Hp in *. simpl in *. split; [|by rewrite Hs].
  rewrite Hp in Ha. simpl in Ha. destruct (slot_at m p) as [[nx|]|]; try done. by eexists _, _.
Qed.

Lemma slab_move_aliases_witness :
  ∃ s m p s1 m1, allocate 2 next_chunk (slab_move s).1 m 8%nat = Done (p, s1, m1) ∧
    allocate 2 next_chunk (slab_move s).2 m1 9%nat = Fault UndefinedBehaviour.
Proof.
  destruct (allocate 2 next_chunk slab_new ∅ 7%nat) as [[[p0 s] m]|e] eqn:E0; [|by vm_compute in E0].
  destruct (slab_ok_allocate 2 next_chunk ltac:(lia) next_chunk_fresh slab_new ∅ ∅ 7%nat (slab_new_ok 2 ∅))
    as [[_ ?]|(q & s' & m' & E1 & _ & Hok & _)]; [done|].
  rewrite E0 in E1. injection E1 as <- <- <-.
  assert (Hh : free_list_head_ s ≠ None) by (vm_compute in E0; by injection E0 as <- <- <-).
  destruct (allocate 2 next_chunk (slab_move s).1 m 8%nat) as [[[p s1] m1]|e] eqn:E2;
    [|vm_compute in E0; injection E0 as <- <- <-; by vm_compute in E2].
  destruct (slab_move_aliases 2 next_chunk s m _ 8%nat 9%nat p s1 m1 ltac:(lia) next_chunk_fresh
    Hok Hh E2) as (_ & _ & H).
  by exists s, m, p, s1, m1.
Defined.
