(* ===== verification/TimerWheel.v ===== *)
(** * Timer wheel ([include/jellybean/reactor/timer_wheel.hpp], [src/reactor/timer_wheel.cpp])

    A callback is a value of a type [C]; what matters of it to the wheel is which
    timers it arms while it runs, the parameter [arms]. Arming a timer in the very
    bucket whose vector [advance] is iterating grows that vector under its
    iterators: undefined behaviour. *)
From S2P Require Import Prelude.
From Stdlib Require Import Sorted.

Section wheel.
Context {C : Type} (arms : C → list (Z * C)).

(** ** Data *)

Definition SLOTS : Z := 512.

Definition TICK_NS : Z := 1000000.

Record TimerEntry := { expires_tick : Z; callback : C }.

Record TimerWheel := {
  slots_ : list (list TimerEntry);
  current_tick_ : Z }.

Definition wheel_new : TimerWheel :=
  {| slots_ := replicate (Z.to_nat SLOTS) []; current_tick_ := 0 |}.

(** ** Operations *)

Definition slot_of (tick : Z) : nat := Z.to_nat (Z.land tick (SLOTS -w 1)).

Definition ticks_of (delay_ns : Z) : Z :=
  let ticks := delay_ns / TICK_NS in if ticks =? 0 then 1 else ticks.

Definition add_timer (w : TimerWheel) (delay_ns : Z) (cb : C) : TimerWheel :=
  let expires := current_tick_ w +w ticks_of delay_ns in
  {| slots_ := alter (λ l, l ++ [{| expires_tick := expires; callback := cb |}])
                 (slot_of expires) (slots_ w);
     current_tick_ := current_tick_ w |}.

Definition initialize (w : TimerWheel) (now_ns : Z) : TimerWheel :=
  {| slots_ := slots_ w; current_tick_ := now_ns / TICK_NS |}.

(** Running one callback while the bucket [busy] is being iterated. *)
Fixpoint run_callback (w : TimerWheel) (busy : nat) (timers : list (Z * C)) :
    outcome TimerWheel :=
  match timers with
  | [] => mret w
  | (delay, cb) :: timers =>
      if decide (slot_of (current_tick_ w +w ticks_of delay) = busy)
      then Fault UndefinedBehaviour
      else run_callback (add_timer w delay cb) busy timers
  end.

Fixpoint fire (w : TimerWheel) (busy : nat) (due : list TimerEntry) : outcome TimerWheel :=
  match due with
  | [] => mret w
  | e :: due => w ← run_callback w busy (arms (callback e)); fire w busy due
  end.

Definition is_pending (tick : Z) (e : TimerEntry) : bool := tick <? expires_tick e.

(** One turn of the loop of [advance]; the entries it fires. *)
Definition advance_tick (w : TimerWheel) : outcome (TimerWheel * list TimerEntry) :=
  let tick := current_tick_ w +w 1 in
  let slot := slot_of tick in
  entries ← deref (slots_ w !! slot);
  match entries with
  | [] => mret ({| slots_ := slots_ w; current_tick_ := tick |}, [])
  | _ =>
      let keep := base.filter (λ e, is_pending tick e = true) entries in
      let due := base.filter (λ e, is_pending tick e = false) entries in
      w' ← fire {| slots_ := <[slot := keep ++ due]> (slots_ w); current_tick_ := tick |} slot due;
      mret ({| slots_ := alter (take (length keep)) slot (slots_ w');
               current_tick_ := current_tick_ w' |}, due)
  end.

Fixpoint advance_loop (fuel : nat) (w : TimerWheel) (target : Z)
    (fired : list (Z * TimerEntry)) : outcome (TimerWheel * list (Z * TimerEntry)) :=
  if current_tick_ w <? target then
    match fuel with
    | O => Fault OutOfFuel
    | S fuel =>
        ' (w, due) ← advance_tick w;
        advance_loop fuel w target (fired ++ (pair (current_tick_ w) <$> due))
    end
  else mret (w, fired).

(** The wheel and the entries fired, in order, each with the tick it fired at. The
    loop turns once per tick. *)
Definition advance (w : TimerWheel) (now_ns : Z) :
    outcome (TimerWheel * list (Z * TimerEntry)) :=
  let target := now_ns / TICK_NS in
  advance_loop (Z.to_nat (target - current_tick_ w)) w target [].

(** ** Invariant *)

Definition entries (w : TimerWheel) : list TimerEntry := concat (slots_ w).

(** Every entry is in the bucket of its tick, and its tick lies ahead. *)
Record wheel_ok (w : TimerWheel) : Prop := {
  ok_length : length (slots_ w) = Z.to_nat SLOTS;
  ok_tick : 0 <= current_tick_ w <= 2 ^ 61;
  ok_entry : ∀ i l e, slots_ w !! i = Some l → e ∈ l →
    i = slot_of (expires_tick e) ∧ current_tick_ w < expires_tick e < 2 ^ 63 }.

(** ** Lemmas *)

Lemma slot_of_mod t : slot_of t = Z.to_nat (t `mod` SLOTS).
Proof.
  unfold slot_of, SLOTS. rewrite u64_small by lia. by rewrite land_mask by done.
Qed.

Lemma slot_of_lt t : (slot_of t < Z.to_nat SLOTS)%nat.
Proof. rewrite slot_of_mod. unfold SLOTS. pose proof (Z.mod_pos_bound t 512 eq_refl). lia. Qed.

Lemma ticks_of_bound d : is_u64 d → 1 <= ticks_of d <= 2 ^ 61.
Proof.
  unfold is_u64, ticks_of, TICK_NS. intros Hd.
  destruct (Z.eqb_spec (d / 1000000) 0); [lia|].
  pose proof (Z.div_pos d 1000000). split; [lia|]. apply Z.div_le_upper_bound; lia.
Qed.

Lemma ticks_of_max d : is_u64 d → ticks_of d = Z.max 1 (d / TICK_NS).
Proof.
  unfold is_u64, ticks_of, TICK_NS. intros Hd. pose proof (Z.div_pos d 1000000).
  destruct (Z.eqb_spec (d / 1000000) 0); lia.
Qed.

Lemma alter_insert {A} (f : A → A) i (l : list A) x :
  l !! i = Some x → alter f i l = <[i := f x]> l.
Proof.
  intros Hi. apply list_eq. intros j. destruct (decide (i = j)) as [<-|].
  - rewrite list_lookup_alter_eq, list_lookup_insert_eq by by eapply lookup_lt_Some.
    by rewrite Hi.
  - by rewrite list_lookup_alter_ne, list_lookup_insert_ne.
Qed.

Lemma alter_insert_apart {A} (f : A → A) i j (l : list A) x :
  i ≠ j → alter f i (<[j := x]> l) = <[j := x]> (alter f i l).
Proof.
  intros Hij. apply list_eq. intros k. destruct (decide (i = k)) as [<-|Hik].
  - by rewrite list_lookup_alter_eq, !list_lookup_insert_ne, list_lookup_alter_eq.
  - rewrite list_lookup_alter_ne by done. destruct (decide (j = k)) as [<-|].
    + destruct (decide (j < length l)%nat).
      * by rewrite !list_lookup_insert_eq by (rewrite ?length_alter; done).
      * rewrite !list_insert_ge by (rewrite ?length_alter; lia).
        by rewrite list_lookup_alter_ne.
    + by rewrite !list_lookup_insert_ne, list_lookup_alter_ne.
Qed.

Definition armed (tick : Z) (d : Z * C) : TimerEntry :=
  {| expires_tick := tick + ticks_of d.1; callback := d.2 |}.

Lemma expires_exact w d :
  wheel_ok w → is_u64 d →
  current_tick_ w +w ticks_of d = current_tick_ w + ticks_of d ∧
  current_tick_ w < current_tick_ w + ticks_of d < 2 ^ 63.
Proof.
  intros [_ Ht _] Hd%ticks_of_bound. rewrite u64_small; lia.
Qed.

Lemma add_timer_ok w d cb :
  wheel_ok w → is_u64 d →
  wheel_ok (add_timer w d cb) ∧
  entries (add_timer w d cb) ≡ₚ armed (current_tick_ w) (d, cb) :: entries w ∧
  ∀ i, i ≠ slot_of (current_tick_ w +w ticks_of d) →
    slots_ (add_timer w d cb) !! i = slots_ w !! i.
Proof.
  intros Hok Hd. destruct (expires_exact w d Hok Hd) as [Hx Hlt]. destruct Hok as [Hlen Ht He].
  unfold add_timer, entries, armed. simpl. rewrite Hx. set (x := current_tick_ w + ticks_of d) in *.
  pose proof (slot_of_lt x) as Hs.
  destruct (lookup_lt_is_Some_2 (slots_ w) (slot_of x)) as [l Hl]; [lia|].
  split_and!.
  - split; simpl; [by rewrite length_alter|done|]. intros i l' e Hi Hin.
    destruct (decide (slot_of x = i)) as [<-|Hne].
    + rewrite list_lookup_alter_eq, Hl in Hi. injection Hi as <-.
      apply elem_of_app in Hin as [Hin|Hin]; [by eapply He|].
      apply list_elem_of_singleton in Hin as ->. done.
    + rewrite list_lookup_alter_ne in Hi by done. by eapply He.
  - rewrite (alter_insert _ _ _ _ Hl). destruct (concat_bucket _ _ _ Hl) as (rest & -> & Hr).
    rewrite Hr. rewrite <- app_assoc. symmetry. apply Permutation_middle.
  - intros i Hi. by rewrite list_lookup_alter_ne.
Qed.

(** Delays a callback may arm: not a multiple of the whole wheel, which would land
    in the bucket being fired. *)
Definition delay_ok (d : Z) : Prop := is_u64 d ∧ ticks_of d `mod` SLOTS ≠ 0.

Definition with_bucket (w : TimerWheel) (i : nat) (l : list TimerEntry) : TimerWheel :=
  {| slots_ := <[i := l]> (slots_ w); current_tick_ := current_tick_ w |}.

Lemma delay_ok_slot w d :
  wheel_ok w → delay_ok d →
  slot_of (current_tick_ w +w ticks_of d) ≠ slot_of (current_tick_ w).
Proof.
  intros Hok [Hd Hm]. rewrite (proj1 (expires_exact w d Hok Hd)), !slot_of_mod.
  unfold SLOTS in *. pose proof (Z.mod_pos_bound (current_tick_ w) 512 eq_refl).
  pose proof (Z.mod_pos_bound (current_tick_ w + ticks_of d) 512 eq_refl).
  intros Heq%Z2Nat.inj; [|lia..]. apply Hm.
  replace (ticks_of d) with (current_tick_ w + ticks_of d - current_tick_ w) by lia.
  rewrite Zminus_mod, Heq, Z.sub_diag. done.
Qed.

(** Firing never touches the busy bucket: it does to the wheel what it would do if
    that bucket held [keep] all along. *)
Lemma run_callback_ok w0 busy x timers :
  wheel_ok w0 → busy = slot_of (current_tick_ w0) → Forall (λ d, delay_ok d.1) timers →
  ∃ w1, run_callback (with_bucket w0 busy x) busy timers = Done (with_bucket w1 busy x) ∧
    wheel_ok w1 ∧ slots_ w1 !! busy = slots_ w0 !! busy ∧
    current_tick_ w1 = current_tick_ w0 ∧
    entries w1 ≡ₚ (armed (current_tick_ w0) <$> timers) ++ entries w0.
Proof.
  intros Hok Hb. revert w0 Hok Hb. induction timers as [|[d cb] ts IH]; intros w0 Hok Hb Hts.
  { by exists w0. }
  apply Forall_cons in Hts as [Hd Hts]. simpl in Hd. pose proof (delay_ok_slot w0 d Hok Hd) as Hne.
  simpl. rewrite Hb. rewrite decide_False by done. rewrite <- Hb in *.
  destruct (add_timer_ok w0 d cb Hok (proj1 Hd)) as (Hok1 & Hperm & Hsame).
  assert (add_timer (with_bucket w0 busy x) d cb = with_bucket (add_timer w0 d cb) busy x) as ->.
  { unfold add_timer, with_bucket. simpl. f_equal. by apply alter_insert_apart. }
  destruct (IH (add_timer w0 d cb) Hok1) as (w1 & -> & ? & Hs & ? & Hp); [done|done|].
  exists w1. split_and!; [done|done| |done|].
  - rewrite Hs. apply Hsame. congruence.
  - rewrite Hp, Hperm. simpl. symmetry. apply Permutation_middle.
Qed.

Lemma fire_ok w0 busy x due :
  wheel_ok w0 → busy = slot_of (current_tick_ w0) →
  Forall (λ e, Forall (λ d, delay_ok d.1) (arms (callback e))) due →
  ∃ w1, fire (with_bucket w0 busy x) busy due = Done (with_bucket w1 busy x) ∧
    wheel_ok w1 ∧ slots_ w1 !! busy = slots_ w0 !! busy ∧
    current_tick_ w1 = current_tick_ w0 ∧
    entries w1 ≡ₚ (due ≫= λ e, armed (current_tick_ w0) <$> arms (callback e)) ++ entries w0.
Proof.
  intros Hok Hb. revert w0 Hok Hb. induction due as [|e due IH]; intros w0 Hok Hb Hdue.
  { by exists w0. }
  apply Forall_cons in Hdue as [He Hdue]. simpl.
  destruct (run_callback_ok w0 busy x _ Hok Hb He) as (w1 & -> & Hok1 & Hs1 & Ht1 & Hp1). simpl.
  destruct (IH w1 Hok1) as (w2 & -> & Hok2 & Hs2 & Ht2 & Hp2); [by rewrite Ht1|done|].
  exists w2. split_and!; [done|done|congruence|congruence|].
  rewrite Hp2, Hp1, Ht1. rewrite !app_assoc. f_equiv. apply Permutation_app_comm.
Qed.

Context (arms_ok : ∀ c, Forall (λ d, delay_ok d.1) (arms c)).

Lemma partition_permutation (p : TimerEntry → bool) l :
  base.filter (λ e, p e = true) l ++ base.filter (λ e, p e = false) l ≡ₚ l.
Proof.
  induction l as [|e l IH]; [done|]. rewrite !filter_cons.
  destruct (p e) eqn:E; simpl; [by rewrite IH|]. rewrite <- Permutation_middle. by rewrite IH.
Qed.

Lemma advance_tick_ok w :
  wheel_ok w → current_tick_ w < 2 ^ 61 →
  ∃ w' due, advance_tick w = Done (w', due) ∧ wheel_ok w' ∧
    current_tick_ w' = current_tick_ w + 1 ∧
    Forall (λ e, expires_tick e = current_tick_ w + 1) due ∧
    entries w' ++ due ≡ₚ
      entries w ++ (due ≫= λ e, armed (current_tick_ w + 1) <$> arms (callback e)).
Proof.
  intros [Hlen Ht He] Hlt. unfold advance_tick. rewrite u64_small by lia.
  set (t := current_tick_ w + 1) in *. pose proof (slot_of_lt t) as Hs.
  destruct (lookup_lt_is_Some_2 (slots_ w) (slot_of t)) as [l Hl]; [lia|]. rewrite Hl. simpl.
  assert (Hahead : ∀ i l e, slots_ w !! i = Some l → e ∈ l →
    i ≠ slot_of t ∨ is_pending t e = true → t < expires_tick e < 2 ^ 63).
  { intros i l' e Hi Hin Hc. destruct (He i l' e Hi Hin) as [Hie ?].
    destruct Hc as [Hc|Hc%Z.ltb_lt]; [|lia]. assert (t ≠ expires_tick e) by congruence. lia. }
  set (keep := base.filter (λ e, is_pending t e = true) l).
  set (due := base.filter (λ e, is_pending t e = false) l).
  set (w0 := with_bucket {| slots_ := slots_ w; current_tick_ := t |} (slot_of t) keep).
  assert (Hok0 : wheel_ok w0).
  { split; simpl; [by rewrite length_insert|lia|]. intros i l' e Hi Hin.
    destruct (decide (slot_of t = i)) as [<-|Hne].
    - rewrite list_lookup_insert_eq in Hi by lia. injection Hi as <-.
      apply list_elem_of_filter in Hin as [Hp Hin].
      split; [by eapply He|]. eapply Hahead; [done|done|by right].
    - rewrite list_lookup_insert_ne in Hi by done. split; [by eapply He|].
      eapply Hahead; [done|done|left; congruence]. }
  assert (Hdue : Forall (λ e, expires_tick e = t) due).
  { apply Forall_forall. intros e [Hp%Z.ltb_ge Hin]%list_elem_of_filter.
    destruct (He _ _ _ Hl Hin) as [_ ?]. lia. }
  assert (Hent : entries w0 ++ due ≡ₚ entries w).
  { unfold entries, w0. simpl. destruct (concat_bucket _ _ _ Hl) as (rest & -> & ->).
    rewrite <- app_assoc, (Permutation_app_comm rest), app_assoc.
    f_equiv. apply partition_permutation. }
  destruct l as [|e l'].
  - exists w0, []. split; [|split_and!; try done; simpl; by rewrite (app_nil_r (entries w))].
    unfold w0, with_bucket, keep. simpl. by rewrite list_insert_id.
  - destruct (fire_ok w0 (slot_of t) (keep ++ due) due Hok0 eq_refl)
      as (w1 & Hf & Hok1 & Hs1 & Ht1 & Hp1); [by apply Forall_forall|].
    exists w1, due. split_and!; [|done|done|done|].
    + unfold with_bucket in Hf. simpl in Hf. rewrite list_insert_insert_eq in Hf.
      fold keep due. rewrite Hf. simpl.
      assert (Hk : slots_ w1 !! slot_of t = Some keep).
      { rewrite Hs1. simpl. apply list_lookup_insert_eq. lia. }
      rewrite (alter_insert _ _ _ (keep ++ due))
        by (apply list_lookup_insert_eq; by eapply lookup_lt_Some).
      rewrite list_insert_insert_eq, take_app_length, list_insert_id by done. by destruct w1.
    + rewrite Hp1, <- Hent. simpl. rewrite <- app_assoc. apply Permutation_app_comm.
Qed.

Definition armed_by (f : Z * TimerEntry) : list TimerEntry :=
  armed f.1 <$> arms (callback f.2).

Lemma advance_loop_ok fuel w target fired0 :
  wheel_ok w → target <= 2 ^ 61 → target - current_tick_ w <= Z.of_nat fuel →
  ∃ w' fired, advance_loop fuel w target fired0 = Done (w', fired0 ++ fired) ∧ wheel_ok w' ∧
    current_tick_ w' = Z.max (current_tick_ w) target ∧
    StronglySorted Z.le fired.*1 ∧
    Forall (λ f, current_tick_ w < f.1 <= target ∧ f.1 = expires_tick f.2) fired ∧
    entries w' ++ fired.*2 ≡ₚ entries w ++ (fired ≫= armed_by).
Proof.
  intros Hok Htgt. revert w fired0 Hok. induction fuel as [|fuel IH]; intros w fired0 Hok Hfuel;
    cbn [advance_loop]; destruct (Z.ltb_spec (current_tick_ w) target) as [Hlt|Hge];
    try (exists w, []; rewrite !app_nil_r; split_and!; [done|done|lia|constructor..|done]); [lia|].
  destruct (advance_tick_ok w Hok) as (w1 & due & -> & Hok1 & Ht1 & Hdue & Hp1); [lia|]. simpl.
  destruct (IH w1 (fired0 ++ (pair (current_tick_ w1) <$> due)) Hok1)
    as (w2 & fired & -> & Hok2 & Ht2 & Hs2 & Hf2 & Hp2); [lia|].
  exists w2, ((pair (current_tick_ w1) <$> due) ++ fired). rewrite <- app_assoc.
  assert (Hfst : ∀ x, x ∈ fired.*1 → current_tick_ w1 < x).
  { intros x (f & -> & Hf)%list_elem_of_fmap. rewrite Forall_forall in Hf2.
    destruct (Hf2 f Hf) as [? _]. lia. }
  split_and!; [done|done|lia| | |].
  - rewrite fmap_app. clear -Hs2 Hfst. induction due as [|e due IHd]; [done|]. simpl.
    constructor; [done|]. apply Forall_app. split.
    + apply Forall_forall. intros x (f & -> & (e' & -> & _)%list_elem_of_fmap)%list_elem_of_fmap. done.
    + apply Forall_forall. intros x Hx. specialize (Hfst x Hx). lia.
  - apply Forall_app. split.
    + apply Forall_fmap, (Forall_impl _ _ _ Hdue). intros e He. simpl. lia.
    + apply (Forall_impl _ _ _ Hf2). intros f [? ?]. split; [lia|done].
  - rewrite fmap_app, bind_app. rewrite <- list_fmap_compose. simpl.
    assert (snd ∘ pair (current_tick_ w1) <$> due = due) as ->.
    { rewrite <- (list_fmap_id due) at 2. done. }
    transitivity ((entries w2 ++ fired.*2) ++ due).
    { rewrite <- app_assoc. f_equiv. apply Permutation_app_comm. }
    rewrite Hp2. transitivity ((entries w1 ++ due) ++ (fired ≫= armed_by)).
    { rewrite <- !app_assoc. f_equiv. apply Permutation_app_comm. }
    rewrite Hp1, <- Ht1, <- app_assoc. f_equiv. f_equiv.
    clear. induction due as [|e due IHd]; [done|]. simpl. by rewrite <- IHd.
Qed.
End wheel.

(** ** Properties *)

Lemma wheel_new_ok {C} : @wheel_ok C wheel_new.
Proof.
  split; [done|done|]. intros i l e Hl He. exfalso.
  change (replicate (Z.to_nat SLOTS) [] !! i = Some l) in Hl.
  apply lookup_replicate in Hl as [-> _]. by apply elem_of_nil in He.
Qed.

(** C11. When no callback arms a delay of a whole number of wheel turns, [advance]
    terminates without undefined behaviour, fires every timer exactly at its tick
    (never early, never skipped, however far the clock jumped), in the order of the
    ticks, and loses none: the timers left and those fired are together the timers
    that were there and those the callbacks armed, and all those left lie in the
    future. A timer is never due before one full tick has passed. *)
Theorem timers_fire_on_time {C} (arms : C → list (Z * C)) (w : TimerWheel) now_ns :
  (∀ c, Forall (λ d, delay_ok d.1) (arms c)) → wheel_ok w → is_u64 now_ns →
  (∀ d c, is_u64 d → wheel_ok (add_timer w d c) ∧
     entries (add_timer w d c) ≡ₚ
       {| expires_tick := current_tick_ w + Z.max 1 (d / TICK_NS); callback := c |} :: entries w) ∧
  ∃ w' fired, advance arms w now_ns = Done (w', fired) ∧ wheel_ok w' ∧
    current_tick_ w' = Z.max (current_tick_ w) (now_ns / TICK_NS) ∧
    StronglySorted Z.le fired.*1 ∧
    Forall (λ f, current_tick_ w < f.1 <= now_ns / TICK_NS ∧ f.1 = expires_tick f.2) fired ∧
    entries w' ++ fired.*2 ≡ₚ entries w ++ (fired ≫= armed_by arms) ∧
    Forall (λ e, current_tick_ w' < expires_tick e) (entries w').
Proof.
  intros Harms Hok Hnow. split.
  - intros d c Hd. destruct (add_timer_ok w d c Hok Hd) as (? & Hp & _). split; [done|].
    rewrite Hp. unfold armed. simpl. by rewrite ticks_of_max.
  - unfold is_u64, advance, TICK_NS in *.
    assert (now_ns / 1000000 <= 2 ^ 61) by (apply Z.div_le_upper_bound; lia).
    destruct (advance_loop_ok arms Harms (Z.to_nat (now_ns / 1000000 - current_tick_ w)) w
      (now_ns / 1000000) [] Hok) as (w' & fired & ? & Hok' & ? & ? & ? & ?); [done|lia|].
    exists w', fired. split_and!; [done..|]. apply Forall_forall. intros e He.
    apply list_elem_of_In, in_concat in He as (l & Hl%list_elem_of_In & He%list_elem_of_In).
    apply list_elem_of_lookup in Hl as [i Hi]. by destruct (ok_entry w' Hok' i l e Hi He) as [_ [? _]].
Qed.

(** A callback that re-arms itself every 10 ms. *)
Definition every_10ms (c : nat) : list (Z * nat) := [(10 * TICK_NS, c)].

Lemma timers_fire_on_time_witness :
  ∃ w' fired, advance every_10ms (add_timer wheel_new (3 * TICK_NS) 7%nat) (25 * TICK_NS) =
    Done (w', fired) ∧ fired.*1 = [3; 13; 23].
Proof.
  assert (Harms : ∀ c, Forall (λ d : Z * nat, delay_ok d.1) (every_10ms c)).
  { intros c. repeat constructor; [done|]. by vm_compute. }
  destruct (timers_fire_on_time every_10ms wheel_new 0 Harms wheel_new_ok ltac:(done)) as [Hadd _].
  destruct (Hadd (3 * TICK_NS) 7%nat ltac:(done)) as [Hok _].
  destruct (timers_fire_on_time every_10ms _ (25 * TICK_NS) Harms Hok ltac:(done))
    as [_ (w' & fired & Ha & _)].
  exists w', fired. split; [done|]. vm_compute in Ha. by injection Ha as <- <-.
Defined.

(** A callback that arms a delay of a whole number of wheel turns (512 ms, say)
    pushes onto the vector [advance] is iterating over: undefined behaviour. *)
Theorem rearming_by_a_wheel_turn_is_undefined {C} (arms : C → list (Z * C)) c c' d rest :
  arms c = (d, c') :: rest → is_u64 d → ticks_of d `mod` SLOTS = 0 →
  advance arms (add_timer wheel_new TICK_NS c) TICK_NS = Fault UndefinedBehaviour.
Proof.
  intros Harms Hd Hm. unfold advance. change (TICK_NS / TICK_NS) with 1.
  change (Z.to_nat (1 - current_tick_ (add_timer wheel_new TICK_NS c))) with 1%nat.
  cbn [advance_loop].
  change (current_tick_ (add_timer wheel_new TICK_NS c) <? 1) with true. cbv iota.
  assert (advance_tick arms (add_timer wheel_new TICK_NS c) = Fault UndefinedBehaviour) as ->; [|done].
  unfold advance_tick.
  change (slots_ (add_timer wheel_new TICK_NS c) !!
    slot_of (current_tick_ (add_timer wheel_new TICK_NS c) +w 1))
    with (Some [{| expires_tick := 1; callback := c |}]).
  cbn [deref mbind outcome_bind].
  change (base.filter (λ e : TimerEntry, is_pending (current_tick_ (add_timer wheel_new TICK_NS c) +w 1) e = false)
    [{| expires_tick := 1; callback := c |}]) with [{| expires_tick := 1; callback := c |}].
  unfold fire at 1. cbn [callback]. rewrite Harms. cbn [run_callback current_tick_].
  change (current_tick_ (add_timer wheel_new TICK_NS c) +w 1) with 1.
  rewrite decide_True; [done|]. rewrite !slot_of_mod. pose proof (ticks_of_bound d Hd).
  rewrite u64_small by lia. f_equal.
  unfold SLOTS in *. rewrite <- Zplus_mod_idemp_r, Hm. done.
Qed.

Definition every_512ms (c : nat) : list (Z * nat) := [(512 * TICK_NS, c)].

Lemma rearming_by_a_wheel_turn_is_undefined_witness :
  advance every_512ms (add_timer wheel_new TICK_NS 0%nat) TICK_NS = Fault UndefinedBehaviour.
Proof.
  exact (rearming_by_a_wheel_turn_is_undefined every_512ms 0%nat 0%nat (512 * TICK_NS) []
    eq_refl ltac:(done) eq_refl).
Defined.

(** A timer of [delay] ms armed while the wheel's clock still reads 0, then the
    wheel started at [start] ms. *)
Definition armed_then_started (delay start : Z) : TimerWheel (C := ()) :=
  initialize (add_timer wheel_new (delay * TICK_NS) ()) (start * TICK_NS).

(** The ticks at which timers fire when the clock reaches [ms]. *)
Definition firing_ticks (w : TimerWheel (C := ())) (ms : Z) : option (list Z) :=
  match advance (λ _, []) w (ms * TICK_NS) with
  | Done (_, fired) => Some fired.*1
  | Fault _ => None
  end.

(** A timer armed before [run] has set the wheel's clock ([add_timer] then
    [initialize]) does not fire after its delay: with the clock starting at 5000 ms,
    a delay of 2000 ms fires after 72 ms, and one of 5 ms only after 125 ms. *)
Theorem timer_armed_before_run_misfires :
  firing_ticks (armed_then_started 2000 5000) 5071 = Some [] ∧
  firing_ticks (armed_then_started 2000 5000) 5072 = Some [5072] ∧
  firing_ticks (armed_then_started 5 5000) 5124 = Some [] ∧
  firing_ticks (armed_then_started 5 5000) 5125 = Some [5125].
Proof. by vm_compute. Qed.
