(* ===== verification/Text.v ===== *)
(** * Text processing

    The operations of [std::string], [std::getline], [std::stoi] and
    [std::to_string] that the configuration parsers use, and the parsers' own
    [trim]. A string is its list of characters; [npos] is [None]. *)
From S2P Require Import Prelude.
From Stdlib Require Export Ascii String.
From stdpp Require Export strings.

#[global] Open Scope Z_scope.

#[global] Open Scope list_scope.

Abbreviation text := (list ascii).

(** A literal of the source. *)
Definition txt (s : string) : text := list_ascii_of_string s.

Section search.
Context (set : text).

Definition in_set (c : ascii) : bool := bool_decide (c ∈ set).

Fixpoint find_first_not_of (s : text) : option nat :=
  match s with
  | [] => None
  | c :: s => if in_set c then S <$> find_first_not_of s else Some O
  end.

Fixpoint find_last_not_of (s : text) : option nat :=
  match s with
  | [] => None
  | c :: s =>
      match find_last_not_of s with
      | Some i => Some (S i)
      | None => if in_set c then None else Some O
      end
  end.
End search.

(** [s.erase(0, n)]: [npos] erases everything. *)
Definition erase_front (s : text) (n : option nat) : text :=
  match n with Some n => drop n s | None => [] end.

Fixpoint find (c : ascii) (s : text) : option nat :=
  match s with
  | [] => None
  | d :: s => if decide (d = c) then Some O else S <$> find c s
  end.

(** All the pieces [std::getline] reads from a stream, in order. *)
Fixpoint getlines (sep : ascii) (s : text) : list text :=
  match s with
  | [] => []
  | c :: s =>
      if decide (c = sep) then [] :: getlines sep s
      else match getlines sep s with
           | [] => [[c]]
           | l :: ls => (c :: l) :: ls
           end
  end.

(** ** Trimming *)

Definition chr (n : nat) : ascii := ascii_of_nat n.

Definition whitespace : text := [chr 32; chr 9; chr 13; chr 10].

(** [trim] of [src/model/model_config.cpp]. *)
Definition trim (s : text) : text :=
  let s := erase_front s (find_first_not_of whitespace s) in
  match find_last_not_of whitespace s with
  | Some last => take (S last) s
  | None => s
  end.

(** The trimming of [RuntimeConfig::from_file] and [load_extended_config]: no line
    feed in the set, and [npos + 1] is 0. *)
Definition blanks : text := [chr 32; chr 9; chr 13].

Definition trim_blanks (s : text) : text :=
  let s := erase_front s (find_first_not_of blanks s) in
  match find_last_not_of blanks s with
  | Some last => take (last + 1) s
  | None => []
  end.

(** ** Numbers *)

Definition digit_value (c : ascii) : option Z :=
  let n := Z.of_nat (nat_of_ascii c) in
  if (48 <=? n) && (n <=? 57) then Some (n - 48) else None.

Definition isspace (c : ascii) : bool :=
  let n := nat_of_ascii c in ((n =? 32) || ((9 <=? n) && (n <=? 13)))%nat.

Fixpoint digits_value (acc : Z) (s : text) : Z :=
  match s with
  | [] => acc
  | c :: s => match digit_value c with Some d => digits_value (10 * acc + d) s | None => acc end
  end.

Fixpoint skip_spaces (s : text) : text :=
  match s with
  | [] => []
  | c :: s' => if isspace c then skip_spaces s' else s
  end.

Definition digits_only (neg : bool) (s : text) : option (bool * Z) :=
  match s with
  | c :: _ => (λ _, (neg, digits_value 0 s)) <$> digit_value c
  | [] => None
  end.

(** The longest number [strtol] and its kin read: sign and magnitude. *)
Definition scan_number (s : text) : option (bool * Z) :=
  match skip_spaces s with
  | c :: s =>
      if decide (c = "-"%char) then digits_only true s
      else if decide (c = "+"%char) then digits_only false s
      else digits_only false (c :: s)
  | [] => None
  end.

Definition signed (r : bool * Z) : Z := if r.1 then - r.2 else r.2.

Definition sto_signed (bits : Z) (s : text) : outcome Z :=
  match scan_number s with
  | None => Fault (Thrown invalid_argument)
  | Some r =>
      if (- 2 ^ (bits - 1) <=? signed r) && (signed r <? 2 ^ (bits - 1))
      then mret (signed r) else Fault (Thrown out_of_range)
  end.

Definition stoi : text → outcome Z := sto_signed 32.

Definition stoll : text → outcome Z := sto_signed 64.

(** [strtoul] accepts a sign: a negative number is reduced modulo [2^64]. *)
Definition stoul (s : text) : outcome Z :=
  match scan_number s with
  | None => Fault (Thrown invalid_argument)
  | Some r => if r.2 <? 2 ^ 64 then mret (u64 (signed r)) else Fault (Thrown out_of_range)
  end.

Fixpoint print_digits (fuel : nat) (n : Z) (acc : text) : text :=
  match fuel with
  | O => acc
  | S fuel =>
      let acc := chr (Z.to_nat (48 + n `mod` 10)) :: acc in
      if n <? 10 then acc else print_digits fuel (n / 10) acc
  end.

(** A number has at most as many decimal digits as bits, and one if it is 0. *)
Definition print_nonneg (n : Z) : text := print_digits (S (Z.to_nat (Z.log2 n))) n [].

Definition to_string (n : Z) : text :=
  if n <? 0 then "-"%char :: print_nonneg (- n) else print_nonneg n.

(** ** Lemmas *)

Section search_lemmas.
Context (set : text).

Definition all_in (s : text) : Prop := Forall (λ c, c ∈ set) s.

Lemma in_set_true c : in_set set c = true ↔ c ∈ set.
Proof. apply bool_decide_eq_true. Qed.

Lemma in_set_false c : in_set set c = false ↔ c ∉ set.
Proof. apply bool_decide_eq_false. Qed.

Lemma find_first_spec s :
  match find_first_not_of set s with
  | None => all_in s
  | Some i => ∃ a c b, s = a ++ c :: b ∧ length a = i ∧ all_in a ∧ c ∉ set
  end.
Proof.
  induction s as [|c s IH]; simpl; [constructor|].
  destruct (in_set set c) eqn:E.
  - apply in_set_true in E. destruct (find_first_not_of set s) as [i|]; simpl.
    + destruct IH as (a & d & b & -> & <- & ? & ?). exists (c :: a), d, b.
      split_and!; try done. by constructor.
    + by constructor.
  - apply in_set_false in E. exists [], c, s. split_and!; try done. constructor.
Qed.

Lemma find_last_spec s :
  match find_last_not_of set s with
  | None => all_in s
  | Some i => ∃ a c b, s = a ++ c :: b ∧ length a = i ∧ all_in b ∧ c ∉ set
  end.
Proof.
  induction s as [|c s IH]; simpl; [constructor|].
  destruct (find_last_not_of set s) as [i|].
  - destruct IH as (a & d & b & -> & <- & ? & ?). exists (c :: a), d, b. by split_and!.
  - destruct (in_set set c) eqn:E.
    + apply in_set_true in E. by constructor.
    + apply in_set_false in E. exists [], c, s. by split_and!.
Qed.

(** No character of the set at either end. *)
Definition trimmed (s : text) : Prop :=
  (∀ c s', s = c :: s' → c ∉ set) ∧ (∀ c s', s = s' ++ [c] → c ∉ set).

Lemma trimmed_nil : trimmed [].
Proof. split; [done|]. by intros c [|]. Qed.

(** What every variant of trimming computes. *)
Lemma erase_front_spec s :
  ∃ a, s = a ++ erase_front s (find_first_not_of set s) ∧ all_in a ∧
    (∀ c s', erase_front s (find_first_not_of set s) = c :: s' → c ∉ set).
Proof.
  pose proof (find_first_spec s) as H. destruct (find_first_not_of set s) as [i|]; simpl.
  - destruct H as (a & c & b & -> & <- & Ha & Hc). exists a. rewrite drop_app_length.
    split_and!; [done|done|]. by intros d s' [= <- _].
  - exists s. rewrite app_nil_r. by split_and!.
Qed.

Definition keep_through (s : text) (i : option nat) : text :=
  match i with Some i => take (S i) s | None => [] end.

Lemma keep_through_spec s :
  ∃ b, s = keep_through s (find_last_not_of set s) ++ b ∧ all_in b ∧
    (∀ c s', keep_through s (find_last_not_of set s) = s' ++ [c] → c ∉ set).
Proof.
  pose proof (find_last_spec s) as H. destruct (find_last_not_of set s) as [i|]; simpl.
  - destruct H as (a & c & b & -> & <- & Hb & Hc). exists b.
    assert (take (S (length a)) (a ++ c :: b) = a ++ [c]) as ->.
    { change (c :: b) with ([c] ++ b). rewrite app_assoc. apply take_app_exact. rewrite length_app. simpl. lia. }
    split_and!; [by rewrite <- app_assoc|done|].
    intros d s' Heq. apply app_inj_tail in Heq as [_ <-]. done.
  - exists s. split_and!; [done|done|]. by intros c [|].
Qed.

Definition strip (s : text) : text :=
  let s := erase_front s (find_first_not_of set s) in keep_through s (find_last_not_of set s).

Lemma strip_spec s : ∃ a b, s = a ++ strip s ++ b ∧ all_in a ∧ all_in b ∧ trimmed (strip s).
Proof.
  destruct (erase_front_spec s) as (a & Hs & Ha & Hfirst).
  destruct (keep_through_spec (erase_front s (find_first_not_of set s))) as (b & Hk & Hb & Hlast).
  fold (strip s) in *. exists a, b. split_and!; [by rewrite <- Hk|done|done|]. split; [|done].
  intros c s' Hc. rewrite Hc in Hk. by eapply Hfirst.
Qed.

Lemma find_first_app a c r :
  all_in a → c ∉ set → find_first_not_of set (a ++ c :: r) = Some (length a).
Proof.
  intros Ha Hc. induction Ha as [|d a Hd Ha IH]; simpl.
  - by rewrite (proj2 (in_set_false c)).
  - by rewrite (proj2 (in_set_true d)), IH.
Qed.

Lemma find_first_all s : all_in s → find_first_not_of set s = None.
Proof. induction 1 as [|d s Hd Hs IH]; simpl; [done|]. by rewrite (proj2 (in_set_true d)), IH. Qed.

Lemma find_last_all s : all_in s → find_last_not_of set s = None.
Proof. induction 1 as [|d s Hd Hs IH]; simpl; [done|]. by rewrite IH, (proj2 (in_set_true d)). Qed.

Lemma find_last_app a c b :
  all_in b → c ∉ set → find_last_not_of set (a ++ c :: b) = Some (length a).
Proof.
  intros Hb Hc. induction a as [|d a IH]; simpl.
  - by rewrite find_last_all, (proj2 (in_set_false c)).
  - by rewrite IH.
Qed.

(** Stripping is determined by its specification. *)
Lemma strip_unique a m b : all_in a → all_in b → trimmed m → strip (a ++ m ++ b) = m.
Proof.
  intros Ha Hb [Hf Hl]. unfold strip. destruct m as [|c m].
  - rewrite find_first_all; [done|]. by apply Forall_app.
  - simpl. rewrite find_first_app by (done || by eapply Hf). simpl. rewrite drop_app_length.
    destruct (exists_last (l := c :: m)) as (m' & d & Hm); [done|].
    rewrite app_comm_cons, Hm, <- app_assoc. simpl.
    rewrite find_last_app by (done || by eapply Hl).
    unfold keep_through. change (d :: b) with ([d] ++ b). rewrite app_assoc.
    apply take_app_exact. rewrite length_app. simpl. lia.
Qed.

Lemma strip_trimmed m : trimmed m → strip m = m.
Proof.
  intros. rewrite <- (app_nil_r m) at 1. by apply (strip_unique [] m []); [constructor|constructor|].
Qed.
End search_lemmas.

Lemma trim_strip s : trim s = strip whitespace s.
Proof.
  unfold trim, strip, keep_through. pose proof (erase_front_spec whitespace s) as (a & _ & _ & Hf).
  destruct (erase_front s _) as [|c s'] eqn:E; [done|].
  pose proof (find_last_spec whitespace (c :: s')) as H. specialize (Hf c s' eq_refl).
  destruct (find_last_not_of whitespace (c :: s')); [done|].
  exfalso. apply Hf. by inversion H.
Qed.

Lemma trim_blanks_strip s : trim_blanks s = strip blanks s.
Proof.
  unfold trim_blanks, strip, keep_through. destruct (find_last_not_of _ _); [|done].
  by rewrite Nat.add_1_r.
Qed.

(** ** Numbers *)

Definition not_digit (s : text) : Prop := ∀ c s', s = c :: s' → digit_value c = None.

Lemma digits_value_app acc s rest :
  not_digit rest → Forall (λ c, is_Some (digit_value c)) s →
  digits_value acc (s ++ rest) = digits_value acc s.
Proof.
  intros Hr Hs. revert acc. induction Hs as [|c s [d Hd] Hs IH]; intros acc; simpl.
  - destruct rest as [|c rest]; [done|]. simpl. by rewrite (Hr c rest eq_refl).
  - by rewrite Hd.
Qed.

Lemma digit_value_chr d : 0 <= d < 10 → digit_value (chr (Z.to_nat (48 + d))) = Some d.
Proof.
  intros Hd. unfold digit_value, chr. rewrite nat_ascii_embedding by lia.
  rewrite Z2Nat.id by lia. rewrite (proj2 (Z.leb_le _ _)), (proj2 (Z.leb_le _ _)) by lia.
  simpl. f_equal. lia.
Qed.

(** The digits of [n] in front of [acc], read back. *)
Lemma print_digits_spec fuel n acc :
  0 <= n < 2 ^ Z.of_nat fuel → fuel ≠ O →
  ∃ ds, print_digits fuel n acc = ds ++ acc ∧ ds ≠ [] ∧
    Forall (λ c, is_Some (digit_value c)) ds ∧
    ∀ a, digits_value a ds = a * 10 ^ Z.of_nat (length ds) + n.
Proof.
  revert n acc. induction fuel as [|fuel IH]; intros n acc Hn Hf; [done|]. cbn [print_digits].
  pose proof (Z.mod_pos_bound n 10 eq_refl) as Hm. pose proof (digit_value_chr (n `mod` 10) Hm) as Hd.
  destruct (Z.ltb_spec n 10) as [Hlt|Hge].
  - exists [chr (Z.to_nat (48 + n `mod` 10))]. split_and!; try done.
    + repeat constructor. by eexists.
    + intros a. simpl. rewrite Hd. rewrite Z.mod_small by lia. lia.
  - destruct (IH (n / 10) (chr (Z.to_nat (48 + n `mod` 10)) :: acc)) as (ds & -> & Hne & Hds & Hv).
    + split; [apply Z.div_pos; lia|]. apply Z.div_lt_upper_bound; [lia|].
      replace (Z.of_nat (S fuel)) with (Z.of_nat fuel + 1) in Hn by lia.
      rewrite Z.pow_add_r in Hn by lia. lia.
    + intros ->. simpl in Hn. lia.
    + exists (ds ++ [chr (Z.to_nat (48 + n `mod` 10))]). split_and!.
      * by rewrite <- app_assoc.
      * by destruct ds.
      * apply Forall_app. split; [done|]. repeat constructor. by eexists.
      * intros a. rewrite length_app. simpl.
        assert (Happ : ∀ l b x, Forall (λ c, is_Some (digit_value c)) l →
          digits_value b (l ++ x) = digits_value (digits_value b l) x).
        { clear. intros l b x Hl. revert b. induction Hl as [|c l [d Hd] Hl IH]; intros b; simpl;
            [done|]. by rewrite Hd. }
        rewrite Happ by done. simpl. rewrite Hd, Hv.
        rewrite Nat2Z.inj_add, Z.pow_add_r by lia. pose proof (Z.div_mod n 10 ltac:(lia)). simpl. lia.
Qed.

Lemma print_nonneg_spec n :
  0 <= n → print_nonneg n ≠ [] ∧ Forall (λ c, is_Some (digit_value c)) (print_nonneg n) ∧
    digits_value 0 (print_nonneg n) = n.
Proof.
  intros Hn. unfold print_nonneg.
  destruct (print_digits_spec (S (Z.to_nat (Z.log2 n))) n []) as (ds & -> & ? & ? & Hv); [|done|].
  - pose proof (Z.log2_nonneg n). split; [done|]. rewrite Nat2Z.inj_succ, Z2Nat.id by lia.
    destruct (Z.eq_dec n 0) as [->|]; [done|]. apply Z.log2_spec. lia.
  - rewrite app_nil_r. split_and!; [done|done|]. by rewrite Hv.
Qed.

Lemma digit_not_special c :
  is_Some (digit_value c) → isspace c = false ∧ c ≠ "-"%char ∧ c ≠ "+"%char.
Proof.
  intros [d Hd]. split_and!; [|by intros ->|by intros ->].
  unfold digit_value in Hd. unfold isspace.
  destruct (Z.leb_spec 48 (Z.of_nat (nat_of_ascii c))); [|done].
  destruct (Nat.eqb_spec (nat_of_ascii c) 32), (Nat.leb_spec (nat_of_ascii c) 13); try lia; by rewrite andb_false_r.
Qed.

(** Reading back what [to_string] printed, whatever follows. *)
Lemma scan_to_string n rest :
  not_digit rest → scan_number (to_string n ++ rest) = Some (n <? 0, Z.abs n).
Proof.
  intros Hr. unfold to_string.
  assert (Hgo : ∀ neg m, 0 <= m → digits_only neg (print_nonneg m ++ rest) = Some (neg, m)).
  { intros neg m Hm. destruct (print_nonneg_spec m Hm) as (Hne & Hds & Hv).
    unfold digits_only. rewrite digits_value_app, Hv by done.
    destruct (print_nonneg m) as [|c s]; [done|]. simpl. apply Forall_cons in Hds as [[d ->] _]. done. }
  unfold scan_number. destruct (Z.ltb_spec n 0) as [Hlt|Hge].
  - cbn [app skip_spaces]. change (isspace "-"%char) with false. cbv iota.
    rewrite decide_True by done. rewrite Hgo by lia. do 2 f_equal. lia.
  - destruct (print_nonneg_spec n Hge) as (Hne & Hds & _). pose proof (Hgo false n Hge) as Hg.
    destruct (print_nonneg n) as [|c s]; [done|]. apply Forall_cons in Hds as [Hc _].
    destruct (digit_not_special c Hc) as (Hsp & H1 & H2). cbn [app skip_spaces] in *.
    rewrite Hsp, decide_False, decide_False by done. rewrite Hg. do 2 f_equal. lia.
Qed.

Lemma not_digit_nil : not_digit [].
Proof. done. Qed.

Lemma sto_signed_to_string bits n :
  - 2 ^ (bits - 1) <= n < 2 ^ (bits - 1) → sto_signed bits (to_string n) = Done n.
Proof.
  intros Hn. unfold sto_signed. rewrite <- (app_nil_r (to_string n)).
  rewrite scan_to_string by apply not_digit_nil.
  assert (signed (n <? 0, Z.abs n) = n) as ->.
  { unfold signed. simpl. destruct (Z.ltb_spec n 0); lia. }
  by rewrite (proj2 (Z.leb_le _ _)), (proj2 (Z.ltb_lt _ _)) by lia.
Qed.

Lemma stoul_to_string n : is_u64 n → stoul (to_string n) = Done n.
Proof.
  intros Hn. unfold is_u64 in *. unfold stoul. rewrite <- (app_nil_r (to_string n)).
  rewrite scan_to_string by apply not_digit_nil. simpl.
  rewrite (proj2 (Z.ltb_lt _ _)) by lia. unfold signed. simpl.
  rewrite (proj2 (Z.ltb_ge n 0)) by lia. rewrite u64_small by lia.
  unfold mret, outcome_ret. f_equal. lia.
Qed.
