(* ===== verification/Core.v ===== *)
(** * Exceptions and logging ([include/jellybean/core/errors.hpp],
      [include/jellybean/core/logging.hpp])

    The classes of exceptions with their texts, which handler of [session] and [main]
    takes them, and when a message is logged. spdlog is not part of the program: whether
    its calls throw is a parameter. *)
From S2P Require Import Prelude.
From S2P Require Import Text.

(** ** Exceptions *)

(** The classes of errors.hpp, those of the standard library the program distinguishes,
    and whatever else is thrown. *)
Inductive class :=
| JellybeanException
| MemoryException
| NetworkException
| InferenceException
| ConfigurationException
| TimeoutException
| ServerException
| runtime_error
| bad_alloc
| std_exception
| anything.

#[export] Instance class_eq_dec : EqDecision class.
Proof. solve_decision. Defined.

(** The base class. *)
Definition base (c : class) : option class :=
  match c with
  | JellybeanException => Some runtime_error
  | MemoryException | NetworkException | InferenceException | ConfigurationException
  | TimeoutException | ServerException => Some JellybeanException
  | runtime_error | bad_alloc => Some std_exception
  | std_exception | anything => None
  end.

(** Up the hierarchy; four classes are the longest way. *)
Fixpoint derives (fuel : nat) (c d : class) : bool :=
  bool_decide (c = d) ||
  match fuel, base c with
  | S fuel, Some b => derives fuel b d
  | _, _ => false
  end.

Definition is_a (c d : class) : bool := derives 3 c d.

(** What each constructor puts in front of the message it is given. *)
Definition prefix (c : class) : text :=
  match c with
  | MemoryException => txt "Memory Error: "
  | NetworkException => txt "Network Error: "
  | InferenceException => txt "Inference Error: "
  | ConfigurationException => txt "Configuration Error: "
  | TimeoutException => txt "Timeout Error: "
  | ServerException => txt "Server Error: "
  | _ => []
  end.

(** [what()] of an exception constructed with [msg]. *)
Definition what (c : class) (msg : text) : text := prefix c ++ msg.

(** The handler that takes an exception: the first whose class it is. *)
Definition caught_by (handlers : list (class * text)) (c : class) : option text :=
  (λ x : nat * (class * text), x.2.2) <$> list_find (λ h, is_a c h.1 = true) handlers.

(** The handlers of [session] and of [main], each with the head of what it logs. *)
Definition session_handlers : list (class * text) := [
  (JellybeanException, txt "[SESSION] JellybeanException: ");
  (bad_alloc, txt "[SESSION] Memory Error (bad_alloc): ");
  (std_exception, txt "[SESSION] Exception: ")].

Definition main_handlers : list (class * text) := [
  (JellybeanException, txt "Fatal Jellybean Error: ");
  (std_exception, txt "Fatal System Error: ")].

Definition reported (handlers : list (class * text)) (c : class) (msg : text) : option text :=
  (λ head, head ++ what c msg) <$> caught_by handlers c.

(** ** Logging *)

Inductive level := debug | info | err.

#[export] Instance level_eq_dec : EqDecision level.
Proof. solve_decision. Defined.

Definition rank (l : level) : Z := match l with debug => 1 | info => 2 | err => 4 end.

(** [init]: the static of [ensure_spdlog_init] was initialised; [threshold]: spdlog's
    level, [info] at first; [logged] and [stderr]: what was written. *)
Record logger := {
  init : bool;
  threshold : level;
  logged : list (level * text);
  stderr : list text }.

Definition logger_new : logger := {| init := false; threshold := info; logged := []; stderr := [] |}.

(** The values of DEBUG that turn debug messages on. *)
Definition debug_wanted (env_debug : option text) : bool :=
  match env_debug with
  | None => false
  | Some val =>
      bool_decide (val = txt "1") || bool_decide (val = txt "true") || bool_decide (val = txt "TRUE")
  end.

(** [ensure_spdlog_init]; [throws] is the text of a [spdlog_ex] that the calls before
    [set_level] throw. *)
Definition ensure_spdlog_init (env_debug throws : option text) (s : logger) : logger :=
  if init s then s
  else match throws with
       | Some what => {| init := true; threshold := threshold s; logged := logged s;
           stderr := stderr s ++ [txt "Log initialization failed: " ++ what] |}
       | None => {| init := true; threshold := if debug_wanted env_debug then debug else info;
           logged := logged s; stderr := stderr s |}
       end.

(** [JELLY_LOG_DEBUG], [JELLY_LOG_INFO], [JELLY_LOG_ERROR]: the trigger, which does
    nothing after its first time, then spdlog, which drops what is below its level. *)
Definition jelly_log (env_debug throws : option text) (l : level) (msg : text) (s : logger) : logger :=
  let s := ensure_spdlog_init env_debug throws s in
  if rank (threshold s) <=? rank l then {| init := init s; threshold := threshold s;
    logged := logged s ++ [(l, msg)]; stderr := stderr s |}
  else s.

Definition jelly_logs (env_debug throws : option text) (msgs : list (level * text)) (s : logger) : logger :=
  foldl (λ s m, jelly_log env_debug throws m.1 m.2 s) s msgs.

(** ** Properties *)

(** What is thrown is reported by the handler meant for it: the program's own exceptions,
    with their prefix, by the first one, whichever class they are; in [session]
    [std::bad_alloc] by the second and other standard exceptions by the third, in [main]
    by the last; anything else by none. No handler is shadowed by one before it. *)
Theorem exceptions_reach_their_handlers c msg :
  (is_a c JellybeanException = true →
     reported session_handlers c msg = Some (txt "[SESSION] JellybeanException: " ++ prefix c ++ msg) ∧
     reported main_handlers c msg = Some (txt "Fatal Jellybean Error: " ++ prefix c ++ msg)) ∧
  (is_a c JellybeanException = false → is_a c std_exception = true →
     reported session_handlers c msg =
       Some ((if bool_decide (c = bad_alloc) then txt "[SESSION] Memory Error (bad_alloc): "
              else txt "[SESSION] Exception: ") ++ msg) ∧
     reported main_handlers c msg = Some (txt "Fatal System Error: " ++ msg)) ∧
  (is_a c std_exception = false ↔ reported session_handlers c msg = None) ∧
  (is_a c std_exception = false ↔ reported main_handlers c msg = None).
Proof. by destruct c. Qed.

(** spdlog is set up once, at the first message: what is logged is all messages of [info]
    and above, and those of [debug] exactly if DEBUG asks for them and the set-up did not
    throw; a set-up that throws is reported once. *)
Theorem messages_are_logged env_debug throws msgs :
  msgs ≠ [] →
  let s := jelly_logs env_debug throws msgs logger_new in
  let debugging := debug_wanted env_debug && bool_decide (throws = None) in
  logged s = base.filter (λ m, debugging = true ∨ m.1 ≠ debug) msgs ∧
  stderr s = match throws with None => [] | Some what => [txt "Log initialization failed: " ++ what] end.
Proof.
  intros Hne s debugging.
  set (start := ensure_spdlog_init env_debug throws logger_new).
  assert (∀ ms s0, init s0 = true → rank (threshold s0) = (if debugging then 1 else 2) →
    logged (jelly_logs env_debug throws ms s0) =
      logged s0 ++ base.filter (λ m, debugging = true ∨ m.1 ≠ debug) ms ∧
    stderr (jelly_logs env_debug throws ms s0) = stderr s0) as Hlogs.
  { clearbody debugging. induction ms as [|[l m] ms IH]; intros s0 Hi Hr; [by rewrite app_nil_r|].
    unfold jelly_logs in *. cbn [foldl fst snd].
    assert (jelly_log env_debug throws l m s0 =
      if decide (debugging = true ∨ l ≠ debug) then {| init := init s0; threshold := threshold s0;
        logged := logged s0 ++ [(l, m)]; stderr := stderr s0 |} else s0) as ->.
    { unfold jelly_log, ensure_spdlog_init. rewrite Hi, Hr.
      destruct debugging, l; simpl; repeat case_decide; rewrite ?Hi; done || tauto. }
    destruct (decide (debugging = true ∨ l ≠ debug)) as [Hd|Hd].
    - rewrite filter_cons_True by exact Hd.
      destruct (IH {| init := init s0; threshold := threshold s0; logged := logged s0 ++ [(l, m)];
        stderr := stderr s0 |}) as [-> ->]; [done..|]. simpl. by rewrite <- app_assoc.
    - rewrite filter_cons_False by exact Hd. by apply IH. }
  assert (s = jelly_logs env_debug throws msgs start) as ->.
  { destruct msgs as [|m msgs]; [done|]. unfold s, jelly_logs. cbn [foldl]. f_equal.
    assert (ensure_spdlog_init env_debug throws start = start) as Hid
      by (unfold start, ensure_spdlog_init; simpl; by destruct throws).
    unfold jelly_log. by rewrite Hid. }
  destruct (Hlogs msgs start) as [-> ->].
  - unfold start, ensure_spdlog_init. simpl. by destruct throws.
  - unfold start, ensure_spdlog_init, debugging. simpl.
    destruct throws; simpl; [by rewrite andb_false_r|]. by destruct (debug_wanted env_debug).
  - unfold start, ensure_spdlog_init. simpl. by destruct throws.
Qed.
