(* ===== verification/Types.v ===== *)
(** * Requests and responses ([include/jellybean/inference/types.hpp])

    Floats are carried, never computed with, by the modelled code: a [float] is its
    32-bit pattern. *)
From S2P Require Import Prelude.
From S2P Require Import Text.

Inductive DeviceKind := Cpu | Cuda.

#[export] Instance DeviceKind_eq_dec : EqDecision DeviceKind.
Proof. solve_decision. Defined.

(** The output buffer is the caller's; the request carries its length. *)
Record InferenceRequest := {
  model_id : text;
  shape : list Z;
  input : list Z;
  output_capacity : Z;
  device : DeviceKind }.

Record InferenceResponse := {
  ok : bool;
  error : text;
  resp_shape : list Z;
  output_elems_written : Z;
  latency_ns : Z;
  routing_ns : Z;
  queue_wait_ns : Z;
  execution_ns : Z;
  send_ns : Z }.

(** A default-constructed response carrying only an error. *)
Definition error_response (e : text) : InferenceResponse := {|
  ok := false; error := e; resp_shape := []; output_elems_written := 0; latency_ns := 0;
  routing_ns := 0; queue_wait_ns := 0; execution_ns := 0; send_ns := 0 |}.
