(* ===== verification/ModelConfig.v ===== *)
(** * Model configuration ([include/jellybean/model/model_config.hpp],
      [src/model/model_config.cpp])

    A model directory is a finite tree; a path is the list of its components. The
    order of [directory_iterator] is the order of the list of entries. *)
From S2P Require Import Prelude.
From S2P Require Import Text.
From S2P Require Import Types.

(** ** The file system *)

Inductive node :=
| File (content : text)
| Dir (entries : list (text * node)).

Abbreviation path := (list text).

Fixpoint assoc {A} (name : text) (es : list (text * A)) : option A :=
  match es with
  | [] => None
  | (n, a) :: es => if decide (n = name) then Some a else assoc name es
  end.

Definition child (name : text) (n : node) : option node :=
  match n with Dir es => assoc name es | File _ => None end.

Definition is_directory (n : node) : bool := match n with Dir _ => true | File _ => false end.

(** [std::filesystem::path::filename]. *)
Definition filename (p : path) : text := from_option id [] (last p).

(** ** Data *)

Inductive BackendKind := TorchScript | Onnx.

Record ModelConfig := {
  name : text;
  backend : BackendKind;
  version : Z;
  device : DeviceKind;
  max_batch_size : Z;
  max_batch_delay_us : Z;
  input_shape : list Z;
  model_file_path : path }.

Definition default_config (n : text) : ModelConfig := {|
  name := n; backend := TorchScript; version := 1; device := Cpu; max_batch_size := 4;
  max_batch_delay_us := 1000; input_shape := []; model_file_path := [] |}.

(** Assignments to one field. *)

Definition set_name (v : text) (c : ModelConfig) : ModelConfig := {|
  name := v; backend := backend c; version := version c;
  device := device c; max_batch_size := max_batch_size c;
  max_batch_delay_us := max_batch_delay_us c; input_shape := input_shape c; model_file_path := model_file_path c |}.

Definition set_backend (v : BackendKind) (c : ModelConfig) : ModelConfig := {|
  name := name c; backend := v; version := version c;
  device := device c; max_batch_size := max_batch_size c;
  max_batch_delay_us := max_batch_delay_us c; input_shape := input_shape c; model_file_path := model_file_path c |}.

Definition set_version (v : Z) (c : ModelConfig) : ModelConfig := {|
  name := name c; backend := backend c; version := v;
  device := device c; max_batch_size := max_batch_size c;
  max_batch_delay_us := max_batch_delay_us c; input_shape := input_shape c; model_file_path := model_file_path c |}.

Definition set_device (v : DeviceKind) (c : ModelConfig) : ModelConfig := {|
  name := name c; backend := backend c; version := version c;
  device := v; max_batch_size := max_batch_size c;
  max_batch_delay_us := max_batch_delay_us c; input_shape := input_shape c; model_file_path := model_file_path c |}.

Definition set_max_batch_size (v : Z) (c : ModelConfig) : ModelConfig := {|
  name := name c; backend := backend c; version := version c;
  device := device c; max_batch_size := v;
  max_batch_delay_us := max_batch_delay_us c; input_shape := input_shape c; model_file_path := model_file_path c |}.

Definition set_max_batch_delay_us (v : Z) (c : ModelConfig) : ModelConfig := {|
  name := name c; backend := backend c; version := version c;
  device := device c; max_batch_size := max_batch_size c;
  max_batch_delay_us := v; input_shape := input_shape c; model_file_path := model_file_path c |}.

Definition set_input_shape (v : list Z) (c : ModelConfig) : ModelConfig := {|
  name := name c; backend := backend c; version := version c;
  device := device c; max_batch_size := max_batch_size c;
  max_batch_delay_us := max_batch_delay_us c; input_shape := v; model_file_path := model_file_path c |}.

Definition set_model_file_path (v : path) (c : ModelConfig) : ModelConfig := {|
  name := name c; backend := backend c; version := version c;
  device := device c; max_batch_size := max_batch_size c;
  max_batch_delay_us := max_batch_delay_us c; input_shape := input_shape c; model_file_path := v |}.

Definition with_file (c : ModelConfig) (v : Z) (p : path) : ModelConfig :=
  set_model_file_path p (set_version v c).

(** ** Parsing *)

Fixpoint parse_items (items : list text) : outcome (list Z) :=
  match items with
  | [] => mret []
  | item :: items =>
      let item := trim item in
      match item with
      | [] => parse_items items
      | _ => n ← stoll item; ns ← parse_items items; mret (n :: ns)
      end
  end.

Definition parse_shape (val : text) : outcome (list Z) := parse_items (getlines ","%char val).

Definition parse_backend (val : text) : BackendKind :=
  if decide (val = txt "torchscript") then TorchScript
  else if decide (val = txt "torch") then TorchScript
  else if decide (val = txt "onnx") then Onnx else TorchScript.

(** The [if]/[else if] chain of [from_dir]. *)
Definition apply_key (c : ModelConfig) (key val : text) : outcome ModelConfig :=
  if decide (key = txt "name") then mret (set_name val c)
  else if decide (key = txt "backend") then mret (set_backend (parse_backend val) c)
  else if decide (key = txt "version") then v ← stoi val; mret (set_version v c)
  else if decide (key = txt "device") then
    mret (set_device (if decide (val = txt "cuda") then Cuda else Cpu) c)
  else if decide (key = txt "max_batch_size") then
    n ← stoul val; mret (set_max_batch_size n c)
  else if decide (key = txt "max_batch_delay_us") then
    n ← stoll val; mret (set_max_batch_delay_us n c)
  else if decide (key = txt "input_shape") then
    s ← parse_shape val; mret (set_input_shape s c)
  else mret c.

Definition apply_line (c : ModelConfig) (line : text) : outcome ModelConfig :=
  let line := trim line in
  match line with
  | [] => mret c
  | ch :: _ =>
      if decide (ch = "#"%char) then mret c else
      match find "="%char line with
      | None => mret c
      | Some pos => apply_key c (trim (take pos line)) (trim (drop (pos + 1) line))
      end
  end.

Fixpoint apply_lines (c : ModelConfig) (lines : list text) : outcome ModelConfig :=
  match lines with
  | [] => mret c
  | l :: lines => c ← apply_line c l; apply_lines c lines
  end.

(** ** Locating the model file *)

Definition candidates : list text :=
  [txt "model.pt"; txt "model.pth"; txt "model.onnx"; txt "model.engine"; txt "model.bin"].

Fixpoint first_existing (names : list text) (p : path) (d : node) : path :=
  match names with
  | [] => []
  | n :: names => match child n d with Some _ => p ++ [n] | None => first_existing names p d end
  end.

Definition find_model_file (p : path) (d : node) : path := first_existing candidates p d.

(** One entry of the fallback scan; [best] is [best_ver]. *)
Definition scan_entry (p : path) (acc : Z * ModelConfig) (e : text * node) : Z * ModelConfig :=
  let '(best, c) := acc in
  if is_directory e.2 then
    match stoi e.1 with
    | Done v =>
        if best <? v then
          match find_model_file (p ++ [e.1]) e.2 with
          | [] => (best, c)
          | file => (v, with_file c v file)
          end
        else (best, c)
    | Fault _ => (best, c)
    end
  else (best, c).

Definition scan_versions (p : path) (c : ModelConfig) (es : list (text * node)) : ModelConfig :=
  (foldl (scan_entry p) (-1, c) es).2.

Definition LF : ascii := chr 10.

Definition parse_config (p : path) (dir : option node) : outcome ModelConfig :=
  match dir ≫= child (txt "config.ini") with
  | Some (File content) => apply_lines (default_config (filename p)) (getlines LF content)
  | _ => mret (default_config (filename p))
  end.

(** [dir] is what the path [p] names, if anything. *)
Definition from_dir (p : path) (dir : option node) : outcome ModelConfig :=
  c ← parse_config p dir;
  let v := to_string (version c) in
  let c := match dir ≫= child v with
           | Some (Dir es) => with_file c (version c) (find_model_file (p ++ [v]) (Dir es))
           | _ => c
           end in
  match model_file_path c with
  | [] =>
      match dir with
      | Some (Dir es) => mret (scan_versions p c es)
      | _ => Fault (Thrown filesystem_error)
      end
  | _ => mret c
  end.

(** ** Specification: configuration files in the documented format *)

Definition backend_name (b : BackendKind) : text :=
  match b with TorchScript => txt "torchscript" | Onnx => txt "onnx" end.

Definition device_name (d : DeviceKind) : text :=
  match d with Cpu => txt "cpu" | Cuda => txt "cuda" end.

Definition print_shape (s : list Z) : text :=
  match s with
  | [] => []
  | n :: s => to_string n ++ concat ((λ m, ","%char :: to_string m) <$> s)
  end.

Definition entry (key val : text) : text := key ++ "="%char :: val.

Definition print_lines (c : ModelConfig) : list text :=
  [ entry (txt "name") (name c);
    entry (txt "backend") (backend_name (backend c));
    entry (txt "version") (to_string (version c));
    entry (txt "device") (device_name (device c));
    entry (txt "max_batch_size") (to_string (max_batch_size c));
    entry (txt "max_batch_delay_us") (to_string (max_batch_delay_us c));
    entry (txt "input_shape") (print_shape (input_shape c)) ].

Definition print_config (c : ModelConfig) : text := concat ((λ l, l ++ [LF]) <$> print_lines c).

(** What the file format can express. *)
Record config_ok (c : ModelConfig) : Prop := {
  ok_name : trimmed whitespace (name c) ∧ LF ∉ name c;
  ok_version : - 2 ^ 31 <= version c < 2 ^ 31;
  ok_batch : is_u64 (max_batch_size c);
  ok_delay : - 2 ^ 63 <= max_batch_delay_us c < 2 ^ 63;
  ok_shape : Forall (λ n, - 2 ^ 63 <= n < 2 ^ 63) (input_shape c) }.

(** ** Lemmas *)

Lemma getlines_app sep l r : sep ∉ l → getlines sep (l ++ sep :: r) = l :: getlines sep r.
Proof.
  induction l as [|c l IH]; simpl; intros Hs.
  - by rewrite decide_True.
  - apply not_elem_of_cons in Hs as [Hc Hl]. rewrite decide_False by congruence. by rewrite IH.
Qed.

Lemma getlines_last sep l : sep ∉ l → l ≠ [] → getlines sep l = [l].
Proof.
  induction l as [|c l IH]; simpl; intros Hs Hn; [done|].
  apply not_elem_of_cons in Hs as [Hc Hl]. rewrite decide_False by congruence.
  destruct l as [|d l]; [done|]. by rewrite IH.
Qed.

Lemma getlines_concat sep ls :
  Forall (λ l, sep ∉ l) ls → getlines sep (concat ((λ l, l ++ [sep]) <$> ls)) = ls.
Proof.
  induction 1 as [|l ls Hl Hls IH]; [done|]. rewrite fmap_cons. simpl concat.
  rewrite <- app_assoc. simpl app. by rewrite getlines_app, IH.
Qed.

(** Characters that make up printed numbers. *)
Definition number_char (c : ascii) : Prop := is_Some (digit_value c) ∨ (c = "-"%char).

Lemma to_string_chars n : Forall number_char (to_string n) ∧ to_string n ≠ [].
Proof.
  assert (H : ∀ m, 0 <= m → Forall number_char (print_nonneg m) ∧ print_nonneg m ≠ []).
  { intros m Hm. destruct (print_nonneg_spec m Hm) as (? & Hds & _). split; [|done].
    apply (Forall_impl _ _ _ Hds). by left. }
  unfold to_string. destruct (Z.ltb_spec n 0); [|by apply H].
  split; [|done]. constructor; [by right|]. apply H. lia.
Qed.

Lemma number_char_plain c :
  number_char c → (c ∉ whitespace) ∧ (c ≠ ","%char) ∧ c ≠ LF.
Proof.
  assert (H : ∀ d, digit_value d = None → number_char c → d ≠ "-"%char → c ≠ d).
  { intros d Hd Hc Hn Heq. subst d. destruct Hc as [[x Hx]|Hc]; congruence. }
  intros Hc. split_and!; [|by apply H|by apply H].
  unfold whitespace. rewrite !not_elem_of_cons.
  split_and!; [by apply H|by apply H|by apply H|by apply H|apply not_elem_of_nil].
Qed.

Lemma trimmed_plain s : Forall (λ c, c ∉ whitespace) s → trimmed whitespace s.
Proof.
  intros Hs. split; [intros c s' ->; by apply Forall_cons in Hs as [? _]|].
  intros c s' ->. apply Forall_app in Hs as [_ Hs]. by apply Forall_cons in Hs as [? _].
Qed.

Lemma to_string_plain n :
  trimmed whitespace (to_string n) ∧ (","%char ∉ to_string n) ∧ LF ∉ to_string n.
Proof.
  destruct (to_string_chars n) as [Hc _]. rewrite Forall_forall in Hc. split_and!.
  - apply trimmed_plain, Forall_forall. intros c Hin. by apply number_char_plain, Hc.
  - intros Hin. by destruct (number_char_plain _ (Hc _ Hin)) as (_ & ? & _).
  - intros Hin. by destruct (number_char_plain _ (Hc _ Hin)) as (_ & _ & ?).
Qed.

Lemma trim_id s : trimmed whitespace s → trim s = s.
Proof. intros. rewrite trim_strip. by apply strip_trimmed. Qed.

Lemma getlines_shape s : getlines ","%char (print_shape s) = to_string <$> s.
Proof.
  destruct s as [|n s]; [done|]. simpl. revert n.
  induction s as [|m s IH]; intros n; simpl.
  - rewrite app_nil_r. apply getlines_last; [apply to_string_plain|apply to_string_chars].
  - rewrite getlines_app by apply to_string_plain. by rewrite IH.
Qed.

Lemma parse_print_shape s :
  Forall (λ n, - 2 ^ 63 <= n < 2 ^ 63) s → parse_shape (print_shape s) = Done s.
Proof.
  intros Hs. unfold parse_shape. rewrite getlines_shape.
  induction Hs as [|n s Hn Hs IH]; [done|]. rewrite fmap_cons. cbn [parse_items].
  rewrite trim_id by apply to_string_plain. destruct (to_string_chars n) as [_ Hne].
  destruct (to_string n) as [|c l] eqn:E; [done|]. rewrite <- E. unfold stoll.
  rewrite sto_signed_to_string by lia. simpl. by rewrite IH.
Qed.

Lemma find_app c a b : c ∉ a → find c (a ++ c :: b) = Some (length a).
Proof.
  induction a as [|d a IH]; simpl; intros Hc; [by rewrite decide_True|].
  apply not_elem_of_cons in Hc as [Hd Ha]. rewrite decide_False by congruence. by rewrite IH.
Qed.

(** Keys of the source: no blank, no equals sign, no comment mark. *)
Definition key_ok (key : text) : bool :=
  bool_decide (key ≠ []) &&
  bool_decide (Forall (λ c, (c ∉ whitespace) ∧ (c ≠ "="%char) ∧ (c ≠ "#"%char)) key).

Lemma apply_line_entry c key val :
  key_ok key = true → trimmed whitespace val → apply_line c (entry key val) = apply_key c key val.
Proof.
  intros [Hne%bool_decide_eq_true Hk%bool_decide_eq_true]%andb_true_iff Hv.
  assert (Hkt : trimmed whitespace key).
  { apply trimmed_plain. apply (Forall_impl _ _ _ Hk). by intros ? [? _]. }
  assert (Htrim : trim (entry key val) = entry key val).
  { apply trim_id. unfold entry. split.
    - intros d s' Hd. destruct key as [|k key]; [done|]. injection Hd as <- _.
      by apply Forall_cons in Hk as [[? _] _].
    - intros d s' Hd. destruct Hv as [_ Hv]. destruct (exists_last (l := "="%char :: val)) as (w & e & Hw); [done|].
      rewrite Hw, app_assoc in Hd. apply app_inj_tail in Hd as [_ <-].
      destruct val as [|v0 val'].
      + destruct w as [|? [|? ?]]; try done. injection Hw as <-.
        by apply (bool_decide_eq_false_1 ("="%char ∈ whitespace)).
      + destruct w as [|w0 w]; [done|]. injection Hw as <- Hw. by eapply Hv. }
  unfold apply_line. rewrite Htrim. unfold entry.
  destruct key as [|k key]; [done|]. apply Forall_cons in Hk as Hk'. destruct Hk' as [(_ & _ & ?) _].
  cbn [app]. rewrite decide_False by done. rewrite app_comm_cons, find_app.
  - change ("="%char :: val) with (["="%char] ++ val). rewrite take_app_exact by done.
    rewrite app_assoc, drop_app_exact by (rewrite length_app; done).
    by rewrite !trim_id.
  - intros Hin. rewrite Forall_forall in Hk. by destruct (Hk _ Hin) as (_ & ? & _).
Qed.

Lemma trimmed_backend b : trimmed whitespace (backend_name b) ∧ LF ∉ backend_name b.
Proof.
  split; [apply trimmed_plain|]; destruct b;
    first [by apply (bool_decide_eq_true_1 (Forall _ _))|by apply (bool_decide_eq_false_1 (LF ∈ _))].
Qed.

Lemma trimmed_device d : trimmed whitespace (device_name d) ∧ LF ∉ device_name d.
Proof.
  split; [apply trimmed_plain|]; destruct d;
    first [by apply (bool_decide_eq_true_1 (Forall _ _))|by apply (bool_decide_eq_false_1 (LF ∈ _))].
Qed.

Lemma print_shape_plain s : trimmed whitespace (print_shape s) ∧ LF ∉ print_shape s.
Proof.
  assert (H : Forall (λ c, number_char c ∨ (c = ","%char)) (print_shape s)).
  { destruct s as [|n s]; [constructor|]. simpl. apply Forall_app. split.
    - apply (Forall_impl _ _ _ (proj1 (to_string_chars n))). by left.
    - induction s as [|m s IH]; [constructor|]. rewrite fmap_cons. cbn [concat app].
      constructor; [by right|]. apply Forall_app. split; [|done].
      apply (Forall_impl _ _ _ (proj1 (to_string_chars m))). by left. }
  rewrite Forall_forall in H. split.
  - apply trimmed_plain, Forall_forall. intros c Hc. destruct (H c Hc) as [?| ->].
    + by apply number_char_plain.
    + by apply (bool_decide_eq_false_1 (","%char ∈ whitespace)).
  - intros Hc. destruct (H LF Hc) as [Hn|?]; [|done]. by destruct (number_char_plain _ Hn) as (_ & _ & ?).
Qed.

Lemma parse_backend_name b : parse_backend (backend_name b) = b.
Proof. by destruct b. Qed.

(** One printed line, parsed. *)
Ltac parse_entry :=
  cbn [apply_lines]; rewrite apply_line_entry by done; unfold apply_key;
  repeat (rewrite decide_False by done); rewrite decide_True by done; cbn [mbind outcome_bind mret outcome_ret].

Lemma parse_print_lines c d :
  config_ok c → model_file_path c = model_file_path d →
  apply_lines d (print_lines c) = Done c.
Proof.
  intros [[Hn _] Hv Hb Hd Hs] Hp. unfold print_lines.
  pose proof (to_string_plain (version c)) as (Tv & _).
  pose proof (to_string_plain (max_batch_size c)) as (Tb & _).
  pose proof (to_string_plain (max_batch_delay_us c)) as (Td & _).
  pose proof (trimmed_backend (backend c)) as [Tk _].
  pose proof (trimmed_device (device c)) as [Te _].
  pose proof (print_shape_plain (input_shape c)) as [Ts _].
  parse_entry. parse_entry. parse_entry. unfold stoi. rewrite sto_signed_to_string by lia.
  cbn [mbind outcome_bind mret outcome_ret]. parse_entry. parse_entry. rewrite stoul_to_string by done.
  cbn [mbind outcome_bind mret outcome_ret]. parse_entry. unfold stoll. rewrite sto_signed_to_string by lia.
  cbn [mbind outcome_bind mret outcome_ret]. parse_entry. rewrite parse_print_shape by done.
  rewrite parse_backend_name. destruct c as [? ? ? []]; cbn in *; by rewrite Hp.
Qed.

Lemma print_lines_plain c : config_ok c → Forall (λ l, LF ∉ l) (print_lines c).
Proof.
  intros [[_ Hn] _ _ _ _].
  assert (H : ∀ key val, bool_decide (LF ∈ key) = false → LF ∉ val → LF ∉ entry key val).
  { intros key val Hk%bool_decide_eq_false Hv. unfold entry.
    rewrite elem_of_app, elem_of_cons. by intros [?|[?|?]]. }
  repeat constructor; apply H; try done;
    first [apply trimmed_backend|apply trimmed_device|apply print_shape_plain|apply to_string_plain].
Qed.

Lemma parse_print_config c n :
  config_ok c → model_file_path c = [] →
  apply_lines (default_config n) (getlines LF (print_config c)) = Done c.
Proof.
  intros Hc Hp. unfold print_config. rewrite getlines_concat by by apply print_lines_plain.
  by apply parse_print_lines.
Qed.

(** ** Version resolution *)

Lemma stoi_to_string n : - 2 ^ 31 <= n < 2 ^ 31 → stoi (to_string n) = Done n.
Proof. intros. by apply sto_signed_to_string. Qed.

(** A version directory the fallback scan can use: its version and model file. *)
Definition usable_version (p : path) (e : text * node) (v : Z) (file : path) : Prop :=
  is_directory e.2 = true ∧ stoi e.1 = Done v ∧ 0 <= v ∧
  find_model_file (p ++ [e.1]) e.2 = file ∧ file ≠ [].

Lemma scan_entry_cases p best c e :
  -1 <= best →
  (∃ v file, usable_version p e v file ∧ best < v ∧
     scan_entry p (best, c) e = (v, with_file c v file)) ∨
  (scan_entry p (best, c) e = (best, c) ∧ ∀ v file, usable_version p e v file → v <= best).
Proof.
  intros Hb. unfold scan_entry, usable_version.
  destruct (is_directory e.2) eqn:Ed; [|right; split; [done|by intros v file (? & _)]].
  destruct (stoi e.1) as [v|f] eqn:Ev; [|right; split; [done|by intros v file (_ & ? & _)]].
  destruct (Z.ltb_spec best v) as [Hlt|Hge].
  - destruct (find_model_file (p ++ [e.1]) e.2) as [|x l] eqn:Ef.
    + right. split; [done|]. by intros v' file (_ & _ & _ & <- & ?).
    + left. exists v, (x :: l). split_and!; try done. lia.
  - right. split; [done|]. intros v' file (_ & [= <-] & _). lia.
Qed.

(** The scan keeps the best usable version seen so far; the first one wins ties. *)
Lemma scan_fold p es best c :
  -1 <= best →
  let r := foldl (scan_entry p) (best, c) es in
  best <= r.1 ∧
  (∀ e v file, e ∈ es → usable_version p e v file → v <= r.1) ∧
  (r = (best, c) ∨ ∃ e v file, e ∈ es ∧ usable_version p e v file ∧ best < v ∧
     r = (v, with_file c v file)).
Proof.
  revert best c. induction es as [|e es IH]; intros best c Hb; cbn [foldl].
  { split_and!; [done|by intros ? ? ? ?%elem_of_nil|by left]. }
  destruct (scan_entry_cases p best c e Hb) as [(v & file & Hu & Hlt & ->)|[-> Hno]].
  - destruct (IH v (with_file c v file)) as (H1 & H2 & H3); [lia|]. split_and!; [lia| |].
    + intros e' v' f' [->|He]%elem_of_cons Hu'; [|by eapply H2].
      destruct Hu as (_ & E1 & _), Hu' as (_ & E2 & _). rewrite E1 in E2. injection E2 as <-. lia.
    + right. destruct H3 as [->|(e' & v' & f' & He & Hu' & ? & ->)]; [exists e, v, file|exists e', v', f'];
        split_and!; try done; try lia; [by left|by right].
  - destruct (IH best c Hb) as (H1 & H2 & H3). split_and!; [lia| |].
    + intros e' v' f' [->|He]%elem_of_cons Hu'; [|by eapply H2]. specialize (Hno _ _ Hu'). lia.
    + destruct H3 as [->|(e' & v' & f' & He & Hu' & ? & ->)]; [by left|right].
      exists e', v', f'. split_and!; try done. by right.
Qed.

Lemma apply_lines_file c ls c' :
  apply_lines c ls = Done c' → model_file_path c' = model_file_path c.
Proof.
  revert c. induction ls as [|l ls IH]; intros c; simpl; [by intros [= <-]|].
  intros (c1 & H1 & H2)%bind_done. rewrite (IH c1 H2). clear -H1.
  unfold apply_line in H1. destruct (trim l) as [|ch rest]; [by injection H1 as <-|].
  case_decide; [by injection H1 as <-|]. destruct (find _ _); [|by injection H1 as <-].
  unfold apply_key in H1.
  repeat case_decide; try (apply bind_done in H1 as (x & _ & H1)); by injection H1 as <-.
Qed.

Lemma parse_config_file p dir c : parse_config p dir = Done c → model_file_path c = [].
Proof.
  unfold parse_config. destruct (dir ≫= _) as [[content|]|]; try by intros [= <-].
  intros H. by apply apply_lines_file in H.
Qed.

(** The model file of the configured version, if it is there. *)
Definition configured_file (p : path) (es : list (text * node)) (c : ModelConfig) : path :=
  match assoc (to_string (version c)) es with
  | Some (Dir d) => find_model_file (p ++ [to_string (version c)]) (Dir d)
  | _ => []
  end.

Lemma from_dir_cases p es c0 :
  parse_config p (Some (Dir es)) = Done c0 →
  from_dir p (Some (Dir es)) =
    match configured_file p es c0 with
    | [] => Done (scan_versions p c0 es)
    | file => Done (with_file c0 (version c0) file)
    end.
Proof.
  intros Hp. pose proof (parse_config_file _ _ _ Hp) as Hf. unfold from_dir, configured_file.
  rewrite Hp. cbn [mbind outcome_bind option_bind child].
  destruct (assoc (to_string (version c0)) es) as [[content|d]|]; [by rewrite Hf| |by rewrite Hf].
  destruct (find_model_file (p ++ [to_string (version c0)]) (Dir d)) eqn:E; [|done].
  cbn. do 2 f_equal. destruct c0. simpl in *. by subst.
Qed.

(** ** Properties *)

(** C12. Round trip: a configuration printed in the documented [key=value] format
    and put into a model directory, next to a directory of its version that holds a
    model file, is read back field by field, with the path of the first model file
    in the order of preference. *)
Theorem config_roundtrip c p es d file :
  config_ok c → model_file_path c = [] →
  assoc (txt "config.ini") es = Some (File (print_config c)) →
  assoc (to_string (version c)) es = Some (Dir d) →
  find_model_file (p ++ [to_string (version c)]) (Dir d) = file → file ≠ [] →
  from_dir p (Some (Dir es)) = Done (with_file c (version c) file).
Proof.
  intros Hc Hp Hini Hver Hfile Hne.
  assert (Hparse : parse_config p (Some (Dir es)) = Done c).
  { unfold parse_config. cbn [mbind option_bind child]. rewrite Hini. by apply parse_print_config. }
  rewrite (from_dir_cases _ _ _ Hparse). unfold configured_file. rewrite Hver, Hfile.
  by destruct file.
Qed.

Definition bert : ModelConfig := {|
  name := txt "bert"; backend := TorchScript; version := 3; device := Cuda; max_batch_size := 8;
  max_batch_delay_us := 2000; input_shape := [1; 128; -1]; model_file_path := [] |}.

Definition bert_dir : list (text * node) :=
  [(txt "3", Dir [(txt "model.onnx", File []); (txt "model.pt", File [])]);
   (txt "config.ini", File (print_config bert))].

Lemma config_roundtrip_witness :
  from_dir [txt "models"; txt "b"] (Some (Dir bert_dir)) =
    Done (with_file bert 3 [txt "models"; txt "b"; txt "3"; txt "model.pt"]).
Proof.
  apply (config_roundtrip bert [txt "models"; txt "b"] bert_dir
    [(txt "model.onnx", File []); (txt "model.pt", File [])]); try done.
  split; try done; [|by repeat constructor].
  split; [apply trimmed_plain|]; [by apply (bool_decide_eq_true_1 (Forall _ _))|].
  by apply (bool_decide_eq_false_1 (LF ∈ _)).
Defined.

(** Version resolution: if the configured version has a model file, it is
    used. Otherwise the highest non-negative version that has one is used and
    recorded, whatever the order in which the directory is read; if there is none,
    the model file stays empty. Nothing but version and file is changed. *)
Theorem version_resolution p es c0 :
  parse_config p (Some (Dir es)) = Done c0 →
  (configured_file p es c0 ≠ [] ∧
     from_dir p (Some (Dir es)) = Done (with_file c0 (version c0) (configured_file p es c0))) ∨
  (configured_file p es c0 = [] ∧ ∃ e v file, e ∈ es ∧ usable_version p e v file ∧
     (∀ e' v' file', e' ∈ es → usable_version p e' v' file' → v' <= v) ∧
     from_dir p (Some (Dir es)) = Done (with_file c0 v file)) ∨
  (configured_file p es c0 = [] ∧ (∀ e v file, e ∈ es → ¬ usable_version p e v file) ∧
     from_dir p (Some (Dir es)) = Done c0 ∧ model_file_path c0 = []).
Proof.
  intros Hp. rewrite (from_dir_cases _ _ _ Hp).
  destruct (configured_file p es c0) as [|x l]; [right|by left].
  unfold scan_versions. destruct (scan_fold p es (-1) c0) as (_ & Hmax & Hr); [done|].
  destruct Hr as [Hr|(e & v & file & He & Hu & _ & Hr)]; rewrite Hr in Hmax |- *; simpl in *.
  - right. split_and!; [done| |done|by eapply parse_config_file].
    intros e v file He Hu. specialize (Hmax e v file He Hu). destruct Hu as (_ & _ & ? & _). lia.
  - left. split; [done|]. exists e, v, file. by split_and!.
Qed.

(** Three version directories, the configured one (1) missing. *)
Definition fallback_dir : list (text * node) :=
  [(txt "2", Dir [(txt "model.pt", File [])]); (txt "notes", Dir []);
   (txt "10", Dir [(txt "model.bin", File [])]); (txt "30", Dir [])].

Lemma version_resolution_witness :
  from_dir [txt "m"] (Some (Dir fallback_dir)) =
    Done (with_file (default_config (txt "m")) 10 [txt "m"; txt "10"; txt "model.bin"]).
Proof.
  destruct (version_resolution [txt "m"] fallback_dir (default_config (txt "m")) eq_refl)
    as [[? _]|[(_ & e & v & file & He & Hu & Hmax & ->)|(_ & _ & H & _)]]; [done| |by vm_compute in H].
  apply list_elem_of_In in He. simpl in He.
  assert (Hten : usable_version [txt "m"] (txt "10", Dir [(txt "model.bin", File [])]) 10
    [txt "m"; txt "10"; txt "model.bin"]) by by split_and!.
  assert (10 <= v) by (eapply Hmax; [|exact Hten]; by right; right; left).
  destruct He as [<-|[<-|[<-|[<-|[]]]]]; destruct Hu as (_ & Hv & _ & Hf & Hne);
    vm_compute in Hv; try done; injection Hv as <-; vm_compute in Hf; subst file;
    first [lia|done].
Defined.
