(* ===== verification/ModelRepository.v ===== *)
(** * Model registry and repository ([src/model/model_registry.cpp],
      [src/model/model_repository.cpp], [include/jellybean/model/model_metadata.hpp])

    Metadata objects live in a store and are known by their address: the registry
    owns them, the executors keep raw pointers to them. Backends are a parameter:
    their factory and their [load]. *)
From S2P Require Import Prelude.
From S2P Require Import Text.
From S2P Require Import Types.
From S2P Require Import ModelConfig.

Inductive ModelState := Unloaded | Loading | Ready | Failed | Unloading.

#[export] Instance ModelState_eq_dec : EqDecision ModelState.
Proof. solve_decision. Defined.

Definition model_state_str (s : ModelState) : text :=
  match s with
  | Unloaded => txt "UNLOADED"
  | Loading => txt "LOADING"
  | Ready => txt "READY"
  | Failed => txt "FAILED"
  | Unloading => txt "UNLOADING"
  end.

Section repository.
Context {B : Type} (make_torch_backend : option B) (backend_load : B → text → path → DeviceKind → bool).

(** ** Data *)

Record ModelMetadata := {
  config : ModelConfig;
  state : ModelState;
  backend : option B }.

Definition is_ready (m : ModelMetadata) : bool := bool_decide (state m = Ready).

(** The live metadata objects and the registry's map. *)
Record ModelRegistry := {
  objects : gmap Z ModelMetadata;
  models_ : gmap text Z }.

Definition registry_new : ModelRegistry := {| objects := ∅; models_ := ∅ |}.

(** ** Registry *)

(** [std::make_unique]: an address not in use. *)
Definition make_metadata (r : ModelRegistry) (m : ModelMetadata) : Z * ModelRegistry :=
  let p := fresh (dom (objects r)) in
  (p, {| objects := <[p := m]> (objects r); models_ := models_ r |}).

(** The end of the owning [unique_ptr]. *)
Definition destroy (r : ModelRegistry) (p : Z) : ModelRegistry :=
  {| objects := delete p (objects r); models_ := models_ r |}.

Definition set_state (r : ModelRegistry) (p : Z) (s : ModelState) : ModelRegistry :=
  {| objects := alter (λ m, {| config := config m; state := s; backend := backend m |}) p (objects r);
     models_ := models_ r |}.

Definition set_backend (r : ModelRegistry) (p : Z) (b : B) : ModelRegistry :=
  {| objects := alter (λ m, {| config := config m; state := state m; backend := Some b |}) p (objects r);
     models_ := models_ r |}.

(** [meta] is the owning pointer handed over; [emplace] on a key that exists
    destroys the element it was given. *)
Definition register_model (r : ModelRegistry) (meta : option Z) : ModelRegistry * bool :=
  match meta ≫= λ p, (λ m, (p, m)) <$> objects r !! p with
  | None => (r, false)
  | Some (p, m) =>
      let id := name (config m) in
      match models_ r !! id with
      | Some _ => (destroy r p, false)
      | None => ({| objects := objects r; models_ := <[id := p]> (models_ r) |}, true)
      end
  end.

Definition lookup (r : ModelRegistry) (id : text) : option Z := models_ r !! id.

Definition lookup_ready (r : ModelRegistry) (id : text) : option Z :=
  p ← lookup r id; m ← objects r !! p; if is_ready m then Some p else None.

(** The caller gets the owning pointer. *)
Definition unregister (r : ModelRegistry) (id : text) : ModelRegistry * option Z :=
  match models_ r !! id with
  | None => (r, None)
  | Some p => ({| objects := objects r; models_ := delete id (models_ r) |}, Some p)
  end.

Definition list_models (r : ModelRegistry) : list (text * ModelState * Z) :=
  omap (λ e, (λ m, (e.1, state m, version (config m))) <$> objects r !! e.2)
    (map_to_list (models_ r)).

Definition registry_size (r : ModelRegistry) : nat := base.size (models_ r).

(** ** Loading one model *)

Definition make_backend (k : BackendKind) : option B :=
  match k with TorchScript => make_torch_backend | Onnx => None end.

Definition load_model (p : path) (dir : option node) (r : ModelRegistry) :
    outcome (bool * ModelRegistry) :=
  cfg ← from_dir p dir;
  if decide (name cfg = []) then mret (false, r) else
  let '(meta, r) := make_metadata r {| config := cfg; state := Loading; backend := None |} in
  let r := match lookup r (name cfg) with
           | Some _ =>
               let '(r, old) := unregister r (name cfg) in
               match old with Some q => destroy r q | None => r end
           | None => r
           end in
  let '(r, inserted) := register_model r (Some meta) in
  if negb inserted then mret (false, r) else
  match make_backend (ModelConfig.backend cfg) with
  | None => mret (false, set_state r meta Failed)
  | Some b =>
      if backend_load b (name cfg) (model_file_path cfg) (ModelConfig.device cfg)
      then mret (true, set_state (set_backend r meta b) meta Ready)
      else mret (false, set_state r meta Failed)
  end.

(** ** Scanning a repository *)

Record LoadResult := {
  loaded : Z;
  failed : Z;
  skipped : Z;
  failed_names : list text }.

Definition no_result : LoadResult := {| loaded := 0; failed := 0; skipped := 0; failed_names := [] |}.

Definition skip_one (res : LoadResult) : LoadResult :=
  {| loaded := loaded res; failed := failed res; skipped := skipped res + 1;
     failed_names := failed_names res |}.

Definition is_number (s : text) : bool := match stoi s with Done _ => true | Fault _ => false end.

(** [has_config || has_version]. *)
Definition looks_like_model (d : node) : bool :=
  match child (txt "config.ini") d with
  | Some _ => true
  | None =>
      match d with
      | Dir es => existsb (λ e, is_directory e.2 && is_number e.1) es
      | File _ => false
      end
  end.

Definition is_hidden (n : text) : bool :=
  match n with c :: _ => bool_decide (c = "."%char) | [] => false end.

Definition scan_one (root : path) (res : LoadResult) (r : ModelRegistry) (e : text * node) :
    outcome (LoadResult * ModelRegistry) :=
  if negb (is_directory e.2) then mret (res, r)
  else if is_hidden e.1 then mret (skip_one res, r)
  else if negb (looks_like_model e.2) then mret (skip_one res, r)
  else
    match load_model (root ++ [e.1]) (Some e.2) r with
    | Fault f => Fault f
    | Done (true, r) =>
        mret ({| loaded := loaded res + 1; failed := failed res; skipped := skipped res;
                 failed_names := failed_names res |}, r)
    | Done (false, r) =>
        mret ({| loaded := loaded res; failed := failed res + 1; skipped := skipped res;
                 failed_names := failed_names res ++ [e.1] |}, r)
    end.

Fixpoint scan_entries (root : path) (res : LoadResult) (r : ModelRegistry)
    (es : list (text * node)) : outcome (LoadResult * ModelRegistry) :=
  match es with
  | [] => mret (res, r)
  | e :: es => ' (res, r) ← scan_one root res r e; scan_entries root res r es
  end.

Definition scan_and_load (root : path) (dir : option node) (r : ModelRegistry) :
    outcome (LoadResult * ModelRegistry) :=
  match dir with
  | Some (Dir es) => scan_entries root no_result r es
  | _ => mret (no_result, r)
  end.

(** ** Invariant *)

(** Every id maps to a live object that carries it; the registry owns exactly the
    live objects, each once. *)
Record registry_ok (r : ModelRegistry) : Prop := {
  ok_target : ∀ id p, models_ r !! id = Some p →
    ∃ m, objects r !! p = Some m ∧ name (config m) = id;
  ok_owned : ∀ p m, objects r !! p = Some m → models_ r !! name (config m) = Some p }.

(** What a client sees under an id. *)
Definition model_at (r : ModelRegistry) (id : text) : option ModelMetadata :=
  models_ r !! id ≫= λ p, objects r !! p.

(** ** Lemmas *)

Lemma registry_new_ok : registry_ok registry_new.
Proof. split; simpl; [by intros id p ?%lookup_empty_Some|by intros p m ?%lookup_empty_Some]. Qed.

(** The object [load_model] leaves under the id, and whether it succeeded. *)
Definition load_outcome (cfg : ModelConfig) : bool * ModelMetadata :=
  match make_backend (ModelConfig.backend cfg) with
  | None => (false, {| config := cfg; state := Failed; backend := None |})
  | Some b =>
      if backend_load b (name cfg) (model_file_path cfg) (ModelConfig.device cfg)
      then (true, {| config := cfg; state := Ready; backend := Some b |})
      else (false, {| config := cfg; state := Failed; backend := None |})
  end.

(** Replacing the object of an id by a new one at a fresh address. *)
Definition replaced (r : ModelRegistry) (q : Z) (m : ModelMetadata) : ModelRegistry :=
  let id := name (config m) in
  {| objects := <[q := m]> (match models_ r !! id with
                            | Some p => delete p (objects r) | None => objects r end);
     models_ := <[id := q]> (models_ r) |}.

Lemma load_model_spec p dir r cfg :
  registry_ok r → from_dir p dir = Done cfg → name cfg ≠ [] →
  ∃ q, objects r !! q = None ∧
    load_model p dir r =
      Done ((load_outcome cfg).1, replaced r q (load_outcome cfg).2).
Proof.
  intros [Ht Ho] Hcfg Hne. exists (fresh (dom (objects r))).
  set (q := fresh (dom (objects r))).
  assert (Hq : objects r !! q = None) by apply not_elem_of_dom, is_fresh.
  split; [done|]. unfold load_model. rewrite Hcfg. cbn [mbind outcome_bind].
  rewrite decide_False by done. unfold make_metadata. fold q. cbv zeta. unfold lookup. simpl.
  set (m0 := {| config := cfg; state := Loading; backend := None |}).
  set (base := match models_ r !! name cfg with
               | Some p => delete p (objects r) | None => objects r end).
  assert (Hreg : (match models_ r !! name cfg with
      | Some _ =>
          let '(r0, old) := unregister {| objects := <[q:=m0]> (objects r); models_ := models_ r |} (name cfg) in
          match old with Some q0 => destroy r0 q0 | None => r0 end
      | None => {| objects := <[q:=m0]> (objects r); models_ := models_ r |}
      end) = {| objects := <[q:=m0]> base; models_ := delete (name cfg) (models_ r) |}).
  { unfold base, unregister, destroy. simpl. destruct (models_ r !! name cfg) as [p0|] eqn:E; simpl.
    - f_equal. rewrite delete_insert_ne; [done|]. intros ->.
      destruct (Ht _ _ E) as (m & Hm & _). congruence.
    - f_equal. by rewrite delete_id. }
  rewrite Hreg. unfold register_model. simpl. rewrite lookup_insert_eq. simpl.
  rewrite lookup_delete_eq. cbv iota beta. simpl. rewrite insert_delete_eq.
  unfold load_outcome, replaced, make_backend. unfold set_state, set_backend.
  destruct (ModelConfig.backend cfg); [destruct make_torch_backend as [b|]|];
    simpl; rewrite ?alter_insert_eq; try done.
  destruct (backend_load b (name cfg) (model_file_path cfg) (ModelConfig.device cfg)); simpl;
    rewrite ?alter_insert_eq; done.
Qed.

Lemma load_outcome_name cfg : name (config (load_outcome cfg).2) = name cfg.
Proof.
  unfold load_outcome. destruct (make_backend _); [|done].
  by destruct (backend_load _ _ _ _).
Qed.

Lemma replaced_ok r q m :
  registry_ok r → objects r !! q = None → registry_ok (replaced r q m).
Proof.
  intros [Ht Ho] Hq. unfold replaced. split; simpl.
  - intros id p [[<- <-]|[Hne Hp]]%lookup_insert_Some.
    + exists m. by rewrite lookup_insert_eq.
    + destruct (Ht id p Hp) as (m' & Hm' & Hid). exists m'. split; [|done].
      rewrite lookup_insert_ne by congruence.
      destruct (models_ r !! name (config m)) as [p0|] eqn:E; [|done].
      rewrite lookup_delete_ne; [done|]. intros ->. destruct (Ht _ _ E) as (m2 & Hm2 & ?). congruence.
  - intros p m' [[<- <-]|[Hne Hp]]%lookup_insert_Some; [by rewrite lookup_insert_eq|].
    assert (objects r !! p = Some m' ∧ models_ r !! name (config m) ≠ Some p) as [Hp' Hn].
    { destruct (models_ r !! name (config m)) as [p0|] eqn:E; [|done].
      apply lookup_delete_Some in Hp as [? ?]. split; [done|]. congruence. }
    rewrite lookup_insert_ne; [by apply Ho|]. intros Heq. apply Hn. rewrite Heq. by apply Ho.
Qed.

Lemma replaced_model r q m :
  model_at (replaced r q m) (name (config m)) = Some m ∧
  (registry_ok r → objects r !! q = None → ∀ id, id ≠ name (config m) →
     model_at (replaced r q m) id = model_at r id).
Proof.
  unfold model_at, replaced. simpl. split; [by rewrite lookup_insert_eq; simpl; rewrite lookup_insert_eq|].
  intros [Ht Ho] Hq id Hid. rewrite lookup_insert_ne by done.
  destruct (models_ r !! id) as [p|] eqn:Hp; [|done]. simpl.
  destruct (Ht _ _ Hp) as (m1 & Hm1 & Hn1).
  rewrite lookup_insert_ne by congruence.
  destruct (models_ r !! name (config m)) as [p0|] eqn:E; [|done].
  rewrite lookup_delete_ne; [done|]. intros ->. destruct (Ht _ _ E) as (m2 & Hm2 & ?). congruence.
Qed.

(** ** What a scan is to produce *)

Definition is_model_dir (e : text * node) : bool :=
  is_directory e.2 && negb (is_hidden e.1) && looks_like_model e.2.

Definition entry_config (root : path) (e : text * node) : outcome ModelConfig :=
  from_dir (root ++ [e.1]) (Some e.2).

(** The configurations of the model directories, in the order they are read. *)
Definition found_configs (root : path) (es : list (text * node)) : list ModelConfig :=
  omap (λ e, if is_model_dir e then
               match entry_config root e with Done c => Some c | Fault _ => None end
             else None) es.

Definition succeeds (c : ModelConfig) : bool :=
  match name c with [] => false | _ => (load_outcome c).1 end.

(** The last configuration of a list that has the id. *)
Definition last_named (id : text) (cs : list ModelConfig) : option ModelConfig :=
  last (base.filter (λ c, name c = id) cs).

Lemma last_named_cons id c cs :
  last_named id (c :: cs) =
    match last_named id cs with
    | Some d => Some d
    | None => if decide (name c = id) then Some c else None
    end.
Proof.
  unfold last_named. rewrite filter_cons. destruct (decide (name c = id)); [|by destruct (last _)].
  rewrite last_cons. done.
Qed.

Lemma load_model_cases p dir r c :
  registry_ok r → from_dir p dir = Done c →
  ∃ r', load_model p dir r = Done (succeeds c, r') ∧ registry_ok r' ∧
    ∀ id, id ≠ [] → model_at r' id =
      if decide (name c = id) then Some (load_outcome c).2 else model_at r id.
Proof.
  intros Hr Hc. unfold succeeds. destruct (name c) as [|ch rest] eqn:En.
  - exists r. unfold load_model. rewrite Hc. cbn. rewrite decide_True by done.
    split_and!; [done|done|]. intros id Hid. by rewrite decide_False.
  - assert (Hne : name c ≠ []) by (by rewrite En).
    destruct (load_model_spec p dir r c Hr Hc Hne) as (q & Hq & Hl).
    exists (replaced r q (load_outcome c).2). split_and!; [by rewrite Hl|by apply replaced_ok|].
    intros id Hid. pose proof (load_outcome_name c) as Hon.
    destruct (replaced_model r q (load_outcome c).2) as [Hsame Hoth]. rewrite Hon in Hsame, Hoth.
    rewrite <- En. case_decide as E; [by subst id|]. by apply Hoth.
Qed.

Definition subdirectories (es : list (text * node)) : list (text * node) :=
  base.filter (λ e, is_directory e.2 = true) es.

(** The result of a scan in terms of the configurations found. *)
Definition result_ok (res0 res : LoadResult) (es : list (text * node)) (cs : list ModelConfig) : Prop :=
  loaded res = loaded res0 + Z.of_nat (length (base.filter (λ c, succeeds c = true) cs)) ∧
  loaded res + failed res = loaded res0 + failed res0 + Z.of_nat (length cs) ∧
  loaded res + failed res + skipped res =
    loaded res0 + failed res0 + skipped res0 + Z.of_nat (length (subdirectories es)).

Lemma scan_entries_spec root es res0 r :
  registry_ok r →
  (∀ e, e ∈ es → is_model_dir e = true → ∃ c, entry_config root e = Done c) →
  ∃ res r', scan_entries root res0 r es = Done (res, r') ∧ registry_ok r' ∧
    result_ok res0 res es (found_configs root es) ∧
    ∀ id, id ≠ [] → model_at r' id =
      match last_named id (found_configs root es) with
      | Some c => Some (load_outcome c).2
      | None => model_at r id
      end.
Proof.
  revert res0 r. induction es as [|e es IH]; intros res0 r Hr Hes.
  { exists res0, r. split_and!; [done|done| |done]. unfold result_ok. simpl. lia. }
  assert (Hrest : ∀ e', e' ∈ es → is_model_dir e' = true → ∃ c, entry_config root e' = Done c)
    by (intros; apply Hes; [by right|done]).
  unfold result_ok, subdirectories, found_configs in *.
  cbn [scan_entries omap list_omap]. rewrite filter_cons.
  specialize (Hes e ltac:(by left)). unfold scan_one.
  destruct (is_model_dir e) eqn:Em; unfold is_model_dir in Em.
  2: { destruct (is_directory e.2) eqn:Ed; simpl in Em |- *; [|by apply IH].
    destruct (IH (skip_one res0) r Hr Hrest) as (res & r' & Hs & ? & Hres & ?). simpl in Hres.
    exists res, r'. split; [|split_and!; try done; simpl; lia].
    destruct (is_hidden e.1); simpl in Em |- *; [done|]. by rewrite Em. }
  apply andb_true_iff in Em as [[-> Hh%negb_true_iff]%andb_true_iff ->]. rewrite Hh.
  cbn [negb]. rewrite decide_True by done.
  destruct (Hes eq_refl) as [c Hc]. pose proof Hc as Hc'. unfold entry_config in Hc'.
  destruct (load_model_cases _ _ r c Hr Hc') as (r1 & -> & Hr1 & Hm1).
  destruct (succeeds c) eqn:Es; cbn [mbind outcome_bind mret outcome_ret].
  all: match goal with |- context [scan_entries _ ?res1 ?r2 _] =>
      destruct (IH res1 r2 Hr1 Hrest) as (res & r' & Hs & ? & Hres & Hm) end; rewrite Hs;
    simpl in Hres; exists res, r'; rewrite Hc, filter_cons, Es; split_and!; try done; simpl; try lia.
  all: intros id Hid; rewrite Hm, last_named_cons by done;
    destruct (last_named id _); [done|]; rewrite Hm1 by done; by case_decide.
Qed.

Lemma scan_entries_abort root es1 e es2 res0 r f :
  registry_ok r →
  (∀ e, e ∈ es1 → is_model_dir e = true → ∃ c, entry_config root e = Done c) →
  is_model_dir e = true → entry_config root e = Fault f →
  scan_entries root res0 r (es1 ++ e :: es2) = Fault f.
Proof.
  intros Hr Hes He Hf.
  destruct (scan_entries_spec root es1 res0 r Hr Hes) as (res & r' & Hs & _).
  assert (Happ : ∀ es1 res0 r, scan_entries root res0 r es1 = Done (res, r') →
    scan_entries root res0 r (es1 ++ e :: es2) = scan_entries root res r' (e :: es2)).
  { clear. intros es1. induction es1 as [|x es1 IH]; intros res0 r; simpl; [by intros [= -> ->]|].
    destruct (scan_one root res0 r x) as [[res1 r1]|]; [|done]. simpl. apply IH. }
  rewrite (Happ es1 res0 r Hs). cbn [scan_entries]. unfold scan_one.
  apply andb_true_iff in He as [[Hd Hh]%andb_true_iff Hl].
  rewrite Hd. apply negb_true_iff in Hh. rewrite Hh, Hl. simpl.
  unfold load_model. unfold entry_config in Hf. by rewrite Hf.
Qed.
End repository.

(** ** Properties *)

(** Loading one model directory: a directory whose configuration has no name
    is refused and nothing changes. Otherwise the registry holds under that name a
    metadata object with the parsed configuration that is READY, with its backend,
    exactly when the backend could be made and loaded (then the answer is [true]),
    and FAILED otherwise; every other model is untouched, the old object of the
    name is destroyed, and ids and live objects stay in one-to-one
    correspondence. *)
Theorem load_model_correct {B} (mk : option B) load p dir (r : ModelRegistry) cfg :
  registry_ok r → from_dir p dir = Done cfg →
  (name cfg = [] → load_model mk load p dir r = Done (false, r)) ∧
  (name cfg ≠ [] → ∃ r' m, load_model mk load p dir r = Done (is_ready m, r') ∧
     registry_ok r' ∧ model_at r' (name cfg) = Some m ∧ config m = cfg ∧
     (is_ready m = true ↔ ∃ b, make_backend mk (ModelConfig.backend cfg) = Some b ∧
        load b (name cfg) (model_file_path cfg) (ModelConfig.device cfg) = true ∧
        backend m = Some b) ∧
     (is_ready m = false → state m = Failed) ∧
     (is_ready m = true ↔ is_Some (lookup_ready r' (name cfg))) ∧
     (∀ id, id ≠ [] → id ≠ name cfg → model_at r' id = model_at r id)).
Proof.
  intros Hr Hc. split; [intros Hn; unfold load_model; rewrite Hc; cbn [mbind outcome_bind]; by rewrite decide_True|].
  intros Hn. destruct (load_model_cases mk load p dir r cfg Hr Hc) as (r' & Hl & Hr' & Hm).
  set (m := (load_outcome mk load cfg).2) in *.
  assert (Hs : succeeds mk load cfg = is_ready m ∧ (is_ready m = false → state m = Failed) ∧
    config m = cfg ∧ (is_ready m = true ↔ ∃ b, make_backend mk (ModelConfig.backend cfg) = Some b ∧
        load b (name cfg) (model_file_path cfg) (ModelConfig.device cfg) = true ∧
        backend m = Some b)).
  { unfold m, succeeds. destruct (name cfg) as [|ch rest] eqn:En; [done|].
    unfold load_outcome. rewrite En. destruct (make_backend _ _) as [b|]; simpl.
    - destruct (load b _ _ _) eqn:El; simpl; split_and!; try done; split; try done.
      + intros _. by exists b.
      + intros (b' & [= <-] & ? & _). congruence.
    - split_and!; try done. split; [done|]. by intros (b & ? & _). }
  destruct Hs as (Hs & Hf & Hcfg & Hb). exists r', m.
  pose proof (Hm (name cfg) Hn) as Hat. rewrite decide_True in Hat by done.
  split_and!; [by rewrite <- Hs|done|done|done|done|done| |].
  - unfold model_at in Hat. unfold lookup_ready, lookup.
    destruct (models_ r' !! name cfg) as [q|]; [|done]. simpl in Hat |- *. rewrite Hat. simpl.
    by destruct (is_ready m).
  - intros id Hid Hne. rewrite Hm by done. by rewrite decide_False.
Qed.

(** A backend that loads whatever file it is given. *)
Definition any_file (_ : nat) (_ : text) (file : path) (_ : DeviceKind) : bool :=
  bool_decide (file ≠ []).

Lemma load_model_correct_witness :
  ∃ r' m, load_model (Some 0%nat) any_file [txt "bert"] (Some (Dir bert_dir)) registry_new =
      Done (is_ready m, r') ∧ model_at r' (txt "bert") = Some m ∧ is_ready m = true.
Proof.
  destruct (from_dir [txt "bert"] (Some (Dir bert_dir))) as [cfg|f] eqn:E; [|by vm_compute in E].
  assert (Hn : name cfg = txt "bert") by (vm_compute in E; by injection E as <-).
  destruct (load_model_correct (Some 0%nat) any_file [txt "bert"] (Some (Dir bert_dir))
    registry_new cfg registry_new_ok E) as [_ H].
  destruct H as (r' & m & Hl & _ & Hm & _); [by rewrite Hn|].
  exists r', m. split_and!; [done|by rewrite <- Hn|].
  assert (Hv : match load_model (Some 0%nat) any_file [txt "bert"] (Some (Dir bert_dir)) registry_new
    with Done (good, _) => good | Fault _ => false end = true) by by vm_compute.
  by rewrite Hl in Hv.
Defined.

(** C13. Scanning a repository. If every model directory has a readable configuration the
    scan terminates and accounts for everything: each subdirectory is counted exactly once
    as loaded, failed or skipped; [loaded] counts the directories whose model became READY;
    and every id ends up with the outcome of the last directory that carries it (or with
    what the registry held before). Otherwise the first configuration that does not parse
    aborts the whole scan with its exception, whatever directories follow. *)
Theorem scan_accounts_for_all {B} (mk : option B) load root es r :
  registry_ok r →
  ((∀ e, e ∈ es → is_model_dir e = true → ∃ c, entry_config root e = Done c) →
   ∃ res r', scan_and_load mk load root (Some (Dir es)) r = Done (res, r') ∧ registry_ok r' ∧
     loaded res + failed res + skipped res = Z.of_nat (length (subdirectories es)) ∧
     loaded res + failed res = Z.of_nat (length (found_configs root es)) ∧
     loaded res = Z.of_nat (length (base.filter (λ c, succeeds mk load c = true)
                                     (found_configs root es))) ∧
     ∀ id, id ≠ [] → model_at r' id =
       match last_named id (found_configs root es) with
       | Some c => Some (load_outcome mk load c).2
       | None => model_at r id
       end) ∧
  (∀ es1 e es2 f, es = es1 ++ e :: es2 →
     (∀ e', e' ∈ es1 → is_model_dir e' = true → ∃ c, entry_config root e' = Done c) →
     is_model_dir e = true → entry_config root e = Fault f →
     scan_and_load mk load root (Some (Dir es)) r = Fault f).
Proof.
  intros Hr. split; [|intros es1 e es2 f -> ???; by apply scan_entries_abort]. intros Hes.
  destruct (scan_entries_spec mk load root es no_result r Hr Hes)
    as (res & r' & ? & ? & (? & ? & ?) & ?).
  exists res, r'. simpl in *. split_and!; try done; lia.
Qed.

(** Two directories that claim the name bert, and a plain file. *)
Definition two_berts : list (text * node) :=
  [(txt "a", Dir bert_dir); (txt "README", File []);
   (txt "b", Dir [(txt "config.ini", File (txt "name=bert"))])].

Lemma two_berts_parse e :
  e ∈ two_berts → is_model_dir e = true → ∃ c, entry_config [] e = Done c.
Proof.
  intros He Hm. apply list_elem_of_In in He.
  destruct He as [<-|[<-|[<-|[]]]]; [|by vm_compute in Hm|]; eexists; vm_compute; reflexivity.
Qed.

Lemma scan_accounts_for_all_witness :
  ∃ res r', scan_and_load (Some 0%nat) any_file [] (Some (Dir two_berts)) registry_new =
      Done (res, r') ∧ loaded res = 1 ∧ failed res = 1 ∧
    state <$> model_at r' (txt "bert") = Some Failed.
Proof.
  destruct (proj1 (scan_accounts_for_all (Some 0%nat) any_file [] two_berts registry_new registry_new_ok) two_berts_parse)
    as (res & r' & Hs & _ & _ & H2 & H3 & Hm).
  exists res, r'. split; [done|]. specialize (Hm (txt "bert") ltac:(done)).
  assert (E2 : length (found_configs [] two_berts) = 2%nat) by by vm_compute.
  assert (E3 : length (base.filter (λ c, succeeds (Some 0%nat) any_file c = true)
    (found_configs [] two_berts)) = 1%nat) by by vm_compute.
  rewrite E2 in H2. rewrite E3 in H3. rewrite Hm. split_and!; [lia|lia|by vm_compute].
Defined.

(** One unreadable configuration aborts the whole scan: an exception of
    [from_dir] (a number that does not parse, say) leaves [scan_and_load], whatever
    directories follow. *)
Theorem bad_config_aborts_scan {B} (mk : option B) load root es1 e es2 r f :
  registry_ok r →
  (∀ e', e' ∈ es1 → is_model_dir e' = true → ∃ c, entry_config root e' = Done c) →
  is_model_dir e = true → entry_config root e = Fault f →
  scan_and_load mk load root (Some (Dir (es1 ++ e :: es2))) r = Fault f.
Proof. intros. by apply scan_entries_abort. Qed.

Lemma bad_config_aborts_scan_witness :
  scan_and_load (Some 0%nat) any_file []
    (Some (Dir [(txt "bad", Dir [(txt "config.ini", File (txt "version=latest"))]);
                (txt "good", Dir bert_dir)])) registry_new =
    Fault (Thrown invalid_argument).
Proof.
  apply (bad_config_aborts_scan (Some 0%nat) any_file [] []
    (txt "bad", Dir [(txt "config.ini", File (txt "version=latest"))])
    [(txt "good", Dir bert_dir)] registry_new); [apply registry_new_ok|by intros ? ?%elem_of_nil|done|done].
Defined.

(** Reloading a model destroys the metadata object whose address clients of
    [lookup] (an executor, for one) still hold: after a reload the old address is
    dangling, and the new object is at another one. *)
Theorem reload_destroys_metadata {B} (mk : option B) load p dir (r : ModelRegistry) cfg old :
  registry_ok r → from_dir p dir = Done cfg → name cfg ≠ [] →
  lookup r (name cfg) = Some old →
  ∃ good r' new, load_model mk load p dir r = Done (good, r') ∧
    lookup r' (name cfg) = Some new ∧ new ≠ old ∧ objects r' !! old = None.
Proof.
  intros Hr Hc Hn Hold. destruct (load_model_spec mk load p dir r cfg Hr Hc Hn) as (q & Hq & Hl).
  pose proof (load_outcome_name mk load cfg) as Hon. unfold lookup in *.
  destruct (ok_target r Hr _ _ Hold) as (m & Hm & _).
  assert (q ≠ old) by congruence.
  exists (load_outcome mk load cfg).1, (replaced r q (load_outcome mk load cfg).2), q.
  split_and!; [done| |done|]; unfold replaced; simpl; rewrite Hon.
  - by rewrite lookup_insert_eq.
  - rewrite Hold, lookup_insert_ne, lookup_delete_eq by done. done.
Qed.

Lemma reload_destroys_metadata_witness :
  ∃ r old good r', lookup r (txt "bert") = Some old ∧
    load_model (Some 0%nat) any_file [txt "bert"] (Some (Dir bert_dir)) r = Done (good, r') ∧
    objects r' !! old = None.
Proof.
  destruct (from_dir [txt "bert"] (Some (Dir bert_dir))) as [cfg|f] eqn:E; [|by vm_compute in E].
  assert (Hn : name cfg = txt "bert") by (vm_compute in E; by injection E as <-).
  set (m := {| config := cfg; state := Ready; backend := Some 0%nat |}).
  set (r := {| objects := {[5 := m]}; models_ := {[name cfg := 5]} |}).
  assert (Hr : registry_ok r).
  { split; simpl.
    - intros id p [<- <-]%lookup_singleton_Some. exists m. split; [apply lookup_singleton_eq|done].
    - intros p m' [<- <-]%lookup_singleton_Some. apply lookup_singleton_eq. }
  destruct (reload_destroys_metadata (Some 0%nat) any_file [txt "bert"] (Some (Dir bert_dir)) r cfg 5
    Hr E ltac:(by rewrite Hn) ltac:(apply lookup_singleton_eq)) as (good & r' & new & Hl & _ & _ & Hd).
  exists r, 5, good, r'. split_and!; [|done|done].
  unfold lookup, r. simpl. rewrite Hn. apply lookup_singleton_eq.
Defined.
