(* ===== verification/Metrics.v ===== *)
(** * Metrics ([include/jellybean/telemetry/metrics.hpp], [src/telemetry/metrics.cpp],
      [src/telemetry/metrics_export.cpp])

    Counters are 64-bit words; the histogram is its array of counters. The rank of
    a percentile is computed in double precision, with the executable IEEE 754
    operations of the Standard Library. *)
From S2P Require Import Prelude.
From S2P Require Import Text.
From Stdlib Require Import SpecFloat.

(** ** Data *)

Record PlainMetrics := {
  requests_received : Z;
  requests_completed : Z;
  requests_rejected : Z;
  queue_timeouts : Z }.

Definition no_metrics : PlainMetrics :=
  {| requests_received := 0; requests_completed := 0; requests_rejected := 0; queue_timeouts := 0 |}.

Record ModelExecutorMetrics := {
  model_id : text;
  metrics : PlainMetrics;
  p50_ns : Z;
  p95_ns : Z;
  p99_ns : Z }.

Record LatencyHistogram := { buckets_ : list Z }.

Definition BUCKETS : nat := 1024.

Definition histogram_new : LatencyHistogram := {| buckets_ := replicate BUCKETS 0 |}.

(** ** Operations *)

(** [64 - __builtin_clzll(x)] is the number of significant bits of [x]. *)
Definition bit_length (x : Z) : Z := Z.log2 x + 1.

Definition bucket_for (latency_ns : Z) : nat :=
  if latency_ns =? 0 then 0%nat else Z.to_nat (Z.min (bit_length latency_ns) 1023).

Definition record (h : LatencyHistogram) (latency_ns : Z) : LatencyHistogram :=
  {| buckets_ := alter (λ n, n +w 1) (bucket_for latency_ns) (buckets_ h) |}.

(** [static_cast<double>] of a word, and truncation back. *)
Definition to_double (n : Z) : spec_float := binary_normalize 53 1024 n 0 false.

Definition to_uint64 (x : spec_float) : Z :=
  match x with
  | S754_finite false m e => if 0 <=? e then Z.pos m * 2 ^ e else Z.pos m / 2 ^ (- e)
  | _ => 0
  end.

(** [static_cast<uint64_t>(static_cast<double>(total) * p)]. *)
Definition target_rank (total : Z) (p : spec_float) : Z :=
  to_uint64 (SFmul 53 1024 (to_double total) p).

Definition sum_words (l : list Z) : Z := foldl (λ a b, a +w b) 0 l.

(** The search loop from bucket [i]. *)
Fixpoint find_bucket (i : nat) (count target : Z) (l : list Z) : Z :=
  match l with
  | [] => 0
  | b :: l =>
      let count := count +w b in
      if target <=? count then 2 ^ Z.of_nat (i - 1)
      else find_bucket (S i) count target l
  end.

Definition percentile (h : LatencyHistogram) (p : spec_float) : Z :=
  let total := sum_words (buckets_ h) in
  if total =? 0 then 0 else find_bucket 0 0 (target_rank total p) (buckets_ h).

(** The double nearest to each literal. *)
Definition d0_50 : spec_float := S754_finite false 4503599627370496 (-53).

Definition d0_95 : spec_float := S754_finite false 8556839292003942 (-53).

Definition d0_99 : spec_float := S754_finite false 8917127262193582 (-53).

Definition d0_999 : spec_float := S754_finite false 8998192055486251 (-53).

Definition p50 (h : LatencyHistogram) : Z := percentile h d0_50.

Definition p95 (h : LatencyHistogram) : Z := percentile h d0_95.

Definition p99 (h : LatencyHistogram) : Z := percentile h d0_99.

Definition p999 (h : LatencyHistogram) : Z := percentile h d0_999.

(** One element of [InferenceRuntime::get_all_metrics]. *)
Definition executor_metrics (id : text) (m : PlainMetrics) (h : LatencyHistogram) :
    ModelExecutorMetrics :=
  {| model_id := id; metrics := m; p50_ns := p50 h; p95_ns := p95 h; p99_ns := p99 h |}.

(** ** Export *)

Definition LF : text := [chr 10].

Definition quote : text := [chr 34].

(** A line of the object of one model. *)
Definition json_field (key : text) (v : Z) (sep : text) : text :=
  txt "    " ++ quote ++ key ++ quote ++ txt ": " ++ to_string v ++ sep ++ LF.

Definition json_model (m : ModelExecutorMetrics) : text :=
  txt "  " ++ quote ++ model_id m ++ quote ++ txt ": {" ++ LF ++
  json_field (txt "requests_received") (requests_received (metrics m)) (txt ",") ++
  json_field (txt "requests_completed") (requests_completed (metrics m)) (txt ",") ++
  json_field (txt "requests_rejected") (requests_rejected (metrics m)) (txt ",") ++
  json_field (txt "queue_timeouts") (queue_timeouts (metrics m)) (txt ",") ++
  json_field (txt "latency_p50_ns") (p50_ns m) (txt ",") ++
  json_field (txt "latency_p95_ns") (p95_ns m) (txt ",") ++
  json_field (txt "latency_p99_ns") (p99_ns m) [] ++
  txt "  }".

Fixpoint json_models (all : list ModelExecutorMetrics) : text :=
  match all with
  | [] => []
  | [m] => json_model m ++ LF
  | m :: all => json_model m ++ txt "," ++ LF ++ json_models all
  end.

Definition serialize_metrics_json (all : list ModelExecutorMetrics) : text :=
  txt "{" ++ LF ++ json_models all ++ txt "}" ++ LF.

(** ** Specification *)

(** The histogram after a sequence of latencies. *)
Definition recorded (ls : list Z) : LatencyHistogram := foldl record histogram_new ls.

Definition in_bucket (i : nat) (ls : list Z) : Z :=
  Z.of_nat (length (base.filter (λ x, bucket_for x = i) ls)).

(** How many samples are below a bound. *)
Definition below (v : Z) (ls : list Z) : Z := Z.of_nat (length (base.filter (λ x, x < v) ls)).

(** ** Lemmas *)

Lemma bucket_for_lt x : (bucket_for x < BUCKETS)%nat.
Proof. unfold bucket_for, BUCKETS. destruct (x =? 0); lia. Qed.

(** Bucket 0 holds zero, bucket [i] the latencies of [i] significant bits. *)
Lemma bucket_for_le x i : is_u64 x → (bucket_for x ≤ i)%nat ↔ x < 2 ^ Z.of_nat i.
Proof.
  unfold is_u64, bucket_for, bit_length. intros Hx.
  destruct (Z.eqb_spec x 0) as [->|Hne].
  - split; [|lia]. intros _. apply Z.pow_pos_nonneg; lia.
  - pose proof (Z.log2_nonneg x). assert (Z.log2 x < 64) by (apply Z.log2_lt_pow2; lia).
    rewrite Z.min_l by lia. rewrite Z.log2_lt_pow2 by lia. lia.
Qed.

Lemma in_bucket_snoc i ls x :
  in_bucket i (ls ++ [x]) = in_bucket i ls + (if decide (bucket_for x = i) then 1 else 0).
Proof.
  unfold in_bucket. rewrite filter_app, length_app, filter_cons, filter_nil.
  destruct (decide (bucket_for x = i)); simpl; lia.
Qed.

Lemma in_bucket_bound i ls : 0 <= in_bucket i ls <= Z.of_nat (length ls).
Proof. unfold in_bucket. pose proof (length_filter (λ x, bucket_for x = i) ls). lia. Qed.

Lemma recorded_snoc ls x : recorded (ls ++ [x]) = record (recorded ls) x.
Proof. unfold recorded. by rewrite foldl_app. Qed.

Lemma recorded_buckets ls :
  Z.of_nat (length ls) < 2 ^ 64 →
  length (buckets_ (recorded ls)) = BUCKETS ∧
  ∀ i, (i < BUCKETS)%nat → buckets_ (recorded ls) !! i = Some (in_bucket i ls).
Proof.
  induction ls as [|x ls IH] using rev_ind; intros Hlen.
  - split; [apply length_replicate|]. intros i Hi. by apply lookup_replicate.
  - rewrite length_app in Hlen. simpl in Hlen. destruct IH as [IH1 IH2]; [lia|].
    rewrite recorded_snoc. simpl. rewrite length_alter. split; [done|]. intros i Hi.
    rewrite in_bucket_snoc. destruct (decide (bucket_for x = i)) as [<-|Hne].
    + rewrite list_lookup_alter_eq, IH2 by done. simpl. f_equal.
      pose proof (in_bucket_bound (bucket_for x) ls). apply u64_small. lia.
    + rewrite list_lookup_alter_ne by done. rewrite IH2 by done. f_equal. lia.
Qed.

Lemma below_bucket ls i :
  Forall is_u64 ls →
  below (2 ^ Z.of_nat i) ls = Z.of_nat (length (base.filter (λ x, (bucket_for x ≤ i)%nat) ls)).
Proof.
  unfold below. intros Hls. f_equal. induction Hls as [|x ls Hx Hls IH]; [done|].
  rewrite !filter_cons. pose proof (bucket_for_le x i Hx).
  destruct (decide (x < 2 ^ Z.of_nat i)), (decide (bucket_for x ≤ i)%nat); simpl; lia || tauto.
Qed.

Lemma below_step ls i :
  Forall is_u64 ls →
  below (2 ^ Z.of_nat (S i)) ls = below (2 ^ Z.of_nat i) ls + in_bucket (S i) ls.
Proof.
  intros Hls. rewrite !below_bucket by done. unfold in_bucket. clear Hls.
  induction ls as [|x ls IH]; [done|]. rewrite !filter_cons.
  destruct (decide (bucket_for x ≤ S i)%nat), (decide (bucket_for x ≤ i)%nat),
    (decide (bucket_for x = S i)); simpl; lia.
Qed.

Lemma below_first ls : Forall is_u64 ls → below 1 ls = in_bucket 0 ls.
Proof.
  intros Hls. change 1 with (2 ^ Z.of_nat 0). rewrite below_bucket by done. unfold in_bucket.
  do 2 f_equal. apply list_filter_iff. intros x. lia.
Qed.

Lemma below_bound v ls : 0 <= below v ls <= Z.of_nat (length ls).
Proof. unfold below. pose proof (length_filter (λ x, x < v) ls). lia. Qed.

Lemma below_all ls i : Forall is_u64 ls → 64 <= i → below (2 ^ i) ls = Z.of_nat (length ls).
Proof.
  intros Hls Hi. unfold below. f_equal. induction Hls as [|x ls Hx Hls IH]; [done|].
  rewrite filter_cons, decide_True; [simpl; lia|].
  unfold is_u64 in Hx. pose proof (Z.pow_le_mono_r 2 64 i). lia.
Qed.

Lemma below_mono v w ls : v <= w → below v ls <= below w ls.
Proof.
  intros Hvw. unfold below. apply inj_le. induction ls as [|x ls IH]; [done|].
  rewrite !filter_cons. destruct (decide (x < v)), (decide (x < w)); simpl; lia.
Qed.

(** How many samples the buckets before [i] hold. *)
Definition before (i : nat) (ls : list Z) : Z :=
  match i with O => 0 | S i => below (2 ^ Z.of_nat i) ls end.

Lemma before_step i ls :
  Forall is_u64 ls → before (S i) ls = before i ls + in_bucket i ls.
Proof.
  intros Hls. destruct i as [|i]; simpl before; [|by apply below_step].
  change (2 ^ Z.of_nat 0) with 1. rewrite below_first by done. lia.
Qed.

Lemma before_bound i ls : 0 <= before i ls <= Z.of_nat (length ls).
Proof. destruct i; simpl; [lia|apply below_bound]. Qed.

Lemma sum_words_prefix ls bs i :
  Forall is_u64 ls → Z.of_nat (length ls) < 2 ^ 64 →
  (∀ j b, bs !! j = Some b → b = in_bucket (i + j) ls) →
  foldl (λ a b, a +w b) (before i ls) bs = before (i + length bs) ls.
Proof.
  intros Hls Hlen. revert i. induction bs as [|b bs IH]; intros i Hb; simpl.
  { f_equal. lia. }
  rewrite (Hb O b) by done. rewrite Nat.add_0_r, <- before_step by done.
  pose proof (before_bound (S i) ls). rewrite u64_small by lia. rewrite IH; [f_equal; lia|].
  intros j b' Hj. rewrite Nat.add_succ_comm. by apply (Hb (S j)).
Qed.

Lemma recorded_total ls :
  Forall is_u64 ls → Z.of_nat (length ls) < 2 ^ 64 →
  sum_words (buckets_ (recorded ls)) = Z.of_nat (length ls).
Proof.
  intros Hls Hlen. destruct (recorded_buckets ls Hlen) as [Hl Hb]. unfold sum_words.
  change 0 with (before 0 ls). rewrite sum_words_prefix; [|done|done|].
  - rewrite Hl. simpl. by apply below_all.
  - intros j b Hj. pose proof (lookup_lt_Some _ _ _ Hj). rewrite Hb in Hj by lia. by injection Hj.
Qed.

Lemma find_bucket_spec ls t bs i :
  Forall is_u64 ls → Z.of_nat (length ls) < 2 ^ 64 →
  (∀ j b, bs !! j = Some b → b = in_bucket (i + j) ls) →
  before i ls < t ∨ bs ≠ [] →
  (before (i + length bs) ls < t ∧ find_bucket i (before i ls) t bs = 0) ∨
  ∃ j, (i <= j < i + length bs)%nat ∧ find_bucket i (before i ls) t bs = 2 ^ Z.of_nat (j - 1) ∧
    t <= before (S j) ls ∧ (j = i ∨ before j ls < t).
Proof.
  intros Hls Hlen. revert i. induction bs as [|b bs IH]; intros i Hb Hi; cbn [find_bucket length].
  - rewrite Nat.add_0_r. left. split; [|done]. by destruct Hi.
  - rewrite (Hb O b) by done. rewrite Nat.add_0_r, <- before_step by done.
    pose proof (before_bound (S i) ls). rewrite u64_small by lia.
    destruct (Z.leb_spec t (before (S i) ls)) as [Hle|Hgt].
    + right. exists i. split_and!; [lia|lia|done|done|by left].
    + destruct (IH (S i)) as [[? ->]|(j & ? & -> & ? & Hj)]; [|by left|left|right].
      * intros j b' Hj. rewrite Nat.add_succ_comm. by apply (Hb (S j)).
      * split; [|done]. by rewrite <- Nat.add_succ_comm.
      * exists j. split_and!; [lia|lia|done|done|]. right. destruct Hj as [->|?]; lia.
Qed.

(** The loop on the buckets of the recorded latencies. *)
Lemma percentile_cases ls p :
  Forall is_u64 ls → 0 < Z.of_nat (length ls) < 2 ^ 64 →
  let t := target_rank (Z.of_nat (length ls)) p in
  (Z.of_nat (length ls) < t ∧ percentile (recorded ls) p = 0) ∨
  ∃ j, percentile (recorded ls) p = 2 ^ Z.of_nat (j - 1) ∧
    t <= before (S j) ls ∧ (j = O ∨ before j ls < t).
Proof.
  intros Hls Hlen t. unfold percentile. rewrite recorded_total by (done || lia).
  rewrite (proj2 (Z.eqb_neq _ 0)) by lia. fold t.
  destruct (recorded_buckets ls) as [Hl Hb]; [lia|].
  change (find_bucket 0 0 t (buckets_ (recorded ls)))
    with (find_bucket 0 (before 0 ls) t (buckets_ (recorded ls))).
  destruct (find_bucket_spec ls t (buckets_ (recorded ls)) 0) as [[? ->]|(j & _ & -> & ? & ?)].
  - done.
  - lia.
  - intros j b Hj. pose proof (lookup_lt_Some _ _ _ Hj). rewrite Hb in Hj by lia. by injection Hj.
  - right. intros E. by rewrite E in Hl.
  - left. split; [|done]. rewrite Hl in *. simpl in *. by rewrite below_all in * by (done || lia).
  - right. by exists j.
Qed.

Lemma percentile_bracket ls p :
  Forall is_u64 ls → Z.of_nat (length ls) < 2 ^ 64 →
  1 <= target_rank (Z.of_nat (length ls)) p <= Z.of_nat (length ls) →
  ∃ k, 0 <= k < 64 ∧ percentile (recorded ls) p = 2 ^ k ∧
    target_rank (Z.of_nat (length ls)) p <= below (2 * 2 ^ k) ls ∧
    (k = 0 ∨ below (2 ^ k) ls < target_rank (Z.of_nat (length ls)) p).
Proof.
  intros Hls Hlen Ht. destruct (percentile_cases ls p) as [[? _]|(j & -> & Hle & Hj)];
    [done|lia|lia|]. revert Ht Hle Hj. generalize (target_rank (Z.of_nat (length ls)) p).
  intros t Ht Hle Hj. exists (Z.of_nat (j - 1)).
  assert (Hdouble : before (S j) ls <= below (2 * 2 ^ Z.of_nat (j - 1)) ls).
  { simpl. apply below_mono. destruct j as [|j]; [done|].
    replace (Z.of_nat (S j)) with (Z.of_nat (S j - 1) + 1) by lia. rewrite Z.pow_add_r by lia. lia. }
  split_and!; [lia| |done|lia|].
  - destruct j as [|[|j]]; [done|done|]. destruct Hj as [?|Hj]; [done|]. simpl in Hj.
    destruct (Z.lt_ge_cases (Z.of_nat (S (S j) - 1)) 64) as [|Hge]; [done|].
    rewrite below_all in Hj by (done || lia). lia.
  - destruct j as [|[|j]]; [by left|by left|right]. destruct Hj as [?|Hj]; [done|].
    replace (S (S j) - 1)%nat with (S j) by lia. exact Hj.
Qed.

(** A rank that truncates to 0 is reached in the first bucket. *)
Lemma percentile_rank_zero ls p :
  Forall is_u64 ls → 0 < Z.of_nat (length ls) < 2 ^ 64 →
  target_rank (Z.of_nat (length ls)) p <= 0 → percentile (recorded ls) p = 1.
Proof.
  intros Hls Hlen Ht. destruct (percentile_cases ls p Hls Hlen) as [[? _]|(j & -> & _ & Hj)]; [lia|].
  pose proof (before_bound j ls). destruct Hj as [->|Hj]; [done|lia].
Qed.

(** ** Properties *)

(** C14. What a percentile means. Of a sequence of [n] recorded latencies, let the rank
    [t] be the product the code computes in double precision, truncated. If [t] is between
    1 and [n], the answer [r] is a power of two below [2^64] that brackets the [t]-th
    smallest latency from below within a factor of two: at least [t] samples are below
    [2 r], and unless [r] is 1 fewer than [t] are below [r]. If [t] truncates to 0 the
    answer is 1 whatever was recorded, so that every percentile of a single sample is
    1 ns; without samples, or with [t] beyond them, it is 0. *)
Theorem percentile_brackets_rank ls p :
  Forall is_u64 ls → Z.of_nat (length ls) < 2 ^ 64 →
  let n := Z.of_nat (length ls) in
  let t := target_rank n p in
  let r := percentile (recorded ls) p in
  (1 <= t <= n → ∃ k, 0 <= k < 64 ∧ r = 2 ^ k ∧
     t <= below (2 * 2 ^ k) ls ∧ (k = 0 ∨ below (2 ^ k) ls < t)) ∧
  (0 < n → t <= 0 → r = 1) ∧
  (n = 0 ∨ n < t → r = 0) ∧
  (n = 1 → p50 (recorded ls) = 1 ∧ p95 (recorded ls) = 1 ∧ p99 (recorded ls) = 1 ∧ p999 (recorded ls) = 1).
Proof.
  intros Hls Hlen n t r. split_and!.
  - by apply percentile_bracket.
  - intros Hn Ht. by apply percentile_rank_zero.
  - intros [Hn|Hn].
    + assert (ls = []) as -> by (destruct ls; [done|unfold n in Hn; simpl in Hn; lia]). by vm_compute.
    + destruct (decide (ls = [])) as [->|Hne]; [by vm_compute|].
      assert (0 < n) by (unfold n; destruct ls; [done|simpl; lia]).
      destruct (percentile_cases ls p) as [[_ Hr]|(j & _ & Hle & _)]; [done|done|done|].
      pose proof (before_bound (S j) ls). unfold t, n in *. lia.
  - intros Hn. destruct ls as [|x [|]]; [done| |unfold n in Hn; simpl in Hn; lia].
    split_and!; (apply percentile_rank_zero; [done|done|by vm_compute]).
Qed.

Lemma percentile_brackets_rank_witness :
  p95 (recorded [3; 900; 17; 1000; 5; 4; 1023; 60; 2; 1]) = 512 ∧
  ∃ k, p95 (recorded [3; 900; 17; 1000; 5; 4; 1023; 60; 2; 1]) = 2 ^ k ∧
    9 <= below (2 * 2 ^ k) [3; 900; 17; 1000; 5; 4; 1023; 60; 2; 1].
Proof.
  split; [by vm_compute|].
  destruct (percentile_brackets_rank [3; 900; 17; 1000; 5; 4; 1023; 60; 2; 1] d0_95)
    as (H & _); [by repeat constructor|done|].
  destruct H as (k & _ & Hp & Ht & _); [by vm_compute|].
  exists k. split; [done|]. exact Ht.
Defined.

(** The percentiles are not the exact ones the header announces. As soon as
    the product of the number of samples and the percentile truncates to 0, the
    answer is 1 ns whatever was recorded: with a single sample every percentile is
    1 ns. *)
Theorem percentile_of_one_sample x :
  is_u64 x →
  p50 (recorded [x]) = 1 ∧ p95 (recorded [x]) = 1 ∧ p99 (recorded [x]) = 1 ∧
  p999 (recorded [x]) = 1.
Proof.
  intros Hx. split_and!; (apply percentile_rank_zero; [by apply Forall_singleton|done|by vm_compute]).
Qed.

Lemma percentile_of_one_sample_witness : p99 (recorded [5000000]) = 1.
Proof. apply (percentile_of_one_sample 5000000). done. Defined.
