(* ===== verification/Executor.v ===== *)
(** * Model executor ([include/jellybean/model/model_executor.hpp],
      [src/model/model_executor.cpp])

    Callers of [infer_async], the worker threads and the thread that stops the
    executor, interleaved one shared access at a time. The request queue is the
    bounded FIFO queue that [Mpmc] shows the lock-free one to be, with 1024 slots;
    clocks are left open: a deadline may be found expired at any check. A promise is
    the number of its call; [calls] lists the requests of the calls and [answers] the
    values set, both in order. *)
From S2P Require Import Prelude.
From S2P Require Import Transition.
From S2P Require Import Text.
From S2P Require Import Types.
From S2P Require Import Metrics.

#[local] Arguments txt : simpl never.

Section executor.
Context (max_batch_size : Z) (infer_batch : list InferenceRequest → list InferenceResponse).

(** ** Data *)

Definition queue_capacity : nat := 1024.

Record Task := {
  promise : nat;
  req : InferenceRequest;
  task_routing_ns : Z }.

(** Where a worker is in [worker_loop]: at the outer loop; at the inner loop's
    condition; about to pop; popped, about to decrement [queue_size_]; past the
    inner loop; about to lock [cv_mu_]; about to evaluate the predicate of [wait];
    about to block; blocked; notified, about to lock again; setting the promises of
    an executed or of a refused batch; past the end of the backend's responses,
    where [resps[i]] is undefined behaviour; returned. *)
Inductive worker :=
| WTop
| WCollect (batch : list Task)
| WPop (batch : list Task)
| WCount (batch : list Task)
| WAfter (batch : list Task)
| WLock
| WPred
| WBlock
| WWait
| WWake
| WAnswer (todo : list Task) (resps : list InferenceResponse)
| WRefuse (todo : list Task)
| WUndefined (todo : list Task)
| WDone.

(** Where a caller is in [infer_async]: between calls; about to test the model;
    about to test [stopped_]; about to push; push refused; pushed, about to
    increment [queue_size_]; about to notify. *)
Inductive caller :=
| CIdle
| CReady (t : Task)
| CLoop (t : Task)
| CTry (t : Task)
| CFull (t : Task)
| CCount
| CNotify.

(** Where [stop] is. *)
Inductive stopper :=
| SIdle
| SLock
| SNotify
| SJoin
| SDone.

Record state := {
  queue : list Task;
  queue_size : Z;
  stopped : bool;
  locked : bool;
  model_ready : bool;
  workers : list worker;
  callers : list caller;
  stop_thread : stopper;
  counters : PlainMetrics;
  latency_hist : LatencyHistogram;
  answers : list (nat * InferenceResponse);
  calls : list InferenceRequest;
  pops : list Task;
  pushes : list Task }.

(** The constructor's state, seen by [num_callers] threads that may call
    [infer_async]. *)
Definition constructed (num_callers : nat) : state := {|
  queue := []; queue_size := 0; stopped := true; locked := false; model_ready := true;
  workers := []; callers := replicate num_callers CIdle;
  stop_thread := SIdle; counters := no_metrics; latency_hist := histogram_new;
  answers := []; calls := []; pops := []; pushes := [] |}.

(** [start], which does nothing unless the executor is stopped. *)
Definition start (num_workers : nat) (s : state) : state :=
  if stopped s then {|
    queue := queue s; queue_size := queue_size s; stopped := false; locked := locked s;
    model_ready := model_ready s; workers := workers s ++ replicate (Nat.max num_workers 1) WTop;
    callers := callers s; stop_thread := stop_thread s; counters := counters s;
    latency_hist := latency_hist s; answers := answers s; calls := calls s;
    pops := pops s; pushes := pushes s |}
  else s.

Definition initial (s : state) : Prop := ∃ n c, s = start n (constructed c).

(** The response as it leaves the worker, with its timing fields. *)
Definition instrument (t : Task) (r : InferenceResponse) (wait exec : Z) : InferenceResponse := {|
  ok := ok r; error := error r; resp_shape := resp_shape r; output_elems_written := output_elems_written r;
  latency_ns := latency_ns r; routing_ns := task_routing_ns t; queue_wait_ns := wait;
  execution_ns := exec; send_ns := send_ns r |}.

Definition count_result (m : PlainMetrics) (r : InferenceResponse) : PlainMetrics :=
  if ok r then {| requests_received := requests_received m;
                  requests_completed := requests_completed m +w 1;
                  requests_rejected := requests_rejected m; queue_timeouts := queue_timeouts m |}
  else {| requests_received := requests_received m; requests_completed := requests_completed m;
          requests_rejected := requests_rejected m +w 1; queue_timeouts := queue_timeouts m |}.

Definition count_received (m : PlainMetrics) : PlainMetrics := {|
  requests_received := requests_received m +w 1; requests_completed := requests_completed m;
  requests_rejected := requests_rejected m; queue_timeouts := queue_timeouts m |}.

Definition count_timeout (m : PlainMetrics) : PlainMetrics := {|
  requests_received := requests_received m; requests_completed := requests_completed m;
  requests_rejected := requests_rejected m; queue_timeouts := queue_timeouts m +w 1 |}.

(** ** State updates *)

Definition set_worker (s : state) (i : nat) (w : worker) : state := {|
  queue := queue s; queue_size := queue_size s; stopped := stopped s; locked := locked s;
  model_ready := model_ready s; workers := <[i := w]> (workers s); callers := callers s;
  stop_thread := stop_thread s; counters := counters s; latency_hist := latency_hist s;
  answers := answers s; calls := calls s; pops := pops s; pushes := pushes s |}.

Definition set_caller (s : state) (j : nat) (c : caller) : state := {|
  queue := queue s; queue_size := queue_size s; stopped := stopped s; locked := locked s;
  model_ready := model_ready s; workers := workers s; callers := <[j := c]> (callers s);
  stop_thread := stop_thread s; counters := counters s; latency_hist := latency_hist s;
  answers := answers s; calls := calls s; pops := pops s; pushes := pushes s |}.

Definition set_shared (s : state) (q : list Task) (n : Z) (l : bool) : state := {|
  queue := q; queue_size := n; stopped := stopped s; locked := l;
  model_ready := model_ready s; workers := workers s; callers := callers s;
  stop_thread := stop_thread s; counters := counters s; latency_hist := latency_hist s;
  answers := answers s; calls := calls s; pops := pops s; pushes := pushes s |}.

Definition set_queue_size (s : state) (n : Z) : state := set_shared s (queue s) n (locked s).

Definition set_locked (s : state) (l : bool) : state := set_shared s (queue s) (queue_size s) l.

Definition popped_task (s : state) (q : list Task) (t : Task) : state := {|
  queue := q; queue_size := queue_size s; stopped := stopped s; locked := locked s;
  model_ready := model_ready s; workers := workers s; callers := callers s;
  stop_thread := stop_thread s; counters := counters s; latency_hist := latency_hist s;
  answers := answers s; calls := calls s; pops := pops s ++ [t]; pushes := pushes s |}.

Definition pushed_task (s : state) (t : Task) : state := {|
  queue := queue s ++ [t]; queue_size := queue_size s; stopped := stopped s; locked := locked s;
  model_ready := model_ready s; workers := workers s; callers := callers s;
  stop_thread := stop_thread s; counters := counters s; latency_hist := latency_hist s;
  answers := answers s; calls := calls s; pops := pops s; pushes := pushes s ++ [t] |}.

(** [promise.set_value], with the counters and the histogram as they are then. *)
Definition set_value (s : state) (t : Task) (r : InferenceResponse) (m : PlainMetrics)
    (h : LatencyHistogram) : state := {|
  queue := queue s; queue_size := queue_size s; stopped := stopped s; locked := locked s;
  model_ready := model_ready s; workers := workers s; callers := callers s;
  stop_thread := stop_thread s; counters := m; latency_hist := h;
  answers := answers s ++ [(promise t, r)]; calls := calls s; pops := pops s;
  pushes := pushes s |}.

(** The caller's [Task slot], with a new promise, counted as received. *)
Definition new_task (s : state) (r : InferenceRequest) (routing : Z) : Task :=
  {| promise := length (calls s); req := r; task_routing_ns := routing |}.

Definition issue (s : state) (r : InferenceRequest) : state := {|
  queue := queue s; queue_size := queue_size s; stopped := stopped s; locked := locked s;
  model_ready := model_ready s; workers := workers s; callers := callers s;
  stop_thread := stop_thread s; counters := count_received (counters s);
  latency_hist := latency_hist s; answers := answers s; calls := calls s ++ [r];
  pops := pops s; pushes := pushes s |}.

Definition set_stop (s : state) (b : bool) (st : stopper) : state := {|
  queue := queue s; queue_size := queue_size s; stopped := b; locked := locked s;
  model_ready := model_ready s; workers := workers s; callers := callers s;
  stop_thread := st; counters := counters s; latency_hist := latency_hist s;
  answers := answers s; calls := calls s; pops := pops s; pushes := pushes s |}.

Definition set_ready (s : state) (b : bool) : state := {|
  queue := queue s; queue_size := queue_size s; stopped := stopped s; locked := locked s;
  model_ready := b; workers := workers s; callers := callers s;
  stop_thread := stop_thread s; counters := counters s; latency_hist := latency_hist s;
  answers := answers s; calls := calls s; pops := pops s; pushes := pushes s |}.

(** [notify_one] and [notify_all]: a notification with nobody waiting is lost. *)
Definition wake (w : worker) : worker := match w with WWait => WWake | w => w end.

Definition wake_all (s : state) : state := {|
  queue := queue s; queue_size := queue_size s; stopped := stopped s; locked := locked s;
  model_ready := model_ready s; workers := wake <$> workers s; callers := callers s;
  stop_thread := stop_thread s; counters := counters s; latency_hist := latency_hist s;
  answers := answers s; calls := calls s; pops := pops s; pushes := pushes s |}.

Definition clear_workers (s : state) : state := {|
  queue := queue s; queue_size := queue_size s; stopped := stopped s; locked := locked s;
  model_ready := model_ready s; workers := []; callers := callers s;
  stop_thread := stop_thread s; counters := counters s; latency_hist := latency_hist s;
  answers := answers s; calls := calls s; pops := pops s; pushes := pushes s |}.

Definition is_full (batch : list Task) : bool := max_batch_size <=? Z.of_nat (length batch).

(** The predicate of [cv_.wait]. *)
Definition wait_predicate (s : state) : bool := (0 <? queue_size s) || stopped s.

(** ** Steps *)

(** One step of worker [i]. The queue may answer "empty" while it holds tasks, when a
    producer that claimed an earlier slot has not filled it yet. *)
Inductive worker_step (i : nat) : worker → state → state → Prop :=
| step_top s :
    stopped s = false → worker_step i WTop s (set_worker s i (WCollect []))
| step_return s :
    stopped s = true → worker_step i WTop s (set_worker s i WDone)
| step_collect s b :
    is_full b = false → stopped s = false →
    worker_step i (WCollect b) s (set_worker s i (WPop b))
| step_collected s b :
    is_full b || stopped s = true → worker_step i (WCollect b) s (set_worker s i (WAfter b))
| step_pop s b t q :
    queue s = t :: q →
    worker_step i (WPop b) s (set_worker (popped_task s q t) i (WCount (b ++ [t])))
| step_none s :
    worker_step i (WPop []) s (set_worker s i (WAfter []))
| step_pause s b :
    b ≠ [] → worker_step i (WPop b) s (set_worker s i (WCollect b))
| step_delay_over s b :
    b ≠ [] → worker_step i (WPop b) s (set_worker s i (WAfter b))
| step_count s b :
    worker_step i (WCount b) s (set_worker (set_queue_size s (queue_size s - 1)) i (WCollect b))
| step_idle s :
    worker_step i (WAfter []) s (set_worker s i WLock)
| step_lock s :
    locked s = false → worker_step i WLock s (set_worker (set_locked s true) i WPred)
| step_no_wait s :
    wait_predicate s = true → worker_step i WPred s (set_worker (set_locked s false) i WTop)
| step_wait s :
    wait_predicate s = false → worker_step i WPred s (set_worker s i WBlock)
| step_block s :
    worker_step i WBlock s (set_worker (set_locked s false) i WWait)
| step_relock s :
    locked s = false → worker_step i WWake s (set_worker (set_locked s true) i WPred)
| step_execute s b :
    b ≠ [] → model_ready s = true →
    worker_step i (WAfter b) s (set_worker s i (WAnswer b (infer_batch (req <$> b))))
| step_unavailable s b :
    b ≠ [] → model_ready s = false → worker_step i (WAfter b) s (set_worker s i (WRefuse b))
| step_answer s t b r rs wait exec :
    worker_step i (WAnswer (t :: b) (r :: rs)) s
      (set_worker (set_value s t (instrument t r wait exec) (count_result (counters s) r)
                     (record (latency_hist s) (latency_ns r))) i (WAnswer b rs))
| step_out_of_range s t b :
    worker_step i (WAnswer (t :: b) []) s (set_worker s i (WUndefined (t :: b)))
| step_answered s rs :
    worker_step i (WAnswer [] rs) s (set_worker s i WTop)
| step_refuse s t b :
    worker_step i (WRefuse (t :: b)) s
      (set_worker (set_value s t (error_response (txt "backend unavailable")) (counters s)
                     (latency_hist s)) i (WRefuse b))
| step_refused s :
    worker_step i (WRefuse []) s (set_worker s i WTop).

(** One step of caller [j]. [notify_one] wakes any one blocked worker. *)
Inductive caller_step (j : nat) : caller → state → state → Prop :=
| step_call s r routing :
    caller_step j CIdle s (set_caller (issue s r) j (CReady (new_task s r routing)))
| step_not_ready s t :
    model_ready s = false →
    caller_step j (CReady t) s
      (set_caller (set_value s t (error_response (txt "model not ready: " ++ Types.model_id (req t)))
                     (counters s) (latency_hist s)) j CIdle)
| step_ready s t :
    model_ready s = true → caller_step j (CReady t) s (set_caller s j (CLoop t))
| step_refused_stopped s t :
    stopped s = true →
    caller_step j (CLoop t) s
      (set_caller (set_value s t (error_response (txt "executor stopped")) (counters s)
                     (latency_hist s)) j CIdle)
| step_running s t :
    stopped s = false → caller_step j (CLoop t) s (set_caller s j (CTry t))
| step_push s t :
    (length (queue s) < queue_capacity)%nat →
    caller_step j (CTry t) s (set_caller (pushed_task s t) j CCount)
| step_full s t :
    caller_step j (CTry t) s (set_caller s j (CFull t))
| step_timeout s t :
    caller_step j (CFull t) s
      (set_caller (set_value s t
          (error_response (txt "queue full timeout for model: " ++ Types.model_id (req t)))
          (count_timeout (counters s)) (latency_hist s)) j CIdle)
| step_retry s t :
    caller_step j (CFull t) s (set_caller s j (CLoop t))
| step_counted s :
    caller_step j CCount s (set_caller (set_queue_size s (queue_size s + 1)) j CNotify)
| step_notify s i :
    workers s !! i = Some WWait →
    caller_step j CNotify s (set_caller (set_worker s i WWake) j CIdle)
| step_notify_nobody s :
    WWait ∉ workers s → caller_step j CNotify s (set_caller s j CIdle).

(** One step of the thread in [stop]. *)
Inductive stop_step : stopper → state → state → Prop :=
| step_stop s :
    stopped s = false → stop_step SIdle s (set_stop s true SLock)
| step_barrier s :
    locked s = false → stop_step SLock s (set_stop s (stopped s) SNotify)
| step_notify_all s :
    stop_step SNotify s (set_stop (wake_all s) (stopped s) SJoin)
| step_join s :
    Forall (λ w, w = WDone) (workers s) →
    stop_step SJoin s (set_stop (clear_workers s) (stopped s) SDone).

(** The executor and what happens around it: the model becomes ready or not, and a
    blocked worker may be woken for no reason. *)
Inductive step (s s' : state) : Prop :=
| worker_moves i w : workers s !! i = Some w → worker_step i w s s' → step s s'
| caller_moves j c : callers s !! j = Some c → caller_step j c s s' → step s s'
| stop_moves : stop_step (stop_thread s) s s' → step s s'
| model_changes b : s' = set_ready s b → step s s'
| spurious_wakeup i : workers s !! i = Some WWait → s' = set_worker s i WWake → step s s'.

(** ** What is where *)

Definition worker_tasks (w : worker) : list Task :=
  match w with
  | WCollect b | WPop b | WCount b | WAfter b | WAnswer b _ | WRefuse b | WUndefined b => b
  | _ => []
  end.

Definition caller_tasks (c : caller) : list Task :=
  match c with CReady t | CLoop t | CTry t | CFull t => [t] | _ => [] end.

Definition worker_ids (w : worker) : list nat := promise <$> worker_tasks w.

Definition caller_ids (c : caller) : list nat := promise <$> caller_tasks c.

(** Every promise that somebody holds or that was given a value. *)
Definition places (s : state) : list nat :=
  concat (caller_ids <$> callers s) ++ (promise <$> queue s) ++
  concat (worker_ids <$> workers s) ++ (answers s).*1.

(** Workers between a pop and its decrement, callers between a push and its
    increment, workers holding [cv_mu_]. *)
Definition uncounted_pop (w : worker) : list nat := match w with WCount _ => [0%nat] | _ => [] end.

Definition uncounted_push (c : caller) : list nat := match c with CCount => [0%nat] | _ => [] end.

Definition in_lock (w : worker) : list nat := match w with WPred | WBlock => [0%nat] | _ => [] end.

Definition batch_ok (w : worker) : Prop :=
  match w with
  | WPop b => Z.of_nat (length b) < max_batch_size
  | WAnswer b rs => Z.of_nat (length b) <= max_batch_size
  | w => Z.of_nat (length (worker_tasks w)) <= max_batch_size
  end.

Record executor_ok (s : state) : Prop := {
  ok_places : ∀ id, occ id (places s) = if decide (id < length (calls s))%nat then 1%nat else 0%nat;
  ok_batches : Forall batch_ok (workers s);
  ok_fifo : pushes s = pops s ++ queue s;
  ok_capacity : (length (queue s) <= queue_capacity)%nat;
  ok_size : queue_size s = Z.of_nat (length (queue s))
              + Z.of_nat (occ 0%nat (concat (uncounted_pop <$> workers s)))
              - Z.of_nat (occ 0%nat (concat (uncounted_push <$> callers s)));
  ok_lock : occ 0%nat (concat (in_lock <$> workers s)) = if locked s then 1%nat else 0%nat }.

(** ** The invariant *)

Lemma executor_ok_init s : 0 <= max_batch_size → initial s → executor_ok s.
Proof.
  intros Hm (n & c & ->). split; simpl; rewrite ?list_fmap_nil; simpl.
  - intros id. unfold places; simpl. rewrite !occ_app. rewrite !occ_replicate by done. simpl.
    repeat case_match; (done || lia).
  - apply Forall_replicate. simpl. lia.
  - done.
  - lia.
  - rewrite !occ_replicate by done. done.
  - by rewrite occ_replicate.
Qed.

Lemma ids_app (a b : list Task) : promise <$> a ++ b = (promise <$> a) ++ (promise <$> b).
Proof. apply fmap_app. Qed.

(** The counts before and after the move of one worker or caller. *)
Ltac count_move Hi f id :=
  match type of Hi with
  | ?l !! ?i = Some ?w =>
      match goal with
      | |- context [concat (f <$> <[i := ?w']> l)] => pose proof (occ_fmap_insert f id l i w w' Hi)
      end
  end.

Ltac place_counts Hi :=
  let id := fresh "id" in
  intros id; match goal with H : ∀ id, occ id (places _) = _ |- _ => specialize (H id) end;
  unfold places in *; simpl in *;
  try match goal with Hq : queue _ = _ :: _, H : occ _ _ = _ |- _ => rewrite Hq in H; simpl in H end;
  first [count_move Hi worker_ids id | count_move Hi caller_ids id];
  unfold worker_ids, caller_ids in *; simpl in *;
  rewrite ?fmap_app, ?occ_app in *; simpl in *;
  change (list_fmap Task nat promise) with (fmap (M:=list) promise) in *;
  rewrite ?occ_app, ?length_app in *; simpl in *; repeat case_decide; lia.

Ltac size_counts Hi :=
  try match goal with Hq : queue _ = _ :: _ |- _ => rewrite Hq in *; simpl in * end;
  rewrite ?length_app; simpl;
  try count_move Hi uncounted_pop 0%nat; try count_move Hi uncounted_push 0%nat;
  simpl in *; lia.

Ltac lock_counts Hi :=
  try count_move Hi in_lock 0%nat; simpl in *;
  repeat match goal with H : locked _ = _ |- _ => rewrite H in * end;
  destruct (locked _); simpl in *; (done || lia).

Ltac batch_bounds :=
  apply Forall_insert; [done|];
  unfold is_full in *; simpl in *; rewrite ?length_app in *; simpl in *; lia.

Lemma worker_step_ok s s' i w :
  0 <= max_batch_size →
  executor_ok s → workers s !! i = Some w → worker_step i w s s' → executor_ok s'.
Proof.
  intros Hm [Hp Hb Hf Hc Hs Hl] Hi Hstep.
  assert (batch_ok w) as Hw by (by eapply Forall_lookup_1).
  inversion Hstep; subst; clear Hstep.
  all: split; simpl in *.
  all: try (place_counts Hi).
  all: try (size_counts Hi).
  all: try (lock_counts Hi).
  all: try batch_bounds.
  all: try done.
  by rewrite <- app_assoc, Hf, H.
Qed.

Lemma wake_one_ok s i :
  0 <= max_batch_size →
  executor_ok s → workers s !! i = Some WWait → executor_ok (set_worker s i WWake).
Proof.
  intros Hm [Hp Hb Hf Hc Hs Hl] Hi.
  split; simpl; [place_counts Hi|batch_bounds|done|done|size_counts Hi|lock_counts Hi].
Qed.

Lemma notified_ok s j :
  executor_ok s → callers s !! j = Some CNotify → executor_ok (set_caller s j CIdle).
Proof.
  intros [Hp Hb Hf Hc Hs Hl] Hj.
  split; simpl; [place_counts Hj|done|done|done|size_counts Hj|done].
Qed.

Lemma caller_step_ok s s' j c :
  0 <= max_batch_size →
  executor_ok s → callers s !! j = Some c → caller_step j c s s' → executor_ok s'.
Proof.
  intros Hm Hok Hj Hstep. pose proof Hok as [Hp Hb Hf Hc Hs Hl].
  inversion Hstep as [| | | | | | | | | |? i Hi|]; subst; clear Hstep.
  11: { apply (notified_ok (set_worker s i WWake)); [by apply wake_one_ok|done]. }
  all: split; simpl in *; try (place_counts Hj); try (size_counts Hj); try done.
  by rewrite Hf, app_assoc.
Qed.

Lemma fmap_wake {B} (f : worker → B) (ws : list worker) :
  f WWake = f WWait → f <$> (wake <$> ws) = f <$> ws.
Proof.
  intros Hf. rewrite <- list_fmap_compose. apply list_fmap_ext. intros i w _.
  by destruct w.
Qed.

Lemma concat_done (f : worker → list nat) (ws : list worker) :
  f WDone = [] → Forall (λ w, w = WDone) ws → concat (f <$> ws) = [].
Proof. intros Hf. induction 1 as [|w ws -> _ IH]; [done|]. simpl. by rewrite Hf. Qed.

Lemma stop_step_ok s s' :
  0 <= max_batch_size → executor_ok s → stop_step (stop_thread s) s s' → executor_ok s'.
Proof.
  intros Hm [Hp Hb Hf Hc Hs Hl] Hstep.
  inversion Hstep as [|?|?|? Hd]; subst; clear Hstep; split; simpl in *; try done.
  - intros id. specialize (Hp id). unfold places in *; simpl. by rewrite fmap_wake.
  - apply Forall_fmap, (Forall_impl _ _ _ Hb). by intros [].
  - by rewrite fmap_wake.
  - by rewrite fmap_wake.
  - intros id. specialize (Hp id). unfold places in *; simpl in *.
    by rewrite (concat_done worker_ids) in Hp.
  - by rewrite (concat_done uncounted_pop) in Hs.
  - by rewrite (concat_done in_lock) in Hl.
Qed.

Lemma executor_reachable_ok s :
  0 <= max_batch_size → reachable initial step s → executor_ok s.
Proof.
  intros Hm. apply reachable_ind'; [by intros; apply executor_ok_init|].
  intros s1 s2 _ Hok [i w Hi Hs|j c Hj Hs|Hs|b ->|i Hi ->].
  - by eapply worker_step_ok.
  - by eapply caller_step_ok.
  - by apply stop_step_ok in Hs.
  - by destruct Hok; split.
  - by apply wake_one_ok.
Qed.

(** ** What the answers say *)

Definition known (calls : list InferenceRequest) (t : Task) : Prop :=
  calls !! promise t = Some (req t).

(** [r] answers call [id]: the backend's response for its request, at its place in a
    batch of at most [max_batch_size] calls, or one of the four refusals. *)
Definition justified (calls : list InferenceRequest) (id : nat) (r : InferenceResponse) : Prop :=
  ∃ t, promise t = id ∧ calls !! id = Some (req t) ∧
    ((∃ b k r0 wait exec, b !! k = Some t ∧ Z.of_nat (length b) <= max_batch_size ∧
        Forall (known calls) b ∧
        infer_batch (req <$> b) !! k = Some r0 ∧ r = instrument t r0 wait exec) ∨
     r ∈ [error_response (txt "backend unavailable");
          error_response (txt "model not ready: " ++ Types.model_id (req t));
          error_response (txt "executor stopped");
          error_response (txt "queue full timeout for model: " ++ Types.model_id (req t))]).

(** What is left to answer of an executed batch, and with what. *)
Definition in_step (calls : list InferenceRequest) (w : worker) : Prop :=
  match w with
  | WAnswer todo rs => ∃ b k, todo = drop k b ∧ rs = drop k (infer_batch (req <$> b)) ∧
                              Z.of_nat (length b) <= max_batch_size ∧ Forall (known calls) b
  | _ => True
  end.

Record answers_ok (s : state) : Prop := {
  ok_known_queue : Forall (known (calls s)) (queue s);
  ok_known_workers : Forall (λ w, Forall (known (calls s)) (worker_tasks w)) (workers s);
  ok_known_callers : Forall (λ c, Forall (known (calls s)) (caller_tasks c)) (callers s);
  ok_in_step : Forall (in_step (calls s)) (workers s);
  ok_justified : Forall (λ a, justified (calls s) a.1 a.2) (answers s) }.

Lemma answers_ok_init s : initial s → answers_ok s.
Proof.
  intros (n & c & ->). split; simpl; try done; try by apply Forall_nil.
  - by apply Forall_replicate.
  - by apply Forall_replicate.
  - by apply Forall_replicate.
Qed.

Lemma known_mono l r t : known l t → known (l ++ [r]) t.
Proof. unfold known. by apply lookup_app_l_Some. Qed.

Lemma justified_mono l r id a : justified l id a → justified (l ++ [r]) id a.
Proof.
  intros (t & ? & ? & Hj). exists t. split; [done|]. split; [by apply lookup_app_l_Some|].
  destruct Hj as [(b & k & r0 & wait & exec & ? & ? & Hb & ?)|?]; [left|by right].
  exists b, k, r0, wait, exec. split_and!; try done; [|naive_solver..].
  apply (Forall_impl _ _ _ Hb). intros. by apply known_mono.
Qed.

Lemma in_step_mono l r w : in_step l w → in_step (l ++ [r]) w.
Proof.
  destruct w; try done. intros (b & k & ? & ? & ? & Hb). exists b, k. split_and!; try done.
  apply (Forall_impl _ _ _ Hb). intros. by apply known_mono.
Qed.

Lemma answers_ok_call s r : answers_ok s → answers_ok (issue s r).
Proof.
  intros [Hq Hw Hc Hs Ha]. split; simpl; try done.
  - apply (Forall_impl _ _ _ Hq). intros. by apply known_mono.
  - apply (Forall_impl _ _ _ Hw). intros w Hk. apply (Forall_impl _ _ _ Hk).
    intros. by apply known_mono.
  - apply (Forall_impl _ _ _ Hc). intros c Hk. apply (Forall_impl _ _ _ Hk).
    intros. by apply known_mono.
  - apply (Forall_impl _ _ _ Hs). intros. by apply in_step_mono.
  - apply (Forall_impl _ _ _ Ha). intros. by apply justified_mono.
Qed.

Lemma refused_justified l t e :
  known l t →
  e ∈ [error_response (txt "backend unavailable");
       error_response (txt "model not ready: " ++ Types.model_id (req t));
       error_response (txt "executor stopped");
       error_response (txt "queue full timeout for model: " ++ Types.model_id (req t))] →
  justified l (promise t) e.
Proof. intros Hk He. exists t. split; [done|]. split; [done|]. by right. Qed.

Lemma answered_justified s i t b r rs wait exec :
  executor_ok s → answers_ok s → workers s !! i = Some (WAnswer (t :: b) (r :: rs)) →
  justified (calls s) (promise t) (instrument t r wait exec) ∧ in_step (calls s) (WAnswer b rs).
Proof.
  intros Hok [_ Hw _ Hs _] Hi.
  pose proof (Forall_lookup_1 _ _ _ _ Hw Hi) as Hk. apply Forall_cons in Hk as [Hk _].
  pose proof (Forall_lookup_1 _ _ _ _ Hs Hi) as (b0 & k & Hb & Hr & Hn & Hkn).
  split.
  - exists t. split; [done|]. split; [done|]. left. exists b0, k, r, wait, exec.
    split; [|split; [done|split; [done|split; [|done]]]].
    + by rewrite <- (Nat.add_0_r k), <- lookup_drop, <- Hb.
    + by rewrite <- (Nat.add_0_r k), <- lookup_drop, <- Hr.
  - exists b0, (S k). split; [|split; [|done]].
    + by rewrite <- Nat.add_1_r, <- drop_drop, <- Hb.
    + by rewrite <- Nat.add_1_r, <- drop_drop, <- Hr.
Qed.

Lemma answers_ok_worker s i w :
  answers_ok s → Forall (known (calls s)) (worker_tasks w) → in_step (calls s) w →
  answers_ok (set_worker s i w).
Proof. intros [] ? ?. split; simpl; try done; by apply Forall_insert. Qed.

Lemma answers_ok_caller s j c :
  answers_ok s → Forall (known (calls s)) (caller_tasks c) → answers_ok (set_caller s j c).
Proof. intros [] ?. split; simpl; try done; by apply Forall_insert. Qed.

Lemma answers_ok_value s t r m h :
  answers_ok s → justified (calls s) (promise t) r → answers_ok (set_value s t r m h).
Proof.
  intros [] ?. split; simpl; try done. apply Forall_app. split; [done|by apply Forall_singleton].
Qed.

Lemma answers_ok_shared s q n l :
  answers_ok s → Forall (known (calls s)) q → answers_ok (set_shared s q n l).
Proof. intros [] ?. by split. Qed.

Lemma answers_ok_worker_step s s' i w :
  executor_ok s → answers_ok s → workers s !! i = Some w → worker_step i w s s' →
  answers_ok s'.
Proof.
  intros Hok Hans Hiw Hs. pose proof Hans as [Hq Hw Hc Hi Ha].
  pose proof (Forall_lookup_1 _ _ _ _ Hw Hiw) as Hkw. simpl in Hkw.
  pose proof (Forall_lookup_1 _ _ _ _ Hi Hiw) as Hsw.
  assert (batch_ok w) as Hb by (destruct Hok; by eapply Forall_lookup_1).
  inversion Hs as [| | | |? b t q Hqs| | | | | | | | | | | | |? t b r rs wait exec| | |? t b|];
    subst; clear Hs; simpl in *.
  all: try (apply answers_ok_worker; [done|done|done]).
  all: try (apply answers_ok_worker; [by apply answers_ok_shared|done|done]).
  - rewrite Hqs in Hq. apply Forall_cons in Hq as [Ht Hq].
    apply answers_ok_worker; [by split|simpl; apply Forall_app; split; [done|by apply Forall_singleton]|done].
  - apply answers_ok_worker; [done|done|]. simpl. by eexists _, 0%nat.
  - apply Forall_cons in Hkw as [Ht Hb'].
    destruct (answered_justified s i t b r rs wait exec Hok Hans Hiw) as [Hj Hstep].
    apply answers_ok_worker; [by apply answers_ok_value|done|done].
  - apply Forall_cons in Hkw as [Ht Hb'].
    apply answers_ok_worker; [|done|done]. apply answers_ok_value; [done|].
    apply refused_justified; [done|]. by left.
Qed.

Lemma answers_ok_caller_step s s' j c :
  answers_ok s → callers s !! j = Some c → caller_step j c s s' → answers_ok s'.
Proof.
  intros Hans Hj Hs. pose proof Hans as [Hq Hw Hc Hi Ha].
  pose proof (Forall_lookup_1 _ _ _ _ Hc Hj) as Hk. simpl in Hk.
  inversion Hs as [? r rt|? t|? t|? t|? t|? t|? t|? t|? t| |? i Hiw|]; subst; clear Hs; simpl in *.
  all: try (apply answers_ok_caller; [done|done]).
  all: try (apply Forall_cons in Hk as [Ht _]).
  all: try (apply answers_ok_caller; [apply answers_ok_value; [done|];
              apply refused_justified; [done|repeat first [by left|right]]|done]).
  - apply answers_ok_caller; [by apply answers_ok_call|]. apply Forall_singleton.
    unfold known; simpl. by rewrite lookup_app_r, Nat.sub_diag.
  - apply answers_ok_caller; [|done].
    split; simpl; try done. apply Forall_app; split; [done|by apply Forall_singleton].
  - apply answers_ok_caller; [|done]. by apply answers_ok_worker.
Qed.

Lemma answers_ok_stop_step s s' : answers_ok s → stop_step (stop_thread s) s s' → answers_ok s'.
Proof.
  intros [Hq Hw Hc Hi Ha] Hs.
  inversion Hs as [|?|?|? Hd]; subst; clear Hs; split; simpl in *; try done.
  - apply Forall_fmap, (Forall_impl _ _ _ Hw). by intros [].
  - apply Forall_fmap, (Forall_impl _ _ _ Hi). by intros [].
Qed.

Lemma executor_reachable_answers s :
  0 <= max_batch_size → reachable initial step s → answers_ok s.
Proof.
  intros Hm. apply reachable_ind'; [by intros; apply answers_ok_init|].
  intros s1 s2 Hr Hok [i w Hi Hs|j c Hj Hs|Hs|b ->|i Hi ->].
  - eapply answers_ok_worker_step; [by apply executor_reachable_ok|done|done|done].
  - by eapply answers_ok_caller_step.
  - by apply answers_ok_stop_step in Hs.
  - by destruct Hok; split.
  - by apply answers_ok_worker.
Qed.

(** ** Stopping *)

Record stop_ok (s : state) : Prop := {
  ok_stopped : stopped s = false ↔ stop_thread s = SIdle;
  ok_no_block : stop_thread s = SNotify ∨ stop_thread s = SJoin → WBlock ∉ workers s;
  ok_no_wait : stop_thread s = SJoin → WWait ∉ workers s }.

Lemma not_elem_insert {W} (x y : W) (l : list W) i : x ∉ l → y ≠ x → x ∉ <[i := y]> l.
Proof.
  intros Hx Hy [j Hj]%list_elem_of_lookup.
  apply list_lookup_insert_Some in Hj as [(_ & ? & _)|[_ Hj]]; [done|].
  apply Hx. by apply list_elem_of_lookup_2 in Hj.
Qed.

Lemma unlocked_no_block s : executor_ok s → locked s = false → WBlock ∉ workers s.
Proof.
  intros [_ _ _ _ _ Hl] Hf Hin. rewrite Hf in Hl.
  assert (0%nat ∈ concat (in_lock <$> workers s)) as H0.
  { apply list_elem_of_lookup in Hin as [i Hi]. apply list_elem_of_In, in_concat.
    exists [0%nat]. split; [|by left]. apply list_elem_of_In, list_elem_of_fmap.
    exists WBlock. split; [done|]. by eapply list_elem_of_lookup_2. }
  apply occ_elem in H0. lia.
Qed.

Lemma worker_step_shape s s' i w :
  worker_step i w s s' →
  ∃ w', workers s' = <[i := w']> (workers s) ∧ stopped s' = stopped s ∧
        stop_thread s' = stop_thread s ∧ callers s' = callers s ∧
        (w' = WWait → w = WBlock) ∧ (w' = WBlock → wait_predicate s = false).
Proof. destruct 1; eexists; (split_and!; [reflexivity|done..]). Qed.

Lemma caller_step_shape s s' j c :
  caller_step j c s s' →
  stopped s' = stopped s ∧ stop_thread s' = stop_thread s ∧
  (workers s' = workers s ∨ ∃ i, workers s !! i = Some WWait ∧ workers s' = <[i := WWake]> (workers s)).
Proof. destruct 1; split_and!; eauto. Qed.

Lemma wait_not_woken (ws : list worker) : WWait ∉ wake <$> ws.
Proof. intros ([] & ? & _)%list_elem_of_fmap; done. Qed.

Lemma block_not_woken (ws : list worker) : WBlock ∉ ws → WBlock ∉ wake <$> ws.
Proof. intros H ([] & ? & ?)%list_elem_of_fmap; done. Qed.

Lemma stop_ok_step s s' : executor_ok s → stop_ok s → step s s' → stop_ok s'.
Proof.
  intros Hok [Hs Hb Hw] [i w Hi Hst|j c Hj Hst|Hst|b ->|i Hi ->].
  - destruct (worker_step_shape _ _ _ _ Hst) as (w' & Hws & Hss & Hth & _ & Hwait & Hblock).
    split; rewrite Hth, ?Hss, ?Hws; [done| |].
    + intros H. apply not_elem_insert; [by apply Hb|]. intros ->.
      specialize (Hblock eq_refl). unfold wait_predicate in Hblock.
      destruct (stopped s) eqn:E; [by rewrite orb_true_r in Hblock|].
      destruct H as [H|H]; rewrite H in Hs; by destruct Hs as [Hs _]; specialize (Hs eq_refl).
    + intros H. apply not_elem_insert; [by apply Hw|]. intros ->.
      apply (Hb (or_intror H)). rewrite (Hwait eq_refl) in Hi.
      by eapply list_elem_of_lookup_2.
  - destruct (caller_step_shape _ _ _ _ Hst) as (Hss & Hth & Hws).
    split; rewrite ?Hth, ?Hss; [done| |]; intros H;
      destruct Hws as [->|(i & Hi & ->)]; try apply not_elem_insert; auto.
  - inversion Hst as [? Ht Hd|? Hl Ht|? Ht|? Hd Ht]; subst; split; simpl in *; try done;
      rewrite <- ?Ht in *.
    + by intros [].
    + by destruct Hs as [Hs1 _]; split; [intros H0; specialize (Hs1 H0)|].
    + intros _. by apply unlocked_no_block.
    + by destruct Hs as [Hs1 _]; split; [intros H0; specialize (Hs1 H0)|].
    + intros _. apply block_not_woken. apply Hb. by left.
    + intros _. apply wait_not_woken.
    + by destruct Hs as [Hs1 _]; split; [intros H0; specialize (Hs1 H0)|].
    + by intros [].
  - by split.
  - split; simpl; [done| |]; intros H; apply not_elem_insert; auto.
Qed.

Lemma executor_reachable_stop s : 0 <= max_batch_size → reachable initial step s → stop_ok s.
Proof.
  intros Hm. apply reachable_ind'.
  - intros s0 (n & c & ->). split; simpl; [done|by intros []|done].
  - intros s1 s2 Hr Hok Hs. eapply stop_ok_step; [|done|done].
    by apply executor_reachable_ok.
Qed.

(** How many steps a worker still has once the executor is stopped. *)
Definition weight (w : worker) : nat :=
  match w with
  | WDone | WUndefined _ => 0
  | WTop => 1
  | WPred => 2
  | WLock | WWake => 3
  | WBlock => 5
  | WWait => 4
  | WAnswer b _ | WRefuse b => 2 + length b
  | WAfter b => 4 + length b
  | WCollect b => 5 + length b
  | WCount b => 6 + length b
  | WPop b => 8 + length b
  end.

Definition work (s : state) : nat := sum_list (weight <$> workers s).

Lemma sum_list_insert (ws : list worker) i w w' :
  ws !! i = Some w →
  (sum_list (weight <$> <[i := w']> ws) + weight w = sum_list (weight <$> ws) + weight w')%nat.
Proof.
  revert i. induction ws as [|x ws IH]; intros [|i] H; simpl in *; try done.
  - simplify_eq. lia.
  - specialize (IH i H). unfold fmap in *. lia.
Qed.

Lemma worker_step_lighter s s' i w w' :
  stopped s = true → WBlock ≠ w' → worker_step i w s s' → workers s !! i = Some w →
  workers s' = <[i := w']> (workers s) → (weight w' < weight w)%nat.
Proof.
  intros Hst Hnb Hs Hi Hw.
  assert (∀ x, <[i := x]> (workers s) = <[i := w']> (workers s) → x = w') as Hinj.
  { intros x Hx. assert (i < length (workers s))%nat by by eapply lookup_lt_Some.
    assert (<[i := x]> (workers s) !! i = Some w') as H0
      by by rewrite Hx, list_lookup_insert_eq.
    rewrite list_lookup_insert_eq in H0 by done. congruence. }
  destruct Hs; simpl in *; apply Hinj in Hw; subst; simpl; rewrite ?length_app;
    simpl; try lia; try congruence.
Qed.

Definition enough (w : worker) : Prop :=
  match w with
  | WAnswer b rs => (length b <= length rs)%nat
  | WUndefined _ => False
  | _ => True
  end.

Lemma executor_reachable_enough s :
  (∀ reqs, length reqs <= length (infer_batch reqs))%nat →
  reachable initial step s → Forall enough (workers s).
Proof.
  intros Hlen. revert s. apply (reachable_ind' initial step (λ s, Forall enough (workers s)));
    [intros s0 (n & c & ->); by apply Forall_replicate|].
  intros s1 s2 _ Hok [i w Hi Hs|j c Hj Hs|Hs|b ->|i Hi ->].
  - pose proof (Forall_lookup_1 _ _ _ _ Hok Hi) as Hw.
    inversion Hs; subst; simpl in *; (apply Forall_insert; [done|]; simpl; try done); try lia.
    specialize (Hlen (req <$> b)). by rewrite length_fmap in Hlen.
  - destruct (caller_step_shape _ _ _ _ Hs) as (_ & _ & [->|(i & Hi & ->)]); [done|].
    by apply Forall_insert.
  - inversion Hs; subst; simpl in *; try done.
    apply Forall_fmap, (Forall_impl _ _ _ Hok). by intros [].
  - done.
  - by apply Forall_insert.
Qed.

(** A stopped executor's worker that has not returned can move, unless the lock is
    taken. *)
Lemma stopped_worker_moves s i w :
  stopped s = true → enough w → w ∉ [WDone; WBlock; WWait] →
  (w ∈ [WLock; WWake] → locked s = false) → ∃ s', worker_step i w s s'.
Proof.
  intros Hst He Hw Hl. rewrite list_elem_of_In in Hw. simpl in Hw.
  destruct w as [|b|b|b|b| | | | | |b rs|b|b|]; try (exfalso; tauto).
  - eexists. by apply step_return.
  - eexists. apply step_collected. by rewrite Hst, orb_true_r.
  - destruct b as [|t b]; eexists; [apply step_none|by apply step_delay_over].
  - eexists. apply step_count.
  - destruct b as [|t b]; [eexists; apply step_idle|].
    destruct (model_ready s) eqn:E; eexists; [by apply step_execute|by apply step_unavailable].
  - eexists. apply step_lock, Hl. by left.
  - eexists. apply step_no_wait. unfold wait_predicate. by rewrite Hst, orb_true_r.
  - eexists. apply step_relock, Hl. by right; left.
  - destruct b as [|t b], rs as [|r rs]; simpl in He; try lia; eexists;
      first [eapply (step_answer _ _ _ _ _ _ 0 0)|apply step_answered].
  - destruct b; eexists; [apply step_refused|apply step_refuse].
Qed.

Lemma locked_holder s :
  executor_ok s → locked s = true → ∃ i w, workers s !! i = Some w ∧ w ∈ [WPred; WBlock].
Proof.
  intros [_ _ _ _ _ Hl] Ht. rewrite Ht in Hl.
  assert (0%nat ∈ concat (in_lock <$> workers s)) as H0 by (apply occ_elem; lia).
  apply list_elem_of_In, in_concat in H0 as (l & Hin & Hl0).
  apply list_elem_of_In, list_elem_of_fmap in Hin as (w & -> & Hw).
  apply list_elem_of_lookup in Hw as [i Hi]. exists i, w. split; [done|].
  apply list_elem_of_In. simpl. destruct w; simpl in Hl0; tauto.
Qed.

Lemma unanswered s t :
  executor_ok s → t ∈ queue s → promise t ∉ (answers s).*1.
Proof.
  intros [Hp _ _ _ _ _] Hin Ha. specialize (Hp (promise t)).
  assert (0 < occ (promise t) (promise <$> queue s))%nat.
  { apply occ_elem, list_elem_of_fmap. by exists t. }
  assert (0 < occ (promise t) (answers s).*1)%nat by by apply occ_elem.
  unfold places in Hp. rewrite !occ_app in Hp. case_decide; lia.
Qed.

(** With every worker gone, nothing is taken out of the queue. *)
Lemma abandoned_step s s' t :
  Forall (λ w, w = WDone) (workers s) → t ∈ queue s → step s s' →
  Forall (λ w, w = WDone) (workers s') ∧ t ∈ queue s'.
Proof.
  intros Hd Ht Hs.
  assert (∀ i w, workers s !! i = Some w → w = WDone) as Hw
    by (intros i w Hi; exact (Forall_lookup_1 _ _ _ _ Hd Hi)).
  destruct Hs as [i w Hi Hs|j c Hj Hs|Hs|b ->|i Hi ->].
  - rewrite (Hw _ _ Hi) in Hs. inversion Hs.
  - destruct Hs as [| | | | | | | | | |? i Hi|]; simpl; try done; [set_solver|].
    by specialize (Hw _ _ Hi).
  - inversion Hs; subst; simpl in *; [done|done| |by split; [apply Forall_nil|]].
    split; [|done]. apply Forall_fmap, (Forall_impl _ _ _ Hd). by intros ? ->.
  - done.
  - by specialize (Hw _ _ Hi).
Qed.

Lemma abandoned_run s s' t :
  rtc step s s' → Forall (λ w, w = WDone) (workers s) → t ∈ queue s →
  t ∈ queue s'.
Proof.
  induction 1 as [|s1 s2 s3 Hs _ IH]; [done|]. intros Hd Ht.
  destruct (abandoned_step _ _ _ Hd Ht Hs). auto.
Qed.

(** A batch size of 0 keeps the queue from ever being popped. *)
Lemma zero_batch_never_pops s :
  max_batch_size = 0 → reachable initial step s → pops s = [].
Proof.
  intros Hm Hr. pose proof (executor_reachable_ok) as Hok. revert s Hr.
  apply (reachable_ind' initial step (λ s, pops s = [])); [by intros s (n & c & ->)|].
  intros s1 s2 Hr IH [i w Hi Hs|j c Hj Hs|Hs|b ->|i Hi ->].
  - destruct Hs; simpl; try done. destruct (Hok s) as [_ Hb _ _ _ _]; [lia|done|].
    pose proof (Forall_lookup_1 _ _ _ _ Hb Hi) as H0. simpl in H0. lia.
  - by destruct Hs.
  - by destruct Hs.
  - done.
  - done.
Qed.

Lemma stopped_worker_work s s' i w :
  stopped s = true → workers s !! i = Some w → worker_step i w s s' →
  (work s' < work s)%nat.
Proof.
  intros Hst Hi Hs.
  destruct (worker_step_shape _ _ _ _ Hs) as (w' & Hws & _ & _ & _ & _ & Hblock).
  assert (WBlock ≠ w') as Hnb.
  { intros <-. specialize (Hblock eq_refl). unfold wait_predicate in Hblock.
    by rewrite Hst, orb_true_r in Hblock. }
  pose proof (worker_step_lighter _ _ _ _ _ Hst Hnb Hs Hi Hws).
  pose proof (sum_list_insert _ _ _ w' Hi). unfold work. rewrite Hws. lia.
Qed.

Lemma stopped_step_work s s' :
  stopped s = true → step s s' → (work s' <= work s)%nat.
Proof.
  intros Hst [i w Hi Hs|j c Hj Hs|Hs|b ->|i Hi ->].
  - pose proof (stopped_worker_work _ _ _ _ Hst Hi Hs). lia.
  - destruct (caller_step_shape _ _ _ _ Hs) as (_ & _ & [Hw|(i & Hi & Hw)]);
      unfold work; rewrite Hw; [done|].
    pose proof (sum_list_insert _ _ _ WWake Hi) as H. simpl in H. lia.
  - unfold work. destruct Hs; simpl; try lia.
    induction (workers s) as [|w ws IH]; simpl; [done|]. unfold fmap in *.
    destruct w; simpl; lia.
  - done.
  - pose proof (sum_list_insert _ _ _ WWake Hi) as H. simpl in H. unfold work; simpl. lia.
Qed.

Definition is_done (w : worker) : Prop := match w with WDone => True | _ => False end.

#[local] Instance is_done_dec w : Decision (is_done w).
Proof. destruct w; simpl; apply _. Defined.

(** While [stop] joins, either all workers have returned or one can move. *)
Lemma joining_moves s :
  executor_ok s → stop_ok s → Forall enough (workers s) → stop_thread s = SJoin →
  Forall (λ w, w = WDone) (workers s) ∨
  ∃ i w s', workers s !! i = Some w ∧ worker_step i w s s'.
Proof.
  intros Hok [Hs Hb Hw] He Hj.
  assert (stopped s = true) as Hst.
  { destruct (stopped s) eqn:E; [done|]. destruct Hs as [Hs _]. by rewrite Hs in Hj. }
  assert (∀ i w, workers s !! i = Some w → w ≠ WDone → (w ∈ [WLock; WWake] → locked s = false) →
            ∃ s', worker_step i w s s') as Hmove.
  { intros i w Hi Hd Hl. apply stopped_worker_moves; [done|by eapply Forall_lookup_1| |done].
    pose proof (list_elem_of_lookup_2 _ _ _ Hi) as Hin. intros H. apply list_elem_of_In in H.
    destruct H as [<-|[<-|[<-|[]]]]; [done|by apply (Hb (or_intror Hj))|by apply (Hw Hj)]. }
  destruct (decide (Forall is_done (workers s))) as [H0|H0].
  - left. apply (Forall_impl _ _ _ H0). by intros [].
  - right. apply not_Forall_Exists in H0; [|apply _]. apply Exists_exists in H0 as (w & Hin & Hd).
    apply list_elem_of_lookup in Hin as [i Hi].
    assert (w ≠ WDone) as Hnd by (intros ->; by apply Hd).
    destruct (locked s) eqn:El.
    + destruct (locked_holder s Hok El) as (k & v & Hk & Hv).
      apply list_elem_of_In in Hv. simpl in Hv.
      destruct (Hmove k v Hk) as [s' Hs']; [intuition congruence| |by exists k, v, s'].
      intros Hv'. apply list_elem_of_In in Hv'. simpl in Hv'. intuition congruence.
    + destruct (Hmove i w Hi Hnd) as [s' Hs']; [done|]. by exists i, w, s'.
Qed.

End executor.

(** ** Concrete runs *)

(** One step of a concrete run: [kind] says who moves, [t] how. *)
Ltac worker_run t := eapply rtc_l; [eapply (worker_moves _ _ _ _ 0%nat); [reflexivity|t]|].
Ltac caller_run t := eapply rtc_l; [eapply (caller_moves _ _ _ _ 0%nat); [reflexivity|t]|].
Ltac stop_run t := eapply rtc_l; [eapply stop_moves; simpl; t|].

(** A backend that answers every request with an error, for concrete runs. *)
Definition refusing_backend (reqs : list InferenceRequest) : list InferenceResponse :=
  (λ _, error_response []) <$> reqs.

Definition some_request : InferenceRequest := {|
  Types.model_id := txt "m"; shape := [1]; input := [0]; output_capacity := 1; device := Cpu |}.

(** The task of the first call. *)
Definition first_task (r : InferenceRequest) : Task :=
  {| promise := 0; req := r; task_routing_ns := 7 |}.

(** A request that is served as a batch of its own. *)
Lemma answered_run f r r0 rest :
  f [r] = r0 :: rest →
  ∃ s, reachable initial (step 4 f) s ∧ calls s = [r] ∧
    answers s = [(0%nat, instrument (first_task r) r0 1 2)].
Proof.
  intros Hf. eexists. split.
  - eexists. split; [exists 1%nat, 1%nat; reflexivity|].
    caller_run ltac:(apply (step_call _ _ r 7)).
    caller_run ltac:(by apply step_ready).
    caller_run ltac:(by apply step_running).
    caller_run ltac:(apply step_push; simpl; unfold queue_capacity; lia).
    worker_run ltac:(by apply step_top).
    worker_run ltac:(by apply step_collect).
    worker_run ltac:(by eapply step_pop).
    worker_run ltac:(apply step_count).
    worker_run ltac:(by apply step_collect).
    worker_run ltac:(by apply step_delay_over).
    worker_run ltac:(by apply step_execute).
    simpl req. cbn [app fmap list_fmap map req new_task]. rewrite Hf.
    worker_run ltac:(apply (step_answer _ _ _ _ _ _ _ _ 1 2)).
    apply rtc_refl.
  - by split.
Qed.

Lemma answered_state : ∃ s, reachable initial (step 4 refusing_backend) s ∧
  answers s = [(0%nat, instrument (first_task some_request) (error_response []) 1 2)].
Proof.
  destruct (answered_run refusing_backend some_request (error_response []) [] eq_refl)
    as (s & ? & _ & ?). by exists s.
Qed.

(** A lone worker that found the queue empty is about to block when a caller pushes,
    counts and notifies; then it blocks. *)
Lemma lost_wakeup_run m f :
  0 < m →
  ∃ s t, reachable initial (step m f) s ∧ queue s = [t] ∧ queue_size s = 1 ∧
    stopped s = false ∧ model_ready s = true ∧ workers s = [WWait] ∧ callers s = [CIdle] ∧
    stop_thread s = SIdle ∧ answers s = [].
Proof.
  intros Hm. assert (is_full m [] = false) as Hf by (by apply Z.leb_gt).
  eexists _, _. split.
  - eexists. split; [exists 1%nat, 1%nat; reflexivity|].
    worker_run ltac:(by apply step_top).
    worker_run ltac:(by apply step_collect).
    worker_run ltac:(apply step_none).
    worker_run ltac:(apply step_idle).
    worker_run ltac:(by apply step_lock).
    worker_run ltac:(by apply step_wait).
    caller_run ltac:(apply (step_call _ _ some_request 0)).
    caller_run ltac:(by apply step_ready).
    caller_run ltac:(by apply step_running).
    caller_run ltac:(apply step_push; simpl; unfold queue_capacity; lia).
    caller_run ltac:(apply step_counted).
    caller_run ltac:(apply step_notify_nobody; simpl; by intros [?|?%elem_of_nil]%elem_of_cons).
    worker_run ltac:(apply step_block).
    apply rtc_refl.
  - by split_and!.
Qed.

(** A caller's task is still queued when [stop] has returned. *)
Lemma abandoned_task_run m f :
  ∃ s t, reachable initial (step m f) s ∧ stop_thread s = SDone ∧ workers s = [] ∧
    callers s = [CIdle] ∧ stopped s = true ∧ queue s = [t].
Proof.
  eexists _, _. split.
  - eexists. split; [exists 1%nat, 1%nat; reflexivity|].
    caller_run ltac:(apply (step_call _ _ some_request 0)).
    caller_run ltac:(by apply step_ready).
    caller_run ltac:(by apply step_running).
    caller_run ltac:(apply step_push; simpl; unfold queue_capacity; lia).
    caller_run ltac:(apply step_counted).
    caller_run ltac:(apply step_notify_nobody; simpl; by intros [?|?%elem_of_nil]%elem_of_cons).
    stop_run ltac:(by apply step_stop).
    stop_run ltac:(by apply step_barrier).
    stop_run ltac:(apply step_notify_all).
    worker_run ltac:(by apply step_return).
    stop_run ltac:(apply step_join; simpl; by apply Forall_singleton).
    apply rtc_refl.
  - by split_and!.
Qed.

Lemma joining_run m f :
  ∃ s, reachable initial (step m f) s ∧ stop_thread s = SJoin ∧ workers s = [WTop].
Proof.
  eexists. split.
  - eexists. split; [exists 1%nat, 1%nat; reflexivity|].
    stop_run ltac:(by apply step_stop).
    stop_run ltac:(by apply step_barrier).
    stop_run ltac:(apply step_notify_all).
    apply rtc_refl.
  - by split_and!.
Qed.

(** ** Properties *)

(** C15. However callers, workers, the stopping thread, readiness changes and spurious
    wakeups interleave: every call's promise is in exactly one place (with its caller,
    in the queue, in one worker's batch, or answered once); every answer is the
    backend's response at the task's place in a batch within [max_batch_size], for the
    very request of the call, or one of the four refusals; tasks leave the queue in
    the order they entered, at most 1024 wait, and [queue_size_] is off only by the
    pushes and pops not yet counted. *)
Theorem executor_answers_each_call_once max_batch_size infer_batch s :
  0 <= max_batch_size → reachable initial (step max_batch_size infer_batch) s →
  (∀ id, occ id (places s) = if decide (id < length (calls s))%nat then 1%nat else 0%nat) ∧
  Forall (λ a, justified max_batch_size infer_batch (calls s) a.1 a.2) (answers s) ∧
  Forall (batch_ok max_batch_size) (workers s) ∧
  pushes s = pops s ++ queue s ∧ (length (queue s) <= queue_capacity)%nat ∧
  queue_size s = Z.of_nat (length (queue s))
    + Z.of_nat (occ 0%nat (concat (uncounted_pop <$> workers s)))
    - Z.of_nat (occ 0%nat (concat (uncounted_push <$> callers s))).
Proof.
  intros Hm Hr. destruct (executor_reachable_ok _ _ _ Hm Hr).
  by destruct (executor_reachable_answers _ _ _ Hm Hr).
Qed.

(** C16. [stop] returns: once it joins, no worker is asleep or about to be, so the
    wakeup cannot be missed; either every worker has returned and the join succeeds,
    or some worker can move; every worker's move lowers [work], and no other step
    raises it. The backend must answer every request of a batch. *)
Theorem stop_returns max_batch_size infer_batch s :
  0 <= max_batch_size → (∀ reqs, length reqs <= length (infer_batch reqs))%nat →
  reachable initial (step max_batch_size infer_batch) s → stop_thread s = SJoin →
  (WBlock ∉ workers s ∧ WWait ∉ workers s) ∧
  ((∃ s', stop_step SJoin s s') ∨
   (∃ i w s', workers s !! i = Some w ∧ worker_step max_batch_size infer_batch i w s s')) ∧
  (∀ i w s', workers s !! i = Some w → worker_step max_batch_size infer_batch i w s s' →
     (work s' < work s)%nat) ∧
  (∀ s', step max_batch_size infer_batch s s' → (work s' <= work s)%nat).
Proof.
  intros Hm Hlen Hr Hj. pose proof (executor_reachable_ok _ _ _ Hm Hr) as Hok.
  pose proof (executor_reachable_enough _ _ _ Hlen Hr) as He.
  pose proof (executor_reachable_stop _ _ _ Hm Hr) as Hstop. pose proof Hstop as [Hs Hb Hw].
  assert (stopped s = true) as Hst.
  { destruct (stopped s) eqn:E; [done|]. destruct Hs as [Hs _]. by rewrite Hs in Hj. }
  split; [split; auto|]. split; [|split].
  - destruct (joining_moves _ infer_batch s Hok Hstop He Hj) as [Hd|Hmv]; [left|by right].
    eexists. by apply step_join.
  - intros i w s' Hi Hst'. by eapply stopped_worker_work.
  - intros s' Hst'. by eapply stopped_step_work.
Qed.

Lemma executor_answers_each_call_once_witness :
  ∃ s, reachable initial (step 4 refusing_backend) s ∧
    (∀ id, occ id (places s) = if decide (id < length (calls s))%nat then 1%nat else 0%nat) ∧
    Forall (λ a, justified 4 refusing_backend (calls s) a.1 a.2) (answers s).
Proof.
  destruct answered_state as (s & Hr & Ha). exists s. split; [done|].
  destruct (executor_answers_each_call_once 4 refusing_backend s ltac:(lia) Hr)
    as (H1 & H2 & _). by split.
Defined.

Lemma stop_returns_witness :
  ∃ s, reachable initial (step 4 refusing_backend) s ∧ stop_thread s = SJoin ∧
    WWait ∉ workers s.
Proof.
  destruct (joining_run 4 refusing_backend) as (s & Hr & Hj & _). exists s. split; [done|].
  split; [done|].
  assert (∀ reqs, length reqs <= length (refusing_backend reqs))%nat as Hlen
    by (intros reqs; unfold refusing_backend; by rewrite length_fmap).
  by destruct (stop_returns 4 refusing_backend s ltac:(lia) Hlen Hr Hj) as [[_ H] _].
Defined.

(** C17. A wakeup is lost: [infer_async] notifies without [cv_mu_], so a caller that
    pushes, counts and notifies between a worker's predicate and its block leaves the
    request queued, counted and unanswered, the model ready and the executor running,
    with every worker blocked and no step of any worker left; only another call, a
    stop or a spurious wakeup can serve it. *)
Theorem executor_loses_wakeup max_batch_size infer_batch :
  0 < max_batch_size →
  ∃ s t, reachable initial (step max_batch_size infer_batch) s ∧
    queue s = [t] ∧ wait_predicate s = true ∧ stopped s = false ∧ model_ready s = true ∧
    promise t ∉ (answers s).*1 ∧ workers s = [WWait] ∧ callers s = [CIdle] ∧
    (∀ i w s', workers s !! i = Some w →
       ¬ worker_step max_batch_size infer_batch i w s s') ∧
    (∀ s', step max_batch_size infer_batch s s' →
       (∃ j r, callers s' !! j = Some (CReady r)) ∨ stopped s' = true ∨
       (∃ b, s' = set_ready s b) ∨ s' = set_worker s 0 WWake).
Proof.
  intros Hm. destruct (lost_wakeup_run max_batch_size infer_batch Hm)
    as (s & t & Hr & Hq & Hn & Hs & Hrd & Hw & Hc & Hst & Ha).
  assert (∀ i w, workers s !! i = Some w → i = 0%nat ∧ w = WWait) as Hone.
  { rewrite Hw. intros [|i] w Hi; [by simplify_eq/=|by destruct i]. }
  exists s, t. split; [done|]. split; [done|].
  split; [unfold wait_predicate; by rewrite Hn|]. split; [done|]. split; [done|].
  split; [rewrite Ha; by apply not_elem_of_nil|]. split; [done|]. split; [done|]. split.
  - intros i w s' [_ ->]%Hone Hstep. inversion Hstep.
  - intros s' [i w [_ ->]%Hone Hstep|j c Hj Hstep|Hstep|b ->|i [-> _]%Hone ->];
      [by inversion Hstep| | |right; right; left; by exists b|by do 3 right].
    + left. rewrite Hc in Hj. destruct j; [|done]. simplify_eq/=. inversion Hstep; subst.
      eexists 0%nat, _. simpl. by rewrite Hc.
    + right; left. rewrite Hst in Hstep. by inversion Hstep.
Qed.

Lemma executor_loses_wakeup_witness :
  0 < 8 ∧ ∃ s, reachable initial (step 8 refusing_backend) s ∧ wait_predicate s = true ∧
    workers s = [WWait].
Proof.
  split; [lia|].
  destruct (executor_loses_wakeup 8 refusing_backend ltac:(lia))
    as (s & t & Hr & _ & Hp & _ & _ & _ & Hw & _). by exists s.
Defined.

(** [stop] does not drain the queue: a state is reached where [stop] has returned
    with a task still queued, and a task that is queued once every worker has returned
    stays queued and is never answered, whatever happens next. *)
Theorem stopped_executor_abandons max_batch_size infer_batch :
  0 <= max_batch_size →
  (∃ s t, reachable initial (step max_batch_size infer_batch) s ∧
     stop_thread s = SDone ∧ callers s = [CIdle] ∧ workers s = [] ∧ t ∈ queue s) ∧
  (∀ s t s', reachable initial (step max_batch_size infer_batch) s →
     Forall (λ w, w = WDone) (workers s) → t ∈ queue s →
     rtc (step max_batch_size infer_batch) s s' →
     t ∈ queue s' ∧ promise t ∉ (answers s').*1).
Proof.
  intros Hm. split.
  - destruct (abandoned_task_run max_batch_size infer_batch)
      as (s & t & Hr & Hd & Hw & Hc & _ & Hq).
    exists s, t. rewrite Hq. split_and!; try done. by left.
  - intros s t s' (s0 & Hi & Hr) Hd Ht Hrun.
    pose proof (abandoned_run _ _ _ _ _ Hrun Hd Ht) as Ht'. split; [done|].
    apply unanswered with max_batch_size; [|done].
    apply executor_reachable_ok with infer_batch; [done|].
    exists s0. split; [done|]. by transitivity s.
Qed.

Lemma stopped_executor_abandons_witness :
  ∃ s t, reachable initial (step 4 refusing_backend) s ∧ stop_thread s = SDone ∧
    promise t ∉ (answers s).*1.
Proof.
  destruct (stopped_executor_abandons 4 refusing_backend ltac:(lia)) as [(s & t & H) Hall].
  destruct H as (Hr & Hd & _ & Hw & Ht). exists s, t. split; [done|]. split; [done|].
  apply (Hall s t s Hr); [by rewrite Hw|done|apply rtc_refl].
Defined.
