(* ===== verification/ServerConfig.v ===== *)
(** * Server configuration ([RuntimeConfig::from_file] of [src/inference/runtime.cpp],
      [load_extended_config] of [src/server/main.cpp])

    The two loaders read the same file; each keeps the keys it knows. A file that
    cannot be opened is [None]. *)
From S2P Require Import Prelude.
From S2P Require Import Text.
From S2P Require Import Types.
From S2P Require Import ModelConfig.

(** ** Data *)

Record RuntimeConfig := { worker_threads : Z }.

Definition default_runtime_config : RuntimeConfig := {| worker_threads := 1 |}.

Record ExtendedConfig := {
  cfg_model_id : text;
  cfg_model_path : text;
  cfg_model_repository : text;
  cfg_host : text;
  cfg_port : Z;
  cfg_input_shape : list Z;
  cfg_device : DeviceKind }.

Definition default_extended_config : ExtendedConfig := {|
  cfg_model_id := []; cfg_model_path := []; cfg_model_repository := txt "models"; cfg_host := [];
  cfg_port := 9000; cfg_input_shape := []; cfg_device := Cpu |}.

(** ** Loading *)

(** What both loops keep of a line: key and value, trimmed. A comment is a line whose
    first character is the mark. *)
Definition read_entry (line : text) : option (text * text) :=
  match line with
  | [] => None
  | ch :: _ =>
      if decide (ch = "#"%char) then None else
      match find "="%char line with
      | None => None
      | Some pos => Some (trim_blanks (take pos line), trim_blanks (drop (pos + 1) line))
      end
  end.

Section loop.
Context {C : Type} (apply : C → text → text → outcome C).

Fixpoint load_lines (cfg : C) (lines : list text) : outcome C :=
  match lines with
  | [] => mret cfg
  | line :: lines =>
      match read_entry line with
      | None => load_lines cfg lines
      | Some (key, val) => cfg ← apply cfg key val; load_lines cfg lines
      end
  end.

Definition load_file (cfg : C) (file : option text) : outcome C :=
  match file with
  | None => mret cfg
  | Some content => load_lines cfg (getlines LF content)
  end.
End loop.

Definition apply_runtime_key (cfg : RuntimeConfig) (key val : text) : outcome RuntimeConfig :=
  if decide (key = txt "worker_threads") then n ← stoul val; mret {| worker_threads := n |}
  else mret cfg.

Definition from_file (file : option text) : outcome RuntimeConfig :=
  load_file apply_runtime_key default_runtime_config file.

Fixpoint push_items (shape : list Z) (items : list text) : outcome (list Z) :=
  match items with
  | [] => mret shape
  | item :: items => n ← stoll item; push_items (shape ++ [n]) items
  end.

Definition apply_extended_key (cfg : ExtendedConfig) (key val : text) : outcome ExtendedConfig :=
  let '(Build_ExtendedConfig id mpath repo host port shape dev) := cfg in
  if decide (key = txt "model_id") then
    mret (Build_ExtendedConfig val mpath repo host port shape dev)
  else if decide (key = txt "model_path") then
    mret (Build_ExtendedConfig id val repo host port shape dev)
  else if decide (key = txt "model_repository") then
    mret (Build_ExtendedConfig id mpath val host port shape dev)
  else if decide (key = txt "host") then
    mret (Build_ExtendedConfig id mpath repo val port shape dev)
  else if decide (key = txt "port") then
    p ← stoi val; mret (Build_ExtendedConfig id mpath repo host p shape dev)
  else if decide (key = txt "device") then
    mret (Build_ExtendedConfig id mpath repo host port shape
            (if decide (val = txt "cuda") then Cuda else Cpu))
  else if decide (key = txt "input_shape") then
    s ← push_items shape (getlines ","%char val);
    mret (Build_ExtendedConfig id mpath repo host port s dev)
  else mret cfg.

Definition load_extended_config (file : option text) : outcome ExtendedConfig :=
  load_file apply_extended_key default_extended_config file.

(** ** Specification: files and what they mean *)

Inductive setting :=
| WorkerThreads (n : Z)
| ModelId (v : text)
| ModelPath (v : text)
| Repository (v : text)
| Host (v : text)
| Port (n : Z)
| Device (d : DeviceKind)
| InputShape (s : list Z)
| Comment (v : text)
| Blank.

Definition setting_entry (s : setting) : option (text * text) :=
  match s with
  | WorkerThreads n => Some (txt "worker_threads", to_string n)
  | ModelId v => Some (txt "model_id", v)
  | ModelPath v => Some (txt "model_path", v)
  | Repository v => Some (txt "model_repository", v)
  | Host v => Some (txt "host", v)
  | Port n => Some (txt "port", to_string n)
  | Device d => Some (txt "device", device_name d)
  | InputShape s => Some (txt "input_shape", print_shape s)
  | Comment _ | Blank => None
  end.

(** A line of the file: blanks are allowed after the key, around the value. *)
Definition print_setting (pad : text) (s : setting) : text :=
  match s with
  | Comment v => "#"%char :: v
  | Blank => []
  | s => match setting_entry s with
         | Some (key, val) => key ++ pad ++ "="%char :: pad ++ val ++ pad
         | None => []
         end
  end.

Definition print_settings (pad : text) (ss : list setting) : text :=
  concat ((λ s, print_setting pad s ++ [LF]) <$> ss).

Definition text_ok (v : text) : Prop := trimmed blanks v ∧ LF ∉ v.

Definition setting_ok (s : setting) : Prop :=
  match s with
  | WorkerThreads n => is_u64 n
  | ModelId v | ModelPath v | Repository v | Host v => text_ok v
  | Port n => - 2 ^ 31 <= n < 2 ^ 31
  | InputShape s => Forall (λ n, - 2 ^ 63 <= n < 2 ^ 63) s
  | Comment v => LF ∉ v
  | Device _ | Blank => True
  end.

(** The last setting of a key wins, except that shapes accumulate. *)
Definition runtime_setting (cfg : RuntimeConfig) (s : setting) : RuntimeConfig :=
  match s with WorkerThreads n => {| worker_threads := n |} | _ => cfg end.

Definition extended_setting (cfg : ExtendedConfig) (s : setting) : ExtendedConfig :=
  let '(Build_ExtendedConfig id mpath repo host port shape dev) := cfg in
  match s with
  | ModelId v => Build_ExtendedConfig v mpath repo host port shape dev
  | ModelPath v => Build_ExtendedConfig id v repo host port shape dev
  | Repository v => Build_ExtendedConfig id mpath v host port shape dev
  | Host v => Build_ExtendedConfig id mpath repo v port shape dev
  | Port n => Build_ExtendedConfig id mpath repo host n shape dev
  | Device d => Build_ExtendedConfig id mpath repo host port shape d
  | InputShape s => Build_ExtendedConfig id mpath repo host port (shape ++ s) dev
  | _ => cfg
  end.

(** ** Lemmas *)

Lemma blanks_whitespace c : c ∉ whitespace → c ∉ blanks.
Proof. unfold whitespace, blanks. rewrite !not_elem_of_cons. tauto. Qed.

Lemma trimmed_blanks s : Forall (λ c, c ∉ whitespace) s → trimmed blanks s.
Proof.
  intros Hs. split; [intros c s' ->|intros c s' ->].
  - apply Forall_cons in Hs as [? _]. by apply blanks_whitespace.
  - apply Forall_app in Hs as [_ Hs]. apply Forall_cons in Hs as [? _]. by apply blanks_whitespace.
Qed.

Lemma trimmed_weaken s : trimmed whitespace s → trimmed blanks s.
Proof. intros [H1 H2]. split; intros c s' Hs; apply blanks_whitespace; eauto. Qed.

Lemma trim_blanks_pad a m b :
  all_in blanks a → all_in blanks b → trimmed blanks m → trim_blanks (a ++ m ++ b) = m.
Proof. intros. rewrite trim_blanks_strip. by apply strip_unique. Qed.

Lemma pad_no_equals pad : all_in blanks pad → "="%char ∉ pad.
Proof.
  intros Hp Hin. unfold all_in in Hp. rewrite Forall_forall in Hp. specialize (Hp _ Hin).
  by apply (bool_decide_eq_false_1 ("="%char ∈ blanks)) in Hp.
Qed.

Lemma read_entry_printed pad key val :
  all_in blanks pad → key_ok key = true → trimmed blanks val →
  read_entry (key ++ pad ++ "="%char :: pad ++ val ++ pad) = Some (key, val).
Proof.
  intros Hp [Hne%bool_decide_eq_true Hk%bool_decide_eq_true]%andb_true_iff Hv.
  assert (trimmed blanks key) as Hkt.
  { apply trimmed_blanks, (Forall_impl _ _ _ Hk). by intros ? [? _]. }
  assert ("="%char ∉ key ++ pad) as Heq.
  { rewrite elem_of_app. intros [Hin|Hin]; [|by eapply pad_no_equals].
    rewrite Forall_forall in Hk. by destruct (Hk _ Hin) as (_ & ? & _). }
  unfold read_entry. destruct key as [|k key]; [done|].
  apply Forall_cons in Hk as [(_ & _ & ?) _]. cbn [app]. rewrite decide_False by done.
  change (k :: key ++ pad ++ "="%char :: pad ++ val ++ pad)
    with ((k :: key) ++ pad ++ "="%char :: pad ++ val ++ pad).
  rewrite app_assoc, find_app by done. rewrite take_app_exact by done.
  change ("="%char :: pad ++ val ++ pad) with (["="%char] ++ (pad ++ val ++ pad)).
  rewrite (app_assoc _ ["="%char]), drop_app_exact by (by rewrite (length_app _ ["="%char])).
  rewrite trim_blanks_pad by done. f_equal. f_equal.
  by apply (trim_blanks_pad [] (k :: key) pad); [apply Forall_nil| |].
Qed.

(** Keys and values the file can carry. *)
Lemma setting_entry_ok s key val :
  setting_ok s → setting_entry s = Some (key, val) →
  key_ok key = true ∧ (LF ∉ key) ∧ trimmed blanks val ∧ LF ∉ val.
Proof.
  assert (∀ n, trimmed blanks (to_string n) ∧ LF ∉ to_string n) as Hn.
  { intros n. destruct (to_string_plain n) as (? & _ & ?). split; [by apply trimmed_weaken|done]. }
  assert (∀ k : text, bool_decide (LF ∈ k) = false → LF ∉ k) as Hk
    by (intros k; apply bool_decide_eq_false_1).
  intros Hs He. destruct s; simpl in *; simplify_eq/=;
    (split; [done|]; split; [by apply Hk|]); try done; try apply Hn; try apply Hs.
  - destruct (trimmed_device d). split; [by apply trimmed_weaken|done].
  - destruct (print_shape_plain s). split; [by apply trimmed_weaken|done].
Qed.

Lemma print_setting_line pad s :
  all_in blanks pad → setting_ok s →
  (LF ∉ print_setting pad s) ∧ read_entry (print_setting pad s) = setting_entry s.
Proof.
  intros Hp Hs. assert (LF ∉ pad) as HpL.
  { intros Hin. unfold all_in in Hp. rewrite Forall_forall in Hp. specialize (Hp _ Hin).
    by apply (bool_decide_eq_false_1 (LF ∈ blanks)) in Hp. }
  destruct (setting_entry s) as [[key val]|] eqn:E.
  - destruct (setting_entry_ok s key val Hs E) as (Hk & HkL & Hv & HvL).
    assert (print_setting pad s = key ++ pad ++ "="%char :: pad ++ val ++ pad) as ->
      by (destruct s; try discriminate E; cbn [print_setting setting_entry] in *; congruence).
    split; [|by apply read_entry_printed].
    assert (LF ≠ "="%char) by by vm_compute.
    rewrite !elem_of_app, elem_of_cons, !elem_of_app. tauto.
  - destruct s; try discriminate E; [|split; [by intros ?%elem_of_nil|done]].
    split; [|done]. cbn [print_setting setting_ok] in *. assert (LF ≠ "#"%char) by by vm_compute. rewrite elem_of_cons. tauto.
Qed.

Lemma load_printed {C} (apply : C → text → text → outcome C) (spec : C → setting → C) pad ss cfg :
  all_in blanks pad → Forall setting_ok ss →
  (∀ c s key val, setting_ok s → setting_entry s = Some (key, val) →
     apply c key val = Done (spec c s)) →
  (∀ c s, setting_entry s = None → spec c s = c) →
  load_file apply cfg (Some (print_settings pad ss)) = Done (foldl spec cfg ss).
Proof.
  intros Hp Hss Happly Hnone. unfold load_file, print_settings.
  replace ((λ s, print_setting pad s ++ [LF]) <$> ss)
    with ((λ l, l ++ [LF]) <$> (print_setting pad <$> ss)) by (by rewrite <- list_fmap_compose).
  rewrite getlines_concat.
  2: { apply Forall_fmap, (Forall_impl _ _ _ Hss). intros s Hs. by apply print_setting_line. }
  revert cfg. induction Hss as [|s ss Hs Hss IH]; intros cfg; [done|]. simpl.
  destruct (print_setting_line pad s Hp Hs) as [_ ->].
  destruct (setting_entry s) as [[key val]|] eqn:E.
  - by rewrite (Happly _ s), <- IH.
  - by rewrite <- IH, Hnone.
Qed.

Lemma push_printed shape s :
  Forall (λ n, - 2 ^ 63 <= n < 2 ^ 63) s →
  push_items shape (getlines ","%char (print_shape s)) = Done (shape ++ s).
Proof.
  intros Hs. rewrite getlines_shape. revert shape.
  induction Hs as [|n s Hn Hs IH]; intros shape; simpl; [by rewrite app_nil_r|].
  unfold stoll. rewrite sto_signed_to_string by lia. simpl.
  change (list_fmap Z text to_string s) with (to_string <$> s).
  by rewrite IH, <- app_assoc.
Qed.

(** Past the keys that do not match. *)
Ltac this_key :=
  repeat (rewrite decide_False by done); try (rewrite decide_True by done).

(** ** Numbers that are not *)

(** A line of the file with key [key] and value [val], after the settings [ss]. *)
Definition with_line (pad : text) (ss : list setting) (key val rest : text) : text :=
  print_settings pad ss ++ (key ++ pad ++ "="%char :: pad ++ val ++ pad) ++ LF :: rest.

Lemma getlines_concat_app sep ls rest :
  Forall (λ l, sep ∉ l) ls →
  getlines sep (concat ((λ l, l ++ [sep]) <$> ls) ++ rest) = ls ++ getlines sep rest.
Proof.
  induction 1 as [|l ls Hl Hls IH]; [done|]. rewrite fmap_cons. simpl concat.
  rewrite <- !app_assoc. simpl app. by rewrite getlines_app, IH.
Qed.

Lemma load_lines_app {C} (apply : C → text → text → outcome C) cfg ls1 ls2 :
  load_lines apply cfg (ls1 ++ ls2) = cfg ← load_lines apply cfg ls1; load_lines apply cfg ls2.
Proof.
  revert cfg. induction ls1 as [|l ls1 IH]; intros cfg; simpl; [by destruct (load_lines apply cfg ls2)|].
  destruct (read_entry l) as [[key val]|]; [|apply IH].
  destruct (apply cfg key val) as [c|f]; [|done]. apply IH.
Qed.

(** Loading comes to the line with what the settings before it mean. *)
Lemma load_with_line {C} (apply : C → text → text → outcome C) (spec : C → setting → C) pad ss cfg key val rest :
  all_in blanks pad → Forall setting_ok ss → key_ok key = true → LF ∉ key → text_ok val →
  (∀ c s key val, setting_ok s → setting_entry s = Some (key, val) →
     apply c key val = Done (spec c s)) →
  (∀ c s, setting_entry s = None → spec c s = c) →
  load_file apply cfg (Some (with_line pad ss key val rest)) =
    cfg ← apply (foldl spec cfg ss) key val; load_lines apply cfg (getlines LF rest).
Proof.
  intros Hp Hss Hk HkL [Hv HvL] Happly Hnone.
  pose proof (load_printed apply spec pad ss cfg Hp Hss Happly Hnone) as Hload.
  assert (LF ∉ pad) as HpL.
  { intros Hin. unfold all_in in Hp. rewrite Forall_forall in Hp. specialize (Hp _ Hin).
    by apply (bool_decide_eq_false_1 (LF ∈ blanks)) in Hp. }
  assert (LF ≠ "="%char) by by vm_compute.
  unfold load_file, with_line, print_settings in *.
  replace ((λ s, print_setting pad s ++ [LF]) <$> ss)
    with ((λ l, l ++ [LF]) <$> (print_setting pad <$> ss)) in * by (by rewrite <- list_fmap_compose).
  assert (Forall (λ l, LF ∉ l) (print_setting pad <$> ss)) as HL.
  { apply Forall_fmap, (Forall_impl _ _ _ Hss). intros s Hs. by apply print_setting_line. }
  rewrite getlines_concat in Hload by done. rewrite getlines_concat_app by done.
  rewrite load_lines_app, Hload. cbn [mbind outcome_bind].
  rewrite getlines_app by (rewrite !elem_of_app, elem_of_cons, !elem_of_app; tauto).
  cbn [load_lines]. by rewrite read_entry_printed.
Qed.

Lemma runtime_applies c s key val :
  setting_ok s → setting_entry s = Some (key, val) →
  apply_runtime_key c key val = Done (runtime_setting c s).
Proof.
  intros Hs He. destruct s; simpl in *; simplify_eq/=; unfold apply_runtime_key; this_key;
    try done. by rewrite stoul_to_string.
Qed.

Lemma extended_applies c s key val :
  setting_ok s → setting_entry s = Some (key, val) →
  apply_extended_key c key val = Done (extended_setting c s).
Proof.
  destruct c. intros Hs He. destruct s; simpl in *; simplify_eq/=; unfold apply_extended_key; this_key;
    try done.
  - unfold stoi. by rewrite sto_signed_to_string by lia.
  - by destruct d.
  - by rewrite push_printed.
Qed.

Lemma runtime_line pad ss key val rest :
  all_in blanks pad → Forall setting_ok ss → key_ok key = true → LF ∉ key → text_ok val →
  from_file (Some (with_line pad ss key val rest)) =
    cfg ← apply_runtime_key (foldl runtime_setting default_runtime_config ss) key val;
    load_lines apply_runtime_key cfg (getlines LF rest).
Proof.
  intros. apply load_with_line; try done; [apply runtime_applies|by intros c []].
Qed.

Lemma extended_line pad ss key val rest :
  all_in blanks pad → Forall setting_ok ss → key_ok key = true → LF ∉ key → text_ok val →
  load_extended_config (Some (with_line pad ss key val rest)) =
    cfg ← apply_extended_key (foldl extended_setting default_extended_config ss) key val;
    load_lines apply_extended_key cfg (getlines LF rest).
Proof.
  intros. apply load_with_line; try done; [apply extended_applies|by intros [] []].
Qed.

Lemma push_items_bad shape s bad tail :
  Forall (λ n, - 2 ^ 63 <= n < 2 ^ 63) s → scan_number bad = None →
  push_items shape ((to_string <$> s) ++ bad :: tail) = Fault (Thrown invalid_argument).
Proof.
  intros Hs Hb. revert shape. induction Hs as [|n s Hn Hs IH]; intros shape; simpl.
  - unfold stoll, sto_signed. by rewrite Hb.
  - unfold stoll. rewrite sto_signed_to_string by lia. simpl. apply IH.
Qed.

Lemma stoi_prefix n tail :
  not_digit tail → stoi (to_string n ++ tail) =
    if bool_decide (- 2 ^ 31 <= n < 2 ^ 31) then Done n else Fault (Thrown out_of_range).
Proof.
  intros Ht. unfold stoi, sto_signed. rewrite scan_to_string by done.
  assert (signed (n <? 0, Z.abs n) = n) as ->.
  { unfold signed. simpl. destruct (Z.ltb_spec n 0); lia. }
  change (2 ^ (32 - 1)) with (2 ^ 31).
  destruct (Z.leb_spec (- 2 ^ 31) n), (Z.ltb_spec n (2 ^ 31)); case_bool_decide; try done; lia.
Qed.

(** ** Properties *)

(** C18. Both loaders read back a file of settings, with comments, empty lines and blanks
    around keys and values: of several settings of one key the last wins, except that
    the shapes accumulate; keys of the other loader are ignored; a file that cannot be
    opened leaves the defaults. A value in which no number begins throws, whatever
    precedes and follows its line: a thread count, a port, an item of a shape after good
    ones. Of a port the number it begins with is read, what follows is ignored ([80x] is
    80), and one that does not fit an [int] throws. [worker_threads = -1] is read as
    [2^64 - 1]. *)
Theorem server_config_roundtrip pad ss :
  all_in blanks pad → Forall setting_ok ss →
  from_file (Some (print_settings pad ss)) = Done (foldl runtime_setting default_runtime_config ss) ∧
  load_extended_config (Some (print_settings pad ss)) =
    Done (foldl extended_setting default_extended_config ss) ∧
  from_file None = Done default_runtime_config ∧
  load_extended_config None = Done default_extended_config ∧
  (∀ val rest, text_ok val → scan_number val = None →
     from_file (Some (with_line pad ss (txt "worker_threads") val rest)) = Fault (Thrown invalid_argument) ∧
     load_extended_config (Some (with_line pad ss (txt "port") val rest)) = Fault (Thrown invalid_argument)) ∧
  (∀ val rest s bad tail, text_ok val → getlines ","%char val = (to_string <$> s) ++ bad :: tail →
     Forall (λ n, - 2 ^ 63 <= n < 2 ^ 63) s → scan_number bad = None →
     load_extended_config (Some (with_line pad ss (txt "input_shape") val rest)) =
       Fault (Thrown invalid_argument)) ∧
  (∀ n tail, text_ok (to_string n ++ tail) → not_digit tail →
     load_extended_config (Some (with_line pad ss (txt "port") (to_string n ++ tail) [])) =
       if bool_decide (- 2 ^ 31 <= n < 2 ^ 31)
       then Done (extended_setting (foldl extended_setting default_extended_config ss) (Port n))
       else Fault (Thrown out_of_range)) ∧
  from_file (Some (txt "worker_threads=-1")) = Done {| worker_threads := 2 ^ 64 - 1 |}.
Proof.
  intros Hp Hss. assert (∀ k : text, bool_decide (LF ∈ k) = false → LF ∉ k) as Hk
    by (intros k; apply bool_decide_eq_false_1).
  split_and!; try done.
  - apply load_printed; [done|done|apply runtime_applies|by intros c []].
  - apply load_printed; [done|done|apply extended_applies|by intros [] []].
  - intros val rest Hv Hn. split; [rewrite runtime_line|rewrite extended_line]; try done; try by apply Hk.
    + unfold apply_runtime_key, stoul. this_key. by rewrite Hn.
    + destruct (foldl _ _ _). unfold apply_extended_key, stoi, sto_signed. this_key. by rewrite Hn.
  - intros val rest s bad tail Hv Hl Hs Hb. rewrite extended_line; try done; [|by apply Hk].
    destruct (foldl _ _ _). unfold apply_extended_key. this_key. by rewrite Hl, push_items_bad.
  - intros n tail Hv Ht. rewrite extended_line; try done; [|by apply Hk].
    destruct (foldl _ _ _). unfold apply_extended_key. this_key. rewrite stoi_prefix by done.
    by case_bool_decide.
Qed.

Lemma server_config_roundtrip_witness :
  load_extended_config (Some (print_settings (txt " ")
    [Comment (txt " demo"); ModelId (txt "m1"); WorkerThreads 4; InputShape [1]; Blank; Port 80;
     InputShape [3; -2]; Port 8080])) =
  Done {| cfg_model_id := txt "m1"; cfg_model_path := []; cfg_model_repository := txt "models";
          cfg_host := []; cfg_port := 8080; cfg_input_shape := [1; 3; -2]; cfg_device := Cpu |}.
Proof.
  destruct (server_config_roundtrip (txt " ")
    [Comment (txt " demo"); ModelId (txt "m1"); WorkerThreads 4; InputShape [1]; Blank; Port 80;
     InputShape [3; -2]; Port 8080]) as (_ & H & _); [| |exact H].
  - apply Forall_singleton. by left.
  - repeat (apply Forall_cons; split); try apply Forall_nil; simpl; unfold is_u64; try lia;
      try (by repeat constructor); try (by apply (bool_decide_eq_false_1 (LF ∈ _))).
    all: try (split; [apply trimmed_blanks; by apply (bool_decide_eq_true_1 (Forall _ _))|
                by apply (bool_decide_eq_false_1 (LF ∈ _))]).
Defined.
