(* ===== verification/Socket.v ===== *)
(** * Asynchronous socket ([include/jellybean/net/async_socket.hpp],
      [src/net/async_socket.cpp])

    A non-blocking TCP socket whose reads and writes suspend the coroutine until the
    event loop reports readiness. The kernel is a script: what arrives on the
    connection, byte by byte, with the moments at which nothing more is there yet. *)
From S2P Require Import Prelude.

(** ** The connection *)

(** [Gap]: the next byte has not arrived yet when the reader asks for it. [Wake]: the
    event loop resumes the reader though no byte is there. [Hangup]: the peer closed.
    [Reset]: [recv] fails. *)
Inductive arrival :=
| Data (b : byte)
| Gap
| Wake
| Hangup
| Reset.

Inductive recv_result :=
| Received (bs : list byte)
| Closed
| WouldBlock
| Failed.

(** The bytes that can be taken at once, at most [n]. *)
Fixpoint take_data (n : nat) (ev : list arrival) : list byte :=
  match n, ev with
  | S n, Data b :: ev => b :: take_data n ev
  | _, _ => []
  end.

(** [::recv(fd, buf, n, MSG_DONTWAIT)]. *)
Definition recv (n : nat) (ev : list arrival) : recv_result * list arrival :=
  match ev with
  | [] => (WouldBlock, [])
  | Gap :: _ => (WouldBlock, ev)
  | Wake :: ev => (WouldBlock, ev)
  | Hangup :: _ => (Closed, ev)
  | Reset :: ev => (Failed, ev)
  | Data _ :: _ => let bs := take_data n ev in (Received bs, drop (length bs) ev)
  end.

(** [await_suspend]: the coroutine is resumed once something arrived, or never. *)
Fixpoint await_readable (ev : list arrival) : option (list arrival) :=
  match ev with
  | [] => None
  | Gap :: ev => await_readable ev
  | _ => Some ev
  end.

(** [AsyncReadAwaitable::await_resume]: result, bytes stored in the buffer. Every
    round of the loop but the last stores a byte, so [S len] rounds are enough. *)
Fixpoint read_loop (fuel len : nat) (acc : list byte) (ev : list arrival) :
    option (Z * list byte * list arrival) :=
  match fuel with
  | O => None
  | S fuel =>
      if decide (length acc < len)%nat then
        match recv (len - length acc) ev with
        | (Received bs, ev) => read_loop fuel len (acc ++ bs) ev
        | (Closed, ev) => Some (Z.of_nat (length acc), acc, ev)
        | (WouldBlock, ev) => Some (Z.of_nat (length acc), acc, ev)
        | (Failed, ev) => Some (-1, acc, ev)
        end
      else Some (Z.of_nat (length acc), acc, ev)
  end.

Definition await_resume (len : nat) (ev : list arrival) : option (Z * list byte * list arrival) :=
  read_loop (S len) len [] ev.

(** [AsyncWriteAwaitable::await_resume], one [::send]: [caps] says how many bytes each
    call accepts, negative for an error; past its end everything is accepted. *)
Definition send (bs : list byte) (caps : list Z) : Z * list byte * list Z :=
  match caps with
  | [] => (Z.of_nat (length bs), bs, [])
  | k :: caps =>
      if k <? 0 then (-1, [], caps)
      else let sent := take (Z.to_nat k) bs in (Z.of_nat (length sent), sent, caps)
  end.

(** ** The socket object *)

Record AsyncSocket := { fd_ : Z; epoll_fd_ : Z }.

(** Open descriptors of the process. *)
Abbreviation descriptors := (list Z).

(** [fcntl_get] and [fcntl_set] are the results of the two [fcntl] calls. *)
Definition set_nonblocking (fcntl_get fcntl_set : Z) : outcome () :=
  if fcntl_get =? -1 then Fault Aborted
  else if fcntl_set =? -1 then Fault Aborted
  else mret ().

Definition socket_new (fcntl_get fcntl_set fd epoll_fd : Z) : outcome AsyncSocket :=
  _ ← set_nonblocking fcntl_get fcntl_set; mret {| fd_ := fd; epoll_fd_ := epoll_fd |}.

(** The moved-to and the moved-from socket. *)
Definition socket_move (o : AsyncSocket) : AsyncSocket * AsyncSocket :=
  (o, {| fd_ := -1; epoll_fd_ := epoll_fd_ o |}).

Definition socket_destroy (s : AsyncSocket) (fds : descriptors) : descriptors :=
  if 0 <=? fd_ s then base.filter (λ x, x ≠ fd_ s) fds else fds.

(** However often a socket is moved, destroying all the objects closes its descriptor
    and no other. *)
Lemma socket_moved_closed_once s fds :
  0 <= fd_ s → let '(a, b) := socket_move s in
  socket_destroy a (socket_destroy b fds) = socket_destroy s fds ∧
  (fd_ s ∉ socket_destroy s fds) ∧
  ∀ x, x ≠ fd_ s → x ∈ fds → x ∈ socket_destroy s fds.
Proof.
  intros Hs. unfold socket_move, socket_destroy. simpl. rewrite (proj2 (Z.leb_le _ _)) by done.
  split; [done|]. split; [by rewrite list_elem_of_filter; intros [? _]|].
  intros x Hx Hin. by apply list_elem_of_filter.
Qed.

(** ** Reading *)

Definition wire (bs : list byte) : list arrival := Data <$> bs.

Lemma take_data_wire n bs ev :
  (length bs <= n)%nat → take_data n (wire bs ++ ev) = bs ++ take_data (n - length bs) ev.
Proof.
  revert n. induction bs as [|b bs IH]; intros n Hn; simpl; [by rewrite Nat.sub_0_r|].
  destruct n as [|n]; simpl in *; [lia|]. f_equal. apply IH. lia.
Qed.

Lemma length_take_data n ev : (length (take_data n ev) <= n)%nat.
Proof.
  revert ev. induction n as [|n IH]; intros [|[] ev]; simpl; try lia. specialize (IH ev). lia.
Qed.

Lemma recv_received n ev bs ev' :
  recv n ev = (Received bs, ev') → (0 < n)%nat → (0 < length bs <= n)%nat ∧ ev = wire bs ++ ev'.
Proof.
  unfold recv. intros H Hn. destruct ev as [|[] ev]; try done. simplify_eq/=.
  pose proof (length_take_data n (Data b :: ev)) as Hl. split.
  - destruct n; simpl in *; lia.
  - clear Hn Hl. generalize (Data b :: ev). clear. intros ev. revert ev.
    induction n as [|n IH]; intros [|[b| | | |] ev]; simpl; try done. f_equal. apply IH.
Qed.

(** The read never runs out of rounds; what it stored are the first bytes of what had
    arrived, and it takes nothing else than a spurious wakeup or an error with them. *)
Lemma read_loop_spec fuel len acc ev :
  (length acc <= len)%nat → (len - length acc < fuel)%nat →
  ∃ n bs ev', read_loop fuel len acc ev = Some (n, acc ++ bs, ev') ∧
    (length acc + length bs <= len)%nat ∧
    (n = Z.of_nat (length acc + length bs) ∨ n = -1) ∧
    (ev = wire bs ++ ev' ∨ ev = wire bs ++ Wake :: ev' ∨ ev = wire bs ++ Reset :: ev').
Proof.
  revert acc ev. induction fuel as [|fuel IH]; intros acc ev Hacc Hfuel; [lia|].
  simpl. case_decide as Hlt.
  2: { exists (Z.of_nat (length acc)), [], ev. rewrite app_nil_r. simpl.
       split_and!; [done|lia|left; lia|by left]. }
  destruct (recv (len - length acc) ev) as [r ev1] eqn:Hr. destruct r as [bs| | |].
  - apply recv_received in Hr as [Hbs ->]; [|lia].
    destruct (IH (acc ++ bs) ev1) as (n & bs' & ev' & -> & Hlen & Hn & Hev);
      [rewrite length_app; lia|rewrite length_app; lia|].
    exists n, (bs ++ bs'), ev'. rewrite length_app in Hlen, Hn. rewrite length_app, app_assoc.
    split_and!; [done|lia|by rewrite Nat.add_assoc|].
    unfold wire in *. rewrite fmap_app, <- !app_assoc.
    destruct Hev as [->|[->| ->]]; auto.
  - exists (Z.of_nat (length acc)), [], ev1. rewrite app_nil_r. simpl. split_and!; [done|lia|left; lia|].
    destruct ev as [|[] ?]; simpl in *; simplify_eq/=; auto.
  - exists (Z.of_nat (length acc)), [], ev1. rewrite app_nil_r. simpl. split_and!; [done|lia|left; lia|].
    destruct ev as [|[] ?]; simpl in *; simplify_eq/=; auto.
  - exists (-1), [], ev1. rewrite app_nil_r. simpl. split_and!; [done|lia|by right|].
    destruct ev as [|[] ?]; simpl in *; simplify_eq/=; auto.
Qed.

(** Bytes with gaps anywhere between them. *)
Inductive paced : list byte → list arrival → Prop :=
| paced_nil : paced [] []
| paced_byte b bs ev : paced bs ev → paced (b :: bs) (Data b :: ev)
| paced_gap bs ev : bs ≠ [] → paced bs ev → paced bs (Gap :: ev).

Lemma paced_wire bs : paced bs (wire bs).
Proof. induction bs; by constructor. Qed.

Lemma recv_wire n bs ev :
  bs ≠ [] → (length bs <= n)%nat → take_data (n - length bs) ev = [] →
  recv n (wire bs ++ ev) = (Received bs, ev).
Proof.
  intros Hne Hn Ht.
  assert (take_data n (wire bs ++ ev) = bs) as Hd by by rewrite take_data_wire, Ht, app_nil_r.
  assert (drop (length bs) (wire bs ++ ev) = ev) as Hr
    by (apply drop_app_exact; unfold wire; by rewrite length_fmap).
  assert (recv n (wire bs ++ ev) = (Received (take_data n (wire bs ++ ev)),
            drop (length (take_data n (wire bs ++ ev))) (wire bs ++ ev))) as -> by by destruct bs.
  by rewrite Hd, Hr.
Qed.

Lemma recv_gap n ev : recv n (Gap :: ev) = (WouldBlock, Gap :: ev).
Proof. done. Qed.

Lemma read_exact bs ev :
  await_resume (length bs) (wire bs ++ ev) = Some (Z.of_nat (length bs), bs, ev).
Proof.
  unfold await_resume. destruct (decide (bs = [])) as [->|Hne]; [done|].
  assert (0 < length bs)%nat by (destruct bs; [done|simpl; lia]).
  cbn [read_loop]. rewrite decide_True by (simpl; lia).
  rewrite recv_wire by (simpl; rewrite ?Nat.sub_0_r, ?Nat.sub_diag; done || lia).
  destruct (length bs) as [|n] eqn:E; [lia|]. cbn [read_loop app].
  rewrite decide_False by lia. by rewrite E.
Qed.

Lemma paced_run bs ev :
  paced bs ev → ∃ bs1 bs2 ev2, bs = bs1 ++ bs2 ∧ ev = wire bs1 ++ ev2 ∧ paced bs2 ev2 ∧
    (bs2 = [] ∧ ev2 = [] ∨ bs2 ≠ [] ∧ ∃ ev3, ev2 = Gap :: ev3).
Proof.
  induction 1 as [|b bs ev _ (bs1 & bs2 & ev2 & -> & -> & Hp & Hc)|bs ev Hne Hp _].
  - exists [], [], []. split; [done|]. split; [done|]. split; [constructor|by left].
  - exists (b :: bs1), bs2, ev2. split; [done|]. split; [done|]. by split.
  - exists [], bs, (Gap :: ev). split; [done|]. split; [done|]. split; [by constructor|]. right. split; [done|by exists ev].
Qed.

Lemma paced_ready bs ev rest :
  paced bs ev → bs ≠ [] →
  ∃ b bs' ev', bs = b :: bs' ∧ paced bs (Data b :: ev') ∧
    await_readable (ev ++ rest) = Some ((Data b :: ev') ++ rest).
Proof.
  induction 1 as [|b bs ev Hp _|bs ev Hne Hp IH]; intros Hb; [done| |].
  - exists b, bs, ev. split_and!; [done|by constructor|done].
  - destruct (IH Hb) as (b & bs' & ev' & ? & ? & ?). by exists b, bs', ev'.
Qed.

(** One resumed read of paced bytes stores a non-empty part of them. *)
Lemma read_paced b bs ev rest :
  paced (b :: bs) (Data b :: ev) →
  ∃ bs1 bs2 ev2, b :: bs = bs1 ++ bs2 ∧ bs1 ≠ [] ∧ paced bs2 ev2 ∧
    await_resume (length (b :: bs)) ((Data b :: ev) ++ rest) =
      Some (Z.of_nat (length bs1), bs1, ev2 ++ rest).
Proof.
  intros Hp. destruct (paced_run _ _ Hp) as (bs1 & bs2 & ev2 & Hbs & Hev & Hp2 & Hc).
  assert (bs1 ≠ []) as Hne.
  { intros ->. simpl in Hev. destruct Hc as [[-> ->]|(_ & ev3 & ->)]; done. }
  destruct Hc as [[-> ->]|(Hne2 & ev3 & ->)].
  - rewrite app_nil_r in Hbs, Hev. exists bs1, [], []. rewrite app_nil_r. rewrite Hbs, Hev.
    split_and!; [done|done|constructor|]. by rewrite read_exact.
  - exists bs1, bs2, (Gap :: ev3). split_and!; [done|done|done|].
    rewrite Hbs, Hev, <- app_assoc. unfold await_resume.
    assert (0 < length bs2)%nat by (destruct bs2; [done|simpl; lia]).
    assert (0 < length bs1)%nat by (destruct bs1; [done|simpl; lia]).
    remember (length (bs1 ++ bs2)) as n eqn:En. rewrite length_app in En.
    cbn [read_loop]. rewrite decide_True by (simpl; lia).
    rewrite recv_wire; [|done|simpl; lia|simpl; by destruct (n - 0 - length bs1)%nat].
    destruct n as [|n]; [lia|]. cbn [app]. cbn [read_loop].
    rewrite decide_True by lia. done.
Qed.
