(* ===== verification/Session.v ===== *)
(** * Client sessions ([session] of [src/server/main.cpp])

    One coroutine per connection: it reads a request frame from its [AsyncSocket],
    asks the runtime and writes the response frame. What the coroutine leaves behind
    is its state: what is still to arrive, what was sent, what was asked. *)
From S2P Require Import Prelude.
From S2P Require Import Text.
From S2P Require Import Types.
From S2P Require Import ServerConfig.
From S2P Require Import Socket.
From Stdlib Require Import Strings.Byte.

(** ** Data *)

Record connection := {
  inbound : list arrival;
  capacities : list Z;
  outbound : list byte;
  asked : list InferenceRequest }.

(** How a session ends: the loop condition fails; a read answers nothing; an exception
    of the server's own or another is caught; or it does not end: it waits for bytes or
    for a response. *)
Inductive session_exit :=
| ServerStopped
| Disconnected
| Caught (e : exception)
| CaughtOther
| AwaitingBytes
| AwaitingResponse
| Undefined
| NoFuel.

(** What the future of a request gives: the response and what the backend left in the
    output buffer, nothing, or an exception. *)
Inductive inference :=
| Answered (resp : InferenceResponse) (output : list Z)
| NeverAnswered
| Throws.

(** The coroutine's steps: they change the connection, and may end the session. *)
Definition session_step (A : Type) : Type := connection → (A + session_exit) * connection.

#[export] Instance session_ret : MRet session_step := λ A a c, (inl a, c).

#[export] Instance session_bind : MBind session_step := λ A B f m c,
  match m c with
  | (inl a, c) => f a c
  | (inr e, c) => (inr e, c)
  end.

Definition leave {A} (e : session_exit) : session_step A := λ c, (inr e, c).

(** ** Socket operations *)

Definition with_inbound (c : connection) (ev : list arrival) : connection := {|
  inbound := ev; capacities := capacities c; outbound := outbound c; asked := asked c |}.

Definition sock_read (len : nat) : session_step (Z * list byte) := λ c,
  match await_readable (inbound c) with
  | None => (inr AwaitingBytes, with_inbound c [])
  | Some ev =>
      match await_resume len ev with
      | Some (n, bs, ev) => (inl (n, bs), with_inbound c ev)
      | None => (inr NoFuel, c)
      end
  end.

Definition sock_write (bs : list byte) : session_step Z := λ c,
  let '(n, sent, caps) := send bs (capacities c) in
  (inl n, {| inbound := inbound c; capacities := caps; outbound := outbound c ++ sent;
             asked := asked c |}).

(** ** Buffers *)

(** A zeroed buffer of [n] bytes whose first bytes were overwritten. *)
Definition stored (n : nat) (bs : list byte) : list byte :=
  bs ++ replicate (n - length bs) Byte.x00.

Fixpoint words_of_bytes (bs : list byte) : list Z :=
  match bs with
  | a :: b :: c :: d :: bs => le_combine [a; b; c; d] :: words_of_bytes bs
  | _ => []
  end.

Definition bytes_of_words (ws : list Z) : list byte := concat (le_split 4 <$> ws).

Definition text_of_bytes (bs : list byte) : text := Ascii.ascii_of_byte <$> bs.

Definition MAX_ELEMS : Z := 100000000.

(** ** The session *)

Section session.
Context (config : ExtendedConfig) (running : nat → bool) (can_allocate : Z → bool)
  (infer : nat → InferenceRequest → inference).

(** [resize], with [std::bad_alloc] turned into a [MemoryException]. *)
Definition allocate (elems : Z) : session_step () :=
  if can_allocate elems then mret () else leave (Caught MemoryException).

(** Every round but the last stores a byte: as many rounds as bytes to read and one
    more are enough. *)
Fixpoint read_payload (fuel bytes_to_read : nat) (acc : list byte) : session_step (list byte) :=
  match fuel with
  | O => leave NoFuel
  | S fuel =>
      if decide (length acc < bytes_to_read)%nat then
        '(n, bs) ← sock_read (bytes_to_read - length acc);
        if n <=? 0 then leave Disconnected
        else read_payload fuel bytes_to_read (acc ++ bs)
      else mret acc
  end.

Definition make_request (model_id : text) (input : list Z) : InferenceRequest := {|
  Types.model_id := model_id; shape := cfg_input_shape config; Types.input := input;
  output_capacity := Z.of_nat (length input); Types.device := cfg_device config |}.

Definition await_inference (req : InferenceRequest) :
    session_step (InferenceResponse * list Z) := λ c,
  let k := length (asked c) in
  let c := {| inbound := inbound c; capacities := capacities c; outbound := outbound c;
              asked := asked c ++ [req] |} in
  match infer k req with
  | Answered resp output => (inl (resp, output), c)
  | NeverAnswered => (inr AwaitingResponse, c)
  | Throws => (inr CaughtOther, c)
  end.

(** [output_buf.data()], [out_elems] floats of it: past its end is undefined. *)
Definition write_output (out_elems : Z) (output : list Z) : session_step () :=
  if decide (Z.to_nat out_elems <= length output)%nat then
    _ ← sock_write (bytes_of_words (take (Z.to_nat out_elems) output)); mret ()
  else leave Undefined.

Definition respond (resp : InferenceResponse) (output : list Z) : session_step () :=
  _ ← sock_write [byte.of_Z (if ok resp then 1 else 0)];
  _ ← sock_write (le_split 8 (latency_ns resp));
  _ ← sock_write (le_split 4 (output_elems_written resp));
  if ok resp && (0 <? output_elems_written resp)
  then write_output (output_elems_written resp) output
  else mret ().

(** One round of [while (g_running)]. *)
Definition serve_one : session_step () :=
  '(n, b) ← sock_read 1;
  if n <=? 0 then leave Disconnected else
  let model_id_len := Z.to_nat (le_combine (stored 1 b)) in
  '(n, id) ← sock_read model_id_len;
  if n <=? 0 then leave Disconnected else
  '(n, e) ← sock_read 4;
  if n <=? 0 then leave Disconnected else
  let input_elems := le_combine (stored 4 e) in
  if MAX_ELEMS <? input_elems then leave (Caught MemoryException) else
  _ ← allocate input_elems;
  let bytes_to_read := Z.to_nat (input_elems * 4) in
  payload ← read_payload (S bytes_to_read) bytes_to_read [];
  _ ← allocate input_elems;
  '(resp, output) ← await_inference
    (make_request (text_of_bytes (stored model_id_len id)) (words_of_bytes payload));
  respond resp output.

Fixpoint session (fuel round : nat) : session_step () :=
  match fuel with
  | O => leave NoFuel
  | S fuel =>
      if running round then _ ← serve_one; session fuel (S round)
      else leave ServerStopped
  end.
End session.

(** A connection on which nothing was exchanged yet. *)
Definition accepted (ev : list arrival) (caps : list Z) : connection :=
  {| inbound := ev; capacities := caps; outbound := []; asked := [] |}.

(** ** Specification *)

Record client_request := { rid : list byte; rinput : list Z }.

Definition request_ok (r : client_request) : Prop :=
  (0 < length (rid r) < 256)%nat ∧ Forall is_u32 (rinput r) ∧
  Z.of_nat (length (rinput r)) <= MAX_ELEMS.

(** The request frame of [docs/wire_protocol.md]. *)
Definition request_frame (r : client_request) : list byte :=
  [byte.of_Z (Z.of_nat (length (rid r)))] ++ rid r ++
  le_split 4 (Z.of_nat (length (rinput r))) ++ bytes_of_words (rinput r).

Definition gaps (n : nat) : list arrival := replicate n Gap.

(** A request frame as it may arrive: cut anywhere in the payload and between the
    fields, but not within a header field. *)
Definition arrives (r : client_request) (ev : list arrival) : Prop :=
  ∃ g1 g2 g3 pev,
    ev = gaps g1 ++ wire [byte.of_Z (Z.of_nat (length (rid r)))] ++
         gaps g2 ++ wire (rid r) ++
         gaps g3 ++ wire (le_split 4 (Z.of_nat (length (rinput r)))) ++ pev ∧
    paced (bytes_of_words (rinput r)) pev.

Inductive arrive : list client_request → list arrival → Prop :=
| arrive_nil : arrive [] []
| arrive_cons r rs ev evs : arrives r ev → arrive rs evs → arrive (r :: rs) (ev ++ evs).

(** The response frame. *)
Definition response_frame (resp : InferenceResponse) (output : list Z) : list byte :=
  [byte.of_Z (if ok resp then 1 else 0)] ++ le_split 8 (latency_ns resp) ++
  le_split 4 (output_elems_written resp) ++
  (if ok resp then bytes_of_words (take (Z.to_nat (output_elems_written resp)) output) else []).

(** The pieces of a response frame, one per [write] of the session. *)
Definition response_pieces (resp : InferenceResponse) (output : list Z) : list (list byte) :=
  [[byte.of_Z (if ok resp then 1 else 0)]; le_split 8 (latency_ns resp);
   le_split 4 (output_elems_written resp)] ++
  (if ok resp && (0 <? output_elems_written resp)
   then [bytes_of_words (take (Z.to_nat (output_elems_written resp)) output)] else []).

(** What the sockets accept of each piece. *)
Fixpoint sent_pieces (pieces : list (list byte)) (caps : list Z) : list (list byte) :=
  match pieces with
  | [] => []
  | bs :: pieces => let '(_, sent, caps) := send bs caps in sent :: sent_pieces pieces caps
  end.

(** ** Lemmas *)

Lemma words_of_bytes_of_words ws : Forall is_u32 ws → words_of_bytes (bytes_of_words ws) = ws.
Proof.
  induction 1 as [|w ws Hw Hws IH]; [done|]. unfold bytes_of_words in *. rewrite fmap_cons.
  pose proof (le_combine_split_small 4 w Hw) as Hc. pose proof (length_le_split 4 w) as Hl.
  destruct (le_split 4 w) as [|a [|b [|c [|d [|]]]]]; try discriminate Hl.
  cbn [concat app words_of_bytes]. by rewrite IH, Hc.
Qed.

Lemma length_bytes_of_words ws : length (bytes_of_words ws) = (4 * length ws)%nat.
Proof.
  induction ws as [|w ws IH]; [done|]. unfold bytes_of_words in *. rewrite fmap_cons.
  cbn [concat]. rewrite length_app, IH, length_le_split. simpl length. lia.
Qed.

Lemma stored_full bs : stored (length bs) bs = bs.
Proof. unfold stored. by rewrite Nat.sub_diag, app_nil_r. Qed.

Lemma await_gaps n ev : await_readable (gaps n ++ ev) = await_readable ev.
Proof. induction n as [|n IH]; [done|]. simpl. done. Qed.

Lemma sock_read_field k g bs ev c :
  k = length bs → bs ≠ [] → inbound c = gaps g ++ wire bs ++ ev →
  sock_read k c = (inl (Z.of_nat k, bs), with_inbound c ev).
Proof.
  intros -> Hne Hc. unfold sock_read. rewrite Hc, await_gaps.
  destruct bs as [|b bs]; [done|]. change (wire (b :: bs) ++ ev) with (Data b :: wire bs ++ ev).
  cbn [await_readable]. change (Data b :: wire bs ++ ev) with (wire (b :: bs) ++ ev).
  by rewrite read_exact.
Qed.

Lemma read_payload_paced fuel acc bs pev rest c :
  paced bs pev → (length bs < fuel)%nat → inbound c = pev ++ rest →
  read_payload fuel (length acc + length bs) acc c = (inl (acc ++ bs), with_inbound c rest).
Proof.
  revert acc bs pev c. induction fuel as [|fuel IH]; intros acc bs pev c Hp Hf Hc; [lia|].
  cbn [read_payload]. case_decide as Hlt.
  - destruct (paced_ready bs pev rest Hp) as (b & bs' & ev' & Hbs & Hp' & Hw).
    { intros ->. simpl in Hlt. lia. }
    rewrite Hbs in Hp'. destruct (read_paced b bs' ev' rest Hp')
      as (bs1 & bs2 & ev2 & Hsplit & Hne & Hp2 & Hread).
    replace (length acc + length bs - length acc)%nat with (length bs) by lia.
    assert (sock_read (length bs) c = (inl (Z.of_nat (length bs1), bs1), with_inbound c (ev2 ++ rest))) as Hs.
    { unfold sock_read. by rewrite Hc, Hw, Hbs, Hread. }
    unfold mbind, session_bind. rewrite Hs.
    assert (0 < length bs1)%nat by (destruct bs1; [done|simpl; lia]).
    rewrite (proj2 (Z.leb_gt _ _)) by lia.
    assert (length bs = length bs1 + length bs2)%nat as Hlen by (rewrite Hbs, Hsplit; apply length_app).
    specialize (IH (acc ++ bs1) bs2 ev2 (with_inbound c (ev2 ++ rest)) Hp2 ltac:(lia) eq_refl).
    rewrite length_app in IH. rewrite Hlen, Nat.add_assoc, IH, <- app_assoc, <- Hsplit, <- Hbs. done.
  - assert (bs = []) as -> by (destruct bs; [done|simpl in Hlt; lia]).
    inversion Hp; subst; [|done]. rewrite app_nil_r. by destruct c; simpl in *; subst.
Qed.

Section serving.
Context (config : ExtendedConfig) (running : nat → bool) (can_allocate : Z → bool)
  (infer : nat → InferenceRequest → inference).

Definition request_of (r : client_request) : InferenceRequest :=
  make_request config (text_of_bytes (rid r)) (rinput r).

(** The backend's promise: an answer within the output buffer. *)
Definition fits (resp : InferenceResponse) (output : list Z) : Prop :=
  0 <= output_elems_written resp ∧
  (Z.to_nat (output_elems_written resp) <= length output)%nat.

Lemma respond_sends resp output c :
  fits resp output → capacities c = [] →
  respond resp output c = (inl (), {| inbound := inbound c; capacities := [];
    outbound := outbound c ++ response_frame resp output; asked := asked c |}).
Proof.
  intros [H0 Hfit] Hc. unfold respond, sock_write, mbind, session_bind, send.
  rewrite Hc. cbn [inbound capacities outbound asked]. unfold response_frame.
  destruct (ok resp); cbn [andb].
  - destruct (Z.ltb_spec 0 (output_elems_written resp)).
    + unfold write_output. rewrite decide_True by done. unfold mbind, session_bind, sock_write, send.
      cbn [inbound capacities outbound asked mret session_ret]. by rewrite <- !app_assoc.
    + replace (output_elems_written resp) with 0 by lia.
      unfold mret, session_ret. by rewrite <- !app_assoc.
  - unfold mret, session_ret. by rewrite <- !app_assoc, app_nil_r.
Qed.

Lemma serve_one_request r ev rest c resp output :
  request_ok r → arrives r ev → inbound c = ev ++ rest → capacities c = [] →
  can_allocate (Z.of_nat (length (rinput r))) = true →
  infer (length (asked c)) (request_of r) = Answered resp output → fits resp output →
  serve_one config can_allocate infer c =
    (inl (), {| inbound := rest; capacities := []; outbound := outbound c ++ response_frame resp output;
                asked := asked c ++ [request_of r] |}).
Proof.
  intros (Hid & Hin & Hmax) (g1 & g2 & g3 & pev & -> & Hp) Hc Hcaps Halloc Hinf Hfit.
  rewrite <- !app_assoc in Hc. unfold serve_one.
  set (n := length (rid r)) in *. set (e := Z.of_nat (length (rinput r))) in *.
  assert (le_combine [byte.of_Z (Z.of_nat n)] = Z.of_nat n) as Hn.
  { apply (le_combine_split_small 1). lia. }
  assert (le_combine (le_split 4 e) = e) as He.
  { apply le_combine_split_small. unfold MAX_ELEMS in Hmax. lia. }
  unfold mbind at 1, session_bind at 1.
  rewrite (sock_read_field 1 g1 [byte.of_Z (Z.of_nat n)] _ c eq_refl ltac:(done) Hc).
  rewrite (proj2 (Z.leb_gt _ _)) by lia.
  change (stored 1 [byte.of_Z (Z.of_nat n)]) with [byte.of_Z (Z.of_nat n)].
  rewrite Hn, Nat2Z.id. unfold mbind at 1, session_bind at 1.
  rewrite (sock_read_field n g2 (rid r) (gaps g3 ++ wire (le_split 4 e) ++ pev ++ rest));
    [|done|intros Hnil; unfold n in Hid; rewrite Hnil in Hid; simpl in Hid; lia|done].
  rewrite (proj2 (Z.leb_gt _ _)) by lia.
  unfold mbind at 1, session_bind at 1.
  rewrite (sock_read_field 4 g3 (le_split 4 e) (pev ++ rest));
    [|by rewrite length_le_split|by intros Hnil; pose proof (length_le_split 4 e) as Hl;
      rewrite Hnil in Hl|done].
  rewrite (proj2 (Z.leb_gt _ _)) by lia.
  assert (stored 4 (le_split 4 e) = le_split 4 e) as ->
    by (rewrite <- (length_le_split 4 e) at 1; apply stored_full).
  rewrite He, (proj2 (Z.ltb_ge _ _)) by done.
  unfold allocate. rewrite Halloc.
  unfold mbind at 1, session_bind at 1. cbn [mret session_ret].
  unfold mbind at 1, session_bind at 1.
  replace (Z.to_nat (e * 4)) with (length (bytes_of_words (rinput r)))
    by (rewrite length_bytes_of_words; unfold e; lia).
  rewrite (read_payload_paced _ [] (bytes_of_words (rinput r)) pev rest) by (done || lia).
  unfold mbind at 1, session_bind at 1.
  unfold mbind at 1, session_bind at 1.
  unfold n at 1. cbn [app]. unfold mret at 1, session_ret at 1.
  unfold await_inference. cbn [asked with_inbound].
  rewrite stored_full, words_of_bytes_of_words by done. fold (request_of r). rewrite Hinf.
  by rewrite respond_sends.
Qed.

(** What the answers to a list of requests send, the first asked as number [k]. *)
Inductive answers : nat → list client_request → list byte → Prop :=
| answers_nil k : answers k [] []
| answers_cons k r rs resp output out :
    infer k (request_of r) = Answered resp output → fits resp output →
    answers (S k) rs out → answers k (r :: rs) (response_frame resp output ++ out).

Lemma session_serves rs ev rest out fuel round c :
  Forall request_ok rs → arrive rs ev → inbound c = ev ++ rest → capacities c = [] →
  Forall (λ r, can_allocate (Z.of_nat (length (rinput r))) = true) rs →
  answers (length (asked c)) rs out → (∀ k, (k < round + length rs)%nat → running k = true) →
  session config running can_allocate infer (length rs + fuel) round c =
  session config running can_allocate infer fuel (round + length rs)
    {| inbound := rest; capacities := []; outbound := outbound c ++ out;
       asked := asked c ++ (request_of <$> rs) |}.
Proof.
  intros Hok Harr. revert out round c.
  induction Harr as [|r rs ev evs Hr Hrs IH]; intros out round c Hc Hcaps Hall Hans Hrun.
  - inversion Hans; subst. simpl in *. rewrite Nat.add_0_r, !app_nil_r.
    by destruct c; simpl in *; subst.
  - apply Forall_cons in Hok as [Hr0 Hok]. apply Forall_cons in Hall as [Ha Hall].
    inversion Hans as [|? ? ? resp output out' Hinf Hfit Hans']; subst.
    rewrite <- app_assoc in Hc. cbn [length Nat.add session].
    rewrite Hrun by (simpl; lia). unfold mbind at 1, session_bind at 1.
    rewrite (serve_one_request r ev (evs ++ rest) c resp output) by done.
    rewrite (IH Hok out').
    + cbn [inbound capacities outbound asked]. simpl length.
      rewrite Nat.add_succ_r, fmap_cons, <- !app_assoc. done.
    + done.
    + done.
    + done.
    + cbn [asked]. rewrite length_app. simpl. by rewrite Nat.add_1_r.
    + intros k Hk. apply Hrun. simpl. lia.
Qed.
End serving.

(** ** Termination *)

(** [steps k m]: [m] never runs out of fuel, and each of its results [a] took at least
    [k a] of what was to arrive. *)
Definition steps {A} (k : A → nat) (m : session_step A) : Prop :=
  ∀ c, match m c with
       | (inl a, c') => (length (inbound c') + k a <= length (inbound c))%nat
       | (inr e, _) => e ≠ NoFuel
       end.

Definition none {A} (_ : A) : nat := 0%nat.

Lemma steps_ret {A} (a : A) : steps none (mret a).
Proof. intros c. unfold none. simpl. lia. Qed.

Lemma steps_leave {A} (k : A → nat) e : e ≠ NoFuel → steps k (leave e).
Proof. by intros He c. Qed.

Lemma steps_bind {A B} (k : A → nat) (j : nat) (m : session_step A) (f : A → session_step B) :
  steps k m → (∀ a, steps (λ _, j - k a)%nat (f a)) → steps (λ _, j) (m ≫= f).
Proof.
  intros Hm Hf c. specialize (Hm c). unfold mbind, session_bind.
  destruct (m c) as [[a|e] c1]; [|done]. specialize (Hf a c1).
  destruct (f a c1) as [[b|e] c2]; [|done]. lia.
Qed.

Lemma await_readable_length ev ev' :
  await_readable ev = Some ev' → (length ev' <= length ev)%nat.
Proof.
  induction ev as [|[] ev IH]; simpl; intros H; simplify_eq/=; try lia. specialize (IH H). lia.
Qed.

(** A read that stores bytes takes at least one arrival. *)
Lemma steps_read len : steps (λ r : Z * list byte, if r.1 <=? 0 then 0%nat else 1%nat) (sock_read len).
Proof.
  intros c. unfold sock_read. destruct (await_readable (inbound c)) as [ev|] eqn:Ha; [|done].
  apply await_readable_length in Ha.
  destruct (read_loop_spec (S len) len [] ev) as (n & bs & ev' & Hr & Hl & Hn & Hev); [simpl; lia|simpl; lia|].
  unfold await_resume. rewrite Hr. simpl in *.
  assert (length ev' + length bs <= length ev)%nat.
  { unfold wire in Hev. destruct Hev as [->|[->| ->]];
      rewrite ?length_app, ?length_cons, length_fmap; simpl; lia. }
  destruct (Z.leb_spec n 0); lia.
Qed.

Lemma steps_write bs : steps none (sock_write bs).
Proof. intros c. unfold sock_write, none. destruct (send _ _) as [[n sent] caps]. simpl. lia. Qed.

Lemma steps_weaken {A} (k : A → nat) (m : session_step A) : steps k m → steps none m.
Proof.
  intros Hm c. specialize (Hm c). unfold none. destruct (m c) as [[a|e] c1]; [lia|done].
Qed.

Section termination.
Context (config : ExtendedConfig) (running : nat → bool) (can_allocate : Z → bool)
  (infer : nat → InferenceRequest → inference).

Lemma steps_payload fuel n acc : (n - length acc < fuel)%nat → steps none (read_payload fuel n acc).
Proof.
  revert acc. induction fuel as [|fuel IH]; intros acc Hf; [lia|]. cbn [read_payload].
  case_decide as Hlt; [|apply steps_ret]. intros c. unfold mbind, session_bind.
  unfold sock_read. destruct (await_readable (inbound c)) as [ev|] eqn:Ha; [|done].
  apply await_readable_length in Ha.
  destruct (read_loop_spec (S (n - length acc)) (n - length acc) [] ev)
    as (m & bs & ev' & Hr & Hl & Hm & Hev); [simpl; lia|simpl; lia|].
  unfold await_resume. rewrite Hr. cbn [app].
  assert (length ev' <= length ev)%nat.
  { unfold wire in Hev. destruct Hev as [->|[->| ->]];
      rewrite ?length_app, ?length_cons, length_fmap; simpl; lia. }
  destruct (Z.leb_spec m 0); [done|]. simpl in Hm.
  specialize (IH (acc ++ bs)). rewrite length_app in IH. specialize (IH ltac:(lia) (with_inbound c ev')).
  destruct (read_payload fuel n (acc ++ bs) (with_inbound c ev')) as [[a|e] c2]; [|done].
  unfold none in *. simpl in IH. lia.
Qed.

Lemma steps_respond resp output : steps none (respond resp output).
Proof.
  unfold respond. do 3 (apply (steps_bind none 0); [apply steps_write|intros ?]).
  case_match; [|apply steps_ret]. unfold write_output. case_decide; [|by apply steps_leave].
  apply (steps_bind none 0); [apply steps_write|intros ?; apply steps_ret].
Qed.

Lemma steps_allocate n : steps none (allocate can_allocate n).
Proof. unfold allocate. case_match; [apply steps_ret|by apply steps_leave]. Qed.

Lemma steps_inference req : steps none (await_inference infer req).
Proof. intros c. unfold await_inference, none. destruct (infer _ _); simpl; [lia|done|done]. Qed.

Lemma steps_serve_one : steps (λ _, 1%nat) (serve_one config can_allocate infer).
Proof.
  unfold serve_one. eapply steps_bind; [apply steps_read|]. intros [n b]. cbn [fst].
  case_match; [by apply steps_leave|]. change (1 - 1)%nat with 0%nat.
  eapply steps_bind; [eapply steps_weaken, steps_read|]. intros [n2 id].
  case_match; [by apply steps_leave|].
  eapply steps_bind; [eapply steps_weaken, steps_read|]. intros [n3 e].
  case_match; [by apply steps_leave|]. case_match; [by apply steps_leave|].
  eapply steps_bind; [apply steps_allocate|]. intros ?.
  eapply steps_bind; [apply steps_payload; simpl; lia|]. intros payload.
  eapply steps_bind; [apply steps_allocate|]. intros ?.
  eapply steps_bind; [apply steps_inference|]. intros [resp output]. apply steps_respond.
Qed.

Lemma session_fuel fuel round c :
  (length (inbound c) < fuel)%nat →
  ∃ e c', session config running can_allocate infer fuel round c = (inr e, c') ∧ e ≠ NoFuel.
Proof.
  revert round c. induction fuel as [|fuel IH]; intros round c Hf; [lia|]. cbn [session].
  destruct (running round); [|by eexists _, _].
  unfold mbind, session_bind. pose proof (steps_serve_one c) as Hs.
  destruct (serve_one config can_allocate infer c) as [[[]|e] c1]; [|by eexists _, _].
  apply IH. lia.
Qed.
End termination.

(** ** Short reads and short writes *)

(** A read of [k] bytes ends at a gap, with what came before it. *)
Lemma sock_read_cut k bs rest c :
  bs ≠ [] → (length bs <= k)%nat → inbound c = wire bs ++ Gap :: rest →
  sock_read k c = (inl (Z.of_nat (length bs), bs), with_inbound c (Gap :: rest)).
Proof.
  intros Hne Hk Hc. unfold sock_read. rewrite Hc.
  destruct bs as [|b bs]; [done|]. change (wire (b :: bs) ++ Gap :: rest)
    with (Data b :: (wire bs ++ Gap :: rest)). cbn [await_readable].
  change (Data b :: (wire bs ++ Gap :: rest)) with (wire (b :: bs) ++ Gap :: rest).
  unfold await_resume. assert (0 < length (b :: bs))%nat by (simpl; lia).
  remember (b :: bs) as l eqn:El. clear El. cbn [read_loop].
  rewrite decide_True by (simpl length; lia). rewrite recv_wire; [|done|simpl; lia|].
  2: { by destruct (_ - _)%nat. }
  destruct k as [|k]; [lia|]. cbn [read_loop app].
  case_decide; [by rewrite (recv_gap (S k - length l) rest)|done].
Qed.

Lemma stored_length n bs : (length bs <= n)%nat → length (stored n bs) = n.
Proof. intros H. unfold stored. rewrite length_app, length_replicate. lia. Qed.

Lemma stored_stored n bs : (length bs <= n)%nat → stored n (stored n bs) = stored n bs.
Proof. intros H. rewrite <- (stored_length n bs H) at 1. apply stored_full. Qed.

Lemma stored_nonempty n bs : bs ≠ [] → stored n bs ≠ [].
Proof. by destruct bs. Qed.

(** To the session a field cut by a gap is the field padded with zero bytes. *)
Lemma sock_read_padded k bs rest c :
  bs ≠ [] → (length bs <= k)%nat → inbound c = wire bs ++ Gap :: rest →
  ∃ n n', 0 < n ∧ 0 < n' ∧
    sock_read k c = (inl (n, bs), with_inbound c (Gap :: rest)) ∧
    sock_read k (with_inbound c (wire (stored k bs) ++ Gap :: rest)) =
      (inl (n', stored k bs), with_inbound c (Gap :: rest)).
Proof.
  intros Hne Hk Hc. assert (0 < length bs)%nat by (destruct bs; [done|simpl; lia]).
  exists (Z.of_nat (length bs)), (Z.of_nat (length (stored k bs))).
  pose proof (stored_length k bs Hk). split_and!; [lia|lia|by apply sock_read_cut|].
  rewrite (sock_read_cut _ (stored k bs) rest); [done|by apply stored_nonempty|lia|done].
Qed.

Lemma text_of_bytes_inj bs bs' : text_of_bytes bs = text_of_bytes bs' → bs = bs'.
Proof.
  unfold text_of_bytes. revert bs'. induction bs as [|b bs IH]; intros [|b' bs'] H; simplify_eq/=; try done.
  f_equal; [|by apply IH]. apply (f_equal Ascii.byte_of_ascii) in H.
  by rewrite !Ascii.byte_of_ascii_of_byte in H.
Qed.

(** [asks P m]: [m] asks the runtime at most once, a request with [P]. *)
Definition asks {A} (P : InferenceRequest → Prop) (m : session_step A) : Prop :=
  ∀ c, asked (m c).2 = asked c ∨ ∃ req, P req ∧ asked (m c).2 = asked c ++ [req].

Definition asks_nothing {A} (m : session_step A) : Prop := ∀ c, asked (m c).2 = asked c.

Lemma asks_nothing_bind {A B} (m : session_step A) (f : A → session_step B) :
  asks_nothing m → (∀ a, asks_nothing (f a)) → asks_nothing (m ≫= f).
Proof.
  intros Hm Hf c. specialize (Hm c). unfold mbind, session_bind.
  destruct (m c) as [[a|e] c1]; [|done]. simpl in Hm. by rewrite (Hf a c1).
Qed.

Lemma asks_after {A B} P (m : session_step A) (f : A → session_step B) :
  asks_nothing m → (∀ a, asks P (f a)) → asks P (m ≫= f).
Proof.
  intros Hm Hf c. specialize (Hm c). unfold mbind, session_bind.
  destruct (m c) as [[a|e] c1]; [|by left]. simpl in Hm. specialize (Hf a c1). by rewrite Hm in Hf.
Qed.

Lemma asks_before {A B} P (m : session_step A) (f : A → session_step B) :
  asks P m → (∀ a, asks_nothing (f a)) → asks P (m ≫= f).
Proof.
  intros Hm Hf c. specialize (Hm c). unfold mbind, session_bind.
  destruct (m c) as [[a|e] c1]; [|done]. simpl in Hm. by rewrite (Hf a c1).
Qed.

Lemma asks_nothing_asks {A} P (m : session_step A) : asks_nothing m → asks P m.
Proof. intros H c. left. apply H. Qed.

Lemma asks_nothing_ret {A} (a : A) : asks_nothing (mret a).
Proof. done. Qed.

Lemma asks_nothing_leave {A} e : asks_nothing (leave (A := A) e).
Proof. done. Qed.

Lemma asks_nothing_read k : asks_nothing (sock_read k).
Proof.
  intros c. unfold sock_read. destruct (await_readable _); [|done].
  destruct (await_resume _ _) as [[[n bs] ev]|]; done.
Qed.

Lemma asks_nothing_write bs : asks_nothing (sock_write bs).
Proof. intros c. unfold sock_write. by destruct (send _ _) as [[n sent] caps]. Qed.

Create HintDb asking.
#[export] Hint Resolve asks_nothing_ret asks_nothing_leave asks_nothing_read asks_nothing_write
  asks_nothing_bind : asking.

Lemma asks_nothing_allocate can_allocate n : asks_nothing (allocate can_allocate n).
Proof. unfold allocate. case_match; auto with asking. Qed.

Lemma asks_nothing_payload fuel n acc : asks_nothing (read_payload fuel n acc).
Proof.
  revert acc. induction fuel as [|fuel IH]; intros acc; cbn [read_payload]; [auto with asking|].
  case_decide; [|auto with asking]. apply asks_nothing_bind; [auto with asking|].
  intros [m bs]. case_match; auto with asking.
Qed.

Lemma asks_nothing_respond resp output : asks_nothing (respond resp output).
Proof.
  unfold respond. do 3 (apply asks_nothing_bind; [auto with asking|intros ?]).
  case_match; [|auto with asking]. unfold write_output. case_decide; auto with asking.
Qed.

#[export] Hint Resolve asks_nothing_allocate asks_nothing_payload asks_nothing_respond : asking.

Section cuts.
Context (config : ExtendedConfig) (can_allocate : Z → bool)
  (infer : nat → InferenceRequest → inference).

(** What [serve_one] does once it has the id, and once it has the count. *)
Definition after_count (model_id_len : nat) (id e : list byte) : session_step () :=
  let input_elems := le_combine (stored 4 e) in
  if MAX_ELEMS <? input_elems then leave (Caught MemoryException) else
  _ ← allocate can_allocate input_elems;
  let bytes_to_read := Z.to_nat (input_elems * 4) in
  payload ← read_payload (S bytes_to_read) bytes_to_read [];
  _ ← allocate can_allocate input_elems;
  '(resp, output) ← await_inference infer
    (make_request config (text_of_bytes (stored model_id_len id)) (words_of_bytes payload));
  respond resp output.

Definition after_id (model_id_len : nat) (id : list byte) : session_step () :=
  '(n, e) ← sock_read 4;
  if n <=? 0 then leave Disconnected else after_count model_id_len id e.

Lemma serve_one_after_len n ev c :
  (n < 256)%nat → inbound c = wire [byte.of_Z (Z.of_nat n)] ++ ev →
  serve_one config can_allocate infer c =
    ('(m, id) ← sock_read n; if m <=? 0 then leave Disconnected else after_id n id)
      (with_inbound c ev).
Proof.
  intros Hn Hc. unfold serve_one. unfold mbind at 1, session_bind at 1.
  rewrite (sock_read_field 1 0 [byte.of_Z (Z.of_nat n)] ev c eq_refl ltac:(done) Hc).
  rewrite (proj2 (Z.leb_gt _ _)) by lia.
  change (stored 1 [byte.of_Z (Z.of_nat n)]) with [byte.of_Z (Z.of_nat n)].
  assert (le_combine [byte.of_Z (Z.of_nat n)] = Z.of_nat n) as ->
    by (apply (le_combine_split_small 1); lia).
  by rewrite Nat2Z.id.
Qed.

Lemma asks_after_id n id :
  asks (λ req, Types.model_id req = text_of_bytes (stored n id)) (after_id n id).
Proof.
  unfold after_id. apply asks_after; [auto with asking|]. intros [m e].
  case_match; [apply asks_nothing_asks; auto with asking|]. unfold after_count.
  case_match; [apply asks_nothing_asks; auto with asking|].
  apply asks_after; [auto with asking|intros ?]. apply asks_after; [auto with asking|intros payload].
  apply asks_after; [auto with asking|intros ?]. apply asks_before; [|intros []; auto with asking].
  intros c. right. unfold await_inference. destruct (infer _ _); (eexists; split; [|reflexivity]; done).
Qed.

(** A cut id is served as the padded one. *)
Lemma serve_one_cut_id n id rest c :
  (n < 256)%nat → id ≠ [] → (length id <= n)%nat →
  inbound c = wire [byte.of_Z (Z.of_nat n)] ++ wire id ++ Gap :: rest →
  serve_one config can_allocate infer c = after_id n id (with_inbound c (Gap :: rest)) ∧
  serve_one config can_allocate infer
    (with_inbound c (wire [byte.of_Z (Z.of_nat n)] ++ wire (stored n id) ++ Gap :: rest)) =
    after_id n id (with_inbound c (Gap :: rest)).
Proof.
  intros Hn Hne Hl Hc.
  destruct (sock_read_padded n id rest (with_inbound c (wire id ++ Gap :: rest)) Hne Hl eq_refl)
    as (m & m' & Hm & Hm' & H1 & H2).
  rewrite (serve_one_after_len n _ c Hn Hc).
  rewrite (serve_one_after_len n _ (with_inbound c _) Hn eq_refl).
  unfold mbind at 1 2, session_bind at 1 2. split.
  - by rewrite H1, (proj2 (Z.leb_gt _ _)) by lia.
  - change (with_inbound (with_inbound c ?a) ?b) with (with_inbound c b) in *.
    rewrite H2, (proj2 (Z.leb_gt _ _)) by lia. unfold after_id, after_count.
    by rewrite stored_stored.
Qed.

Lemma serve_one_cut_count id e rest c :
  (0 < length id < 256)%nat → e ≠ [] → (length e <= 4)%nat →
  inbound c = wire [byte.of_Z (Z.of_nat (length id))] ++ wire id ++ wire e ++ Gap :: rest →
  serve_one config can_allocate infer c =
    serve_one config can_allocate infer
      (with_inbound c (wire [byte.of_Z (Z.of_nat (length id))] ++ wire id ++
                       wire (stored 4 e) ++ Gap :: rest)).
Proof.
  intros Hid Hne Hl Hc.
  rewrite (serve_one_after_len (length id) _ c ltac:(lia) Hc).
  rewrite (serve_one_after_len (length id) _ (with_inbound c _) ltac:(lia) eq_refl).
  change (with_inbound (with_inbound c ?a) ?b) with (with_inbound c b).
  assert (id ≠ []) by (intros ->; simpl in Hid; lia).
  unfold mbind at 1 2, session_bind at 1 2.
  rewrite (sock_read_field (length id) 0 id (wire e ++ Gap :: rest)) by done.
  rewrite (sock_read_field (length id) 0 id (wire (stored 4 e) ++ Gap :: rest)) by done.
  rewrite (proj2 (Z.leb_gt _ _)) by lia.
  change (with_inbound (with_inbound c ?a) ?b) with (with_inbound c b).
  destruct (sock_read_padded 4 e rest (with_inbound c (wire e ++ Gap :: rest)) Hne Hl eq_refl)
    as (m & m' & Hm & Hm' & H1 & H2).
  change (with_inbound (with_inbound c ?a) ?b) with (with_inbound c b) in *.
  unfold after_id. unfold mbind at 1 2, session_bind at 1 2. rewrite H1, H2.
  rewrite !(proj2 (Z.leb_gt _ _)) by lia. unfold after_count. by rewrite stored_stored.
Qed.
End cuts.

(** *** Writes *)

Lemma concat_response_pieces resp output :
  0 <= output_elems_written resp →
  concat (response_pieces resp output) = response_frame resp output.
Proof.
  intros H0. unfold response_pieces, response_frame. rewrite concat_app. cbn [concat].
  rewrite <- !app_assoc. f_equal. f_equal. f_equal. destruct (ok resp); [|done]. simpl.
  destruct (Z.ltb_spec 0 (output_elems_written resp)); simpl; [by rewrite app_nil_r|].
  by replace (output_elems_written resp) with 0 by lia.
Qed.

(** One [send] takes a prefix of its piece, a shorter one when its capacity is. *)
Lemma send_prefix bs caps :
  ∃ n k, send bs caps = (n, take k bs, drop 1 caps) ∧
    ∀ m, caps !! 0%nat = Some m → m < Z.of_nat (length bs) → bs ≠ [] →
         (length (take k bs) < length bs)%nat.
Proof.
  destruct caps as [|m caps]; simpl.
  - exists (Z.of_nat (length bs)), (length bs). by rewrite firstn_all.
  - rewrite drop_0. destruct (Z.ltb_spec m 0) as [Hm|Hm].
    + exists (-1), 0%nat. split; [done|]. intros ? _ _ Hne. destruct bs; [done|simpl; lia].
    + exists (Z.of_nat (length (take (Z.to_nat m) bs))), (Z.to_nat m). split; [done|].
      intros ? [= <-] Hlt _. rewrite length_take. lia.
Qed.

Lemma sent_pieces_length pieces caps :
  (length (concat (sent_pieces pieces caps)) <= length (concat pieces))%nat.
Proof.
  revert caps. induction pieces as [|bs pieces IH]; intros caps; simpl; [lia|].
  destruct (send_prefix bs caps) as (n & k & -> & _). cbn [concat].
  rewrite !length_app, length_take. specialize (IH (drop 1 caps)). lia.
Qed.

Lemma sent_pieces_short pieces caps i bs m :
  pieces !! i = Some bs → caps !! i = Some m → m < Z.of_nat (length bs) → bs ≠ [] →
  (length (concat (sent_pieces pieces caps)) < length (concat pieces))%nat.
Proof.
  revert caps i. induction pieces as [|p pieces IH]; intros caps i Hp Hc Hm Hne; [done|].
  simpl. destruct (send_prefix p caps) as (n & k & -> & Hk). cbn [concat]. rewrite !length_app.
  destruct i as [|i]; simpl in Hp.
  - simplify_eq. specialize (Hk m Hc Hm Hne). pose proof (sent_pieces_length pieces (drop 1 caps)). lia.
  - assert (length (take k p) <= length p)%nat by (rewrite length_take; lia).
    specialize (IH (drop 1 caps) i Hp). rewrite lookup_drop in IH. specialize (IH Hc Hm Hne). lia.
Qed.

Lemma response_pieces_nonempty resp output i bs :
  fits resp output → response_pieces resp output !! i = Some bs → bs ≠ [].
Proof.
  intros [H0 Hfit] H. apply list_elem_of_lookup_2 in H. unfold response_pieces in H.
  assert (∀ n z, n ≠ 0%nat → le_split n z ≠ []) as Hle.
  { intros n z Hn Hnil. pose proof (length_le_split n z) as Hl. rewrite Hnil in Hl. simpl in Hl. lia. }
  apply elem_of_app in H as [H|H].
  - set_solver.
  - case_match eqn:E; [|by apply not_elem_of_nil in H]. apply list_elem_of_singleton in H as ->.
    apply andb_true_iff in E as [_ E]. apply Z.ltb_lt in E. intros Hnil.
    apply (f_equal length) in Hnil. rewrite length_bytes_of_words, length_take in Hnil. simpl in Hnil. lia.
Qed.

Lemma sock_write_sends bs c :
  ∃ n, sock_write bs c =
    (inl n, {| inbound := inbound c; capacities := drop 1 (capacities c);
               outbound := outbound c ++ (send bs (capacities c)).1.2; asked := asked c |}).
Proof.
  unfold sock_write. destruct (send_prefix bs (capacities c)) as (n & k & -> & _). by exists n.
Qed.

Lemma respond_sends_pieces resp output c :
  fits resp output →
  ∃ c', respond resp output c = (inl (), c') ∧ inbound c' = inbound c ∧ asked c' = asked c ∧
    outbound c' = outbound c ++ concat (sent_pieces (response_pieces resp output) (capacities c)).
Proof.
  intros [H0 Hfit]. unfold respond, response_pieces.
  destruct (sock_write_sends [byte.of_Z (if ok resp then 1 else 0)] c) as (n1 & E1).
  unfold mbind, session_bind. rewrite E1.
  match goal with |- context [sock_write (le_split 8 _) ?c1] =>
    destruct (sock_write_sends (le_split 8 (latency_ns resp)) c1) as (n2 & E2); rewrite E2 end.
  match goal with |- context [sock_write (le_split 4 _) ?c1] =>
    destruct (sock_write_sends (le_split 4 (output_elems_written resp)) c1) as (n3 & E3); rewrite E3 end.
  cbn [inbound capacities outbound asked app].
  destruct (send_prefix [byte.of_Z (if ok resp then 1 else 0)] (capacities c)) as (m1 & k1 & S1 & _).
  destruct (send_prefix (le_split 8 (latency_ns resp)) (drop 1 (capacities c))) as (m2 & k2 & S2 & _).
  destruct (send_prefix (le_split 4 (output_elems_written resp)) (drop 1 (drop 1 (capacities c))))
    as (m3 & k3 & S3 & _).
  cbn [sent_pieces]. rewrite S1, S2, S3. cbn [fst snd].
  destruct (ok resp && (0 <? output_elems_written resp)).
  - unfold write_output. rewrite decide_True by done. unfold mbind, session_bind.
    match goal with |- context [sock_write ?bs ?c1] =>
      destruct (sock_write_sends bs c1) as (n4 & E4); rewrite E4 end.
    cbn [inbound capacities outbound asked sent_pieces].
    destruct (send_prefix (bytes_of_words (take (Z.to_nat (output_elems_written resp)) output))
      (drop 1 (drop 1 (drop 1 (capacities c))))) as (m4 & k4 & S4 & _).
    rewrite S4. eexists. split_and!; [done|done|done|]. cbn [outbound fst snd concat].
    by rewrite app_nil_r, <- !app_assoc.
  - eexists. split_and!; [done|done|done|]. cbn [outbound sent_pieces concat].
    by rewrite app_nil_r, <- !app_assoc.
Qed.

(** ** Properties *)

(** C19. A client that sends any number of well-formed request frames and closes is
    served, when its socket accepts every write whole ([capacities] is empty) and the
    buffers can be allocated: however the payloads and the spaces between fields are cut up on the way
    (the header fields arriving whole), the runtime is asked exactly the requests, in
    order, with the shape and the device of the server's configuration, and what is sent
    back is the response frames, in order, before the session notices the hangup. *)
Theorem session_serves_requests config running can_allocate infer rs ev out fuel :
  Forall request_ok rs → arrive rs ev →
  Forall (λ r, can_allocate (Z.of_nat (length (rinput r))) = true) rs →
  answers config infer 0 rs out → (∀ k, (k <= length rs)%nat → running k = true) →
  session config running can_allocate infer (length rs + S fuel) 0
    (accepted (ev ++ [Hangup]) []) =
  (inr Disconnected,
   {| inbound := [Hangup]; capacities := []; outbound := out; asked := request_of config <$> rs |}).
Proof.
  intros Hok Harr Hall Hans Hrun.
  rewrite (session_serves config running can_allocate infer rs ev [Hangup] out) by
    (done || (intros k Hk; apply Hrun; lia)).
  cbn [Nat.add session]. by rewrite Hrun by lia.
Qed.

(** A backend that answers every request with its input. *)
Definition echo (k : nat) (req : InferenceRequest) : inference :=
  Answered {| ok := true; error := []; resp_shape := []; output_elems_written := Z.of_nat (length (Types.input req));
              latency_ns := Z.of_nat k; routing_ns := 0; queue_wait_ns := 0; execution_ns := 0; send_ns := 0 |}
    (Types.input req).

Definition demo_request (n : Z) : client_request :=
  {| rid := [Byte.x61; Byte.x62]; rinput := [n; 7] |}.

Lemma session_serves_requests_witness :
  ∃ c, session default_extended_config (λ _, true) (λ _, true) echo 3 0
    (accepted ((wire (request_frame (demo_request 5)) ++ wire (request_frame (demo_request 6)))
               ++ [Hangup]) []) = (inr Disconnected, c) ∧ length (asked c) = 2%nat.
Proof.
  assert (∀ n, arrives (demo_request n) (wire (request_frame (demo_request n)))) as Ha.
  { intros n. exists 0%nat, 0%nat, 0%nat, (wire (bytes_of_words [n; 7])).
    split; [reflexivity|apply paced_wire]. }
  eexists. split.
  - eapply (session_serves_requests default_extended_config (λ _, true) (λ _, true) echo
      [demo_request 5; demo_request 6] _ _ 0).
    + apply Forall_cons; split; [|apply Forall_singleton];
        (split; [simpl; lia|split; [|simpl; unfold MAX_ELEMS; lia]]);
        (apply Forall_cons; split; [unfold is_u32; lia|apply Forall_singleton; unfold is_u32; lia]).
    + eapply arrive_cons; [apply Ha|]. rewrite <- (app_nil_r (wire (request_frame (demo_request 6)))).
      eapply arrive_cons; [apply Ha|constructor].
    + by repeat constructor.
    + eapply answers_cons; [reflexivity|split; simpl; lia|].
      eapply answers_cons; [reflexivity|split; simpl; lia|constructor].
    + done.
  - reflexivity.
Defined.

(** C20. Every session comes to an end or to a point where it waits, in at most as many
    rounds as there are arrivals. A request without a model id or a wakeup with nothing to read
    closes the connection, a request announcing more than [MAX_ELEMS] floats is an
    exception; none of them is answered, and the runtime is not asked. The wire protocol
    document promises an answer with [ok] = 0 when a validation fails; the session gives
    none. *)
Theorem session_ends config running can_allocate infer :
  (∀ c, ∃ e c', session config running can_allocate infer (S (length (inbound c))) 0 c = (inr e, c') ∧
     e ≠ NoFuel) ∧
  (∀ c b ev, inbound c = Data Byte.x00 :: Data b :: ev →
     serve_one config can_allocate infer c = (inr Disconnected, with_inbound c (Data b :: ev))) ∧
  (∀ c ev, inbound c = Wake :: ev →
     serve_one config can_allocate infer c = (inr Disconnected, with_inbound c ev)) ∧
  (∀ c id n ev, (0 < length id < 256)%nat → MAX_ELEMS < n < 2 ^ 32 →
     inbound c = wire ([byte.of_Z (Z.of_nat (length id))] ++ id ++ le_split 4 n) ++ ev →
     serve_one config can_allocate infer c = (inr (Caught MemoryException), with_inbound c ev)).
Proof.
  split; [|split; [|split]].
  - intros c. apply session_fuel. lia.
  - intros c b ev Hc. unfold serve_one, mbind, session_bind, sock_read. rewrite Hc. done.
  - intros c ev Hc. unfold serve_one, mbind, session_bind, sock_read. rewrite Hc. done.
  - intros c id n ev Hid Hn Hc. unfold wire in Hc. rewrite !fmap_app, <- !app_assoc in Hc.
    change (fmap Data) with wire in Hc.
    assert (le_combine [byte.of_Z (Z.of_nat (length id))] = Z.of_nat (length id)) as Hl.
    { apply (le_combine_split_small 1). lia. }
    unfold serve_one. unfold mbind at 1, session_bind at 1.
    rewrite (sock_read_field 1 0 [byte.of_Z (Z.of_nat (length id))] _ c eq_refl ltac:(done) Hc).
    rewrite (proj2 (Z.leb_gt _ _)) by lia.
    change (stored 1 [byte.of_Z (Z.of_nat (length id))]) with [byte.of_Z (Z.of_nat (length id))].
    rewrite Hl, Nat2Z.id. unfold mbind at 1, session_bind at 1.
    rewrite (sock_read_field (length id) 0 id (wire (le_split 4 n) ++ ev));
      [|done|by intros ->; simpl in Hid; lia|done].
    rewrite (proj2 (Z.leb_gt _ _)) by lia. unfold mbind at 1, session_bind at 1.
    rewrite (sock_read_field 4 0 (le_split 4 n) ev);
      [|by rewrite length_le_split|by intros Hnil; pose proof (length_le_split 4 n) as H4;
        rewrite Hnil in H4|done].
    rewrite (proj2 (Z.leb_gt _ _)) by lia.
    assert (stored 4 (le_split 4 n) = le_split 4 n) as ->
      by (rewrite <- (length_le_split 4 n) at 1; apply stored_full).
    assert (0 <= n) by (unfold MAX_ELEMS in Hn; lia).
    rewrite le_combine_split_small by lia. by rewrite (proj2 (Z.ltb_lt _ _)) by lia.
Qed.

Lemma session_ends_witness :
  serve_one default_extended_config (λ _, true) echo
    (accepted (wire ([Byte.x01] ++ [Byte.x61] ++ le_split 4 100000001)) []) =
  (inr (Caught MemoryException), accepted [] []).
Proof.
  destruct (session_ends default_extended_config (λ _, true) (λ _, true) echo) as (_ & _ & _ & H).
  apply (H (accepted (wire ([Byte.x01] ++ [Byte.x61] ++ le_split 4 100000001)) []) [Byte.x61] 100000001 []);
    [simpl; lia|done|]. by rewrite app_nil_r.
Defined.

(** C21. A header field that arrives in two pieces is misread, in any session: with the
    model id (or the element count) cut, the round goes on exactly as if the client had
    sent the field with zero bytes in place of the rest and the rest after it, as the
    next field; the request is never asked under a model id that does not end in zero
    bytes where it was cut. Nor is a response the socket does not accept at once sent to
    its end: of each of its pieces the client gets what that one [send] accepted, it is
    short of the frame as soon as one piece is cut, and the session goes on. *)
Theorem session_splits_fields config can_allocate infer :
  (∀ c n id1 id2 rest, n = length (id1 ++ id2) → (n < 256)%nat → id1 ≠ [] →
     inbound c = wire [byte.of_Z (Z.of_nat n)] ++ wire id1 ++ Gap :: rest →
     serve_one config can_allocate infer c =
       serve_one config can_allocate infer
         (with_inbound c (wire [byte.of_Z (Z.of_nat n)] ++ wire (stored n id1) ++ Gap :: rest)) ∧
     (stored n id1 ≠ id1 ++ id2 → ∀ req, Types.model_id req = text_of_bytes (id1 ++ id2) →
        req ∈ asked (serve_one config can_allocate infer c).2 → req ∈ asked c)) ∧
  (∀ c id e1 rest, (0 < length id < 256)%nat → e1 ≠ [] → (length e1 <= 4)%nat →
     inbound c = wire [byte.of_Z (Z.of_nat (length id))] ++ wire id ++ wire e1 ++ Gap :: rest →
     serve_one config can_allocate infer c =
       serve_one config can_allocate infer
         (with_inbound c (wire [byte.of_Z (Z.of_nat (length id))] ++ wire id ++
                          wire (stored 4 e1) ++ Gap :: rest))) ∧
  (∀ c resp output, fits resp output →
     ∃ c', respond resp output c = (inl (), c') ∧ inbound c' = inbound c ∧
       outbound c' = outbound c ++ concat (sent_pieces (response_pieces resp output) (capacities c)) ∧
       concat (response_pieces resp output) = response_frame resp output ∧
       ((∃ i bs k, response_pieces resp output !! i = Some bs ∧ capacities c !! i = Some k ∧
                   k < Z.of_nat (length bs)) →
        (length (outbound c') < length (outbound c) + length (response_frame resp output))%nat)).
Proof.
  split; [|split].
  - intros c n id1 id2 rest Hlen Hn Hne Hc.
    assert (length id1 <= n)%nat as Hl by (rewrite Hlen, length_app; lia).
    destruct (serve_one_cut_id config can_allocate infer n id1 rest c Hn Hne Hl Hc) as [E1 E2].
    split; [by rewrite E1, E2|]. intros Hpad req Hid Hin. rewrite E1 in Hin.
    destruct (asks_after_id config can_allocate infer n id1 (with_inbound c (Gap :: rest)))
      as [Ha|(req' & Hreq' & Ha)]; rewrite Ha in Hin; [done|].
    apply elem_of_app in Hin as [|Hin]; [done|]. apply list_elem_of_singleton in Hin as ->.
    exfalso. apply Hpad, text_of_bytes_inj. by rewrite <- Hreq', Hid.
  - intros c id e1 rest Hid Hne Hl Hc. by apply serve_one_cut_count.
  - intros c resp output Hfit.
    destruct (respond_sends_pieces resp output c Hfit) as (c' & Hr & Hin & _ & Hout).
    destruct Hfit as [H0 Hf]. pose proof (concat_response_pieces resp output H0) as Hcat.
    exists c'. split_and!; [done|done|done|done|]. intros (i & bs & m & Hp & Hm & Hlt).
    rewrite Hout, length_app, <- Hcat.
    pose proof (sent_pieces_short _ _ i bs m Hp Hm Hlt
      (response_pieces_nonempty resp output i bs (conj H0 Hf) Hp)). lia.
Qed.

(** Witness: a request whose id is cut after its first byte, and whose response is cut:
    the request answered when it arrives whole is never asked. *)
Lemma session_splits_fields_witness :
  let whole := wire (request_frame (demo_request 5)) in
  let cut := accepted (take 2 whole ++ Gap :: drop 2 whole) [] in
  let resp := {| ok := true; error := []; resp_shape := []; output_elems_written := 2;
    latency_ns := 0; routing_ns := 0; queue_wait_ns := 0; execution_ns := 0; send_ns := 0 |} in
  (asked (serve_one default_extended_config (λ _, true) echo (accepted whole [])).2 =
     [request_of default_extended_config (demo_request 5)]) ∧
  (request_of default_extended_config (demo_request 5)
     ∉ asked (serve_one default_extended_config (λ _, true) echo cut).2) ∧
  (length (outbound (respond resp [5; 7]%Z (accepted [] [1; 8; 4; 3]%Z)).2) <
     length (response_frame resp [5; 7]%Z))%nat.
Proof.
  intros whole cut resp.
  destruct (session_splits_fields default_extended_config (λ _, true) echo) as (H1 & _ & H3).
  split; [by vm_compute|]. split.
  - intros Hin. destruct (H1 cut 2%nat [Byte.x61] [Byte.x62] (drop 2 whole)) as [_ H];
      [done|lia|done|by vm_compute|].
    specialize (H ltac:(done) (request_of default_extended_config (demo_request 5)) eq_refl Hin).
    by apply not_elem_of_nil in H.
  - destruct (H3 (accepted [] [1; 8; 4; 3]%Z) resp [5; 7]%Z) as (c' & Hr & _ & _ & _ & Hlt);
      [split; simpl; lia|]. rewrite Hr. apply Hlt.
    by exists 3%nat, (bytes_of_words [5; 7]%Z), 3%Z.
Defined.
