(* ===== verification/TorchBackend.v ===== *)
(** * Torch backend ([src/inference/torch_backend.cpp])

    [load], [unload], [infer] and [infer_batch]. libtorch is not part of the program:
    its operations are the fields of [Torch], each of which may throw. A tensor's
    floats are 32-bit patterns, as everywhere; clocks are arguments. *)
From S2P Require Import Prelude.
From S2P Require Import Text.
From S2P Require Import Types.
From S2P Require Import ServerConfig.
From S2P Require Import Session.

(** ** libtorch *)

(** What a call may throw: [c10::Error], another [std::exception], anything else. *)
Inductive torch_exn :=
| C10Error (what : text)
| StdException (what : text)
| OtherException.

Inductive torch_device := kCPU | kCUDA.

(** [blob_numel] gives the number of floats that a tensor of these sizes over a raw
    pointer views, [clone_blob] the copy of such a tensor; [forward] includes the
    conversion of the module's answer to a tensor; [data_floats] gives what can be
    read from [data_ptr<float>()] on. [cat] and [chunk] work along dimension 0. *)
Class Torch := {
  tensor : Type;
  script_module : Type;
  default_module : script_module;
  cuda_is_available : bool;
  jit_load : text → torch_device → torch_exn + script_module;
  blob_numel : list Z → torch_exn + Z;
  clone_blob : list Z → list Z → torch_exn + tensor;
  to_device : torch_device → tensor → torch_exn + tensor;
  contiguous : tensor → torch_exn + tensor;
  forward : script_module → tensor → torch_exn + tensor;
  mul_scalar : tensor → Z → torch_exn + tensor;
  add_scalar : tensor → Z → torch_exn + tensor;
  relu : tensor → torch_exn + tensor;
  cat : list tensor → torch_exn + tensor;
  chunk : tensor → nat → torch_exn + list tensor;
  sizes : tensor → list Z;
  numel : tensor → Z;
  data_floats : tensor → torch_exn + list Z }.

(** ** Effects

    The body of a [try] block works on what it leaves behind when it throws. *)

Inductive result (W A : Type) :=
| Value (a : A) (w : W)
| Threw (e : torch_exn) (w : W)
| Crash.
Arguments Value {_ _} _ _.
Arguments Threw {_ _} _ _.
Arguments Crash {_ _}.

Definition try_block (W A : Type) : Type := W → result W A.

#[export] Instance try_ret W : MRet (try_block W) := λ A a w, Value a w.

#[export] Instance try_bind W : MBind (try_block W) := λ A B f m w,
  match m w with
  | Value a w => f a w
  | Threw e w => Threw e w
  | Crash => Crash
  end.

Definition torch_call {W A} (o : torch_exn + A) : try_block W A := λ w,
  match o with inl e => Threw e w | inr a => Value a w end.

(** An access that must be inside its range. *)
Definition in_range {W A} (o : option A) : try_block W A := λ w,
  match o with Some a => Value a w | None => Crash end.

Lemma bind_value {W A B} (m : try_block W A) (f : A → try_block W B) w a w' :
  m w = Value a w' → (m ≫= f) w = f a w'.
Proof. unfold mbind, try_bind. by intros ->. Qed.

Lemma bind_crash {W A B} (m : try_block W A) (f : A → try_block W B) w :
  m w = Crash → (m ≫= f) w = Crash.
Proof. unfold mbind, try_bind. by intros ->. Qed.

Lemma torch_call_inr {W A} (o : torch_exn + A) a (w : W) : o = inr a → torch_call o w = Value a w.
Proof. by intros ->. Qed.

Definition modify {W} (f : W → W) : try_block W () := λ w, Value () (f w).

Definition inspect {W} : try_block W W := λ w, Value w w.

(** Works on the [i]th of several objects. *)
Definition at_slot {W A} (i : nat) (m : try_block W A) : try_block (list W) A := λ ws,
  match ws !! i with
  | Some w =>
      match m w with
      | Value a w => Value a (<[i := w]> ws)
      | Threw e w => Threw e (<[i := w]> ws)
      | Crash => Crash
      end
  | None => Crash
  end.

(** What a call leaves: its result, an exception that no handler takes, undefined
    behaviour. *)
Inductive answer (W : Type) :=
| Returned (w : W)
| Escaped
| Undefined.
Arguments Returned {_} _.
Arguments Escaped {_}.
Arguments Undefined {_}.

(** The two handlers of [infer] and [infer_batch]. *)
Definition catch_torch {W} (handler : text → W → W) (r : result W ()) : answer W :=
  match r with
  | Value _ w => Returned w
  | Threw (C10Error what) w | Threw (StdException what) w => Returned (handler what w)
  | Threw OtherException _ => Escaped
  | Crash => Undefined
  end.

(** ** Responses under construction *)

(** A response and the output buffer of its request. *)
Record slot := {
  resp : InferenceResponse;
  buffer : list Z }.

Definition slot_new (buf : list Z) : slot := {| resp := error_response []; buffer := buf |}.

Definition set_error (e : text) (w : slot) : slot := {|
  resp := {| ok := ok (resp w); error := e; resp_shape := resp_shape (resp w);
    output_elems_written := output_elems_written (resp w); latency_ns := latency_ns (resp w);
    routing_ns := routing_ns (resp w); queue_wait_ns := queue_wait_ns (resp w);
    execution_ns := execution_ns (resp w); send_ns := send_ns (resp w) |};
  buffer := buffer w |}.

Definition set_shape (sh : list Z) (w : slot) : slot := {|
  resp := {| ok := ok (resp w); error := error (resp w); resp_shape := sh;
    output_elems_written := output_elems_written (resp w); latency_ns := latency_ns (resp w);
    routing_ns := routing_ns (resp w); queue_wait_ns := queue_wait_ns (resp w);
    execution_ns := execution_ns (resp w); send_ns := send_ns (resp w) |};
  buffer := buffer w |}.

Definition set_latency (ns : Z) (w : slot) : slot := {|
  resp := {| ok := ok (resp w); error := error (resp w); resp_shape := resp_shape (resp w);
    output_elems_written := output_elems_written (resp w); latency_ns := u64 ns;
    routing_ns := routing_ns (resp w); queue_wait_ns := queue_wait_ns (resp w);
    execution_ns := execution_ns (resp w); send_ns := send_ns (resp w) |};
  buffer := buffer w |}.

(** The [memcpy] of [fs] to the front of the output buffer, and its report. *)
Definition set_output (fs : list Z) (n : Z) (w : slot) : slot := {|
  resp := {| ok := true; error := error (resp w); resp_shape := resp_shape (resp w);
    output_elems_written := u32 n; latency_ns := latency_ns (resp w);
    routing_ns := routing_ns (resp w); queue_wait_ns := queue_wait_ns (resp w);
    execution_ns := execution_ns (resp w); send_ns := send_ns (resp w) |};
  buffer := fs ++ drop (length fs) (buffer w) |}.

(** ** The backend *)

Section torch_backend.
Context `{Torch}.

Record ModelState := {
  has_module : bool;
  module : script_module;
  model_device : torch_device }.

(** [load]; every exception of [torch::jit::load] is caught. *)
Definition load (s : gmap text ModelState) (model_id model_path : text) (device : DeviceKind) :
    bool * gmap text ModelState :=
  match s !! model_id with
  | Some _ => (true, s)
  | None =>
      let d := match device with
               | Cuda => if cuda_is_available then kCUDA else kCPU
               | Cpu => kCPU
               end in
      match model_path with
      | [] => (true, <[model_id := {| has_module := false; module := default_module;
                                      model_device := d |}]> s)
      | _ =>
          match jit_load model_path d with
          | inl _ => (false, s)
          | inr m => (true, <[model_id := {| has_module := true; module := m;
                                             model_device := d |}]> s)
          end
      end
  end.

Definition unload (s : gmap text ModelState) (model_id : text) : bool * gmap text ModelState :=
  (bool_decide (is_Some (s !! model_id)), delete model_id s).

(** [torch::from_blob(req.input.data(), req.shape).clone().to(st.device)]: nothing
    compares the shape with the size of the span. *)
Definition read_input {W} (st : ModelState) (req : InferenceRequest) : try_block W tensor :=
  n ← torch_call (blob_numel (shape req));
  fs ← in_range (if n <=? Z.of_nat (length (input req))
                 then Some (take (Z.to_nat n) (input req)) else None);
  x ← torch_call (clone_blob fs (shape req));
  torch_call (to_device (model_device st) x).

(** The floats [2.0f] and [1.0f]. *)
Definition two : Z := 0x40000000.

Definition one : Z := 0x3f800000.

Definition run_model {W} (st : ModelState) (x : tensor) : try_block W tensor :=
  if has_module st then torch_call (forward (module st) x)
  else
    x ← torch_call (mul_scalar x two);
    x ← torch_call (add_scalar x one);
    torch_call (relu x).

(** [y.to(torch::kCPU).contiguous()]. *)
Definition to_cpu {W} (y : tensor) : try_block W tensor :=
  y ← torch_call (to_device kCPU y);
  torch_call (contiguous y).

Definition write_output (y : tensor) : try_block slot () :=
  let n := u64 (numel y) in
  w ← inspect;
  if Z.of_nat (length (buffer w)) <? n then modify (set_error (txt "output buffer too small"))
  else
    fs ← torch_call (data_floats y);
    fs ← in_range (if n <=? Z.of_nat (length fs) then Some (take (Z.to_nat n) fs) else None);
    modify (set_output fs n).

Definition not_loaded (model_id : text) : text := txt "model not loaded: " ++ model_id.

Definition infer_body (st : ModelState) (req : InferenceRequest) : try_block slot () :=
  x ← read_input st req;
  y ← run_model st x;
  y ← to_cpu y;
  _ ← modify (set_shape (sizes y));
  write_output y.

(** [infer]; [elapsed] is what the clock measures. *)
Definition infer (s : gmap text ModelState) (elapsed : Z) (req : InferenceRequest) (buf : list Z) :
    answer slot :=
  match s !! model_id req with
  | None => Returned (set_error (not_loaded (model_id req)) (slot_new buf))
  | Some st =>
      match catch_torch set_error (infer_body st req (slot_new buf)) with
      | Returned w => Returned (set_latency elapsed w)
      | Escaped => Escaped
      | Undefined => Undefined
      end
  end.

(** The loop over the chunks, from the [i]th on. *)
Fixpoint write_chunks (elapsed : nat → Z) (chunks : list tensor) (todo i : nat) :
    try_block (list slot) () :=
  match todo with
  | O => mret ()
  | S todo =>
      c ← in_range (chunks !! i);
      _ ← at_slot i (
        _ ← modify (set_shape (sizes c));
        _ ← write_output c;
        modify (set_latency (elapsed i)));
      write_chunks elapsed chunks todo (S i)
  end.

Definition infer_batch_body (st : ModelState) (elapsed : nat → Z)
    (batch : list InferenceRequest) : try_block (list slot) () :=
  tensors ← mapM (read_input st) batch;
  x ← torch_call (cat tensors);
  y ← run_model st x;
  y ← to_cpu y;
  chunks ← torch_call (chunk y (length batch));
  write_chunks elapsed chunks (length batch) 0.

(** [infer_batch], each request with its output buffer. *)
Definition infer_batch (s : gmap text ModelState) (elapsed : nat → Z)
    (batch : list (InferenceRequest * list Z)) : answer (list slot) :=
  let responses := slot_new <$> batch.*2 in
  match batch with
  | [] => Returned responses
  | (req, _) :: _ =>
      match s !! model_id req with
      | None => Returned (set_error (not_loaded (model_id req)) <$> responses)
      | Some st =>
          catch_torch (λ e ws, set_error e <$> ws)
            (infer_batch_body st elapsed batch.*1 responses)
      end
  end.
End torch_backend.
Arguments ModelState {_}.

(** ** What a block keeps, whether it ends or throws *)

Definition keeps {W A} (P : W → Prop) (m : try_block W A) : Prop := ∀ w, P w →
  match m w with Value _ w' | Threw _ w' => P w' | Crash => True end.

Section keeps.
Context {W : Type} (P : W → Prop).

Lemma keeps_ret {A} (a : A) : keeps P (mret a).
Proof. by intros w. Qed.

Lemma keeps_bind {A B} (m : try_block W A) (f : A → try_block W B) :
  keeps P m → (∀ a, keeps P (f a)) → keeps P (m ≫= f).
Proof.
  intros Hm Hf w Hw. specialize (Hm w Hw). unfold mbind, try_bind.
  destruct (m w) as [a w'|e w'|]; [by apply Hf|done|done].
Qed.

Lemma keeps_call {A} (o : torch_exn + A) : keeps P (torch_call o).
Proof. by intros w Hw; destruct o. Qed.

Lemma keeps_in_range {A} (o : option A) : keeps P (in_range o).
Proof. by intros w Hw; destruct o. Qed.

Lemma keeps_modify f : (∀ w, P w → P (f w)) → keeps P (modify f).
Proof. intros Hf w Hw. by apply Hf. Qed.

Lemma keeps_inspect : keeps P inspect.
Proof. by intros w Hw. Qed.

Lemma keeps_mapM {A B} (f : A → try_block W B) l : (∀ a, keeps P (f a)) → keeps P (mapM f l).
Proof.
  intros Hf. induction l as [|a l IH]; [apply keeps_ret|].
  apply keeps_bind; [done|]. intros b. apply keeps_bind; [done|]. intros k. apply keeps_ret.
Qed.
End keeps.

Create HintDb keeps.
#[export] Hint Resolve keeps_ret keeps_bind keeps_call keeps_in_range keeps_inspect keeps_mapM : keeps.

Lemma keeps_at_slot {W X A} (P : X → W → Prop) (xs : list X) i (m : try_block W A) :
  (∀ x, keeps (P x) m) → keeps (Forall2 P xs) (at_slot i m).
Proof.
  intros Hm ws Hws. unfold at_slot. destruct (ws !! i) as [w|] eqn:Hi; [|done].
  destruct (Forall2_lookup_r _ _ _ _ _ Hws Hi) as (x & Hx & Hw). specialize (Hm x w Hw).
  destruct (m w) as [a w'|e w'|]; [| |done];
    by (rewrite <- (list_insert_id xs i x Hx); apply Forall2_insert).
Qed.

(** ** Lemmas *)

Section lemmas.
Context `{Torch}.

(** A slot for an output buffer of [buf]'s size: the size is kept, and what is
    reported written fits in it. *)
Definition slot_ok (buf : list Z) (w : slot) : Prop :=
  length (buffer w) = length buf ∧ fits (resp w) (buffer w) ∧
  (ok (resp w) = false → output_elems_written (resp w) = 0).

Lemma slot_ok_new buf : slot_ok buf (slot_new buf).
Proof. split; [done|]. split; [|done]. split; simpl; [done|lia]. Qed.

Lemma slot_ok_error buf e w : slot_ok buf w → slot_ok buf (set_error e w).
Proof. done. Qed.

Lemma slot_ok_latency buf ns w : slot_ok buf w → slot_ok buf (set_latency ns w).
Proof. done. Qed.

Lemma slot_ok_output buf fs w :
  (length fs <= length (buffer w))%nat → slot_ok buf w →
  slot_ok buf (set_output fs (Z.of_nat (length fs)) w).
Proof.
  intros Hl (Hb & _ & _).
  assert (length (fs ++ drop (length fs) (buffer w)) = length (buffer w)) as Hlen
    by (rewrite length_app, length_drop; lia).
  split; [by simpl; rewrite Hlen|]. split; [|done]. split; simpl; [word_lia|]. rewrite Hlen.
  assert (u32 (Z.of_nat (length fs)) <= Z.of_nat (length fs)) by word_lia. lia.
Qed.

Lemma write_output_eq y w :
  write_output y w =
    let n := u64 (numel y) in
    if Z.of_nat (length (buffer w)) <? n
    then Value () (set_error (txt "output buffer too small") w)
    else match data_floats y with
         | inl e => Threw e w
         | inr fs => if n <=? Z.of_nat (length fs)
                     then Value () (set_output (take (Z.to_nat n) fs) n w) else Crash
         end.
Proof.
  unfold write_output, mbind, try_bind, inspect. cbv zeta.
  destruct (Z.ltb_spec (Z.of_nat (length (buffer w))) (u64 (numel y))); [done|].
  unfold torch_call. destruct (data_floats y) as [e|fs]; [done|].
  by destruct (Z.leb_spec (u64 (numel y)) (Z.of_nat (length fs))).
Qed.

Lemma write_output_keeps buf y : keeps (slot_ok buf) (write_output y).
Proof.
  intros w Hw. rewrite write_output_eq. cbv zeta. pose proof (u64_range (numel y)) as Hn.
  set (n := u64 (numel y)) in *. destruct (Z.ltb_spec (Z.of_nat (length (buffer w))) n); [done|].
  destruct (data_floats y) as [e|fs]; [done|].
  destruct (Z.leb_spec n (Z.of_nat (length fs))); [|done].
  assert (length (take (Z.to_nat n) fs) = Z.to_nat n) as Hl by (rewrite length_take; lia).
  rewrite <- (Z2Nat.id n) at 2 by lia. rewrite <- Hl at 2.
  apply slot_ok_output; [lia|done].
Qed.

Lemma read_input_keeps {W} (P : W → Prop) st req : keeps P (read_input st req).
Proof. unfold read_input. auto 10 with keeps. Qed.

Lemma run_model_keeps {W} (P : W → Prop) st x : keeps P (run_model st x).
Proof. unfold run_model. destruct (has_module st); auto 10 with keeps. Qed.

Lemma to_cpu_keeps {W} (P : W → Prop) y : keeps P (to_cpu y).
Proof. unfold to_cpu. auto with keeps. Qed.
#[local] Hint Resolve write_output_keeps read_input_keeps run_model_keeps to_cpu_keeps : keeps.

Lemma infer_body_keeps buf st req : keeps (slot_ok buf) (infer_body st req).
Proof.
  unfold infer_body. do 3 (apply keeps_bind; [auto with keeps|intros ?]).
  apply keeps_bind; [by apply keeps_modify|auto with keeps].
Qed.

Lemma write_chunks_keeps bufs elapsed chunks todo : ∀ i,
  keeps (Forall2 slot_ok bufs) (write_chunks elapsed chunks todo i).
Proof.
  induction todo as [|todo IH]; intros i; simpl; [apply keeps_ret|].
  apply keeps_bind; [auto with keeps|]. intros c. apply keeps_bind; [|auto].
  apply keeps_at_slot. intros buf. apply keeps_bind; [by apply keeps_modify|]. intros _.
  apply keeps_bind; [auto with keeps|]. intros _. by apply keeps_modify.
Qed.

Lemma infer_batch_body_keeps bufs st elapsed batch :
  keeps (Forall2 slot_ok bufs) (infer_batch_body st elapsed batch).
Proof.
  unfold infer_batch_body. repeat (apply keeps_bind; [auto with keeps|intros ?]).
  apply write_chunks_keeps.
Qed.

Lemma slots_new_ok bufs : Forall2 slot_ok bufs (slot_new <$> bufs).
Proof. induction bufs; constructor; [apply slot_ok_new|done]. Qed.

Lemma set_errors_ok bufs e ws :
  Forall2 slot_ok bufs ws → Forall2 slot_ok bufs (set_error e <$> ws).
Proof. intros Hf. apply Forall2_fmap_r. by eapply Forall2_impl. Qed.

Lemma catch_torch_keeps {W} (P : W → Prop) handler (m : try_block W ()) w w' :
  keeps P m → (∀ e w, P w → P (handler e w)) → P w → catch_torch handler (m w) = Returned w' → P w'.
Proof.
  intros Hm Hh Hw. specialize (Hm w Hw).
  destruct (m w) as [a w0|[what|what|] w0|]; simpl; intros [= <-]; auto.
Qed.

(** *** Calls that do not throw *)

(** Reading the input of a request gives [x]. *)
Definition reads (st : ModelState) (req : InferenceRequest) (x : tensor) : Prop :=
  ∃ n c, blob_numel (shape req) = inr n ∧ n <= Z.of_nat (length (input req)) ∧
    clone_blob (take (Z.to_nat n) (input req)) (shape req) = inr c ∧
    to_device (model_device st) c = inr x.

(** The model and the way back to the host give [z]. *)
Definition computes (st : ModelState) (x z : tensor) : Prop :=
  ∃ y c, (if has_module st then forward (module st) x = inr y
          else ∃ a b, mul_scalar x two = inr a ∧ add_scalar a one = inr b ∧ relu b = inr y) ∧
    to_device kCPU y = inr c ∧ contiguous c = inr z.

Definition short (req : InferenceRequest) : Prop :=
  ∃ n, blob_numel (shape req) = inr n ∧ Z.of_nat (length (input req)) < n.

Lemma read_input_reads {W} st req x (w : W) : reads st req x → read_input st req w = Value x w.
Proof.
  intros (n & c & Hn & Hl & Hc & Hx). unfold read_input, mbind, try_bind, torch_call. rewrite Hn.
  destruct (Z.leb_spec n (Z.of_nat (length (input req)))); [|lia]. simpl. by rewrite Hc, Hx.
Qed.

Lemma read_input_short {W} st req (w : W) : short req → read_input st req w = Crash.
Proof.
  intros (n & Hn & Hl). unfold read_input, mbind, try_bind, torch_call. rewrite Hn.
  by destruct (Z.leb_spec n (Z.of_nat (length (input req)))); [lia|].
Qed.

Lemma read_input_crash {W} st req (w : W) : read_input st req w = Crash → short req.
Proof.
  unfold read_input, mbind, try_bind, torch_call. destruct (blob_numel (shape req)) as [e|n] eqn:Hn; [done|].
  destruct (Z.leb_spec n (Z.of_nat (length (input req)))); simpl; [|by exists n].
  destruct (clone_blob _ _); [done|]. by destruct (to_device _ _).
Qed.

Lemma run_to_cpu {W} {B} st x z (f : tensor → try_block W B) (w : W) :
  computes st x z → (y ← run_model st x; y ← to_cpu y; f y) w = f z w.
Proof.
  intros (y & c & Hy & Hc & Hz). unfold mbind, try_bind, run_model, to_cpu, mbind, try_bind, torch_call.
  destruct (has_module st).
  - by rewrite Hy, Hc, Hz.
  - destruct Hy as (a & b & -> & -> & ->). by rewrite Hc, Hz.
Qed.

Lemma mapM_cons_eq {W A B} (f : A → try_block W B) a l w :
  mapM f (a :: l) w =
    match f a w with
    | Value b w => match mapM f l w with
                   | Value k w => Value (b :: k) w
                   | Threw e w => Threw e w
                   | Crash => Crash
                   end
    | Threw e w => Threw e w
    | Crash => Crash
    end.
Proof. reflexivity. Qed.

Lemma mapM_reads {W} st reqs xs (w : W) :
  Forall2 (reads st) reqs xs → mapM (read_input st) reqs w = Value xs w.
Proof.
  induction 1 as [|req x reqs xs Hr _ IH]; [done|].
  by rewrite mapM_cons_eq, (read_input_reads _ _ _ _ Hr), IH.
Qed.

(** A short request later in a batch is reached when those before it are read. *)
Lemma mapM_short {W} st pre req post xs (w : W) :
  Forall2 (reads st) pre xs → short req → mapM (read_input st) (pre ++ req :: post) w = Crash.
Proof.
  intros Hf Hs. induction Hf as [|r x pre xs Hr _ IH];
    rewrite <- ?app_comm_cons; simpl app; rewrite mapM_cons_eq.
  - by rewrite (read_input_short _ _ _ Hs).
  - by rewrite (read_input_reads _ _ _ _ Hr), IH.
Qed.

(** ** One slot's answer *)

(** A tensor whose floats can be read. *)
Definition readable (y : tensor) : Prop :=
  ∃ fs, data_floats y = inr fs ∧ numel y = Z.of_nat (length fs) ∧ Z.of_nat (length fs) < 2 ^ 64.

(** What a slot becomes when [y] is its output. *)
Definition answer_with (y : tensor) (w : slot) : slot :=
  let w := set_shape (sizes y) w in
  if Z.of_nat (length (buffer w)) <? numel y then set_error (txt "output buffer too small") w
  else match data_floats y with inl _ => w | inr fs => set_output fs (numel y) w end.

Lemma write_output_answers y w :
  readable y → write_output y (set_shape (sizes y) w) = Value () (answer_with y w).
Proof.
  intros (fs & Hfs & Hn & Hb). rewrite write_output_eq. unfold answer_with. cbv zeta.
  rewrite u64_small by lia. destruct (Z.ltb_spec (Z.of_nat (length (buffer (set_shape (sizes y) w)))) (numel y)); [done|]. rewrite Hfs.
  destruct (Z.leb_spec (numel y) (Z.of_nat (length fs))); [|lia].
  by rewrite firstn_all2 by lia.
Qed.

Lemma write_output_no_crash y w :
  (∀ fs, data_floats y = inr fs → numel y = Z.of_nat (length fs)) → write_output y w ≠ Crash.
Proof.
  intros Hd. rewrite write_output_eq. cbv zeta. destruct (_ <? _); [done|].
  destruct (data_floats y) as [e|fs] eqn:Hfs; [done|].
  destruct (Z.leb_spec (u64 (numel y)) (Z.of_nat (length fs))) as [|Hlt]; [done|].
  rewrite (Hd fs eq_refl) in Hlt. exfalso.
  assert (u64 (Z.of_nat (length fs)) <= Z.of_nat (length fs)) by word_lia. lia.
Qed.

(** The only way [infer] goes wrong is a short request. *)
Lemma infer_body_crash st req w :
  (∀ y fs, data_floats y = inr fs → numel y = Z.of_nat (length fs)) →
  infer_body st req w = Crash ↔ short req.
Proof.
  intros Hd. split.
  - unfold infer_body. intros Hc. unfold mbind at 1, try_bind in Hc.
    destruct (read_input st req w) as [x w1|e w1|] eqn:Hr; [|done|by apply read_input_crash in Hr].
    exfalso. unfold run_model, to_cpu, mbind, try_bind, torch_call, modify in Hc.
    repeat case_match; try done;
    eapply write_output_no_crash; eauto.
  - intros Hs. unfold infer_body. unfold mbind at 1, try_bind. by rewrite read_input_short.
Qed.

Lemma infer_body_answers st req x z w :
  reads st req x → computes st x z → readable z → infer_body st req w = Value () (answer_with z w).
Proof.
  intros Hr Hc Hz. unfold infer_body. unfold mbind at 1, try_bind. rewrite (read_input_reads _ _ _ _ Hr).
  pose proof (run_to_cpu st x z (λ y, _ ← modify (set_shape (sizes y)); write_output y) w Hc) as He.
  etrans; [exact He|]. by apply write_output_answers.
Qed.

(** Two tensors that cannot be told apart by what the backend reads of them. *)
Definition same_values (c z : tensor) : Prop :=
  sizes c = sizes z ∧ numel c = numel z ∧ data_floats c = data_floats z.

Lemma answer_with_same c z w : same_values c z → answer_with c w = answer_with z w.
Proof. intros (H1 & H2 & H3). unfold answer_with. by rewrite H1, H2, H3. Qed.

Lemma readable_same c z : same_values c z → readable z → readable c.
Proof. intros (H1 & H2 & H3) (fs & Hz). exists fs. by rewrite H3, H2. Qed.

Lemma chunks_readable so cs zs :
  Forall2 same_values cs zs → Forall (λ z, readable z ∧ sizes z = so) zs → Forall readable cs.
Proof.
  induction 1 as [|c z cs zs Hs _ IH]; [constructor|]. intros [[??] ?]%Forall_cons.
  constructor; [by eapply readable_same|by apply IH].
Qed.

Lemma outputs_readable st sh so xs zs :
  (∀ x z, sizes x = sh → computes st x z → readable z ∧ sizes z = so) →
  Forall (λ x, sizes x = sh) xs → Forall2 (computes st) xs zs →
  Forall (λ z, readable z ∧ sizes z = so) zs.
Proof.
  intros Hout Hsh Hcp. induction Hcp as [|x z xs zs Hc _ IH]; [constructor|].
  apply Forall_cons in Hsh as [??]. constructor; [by eapply Hout|by apply IH].
Qed.

Lemma requests_computed st id sh reqs :
  Forall (λ r, model_id r = id ∧ ∃ x z, reads st r x ∧ sizes x = sh ∧ computes st x z) reqs →
  ∃ xs zs, Forall2 (reads st) reqs xs ∧ Forall (λ x, sizes x = sh) xs ∧ Forall2 (computes st) xs zs.
Proof.
  induction 1 as [|r reqs (_ & x & z & H1 & H2 & H3) _ (xs & zs & ? & ? & ?)]; [by exists [], []|].
  exists (x :: xs), (z :: zs). by repeat constructor.
Qed.

(** The loop from [i] on fills the slots from [i] on. *)
Lemma write_chunks_fill elapsed chunks : ∀ todo i ws,
  length chunks = (i + todo)%nat → length ws = (i + todo)%nat → Forall readable chunks →
  ∃ ws', write_chunks elapsed chunks todo i ws = Value () ws' ∧ length ws' = length ws ∧
    (∀ j, (j < i)%nat → ws' !! j = ws !! j) ∧
    (∀ j c w, (i <= j)%nat → chunks !! j = Some c → ws !! j = Some w →
       ws' !! j = Some (set_latency (elapsed j) (answer_with c w))).
Proof.
  induction todo as [|todo IH]; intros i ws Hc Hw Hf.
  { exists ws. split_and!; try done. intros j c w Hj Hjc. apply lookup_lt_Some in Hjc. lia. }
  destruct (lookup_lt_is_Some_2 chunks i) as [c Hic]; [lia|].
  destruct (lookup_lt_is_Some_2 ws i) as [w Hiw]; [lia|].
  pose proof (Forall_lookup_1 _ _ _ _ Hf Hic) as Hr.
  destruct (IH (S i) (<[i := set_latency (elapsed i) (answer_with c w)]> ws)) as (ws' & He & Hl & Hlow & Hhigh);
    [lia|rewrite length_insert; lia|done|].
  exists ws'. rewrite length_insert in Hl. split_and!; [|done| |].
  - rewrite <- He. simpl. rewrite Hic. unfold mbind, try_bind, at_slot, modify. simpl. rewrite Hiw.
    by rewrite (write_output_answers _ _ Hr).
  - intros j Hj. rewrite Hlow by lia. by apply list_lookup_insert_ne; lia.
  - intros j c' w' Hj Hjc Hjw. destruct (decide (j = i)) as [->|Hne].
    + rewrite Hlow by lia. simplify_eq. by apply list_lookup_insert_eq; eapply lookup_lt_Some.
    + apply Hhigh; [lia|done|]. by rewrite list_lookup_insert_ne by lia.
Qed.
End lemmas.

Lemma infer_slot_ok `{Torch} s ns req buf w : infer s ns req buf = Returned w → slot_ok buf w.
Proof.
  unfold infer. intros Hi. destruct (s !! model_id req) as [st|];
    [|injection Hi as <-; apply slot_ok_error, slot_ok_new].
  destruct (catch_torch set_error (infer_body st req (slot_new buf))) as [w'| |] eqn:Hc; [|done|done].
  injection Hi as <-. apply slot_ok_latency.
  eapply catch_torch_keeps; [apply infer_body_keeps| |apply (slot_ok_new buf)|exact Hc].
  intros e w0. apply slot_ok_error.
Qed.

(** ** Properties *)

(** C27. Answers fit. Whatever libtorch does, a call that returns leaves one answer per
    request, in order, each output buffer with its size, at most as many elements
    reported written as the buffer holds, and none for a request that failed: what
    executors and sessions rely on. *)
Theorem torch_answers_fit `{Torch} s elapsed batch ws req buf ns w :
  infer_batch s elapsed batch = Returned ws → infer s ns req buf = Returned w →
  Forall2 slot_ok batch.*2 ws ∧ slot_ok buf w.
Proof.
  intros Hb Hi. split.
  - pose proof (slots_new_ok batch.*2) as Hnew. unfold infer_batch in Hb. cbv zeta in Hb.
    set (responses := slot_new <$> batch.*2) in *.
    destruct batch as [|[r b] batch]; [by injection Hb as <-|].
    destruct (s !! model_id r) as [st|];
      [|assert (set_error (not_loaded (model_id r)) <$> responses = ws) as <- by congruence; by apply set_errors_ok].
    eapply catch_torch_keeps; [apply infer_batch_body_keeps| |exact Hnew|exact Hb].
    intros e ws'. apply set_errors_ok.
  - by eapply infer_slot_ok.
Qed.

(** Batching is transparent. For requests of one loaded model and one shape whose
    inputs are as long as the shape says, on which the model works row by row with
    outputs of one shape, [infer_batch] returns, and each of its answers, output buffer
    included, is the one [infer] gives for that request alone. *)
Theorem batching_preserves_answers `{Torch} s st id sh so elapsed batch :
  s !! id = Some st →
  Forall (λ r, model_id r = id ∧ ∃ x z, reads st r x ∧ sizes x = sh ∧ computes st x z) batch.*1 →
  (∀ x z, sizes x = sh → computes st x z → readable z ∧ sizes z = so) →
  (∀ xs zs, xs ≠ [] → Forall (λ x, sizes x = sh) xs → Forall2 (computes st) xs zs →
     ∃ x z, cat xs = inr x ∧ computes st x z ∧ cat zs = inr z) →
  (∀ zs z, zs ≠ [] → Forall (λ z, readable z ∧ sizes z = so) zs → cat zs = inr z →
     ∃ cs, chunk z (length zs) = inr cs ∧ Forall2 same_values cs zs) →
  ∃ ws, infer_batch s elapsed batch = Returned ws ∧
    Forall2 (λ b w, infer s (latency_ns (resp w)) b.1 b.2 = Returned w) batch ws.
Proof.
  intros Hst Hreqs Hout Hrows Hchunk.
  destruct (decide (batch = [])) as [->|Hne]; [by exists []; split; [|constructor]|].
  destruct (requests_computed st id sh batch.*1 Hreqs) as (xs & zs & Hrd & Hsh & Hcp).
  pose proof (Forall2_length _ _ _ Hrd) as Hl1. pose proof (Forall2_length _ _ _ Hcp) as Hl2.
  rewrite length_fmap in Hl1.
  assert (xs ≠ [] ∧ zs ≠ []) as [Hxs Hzs] by (destruct batch, xs, zs; done).
  pose proof (outputs_readable st sh so xs zs Hout Hsh Hcp) as Hz.
  destruct (Hrows xs zs Hxs Hsh Hcp) as (x & z & Hcat & Hxz & Hcatz).
  destruct (Hchunk zs z Hzs Hz Hcatz) as (cs & Hcs & Hsame).
  pose proof (Forall2_length _ _ _ Hsame) as Hl3.
  pose proof (chunks_readable so cs zs Hsame Hz) as Hrc.
  destruct (write_chunks_fill elapsed cs (length batch) 0 (slot_new <$> batch.*2)) as (ws & He & Hl & _ & Hws);
    [lia|by rewrite !length_fmap|done|].
  exists ws. split.
  - assert (infer_batch_body st elapsed batch.*1 (slot_new <$> batch.*2) = Value () ws) as Hbody.
    { unfold infer_batch_body. etrans; [eapply bind_value, mapM_reads, Hrd|].
      etrans; [eapply bind_value, torch_call_inr, Hcat|].
      pose proof (run_to_cpu st x z (λ y, chunks ← torch_call (chunk y (length batch.*1));
        write_chunks elapsed chunks (length batch.*1) 0) (slot_new <$> batch.*2) Hxz) as Hr.
      etrans; [exact Hr|]. rewrite length_fmap, Hl1, Hl2.
      etrans; [eapply bind_value, torch_call_inr, Hcs|]. by rewrite <- Hl2, <- Hl1. }
    unfold infer_batch. destruct batch as [|[r b] batch]; [done|]. simpl in Hreqs.
    apply Forall_cons in Hreqs as [[-> _] _]. by rewrite Hst, Hbody.
  - apply Forall2_same_length_lookup_2; [by rewrite Hl, !length_fmap|].
    intros j [r b] w Hjb Hjw. simpl.
    assert (batch.*1 !! j = Some r) as Hjr by by rewrite list_lookup_fmap, Hjb.
    destruct (Forall2_lookup_l _ _ _ _ _ Hrd Hjr) as (xj & Hjx & Hrx).
    destruct (Forall2_lookup_l _ _ _ _ _ Hcp Hjx) as (zj & Hjz & Hxzj).
    destruct (Forall2_lookup_r _ _ _ _ _ Hsame Hjz) as (c & Hjc & Hcz).
    destruct (Forall_lookup_1 _ _ _ _ Hz Hjz) as [Hrz _].
    destruct (Forall_lookup_1 _ _ _ _ Hreqs Hjr) as [Hid _].
    rewrite (Hws j c (slot_new b)) in Hjw; [|lia|done|by rewrite !list_lookup_fmap, Hjb].
    injection Hjw as <-. unfold infer. rewrite Hid, Hst, (infer_body_answers _ _ _ _ _ Hrx Hxzj Hrz). simpl.
    f_equal. rewrite (answer_with_same _ _ _ Hcz). unfold set_latency. simpl. by rewrite u64_idemp.
Qed.

(** C28. Short requests are not detected. For a loaded model, [infer] reads outside the
    input exactly when the input has fewer floats than the shape says, and a batch with
    such a request does as soon as the requests before it are read. A session builds
    such a request for a client that sends fewer floats than the configured shape. *)
Theorem torch_overreads_short_requests `{Torch} s st ns elapsed req buf pre post xs config id input :
  (∀ y fs, data_floats y = inr fs → numel y = Z.of_nat (length fs)) →
  s !! model_id req = Some st →
  Forall2 (reads st) pre.*1 xs → Forall (λ b, model_id b.1 = model_id req) pre →
  (infer s ns req buf = Undefined ↔ short req) ∧
  (short req → infer_batch s elapsed (pre ++ (req, buf) :: post) = Undefined) ∧
  (∀ n, blob_numel (cfg_input_shape config) = inr n → Z.of_nat (length input) < n →
     short (make_request config id input)).
Proof.
  intros Hd Hst Hpre Hids. split_and!.
  - unfold infer. rewrite Hst, <- (infer_body_crash st req (slot_new buf) Hd).
    by destruct (infer_body st req (slot_new buf)) as [|[]|].
  - intros Hs. assert (infer_batch_body st elapsed (pre ++ (req, buf) :: post).*1
      (slot_new <$> (pre ++ (req, buf) :: post).*2) = Crash) as Hc.
    { unfold infer_batch_body. rewrite fmap_app, fmap_cons. eapply bind_crash, mapM_short; [exact Hpre|exact Hs]. }
    unfold infer_batch. destruct pre as [|[r b] pre]; simpl app in *; cbv beta iota zeta.
    + by rewrite Hst, Hc.
    + apply Forall_cons in Hids as [Hid _]. simpl in Hid. by rewrite Hid, Hst, Hc.
  - intros n Hn Hl. by exists n.
Qed.

(** Models come and go. [load] answers [true] exactly if the model was there, whose
    module and device it then keeps whatever the path, or has no file, or its file loads;
    otherwise nothing changes. Afterwards requests for it are no longer refused, and
    after [unload], which answers whether it was there, they are. *)
Theorem torch_models_come_and_go `{Torch} s id path dev :
  let '(loaded, s') := load s id path dev in
  (s !! id ≠ None → loaded = true ∧ s' = s) ∧
  (s !! id = None → path = [] → loaded = true) ∧
  (loaded = false → s' = s) ∧
  (loaded = true → is_Some (s' !! id)) ∧
  (∀ id', id' ≠ id → s' !! id' = s !! id') ∧
  let '(gone, s'') := unload s' id in
  (gone = true ↔ is_Some (s' !! id)) ∧
  (∀ ns req buf, model_id req = id →
     infer s'' ns req buf = Returned (set_error (not_loaded id) (slot_new buf))) ∧
  (∀ id', id' ≠ id → s'' !! id' = s' !! id').
Proof.
  assert (∀ s' : gmap text ModelState, let '(gone, s'') := unload s' id in
    (gone = true ↔ is_Some (s' !! id)) ∧
    (∀ ns req buf, model_id req = id →
       infer s'' ns req buf = Returned (set_error (not_loaded id) (slot_new buf))) ∧
    (∀ id', id' ≠ id → s'' !! id' = s' !! id')) as Hun.
  { intros s'. unfold unload. split; [apply bool_decide_eq_true|]. split.
    - intros ns req buf <-. unfold infer. by rewrite lookup_delete_eq.
    - intros id' Hne. by apply lookup_delete_ne. }
  unfold load. destruct (s !! id) as [st|] eqn:Hs.
  - split_and!; try done. apply Hun.
  - destruct path as [|c path].
    + split_and!; try done; [by rewrite lookup_insert_eq|by intros; apply lookup_insert_ne|apply Hun].
    + destruct (jit_load (c :: path) _) as [e|m].
      * split_and!; try done; apply Hun.
      * split_and!; try done; [by rewrite lookup_insert_eq|by intros; apply lookup_insert_ne|apply Hun].
Qed.

(** ** A concrete libtorch

    Tensors as row-major lists of integers; the module doubles every element. *)

Record matrix := {
  m_sizes : list Z;
  m_data : list Z }.

Definition product (l : list Z) : Z := foldr Z.mul 1 l.

(** The elements, as many as the sizes say. *)
Definition floats (t : matrix) : list Z := resize (Z.to_nat (product (m_sizes t))) 0 (m_data t).

Definition doubled (t : matrix) : matrix := {| m_sizes := m_sizes t; m_data := Z.mul 2 <$> m_data t |}.

Definition concat_rows (ts : list matrix) : torch_exn + matrix :=
  match ts with
  | [] => inl (C10Error (txt "expected a non-empty list of Tensors"))
  | t :: _ =>
      match m_sizes t with
      | [] => inl (C10Error (txt "zero-dimensional tensor cannot be concatenated"))
      | _ :: tl =>
          if bool_decide (Forall (λ t, tail (m_sizes t) = tl) ts)
          then inr {| m_sizes := foldr Z.add 0 (omap (head ∘ m_sizes) ts) :: tl;
                      m_data := concat (floats <$> ts) |}
          else inl (C10Error (txt "Sizes of tensors must match except in dimension 0"))
      end
  end.

(** At most [fuel] pieces of [step] rows of [width] elements out of [rows]. *)
Fixpoint split_rows (fuel step width rows : nat) (tl data : list Z) : list matrix :=
  match fuel, rows with
  | O, _ | _, O => []
  | S fuel, _ =>
      {| m_sizes := Z.of_nat (min step rows) :: tl; m_data := take (min step rows * width) data |}
      :: split_rows fuel step width (rows - step) tl (drop (step * width) data)
  end.

Definition chunk_rows (t : matrix) (n : nat) : torch_exn + list matrix :=
  match m_sizes t with
  | [] => inl (C10Error (txt "chunk expects at least a 1-dimensional tensor"))
  | d :: tl =>
      if d =? 0 then inr (replicate n t)
      else inr (split_rows n (Z.to_nat ((d + Z.of_nat n - 1) / Z.of_nat n))
                  (Z.to_nat (product tl)) (Z.to_nat d) tl (floats t))
  end.

#[local] Instance row_torch : Torch := {|
  tensor := matrix; script_module := (); default_module := ();
  cuda_is_available := false;
  jit_load := λ _ _, inr ();
  blob_numel := λ sh, if bool_decide (Forall (λ d, 0 <= d) sh) then inr (product sh)
                      else inl (C10Error (txt "negative dimension"));
  clone_blob := λ fs sh, inr {| m_sizes := sh; m_data := fs |};
  to_device := λ _ t, inr t;
  contiguous := λ t, inr t;
  forward := λ _ t, inr (doubled t);
  mul_scalar := λ t _, inr t;
  add_scalar := λ t _, inr t;
  relu := λ t, inr t;
  cat := concat_rows;
  chunk := chunk_rows;
  sizes := m_sizes;
  numel := λ t, Z.of_nat (Z.to_nat (product (m_sizes t)));
  data_floats := λ t, inr (floats t) |}.

Definition request (id : string) (sh input : list Z) : InferenceRequest := {|
  model_id := txt id; shape := sh; input := input;
  output_capacity := Z.of_nat (length input); device := Cpu |}.

Definition one_model : gmap text ModelState := (load ∅ (txt "m") (txt "model.pt") Cpu).2.

(** Requests of [n] rows of one element, the row numbers marked with [tag]. *)
Definition rows_of (tag : Z) (n : nat) : InferenceRequest * list Z :=
  let input := (λ k, tag + Z.of_nat k) <$> seq 0 n in
  (request "m" [Z.of_nat n; 1] input, replicate n 0).

(** Batches of different shapes mix up rows. Chunks are cut by the number of
    requests, not by their rows: of requests with four, three and one rows the second
    is answered, as a success, with a row of the first, and the third is refused; with
    two, one and one rows there are two chunks for three requests and the loop reads
    past them. *)
Theorem torch_batches_mix_rows :
  (∃ w0 w1 w2,
     infer_batch one_model (λ _, 0) [rows_of 10 4; rows_of 20 3; rows_of 30 1] = Returned [w0; w1; w2] ∧
     ok (resp w1) = true ∧ buffer w1 = [2 * 13; 2 * 20; 2 * 21] ∧
     ok (resp w2) = false) ∧
  infer_batch one_model (λ _, 0) [rows_of 10 2; rows_of 20 1; rows_of 30 1] = Undefined.
Proof.
  split; [|vm_compute; reflexivity].
  do 3 eexists. split; [vm_compute; reflexivity|]. split_and!; vm_compute; reflexivity.
Qed.

(** *** Its laws *)

Lemma length_floats t : length (floats t) = Z.to_nat (product (m_sizes t)).
Proof. apply length_resize. Qed.

Lemma floats_doubled t : floats (doubled t) = Z.mul 2 <$> floats t.
Proof.
  unfold floats. simpl. generalize (Z.to_nat (product (m_sizes t))). intros n.
  rewrite !resize_spec, fmap_app, fmap_take, fmap_replicate, length_fmap. done.
Qed.

Lemma concat_doubled ts :
  concat (floats <$> (doubled <$> ts)) = Z.mul 2 <$> concat (floats <$> ts).
Proof. induction ts as [|t ts IH]; [done|]. csimpl. by rewrite fmap_app, floats_doubled, IH. Qed.

Section one_row.
Context (width : nat).

Definition one_row (t : matrix) : Prop := m_sizes t = [1; Z.of_nat width].

Lemma one_row_length t : one_row t → length (floats t) = width.
Proof. intros H. rewrite length_floats, H. simpl. lia. Qed.

Lemma concat_rows_same ts :
  ts ≠ [] → Forall one_row ts →
  concat_rows ts = inr {| m_sizes := [Z.of_nat (length ts); Z.of_nat width];
                          m_data := concat (floats <$> ts) |}.
Proof.
  intros Hne Hf. assert (foldr Z.add 0 (omap (head ∘ m_sizes) ts) = Z.of_nat (length ts)) as Hsum.
  { clear Hne. induction Hf as [|t ts Ht _ IH]; [done|]. csimpl. rewrite Ht. csimpl. rewrite IH. lia. }
  destruct ts as [|t ts]; [done|]. unfold concat_rows. pose proof Hf as [Ht _]%Forall_cons.
  rewrite Ht. rewrite bool_decide_eq_true_2; [by rewrite Hsum|].
  apply (Forall_impl _ _ _ Hf). by intros t' ->.
Qed.

Lemma length_concat_rows ts :
  Forall one_row ts → length (concat (floats <$> ts)) = (length ts * width)%nat.
Proof.
  induction 1 as [|t ts Ht _ IH]; [done|]. csimpl. rewrite length_app, one_row_length, IH by done. lia.
Qed.

Lemma split_rows_same ts :
  Forall one_row ts →
  Forall2 same_values
    (split_rows (length ts) 1 width (length ts) [Z.of_nat width] (concat (floats <$> ts))) ts.
Proof.
  induction 1 as [|t ts Ht _ IH]; [constructor|]. csimpl. rewrite Nat.add_0_r, Nat.sub_0_r.
  rewrite drop_app_exact, take_app_exact by by rewrite one_row_length. constructor; [|done].
  split; [done|]. split; [by simpl; rewrite Ht|]. simpl. f_equal. unfold floats at 1. simpl.
  apply resize_all_alt. rewrite one_row_length by done. lia.
Qed.

Lemma chunk_rows_same ts x :
  ts ≠ [] → Forall one_row ts → concat_rows ts = inr x →
  ∃ cs, chunk_rows x (length ts) = inr cs ∧ Forall2 same_values cs ts.
Proof.
  intros Hne Hf Hx. rewrite concat_rows_same in Hx by done. injection Hx as <-.
  unfold chunk_rows. simpl m_sizes. cbv iota beta.
  assert (0 < Z.of_nat (length ts)) by (destruct ts; simpl; [done|lia]).
  destruct (Z.eqb_spec (Z.of_nat (length ts)) 0); [lia|].
  assert ((Z.of_nat (length ts) + Z.of_nat (length ts) - 1) / Z.of_nat (length ts) = 1) as ->
    by (symmetry; apply (Z.div_unique _ _ _ (Z.of_nat (length ts) - 1)); lia).
  eexists. split; [done|]. rewrite Nat2Z.id.
  assert (Z.to_nat (product [Z.of_nat width]) = width) as -> by (simpl; lia).
  unfold floats at 1. simpl.
  rewrite resize_all_alt by (rewrite length_concat_rows by done; lia).
  by apply split_rows_same.
Qed.
End one_row.

Definition the_model : ModelState := {| has_module := true; module := (); model_device := kCPU |}.

Lemma computes_doubled x z : computes the_model x z ↔ z = doubled x.
Proof.
  split; [intros (y & c & Hy & Hc & Hz); simpl in *; congruence|].
  intros ->. by exists (doubled x), (doubled x).
Qed.

Lemma readable_matrix t : product (m_sizes t) < 2 ^ 64 → readable t.
Proof. intros Hb. exists (floats t). simpl. rewrite length_floats. split_and!; [done|done|lia]. Qed.

Lemma doubled_row_wise xs zs :
  xs ≠ [] → Forall (one_row 2) xs → Forall2 (computes the_model) xs zs →
  ∃ x z, cat xs = inr x ∧ computes the_model x z ∧ cat zs = inr z.
Proof.
  intros Hne Hxs Hc. assert (zs = doubled <$> xs) as ->.
  { clear Hne Hxs. induction Hc as [|x z xs zs Hz _ IH]; [done|]. apply computes_doubled in Hz as ->.
    by rewrite IH. }
  eexists _, _. split; [by apply (concat_rows_same 2)|].
  split; [by apply computes_doubled|]. simpl cat. rewrite (concat_rows_same 2).
  - rewrite length_fmap. unfold doubled at 2. simpl. by rewrite concat_doubled.
  - by destruct xs.
  - by apply Forall_fmap.
Qed.

Definition two_requests : list (InferenceRequest * list Z) :=
  [(request "m" [1; 2] [1; 2], [0; 0]); (request "m" [1; 2] [3; 4], [0; 0])].

Lemma reads_row a b :
  reads the_model (request "m" [1; 2] [a; b]) {| m_sizes := [1; 2]; m_data := [a; b] |}.
Proof. exists 2. by eexists. Qed.

(** *** Witnesses *)

Lemma torch_answers_fit_witness :
  ∃ ws w, infer_batch one_model (λ _, 0) two_requests = Returned ws ∧
    infer one_model 0 (request "m" [1; 2] [1; 2]) [0] = Returned w ∧
    Forall2 slot_ok two_requests.*2 ws ∧ slot_ok [0] w.
Proof.
  do 2 eexists. split; [vm_compute; reflexivity|]. split; [vm_compute; reflexivity|].
  eapply (torch_answers_fit one_model (λ _, 0) two_requests _ (request "m" [1; 2] [1; 2]) [0] 0);
    vm_compute; reflexivity.
Defined.

Lemma batching_preserves_answers_witness :
  ∃ ws, infer_batch one_model (λ _, 7) two_requests = Returned ws ∧
    Forall2 (λ b w, infer one_model (latency_ns (resp w)) b.1 b.2 = Returned w) two_requests ws ∧
    buffer <$> ws = [[2; 4]; [6; 8]].
Proof.
  assert (∃ ws, infer_batch one_model (λ _, 7) two_requests = Returned ws ∧
    Forall2 (λ b w, infer one_model (latency_ns (resp w)) b.1 b.2 = Returned w) two_requests ws) as (ws & Hb & Hi).
  { apply (batching_preserves_answers one_model the_model (txt "m") [1; 2] [1; 2]).
    - vm_compute. reflexivity.
    - apply Forall_cons. split; [|apply Forall_cons; split; [|constructor]]; (split; [reflexivity|]);
        do 2 eexists; (split; [apply reads_row|]); (split; [reflexivity|by apply computes_doubled]).
    - intros x z Hx ->%computes_doubled. split; [|done]. apply readable_matrix. simpl in *. by rewrite Hx.
    - intros xs zs Hne Hf. by apply doubled_row_wise.
    - intros zs z Hne Hf. apply (chunk_rows_same 2); [done|]. by eapply Forall_impl; [exact Hf|intros ? [_ ?]]. }
  exists ws. split; [done|]. split; [done|]. vm_compute in Hb. injection Hb as <-. reflexivity.
Defined.

Lemma torch_overreads_short_requests_witness :
  infer one_model 0 (request "m" [1; 2] [1]) [0] = Undefined ∧
  infer_batch one_model (λ _, 0) [(request "m" [1; 2] [1; 2], [0; 0]); (request "m" [1; 2] [], [])]
    = Undefined.
Proof.
  assert (∀ (y : @tensor row_torch) fs, data_floats y = inr fs → numel y = Z.of_nat (length fs)) as Hd.
  { intros y fs Hf. simpl in *. injection Hf as <-. by rewrite length_floats. }
  pose proof (torch_overreads_short_requests one_model the_model 0 (λ _, 0) (request "m" [1; 2] [1]) [0]
    [] [] [] default_extended_config [] []) as Ha.
  pose proof (torch_overreads_short_requests one_model the_model 0 (λ _, 0) (request "m" [1; 2] []) []
    [(request "m" [1; 2] [1; 2], [0; 0])] [] [{| m_sizes := [1; 2]; m_data := [1; 2] |}]
    default_extended_config [] []) as Hb.
  split.
  - apply Ha; [done|vm_compute; reflexivity|constructor|constructor|]. by exists 2.
  - apply Hb; [done|vm_compute; reflexivity| |by repeat constructor|by exists 2].
    constructor; [apply reads_row|constructor].
Defined.
