(* ===== verification/Runtime.v ===== *)
(** * Inference runtime ([include/jellybean/inference/runtime.hpp],
      [src/inference/runtime.cpp])

    The map from model ids to running executors, shared by any number of threads.
    Every section under [mu_] is one step; starting, stopping and submitting happen
    outside the lock and are steps of their own. An executor is the number of its
    construction; [log] records what was called on the executors. *)
From S2P Require Import Prelude.
From S2P Require Import Transition.
From S2P Require Import Text.
From S2P Require Import Types.

(** ** Data *)

Inductive executor_call :=
| Start (h : nat)
| Submit (h : nat) (req : InferenceRequest)
| Stop (h : nat).

(** Where a thread is: between operations; in [register_model], the executor started;
    in [infer_async], the executor found; with executors to stop, taken out of the map
    by [unregister_model] or [shutdown], or not put into it by [register_model]. *)
Inductive thread :=
| Idle
| Registering (id : text) (h : nat)
| Submitting (h : nat) (req : InferenceRequest)
| Stopping (hs : list nat).

Record InferenceRuntime := {
  executors_ : gmap text nat;
  stopped_ : bool;
  constructed : nat;
  log : list executor_call;
  threads : list thread;
  refused : list (InferenceRequest * InferenceResponse) }.

Definition runtime_new (n : nat) : InferenceRuntime := {|
  executors_ := ∅; stopped_ := false; constructed := 0; log := []; threads := replicate n Idle;
  refused := [] |}.

Definition created (s : InferenceRuntime) : Prop := ∃ n, s = runtime_new n.

(** ** State updates *)

Definition set_thread (s : InferenceRuntime) (j : nat) (t : thread) : InferenceRuntime := {|
  executors_ := executors_ s; stopped_ := stopped_ s; constructed := constructed s; log := log s;
  threads := <[j := t]> (threads s); refused := refused s |}.

Definition set_executors (s : InferenceRuntime) (m : gmap text nat) (b : bool) : InferenceRuntime := {|
  executors_ := m; stopped_ := b; constructed := constructed s; log := log s;
  threads := threads s; refused := refused s |}.

Definition call (s : InferenceRuntime) (c : executor_call) : InferenceRuntime := {|
  executors_ := executors_ s; stopped_ := stopped_ s; constructed := constructed s;
  log := log s ++ [c]; threads := threads s; refused := refused s |}.

(** [make_shared] and [start]. *)
Definition construct (s : InferenceRuntime) : InferenceRuntime := {|
  executors_ := executors_ s; stopped_ := stopped_ s; constructed := S (constructed s);
  log := log s ++ [Start (constructed s)]; threads := threads s; refused := refused s |}.

Definition refuse (s : InferenceRuntime) (req : InferenceRequest) (e : text) : InferenceRuntime := {|
  executors_ := executors_ s; stopped_ := stopped_ s; constructed := constructed s; log := log s;
  threads := threads s; refused := refused s ++ [(req, error_response e)] |}.

(** ** Steps *)

(** One step of thread [j]. The model may be found not ready at any registration. A
    registration that finds the id taken drops its executor, whose destructor stops
    it. *)
Inductive thread_step (j : nat) : thread → InferenceRuntime → InferenceRuntime → Prop :=
| step_register_refused s :
    thread_step j Idle s s
| step_register_start s id :
    thread_step j Idle s (set_thread (construct s) j (Registering id (constructed s)))
| step_register_insert s id h :
    executors_ s !! id = None →
    thread_step j (Registering id h) s
      (set_thread (set_executors s (<[id := h]> (executors_ s)) (stopped_ s)) j Idle)
| step_register_taken s id h h' :
    executors_ s !! id = Some h' →
    thread_step j (Registering id h) s (set_thread s j (Stopping [h]))
| step_unregister_missing s id :
    executors_ s !! id = None → thread_step j Idle s s
| step_unregister s id h :
    executors_ s !! id = Some h →
    thread_step j Idle s
      (set_thread (set_executors s (delete id (executors_ s)) (stopped_ s)) j (Stopping [h]))
| step_infer_stopped s req :
    stopped_ s = true →
    thread_step j Idle s (refuse s req (txt "runtime stopped"))
| step_infer_unknown s req :
    stopped_ s = false → executors_ s !! model_id req = None →
    thread_step j Idle s (refuse s req (txt "model not registered in runtime: " ++ model_id req))
| step_infer_route s req h :
    stopped_ s = false → executors_ s !! model_id req = Some h →
    thread_step j Idle s (set_thread s j (Submitting h req))
| step_infer_submit s h req :
    thread_step j (Submitting h req) s (set_thread (call s (Submit h req)) j Idle)
| step_shutdown_again s :
    stopped_ s = true → thread_step j Idle s s
| step_shutdown s :
    stopped_ s = false →
    thread_step j Idle s
      (set_thread (set_executors s ∅ true) j (Stopping (map_to_list (executors_ s)).*2))
| step_stop s h hs :
    thread_step j (Stopping (h :: hs)) s (set_thread (call s (Stop h)) j (Stopping hs))
| step_stopped s :
    thread_step j (Stopping []) s (set_thread s j Idle).

Definition step (s s' : InferenceRuntime) : Prop :=
  ∃ j t, threads s !! j = Some t ∧ thread_step j t s s'.

(** ** Who has an executor *)

Definition stopped_in (l : list executor_call) : list nat :=
  omap (λ c, match c with Stop h => Some h | _ => None end) l.

Definition started_in (l : list executor_call) : list nat :=
  omap (λ c, match c with Start h => Some h | _ => None end) l.

Definition held (t : thread) : list nat :=
  match t with Registering _ h => [h] | Stopping hs => hs | _ => [] end.

Definition in_map (s : InferenceRuntime) : list nat := (map_to_list (executors_ s)).*2.

(** Every executor is in the map, with the thread that will put it there or stop it,
    or was stopped. *)
Definition owners (s : InferenceRuntime) : list nat :=
  in_map s ++ concat (held <$> threads s) ++ stopped_in (log s).

Record runtime_ok (s : InferenceRuntime) : Prop := {
  ok_owners : ∀ h, occ h (owners s) = if decide (h < constructed s)%nat then 1%nat else 0%nat;
  ok_started : started_in (log s) = seq 0 (constructed s);
  ok_submitting : Forall (λ t, match t with Submitting h _ => h < constructed s | _ => True end)%nat
                    (threads s);
  ok_submitted : ∀ h req, Submit h req ∈ log s → (h < constructed s)%nat }.

Lemma held_moves (s : InferenceRuntime) h j t t' :
  threads s !! j = Some t →
  (occ h (concat (held <$> <[j := t']> (threads s))) + occ h (held t) =
   occ h (concat (held <$> threads s)) + occ h (held t'))%nat.
Proof.
  apply occ_fmap_insert.
Qed.

Lemma occ_insert_map (h : nat) (m : gmap text nat) (id : text) (k : nat) :
  m !! id = None →
  occ h (map_to_list (<[id := k]> m)).*2 = (occ h [k] + occ h (map_to_list m).*2)%nat.
Proof.
  intros Hm. rewrite (occ_perm h _ ((id, k) :: map_to_list m).*2).
  - rewrite fmap_cons. simpl. lia.
  - apply fmap_Permutation. by apply map_to_list_insert.
Qed.

Lemma occ_delete_map (h : nat) (m : gmap text nat) (id : text) (k : nat) :
  m !! id = Some k →
  (occ h (map_to_list (delete id m)).*2 + occ h [k])%nat = occ h (map_to_list m).*2.
Proof.
  intros Hm. rewrite (occ_perm h (map_to_list m).*2 ((id, k) :: map_to_list (delete id m)).*2).
  - rewrite fmap_cons. simpl. lia.
  - apply fmap_Permutation. symmetry. by apply map_to_list_delete.
Qed.

Lemma runtime_ok_init s : created s → runtime_ok s.
Proof.
  intros [n ->]. split; simpl.
  - intros h. unfold owners, in_map. simpl. rewrite map_to_list_empty, app_nil_r. simpl.
    assert (concat (held <$> replicate n Idle) = []) as ->
      by (induction n as [|n IH]; [done|]; by rewrite replicate_S, fmap_cons).
    repeat case_match; (done || lia).
  - done.
  - by apply Forall_replicate.
  - intros h req H. by apply elem_of_nil in H.
Qed.

Lemma stopped_app a b : stopped_in (a ++ b) = stopped_in a ++ stopped_in b.
Proof. apply omap_app. Qed.

Lemma started_app a b : started_in (a ++ b) = started_in a ++ started_in b.
Proof. apply omap_app. Qed.

Ltac count_held Hj h :=
  match type of Hj with
  | threads ?s !! ?j = Some ?t =>
      match goal with
      | |- context [concat (held <$> <[j := ?t']> _)] => pose proof (held_moves s h j t t' Hj)
      end
  end.

Ltac owner_counts Hj Ho :=
  let h := fresh "h" in
  intros h; specialize (Ho h); unfold owners, in_map in *; simpl in *;
  count_held Hj h;
  rewrite ?stopped_app, ?occ_app in *; rewrite ?occ_insert_map by done; simpl in *;
  rewrite ?map_to_list_empty in *; simpl in *; repeat case_decide; lia.

Lemma runtime_ok_step s s' : runtime_ok s → step s s' → runtime_ok s'.
Proof.
  intros [Ho Hs Ht Hl] (j & t & Hj & Hstep).
  pose proof (Forall_lookup_1 _ _ _ _ Ht Hj) as Htj. simpl in Htj.
  assert (∀ id h, executors_ s !! id = Some h → (h < constructed s)%nat) as Hmap.
  { intros id h Hid. specialize (Ho h). unfold owners, in_map in Ho. rewrite occ_app in Ho.
    pose proof (occ_delete_map h _ _ _ Hid) as Hd. simpl in Hd.
    rewrite decide_True in Hd by done. case_decide; lia. }
  destruct Hstep as [s|s id|s id h Hid|s id h h' Hid|s id|s id h Hid|s req|s req|s req h Hst Hid|s h req
                    |s|s Hst|s h hs|s]; try done; split; cbn [log threads constructed set_thread
                    construct call set_executors refuse] in *; try done.
  all: try (by apply Forall_insert).
  all: try (owner_counts Hj Ho).
  - rewrite started_app, Hs, seq_S. done.
  - apply Forall_insert; [|done]. apply (Forall_impl _ _ _ Ht). intros []; simpl; lia.
  - intros h req [H|H%list_elem_of_singleton]%elem_of_app; [|done]. specialize (Hl _ _ H). lia.
  - intros h0. pose proof (occ_delete_map h0 _ _ _ Hid). revert h0 H.
    intros h0 H. specialize (Ho h0). unfold owners, in_map in *. simpl in *.
    count_held Hj h0. rewrite ?occ_app in *; simpl in *. repeat case_decide; lia.
  - apply Forall_insert; [done|]. by eapply Hmap.
  - by rewrite started_app, Hs, app_nil_r.
  - intros h0 req0 [H|H%list_elem_of_singleton]%elem_of_app; [by eapply Hl|]. by simplify_eq.
  - by rewrite started_app, Hs, app_nil_r.
  - intros h0 req0 [H|H%list_elem_of_singleton]%elem_of_app; [by eapply Hl|done].
Qed.

Lemma runtime_reachable_ok s : reachable created step s → runtime_ok s.
Proof.
  apply reachable_ind'; [apply runtime_ok_init|]. intros s1 s2 _. apply runtime_ok_step.
Qed.

Lemma started_elem l h : Start h ∈ l ↔ h ∈ started_in l.
Proof.
  unfold started_in. rewrite list_elem_of_omap. split.
  - intros H. by exists (Start h).
  - intros ([] & Hin & ?); by simplify_eq.
Qed.

Lemma stopped_elem l h : Stop h ∈ l ↔ h ∈ stopped_in l.
Proof.
  unfold stopped_in. rewrite list_elem_of_omap. split.
  - intros H. by exists (Stop h).
  - intros ([] & Hin & ?); by simplify_eq.
Qed.

(** The executors of the map run. *)
Lemma mapped_runs s id h :
  runtime_ok s → executors_ s !! id = Some h → Start h ∈ log s ∧ Stop h ∉ log s.
Proof.
  intros [Ho Hs _ _] Hid. specialize (Ho h). unfold owners, in_map in Ho. rewrite !occ_app in Ho.
  pose proof (occ_delete_map h _ _ _ Hid) as Hd. simpl in Hd. rewrite decide_True in Hd by done.
  split.
  - apply started_elem. rewrite Hs. apply elem_of_seq. case_decide; lia.
  - rewrite stopped_elem. intros H%occ_elem. case_decide; lia.
Qed.

Lemma owner_counts_split s h :
  occ h (owners s) =
  (occ h (in_map s) + occ h (concat (held <$> threads s)) + occ h (stopped_in (log s)))%nat.
Proof. unfold owners. rewrite !occ_app. lia. Qed.

(** Once stopped, the runtime stays stopped and routes nothing. *)
Lemma stopped_routes_nothing s s' :
  stopped_ s = true → step s s' →
  stopped_ s' = true ∧
  ∀ j h req, threads s' !! j = Some (Submitting h req) → threads s !! j = Some (Submitting h req).
Proof.
  intros Hst (j & t & Hj & Hstep).
  assert (∀ k t' h req, (∀ h req, t' ≠ Submitting h req) →
    <[j := t']> (threads s) !! k = Some (Submitting h req) → threads s !! k = Some (Submitting h req)) as Hk.
  { intros k t' h req Hne [(<- & Heq & _)|[_ ?]]%list_lookup_insert_Some; [|done]. by eapply Hne in Heq. }
  inversion Hstep; subst; clear Hstep; try congruence.
  all: split; [simpl; congruence|intros k h0 req0 Hs'; simpl in Hs'].
  all: first [exact Hs'|by eapply Hk; [|exact Hs']].
Qed.

(** ** Properties *)

(** C22. However threads register, unregister, infer and shut down: every executor
    ever started is in exactly one place (in the map, with the one thread that will
    insert or stop it, or stopped), so it is stopped at most once; the executors of
    the map run; requests go to executors that were started; and when the threads are
    idle and the map is empty, every executor was stopped. *)
Theorem runtime_owns_executors s :
  reachable created step s →
  (∀ h, occ h (owners s) = if decide (h < constructed s)%nat then 1%nat else 0%nat) ∧
  (∀ id h, executors_ s !! id = Some h → Start h ∈ log s ∧ Stop h ∉ log s) ∧
  (∀ h req, Submit h req ∈ log s → Start h ∈ log s) ∧
  (Forall (λ t, t = Idle) (threads s) → executors_ s = ∅ →
     ∀ h, Start h ∈ log s → Stop h ∈ log s).
Proof.
  intros Hr. pose proof (runtime_reachable_ok s Hr) as Hok. pose proof Hok as [Ho Hs _ Hl].
  assert (∀ h, (h < constructed s)%nat ↔ Start h ∈ log s) as Hstart.
  { intros h. rewrite started_elem, Hs, elem_of_seq. lia. }
  split; [done|]. split; [intros id h; by apply mapped_runs|].
  split; [intros h req H; apply Hstart; by eapply Hl|].
  intros Hidle Hmap h Hh%Hstart. apply stopped_elem, occ_elem.
  specialize (Ho h). rewrite owner_counts_split in Ho. unfold in_map in Ho.
  rewrite Hmap, map_to_list_empty in Ho. simpl in Ho.
  assert (concat (held <$> threads s) = []) as Hn.
  { clear -Hidle. induction Hidle as [|t ts -> _ IH]; [done|]. by rewrite fmap_cons. }
  rewrite Hn in Ho. simpl in Ho. rewrite decide_True in Ho by done. lia.
Qed.

(** Registering after [shutdown] succeeds and starts threads for a model that can
    no longer be asked: a state is reached, with no operation under way, in which the
    runtime is stopped and an executor runs in the map; and a stopped runtime stays
    stopped and routes no request. *)
Theorem runtime_registers_after_shutdown :
  (∃ s id h, reachable created step s ∧ threads s = [Idle] ∧ stopped_ s = true ∧
     executors_ s !! id = Some h ∧ Start h ∈ log s ∧ Stop h ∉ log s) ∧
  (∀ s s', stopped_ s = true → step s s' →
     stopped_ s' = true ∧
     ∀ j h req, threads s' !! j = Some (Submitting h req) →
       threads s !! j = Some (Submitting h req)).
Proof.
  split; [|exact stopped_routes_nothing].
  assert (∃ s, reachable created step s ∧ threads s = [Idle] ∧ stopped_ s = true ∧
            executors_ s !! txt "m" = Some 0%nat) as (s & Hr & Ht & Hst & Hm).
  { eexists. split; [|split; [|split]].
    - eexists. split; [by exists 1%nat|].
      eapply rtc_l; [eexists 0%nat, _; split; [reflexivity|by apply step_shutdown]|].
      eapply rtc_l; [eexists 0%nat, _; split; [reflexivity|apply step_stopped]|].
      eapply rtc_l; [eexists 0%nat, _; split; [reflexivity|apply (step_register_start _ _ (txt "m"))]|].
      eapply rtc_l; [eexists 0%nat, _; split; [reflexivity|by apply step_register_insert]|].
      apply rtc_refl.
    - reflexivity.
    - reflexivity.
    - reflexivity. }
  exists s, (txt "m"), 0%nat.
  destruct (mapped_runs s (txt "m") 0 (runtime_reachable_ok s Hr) Hm). by split_and!.
Qed.

Lemma runtime_owns_executors_witness :
  ∃ s, reachable created step s ∧ constructed s = 1%nat ∧
    occ 0%nat (owners s) = 1%nat.
Proof.
  assert (∃ s, reachable created step s ∧ constructed s = 1%nat) as (s & Hr & Hc).
  { eexists. split.
    - eexists. split; [by exists 1%nat|].
      eapply rtc_l; [eexists 0%nat, _; split; [reflexivity|apply (step_register_start _ _ (txt "m"))]|].
      apply rtc_refl.
    - reflexivity. }
  exists s. split; [done|]. split; [done|].
  destruct (runtime_owns_executors s Hr) as [Ho _]. by rewrite Ho, Hc.
Defined.
