(* ===== verification/Server.v ===== *)
(** * Server ([main] and [accept_loop] of [src/server/main.cpp])

    The start of the server, composed of the loaders of the configuration, the scan of
    the model repository and the runtime, and the coroutine that accepts connections.
    The files, the kernel's answers, the creation of threads and the backends are
    arguments; logging is left out, and of the metrics server, which [MetricsServer]
    models, only its thread is seen here. *)
From S2P Require Import Prelude.
From S2P Require Import Transition.
From S2P Require Import Text.
From S2P Require Import Types.
From S2P Require Import ModelConfig.
From S2P Require Import ModelRepository.
From S2P Require Import ServerConfig.
From S2P Require Import Runtime.

(** ** Starting executors *)

(** [std::vector<std::thread>::max_size()]. *)
Definition max_threads : Z := 2 ^ 60 - 1.

(** The executor's constructor. *)
Definition num_workers (cfg : RuntimeConfig) : Z :=
  if 0 <? worker_threads cfg then worker_threads cfg else 1.

(** What registering a ready model does to the map, the executor running: called by the
    runtime's only thread. *)
Definition emplace (id : text) (s : InferenceRuntime) : bool * InferenceRuntime :=
  let h := constructed s in
  let s := Runtime.set_thread (construct s) 0 (Registering id h) in
  match executors_ s !! id with
  | None => (true, Runtime.set_thread (set_executors s (<[id := h]> (executors_ s)) (stopped_ s)) 0 Idle)
  | Some _ =>
      let s := Runtime.set_thread s 0 (Stopping [h]) in
      let s := Runtime.set_thread (call s (Stop h)) 0 (Stopping []) in
      (false, Runtime.set_thread s 0 Idle)
  end.

Section threads.
(** Whether there is memory for [n] threads, and whether the [k]-th thread the process
    creates is created. *)
Context (can_reserve : Z → bool) (can_create : nat → bool).

Fixpoint create_threads (n k : nat) : bool :=
  match n with O => true | S n => can_create k && create_threads n (S k) end.

(** [ModelExecutor::start], [k] threads having been created: how many are then. *)
Definition start_executor (cfg : RuntimeConfig) (k : nat) : outcome nat :=
  let n := num_workers cfg in
  if max_threads <? n then Fault (Thrown length_error)
  else if negb (can_reserve n) then Fault (Thrown bad_alloc)
  else if create_threads (Z.to_nat n) k then mret (k + Z.to_nat n)%nat
  else Fault (Thrown system_error).

(** [register_model] for a ready model. *)
Definition register (cfg : RuntimeConfig) (id : text) (ks : nat * InferenceRuntime) :
    outcome (bool * (nat * InferenceRuntime)) :=
  k ← start_executor cfg ks.1;
  let '(inserted, s) := emplace id ks.2 in mret (inserted, (k, s)).

(** ** Registering models *)

Section server.
Context {B : Type} (make_torch_backend : option B) (backend_load : B → text → path → DeviceKind → bool).

(** The loop of [main] over [registry.list()]. *)
Definition register_one (cfg : RuntimeConfig) (r : ModelRegistry (B := B)) (ks : nat * InferenceRuntime)
    (info : text * ModelState * Z) : outcome (nat * InferenceRuntime) :=
  let '(name, st, _) := info in
  if decide (st = Ready) then
    match lookup_ready r name with
    | Some _ => '(_, ks) ← register cfg name ks; mret ks
    | None => mret ks
    end
  else mret ks.

Fixpoint register_infos (cfg : RuntimeConfig) (r : ModelRegistry (B := B)) (ks : nat * InferenceRuntime)
    (infos : list (text * ModelState * Z)) : outcome (nat * InferenceRuntime) :=
  match infos with
  | [] => mret ks
  | info :: infos => ks ← register_one cfg r ks info; register_infos cfg r ks infos
  end.

Definition register_models (cfg : RuntimeConfig) (r : ModelRegistry (B := B)) :
    outcome (nat * InferenceRuntime) :=
  register_infos cfg r (0%nat, runtime_new 1) (list_models r).

(** ** Starting *)

(** What [main] comes to before its loop: an exit code, or a runtime that serves the
    connections of an address and a port. *)
Inductive started :=
| Exit (code : Z)
| Serving (rt : InferenceRuntime) (config : ExtendedConfig) (addr port : Z).

(** [main] up to its loop. [epoll_created]: whether [epoll_create1] succeeds;
    [metrics_listens]: whether the metrics server can listen and starts its thread.
    [inet_pton] gives the address of a host it understands and otherwise leaves the zeroed
    one; the port is a [uint16_t]. An exception on the way stops and joins the threads
    that were created. *)
Definition start (config_file : option text) (repository : text → option node)
    (epoll_created metrics_listens : bool) (inet_pton : text → option Z) (bind : Z → Z → bool) :
    outcome started :=
  cfg ← from_file config_file;
  ext ← load_extended_config config_file;
  '(result, registry) ← scan_and_load make_torch_backend backend_load [cfg_model_repository ext]
    (repository (cfg_model_repository ext)) registry_new;
  if loaded result =? 0 then mret (Exit 1)
  else
    '(k, runtime) ← register_models cfg registry;
    if negb epoll_created then Fault Aborted else
    if metrics_listens && negb (can_create k) then Fault (Thrown system_error) else
    let addr := default 0 (inet_pton (cfg_host ext)) in
    let port := u16 (cfg_port ext) in
    if bind addr port then mret (Serving runtime ext addr port) else mret (Exit 1).

(** The handlers of [main]: every exception ends it with 1. *)
Definition main config_file repository epoll_created metrics_listens inet_pton bind : outcome started :=
  match start config_file repository epoll_created metrics_listens inet_pton bind with
  | Fault (Thrown _) => Done (Exit 1)
  | o => o
  end.
End server.
End threads.

(** ** Accepting *)

(** [accept_loop] over what [accept] answers: the descriptors it starts sessions for.
    [running] is [g_running] at the head of each round. *)
Fixpoint accept_loop (running : nat → bool) (round : nat) (fds : list Z) : list Z :=
  match fds with
  | [] => []
  | fd :: fds =>
      if running round then
        (if 0 <=? fd then [fd] else []) ++ accept_loop running (S round) fds
      else []
  end.

(** ** Lemmas *)

Lemma emplace_steps id s :
  Runtime.threads s = [Idle] →
  rtc Runtime.step s (emplace id s).2 ∧ Runtime.threads (emplace id s).2 = [Idle] ∧
  stopped_ (emplace id s).2 = stopped_ s ∧
  ∀ id', is_Some (executors_ (emplace id s).2 !! id') ↔ id' = id ∨ is_Some (executors_ s !! id').
Proof.
  intros Ht. unfold emplace. simpl. destruct (executors_ s !! id) as [h'|] eqn:He; simpl.
  - rewrite Ht. split_and!; try done.
    + eapply rtc_l; [exists 0%nat, Idle; split; [by rewrite Ht|apply (step_register_start 0 s id)]|].
      eapply rtc_l; [exists 0%nat; eexists; split; [simpl; by rewrite Ht|by eapply step_register_taken]|].
      eapply rtc_l; [exists 0%nat; eexists; split; [simpl; by rewrite Ht|apply step_stop]|].
      eapply rtc_l; [exists 0%nat; eexists; split; [simpl; by rewrite Ht|apply step_stopped]|].
      apply rtc_refl.
    + intros id'. split; [by right|]. intros [->|]; [by rewrite He|done].
  - rewrite Ht. split_and!; try done.
    + eapply rtc_l; [exists 0%nat, Idle; split; [by rewrite Ht|apply (step_register_start 0 s id)]|].
      eapply rtc_l; [exists 0%nat; eexists; split; [simpl; by rewrite Ht|by eapply step_register_insert]|].
      apply rtc_refl.
    + intros id'. destruct (decide (id' = id)) as [->|Hne].
      * rewrite lookup_insert_eq. naive_solver.
      * rewrite lookup_insert_ne by done. naive_solver.
Qed.

Section with_backend.
Context {B : Type} (make_torch_backend : option B) (backend_load : B → text → path → DeviceKind → bool).
Implicit Types r : ModelRegistry (B := B).

(** A model the registry would let be used. *)
Definition served r (id : text) : Prop := ∃ m, model_at r id = Some m ∧ is_ready m = true.

Lemma lookup_ready_served r id : is_Some (lookup_ready r id) ↔ served r id.
Proof.
  unfold lookup_ready, served, model_at, lookup, is_Some.
  destruct (models_ r !! id) as [p|]; simpl; [|naive_solver].
  destruct (objects r !! p) as [m|]; simpl; [|naive_solver].
  destruct (is_ready m) eqn:E.
  - split; intros _; [by exists m|by exists p].
  - split; [by intros (x & ?)|intros (m0 & ? & ?); congruence].
Qed.

Lemma listed_served r id :
  served r id ↔ ∃ v, (id, Ready, v) ∈ list_models r.
Proof.
  unfold served, model_at, list_models. split.
  - intros (m & Hm & Hr). destruct (models_ r !! id) as [p|] eqn:Hp; simpl in Hm; [|done].
    exists (version (config m)). apply list_elem_of_omap. exists (id, p). simpl. rewrite Hm. simpl.
    split; [by apply elem_of_map_to_list|]. apply bool_decide_eq_true in Hr. by rewrite Hr.
  - intros (v & Hv). apply list_elem_of_omap in Hv as ([id' p] & Hp & Hm). apply elem_of_map_to_list in Hp.
    simpl in Hm. destruct (objects r !! p) as [m|] eqn:Ho; simplify_eq/=. exists m. rewrite Hp. simpl.
    split; [done|]. by apply bool_decide_eq_true.
Qed.

(** Registering goes through, or an executor cannot be started. *)
Lemma register_all can_reserve can_create cfg r infos k s :
  Runtime.threads s = [Idle] →
  (∃ k' e, register_infos can_reserve can_create cfg r (k, s) infos = Fault (Thrown e) ∧
     start_executor can_reserve can_create cfg k' = Fault (Thrown e)) ∨
  ∃ k' s', register_infos can_reserve can_create cfg r (k, s) infos = Done (k', s') ∧
    rtc Runtime.step s s' ∧ Runtime.threads s' = [Idle] ∧ stopped_ s' = stopped_ s ∧
    (∀ id, is_Some (executors_ s' !! id) ↔
       (∃ v, (id, Ready, v) ∈ infos ∧ served r id) ∨ is_Some (executors_ s !! id)) ∧
    (s' = s ∨ num_workers cfg <= max_threads).
Proof.
  revert k s. induction infos as [|[[name st] v] infos IH]; intros k s Ht.
  { right. exists k, s. split_and!; try done; [|by left]. intros id. split; [by right|].
    intros [(v & Hv & _)|?]; [|done]. by apply elem_of_nil in Hv. }
  cbn [register_infos].
  assert (register_one can_reserve can_create cfg r (k, s) (name, st, v) = Done (k, s) ∧
            (st ≠ Ready ∨ ¬ served r name) ∨
          register_one can_reserve can_create cfg r (k, s) (name, st, v) =
            ('(_, ks) ← register can_reserve can_create cfg name (k, s); mret ks) ∧
            st = Ready ∧ served r name) as Hone.
  { unfold register_one. case_decide as Hst; [|left; auto].
    rewrite <- lookup_ready_served. destruct (lookup_ready r name) eqn:E; [right|left]; naive_solver. }
  destruct Hone as [[-> Hno]|(-> & -> & Hs)].
  - cbn [mbind outcome_bind]. destruct (IH k s Ht) as [H|(k' & s' & -> & H1 & H2 & H3 & H4 & H5)]; [by left|right].
    exists k', s'. split_and!; try done. intros id. rewrite H4. setoid_rewrite elem_of_cons. naive_solver.
  - unfold register. cbn [fst snd].
    destruct (start_executor can_reserve can_create cfg k) as [k1|f] eqn:Hst.
    2: { left. assert (∃ e, f = Thrown e) as [e ->].
         { unfold start_executor in Hst. repeat case_match; simplify_eq; by eexists. }
         exists k, e. by split. }
    cbn [mbind outcome_bind]. destruct (emplace_steps name s Ht) as (G1 & G2 & G3 & G4).
    destruct (emplace name s) as [b s1]. cbn [snd mret outcome_ret mbind outcome_bind] in *.
    destruct (IH k1 s1 G2) as [H|(k' & s' & -> & H1 & H2 & H3 & H4 & H5)]; [by left|right].
    exists k', s'. split_and!; [done|by etrans|done|by rewrite H3| |].
    + intros id. rewrite H4, G4. setoid_rewrite elem_of_cons. naive_solver.
    + right. unfold start_executor in Hst. by destruct (Z.ltb_spec max_threads (num_workers cfg)).
Qed.

Lemma register_models_serves can_reserve can_create cfg r :
  (∃ k e, register_models can_reserve can_create cfg r = Fault (Thrown e) ∧
     start_executor can_reserve can_create cfg k = Fault (Thrown e)) ∨
  ∃ k s, register_models can_reserve can_create cfg r = Done (k, s) ∧
    reachable created Runtime.step s ∧ Runtime.threads s = [Idle] ∧ stopped_ s = false ∧
    (∀ id, is_Some (executors_ s !! id) ↔ served r id) ∧
    (executors_ s = ∅ ∨ num_workers cfg <= max_threads).
Proof.
  destruct (register_all can_reserve can_create cfg r (list_models r) 0 (runtime_new 1) eq_refl)
    as [(k & e & H & Hs)|(k & s & H & H1 & H2 & H3 & H4 & H5)]; [left; by exists k, e|right].
  exists k, s. split_and!; [done| |done|done| |].
  - exists (runtime_new 1). split; [by exists 1%nat|done].
  - intros id. rewrite H4, (listed_served r id). simpl. rewrite lookup_empty. split.
    + intros [(v & Hv & _)|[]%is_Some_None]. by exists v.
    + intros (v & Hv). left. exists v. split; [done|]. apply listed_served. by exists v.
  - destruct H5 as [->|]; [by left|by right].
Qed.
End with_backend.

Lemma load_outcome_ready {B} (mk : option B) load c :
  is_ready (load_outcome mk load c).2 = (load_outcome mk load c).1.
Proof. unfold load_outcome. by repeat case_match. Qed.

Lemma last_named_name id cs c : last_named id cs = Some c → name c = id.
Proof.
  unfold last_named. intros Hc. apply last_Some_elem_of in Hc. by apply list_elem_of_filter in Hc as [? _].
Qed.

Lemma served_outcome {B} (mk : option B) load id cs :
  id ≠ [] →
  (∃ m, match last_named id cs with
        | Some c => Some (load_outcome mk load c).2
        | None => model_at registry_new id
        end = Some m ∧ is_ready m = true) ↔
  ∃ c, last_named id cs = Some c ∧ succeeds mk load c = true.
Proof.
  intros Hid. split.
  - intros (m & Hm1 & Hm2). destruct (last_named id cs) as [c|] eqn:Hc;
      [|unfold model_at in Hm1; simpl in Hm1; by rewrite lookup_empty in Hm1].
    exists c. split; [done|]. unfold succeeds. rewrite (last_named_name _ _ _ Hc). destruct id; [done|].
    rewrite <- load_outcome_ready. congruence.
  - intros (c & -> & Hc). eexists. split; [done|]. rewrite load_outcome_ready. unfold succeeds in Hc.
    by destruct (name c).
Qed.

(** ** Properties *)


Lemma bert_parses e :
  e ∈ [(txt "a", Dir bert_dir)] → is_model_dir e = true → ∃ c, entry_config [txt "models"] e = Done c.
Proof. intros He _. apply list_elem_of_singleton in He as ->. eexists. vm_compute. reflexivity. Qed.


