(* ===== verification/Actor.v ===== *)
(** * Actors ([include/jellybean/actor/], [src/actor/actor.cpp])

    The type-erased [Message], whose payload is in its 48-byte union or in a heap
    block the union points to; and the [Mailbox], a bounded queue of
    messages. The heap is a finite map from addresses to the bytes of
    the blocks; [malloc] is a parameter. *)
From S2P Require Import Prelude.
From S2P Require Import Queue.
From S2P Require Import Ring.
From S2P Require Import Mpmc.

Abbreviation heap := (gmap Z (list byte)).

Definition INLINE_SIZE : nat := 48.

(** [storage] is the union: [inline_data], whose first sixteen bytes are also
    [heap_data.ptr] and [heap_data.size]. *)
Record Message := {
  type_id : Z;
  sender_shard : Z;
  sender_id : Z;
  storage : list byte;
  is_inline : bool }.

Definition heap_ptr (m : Message) : Z := le_combine (take 8 (storage m)).

Definition heap_size (m : Message) : Z := le_combine (take 8 (drop 8 (storage m))).

Definition heap_bytes (ptr size : Z) (rest : list byte) : list byte :=
  le_split 8 ptr ++ le_split 8 size ++ drop 16 rest.

Definition with_storage (m : Message) (s : list byte) (inline : bool) : Message := {|
  type_id := type_id m; sender_shard := sender_shard m; sender_id := sender_id m;
  storage := s; is_inline := inline |}.

Definition zeros : list byte := replicate INLINE_SIZE Byte.x00.

Definition message_new : Message := {|
  type_id := 0; sender_shard := 0; sender_id := 0; storage := zeros; is_inline := true |}.

(** The messages of a program, by number; a destroyed one leaves its number unused. *)
Abbreviation pool := (list (option Message)).

Section messages.
(** [malloc] answers 0 or the address of fresh memory; [junk] are the bytes of a union
    nothing was stored in. *)
Context (malloc : heap → nat → Z) (junk : list byte).

(** ** Operations *)

(** [malloc(size)], [abort] on failure, [memcpy] of [bs] into it. *)
Definition alloc_copy (h : heap) (bs : list byte) : outcome (Z * heap) :=
  let p := malloc h (length bs) in
  if p =? 0 then Fault Aborted else mret (p, <[p := bs]> h).

(** [size] bytes from the address [p]. *)
Definition read_block (h : heap) (p size : Z) : outcome (list byte) :=
  block ← deref (h !! p);
  if size <=? Z.of_nat (length block) then mret (take (Z.to_nat size) block)
  else Fault UndefinedBehaviour.

Definition free (h : heap) (p : Z) : outcome heap :=
  _ ← deref (h !! p); mret (delete p h).

Definition destroy (m : Message) (h : heap) : outcome (Message * heap) :=
  if negb (is_inline m) && negb (heap_ptr m =? 0) then
    h ← free h (heap_ptr m);
    mret (with_storage m (heap_bytes 0 0 (storage m)) true, h)
  else mret (m, h).

(** What the copies do with the payload, into the union [s]. *)
Definition copy_payload (s : list byte) (other : Message) (h : heap) : outcome (Message * heap) :=
  if is_inline other then mret (other, h)
  else
    bs ← read_block h (heap_ptr other) (heap_size other);
    '(p, h) ← alloc_copy h bs;
    mret (with_storage other (heap_bytes p (heap_size other) s) false, h).

Definition message_copy (other : Message) (h : heap) : outcome (Message * heap) :=
  copy_payload junk other h.

(** Copy assignment between two distinct objects. *)
Definition message_assign (m other : Message) (h : heap) : outcome (Message * heap) :=
  '(m, h) ← destroy m h; copy_payload (storage m) other h.

(** What the moves do: the moved-to message on the union [s], and the moved-from one. *)
Definition move_payload (s : list byte) (other : Message) : Message * Message :=
  if is_inline other then (other, other)
  else (with_storage other (heap_bytes (heap_ptr other) (heap_size other) s) false,
        with_storage other zeros true).

Definition message_move (other : Message) : Message * Message := move_payload junk other.

Definition message_move_assign (m other : Message) (h : heap) :
    outcome (Message * Message * heap) :=
  '(m, h) ← destroy m h;
  let '(m, other) := move_payload (storage m) other in mret (m, other, h).

(** What [val] of [set(const T& val)] refers to: an object [set] does not touch, bytes
    of the message's own union, or [n] bytes of the heap block at [p]. *)
Inductive reference :=
| Elsewhere (bs : list byte)
| OwnUnion (n : nat)
| Block (p : Z) (n : nat).

Definition sizeof (val : reference) : nat :=
  match val with Elsewhere bs => length bs | OwnUnion n => n | Block _ n => n end.

(** The source of the [memcpy], when it runs: a freed block is not there any more, and
    copying the union onto itself overlaps. *)
Definition read_reference (h : heap) (val : reference) : outcome (list byte) :=
  match val with
  | Elsewhere bs => mret bs
  | OwnUnion _ => Fault UndefinedBehaviour
  | Block p n => read_block h p (Z.of_nat n)
  end.

(** [set<T>(val)]: [destroy] runs before [val] is read. *)
Definition set (m : Message) (val : reference) (h : heap) : outcome (Message * heap) :=
  '(m, h) ← destroy m h;
  if decide (sizeof val <= INLINE_SIZE)%nat then
    bs ← read_reference h val;
    mret (with_storage m (bs ++ drop (length bs) (storage m)) true, h)
  else
    let p := malloc h (sizeof val) in
    if p =? 0 then Fault Aborted else
    bs ← read_reference h val;
    mret (with_storage m (heap_bytes p (Z.of_nat (sizeof val)) (storage m)) false, <[p := bs]> h).

(** [as<T>()], [n] the size of [T]: the bytes of the object referred to. *)
Definition as_ (m : Message) (n : nat) (h : heap) : outcome (list byte) :=
  if is_inline m then
    if decide (n <= INLINE_SIZE)%nat then mret (take n (storage m)) else Fault UndefinedBehaviour
  else read_block h (heap_ptr m) (Z.of_nat n).

(** The same reference as an argument of [set]: [own] if it is the message itself that
    is set. *)
Definition as_argument (own : bool) (m : Message) (n : nat) : outcome reference :=
  if is_inline m then
    if decide (n <= INLINE_SIZE)%nat
    then mret (if own then OwnUnion n else Elsewhere (take n (storage m)))
    else Fault UndefinedBehaviour
  else mret (Block (heap_ptr m) n).

(** ** Programs over messages *)

Inductive operation :=
| New
| Copy (j : nat)
| Assign (i j : nat)
| Move (j : nat)
| MoveAssign (i j : nat)
| SetValue (i : nat) (bs : list byte)
| SetFrom (i j n : nat)   (* messages[i].set(messages[j].as<T>()), [n] the size of T *)
| Destruct (i : nat).

Definition object (ms : pool) (i : nat) : outcome Message := deref (mjoin (ms !! i)).

Definition perform (op : operation) (st : pool * heap) : outcome (pool * heap) :=
  let '(ms, h) := st in
  match op with
  | New => mret (ms ++ [Some message_new], h)
  | Copy j =>
      other ← object ms j;
      '(m, h) ← message_copy other h; mret (ms ++ [Some m], h)
  | Assign i j =>
      m ← object ms i; other ← object ms j;
      if decide (i = j) then mret (ms, h)
      else '(m, h) ← message_assign m other h; mret (<[i := Some m]> ms, h)
  | Move j =>
      other ← object ms j;
      let '(m, other) := message_move other in mret (<[j := Some other]> ms ++ [Some m], h)
  | MoveAssign i j =>
      m ← object ms i; other ← object ms j;
      if decide (i = j) then mret (ms, h)
      else '(m, other, h) ← message_move_assign m other h;
           mret (<[j := Some other]> (<[i := Some m]> ms), h)
  | SetValue i bs =>
      m ← object ms i; '(m, h) ← set m (Elsewhere bs) h; mret (<[i := Some m]> ms, h)
  | SetFrom i j n =>
      m ← object ms i; other ← object ms j;
      val ← as_argument (bool_decide (i = j)) other n;
      '(m, h) ← set m val h; mret (<[i := Some m]> ms, h)
  | Destruct i =>
      m ← object ms i; '(_, h) ← destroy m h; mret (<[i := None]> ms, h)
  end.

Fixpoint perform_all (ops : list operation) (st : pool * heap) : outcome (pool * heap) :=
  match ops with
  | [] => mret st
  | op :: ops => st ← perform op st; perform_all ops st
  end.
End messages.

(** ** Specification: messages are values *)

Record envelope := {
  env_type : Z;
  env_shard : Z;
  env_sender : Z;
  env_value : list byte }.

Definition empty_envelope : envelope :=
  {| env_type := 0; env_shard := 0; env_sender := 0; env_value := [] |}.

Definition with_value (e : envelope) (v : list byte) : envelope := {|
  env_type := env_type e; env_shard := env_shard e; env_sender := env_sender e; env_value := v |}.

(** A move takes a large value away and leaves a small one. *)
Definition moved_from (e : envelope) : envelope :=
  if decide (length (env_value e) <= INLINE_SIZE)%nat then e else with_value e [].

Abbreviation values := (list (option envelope)).

(** [None]: the operation names no live message, stores more than memory can hold, reads
    more than the value of a message, or sets a message from its own payload. *)
Definition value_op (op : operation) (es : values) : option values :=
  match op with
  | New => Some (es ++ [Some empty_envelope])
  | Copy j => e ← mjoin (es !! j); Some (es ++ [Some e])
  | Assign i j => _ ← mjoin (es !! i); e ← mjoin (es !! j); Some (<[i := Some e]> es)
  | Move j => e ← mjoin (es !! j); Some (<[j := Some (moved_from e)]> es ++ [Some e])
  | MoveAssign i j =>
      _ ← mjoin (es !! i); e ← mjoin (es !! j);
      if decide (i = j) then Some es
      else Some (<[j := Some (moved_from e)]> (<[i := Some e]> es))
  | SetValue i bs =>
      e ← mjoin (es !! i);
      if decide (Z.of_nat (length bs) < 2 ^ 64) then Some (<[i := Some (with_value e bs)]> es) else None
  | SetFrom i j n =>
      e ← mjoin (es !! i); f ← mjoin (es !! j);
      if decide (i ≠ j ∧ (n <= length (env_value f))%nat ∧ Z.of_nat n < 2 ^ 64)
      then Some (<[i := Some (with_value e (take n (env_value f)))]> es) else None
  | Destruct i => _ ← mjoin (es !! i); Some (<[i := None]> es)
  end.

Fixpoint value_ops (ops : list operation) (es : values) : option values :=
  match ops with
  | [] => Some es
  | op :: ops => es ← value_op op es; value_ops ops es
  end.

(** ** The invariant *)

(** The message [m] holds the envelope [e]. *)
Record holds (h : heap) (m : Message) (e : envelope) : Prop := {
  holds_type : type_id m = env_type e;
  holds_shard : sender_shard m = env_shard e;
  holds_sender : sender_id m = env_sender e;
  holds_storage : length (storage m) = INLINE_SIZE;
  holds_value :
    if is_inline m
    then (length (env_value e) <= INLINE_SIZE)%nat ∧ take (length (env_value e)) (storage m) = env_value e
    else (INLINE_SIZE < length (env_value e))%nat ∧ h !! heap_ptr m = Some (env_value e) ∧
         heap_size m = Z.of_nat (length (env_value e)) ∧ 0 < heap_ptr m < 2 ^ 64 }.

Definition slot_holds (h : heap) (s : option Message) (e : option envelope) : Prop :=
  match s, e with
  | Some m, Some e => holds h m e
  | None, None => True
  | _, _ => False
  end.

(** The block a message owns. *)
Definition owned (s : option Message) : list Z :=
  match s with Some m => if is_inline m then [] else [heap_ptr m] | None => [] end.

(** Every message holds its envelope, and every block of the heap has one owner. *)
Record pool_ok (ms : pool) (h : heap) (es : values) : Prop := {
  ok_slots : Forall2 (slot_holds h) ms es;
  ok_blocks : ∀ p, occ p (concat (owned <$> ms)) = if decide (is_Some (h !! p)) then 1%nat else 0%nat }.

(** ** Lemmas *)

Lemma length_heap_bytes p n s : length s = INLINE_SIZE → length (heap_bytes p n s) = INLINE_SIZE.
Proof.
  intros Hs. unfold heap_bytes. rewrite !length_app, !length_le_split, length_drop, Hs. done.
Qed.

Lemma heap_ptr_bytes m p n s b : 0 <= p < 2 ^ 64 → heap_ptr (with_storage m (heap_bytes p n s) b) = p.
Proof.
  intros Hp. unfold heap_ptr, heap_bytes. cbn [storage with_storage].
  rewrite take_app_exact by by rewrite length_le_split. by apply le_combine_split_small.
Qed.

Lemma heap_size_bytes m p n s b : 0 <= n < 2 ^ 64 → heap_size (with_storage m (heap_bytes p n s) b) = n.
Proof.
  intros Hn. unfold heap_size, heap_bytes. cbn [storage with_storage].
  rewrite drop_app_exact by by rewrite length_le_split.
  rewrite take_app_exact by by rewrite length_le_split. by apply le_combine_split_small.
Qed.

(** Other blocks do not matter to a message. *)
Lemma holds_frame h h' m e :
  (∀ p, p ∈ owned (Some m) → h' !! p = h !! p) → holds h m e → holds h' m e.
Proof.
  intros Hh [? ? ? ? Hv]. split; try done. simpl in Hh. destruct (is_inline m); [done|].
  rewrite Hh by by left. done.
Qed.

Lemma occ_owned ms i s s' p :
  ms !! i = Some s →
  (occ p (concat (owned <$> <[i := s']> ms)) + occ p (owned s) =
   occ p (concat (owned <$> ms)) + occ p (owned s'))%nat.
Proof.
  apply occ_fmap_insert.
Qed.

Lemma owned_elem ms i s p : ms !! i = Some s → p ∈ owned s → p ∈ concat (owned <$> ms).
Proof.
  intros Hi Hp. apply list_elem_of_In, in_concat. exists (owned s).
  split; [|by apply list_elem_of_In]. apply list_elem_of_In, list_elem_of_fmap.
  exists s. split; [done|]. by eapply list_elem_of_lookup_2.
Qed.

(** Two different messages do not own the same block. *)
Lemma owned_disjoint ms h es i k s t p :
  pool_ok ms h es → ms !! i = Some s → ms !! k = Some t → i ≠ k →
  p ∈ owned s → p ∉ owned t.
Proof.
  intros [_ Hb] Hi Hk Hne Hs Ht. specialize (Hb p).
  pose proof (occ_owned ms i s None p Hi) as H1. simpl in H1.
  assert (0 < occ p (owned s))%nat by by apply occ_elem.
  assert (0 < occ p (concat (owned <$> <[i := None]> ms)))%nat.
  { apply occ_elem. eapply (owned_elem _ k); [|exact Ht]. by rewrite list_lookup_insert_ne. }
  case_decide; lia.
Qed.

Lemma slot_frame h h' s e :
  (∀ p, p ∈ owned s → h' !! p = h !! p) → slot_holds h s e → slot_holds h' s e.
Proof. destruct s as [m|], e as [e|]; simpl; try done. apply holds_frame. Qed.

(** The general update: slot [i] is replaced, and the heap changes only at blocks the
    other slots do not own. *)
Lemma pool_update ms h es i s s' h' e' :
  pool_ok ms h es → ms !! i = Some s → slot_holds h' s' e' →
  (∀ k t p, k ≠ i → ms !! k = Some t → p ∈ owned t → h' !! p = h !! p) →
  (∀ p, (occ p (owned s') + (if decide (is_Some (h !! p)) then 1 else 0) =
         occ p (owned s) + (if decide (is_Some (h' !! p)) then 1 else 0))%nat) →
  pool_ok (<[i := s']> ms) h' (<[i := e']> es).
Proof.
  intros [Hs Hb] Hi Hs' Hframe Hown. split.
  - pose proof (Forall2_length _ _ _ Hs) as Hlen. apply Forall2_same_length_lookup_2.
    { by rewrite !length_insert. }
    intros k t e [(-> & -> & _)|[Hne Hk]]%list_lookup_insert_Some He.
    + apply list_lookup_insert_Some in He as [(_ & -> & _)|[? _]]; done.
    + rewrite list_lookup_insert_ne in He by done.
      eapply slot_frame; [|by eapply Forall2_lookup_lr]. intros p Hp. by eapply Hframe.
  - intros p. pose proof (occ_owned ms i s s' p Hi) as H. rewrite Hb in H. specialize (Hown p). lia.
Qed.

Lemma pool_append ms h es : pool_ok ms h es → pool_ok (ms ++ [None]) h (es ++ [None]).
Proof.
  intros [Hs Hb]. split; [apply Forall2_app; [done|by apply Forall2_cons]|].
  intros p. rewrite fmap_app, concat_app. simpl. by rewrite app_nil_r.
Qed.

Lemma insert_last {A} (l : list A) x y : <[length l := y]> (l ++ [x]) = l ++ [y].
Proof. induction l as [|a l IH]; [done|]. simpl. by rewrite IH. Qed.

Lemma lookup_last_slot {A} (l : list A) x : (l ++ [x]) !! length l = Some x.
Proof. rewrite lookup_app_r by done. by rewrite Nat.sub_diag. Qed.

(** A slot that owns nothing is given a message that owns nothing. *)
Lemma pool_put_inline ms h es i s m e :
  pool_ok ms h es → ms !! i = Some s → owned s = [] → is_inline m = true → holds h m e →
  pool_ok (<[i := Some m]> ms) h (<[i := Some e]> es).
Proof.
  intros Hok Hi Hs Hm He. eapply pool_update; [done|done|done|done|].
  intros p. rewrite Hs. simpl. by rewrite Hm.
Qed.

(** A slot that owns nothing is given a message with a fresh block. *)
Lemma pool_put_block ms h es i s m e p v :
  pool_ok ms h es → ms !! i = Some s → owned s = [] → h !! p = None →
  is_inline m = false → heap_ptr m = p → holds (<[p := v]> h) m e →
  pool_ok (<[i := Some m]> ms) (<[p := v]> h) (<[i := Some e]> es).
Proof.
  intros Hok Hi Hs Hp Hm Hptr He.
  assert (∀ k t q, ms !! k = Some t → q ∈ owned t → q ≠ p) as Hne.
  { intros k t q Hk Hq ->. pose proof (owned_elem _ _ _ _ Hk Hq) as Hin%occ_elem.
    destruct Hok as [_ Hb]. rewrite Hb, Hp in Hin.
    rewrite decide_False in Hin by (by intros [? ?]). lia. }
  eapply pool_update; [done|done|done| |].
  - intros k t q _ Hk Hq. by rewrite lookup_insert_ne by (intros ->; by eapply Hne).
  - intros q. rewrite Hs. simpl. rewrite Hm, Hptr. simpl. destruct (decide (p = q)) as [->|Hpq].
    + rewrite Hp, lookup_insert_eq, decide_False by (by intros [? ?]). by rewrite decide_True.
    + rewrite lookup_insert_ne by done. lia.
Qed.

Lemma holds_emptied h h' m e s :
  holds h m e → length s = INLINE_SIZE → holds h' (with_storage m s true) (with_value e []).
Proof. intros [? ? ? ? ?] Hs. split; try done. simpl. split; [lia|done]. Qed.

(** Taking the block away from slot [i], whose message becomes inline and empty. *)
Lemma pool_release ms h es i m e s :
  pool_ok ms h es → ms !! i = Some (Some m) → es !! i = Some (Some e) →
  is_inline m = false → length s = INLINE_SIZE →
  pool_ok (<[i := Some (with_storage m s true)]> ms) (delete (heap_ptr m) h)
    (<[i := Some (with_value e [])]> es).
Proof.
  intros Hok Hi He Hm Hs. pose proof Hok as [Hsl _].
  pose proof (Forall2_lookup_lr _ _ _ _ _ _ Hsl Hi He) as Hh. simpl in Hh.
  pose proof (holds_value _ _ _ Hh) as Hv. rewrite Hm in Hv. destruct Hv as (_ & Hp & _).
  eapply pool_update; [done|done| | |].
  - simpl. by eapply holds_emptied.
  - intros k t p Hk Ht Hin. rewrite lookup_delete_ne; [done|]. intros <-.
    refine (owned_disjoint ms h es i k (Some m) t (heap_ptr m) Hok Hi Ht _ _ Hin); [done|].
    simpl. rewrite Hm. by left.
  - intros p. simpl. rewrite Hm. simpl. destruct (decide (heap_ptr m = p)) as [<-|Hne].
    + rewrite Hp, lookup_delete_eq. assert (is_Some (Some (env_value e))) by done.
      assert (¬ is_Some (@None (list byte))) by (by intros [? ?]).
      repeat case_decide; try done; lia.
    + rewrite lookup_delete_ne by done. lia.
Qed.

Lemma destroy_slot ms h es i m e :
  pool_ok ms h es → ms !! i = Some (Some m) → es !! i = Some (Some e) →
  ∃ m' h', destroy m h = Done (m', h') ∧ is_inline m' = true ∧
    length (storage m') = INLINE_SIZE ∧ holds h' m' (with_value e []) ∧
    pool_ok (<[i := Some m']> ms) h' (<[i := Some (with_value e [])]> es).
Proof.
  intros Hok Hi He. pose proof Hok as [Hsl _].
  pose proof (Forall2_lookup_lr _ _ _ _ _ _ Hsl Hi He) as Hh. simpl in Hh.
  pose proof (holds_value _ _ _ Hh) as Hv. pose proof (holds_storage _ _ _ Hh) as Hlen.
  unfold destroy. destruct (is_inline m) eqn:Hm; cbn [negb andb].
  - exists m, h. assert (holds h m (with_value e [])) as Hh'.
    { destruct Hh. split; try done. rewrite Hm. simpl. split; [lia|done]. }
    split_and!; try done. by eapply pool_put_inline; try done; simpl; rewrite Hm.
  - destruct Hv as (_ & Hp & _ & Hpos). rewrite (proj2 (Z.eqb_neq _ _)) by lia. cbn [negb].
    unfold free. rewrite Hp. cbn [deref mbind outcome_bind mret outcome_ret].
    assert (length (heap_bytes 0 0 (storage m)) = INLINE_SIZE) by by apply length_heap_bytes.
    eexists _, _. split; [done|]. split_and!; try done; [by eapply holds_emptied|].
    by apply pool_release.
Qed.

Lemma holds_block h m e p v s :
  length s = INLINE_SIZE → 0 < p < 2 ^ 64 → (INLINE_SIZE < length v)%nat → Z.of_nat (length v) < 2 ^ 64 →
  type_id m = env_type e → sender_shard m = env_shard e → sender_id m = env_sender e →
  holds (<[p := v]> h) (with_storage m (heap_bytes p (Z.of_nat (length v)) s) false) (with_value e v).
Proof.
  intros Hs Hp Hv Hv64 ? ? ?. split; try done; [by apply length_heap_bytes|].
  change (is_inline (with_storage _ _ false)) with false. cbv iota.
  change (env_value (with_value e v)) with v.
  rewrite heap_ptr_bytes, heap_size_bytes by lia. by rewrite lookup_insert_eq.
Qed.

Lemma heap_size_range m : 0 <= heap_size m < 2 ^ 64.
Proof.
  unfold heap_size. pose proof (le_combine_bound (take 8 (drop 8 (storage m)))) as [H1 H2].
  split; [done|]. eapply Z.lt_le_trans; [exact H2|]. apply Z.pow_le_mono_r; [lia|].
  rewrite length_take. lia.
Qed.

Lemma with_value_same e : with_value e (env_value e) = e.
Proof. by destruct e. Qed.

Lemma holds_block_same h m e p s :
  length s = INLINE_SIZE → 0 < p < 2 ^ 64 → (INLINE_SIZE < length (env_value e))%nat →
  Z.of_nat (length (env_value e)) < 2 ^ 64 →
  type_id m = env_type e → sender_shard m = env_shard e → sender_id m = env_sender e →
  holds (<[p := env_value e]> h)
    (with_storage m (heap_bytes p (Z.of_nat (length (env_value e))) s) false) e.
Proof. intros. rewrite <- (with_value_same e) at 3. by apply holds_block. Qed.

Section with_malloc.
Context (malloc : heap → nat → Z) (junk : list byte).
Context (malloc_fresh : ∀ h n, malloc h n ≠ 0 → h !! malloc h n = None ∧ 0 < malloc h n < 2 ^ 64).
Context (junk_length : length junk = INLINE_SIZE).

Definition out_of_memory : Prop := ∃ h n, malloc h n = 0.

Lemma copy_slot ms h es i s j o e st :
  pool_ok ms h es → ms !! i = Some s → owned s = [] →
  ms !! j = Some (Some o) → es !! j = Some (Some e) → length st = INLINE_SIZE →
  copy_payload malloc st o h = Fault Aborted ∧ out_of_memory ∨
  ∃ m' h', copy_payload malloc st o h = Done (m', h') ∧
    pool_ok (<[i := Some m']> ms) h' (<[i := Some e]> es).
Proof.
  intros Hok Hi Hs Hj He Hst. pose proof Hok as [Hsl _].
  pose proof (Forall2_lookup_lr _ _ _ _ _ _ Hsl Hj He) as Hh. simpl in Hh.
  pose proof (holds_value _ _ _ Hh) as Hv. unfold copy_payload.
  destruct (is_inline o) eqn:Ho.
  - right. exists o, h. split; [done|]. by eapply pool_put_inline.
  - destruct Hv as (Hbig & Hp & Hsz & Hpos). pose proof (heap_size_range o) as Hr.
    unfold read_block. rewrite Hp. cbn [deref mbind outcome_bind]. rewrite Hsz, Z.leb_refl, Nat2Z.id.
    cbn [mret outcome_ret]. rewrite firstn_all. cbn [mbind outcome_bind mret outcome_ret]. unfold alloc_copy. cbv zeta.
    destruct (Z.eqb_spec (malloc h (length (env_value e))) 0) as [H0|H0]; [left; split; [done|by eexists _, _]|right].
    destruct (malloc_fresh _ _ H0) as [Hnone Hrange]. eexists _, _. split; [done|].
    eapply pool_put_block; [done|done|done|done|done|by rewrite heap_ptr_bytes by lia|].
    destruct Hh. apply holds_block_same; try done. lia.
Qed.

(** [set] from anything that still reads [bs] when the old payload is gone. *)
Lemma set_slot ms h es i m e val bs :
  pool_ok ms h es → ms !! i = Some (Some m) → es !! i = Some (Some e) →
  Z.of_nat (length bs) < 2 ^ 64 → sizeof val = length bs →
  (∀ m' h', destroy m h = Done (m', h') → read_reference h' val = Done bs) →
  set malloc m val h = Fault Aborted ∧ out_of_memory ∨
  ∃ m' h', set malloc m val h = Done (m', h') ∧
    pool_ok (<[i := Some m']> ms) h' (<[i := Some (with_value e bs)]> es).
Proof.
  intros Hok Hi He Hbs Hsz Hread. unfold set.
  destruct (destroy_slot ms h es i m e Hok Hi He) as (m1 & h1 & Hd & Hm1 & Hlen & Hh & Hok1).
  specialize (Hread m1 h1 Hd). rewrite Hd.
  cbn [mbind outcome_bind]. assert (i < length ms)%nat as Hlt by by eapply lookup_lt_Some.
  assert (<[i := Some m1]> ms !! i = Some (Some m1)) as Hi1 by by rewrite list_lookup_insert_eq.
  rewrite Hsz, Hread. case_decide as Hsmall.
  - right. eexists _, _. split; [done|].
    rewrite <- (list_insert_insert_eq ms i _ (Some m1)), <- (list_insert_insert_eq es i _ (Some (with_value e []))).
    eapply pool_put_inline; [done|exact Hi1|simpl; by rewrite Hm1|done|].
    destruct Hh. split; try done; simpl.
    + rewrite length_app, length_drop, Hlen. lia.
    + split; [done|]. by apply take_app_exact.
  - cbv zeta. destruct (Z.eqb_spec (malloc h1 (length bs)) 0) as [H0|H0]; [left; split; [done|by eexists _, _]|right].
    destruct (malloc_fresh _ _ H0) as [Hnone Hrange]. eexists _, _. split; [done|].
    rewrite <- (list_insert_insert_eq ms i _ (Some m1)), <- (list_insert_insert_eq es i _ (Some (with_value e []))).
    eapply pool_put_block; [done|exact Hi1|simpl; by rewrite Hm1|done|done|by rewrite heap_ptr_bytes by lia|].
    destruct Hh. apply holds_block; try done. lia.
Qed.

(** The payload of another message is still there when the old one of [m] is gone. *)
Lemma argument_survives ms h es i m e j o f n :
  pool_ok ms h es → ms !! i = Some (Some m) → es !! i = Some (Some e) → i ≠ j →
  ms !! j = Some (Some o) → es !! j = Some (Some f) → (n <= length (env_value f))%nat →
  ∃ val, as_argument false o n = Done val ∧ sizeof val = n ∧
    ∀ m' h', destroy m h = Done (m', h') → read_reference h' val = Done (take n (env_value f)).
Proof.
  intros Hok Hi He Hij Hj Hf Hn.
  destruct (destroy_slot ms h es i m e Hok Hi He) as (m1 & h1 & Hd & _ & _ & _ & Hok1).
  destruct Hok1 as [Hsl _].
  assert (slot_holds h1 (Some o) (Some f)) as Hh.
  { eapply (Forall2_lookup_lr _ _ _ j); [exact Hsl| |]; by rewrite list_lookup_insert_ne. }
  simpl in Hh. pose proof (holds_value _ _ _ Hh) as Hv. pose proof (holds_storage _ _ _ Hh) as Hlen.
  unfold as_argument. destruct (is_inline o).
  - destruct Hv as [Hsmall Hv]. rewrite decide_True by lia. eexists. split; [done|]. cbn [sizeof].
    split; [rewrite length_take; lia|]. intros m' h' _. simpl.
    rewrite <- Hv, take_take. by rewrite Nat.min_l by lia.
  - destruct Hv as (_ & Hp & _). eexists. split; [done|]. split; [done|].
    intros m' h' Hd'. rewrite Hd in Hd'. simplify_eq. simpl. unfold read_block. rewrite Hp.
    cbn [deref mbind outcome_bind]. rewrite (proj2 (Z.leb_le _ _)) by lia. by rewrite Nat2Z.id.
Qed.

(** A message set from its own heap payload reads the block it has just freed. *)
Lemma set_from_itself_faults ms h es i m e n :
  pool_ok ms h es → ms !! i = Some (Some m) → es !! i = Some (Some e) →
  (INLINE_SIZE < length (env_value e))%nat →
  perform malloc junk (SetFrom i i n) (ms, h) = Fault UndefinedBehaviour ∨
  perform malloc junk (SetFrom i i n) (ms, h) = Fault Aborted ∧ out_of_memory.
Proof.
  intros Hok Hi He Hbig. pose proof Hok as [Hsl _].
  pose proof (Forall2_lookup_lr _ _ _ _ _ _ Hsl Hi He) as Hh. simpl in Hh.
  pose proof (holds_value _ _ _ Hh) as Hv. unfold perform, object. rewrite Hi.
  cbn [mjoin option_join deref mbind outcome_bind]. unfold as_argument, set, destroy.
  destruct (is_inline m); [lia|]. destruct Hv as (_ & Hp & _ & Hpos).
  cbn [mbind outcome_bind mret outcome_ret negb andb].
  rewrite (proj2 (Z.eqb_neq _ _)) by lia. cbn [negb]. unfold free. rewrite Hp.
  cbn [deref mbind outcome_bind mret outcome_ret sizeof read_reference]. unfold read_block.
  rewrite lookup_delete_eq. cbn [deref mbind outcome_bind]. case_decide; [by left|].
  destruct (Z.eqb_spec (malloc (delete (heap_ptr m) h) n) 0); [right|by left].
  split; [done|by eexists _, _].
Qed.

(** A move into a slot that owns nothing. *)
Lemma move_slot ms h es i s j o e st :
  pool_ok ms h es → ms !! i = Some s → owned s = [] → i ≠ j →
  ms !! j = Some (Some o) → es !! j = Some (Some e) → length st = INLINE_SIZE →
  let '(m', o') := move_payload st o in
  pool_ok (<[j := Some o']> (<[i := Some m']> ms)) h
    (<[j := Some (moved_from e)]> (<[i := Some e]> es)).
Proof.
  intros Hok Hi Hs Hij Hj He Hst. pose proof Hok as [Hsl _].
  pose proof (Forall2_lookup_lr _ _ _ _ _ _ Hsl Hj He) as Hh. simpl in Hh.
  pose proof (holds_value _ _ _ Hh) as Hv. unfold move_payload, moved_from.
  destruct (is_inline o) eqn:Ho.
  - destruct Hv as [Hsmall _]. rewrite decide_True by done.
    rewrite (list_insert_id (<[i := Some o]> ms)) by by rewrite list_lookup_insert_ne.
    rewrite (list_insert_id (<[i := Some e]> es)) by by rewrite list_lookup_insert_ne.
    by eapply pool_put_inline.
  - destruct Hv as (Hbig & Hp & Hsz & Hpos). rewrite decide_False by lia.
    rewrite !(list_insert_insert_ne _ j i) by done.
    pose proof (pool_release ms h es j o e zeros Hok Hj He Ho eq_refl) as Hok1.
    rewrite <- (insert_delete_id h (heap_ptr o) (env_value e)) by done.
    assert (<[j := Some (with_storage o zeros true)]> ms !! i = Some s) as Hi1
      by by rewrite list_lookup_insert_ne.
    eapply pool_put_block; [exact Hok1|exact Hi1|done|apply lookup_delete_eq|done|by rewrite heap_ptr_bytes by lia|].
    pose proof (heap_size_range o). rewrite Hsz. destruct Hh. apply holds_block_same; try done; lia.
Qed.
Lemma slot_object ms h es i e :
  pool_ok ms h es → mjoin (es !! i) = Some e →
  es !! i = Some (Some e) ∧ ∃ m, ms !! i = Some (Some m) ∧ object ms i = Done m.
Proof.
  intros [Hs _] He. destruct (es !! i) as [[e'|]|] eqn:Ei; simpl in He; simplify_eq.
  split; [done|]. pose proof (Forall2_lookup_r _ _ _ _ _ Hs Ei) as (s & Hi & Hh).
  destruct s as [m|]; [|done]. exists m. split; [done|]. unfold object. by rewrite Hi.
Qed.

Lemma assign_slot ms h es i m e j o f :
  pool_ok ms h es → ms !! i = Some (Some m) → es !! i = Some (Some e) → i ≠ j →
  ms !! j = Some (Some o) → es !! j = Some (Some f) →
  message_assign malloc m o h = Fault Aborted ∧ out_of_memory ∨
  ∃ m' h', message_assign malloc m o h = Done (m', h') ∧
    pool_ok (<[i := Some m']> ms) h' (<[i := Some f]> es).
Proof.
  intros Hok Hi He Hij Hj Hf. unfold message_assign.
  destruct (destroy_slot ms h es i m e Hok Hi He) as (m1 & h1 & -> & Hm1 & Hlen & _ & Hok1).
  cbn [mbind outcome_bind]. assert (i < length ms)%nat as Hlt by by eapply lookup_lt_Some.
  destruct (copy_slot _ _ _ i (Some m1) j o f (storage m1) Hok1) as [H|(m' & h' & H & Hok')];
    [by rewrite list_lookup_insert_eq|simpl; by rewrite Hm1|by rewrite list_lookup_insert_ne
    |by rewrite list_lookup_insert_ne|done|by left|right].
  exists m', h'. split; [done|]. by rewrite !list_insert_insert_eq in Hok'.
Qed.

Lemma move_assign_slot ms h es i m e j o f :
  pool_ok ms h es → ms !! i = Some (Some m) → es !! i = Some (Some e) → i ≠ j →
  ms !! j = Some (Some o) → es !! j = Some (Some f) →
  ∃ m' o' h', message_move_assign m o h = Done (m', o', h') ∧
    pool_ok (<[j := Some o']> (<[i := Some m']> ms)) h'
      (<[j := Some (moved_from f)]> (<[i := Some f]> es)).
Proof.
  intros Hok Hi He Hij Hj Hf. unfold message_move_assign.
  destruct (destroy_slot ms h es i m e Hok Hi He) as (m1 & h1 & -> & Hm1 & Hlen & _ & Hok1).
  cbn [mbind outcome_bind]. assert (i < length ms)%nat as Hlt by by eapply lookup_lt_Some.
  pose proof (move_slot _ _ _ i (Some m1) j o f (storage m1) Hok1) as H.
  destruct (move_payload (storage m1) o) as [m' o']. exists m', o', h1. split; [done|].
  rewrite !list_insert_insert_eq in H. apply H; try done;
    [by rewrite list_lookup_insert_eq|simpl; by rewrite Hm1|by rewrite list_lookup_insert_ne
    |by rewrite list_lookup_insert_ne].
Qed.

(** Into a new slot. *)
Lemma new_slot ms h es :
  pool_ok ms h es →
  pool_ok (ms ++ [None]) h (es ++ [None]) ∧ (ms ++ [None]) !! length ms = Some None ∧
  length ms = length es.
Proof.
  intros Hok. split_and!; [by apply pool_append|apply lookup_last_slot|].
  destruct Hok as [Hs _]. by eapply Forall2_length.
Qed.

Lemma perform_ok ms h es op es' :
  pool_ok ms h es → value_op op es = Some es' →
  perform malloc junk op (ms, h) = Fault Aborted ∧ out_of_memory ∨
  ∃ ms' h', perform malloc junk op (ms, h) = Done (ms', h') ∧ pool_ok ms' h' es'.
Proof.
  intros Hok Hop. destruct (new_slot ms h es Hok) as (Hokn & Hn & Hlen).
  destruct op as [|j|i j|j|i j|i bs|i j n|i]; simpl in Hop; unfold perform.
  - simplify_eq. right. eexists _, _. split; [done|].
    rewrite <- (insert_last ms None), <- (insert_last es None), Hlen. rewrite Hlen in Hn.
    eapply pool_put_inline; [done|exact Hn|done|done|]. split; try done. simpl. split; [lia|done].
  - destruct (mjoin (es !! j)) as [e|] eqn:Ej; simplify_eq/=.
    destruct (slot_object _ _ _ _ _ Hok Ej) as (He & o & Hj & ->). cbn [mbind outcome_bind].
    destruct (copy_slot _ _ _ (length ms) None j o e junk Hokn Hn eq_refl)
      as [[H Hm]|(m' & h' & H & Hok')];
      [by apply lookup_app_l_Some|by apply lookup_app_l_Some|done| |];
      unfold message_copy; rewrite H; [by left|right]. eexists _, _. split; [done|].
    rewrite insert_last in Hok'. by rewrite Hlen, insert_last in Hok'.
  - destruct (mjoin (es !! i)) as [e|] eqn:Ei; simplify_eq/=.
    destruct (mjoin (es !! j)) as [f|] eqn:Ej; simplify_eq/=.
    destruct (slot_object _ _ _ _ _ Hok Ei) as (He & m & Hi & ->).
    destruct (slot_object _ _ _ _ _ Hok Ej) as (Hf & o & Hj & ->). cbn [mbind outcome_bind].
    case_decide as Hij.
    + subst j. right. eexists _, _. split; [done|]. by rewrite list_insert_id.
    + destruct (assign_slot ms h es i m e j o f) as [[H Hm]|(m' & h' & H & Hok')]; try done;
        rewrite H; [by left|right]. by eexists _, _.
  - destruct (mjoin (es !! j)) as [e|] eqn:Ej; simplify_eq/=.
    destruct (slot_object _ _ _ _ _ Hok Ej) as (He & o & Hj & ->). cbn [mbind outcome_bind].
    assert (j < length ms)%nat as Hlt by by eapply lookup_lt_Some.
    pose proof (move_slot _ _ _ (length ms) None j o e junk Hokn Hn eq_refl) as H.
    unfold message_move. destruct (move_payload junk o) as [m' o']. right.
    eexists _, _. split; [done|].
    rewrite insert_last in H. rewrite Hlen, insert_last, <- Hlen in H.
    rewrite !insert_app_l in H by lia. apply H; [lia|by apply lookup_app_l_Some|by apply lookup_app_l_Some|done].
  - destruct (mjoin (es !! i)) as [e|] eqn:Ei; simplify_eq/=.
    destruct (mjoin (es !! j)) as [f|] eqn:Ej; simplify_eq/=.
    destruct (slot_object _ _ _ _ _ Hok Ei) as (He & m & Hi & ->).
    destruct (slot_object _ _ _ _ _ Hok Ej) as (Hf & o & Hj & ->). cbn [mbind outcome_bind].
    case_decide as Hij; simplify_eq; [right; by eexists _, _|].
    destruct (move_assign_slot ms h es i m e j o f) as (m' & o' & h' & H & Hok'); try done.
    rewrite H. right. by eexists _, _.
  - destruct (mjoin (es !! i)) as [e|] eqn:Ei; simplify_eq/=. case_decide; simplify_eq.
    destruct (slot_object _ _ _ _ _ Hok Ei) as (He & m & Hi & ->). cbn [mbind outcome_bind].
    destruct (set_slot ms h es i m e (Elsewhere bs) bs) as [[H1 Hm]|(m' & h' & H1 & Hok')]; try done;
      rewrite H1; [by left|right]. by eexists _, _.
  - destruct (mjoin (es !! i)) as [e|] eqn:Ei; simplify_eq/=.
    destruct (mjoin (es !! j)) as [f|] eqn:Ej; simplify_eq/=. case_decide as Hd; simplify_eq.
    destruct Hd as (Hij & Hlen' & H64).
    destruct (slot_object _ _ _ _ _ Hok Ei) as (He & m & Hi & ->).
    destruct (slot_object _ _ _ _ _ Hok Ej) as (Hf & o & Hj & ->). cbn [mbind outcome_bind].
    rewrite bool_decide_eq_false_2 by done.
    destruct (argument_survives ms h es i m e j o f n) as (val & -> & Hsz & Hread); try done.
    cbn [mbind outcome_bind].
    assert (length (take n (env_value f)) = n) as Htake by (rewrite length_take; lia).
    destruct (set_slot ms h es i m e val (take n (env_value f)))
      as [[H1 Hm]|(m' & h' & H1 & Hok')]; try done;
      [by rewrite Htake|by rewrite Htake|by rewrite H1; left|rewrite H1; right]. by eexists _, _.
  - destruct (mjoin (es !! i)) as [e|] eqn:Ei; simplify_eq/=.
    destruct (slot_object _ _ _ _ _ Hok Ei) as (He & m & Hi & ->). cbn [mbind outcome_bind].
    destruct (destroy_slot ms h es i m e Hok Hi He) as (m1 & h1 & -> & Hm1 & _ & _ & Hok1).
    right. eexists _, _. split; [done|]. assert (i < length ms)%nat as Hlt by by eapply lookup_lt_Some.
    rewrite <- (list_insert_insert_eq ms i _ (Some m1)),
      <- (list_insert_insert_eq es i _ (Some (with_value e []))).
    eapply pool_update; [done|by rewrite list_lookup_insert_eq|done|done|].
    intros p. simpl. by rewrite Hm1.
Qed.

Lemma perform_all_ok ops ms h es es' :
  pool_ok ms h es → value_ops ops es = Some es' →
  perform_all malloc junk ops (ms, h) = Fault Aborted ∧ out_of_memory ∨
  ∃ ms' h', perform_all malloc junk ops (ms, h) = Done (ms', h') ∧ pool_ok ms' h' es'.
Proof.
  revert ms h es. induction ops as [|op ops IH]; intros ms h es Hok Hops; simpl in Hops.
  - simplify_eq. right. by eexists _, _.
  - destruct (value_op op es) as [es1|] eqn:E; [|done]. simpl in Hops.
    change (perform_all malloc junk (op :: ops) (ms, h))
      with (st ← perform malloc junk op (ms, h); perform_all malloc junk ops st).
    destruct (perform_ok ms h es op es1 Hok E) as [[-> Hm]|(ms1 & h1 & -> & Hok1)]; [by left|].
    by apply (IH ms1 h1 es1).
Qed.
End with_malloc.

(** ** Mailboxes *)

Definition DEFAULT_CAPACITY : Z := 1024.

Section mailbox.
Context {Q : Type} `{!BoundedQueue Q Message} (junk : list byte).

Record Mailbox := { queue_ptr_ : Q }.

Definition mailbox_new (capacity : Z) : outcome Mailbox :=
  _ ← assert (capacity =? DEFAULT_CAPACITY); mret {| queue_ptr_ := bq_new |}.

Definition queue_call {A} (o : option A) : outcome A := deref o.

(** [try_push(Message&& msg)]: the answer and the message the caller is left with. *)
Definition mailbox_try_push (b : Mailbox) (msg : Message) : outcome (Mailbox * Message * bool) :=
  let '(moved, kept) := message_move junk msg in
  '(q, pushed) ← queue_call (bq_push (queue_ptr_ b) moved);
  mret ({| queue_ptr_ := q |}, (if pushed : bool then kept else msg), pushed).

Definition mailbox_try_pop (b : Mailbox) : outcome (Mailbox * option Message) :=
  '(q, msg) ← queue_call (bq_pop (queue_ptr_ b)); mret ({| queue_ptr_ := q |}, msg).

(** [~Mailbox]: one round per message and a last one. *)
Fixpoint mailbox_drain (fuel : nat) (b : Mailbox) (h : heap) : outcome heap :=
  match fuel with
  | O => Fault OutOfFuel
  | S fuel =>
      '(b, msg) ← mailbox_try_pop b;
      match msg with
      | Some m => '(_, h) ← destroy m h; mailbox_drain fuel b h
      | None => mret h
      end
  end.

Definition mailbox_destroy (b : Mailbox) (h : heap) : outcome heap :=
  mailbox_drain (S bq_capacity) b h.

Lemma mailbox_drain_frees fuel n b h msgs es ms fs :
  0 <= n → bq_holds n (queue_ptr_ b) msgs → (length msgs < fuel)%nat →
  pool_ok ((Some <$> msgs) ++ ms) h ((Some <$> es) ++ fs) → length msgs = length es →
  ∃ h', mailbox_drain fuel b h = Done h' ∧ pool_ok ms h' fs.
Proof.
  intros Hn. revert b h msgs es. induction fuel as [|fuel IH]; intros b h msgs es Hq Hf Hok Hlen; [lia|].
  pose proof (bq_pop_spec n (queue_ptr_ b) msgs Hn Hq) as Hp.
  cbn [mailbox_drain]. unfold mailbox_try_pop, queue_call.
  destruct msgs as [|m msgs], es as [|e es]; try discriminate Hlen.
  - rewrite Hp. by exists h.
  - destruct Hp as (q' & -> & Hq'). cbn [deref mbind outcome_bind mret outcome_ret].
    destruct (destroy_slot _ _ _ 0 m e Hok) as (m1 & h1 & -> & Hm1 & _ & _ & Hok1); [done|done|].
    cbn [mbind outcome_bind]. apply (IH {| queue_ptr_ := q' |} h1 msgs es); [done|simpl in Hf; lia| |by simplify_eq/=].
    destruct Hok1 as [Hsl Hb]. split.
    + rewrite !fmap_cons in Hsl. cbn [app] in Hsl. by apply Forall2_cons in Hsl as [_ Hsl].
    + intros p. specialize (Hb p). simpl in Hb. by rewrite Hm1 in Hb.
Qed.
End mailbox.
Arguments Mailbox : clear implicits.

(** ** Reading a message back *)

Lemma as_value h m e n :
  holds h m e → (n <= length (env_value e))%nat → as_ m n h = Done (take n (env_value e)).
Proof.
  intros [_ _ _ _ Hv] Hn. unfold as_. destruct (is_inline m).
  - destruct Hv as [Hsmall Hv]. rewrite decide_True by lia.
    rewrite <- Hv, take_take. by rewrite Nat.min_l by lia.
  - destruct Hv as (_ & Hp & _). unfold read_block. rewrite Hp. cbn [deref mbind outcome_bind].
    rewrite (proj2 (Z.leb_le _ _)) by lia. by rewrite Nat2Z.id.
Qed.

Lemma no_messages_no_blocks ms h es :
  pool_ok ms h es → Forall (λ e, e = None) es → h = ∅.
Proof.
  intros [Hs Hb] He. apply map_empty. intros p. specialize (Hb p).
  assert (concat (owned <$> ms) = []) as Hn.
  { clear Hb. induction Hs as [|s e ms es Hse _ IH]; [done|]. apply Forall_cons in He as [-> He].
    destruct s; [done|]. by apply IH. }
  rewrite Hn in Hb. simpl in Hb. destruct (h !! p); [|done].
  by rewrite decide_True in Hb by done.
Qed.

(** ** Properties *)

(** C23. Messages behave as values. Whatever constructions, copies, moves, assignments
    (self-assignments included), [set]s and destructions a program performs on live
    messages, [set] being given an object that is not in the message's own payload (it may
    be in another message's), there is no undefined behaviour, every message reads back
    the value a model without storage gives it (a move leaves a small value in place and
    takes a large one), every heap block belongs to exactly one message, and when no
    message is left no block is. The only failure is [abort] when [malloc] fails. The
    condition on [set] is needed: a message set from its own heap payload reads the block
    it has just freed. *)
Theorem messages_are_values malloc junk ops es :
  (∀ h n, malloc h n ≠ 0 → h !! malloc h n = None ∧ 0 < malloc h n < 2 ^ 64) →
  length junk = INLINE_SIZE → value_ops ops [] = Some es →
  (perform_all malloc junk ops ([], ∅) = Fault Aborted ∧ ∃ h n, malloc h n = 0) ∨
  ∃ ms h, perform_all malloc junk ops ([], ∅) = Done (ms, h) ∧
    (∀ i e, es !! i = Some (Some e) → ∃ m, ms !! i = Some (Some m) ∧
       type_id m = env_type e ∧ sender_shard m = env_shard e ∧ sender_id m = env_sender e ∧
       ∀ n, (n <= length (env_value e))%nat → as_ m n h = Done (take n (env_value e))) ∧
    (∀ p, occ p (concat (owned <$> ms)) = if decide (is_Some (h !! p)) then 1%nat else 0%nat) ∧
    (Forall (λ e, e = None) es → h = ∅) ∧
    (∀ i e n, es !! i = Some (Some e) → (INLINE_SIZE < length (env_value e))%nat →
       perform malloc junk (SetFrom i i n) (ms, h) = Fault UndefinedBehaviour ∨
       perform malloc junk (SetFrom i i n) (ms, h) = Fault Aborted ∧ ∃ h n, malloc h n = 0).
Proof.
  intros Hm Hj Hops. assert (pool_ok [] ∅ []) as H0.
  { split; [constructor|]. intros p. case_decide as Hp; [|done]. destruct Hp as [? Hp].
    by rewrite lookup_empty in Hp. }
  destruct (perform_all_ok malloc junk Hm Hj ops [] ∅ [] es H0 Hops) as [H|(ms & h & H & Hok)];
    [by left|right]. exists ms, h. split; [done|]. pose proof Hok as [Hs Hb].
  split; [|split; [done|split; [by eapply no_messages_no_blocks|]]].
  2: { intros i e n He Hbig. destruct (Forall2_lookup_r _ _ _ _ _ Hs He) as ([m|] & Hi & Hh); [|done].
       by eapply set_from_itself_faults. }
  intros i e He. destruct (Forall2_lookup_r _ _ _ _ _ Hs He) as ([m|] & Hi & Hh); [|done].
  exists m. split; [done|]. pose proof Hh as [? ? ? _ _].
  split_and!; try done. intros n Hn. by apply as_value.
Qed.

(** A [malloc] that never fails: the address after the last one in use. *)
Definition bump (h : heap) (n : nat) : Z :=
  let p := foldr Z.max 0 (map_to_list h).*1 + 1 in if p <? 2 ^ 64 then p else 0.

Lemma bump_fresh h n : bump h n ≠ 0 → h !! bump h n = None ∧ 0 < bump h n < 2 ^ 64.
Proof.
  unfold bump. set (l := (map_to_list h).*1).
  assert (∀ p, p ∈ l → p <= foldr Z.max 0 l) as Hmax.
  { generalize l. clear. intros l p. induction 1 as [|? ? ? ? IH]; simpl; lia. }
  assert (0 <= foldr Z.max 0 l) by (generalize l; clear; intros l; induction l; simpl; lia).
  case_match; [|done]. intros _. split; [|lia].
  destruct (h !! (foldr Z.max 0 l + 1)) as [v|] eqn:E; [|done].
  assert (foldr Z.max 0 l + 1 ∈ l) as Hin.
  { apply list_elem_of_fmap. exists (foldr Z.max 0 l + 1, v). split; [done|]. by apply elem_of_map_to_list. }
  specialize (Hmax _ Hin). lia.
Qed.

Lemma messages_are_values_witness :
  let big := replicate 60 Byte.x07 in
  let ops := [New; SetValue 0 big; Copy 0; Move 1; MoveAssign 0 2; SetValue 1 [Byte.x01];
              Assign 2 0; Assign 2 2; SetFrom 1 0 55; SetFrom 1 2 3; SetFrom 0 1 2] in
  let ends := [Destruct 0; Destruct 1; Destruct 2] in
  (∃ ms h, perform_all bump zeros (ops ++ ends) ([], ∅) = Done (ms, h) ∧ h = ∅) ∧
  (∃ ms h, perform_all bump zeros ops ([], ∅) = Done (ms, h) ∧
     perform bump zeros (SetFrom 2 2 60) (ms, h) = Fault UndefinedBehaviour).
Proof.
  intros big ops ends. split.
  - destruct (messages_are_values bump zeros (ops ++ ends) [None; None; None] bump_fresh eq_refl)
      as [[H _]|(ms & h & H & _ & _ & Hend & _)]; [by vm_compute|by vm_compute in H|].
    exists ms, h. split; [done|]. apply Hend. by repeat constructor.
  - destruct (value_ops ops []) as [es|] eqn:E; [|by vm_compute in E].
    destruct (messages_are_values bump zeros ops es bump_fresh eq_refl E)
      as [[H _]|(ms & h & H & _ & _ & _ & Hself)]; [by vm_compute in H|].
    exists ms, h. split; [done|].
    assert (∃ e, es !! 2%nat = Some (Some e) ∧ length (env_value e) = 60%nat) as (e & He & Hlen).
    { vm_compute in E. injection E as <-. by eexists. }
    destruct (Hself 2%nat e 60%nat He ltac:(rewrite Hlen; unfold INLINE_SIZE; lia)) as [?|[Hf _]]; [done|].
    vm_compute in H. injection H as <- <-. by vm_compute in Hf.
Defined.

(** A mailbox built on any bounded queue owns the messages in it: a push is
    accepted exactly while there is room, and then takes the payload from the sender,
    who keeps it otherwise; a pop gives the oldest message; the destructor releases the
    blocks of all of them and no other. A capacity other than 1024 is refused. *)
Theorem mailbox_owns_messages {Q} `{!BoundedQueue Q Message} junk (b : Mailbox Q) n msgs h es ms fs m :
  0 < n → bq_holds n (queue_ptr_ b) msgs → (length msgs <= bq_capacity)%nat →
  pool_ok ((Some <$> msgs) ++ ms) h ((Some <$> es) ++ fs) → length msgs = length es →
  (if decide (length msgs < bq_capacity)%nat
   then ∃ b', mailbox_try_push junk b m = Done (b', (message_move junk m).2, true) ∧
     bq_holds (n - 1) (queue_ptr_ b') (msgs ++ [(message_move junk m).1])
   else mailbox_try_push junk b m = Done (b, m, false)) ∧
  (∃ b', mailbox_try_pop b = Done (b', head msgs) ∧ bq_holds n (queue_ptr_ b') (tail msgs)) ∧
  (∃ h', mailbox_destroy b h = Done h' ∧ pool_ok ms h' fs) ∧
  (∀ c, c ≠ DEFAULT_CAPACITY → mailbox_new (Q := Q) c = Fault AssertionFailed).
Proof.
  intros Hn Hq Hcap Hok Hlen. split; [|split; [|split]].
  - pose proof (bq_push_spec n (queue_ptr_ b) msgs (message_move junk m).1 Hn Hq) as Hp.
    unfold mailbox_try_push, queue_call. destruct (message_move junk m) as [moved kept].
    cbn [fst snd] in *. case_decide.
    + destruct Hp as (q' & -> & Hq'). by eexists {| queue_ptr_ := q' |}.
    + rewrite Hp. by destruct b.
  - pose proof (bq_pop_spec n (queue_ptr_ b) msgs ltac:(lia) Hq) as Hp.
    unfold mailbox_try_pop, queue_call. destruct msgs as [|m0 msgs].
    + rewrite Hp. exists b. by destruct b.
    + destruct Hp as (q' & -> & Hq'). by eexists {| queue_ptr_ := q' |}.
  - unfold mailbox_destroy. eapply (mailbox_drain_frees _ n); [lia|done|lia|done|done].
  - intros c Hc. unfold mailbox_new. by rewrite (proj2 (Z.eqb_neq _ _) Hc).
Qed.

Lemma mailbox_owns_messages_witness :
  let q := mpmc_bounded_queue (T := Message) 1024 ltac:(lia) in
  ∃ b, mailbox_new (BoundedQueue0 := q) 1024 = Done b ∧
    ∃ b', mailbox_try_push (BoundedQueue0 := q) zeros b message_new = Done (b', message_new, true).
Proof.
  intros q. exists {| queue_ptr_ := mpmc_new 1024 |}. split; [reflexivity|].
  assert (pool_ok ([] ++ []) ∅ ([] ++ [])) as Hok.
  { split; [constructor|]. intros p. case_decide as Hp; [|done]. destruct Hp as [? Hp].
    by rewrite lookup_empty in Hp. }
  destruct (mailbox_owns_messages (BoundedQueue0 := q) zeros {| queue_ptr_ := mpmc_new 1024 |}
    bq_budget [] ∅ [] [] [] message_new ltac:(done) (bq_new_holds (BoundedQueue := q))
    (Nat.le_0_l _) Hok eq_refl) as [H _].
  rewrite decide_True in H by (simpl; lia). destruct H as (b' & H & _). by exists b'.
Defined.
