(* ===== verification/WorkStealing.v ===== *)
(** * Work-stealing deque ([include/jellybean/scheduler/work_stealing_deque.hpp])

    The owner and any number of thieves, one access to shared state a step. Arrays are
    never moved or freed while the deque lives: an array is its number in [arrays].
    What only the owner writes (the cells, [bottom_], [array_]) the owner reads
    without a step of its own. Indices are integers: [bottom_] is at most the number of
    pushes, so that [int64_t] is exact for the first [2^63] of them. *)
From S2P Require Import Prelude.
From S2P Require Import Transition.

Section deque.
Context {T : Type}.

(** ** Data *)

(** A cell nothing was stored in is [None]. *)
Record Array := { storage : list (option T) }.

Definition capacity (a : Array) : Z := Z.of_nat (length (storage a)).

Definition mask (a : Array) : Z := capacity a - 1.

Definition load (a : Array) (i : Z) : option T := mjoin (storage a !! Z.to_nat (Z.land i (mask a))).

Definition store (a : Array) (i : Z) (x : T) : Array :=
  {| storage := <[Z.to_nat (Z.land i (mask a)) := Some x]> (storage a) |}.

Definition array_new (cap : Z) : outcome Array :=
  _ ← assert (0 <? cap);
  _ ← assert (Z.land cap (cap - 1) =? 0);
  mret {| storage := replicate (Z.to_nat cap) None |}.

(** Where the owner is. In [push]: [top_] loaded; the item stored. In [pop]: [bottom_]
    lowered; [top_] loaded and one item left; [bottom_] to be raised again. *)
Inductive owner_state :=
| OwnerIdle
| PushLoaded (x : T) (t : Z)
| PushStored (x : T)
| PopLowered
| PopLast
| PopRaise.

(** Where a thief is in [steal]: [top_] loaded; [bottom_] found above; array loaded;
    item loaded. *)
Inductive thief_state :=
| ThiefIdle
| StealTop (t : Z)
| StealCheck (t : Z)
| StealArray (t : Z) (a : nat)
| StealItem (t : Z) (x : option T).

(** Operations that took effect, [PopNothing] a [pop] that answers [nullopt]. *)
Inductive devent :=
| Pushed (x : T)
| Popped (x : T)
| PopNothing
| Stolen (x : T).

Record state := {
  top_ : Z;
  bottom_ : Z;
  arrays : list Array;
  array_ : nat;
  garbage_ : list nat;
  owner : owner_state;
  thieves : list thief_state;
  trace : list devent }.

Definition deque_new (cap : Z) (n : nat) : outcome state :=
  a ← array_new cap;
  mret {| top_ := 0; bottom_ := 0; arrays := [a]; array_ := 0; garbage_ := []; owner := OwnerIdle;
          thieves := replicate n ThiefIdle; trace := [] |}.

Definition initial (s : state) : Prop := ∃ cap n, deque_new cap n = Done s.

(** ** State updates *)

Definition empty_array : Array := {| storage := [] |}.

Definition current (s : state) : Array := default empty_array (arrays s !! array_ s).

Definition set_owner (s : state) (o : owner_state) : state := {|
  top_ := top_ s; bottom_ := bottom_ s; arrays := arrays s; array_ := array_ s;
  garbage_ := garbage_ s; owner := o; thieves := thieves s; trace := trace s |}.

Definition set_bottom (s : state) (b : Z) : state := {|
  top_ := top_ s; bottom_ := b; arrays := arrays s; array_ := array_ s;
  garbage_ := garbage_ s; owner := owner s; thieves := thieves s; trace := trace s |}.

Definition set_top (s : state) (t : Z) : state := {|
  top_ := t; bottom_ := bottom_ s; arrays := arrays s; array_ := array_ s;
  garbage_ := garbage_ s; owner := owner s; thieves := thieves s; trace := trace s |}.

Definition set_thief (s : state) (j : nat) (th : thief_state) : state := {|
  top_ := top_ s; bottom_ := bottom_ s; arrays := arrays s; array_ := array_ s;
  garbage_ := garbage_ s; owner := owner s; thieves := <[j := th]> (thieves s); trace := trace s |}.

Definition record_event (s : state) (e : devent) : state := {|
  top_ := top_ s; bottom_ := bottom_ s; arrays := arrays s; array_ := array_ s;
  garbage_ := garbage_ s; owner := owner s; thieves := thieves s; trace := trace s ++ [e] |}.

(** [a->store(i, x)] into the current array. *)
Definition store_current (s : state) (i : Z) (x : T) : state := {|
  top_ := top_ s; bottom_ := bottom_ s; arrays := <[array_ s := store (current s) i x]> (arrays s);
  array_ := array_ s; garbage_ := garbage_ s; owner := owner s; thieves := thieves s;
  trace := trace s |}.

(** ** Operations *)

(** The copying loop of [resize]: [n] cells from [i] on; an uninitialised cell is copied
    as it is. *)
Fixpoint copy_cells (old new : Array) (i : Z) (n : nat) : Array :=
  match n with
  | O => new
  | S n =>
      let new := match load old i with
                 | Some x => store new i x
                 | None => new
                 end in
      copy_cells old new (i + 1) n
  end.

Definition resize (s : state) (b t : Z) : outcome state :=
  new ← array_new (capacity (current s) * 2);
  mret {| top_ := top_ s; bottom_ := bottom_ s;
          arrays := arrays s ++ [copy_cells (current s) new t (Z.to_nat (b - t))];
          array_ := length (arrays s); garbage_ := garbage_ s ++ [array_ s];
          owner := owner s; thieves := thieves s; trace := trace s |}.

(** [push] after its loads: room is made if needed, and the item stored. *)
Definition push_store (s : state) (x : T) (t : Z) : outcome state :=
  let b := bottom_ s in
  s ← (if capacity (current s) - 1 <? b - t then resize s b t else mret s);
  mret (set_owner (store_current s b x) (PushStored x)).

(** One step of the owner. *)
Inductive owner_step : owner_state → state → state → Prop :=
| push_load s x :
    owner_step OwnerIdle s (set_owner s (PushLoaded x (top_ s)))
| push_stores s x t s' :
    push_store s x t = Done s' → owner_step (PushLoaded x t) s s'
| push_publishes s x :
    owner_step (PushStored x) s
      (record_event (set_owner (set_bottom s (bottom_ s + 1)) OwnerIdle) (Pushed x))
| pop_lowers s :
    owner_step OwnerIdle s (set_owner (set_bottom s (bottom_ s - 1)) PopLowered)
| pop_takes s x :
    top_ s < bottom_ s → load (current s) (bottom_ s) = Some x →
    owner_step PopLowered s (record_event (set_owner s OwnerIdle) (Popped x))
| pop_last s :
    top_ s = bottom_ s → owner_step PopLowered s (set_owner s PopLast)
| pop_wins s x :
    top_ s = bottom_ s → load (current s) (bottom_ s) = Some x →
    owner_step PopLast s
      (record_event (set_owner (set_top s (top_ s + 1)) PopRaise) (Popped x))
| pop_loses s :
    top_ s ≠ bottom_ s → owner_step PopLast s (record_event (set_owner s PopRaise) PopNothing)
| pop_empty s :
    bottom_ s < top_ s → owner_step PopLowered s (record_event (set_owner s PopRaise) PopNothing)
| pop_raises s :
    owner_step PopRaise s (set_owner (set_bottom s (bottom_ s + 1)) OwnerIdle).

(** One step of thief [j]. *)
Inductive thief_step (j : nat) : thief_state → state → state → Prop :=
| steal_loads_top s :
    thief_step j ThiefIdle s (set_thief s j (StealTop (top_ s)))
| steal_checks s t :
    t < bottom_ s → thief_step j (StealTop t) s (set_thief s j (StealCheck t))
| steal_nothing s t :
    bottom_ s <= t → thief_step j (StealTop t) s (set_thief s j ThiefIdle)
| steal_loads_array s t :
    thief_step j (StealCheck t) s (set_thief s j (StealArray t (array_ s)))
| steal_loads_item s t a :
    thief_step j (StealArray t a) s
      (set_thief s j (StealItem t (load (default empty_array (arrays s !! a)) t)))
| steal_wins s t x :
    top_ s = t →
    thief_step j (StealItem t (Some x)) s
      (record_event (set_thief (set_top s (t + 1)) j ThiefIdle) (Stolen x))
| steal_loses s t x :
    top_ s ≠ t → thief_step j (StealItem t x) s (set_thief s j ThiefIdle).

Inductive step (s s' : state) : Prop :=
| owner_moves : owner_step (owner s) s s' → step s s'
| thief_moves j th : thieves s !! j = Some th → thief_step j th s s' → step s s'.

(** ** Specification: a double-ended queue *)

Inductive deque_step : list T → devent → list T → Prop :=
| dq_push q x : deque_step q (Pushed x) (q ++ [x])
| dq_pop q x : deque_step (q ++ [x]) (Popped x) q
| dq_nothing : deque_step [] PopNothing []
| dq_steal q x : deque_step (x :: q) (Stolen x) q.

Inductive deque_run : list devent → list T → Prop :=
| deque_nil : deque_run [] []
| deque_snoc tr e q q' : deque_run tr q → deque_step q e q' → deque_run (tr ++ [e]) q'.

Definition pushes_of (tr : list devent) : list T :=
  omap (λ e, match e with Pushed x => Some x | _ => None end) tr.

Definition takes_of (tr : list devent) : list T :=
  omap (λ e, match e with Popped x | Stolen x => Some x | _ => None end) tr.

(** ** The invariant *)

(** The bottom as the thieves that passed their check may still see it. *)
Definition bottom_eff (s : state) : Z :=
  bottom_ s + match owner s with PopLowered | PopLast | PopRaise => 1 | _ => 0 end.

(** The cells of an array from index [i] on. *)
Definition cells (a : Array) (i : Z) (n : nat) : list (option T) :=
  (λ k, load a (i + Z.of_nat k)) <$> seq 0 n.

Definition live (s : state) : nat := Z.to_nat (bottom_eff s - top_ s).

Definition owner_ok (s : state) : Prop :=
  match owner s with
  | PushLoaded _ t => t <= top_ s ∧ bottom_ s - t <= capacity (current s)
  | PushStored x => bottom_ s - top_ s < capacity (current s) ∧ load (current s) (bottom_ s) = Some x
  | PopRaise => top_ s = bottom_eff s
  | PopLast => bottom_ s <= top_ s
  | OwnerIdle | PopLowered => True
  end.

(** A thief that can still win has read what is there. *)
Definition thief_ok (s : state) (th : thief_state) : Prop :=
  match th with
  | ThiefIdle => True
  | StealTop t => t <= top_ s
  | StealCheck t => t <= top_ s ∧ (t = top_ s → t < bottom_eff s)
  | StealArray t a => t <= top_ s ∧ (a < length (arrays s))%nat ∧ (t = top_ s → t < bottom_eff s ∧
      load (default empty_array (arrays s !! a)) t = load (current s) t)
  | StealItem t x => t <= top_ s ∧ (t = top_ s → t < bottom_eff s ∧ x = load (current s) t)
  end.

Record deque_ok (s : state) : Prop := {
  ok_array : array_ s = (length (arrays s) - 1)%nat ∧ (0 < length (arrays s))%nat;
  ok_garbage : garbage_ s ++ [array_ s] = seq 0 (length (arrays s));
  ok_capacity : ∃ k, 0 <= k ∧ capacity (current s) = 2 ^ k;
  ok_range : 0 <= top_ s <= bottom_eff s ∧ bottom_eff s - top_ s <= capacity (current s);
  ok_owner : owner_ok s;
  ok_thieves : Forall (thief_ok s) (thieves s);
  ok_run : ∃ q, deque_run (trace s) q ∧ Some <$> q = cells (current s) (top_ s) (live s);
  ok_bottom : bottom_eff s <= Z.of_nat (length (pushes_of (trace s))) }.

(** ** Lemmas on arrays *)

Definition power_of_two (n : Z) : Prop := ∃ k, 0 <= k ∧ n = 2 ^ k.

Lemma power_pos n : power_of_two n → 0 < n.
Proof. intros (k & Hk & ->). lia. Qed.

Lemma index_mod a i : power_of_two (capacity a) → Z.land i (mask a) = i `mod` capacity a.
Proof.
  intros Hp. pose proof (power_pos _ Hp). unfold mask. apply land_mask; [done|].
  destruct Hp as (k & Hk & ->). by apply is_pow2_pow.
Qed.

Lemma capacity_store a i x : capacity (store a i x) = capacity a.
Proof. unfold capacity, store. simpl. by rewrite length_insert. Qed.

Lemma index_lt a i : power_of_two (capacity a) → (Z.to_nat (i `mod` capacity a) < length (storage a))%nat.
Proof.
  intros Hp%power_pos. pose proof (Z.mod_pos_bound i (capacity a) Hp). unfold capacity in *. lia.
Qed.

Lemma load_store_eq a i x : power_of_two (capacity a) → load (store a i x) i = Some x.
Proof.
  intros Hp. unfold load. rewrite index_mod, capacity_store by by rewrite capacity_store.
  unfold store. simpl. rewrite index_mod by done.
  by rewrite list_lookup_insert_eq by by apply index_lt.
Qed.

Lemma mod_distinct i j n : 0 < n → 0 < Z.abs (i - j) < n → i `mod` n ≠ j `mod` n.
Proof.
  intros Hn Hij Heq. assert ((i - j) `mod` n = 0) as H0.
  { rewrite Zminus_mod, Heq, Z.sub_diag. by apply Z.mod_0_l; lia. }
  apply Z.mod_divide in H0; [|lia]. destruct H0 as [q Hq].
  assert (q = 0 ∨ 1 <= Z.abs q) as [->|] by lia; [lia|]. nia.
Qed.

Lemma load_store_ne a i j x :
  power_of_two (capacity a) → 0 < Z.abs (i - j) < capacity a → load (store a i x) j = load a j.
Proof.
  intros Hp Hij. pose proof (power_pos _ Hp) as Hpos. unfold load.
  rewrite !index_mod, capacity_store by by rewrite ?capacity_store.
  unfold store. simpl. rewrite index_mod by done.
  pose proof (Z.mod_pos_bound i (capacity a) Hpos). pose proof (Z.mod_pos_bound j (capacity a) Hpos).
  rewrite list_lookup_insert_ne; [done|]. intros Heq.
  apply (mod_distinct i j (capacity a)); [done|done|lia].
Qed.

Lemma capacity_copy old new i n : capacity (copy_cells old new i n) = capacity new.
Proof.
  revert new i. induction n as [|n IH]; intros new i; [done|]. simpl. rewrite IH.
  destruct (load old i); [apply capacity_store|done].
Qed.

(** A fresh array gets the cells copied. *)
Lemma load_copy old new i n j :
  power_of_two (capacity new) → Z.of_nat n <= capacity new →
  (∀ k, i <= k < i + Z.of_nat n → load new k = None) →
  (i <= j < i + Z.of_nat n → load (copy_cells old new i n) j = load old j) ∧
  (j < i → i + Z.of_nat n - j <= capacity new → load (copy_cells old new i n) j = load new j).
Proof.
  revert new i. induction n as [|n IH]; intros new i Hp Hn Hnew; [split; [lia|done]|]. simpl.
  set (new' := match load old i with Some x => store new i x | None => new end).
  assert (capacity new' = capacity new) as Hc.
  { unfold new'. destruct (load old i); [apply capacity_store|done]. }
  assert (∀ k, 0 < Z.abs (i - k) < capacity new → load new' k = load new k) as Hk.
  { intros k Hik. unfold new'. destruct (load old i); [by apply load_store_ne|done]. }
  assert (load new' i = load old i) as Hi.
  { unfold new'. destruct (load old i); [by apply load_store_eq|]. apply Hnew. lia. }
  destruct (IH new' (i + 1)) as [H1 H2]; [by rewrite Hc|rewrite Hc; lia| |].
  { intros k Hk'. rewrite Hk by lia. apply Hnew. lia. }
  rewrite Hc in H2. split.
  - intros Hj. destruct (decide (j = i)) as [->|Hne]; [rewrite H2 by lia; done|]. apply H1. lia.
  - intros Hj Hb. rewrite H2 by lia. apply Hk. lia.
Qed.

Lemma array_new_power cap a : array_new cap = Done a → power_of_two cap ∧ capacity a = cap ∧
  ∀ i, load a i = None.
Proof.
  unfold array_new. intros H. apply bind_done in H as ([] & H1 & H).
  apply bind_done in H as ([] & H2 & H). unfold assert in *.
  destruct (Z.ltb_spec 0 cap) as [Hpos|]; [|done].
  destruct (Z.eqb_spec (Z.land cap (cap - 1)) 0) as [Hland|]; [|done]. injection H as <-.
  assert (power_of_two cap) as Hp by (apply is_pow2_inv; [done|]; by apply Z.eqb_eq).
  split; [done|]. split; [unfold capacity; simpl; rewrite length_replicate; lia|].
  intros i. unfold load. simpl. destruct (_ !! _) as [c|] eqn:E; [|done].
  by apply lookup_replicate_1 in E as [-> _].
Qed.

Lemma array_new_done cap : power_of_two cap → ∃ a, array_new cap = Done a.
Proof.
  intros Hp. pose proof (power_pos _ Hp). destruct Hp as (k & Hk & ->). unfold array_new, assert.
  rewrite (proj2 (Z.ltb_lt _ _)) by done. rewrite (is_pow2_pow k Hk : (Z.land _ _ =? 0) = true). by eexists.
Qed.

Lemma cells_ext a b i n :
  (∀ j, i <= j < i + Z.of_nat n → load a j = load b j) → cells a i n = cells b i n.
Proof.
  intros H. unfold cells. apply list_fmap_ext. intros m k Hk.
  apply lookup_seq in Hk as [-> Hlt]. apply H. lia.
Qed.

Lemma cells_cons a i n : cells a i (S n) = load a i :: cells a (i + 1) n.
Proof.
  unfold cells. simpl. rewrite Z.add_0_r. f_equal. rewrite <- fmap_S_seq, <- list_fmap_compose.
  apply list_fmap_ext. intros m k _. simpl. f_equal. lia.
Qed.

Lemma cells_snoc a i n : cells a i (S n) = cells a i n ++ [load a (i + Z.of_nat n)].
Proof. unfold cells. rewrite seq_S, fmap_app. done. Qed.

(** ** Preservation *)

(** Steps that leave [top_] alone, and what can be stolen where it is. *)
Lemma thieves_frame s s' :
  top_ s' = top_ s → thieves s' = thieves s → (length (arrays s) <= length (arrays s'))%nat →
  (top_ s < bottom_eff s → top_ s < bottom_eff s' ∧
     load (current s') (top_ s) = load (current s) (top_ s) ∧
     ∀ a, (a < length (arrays s))%nat →
       load (default empty_array (arrays s' !! a)) (top_ s) =
       load (default empty_array (arrays s !! a)) (top_ s)) →
  Forall (thief_ok s) (thieves s) → Forall (thief_ok s') (thieves s').
Proof.
  intros Ht Hth Hlen Hf H. rewrite Hth. apply (Forall_impl _ _ _ H). clear H.
  intros [|t|t|t a|t x]; simpl; rewrite ?Ht; [done|done| | |].
  - intros [H1 H2]. split; [done|]. intros ->. by apply Hf, H2.
  - intros (H1 & Ha & H2). split; [done|]. split; [lia|]. intros ->.
    destruct (H2 eq_refl) as [Hb Hl]. destruct (Hf Hb) as (Hb' & Hc & Hall).
    split; [done|]. by rewrite Hc, Hall.
  - intros [H1 H2]. split; [done|]. intros ->. destruct (H2 eq_refl) as [Hb ->].
    destruct (Hf Hb) as (Hb' & -> & _). done.
Qed.

(** Steps that advance [top_]: no thief can win any more with what it read. *)
Lemma thieves_advance s s' :
  top_ s < top_ s' → (length (arrays s) <= length (arrays s'))%nat →
  Forall (thief_ok s) (thieves s) → Forall (thief_ok s') (thieves s).
Proof.
  intros Ht Hlen H. apply (Forall_impl _ _ _ H). clear H.
  intros [|t|t|t a|t x]; simpl; [done|lia|intros []; split; lia|intros (? & ? & ?); split_and!; lia|intros []; split; lia].
Qed.

Lemma current_lookup s : deque_ok s → arrays s !! array_ s = Some (current s).
Proof.
  intros [[Ha Hl] _ _ _ _ _ _ _]. unfold current.
  destruct (lookup_lt_is_Some_2 (arrays s) (array_ s)) as [a E]; [lia|]. by rewrite E.
Qed.

Lemma current_store s i x : deque_ok s → current (store_current s i x) = store (current s) i x.
Proof.
  intros Hok. pose proof (lookup_lt_Some _ _ _ (current_lookup s Hok)) as Hlt.
  unfold current at 1. simpl. by rewrite list_lookup_insert_eq.
Qed.

Lemma deque_ok_init s : initial s → deque_ok s.
Proof.
  intros (cap & n & H). unfold deque_new in H. apply bind_done in H as (a & Ha & H).
  injection H as <-. apply array_new_power in Ha as (Hp & Hc & _).
  split; simpl; try done; unfold bottom_eff; simpl.
  - lia.
  - change (∃ k, 0 <= k ∧ capacity a = 2 ^ k). by rewrite Hc.
  - change (0 <= 0 <= 0 + 0 ∧ 0 + 0 - 0 <= capacity a). rewrite Hc. pose proof (power_pos _ Hp). lia.
  - by apply Forall_replicate.
  - exists []. split; [constructor|done].
Qed.

(** The owner only changes its place. *)
Lemma ok_place s o :
  deque_ok s → bottom_eff (set_owner s o) = bottom_eff s → owner_ok (set_owner s o) →
  deque_ok (set_owner s o).
Proof.
  intros Hok Hb Ho. pose proof Hok as [? ? ? ? _ Ht Hr ?]. split; try done; try (by rewrite Hb).
  - apply (thieves_frame s); try done. by rewrite Hb.
  - destruct Hr as (q & Hq & Hc). exists q. unfold live in *. by rewrite Hb.
Qed.

Lemma resized_ok s x b t s' :
  deque_ok s → owner s = PushLoaded x t → bottom_ s = b → resize s b t = Done s' →
  deque_ok s' ∧ top_ s' = top_ s ∧ bottom_ s' = b ∧ owner s' = owner s ∧
  capacity (current s') = 2 * capacity (current s).
Proof.
  intros Hok Hown Hb H. pose proof (current_lookup s Hok) as Hcur.
  pose proof Hok as [[Ha Hl] Hg Hc [Hr1 Hr2] Ho Hth (q & Hq & Hcells) Hpb].
  unfold owner_ok in Ho. rewrite Hown in Ho. destruct Ho as [Ht Hbt]. rewrite Hb in Hbt.
  assert (bottom_eff s = b) as He by (unfold bottom_eff; rewrite Hown; lia).
  unfold resize in H. apply bind_done in H as (new & Hnew & H). injection H as <-.
  apply array_new_power in Hnew as (Hp2 & Hc2 & Hnone).
  set (copied := copy_cells (current s) new t (Z.to_nat (b - t))).
  set (s' := Build_state _ _ _ _ _ _ _ _).
  pose proof (power_pos _ Hc) as Hpos.
  assert (current s' = copied) as Hcur'.
  { unfold current. simpl. rewrite lookup_app_r by done. by rewrite Nat.sub_diag. }
  assert (capacity copied = 2 * capacity (current s)) as Hcap
    by (unfold copied; rewrite capacity_copy; lia).
  assert (∀ j, t <= j < b → load copied j = load (current s) j) as Hload.
  { intros j Hj. unfold copied.
    destruct (load_copy (current s) new t (Z.to_nat (b - t)) j) as [H1 _];
      [by rewrite Hc2|lia|intros; apply Hnone|apply H1; lia]. }
  assert (bottom_eff s' = b) as He' by (unfold bottom_eff; simpl; rewrite Hown; lia).
  split; [|by rewrite Hcur'].
  split; rewrite ?Hcur', ?He'; simpl; rewrite ?length_app; simpl.
  - lia.
  - rewrite Hg, Nat.add_1_r, seq_S. done.
  - rewrite Hcap. destruct Hc as (k & Hk & ->). exists (k + 1). split; [lia|].
    rewrite Z.pow_add_r by lia. lia.
  - rewrite <- He. lia.
  - unfold owner_ok. simpl. rewrite Hown, Hcur'. lia.
  - apply (thieves_frame s s'); try done; simpl; [rewrite length_app; lia|].
    intros Hlt. rewrite He in Hlt. split; [by rewrite He'|]. rewrite Hcur'.
    split; [apply Hload; lia|]. intros a Hlta. by rewrite lookup_app_l.
  - exists q. split; [done|]. rewrite Hcells. unfold live. rewrite He, He'. simpl.
    apply cells_ext. intros j Hj. symmetry. apply Hload. lia.
  - rewrite He in Hpb. lia.
Qed.

Lemma stored_ok s x t :
  deque_ok s → owner s = PushLoaded x t → bottom_ s - top_ s < capacity (current s) →
  deque_ok (set_owner (store_current s (bottom_ s) x) (PushStored x)).
Proof.
  intros Hok Hown Hroom. pose proof (current_lookup s Hok) as Hcur.
  pose proof (current_store s (bottom_ s) x Hok) as Hcs.
  pose proof Hok as [[Ha Hl] Hg Hc [Hr1 Hr2] Ho Hth (q & Hq & Hcells) Hpb].
  set (s' := set_owner _ _). assert (current s' = store (current s) (bottom_ s) x) as Hcur' by done.
  assert (bottom_eff s = bottom_ s) as He by (unfold bottom_eff; rewrite Hown; lia).
  assert (bottom_eff s' = bottom_ s) as He' by (unfold bottom_eff; simpl; lia).
  assert (∀ j, top_ s <= j < bottom_ s → load (current s') j = load (current s) j) as Hload.
  { intros j Hj. rewrite Hcur'. apply load_store_ne; [done|]. rewrite He in Hr1, Hr2. lia. }
  split; rewrite ?He'; simpl; rewrite ?length_insert.
  - done.
  - done.
  - rewrite Hcur', capacity_store. done.
  - rewrite Hcur', capacity_store. lia.
  - unfold owner_ok. simpl. rewrite Hcur', capacity_store. split; [done|]. by apply load_store_eq.
  - apply (thieves_frame s s'); try done; simpl; [by rewrite length_insert|].
    intros Hlt. rewrite He in Hlt. split; [by rewrite He'|].
    split; [apply Hload; lia|]. intros a Hlta. destruct (decide (a = array_ s)) as [->|Hne].
    + rewrite list_lookup_insert_eq by done. rewrite Hcur. simpl.
      apply load_store_ne; [done|]. lia.
    + by rewrite list_lookup_insert_ne.
  - exists q. split; [done|]. rewrite Hcells. unfold live. rewrite He, He'. simpl.
    apply cells_ext. intros j Hj. symmetry. apply Hload. lia.
  - lia.
Qed.

Lemma push_store_ok s x t s' :
  deque_ok s → owner s = PushLoaded x t → push_store s x t = Done s' → deque_ok s'.
Proof.
  intros Hok Hown H. unfold push_store in H.
  pose proof Hok as [_ _ Hc _ Ho _ _ _]. unfold owner_ok in Ho. rewrite Hown in Ho.
  pose proof (power_pos _ Hc).
  destruct (Z.ltb_spec (capacity (current s) - 1) (bottom_ s - t)) as [Hfull|Hroom].
  - apply bind_done in H as (s1 & H1 & H). injection H as <-.
    destruct (resized_ok s x (bottom_ s) t s1 Hok Hown eq_refl H1) as (Hok1 & Ht1 & Hb1 & Ho1 & Hc1).
    rewrite <- Hb1. apply (stored_ok s1 x t); [done|by rewrite Ho1|]. rewrite Hb1, Ht1, Hc1. lia.
  - injection H as <-. apply (stored_ok s x t); [done|done|]. lia.
Qed.

Lemma pushes_app a b : pushes_of (a ++ b) = pushes_of a ++ pushes_of b.
Proof. apply omap_app. Qed.

Lemma some_inj_app (q : list T) l x : Some <$> q = l ++ [Some x] → ∃ q', q = q' ++ [x] ∧ Some <$> q' = l.
Proof.
  intros H. destruct (exists_last (l := q)) as (q' & y & ->).
  { intros ->. by apply app_cons_not_nil in H. }
  rewrite fmap_app in H. apply app_inj_tail in H as [H1 H2]. exists q'. by simplify_eq.
Qed.

(** The owner publishes, lowers, takes or raises: [bottom_eff] goes to [e']. *)
Lemma publish_ok s x :
  deque_ok s → owner s = PushStored x →
  deque_ok (record_event (set_owner (set_bottom s (bottom_ s + 1)) OwnerIdle) (Pushed x)).
Proof.
  intros Hok Hown. pose proof Hok as [Ha Hg Hc [Hr1 Hr2] Ho Hth (q & Hq & Hcells) Hpb].
  unfold owner_ok in Ho. rewrite Hown in Ho. destruct Ho as [Hroom Hx].
  assert (bottom_eff s = bottom_ s) as He by (unfold bottom_eff; rewrite Hown; lia).
  set (s' := record_event _ _).
  assert (bottom_eff s' = bottom_ s + 1) as He' by (unfold bottom_eff; simpl; lia).
  split; rewrite ?He'; try done; simpl.
  - change (current s') with (current s). lia.
  - apply (thieves_frame s s'); try done. intros Hlt. by split; [lia|].
  - exists (q ++ [x]). split; [by eapply deque_snoc; [|constructor]|].
    change (current s') with (current s). rewrite fmap_app, Hcells.
    assert (live s' = S (live s)) as -> by (unfold live; rewrite He, He'; simpl; lia).
    rewrite cells_snoc. simpl. f_equal. rewrite <- Hx. unfold live. rewrite He.
    do 2 f_equal. lia.
  - rewrite pushes_app, length_app. simpl. lia.
Qed.

Lemma take_ok s x :
  deque_ok s → owner s = PopLowered → top_ s < bottom_ s → load (current s) (bottom_ s) = Some x →
  deque_ok (record_event (set_owner s OwnerIdle) (Popped x)).
Proof.
  intros Hok Hown Hlt Hx. pose proof Hok as [Ha Hg Hc [Hr1 Hr2] Ho Hth (q & Hq & Hcells) Hpb].
  assert (bottom_eff s = bottom_ s + 1) as He by (unfold bottom_eff; rewrite Hown; lia).
  set (s' := record_event _ _).
  assert (bottom_eff s' = bottom_ s) as He' by (unfold bottom_eff; simpl; lia).
  split; rewrite ?He'; try done; simpl.
  - change (current s') with (current s). lia.
  - apply (thieves_frame s s'); try done. intros _. by rewrite He'.
  - change (current s') with (current s).
    assert (live s = S (live s')) as Hl by (unfold live; rewrite He, He'; simpl; lia).
    rewrite Hl, cells_snoc in Hcells.
    replace (top_ s + Z.of_nat (live s')) with (bottom_ s) in Hcells
      by (unfold live; rewrite He'; simpl; lia).
    rewrite Hx in Hcells. apply some_inj_app in Hcells as (q' & -> & Hq').
    exists q'. split; [by eapply deque_snoc; [|constructor]|done].
  - rewrite pushes_app, length_app. simpl. lia.
Qed.

Lemma win_ok s x :
  deque_ok s → owner s = PopLast → top_ s = bottom_ s → load (current s) (bottom_ s) = Some x →
  deque_ok (record_event (set_owner (set_top s (top_ s + 1)) PopRaise) (Popped x)).
Proof.
  intros Hok Hown Ht Hx. pose proof Hok as [Ha Hg Hc [Hr1 Hr2] Ho Hth (q & Hq & Hcells) Hpb].
  assert (bottom_eff s = bottom_ s + 1) as He by (unfold bottom_eff; rewrite Hown; lia).
  set (s' := record_event _ _).
  assert (bottom_eff s' = bottom_ s + 1) as He' by (unfold bottom_eff; simpl; lia).
  split; rewrite ?He'; try done; simpl.
  - change (current s') with (current s). lia.
  - change (top_ s + 1 = bottom_eff s'). rewrite He'. lia.
  - apply (thieves_advance s s'); simpl; [lia|done|done].
  - change (current s') with (current s). unfold live in *. rewrite He' in *. simpl in *.
    rewrite He, Ht in Hcells. replace (Z.to_nat (bottom_ s + 1 - bottom_ s)) with 1%nat in Hcells by lia.
    unfold cells in Hcells. simpl in Hcells. rewrite Z.add_0_r, Hx in Hcells.
    destruct q as [|y [|z q]]; simplify_eq/=. exists [].
    split; [eapply deque_snoc; [done|]; by apply (dq_pop [])|].
    rewrite Ht, Z.sub_diag. done.
  - rewrite pushes_app, length_app. simpl. lia.
Qed.

(** The owner finds nothing left. *)
Lemma nothing_ok s :
  deque_ok s → (owner s = PopLast ∨ owner s = PopLowered) → top_ s = bottom_ s + 1 →
  deque_ok (record_event (set_owner s PopRaise) PopNothing).
Proof.
  intros Hok Hown Ht. pose proof Hok as [Ha Hg Hc [Hr1 Hr2] Ho Hth (q & Hq & Hcells) Hpb].
  assert (bottom_eff s = bottom_ s + 1) as He by (unfold bottom_eff; destruct Hown as [->| ->]; lia).
  set (s' := record_event _ _).
  assert (bottom_eff s' = bottom_ s + 1) as He' by (unfold bottom_eff; simpl; lia).
  split; rewrite ?He'; try done; simpl.
  - change (current s') with (current s). lia.
  - apply (thieves_frame s s'); try done. intros Hlt. split; [lia|done].
  - assert (live s = 0%nat) as Hl by (unfold live; lia).
    assert (live s' = 0%nat) as Hl' by (unfold live; rewrite He'; simpl; lia).
    rewrite Hl in Hcells. destruct q; [|done]. exists [].
    split; [by eapply deque_snoc; [|constructor]|]. by rewrite Hl'.
  - rewrite pushes_app, length_app. simpl. lia.
Qed.

Lemma owner_step_ok s s' : deque_ok s → owner_step (owner s) s s' → deque_ok s'.
Proof.
  intros Hok Hstep. pose proof Hok as [Ha Hg Hc [Hr1 Hr2] Ho Hth Hrun Hpb].
  inversion Hstep as [? x Hown|? x t ? H Hown|? x Hown|? Hown|? x Hlt Hx Hown|? Ht Hown|? x Ht Hx Hown
    |? Ht Hown|? Hlt Hown|? Hown]; subst; clear Hstep; symmetry in Hown.
  - apply ok_place; [done|unfold bottom_eff; by rewrite Hown|].
    unfold owner_ok. simpl. change (current (set_owner _ _)) with (current s).
    unfold bottom_eff in *. rewrite Hown in *. lia.
  - by eapply push_store_ok.
  - by apply publish_ok.
  - assert (bottom_eff (set_owner (set_bottom s (bottom_ s - 1)) PopLowered) = bottom_eff s) as He
      by (unfold bottom_eff; rewrite Hown; simpl; lia).
    split; rewrite ?He; try done.
    + apply (thieves_frame s (set_owner (set_bottom s (bottom_ s - 1)) PopLowered)); try done.
      by rewrite He.
    + destruct Hrun as (q & Hq & Hcells). exists q. unfold live in *. by rewrite He.
  - by apply take_ok.
  - apply ok_place; [done|unfold bottom_eff; by rewrite Hown|]. unfold owner_ok. simpl. lia.
  - by apply win_ok.
  - apply nothing_ok; [done|by left|]. unfold owner_ok, bottom_eff in *. rewrite Hown in *. lia.
  - apply nothing_ok; [done|by right|]. unfold bottom_eff in *. rewrite Hown in *. lia.
  - assert (bottom_eff (set_owner (set_bottom s (bottom_ s + 1)) OwnerIdle) = bottom_eff s) as He
      by (unfold bottom_eff; rewrite Hown; simpl; lia).
    split; rewrite ?He; try done.
    + apply (thieves_frame s (set_owner (set_bottom s (bottom_ s + 1)) OwnerIdle)); try done.
      by rewrite He.
    + destruct Hrun as (q & Hq & Hcells). exists q. unfold live in *. by rewrite He.
Qed.

(** A thief only changes its place. *)
Lemma ok_thief s j th : deque_ok s → thief_ok s th → deque_ok (set_thief s j th).
Proof.
  intros [? ? ? ? ? Ht ? ?] Hth. split; try done. by apply Forall_insert.
Qed.

Lemma thief_step_ok s s' j th :
  deque_ok s → thieves s !! j = Some th → thief_step j th s s' → deque_ok s'.
Proof.
  intros Hok Hj Hstep. pose proof Hok as [Ha Hg Hc [Hr1 Hr2] Ho Hth (q & Hq & Hcells) Hpb].
  pose proof (Forall_lookup_1 _ _ _ _ Hth Hj) as Hok'.
  assert (bottom_ s <= bottom_eff s) as Hb by (unfold bottom_eff; destruct (owner s); lia).
  inversion Hstep as [|? t Hlt|? t Hle|? t|? t a|? t x Ht|? t x Ht]; subst; clear Hstep; simpl in Hok'.
  - apply ok_thief; [done|]. simpl. lia.
  - apply ok_thief; [done|]. simpl. lia.
  - by apply ok_thief.
  - apply ok_thief; [done|]. destruct Hok' as [H1 H2]. simpl. split; [done|].
    split; [rewrite (proj1 Ha); lia|]. intros Ht. split; [by apply H2|]. by rewrite current_lookup.
  - apply ok_thief; [done|]. destruct Hok' as (H1 & H2 & H3). simpl. split; [done|].
    intros Ht. by apply H3.
  - destruct Hok' as [_ H2]. destruct (H2 eq_refl) as [Hlt Hx].
    set (s' := record_event _ _).
    assert (bottom_eff s' = bottom_eff s) as He by done.
    split; rewrite ?He; try done.
    + change (current s') with (current s). simpl. lia.
    + unfold owner_ok in *. simpl. change (current s') with (current s).
      rewrite He. unfold bottom_eff in *. destruct (owner s); try lia. destruct Ho. split; [lia|done].
    + apply Forall_insert; [|done]. apply (thieves_advance s s'); simpl; [lia|done|done].
    + assert (live s = S (live s')) as Hl by (unfold live; rewrite He; simpl; lia).
      rewrite Hl, cells_cons, <- Hx in Hcells. destruct q as [|y q]; simplify_eq/=.
      exists q. split; [by eapply deque_snoc; [|constructor]|]. done.
    + simpl. rewrite pushes_app, length_app. simpl. lia.
  - by apply ok_thief.
Qed.

Lemma deque_reachable_ok s : reachable initial step s → deque_ok s.
Proof.
  apply reachable_ind'; [apply deque_ok_init|].
  intros s1 s2 _ Hok [Hs|j th Hj Hs]; [by apply owner_step_ok in Hs|by eapply thief_step_ok].
Qed.

Lemma deque_run_conserves tr q :
  deque_run tr q → pushes_of tr ≡ₚ takes_of tr ++ q.
Proof.
  induction 1 as [|tr e q q' _ IH Hs]; [done|]. unfold pushes_of, takes_of in *. rewrite !omap_app, IH.
  inversion Hs; subst; simpl; rewrite ?app_nil_r; solve_Permutation.
Qed.

(** ** Progress *)

Lemma live_cell s i :
  deque_ok s → top_ s <= i < bottom_eff s → ∃ x, load (current s) i = Some x.
Proof.
  intros [_ _ _ _ _ _ (q & _ & Hcells) _] Hi.
  assert (cells (current s) (top_ s) (live s) !! Z.to_nat (i - top_ s) = Some (load (current s) i)) as H.
  { unfold cells. rewrite list_lookup_fmap, lookup_seq_lt by (unfold live; lia). simpl.
    do 2 f_equal. lia. }
  rewrite <- Hcells, list_lookup_fmap in H.
  destruct (q !! Z.to_nat (i - top_ s)) as [x|]; simplify_eq/=. by exists x.
Qed.

Lemma owner_moves_on s : deque_ok s → ∃ s', owner_step (owner s) s s'.
Proof.
  intros Hok. pose proof Hok as [_ _ Hc [Hr _] Ho _ _ _]. unfold owner_ok, bottom_eff in *.
  assert (∀ i, top_ s <= i < bottom_eff s → ∃ x, load (current s) i = Some x) as Hlive
    by (intros; by apply live_cell).
  unfold bottom_eff in Hlive. destruct (owner s) as [|x t|x| | |] eqn:Hown.
  - eexists. apply pop_lowers.
  - assert (∃ s', push_store s x t = Done s') as [s' Hs'].
    { unfold push_store. case_match; [|by eexists]. unfold resize.
      destruct (array_new_done (capacity (current s) * 2)) as [a ->]; [|by eexists].
      destruct Hc as (k & Hk & ->). exists (k + 1). split; [lia|]. rewrite Z.pow_add_r by lia. lia. }
    eexists. by apply push_stores.
  - eexists. apply push_publishes.
  - destruct (Z.lt_trichotomy (top_ s) (bottom_ s)) as [H|[H|H]].
    + destruct (Hlive (bottom_ s)) as [x Hx]; [lia|]. eexists. by apply pop_takes.
    + eexists. by apply pop_last.
    + eexists. by apply pop_empty.
  - destruct (decide (top_ s = bottom_ s)) as [H|H].
    + destruct (Hlive (bottom_ s)) as [x Hx]; [lia|]. eexists. by apply pop_wins.
    + eexists. by apply pop_loses.
  - eexists. apply pop_raises.
Qed.

Lemma thief_moves_on s j th : deque_ok s → thieves s !! j = Some th → ∃ s', thief_step j th s s'.
Proof.
  intros Hok Hj. pose proof Hok as [_ _ _ [Hr _] _ Hth _ _].
  pose proof (Forall_lookup_1 _ _ _ _ Hth Hj) as H. destruct th as [|t|t|t a|t x]; simpl in H.
  - eexists. apply steal_loads_top.
  - destruct (Z.lt_ge_cases t (bottom_ s)); eexists; [by apply steal_checks|by apply steal_nothing].
  - eexists. apply steal_loads_array.
  - eexists. apply steal_loads_item.
  - destruct (decide (top_ s = t)) as [Ht|Ht]; [|eexists; by apply steal_loses].
    destruct H as [_ H]. destruct (H (eq_sym Ht)) as [Hlt ->]. subst t.
    destruct (live_cell s (top_ s) Hok) as [x ->]; [lia|]. eexists. by apply steal_wins.
Qed.
End deque.
Arguments state : clear implicits.
Arguments devent : clear implicits.

(** ** Properties *)

(** C24. The deque is linearisable, whatever its owner and any number of thieves do:
    the operations that took effect are a legal history of a list pushed and popped at
    its end and stolen from its front, [pop] answers [nullopt] only when the list is
    empty, and every item pushed is taken at most once and lost never. The arrays that
    were replaced are kept, each once, for the destructor; [bottom_] never exceeds the
    number of pushes; and no thread is ever stuck. *)
Theorem ws_deque_linearises {T} (s : state T) :
  reachable initial step s →
  (∃ q, deque_run (trace s) q ∧ pushes_of (trace s) ≡ₚ takes_of (trace s) ++ q ∧
     Some <$> q = cells (current s) (top_ s) (live s)) ∧
  garbage_ s ++ [array_ s] = seq 0 (length (arrays s)) ∧
  0 <= top_ s <= bottom_eff s ∧ bottom_eff s <= Z.of_nat (length (pushes_of (trace s))) ∧
  (∃ s', owner_step (owner s) s s') ∧
  (∀ j th, thieves s !! j = Some th → ∃ s', thief_step j th s s').
Proof.
  intros Hr. pose proof (deque_reachable_ok s Hr) as Hok.
  pose proof Hok as [_ Hg _ [Hrange _] _ _ (q & Hq & Hcells) Hpb].
  split; [exists q; split; [done|]; split; [by apply deque_run_conserves|done]|].
  split; [done|]. split; [done|]. split; [done|].
  split; [by apply owner_moves_on|intros; by apply thief_moves_on].
Qed.

Ltac owner_does t := eapply rtc_l; [apply owner_moves; simpl; t|].
Ltac thief_does t := eapply rtc_l; [eapply (thief_moves _ _ 0%nat); [reflexivity|t]|].

(** A deque of capacity 1 that has grown, with its only thief done. *)
Lemma grown_run :
  ∃ s : state nat, reachable initial step s ∧ takes_of (trace s) = [1%nat; 2%nat] ∧
    length (arrays s) = 2%nat.
Proof.
  eexists. split.
  - eexists. split; [exists 1, 1%nat; reflexivity|].
    owner_does ltac:(apply (push_load _ 1%nat)). owner_does ltac:(apply push_stores; reflexivity).
    owner_does ltac:(apply push_publishes).
    owner_does ltac:(apply (push_load _ 2%nat)). owner_does ltac:(apply push_stores; reflexivity).
    owner_does ltac:(apply push_publishes).
    thief_does ltac:(apply steal_loads_top). thief_does ltac:(apply steal_checks; done).
    thief_does ltac:(apply steal_loads_array). thief_does ltac:(apply steal_loads_item).
    thief_does ltac:(apply (steal_wins _ _ _ 1%nat); reflexivity).
    owner_does ltac:(apply pop_lowers). owner_does ltac:(apply pop_last; done).
    owner_does ltac:(apply (pop_wins _ 2%nat); done). owner_does ltac:(apply pop_raises).
    apply rtc_refl.
  - split; reflexivity.
Qed.

Lemma ws_deque_linearises_witness :
  ∃ s : state nat, reachable initial step s ∧ takes_of (trace s) = [1%nat; 2%nat] ∧
    ∃ q, deque_run (trace s) q.
Proof.
  destruct grown_run as (s & Hr & Ht & _). exists s. split; [done|]. split; [done|].
  destruct (ws_deque_linearises s Hr) as [(q & Hq & _) _]. by exists q.
Defined.

(** The cells are plain objects, and a thief may read one while the owner writes
    it: a state is reached in which a thief's next step reads a cell of the current array
    and the owner's next step, without growing the array, stores into the same cell.
    The thief's exchange of [top_] fails afterwards, but the two accesses race. *)
Theorem ws_deque_cells_race :
  ∃ (s : state nat) x t u,
    reachable initial step s ∧ owner s = PushLoaded x u ∧
    thieves s !! 0%nat = Some (StealArray t (array_ s)) ∧
    (capacity (current s) - 1 <? bottom_ s - u) = false ∧
    Z.land (bottom_ s) (mask (current s)) = Z.land t (mask (current s)) ∧ t < top_ s.
Proof.
  eexists _, 2%nat, 0, 1. split.
  - eexists. split; [exists 1, 1%nat; reflexivity|].
    owner_does ltac:(apply (push_load _ 1%nat)). owner_does ltac:(apply push_stores; reflexivity).
    owner_does ltac:(apply push_publishes).
    thief_does ltac:(apply steal_loads_top). thief_does ltac:(apply steal_checks; done).
    thief_does ltac:(apply steal_loads_array).
    owner_does ltac:(apply pop_lowers). owner_does ltac:(apply pop_last; done).
    owner_does ltac:(apply (pop_wins _ 1%nat); done). owner_does ltac:(apply pop_raises).
    owner_does ltac:(apply (push_load _ 2%nat)).
    apply rtc_refl.
  - by split_and!.
Qed.
