(* ===== verification/WorkStealingWeak.v ===== *)
(** * The work-stealing deque under weak memory
      ([include/jellybean/scheduler/work_stealing_deque.hpp])

    The accesses of [push], [pop] and [steal] with the memory orders and fences of the
    source, on the memory of [Weak]: one owner, any number of thieves, and synchronisation
    elsewhere at any time. The cells of the arrays are plain, as in the source: the owner
    and a thief that knows the newest store of a cell read it; a thief that does not reads
    it in a data race. C++ leaves the program undefined then
    ([WorkStealing.ws_deque_cells_race]: it can happen); here such a read may return
    anything, and the theorem shows that only thieves who will lose [top_] race. What only
    the owner stores ([bottom_], [array_], the cells) it reads as it left it. As in
    [WorkStealing] indices are integers. *)
From S2P Require Import Prelude.
From S2P Require Import Transition.
From S2P Require Import WorkStealing.
From S2P Require Import Weak.

(** ** Locations *)

(** [Item a i]: cell [i] of array [a]. *)
Inductive loc := Top | Bottom | ArrayPtr | Item (a i : nat).

#[export] Instance loc_eq_dec : EqDecision loc.
Proof. solve_decision. Defined.

Section deque_weak.
Context {T : Type}.

(** An index, the number of an array, or a cell ([None]: nothing was stored in it). *)
Inductive cell := Word (n : Z) | Ptr (a : nat) | Content (o : option T).

(** Where the owner is. In [push]: everything loaded; room made; item stored. In [pop]:
    [bottom_] lowered; behind the fence; one item left, loaded; [bottom_] to be raised. *)
Inductive owner_point :=
| OIdle
| OPush (x : T) (b t : Z) (a : nat)
| OPushReady (x : T) (b : Z) (a : nat)
| OPushStored (x : T) (b : Z)
| OPopLowered (b : Z) (a : nat)
| OPopFenced (b : Z) (a : nat)
| OPopLast (b : Z) (x : option T)
| ORaise (b : Z).

(** Where a thief is in [steal]: [top_] loaded; behind the fence; [bottom_] found above;
    array loaded; item loaded. *)
Inductive thief_point :=
| TIdle
| TTop (t : Z)
| TFenced (t : Z)
| TCheck (t : Z)
| TArray (t : Z) (a : nat)
| TItem (t : Z) (x : option T).

(** [caps]: the capacities of the arrays allocated so far. *)
Record state := {
  mem : memory loc cell;
  caps : list Z;
  owner : owner_point;
  oview : thread loc;
  thieves : list (thief_point * thread loc);
  trace : list (devent T) }.

Definition cells_new (l : loc) : cell :=
  match l with Top | Bottom => Word 0 | ArrayPtr => Ptr 0 | Item _ _ => Content None end.

Definition state_new (cap : Z) (n : nat) : state := {|
  mem := memory_new cells_new; caps := [cap]; owner := OIdle; oview := thread_new;
  thieves := replicate n (TIdle, thread_new); trace := [] |}.

Definition initial (s : state) : Prop := ∃ cap n, power_of_two cap ∧ s = state_new cap n.

(** Cell [i & mask()] of an array of capacity [c]. *)
Definition item_at (a : nat) (c i : Z) : loc := Item a (Z.to_nat (Z.land i (c - 1))).

(** ** Steps *)

(** The copying loop of [resize]. *)
Fixpoint copy_items (old : nat) (oc : Z) (new : nat) (nc : Z) (i : Z) (n : nat)
    (m : memory loc cell) (th : thread loc) : option (memory loc cell * thread loc) :=
  match n with
  | O => Some (m, th)
  | S n =>
      match plain_read (item_at old oc i) m th with
      | Some v =>
          match plain_write (item_at new nc i) v m th with
          | Some (m', th') => copy_items old oc new nc (i + 1) n m' th'
          | None => None
          end
      | None => None
      end
  end.

Definition set_owner (s : state) (m : memory loc cell) (o : owner_point) (th : thread loc) : state := {|
  mem := m; caps := caps s; owner := o; oview := th; thieves := thieves s; trace := trace s |}.

Definition set_thief (s : state) (j : nat) (m : memory loc cell) (p : thief_point) (th : thread loc) :
    state := {|
  mem := m; caps := caps s; owner := owner s; oview := oview s;
  thieves := <[j := (p, th)]> (thieves s); trace := trace s |}.

Definition record_event (s : state) (e : devent T) : state := {|
  mem := mem s; caps := caps s; owner := owner s; oview := oview s; thieves := thieves s;
  trace := trace s ++ [e] |}.

Definition add_array (s : state) (c : Z) : state := {|
  mem := mem s; caps := caps s ++ [c]; owner := owner s; oview := oview s; thieves := thieves s;
  trace := trace s |}.

Inductive owner_step (s : state) : state → Prop :=
| push_loads x b n t a th :
    owner s = OIdle →
    plain_read Bottom (mem s) (oview s) = Some (Word b) →
    load Acquire Top n (mem s) (oview s) = Some (Word t, th) →
    plain_read ArrayPtr (mem s) (oview s) = Some (Ptr a) →
    owner_step s (set_owner s (mem s) (OPush x b t a) th)
| push_fits x b t a c :
    owner s = OPush x b t a → caps s !! a = Some c → (c - 1 <? b - t) = false →
    owner_step s (set_owner s (mem s) (OPushReady x b a) (oview s))
| push_resizes x b t a c m th m' th' :
    owner s = OPush x b t a → caps s !! a = Some c → (c - 1 <? b - t) = true →
    copy_items a c (length (caps s)) (c * 2) t (Z.to_nat (b - t)) (mem s) (oview s) = Some (m, th) →
    store Release ArrayPtr (Ptr (length (caps s))) m th = Some (m', th') →
    owner_step s (add_array (set_owner s m' (OPushReady x b (length (caps s))) th') (c * 2))
| push_stores x b a c m th :
    owner s = OPushReady x b a → caps s !! a = Some c →
    plain_write (item_at a c b) (Content (Some x)) (mem s) (oview s) = Some (m, th) →
    owner_step s (set_owner s m (OPushStored x b) th)
| push_publishes x b m th :
    owner s = OPushStored x b →
    store Relaxed Bottom (Word (b + 1)) (mem s) (fence_release (oview s)) = Some (m, th) →
    owner_step s (record_event (set_owner s m OIdle th) (Pushed x))
| pop_lowers b a m th :
    owner s = OIdle →
    plain_read Bottom (mem s) (oview s) = Some (Word b) →
    plain_read ArrayPtr (mem s) (oview s) = Some (Ptr a) →
    store Relaxed Bottom (Word (b - 1)) (mem s) (oview s) = Some (m, th) →
    owner_step s (set_owner s m (OPopLowered (b - 1) a) th)
| pop_fences b a m th :
    owner s = OPopLowered b a → fence_seq_cst (mem s) (oview s) = (m, th) →
    owner_step s (set_owner s m (OPopFenced b a) th)
| pop_takes b a n t th c x :
    owner s = OPopFenced b a → load Relaxed Top n (mem s) (oview s) = Some (Word t, th) → t < b →
    caps s !! a = Some c → plain_read (item_at a c b) (mem s) th = Some (Content (Some x)) →
    owner_step s (record_event (set_owner s (mem s) OIdle th) (Popped x))
| pop_last b a n th c x :
    owner s = OPopFenced b a → load Relaxed Top n (mem s) (oview s) = Some (Word b, th) →
    caps s !! a = Some c → plain_read (item_at a c b) (mem s) th = Some (Content x) →
    owner_step s (set_owner s (mem s) (OPopLast b x) th)
| pop_empty b a n t th :
    owner s = OPopFenced b a → load Relaxed Top n (mem s) (oview s) = Some (Word t, th) → b < t →
    owner_step s (record_event (set_owner s (mem s) (ORaise b) th) PopNothing)
| pop_wins b x m th :
    owner s = OPopLast b (Some x) →
    exchange SeqCst Top (Word (b + 1)) (mem s) (oview s) = Some (Word b, m, th) →
    owner_step s (record_event (set_owner s m (ORaise b) th) (Popped x))
| pop_loses b x n t th :
    owner s = OPopLast b x → load Relaxed Top n (mem s) (oview s) = Some (Word t, th) → t ≠ b →
    owner_step s (record_event (set_owner s (mem s) (ORaise b) th) PopNothing)
| pop_raises b m th :
    owner s = ORaise b → store Relaxed Bottom (Word (b + 1)) (mem s) (oview s) = Some (m, th) →
    owner_step s (set_owner s m OIdle th)
| owner_learns j p th :
    thieves s !! j = Some (p, th) →
    owner_step s (set_owner s (mem s) (owner s) (learn (cur th) (oview s))).

(** One access of thief [j] at [p], knowing [th]. *)
Inductive thief_step (j : nat) (s : state) : thief_point → thread loc → state → Prop :=
| steal_loads_top th n t th' :
    load Acquire Top n (mem s) th = Some (Word t, th') →
    thief_step j s TIdle th (set_thief s j (mem s) (TTop t) th')
| steal_fences t th m th' :
    fence_seq_cst (mem s) th = (m, th') →
    thief_step j s (TTop t) th (set_thief s j m (TFenced t) th')
| steal_checks t th n b th' :
    load Acquire Bottom n (mem s) th = Some (Word b, th') → t < b →
    thief_step j s (TFenced t) th (set_thief s j (mem s) (TCheck t) th')
| steal_nothing t th n b th' :
    load Acquire Bottom n (mem s) th = Some (Word b, th') → b <= t →
    thief_step j s (TFenced t) th (set_thief s j (mem s) TIdle th')
| steal_loads_array t th n a th' :
    load Acquire ArrayPtr n (mem s) th = Some (Ptr a, th') →
    thief_step j s (TCheck t) th (set_thief s j (mem s) (TArray t a) th')
| steal_reads_item t a th c x :
    caps s !! a = Some c → plain_read (item_at a c t) (mem s) th = Some (Content x) →
    thief_step j s (TArray t a) th (set_thief s j (mem s) (TItem t x) th)
| steal_races t a th c x :
    caps s !! a = Some c → plain_read (item_at a c t) (mem s) th = None →
    thief_step j s (TArray t a) th (set_thief s j (mem s) (TItem t x) th)
| steal_wins t x th m th' :
    exchange SeqCst Top (Word (t + 1)) (mem s) th = Some (Word t, m, th') →
    thief_step j s (TItem t (Some x)) th (record_event (set_thief s j m TIdle th') (Stolen x))
| steal_loses t x th n t' th' :
    load Relaxed Top n (mem s) th = Some (Word t', th') → t' ≠ t →
    thief_step j s (TItem t x) th (set_thief s j (mem s) TIdle th')
| thief_learns p th from :
    (from = cur (oview s) ∨ ∃ k q th', thieves s !! k = Some (q, th') ∧ from = cur th') →
    thief_step j s p th (set_thief s j (mem s) p (learn from th)).

Inductive step (s s' : state) : Prop :=
| owner_moves : owner_step s s' → step s s'
| thief_moves j p th : thieves s !! j = Some (p, th) → thief_step j s p th s' → step s s'.

(** The same as a function: the owner, with what it pushes when it is idle ([None] is
    [pop]), or a thief, with the message its load reads ([None] is the exchange). *)
Inductive choice := Owner (call : option T) (n : option nat) | Thief (j : nat) (n : option nat) | Learns (j : nat).

Definition as_word (v : cell) : option Z := match v with Word w => Some w | _ => None end.

Definition as_ptr (v : cell) : option nat := match v with Ptr a => Some a | _ => None end.

Definition as_content (v : cell) : option (option T) := match v with Content x => Some x | _ => None end.

Definition read_as {A} (f : cell → option A) (l : loc) (m : memory loc cell) (th : thread loc) : option A :=
  plain_read l m th ≫= f.

Definition load_as {A} (f : cell → option A) (o : order) (l : loc) (n : option nat) (m : memory loc cell)
    (th : thread loc) : option (A * thread loc) :=
  n ← n; r ← load o l n m th; x ← f (fst r); Some (x, snd r).

Definition exchange_top (t : Z) (m : memory loc cell) (th : thread loc) : option (memory loc cell * thread loc) :=
  r ← exchange SeqCst Top (Word (t + 1)) m th;
  w ← as_word (fst (fst r));
  if w =? t then Some (snd (fst r), snd r) else None.

Definition exec_owner (call : option T) (n : option nat) (s : state) : option state :=
  let (m, th) := (mem s, oview s) in
  match owner s, call with
  | OIdle, Some x =>
      b ← read_as as_word Bottom m th; r ← load_as as_word Acquire Top n m th;
      a ← read_as as_ptr ArrayPtr m th; Some (set_owner s m (OPush x b (fst r) a) (snd r))
  | OIdle, None =>
      b ← read_as as_word Bottom m th; a ← read_as as_ptr ArrayPtr m th;
      r ← store Relaxed Bottom (Word (b - 1)) m th;
      Some (set_owner s (fst r) (OPopLowered (b - 1) a) (snd r))
  | OPush x b t a, _ =>
      c ← caps s !! a;
      if c - 1 <? b - t then
        r ← copy_items a c (length (caps s)) (c * 2) t (Z.to_nat (b - t)) m th;
        r ← store Release ArrayPtr (Ptr (length (caps s))) (fst r) (snd r);
        Some (add_array (set_owner s (fst r) (OPushReady x b (length (caps s))) (snd r)) (c * 2))
      else Some (set_owner s m (OPushReady x b a) th)
  | OPushReady x b a, _ =>
      c ← caps s !! a; r ← plain_write (item_at a c b) (Content (Some x)) m th;
      Some (set_owner s (fst r) (OPushStored x b) (snd r))
  | OPushStored x b, _ =>
      r ← store Relaxed Bottom (Word (b + 1)) m (fence_release th);
      Some (record_event (set_owner s (fst r) OIdle (snd r)) (Pushed x))
  | OPopLowered b a, _ =>
      let r := fence_seq_cst m th in Some (set_owner s (fst r) (OPopFenced b a) (snd r))
  | OPopFenced b a, _ =>
      r ← load_as as_word Relaxed Top n m th;
      if b <? fst r then Some (record_event (set_owner s m (ORaise b) (snd r)) PopNothing)
      else
        c ← caps s !! a; x ← read_as as_content (item_at a c b) m (snd r);
        if fst r =? b then Some (set_owner s m (OPopLast b x) (snd r))
        else x ← x; Some (record_event (set_owner s m OIdle (snd r)) (Popped x))
  | OPopLast b x, _ =>
      match n with
      | Some _ =>
          r ← load_as as_word Relaxed Top n m th;
          if fst r =? b then None
          else Some (record_event (set_owner s m (ORaise b) (snd r)) PopNothing)
      | None =>
          x ← x; r ← exchange_top b m th;
          Some (record_event (set_owner s (fst r) (ORaise b) (snd r)) (Popped x))
      end
  | ORaise b, _ =>
      r ← store Relaxed Bottom (Word (b + 1)) m th; Some (set_owner s (fst r) OIdle (snd r))
  end.

Definition exec_thief (j : nat) (n : option nat) (p : thief_point) (th : thread loc) (s : state) : option state :=
  let m := mem s in
  match p with
  | TIdle =>
      r ← load_as as_word Acquire Top n m th; Some (set_thief s j m (TTop (fst r)) (snd r))
  | TTop t => let r := fence_seq_cst m th in Some (set_thief s j (fst r) (TFenced t) (snd r))
  | TFenced t =>
      r ← load_as as_word Acquire Bottom n m th;
      Some (set_thief s j m (if t <? fst r then TCheck t else TIdle) (snd r))
  | TCheck t =>
      r ← load_as as_ptr Acquire ArrayPtr n m th; Some (set_thief s j m (TArray t (fst r)) (snd r))
  | TArray t a =>
      c ← caps s !! a;
      match plain_read (item_at a c t) m th with
      | Some v => x ← as_content v; Some (set_thief s j m (TItem t x) th)
      | None => Some (set_thief s j m (TItem t None) th)
      end
  | TItem t x =>
      match n with
      | Some _ =>
          r ← load_as as_word Relaxed Top n m th;
          if fst r =? t then None else Some (set_thief s j m TIdle (snd r))
      | None =>
          x ← x; r ← exchange_top t m th;
          Some (record_event (set_thief s j (fst r) TIdle (snd r)) (Stolen x))
      end
  end.

Definition exec (c : choice) (s : state) : option state :=
  match c with
  | Owner call n => exec_owner call n s
  | Thief j n => r ← thieves s !! j; exec_thief j n (fst r) (snd r) s
  | Learns j => r ← thieves s !! j; Some (set_owner s (mem s) (owner s) (learn (cur (snd r)) (oview s)))
  end.

Lemma load_as_inv {A} (f : cell → option A) o l n m th r :
  load_as f o l n m th = Some r → ∃ n' v, load o l n' m th = Some (v, snd r) ∧ f v = Some (fst r).
Proof.
  unfold load_as. intros (n' & _ & H)%bind_Some. apply bind_Some in H as ([v th'] & Hl & H).
  apply bind_Some in H as (x & Hf & [= <-]). by exists n', v.
Qed.

Lemma as_word_inv v w : as_word v = Some w → v = Word w.
Proof. destruct v; by intros [= ->]. Qed.

Lemma as_ptr_inv v a : as_ptr v = Some a → v = Ptr a.
Proof. destruct v; by intros [= ->]. Qed.

Lemma as_content_inv v x : as_content v = Some x → v = Content x.
Proof. destruct v; by intros [= ->]. Qed.

Lemma exchange_top_inv t m th r :
  exchange_top t m th = Some r → exchange SeqCst Top (Word (t + 1)) m th = Some (Word t, fst r, snd r).
Proof.
  unfold exchange_top. intros ([[v m'] th'] & He & H)%bind_Some.
  apply bind_Some in H as (w & Hw%as_word_inv & H). simpl in *. subst v.
  destruct (Z.eqb_spec w t) as [->|]; [|done]. by injection H as <-.
Qed.

(** Undoes the functions above. *)
Ltac undo := repeat match goal with
  | H : mbind _ _ = Some _ |- _ => apply bind_Some in H as (? & ? & ?)
  | H : load_as _ _ _ _ _ _ = Some _ |- _ => apply load_as_inv in H as (? & ? & ? & ?)
  | H : read_as _ _ _ _ = Some _ |- _ => apply bind_Some in H as (? & ? & ?)
  | H : exchange_top _ _ _ = Some _ |- _ => apply exchange_top_inv in H
  | H : as_word _ = Some _ |- _ => apply as_word_inv in H; subst
  | H : as_ptr _ = Some _ |- _ => apply as_ptr_inv in H; subst
  | H : as_content _ = Some _ |- _ => apply as_content_inv in H; subst
  | r : (_ * _)%type |- _ => destruct r
  | _ => progress simplify_eq/=
  end.

Lemma exec_owner_sound call n s s' : exec_owner call n s = Some s' → owner_step s s'.
Proof.
  unfold exec_owner. intros H. destruct (owner s) eqn:Ho.
  - destruct call; undo; by econstructor.
  - undo. destruct (_ <? _) eqn:E; undo; by econstructor.
  - undo. by econstructor.
  - undo. by econstructor.
  - injection H as <-. by eapply pop_fences.
  - undo. destruct (Z.ltb_spec b z); undo; [by eapply pop_empty|].
    destruct (Z.eqb_spec z b) as [->|]; undo; [by eapply pop_last|].
    eapply pop_takes; [done|done|lia|done|done].
  - destruct n; undo; [|by eapply pop_wins].
    destruct (Z.eqb_spec z b); undo. by eapply pop_loses.
  - undo. by econstructor.
Qed.

Lemma exec_thief_sound j n p th s s' : exec_thief j n p th s = Some s' → thief_step j s p th s'.
Proof.
  unfold exec_thief. intros H. destruct p.
  - undo. by econstructor.
  - injection H as <-. by apply steal_fences.
  - undo. destruct (Z.ltb_spec t z); [by eapply steal_checks|by eapply steal_nothing].
  - undo. by econstructor.
  - undo. destruct (plain_read _ _ _) as [v|] eqn:Hr; undo; [by eapply steal_reads_item|by eapply steal_races].
  - destruct n; undo; [|by eapply steal_wins].
    destruct (Z.eqb_spec z t); undo. by eapply steal_loses.
Qed.

Lemma ws_exec_step c s s' : exec c s = Some s' → step s s'.
Proof.
  destruct c; simpl; intros H.
  - by apply owner_moves, (exec_owner_sound call n).
  - undo. by eapply thief_moves, exec_thief_sound.
  - undo. by eapply owner_moves, owner_learns.
Qed.

(** ** The invariant *)

(** Of a position in the deque: the message of [bottom_] that published it, the array that
    was current then, and the message of its cell in an array. *)
Record ghost := { born : Z → nat; birth : Z → nat; wr : nat → Z → nat }.

Definition cell_of (cs : list Z) (a : nat) (j : Z) : loc := item_at a (default 1 (cs !! a)) j.

(** [low] and [high]: the positions of the deque. Who knows the message that published a
    position knows its array and its cell, and who knows a later array knows the copy. *)
Definition good (g : ghost) (cs : list Z) (low high : Z) (v : view loc) : Prop :=
  ∀ j, low <= j < high →
    ((born g j <= v Bottom)%nat → (birth g j <= v ArrayPtr)%nat ∧
       (wr g (birth g j) j <= v (cell_of cs (birth g j) j))%nat) ∧
    ∀ a, (birth g j < a <= v ArrayPtr)%nat → (wr g a j <= v (cell_of cs a j))%nat.

(** Every cell that may be read for a position holds its item, from its message on. *)
Definition items_ok (g : ghost) (cs : list Z) (m : memory loc cell) (low : Z) (q : list T) : Prop :=
  ∀ k x, q !! k = Some x → let j := low + Z.of_nat k in
    (born g j <= latest m Bottom)%nat ∧ (birth g j <= latest m ArrayPtr)%nat ∧
    ∀ a, (birth g j <= a <= latest m ArrayPtr)%nat →
      wr g a j = latest m (cell_of cs a j) ∧
      ∀ n msg, (wr g a j <= n)%nat → cells m (cell_of cs a j) !! n = Some msg →
        value msg = Content (Some x).

(** The messages by location; arrays double, and what is not allocated is untouched. *)
Record messages_ok (m : memory loc cell) (cs : list Z) : Prop := {
  ms_top : ∀ n msg, cells m Top !! n = Some msg →
    value msg = Word (Z.of_nat n) ∧ (n ≠ 0%nat → by_rmw msg = true);
  ms_bottom : ∀ n msg, cells m Bottom !! n = Some msg → ∃ w, value msg = Word w;
  ms_array : ∀ n msg, cells m ArrayPtr !! n = Some msg → value msg = Ptr n;
  ms_item : ∀ a i n msg, cells m (Item a i) !! n = Some msg → ∃ x, value msg = Content x;
  ms_caps : length cs = S (latest m ArrayPtr) ∧ ∀ c, c ∈ cs → power_of_two c;
  ms_fresh : ∀ a i, (length cs <= a)%nat → length (cells m (Item a i)) = 1%nat }.

(** The positions of the deque: from [low] to below [high]. *)
Definition low (m : memory loc cell) : Z := Z.of_nat (latest m Top).

Definition high (m : memory loc cell) (q : list T) : Z := low m + Z.of_nat (length q).

Definition capacity_now (cs : list Z) : Z := default 1 (last cs).

(** The owner knows the newest of all it stores, and its last release covered the cells. *)
Definition knows_own (m : memory loc cell) (v : view loc) : Prop :=
  ∀ l, l ≠ Top → (latest m l <= v l)%nat.

Definition covers (m : memory loc cell) (v : view loc) : Prop :=
  ∀ l, l ≠ Top → l ≠ Bottom → (latest m l <= v l)%nat.

Definition owner_ok (s : state) (q : list T) : Prop :=
  let high := high (mem s) q in
  let top := Z.of_nat (cur (oview s) Top) in
  let current := latest (mem s) ArrayPtr in
  match owner s with
  | OIdle => newest (mem s) Bottom = Some (Word high) ∧ covers (mem s) (rel (oview s))
  | OPush x b t a => newest (mem s) Bottom = Some (Word b) ∧ high = b ∧ a = current ∧ t <= top ∧
      b - t <= capacity_now (caps s)
  | OPushReady x b a => newest (mem s) Bottom = Some (Word b) ∧ high = b ∧ a = current ∧
      b - top < capacity_now (caps s)
  | OPushStored x b => newest (mem s) Bottom = Some (Word b) ∧ high = b ∧ b - top < capacity_now (caps s) ∧
      newest (mem s) (cell_of (caps s) current b) = Some (Content (Some x))
  | OPopLowered b a => newest (mem s) Bottom = Some (Word b) ∧ high = b + 1 ∧ a = current ∧
      covers (mem s) (rel (oview s))
  | OPopFenced b a => newest (mem s) Bottom = Some (Word b) ∧ high = b + 1 ∧ a = current ∧
      covers (mem s) (rel (oview s)) ∧ (latest (mem s) Bottom <= sc (mem s) Bottom)%nat ∧
      (low (mem s) <= b ∨ b <= top)
  | OPopLast b x => newest (mem s) Bottom = Some (Word b) ∧ high = b + 1 ∧
      covers (mem s) (rel (oview s)) ∧ (latest (mem s) Bottom <= sc (mem s) Bottom)%nat ∧ b <= top ∧
      (low (mem s) = b → ∃ y, x = Some y ∧ q = [y])
  | ORaise b => newest (mem s) Bottom = Some (Word b) ∧ high = b + 1 ∧ q = [] ∧
      covers (mem s) (rel (oview s))
  end.

(** What a thief relies on: [sct] and [ot] are what the fences and the owner know of
    [top_], [bots] the messages of [bottom_]. While the owner is behind its fence, a thief
    that can still take the last item is known to the owner. *)
Definition thief_ok (g : ghost) (sct ot : nat) (bots : list (message loc cell)) (low high : Z) (q : list T)
    (o : owner_point) (p : thief_point) (th : thread loc) : Prop :=
  let fenced t := t <= Z.of_nat sct in
  let seen t := ∀ b a, o = OPopFenced b a → b <= t → t <= Z.of_nat ot in
  match p with
  | TIdle => True
  | TTop t => t <= Z.of_nat (cur th Top)
  | TFenced t => fenced t ∧
      (low = t → ∀ i msg w, (cur th Bottom <= i)%nat → bots !! i = Some msg → value msg = Word w →
         t < w → t < high ∧ (born g t <= i)%nat) ∧
      (∀ b a, o = OPopFenced b a → t <= Z.of_nat ot ∨ (pred (length bots) <= cur th Bottom)%nat)
  | TCheck t => fenced t ∧ (low = t → t < high ∧ (born g t <= cur th Bottom)%nat) ∧ seen t
  | TArray t a => fenced t ∧ (a <= cur th ArrayPtr)%nat ∧
      (low = t → t < high ∧ (born g t <= cur th Bottom)%nat ∧ (birth g t <= a)%nat) ∧ seen t
  | TItem t x => fenced t ∧ (low = t → t < high ∧ ∃ y, x = Some y ∧ head q = Some y) ∧ seen t
  end.

(** What the fences know of [bottom_]: nothing was removed since. *)
Definition fences_ok (g : ghost) (m : memory loc cell) (low high : Z) : Prop :=
  ∀ i msg w, (sc m Bottom <= i)%nat → cells m Bottom !! i = Some msg → value msg = Word w →
    ∀ j, low <= j < w → j < high ∧ (born g j <= i)%nat.

(** The part of the invariant about the memory alone. *)
Record shared_ok (g : ghost) (q : list T) (m : memory loc cell) (cs : list Z) : Prop := {
  sh_memory : memory_ok m;
  sh_messages : messages_ok m cs;
  sh_items : items_ok g cs m (low m) q;
  sh_carries : ∀ l n msg, cells m l !! n = Some msg → good g cs (low m) (high m q) (carries msg);
  sh_sc : good g cs (low m) (high m q) (sc m);
  sh_fences : fences_ok g m (low m) (high m q) }.

Record view_ok (g : ghost) (q : list T) (m : memory loc cell) (cs : list Z) (th : thread loc) : Prop := {
  vw_closed : thread_closed m th;
  vw_cur : good g cs (low m) (high m q) (cur th);
  vw_acq : good g cs (low m) (high m q) (acq th);
  vw_rel : good g cs (low m) (high m q) (rel th) }.

Record inv_with (g : ghost) (q : list T) (s : state) : Prop := {
  inv_shared : shared_ok g q (mem s) (caps s);
  inv_sctop : low (mem s) - 1 <= Z.of_nat (sc (mem s) Top) ∨
    low (mem s) - 1 <= Z.of_nat (cur (oview s) Top);
  inv_oview : view_ok g q (mem s) (caps s) (oview s);
  inv_oknows : knows_own (mem s) (cur (oview s)) ∧ knows_own (mem s) (acq (oview s));
  inv_room : high (mem s) q - Z.of_nat (cur (oview s) Top) <= capacity_now (caps s);
  inv_owner : owner_ok s q;
  inv_thieves : ∀ j p th, thieves s !! j = Some (p, th) →
    view_ok g q (mem s) (caps s) th ∧
    thief_ok g (sc (mem s) Top) (cur (oview s) Top) (cells (mem s) Bottom)
      (low (mem s)) (high (mem s) q) q (owner s) p th;
  inv_run : deque_run (trace s) q }.

Definition inv (s : state) : Prop := ∃ g q, inv_with g q s.

(** ** Views *)

Lemma ws_good_join g cs low high v w :
  good g cs low high v → good g cs low high w → good g cs low high (join v w).
Proof.
  intros H1 H2 j Hj. destruct (H1 j Hj) as [A1 B1]. destruct (H2 j Hj) as [A2 B2]. unfold join. split.
  - intros Hb. destruct (decide (born g j <= v Bottom)%nat) as [Hv|Hv].
    + destruct (A1 Hv). lia.
    + destruct A2 as [? ?]; lia.
  - intros a Ha. destruct (decide (a <= v ArrayPtr)%nat) as [Hv|Hv].
    + specialize (B1 a ltac:(lia)). lia.
    + specialize (B2 a ltac:(lia)). lia.
Qed.

Lemma ws_good_ext g cs low high v w : good g cs low high v → (∀ l, w l = v l) → good g cs low high w.
Proof. intros H E j Hj. rewrite !E. destruct (H j Hj) as [H1 H2]. split; [done|]. intros a. rewrite E. apply H2. Qed.

(** Knowledge of [top_] or of a cell does no harm. *)
Lemma ws_good_at g cs low high v l n :
  l ≠ Bottom → l ≠ ArrayPtr → good g cs low high v → good g cs low high (join v (at_ l n)).
Proof.
  intros Hb Ha H j Hj. destruct (H j Hj) as [H1 H2]. unfold join.
  rewrite (at_other l n Bottom), (at_other l n ArrayPtr) by done. split.
  - intros Hv. destruct H1 as [? ?]; [lia|]. split; lia.
  - intros a Hv. specialize (H2 a ltac:(lia)). lia.
Qed.

Lemma good_sub g cs low high low' high' v :
  good g cs low high v → low <= low' → high' <= high → good g cs low' high' v.
Proof. intros H ?? j Hj. apply H. lia. Qed.

(** Who knows the newest of everything is good. *)
Lemma good_knows g cs m low q v :
  items_ok g cs m low q → closed m v → covers m v → good g cs low (low + Z.of_nat (length q)) v.
Proof.
  intros Hit Hcl Hv j Hj. destruct (lookup_lt_is_Some_2 q (Z.to_nat (j - low))) as [x Hx]; [lia|].
  destruct (Hit _ _ Hx) as (Hb & Ha & Hc). cbv zeta in *.
  replace (low + Z.of_nat (Z.to_nat (j - low))) with j in * by lia.
  assert (∀ a, (birth g j <= a <= latest m ArrayPtr)%nat → (wr g a j <= v (cell_of cs a j))%nat) as Hcell.
  { intros a Ha'. destruct (Hc a Ha') as [Hw _]. specialize (Hv (cell_of cs a j) ltac:(done) ltac:(done)). lia. }
  pose proof (Hv ArrayPtr ltac:(done) ltac:(done)). split; [intros _; split; [lia|apply Hcell; lia]|].
  intros a Ha'. apply Hcell. pose proof (Hcl ArrayPtr). lia.
Qed.

Lemma knows_covers m v : knows_own m v → covers m v.
Proof. intros H l Ht _. by apply H. Qed.

(** ** Loads and fences *)

Lemma see_view g q m cs o l n msg th :
  shared_ok g q m cs → view_ok g q m cs th → cells m l !! n = Some msg →
  acquires o = true ∨ l ≠ Bottom ∧ l ≠ ArrayPtr → view_ok g q m cs (see o l n msg th).
Proof.
  intros Hs [H1 H2 H3 H4] Hn Ho. pose proof (sh_carries _ _ _ _ Hs _ _ _ Hn) as Hc.
  destruct (ok_carries _ (sh_memory _ _ _ _ Hs) _ _ _ Hn) as [_ Hself]. split.
  - by apply see_closed; [apply Hs| |].
  - destruct Ho as [Ho|[Hb Ha]].
    + apply (ws_good_ext _ _ _ _ (join (cur th) (carries msg))); [by apply ws_good_join|].
      intros l'. by apply (see_acquire o l n msg th).
    + destruct (acquires o) eqn:E.
      * apply (ws_good_ext _ _ _ _ (join (cur th) (carries msg))); [by apply ws_good_join|].
        intros l'. by apply (see_acquire o l n msg th).
      * apply (ws_good_ext _ _ _ _ (join (cur th) (at_ l n))); [by apply ws_good_at|].
        intros l'. simpl. rewrite E. unfold join, bot. lia.
  - apply (ws_good_ext _ _ _ _ (join (acq th) (carries msg))); [by apply ws_good_join|].
    intros l'. simpl. unfold join, at_. case_decide; subst; lia.
  - done.
Qed.

Lemma load_view g q m cs o l n th v th' :
  shared_ok g q m cs → view_ok g q m cs th → load o l n m th = Some (v, th') →
  acquires o = true ∨ l ≠ Bottom ∧ l ≠ ArrayPtr →
  view_ok g q m cs th' ∧ view_le (cur th) (cur th') ∧ view_le (acq th) (acq th') ∧ rel th' = rel th ∧
  (cur th l <= n <= latest m l)%nat ∧ (n <= cur th' l)%nat ∧
  ∃ msg, cells m l !! n = Some msg ∧ value msg = v.
Proof.
  intros Hs Hv (msg & Hn & Hval & Hle & ->)%load_inv Ho. split; [by apply see_view|].
  split_and!; [apply see_cur_le|apply join_l|done|done| | |by exists msg].
  - apply lookup_lt_Some in Hn. unfold latest. lia.
  - simpl. unfold join. rewrite at_same. lia.
Qed.

Lemma learn_view g q m cs th th' :
  view_ok g q m cs th → view_ok g q m cs th' → view_ok g q m cs (learn (cur th') th).
Proof.
  intros [H1 H2 H3 H4] [(H5 & _) H6 _ _].
  split; [by apply learn_closed|by apply ws_good_join|by apply ws_good_join|done].
Qed.

(** The counter of [top_]. *)
Lemma load_top m cs o n th w th' :
  messages_ok m cs → load o Top n m th = Some (Word w, th') → w = Z.of_nat n.
Proof.
  intros Hm (msg & Hn & Hv & _)%load_inv. destruct (ms_top _ _ Hm _ _ Hn) as [Hw _]. congruence.
Qed.

Lemma fence_shared g q m cs th m' th' :
  shared_ok g q m cs → view_ok g q m cs th → fence_seq_cst m th = (m', th') →
  shared_ok g q m' cs ∧ view_ok g q m' cs th' ∧ cells m' = cells m ∧
  sc m' = cur th' ∧ cur th' = acq th' ∧ cur th' = rel th' ∧
  view_le (cur th) (cur th') ∧ view_le (sc m) (sc m').
Proof.
  intros Hs [H1 H2 H3 H4] Hf.
  destruct (fence_seq_cst_ok _ _ _ _ (sh_memory _ _ _ _ Hs) H1 Hf) as (Hm & Hth & _).
  injection Hf as <- <-. destruct Hs as [S1 S2 S3 S4 S5 S6].
  assert (good g cs (low m) (high m q) (join (join (cur th) (acq th)) (sc m))) as Hg
    by by repeat apply ws_good_join.
  split_and!; try done.
  - split; try done; [by destruct S2|]. intros i msg w Hi Hk Hw. eapply S6; [|done|done].
    simpl in Hi. unfold join in Hi. lia.
  - intros l. simpl. unfold join. lia.
  - intros l. simpl. unfold join. lia.
Qed.

Lemma fence_view g q m m' cs th :
  cells m' = cells m → view_ok g q m cs th → view_ok g q m' cs th.
Proof.
  intros Hc [(V1 & V2 & V3) V4 V5 V6]. unfold high, low, latest in *.
  split; unfold thread_closed, closed, high, low, latest; by rewrite Hc.
Qed.

(** ** Taking from the top *)

Lemma items_tail g cs m m' x q :
  items_ok g cs m (low m) (x :: q) → low m' = low m + 1 →
  (∀ l, l ≠ Top → cells m' l = cells m l) → items_ok g cs m' (low m') q.
Proof.
  intros Hi Hl Hc k y Hy j. destruct (Hi (S k) y Hy) as (H1 & H2 & H3). cbv zeta in *.
  replace (low m + Z.of_nat (S k)) with j in * by (unfold j; lia).
  unfold latest in *. rewrite !Hc by done. split_and!; [done|done|]. intros a Ha.
  destruct (H3 a Ha) as [H4 H5]. rewrite (Hc (cell_of cs a j)) by done. by split.
Qed.

Lemma exchange_shared g x q m cs th t m' th' :
  shared_ok g (x :: q) m cs → view_ok g (x :: q) m cs th →
  exchange SeqCst Top (Word (t + 1)) m th = Some (Word t, m', th') →
  t = low m ∧ low m' = low m + 1 ∧ high m' q = high m (x :: q) ∧ shared_ok g q m' cs ∧
  view_ok g q m' cs th' ∧ (latest m' Top <= cur th' Top)%nat ∧
  view_le (cur th) (cur th') ∧ view_le (acq th) (acq th') ∧ rel th' = rel th ∧
  (∀ l, l ≠ Top → cells m' l = cells m l) ∧ sc m' = sc m ∧ memory_le m m'.
Proof.
  intros Hs Hv He. pose proof (sh_memory _ _ _ _ Hs) as Hm.
  destruct (exchange_ok _ _ _ _ _ _ _ _ Hm (vw_closed _ _ _ _ _ Hv) He) as (Hm' & Hth & Hle).
  apply exchange_inv in He as (msg & Hn & Hval & -> & ->); [|done].
  pose proof (ok_inhabited _ Hm Top) as Hpos.
  destruct (ms_top _ _ (sh_messages _ _ _ _ Hs) _ _ Hn) as [Hw _].
  assert (t = low m) as -> by (unfold low; congruence).
  pose proof (see_view _ _ _ _ SeqCst _ _ _ _ Hs Hv Hn (or_introl eq_refl)) as [V1 V2 V3 V4].
  set (th1 := see SeqCst Top (latest m Top) msg th) in *. set (n := length (cells m Top)) in *.
  set (msg' := {| value := Word (low m + 1) |}) in *.
  assert (latest (push_message m Top msg') Top = S (latest m Top)) as Hlat by by apply latest_push_same.
  assert (low (push_message m Top msg') = low m + 1) as Hlow by (unfold low; rewrite Hlat; lia).
  assert (high (push_message m Top msg') q = high m (x :: q)) as Hhigh
    by (unfold high; rewrite Hlow; simpl; lia).
  assert (∀ l, l ≠ Top → cells (push_message m Top msg') l = cells m l) as Hcells
    by (intros; by apply cells_push_other).
  assert (∀ v, good g cs (low m) (high m (x :: q)) v →
    good g cs (low (push_message m Top msg')) (high (push_message m Top msg') q) v) as Hsub.
  { intros v Hg. rewrite Hlow, Hhigh. eapply good_sub; [done|lia|lia]. }
  assert (∀ v, good g cs (low m) (high m (x :: q)) v →
    good g cs (low m) (high m (x :: q)) (join v (at_ Top n))) as Hat by (intros; by apply ws_good_at).
  destruct Hs as [S1 S2 S3 S4 S5 S6]. split_and!; try done.
  - split.
    + done.
    + destruct S2 as [M1 M2 M3 M4 M5 M6]. split; unfold latest in *; rewrite ?Hcells by done; try done.
      * intros k msg0. rewrite cells_push_same. intros [Hk|[Hk Hk']]%lookup_app_Some; [by apply M1|].
        apply list_lookup_singleton_Some in Hk' as [Hk' <-]. unfold msg'. simpl. split; [|done].
        f_equal. unfold low, latest, n in *. lia.
    + by eapply items_tail.
    + intros l k msg0 Hk. apply Hsub. destruct (decide (l = Top)) as [->|Hne].
      * rewrite cells_push_same in Hk. apply lookup_app_Some in Hk as [Hk|[Hk Hk']]; [by eapply S4|].
        apply list_lookup_singleton_Some in Hk' as [_ <-]. unfold msg'. simpl.
        apply ws_good_join; [by eapply S4|].
        apply (ws_good_ext _ _ _ _ (join (cur th1) (at_ Top n))); [by apply Hat|].
        intros l'. unfold handed_on, join. simpl. unfold join. lia.
      * rewrite Hcells in Hk by done. by eapply S4.
    + by apply Hsub.
    + intros i msg0 w. rewrite Hcells by done. intros Hi Hk Hw' j Hj. rewrite Hlow in Hj. rewrite Hhigh.
      eapply S6; [done|done|done|lia].
  - split; [done| | |]; apply Hsub; simpl; [by apply Hat|by apply Hat|done].
  - simpl. rewrite Hlat. unfold join. rewrite !at_same. unfold n, latest in *. lia.
  - intros l. simpl. unfold join. lia.
  - intros l. simpl. unfold join. lia.
Qed.

(** ** What others do to a thief *)

Lemma thief_ok_owner g sct ot ot' bots lo hi q o o' p th :
  thief_ok g sct ot bots lo hi q o p th → (ot <= ot')%nat →
  (∀ b a, o' = OPopFenced b a → o = o' ∨ (sct <= ot')%nat) →
  thief_ok g sct ot' bots lo hi q o' p th.
Proof.
  intros Hp Hle Ho.
  assert (∀ t, t <= Z.of_nat sct → (∀ b a, o = OPopFenced b a → b <= t → t <= Z.of_nat ot) →
    ∀ b a, o' = OPopFenced b a → b <= t → t <= Z.of_nat ot') as Hseen.
  { intros t Ht Hs b a Hb Hbt. destruct (Ho b a Hb) as [->|]; [|lia]. specialize (Hs b a Hb Hbt). lia. }
  destruct p; simpl in *; try done.
  - destruct Hp as (H1 & H2 & H3). split_and!; [done|done|]. intros b a Hb.
    destruct (Ho b a Hb) as [->|]; [|left; lia]. destruct (H3 b a Hb); [left; lia|by right].
  - destruct Hp as (H1 & H2 & H3). split_and!; [done|done|by apply Hseen].
  - destruct Hp as (H1 & H2 & H3 & H4). split_and!; [done|done|done|by apply Hseen].
  - destruct Hp as (H1 & H2 & H3). split_and!; [done|done|by apply Hseen].
Qed.

Lemma thief_ok_learn g sct ot bots lo hi q o p th th' :
  thief_ok g sct ot bots lo hi q o p th → view_le (cur th) (cur th') →
  thief_ok g sct ot bots lo hi q o p th'.
Proof.
  intros Hp Hle. pose proof (Hle Top). pose proof (Hle Bottom). pose proof (Hle ArrayPtr).
  destruct p; simpl in *; try done; try lia.
  - destruct Hp as (H3 & H4 & H5). split_and!; [done| |].
    + intros Hl i msg w Hi. apply H4; [done|lia].
    + intros b a Hb. destruct (H5 b a Hb); [by left|right; lia].
  - destruct Hp as (H3 & H4 & H5). split_and!; [done| |done]. intros Hl. destruct (H4 Hl). split; [done|lia].
  - destruct Hp as (H3 & H4 & H5 & H6). split_and!; [done|lia| |done].
    intros Hl. destruct (H5 Hl) as (? & ? & ?). split_and!; [done|lia|done].
Qed.

Lemma thief_ok_fence g sct sct' ot bots lo hi q o p th :
  thief_ok g sct ot bots lo hi q o p th → (sct <= sct')%nat → thief_ok g sct' ot bots lo hi q o p th.
Proof. intros Hp Hle. destruct p; simpl in *; try done; (split; [lia|naive_solver]). Qed.

(** Once the top is past what the fences knew, no thief behind its fence can win. *)
Lemma thief_ok_gone g sct ot bots lo hi q lo' hi' q' o p th :
  thief_ok g sct ot bots lo hi q o p th → Z.of_nat sct < lo' →
  thief_ok g sct ot bots lo' hi' q' o p th.
Proof.
  intros Hp Hlt. destruct p; simpl in *; try done.
  - destruct Hp as (? & ? & ?). split_and!; [done|lia|done].
  - destruct Hp as (? & ? & ?). split_and!; [done|lia|done].
  - destruct Hp as (? & ? & ? & ?). split_and!; [done|done|lia|done].
  - destruct Hp as (? & ? & ?). split_and!; [done|lia|done].
Qed.

(** ** Steps of a thief *)

Lemma sc_top g q m cs : shared_ok g q m cs → Z.of_nat (sc m Top) <= low m.
Proof. intros Hs. pose proof (ok_sc _ (sh_memory _ _ _ _ Hs) Top). unfold low. lia. Qed.

(** A step of a thief that stores nothing. *)
Lemma inv_thief_local g q s j p th p' th' :
  inv_with g q s → thieves s !! j = Some (p, th) → view_ok g q (mem s) (caps s) th' →
  thief_ok g (sc (mem s) Top) (cur (oview s) Top) (cells (mem s) Bottom)
    (low (mem s)) (high (mem s) q) q (owner s) p' th' →
  inv_with g q (set_thief s j (mem s) p' th').
Proof.
  intros [] Hj Hv Hp. split; simpl; try done.
  intros j' p0 th0 H0. apply list_lookup_insert_Some in H0 as [(<- & [= <- <-] & _)|[_ H0]]; [done|].
  by eapply inv_thieves0.
Qed.

Lemma newest_at (m : memory loc cell) l v : newest m l = Some v →
  ∀ msg, cells m l !! latest m l = Some msg → value msg = v.
Proof. intros Hn msg Hmsg%newest_lookup. congruence. Qed.

Lemma thief_checks g q s j t th n b th' :
  inv_with g q s → thieves s !! j = Some (TFenced t, th) →
  load Acquire Bottom n (mem s) th = Some (Word b, th') → t < b →
  inv_with g q (set_thief s j (mem s) (TCheck t) th').
Proof.
  intros Hi Hj Hl Hlt. destruct (inv_thieves _ _ _ Hi _ _ _ Hj) as [Hv (Hf & Hd & Hx)].
  pose proof (inv_shared _ _ _ Hi) as Hs.
  destruct (load_view _ _ _ _ _ _ _ _ _ _ Hs Hv Hl (or_introl eq_refl))
    as (Hv' & Hle & _ & _ & Hn & Hn' & msg & Hmsg & Hval).
  eapply inv_thief_local; [done|done|done|]. simpl. split_and!; [done| |].
  - intros Hlow. destruct (Hd Hlow n msg b) as [? ?]; [lia|done|done|done|]. split; [done|lia].
  - intros b' a Ho Hb'. destruct (Hx b' a Ho) as [|Hx']; [done|]. exfalso.
    pose proof (inv_owner _ _ _ Hi) as Hok. unfold owner_ok in Hok. rewrite Ho in Hok.
    destruct Hok as (Hnew & _).
    assert (n = latest (mem s) Bottom) as -> by (unfold latest in *; lia).
    pose proof (newest_at _ _ _ Hnew _ Hmsg). rewrite Hval in H. injection H as ->. lia.
Qed.

Lemma thief_loads_array g q s j t th n a th' :
  inv_with g q s → thieves s !! j = Some (TCheck t, th) →
  load Acquire ArrayPtr n (mem s) th = Some (Ptr a, th') →
  inv_with g q (set_thief s j (mem s) (TArray t a) th').
Proof.
  intros Hi Hj Hl. destruct (inv_thieves _ _ _ Hi _ _ _ Hj) as [Hv (Hf & Hd & Hx)].
  pose proof (inv_shared _ _ _ Hi) as Hs.
  destruct (load_view _ _ _ _ _ _ _ _ _ _ Hs Hv Hl (or_introl eq_refl))
    as (Hv' & Hle & _ & _ & Hn & Hn' & msg & Hmsg & Hval).
  assert (a = n) as -> by (pose proof (ms_array _ _ (sh_messages _ _ _ _ Hs) _ _ Hmsg); congruence).
  eapply inv_thief_local; [done|done|done|]. simpl. split_and!; [done|done| |done].
  intros Hlow. destruct (Hd Hlow) as [Hhi Hb]. split_and!; [done|specialize (Hle Bottom); lia|].
  destruct (vw_cur _ _ _ _ _ Hv t) as [H1 _]; [lia|]. destruct (H1 Hb). lia.
Qed.

(** A thief that can still take its position knows the newest store of its cell. *)
Lemma thief_knows_item g q s j t a th c :
  inv_with g q s → thieves s !! j = Some (TArray t a, th) → caps s !! a = Some c → low (mem s) = t →
  ∃ y, head q = Some y ∧ t < high (mem s) q ∧
    plain_read (item_at a c t) (mem s) th = Some (Content (Some y)).
Proof.
  intros Hi Hj Hc Hlow. destruct (inv_thieves _ _ _ Hi _ _ _ Hj) as [Hv (Hf & Ha & Hd & Hx)].
  pose proof (inv_shared _ _ _ Hi) as Hs. destruct (Hd Hlow) as (Hhi & Hb & Hba).
  unfold high in Hhi. destruct q as [|y q]; [simpl in Hhi; lia|]. exists y. split; [done|]. split; [done|].
  assert (item_at a c t = cell_of (caps s) a t) as -> by (unfold cell_of; by rewrite Hc).
  destruct (sh_items _ _ _ _ Hs 0%nat y eq_refl) as (_ & _ & Hit). cbv zeta in Hit.
  replace (low (mem s) + Z.of_nat 0) with t in Hit by lia.
  pose proof (proj1 (vw_closed _ _ _ _ _ Hv) ArrayPtr).
  destruct (Hit a ltac:(lia)) as [Hlatest Hval].
  assert (wr g a t <= cur th (cell_of (caps s) a t))%nat as Hknow.
  { destruct (vw_cur _ _ _ _ _ Hv t) as [H1 H2]; [unfold high; simpl; lia|]. destruct (H1 Hb) as [_ Hw].
    destruct (decide (a = birth g t)) as [->|Hne]; [lia|]. specialize (H2 a ltac:(lia)). lia. }
  rewrite plain_read_defined; [|apply Hv|lia].
  destruct (latest_message (mem s) (cell_of (caps s) a t)) as [msg Hmsg]; [apply Hs|].
  rewrite (newest_lookup _ _ _ Hmsg). f_equal. eapply Hval; [|done]. lia.
Qed.

Lemma thief_gets_item g q s j t a th c x :
  inv_with g q s → thieves s !! j = Some (TArray t a, th) → caps s !! a = Some c →
  plain_read (item_at a c t) (mem s) th = Some (Content x) ∨
  plain_read (item_at a c t) (mem s) th = None →
  inv_with g q (set_thief s j (mem s) (TItem t x) th).
Proof.
  intros Hi Hj Hc Hr. destruct (inv_thieves _ _ _ Hi _ _ _ Hj) as [Hv (Hf & Ha & Hd & Hx)].
  eapply inv_thief_local; [done|done|done|]. simpl. split_and!; [done| |done]. intros Hlow.
  destruct (thief_knows_item _ _ _ _ _ _ _ _ Hi Hj Hc Hlow) as (y & Hy & Hhi & Hread).
  split; [done|]. exists y. split; [|done]. destruct Hr as [Hr|Hr]; congruence.
Qed.

(** The fences of another thread leave the owner's part as it is. *)
Lemma owner_ok_fence s s' q :
  owner_ok s q → owner s' = owner s → oview s' = oview s → caps s' = caps s →
  cells (mem s') = cells (mem s) → view_le (sc (mem s)) (sc (mem s')) → owner_ok s' q.
Proof.
  intros Hok Ho Hv Hc Hm Hsc. unfold owner_ok, high, low, covers, newest, latest in *.
  rewrite Ho, Hv, Hc, Hm. specialize (Hsc Bottom).
  destruct (owner s); try done; naive_solver lia.
Qed.

Lemma thief_fences g q s j t th m th' :
  inv_with g q s → thieves s !! j = Some (TTop t, th) → fence_seq_cst (mem s) th = (m, th') →
  inv_with g q (set_thief s j m (TFenced t) th').
Proof.
  intros Hi Hj Hf. destruct (inv_thieves _ _ _ Hi _ _ _ Hj) as [Hv Hp]. simpl in Hp.
  destruct (fence_shared _ _ _ _ _ _ _ (inv_shared _ _ _ Hi) Hv Hf)
    as (Hs & Hv' & Hcells & Hsc & _ & _ & Hle & Hscle).
  assert (∀ l, latest m l = latest (mem s) l) as Hlat by (intros; unfold latest; by rewrite Hcells).
  assert (low m = low (mem s)) as Hlow by (unfold low; by rewrite Hlat).
  assert (high m q = high (mem s) q) as Hhigh by (unfold high; by rewrite Hlow).
  pose proof (fence_view g q (mem s) m (caps s)) as Hvok.
  pose proof Hi as []. split; simpl; rewrite ?Hlow, ?Hhigh; try done.
  - destruct inv_sctop0; [left|by right]. specialize (Hscle Top). lia.
  - by apply Hvok.
  - destruct inv_oknows0 as [K1 K2]. split; intros l Hl; rewrite Hlat; [by apply K1|by apply K2].
  - by eapply owner_ok_fence.
  - intros j' p0 th0 H0. apply list_lookup_insert_Some in H0 as [(<- & [= <- <-] & _)|[_ H0]].
    + split; [done|]. simpl. split_and!.
      * specialize (Hle Top). rewrite Hsc. lia.
      * intros Ht i msg w Hi' Hmsg Hval Hw. rewrite Hcells in Hmsg.
        eapply (sh_fences _ _ _ _ inv_shared0); [|done|done|lia]. specialize (Hscle Bottom). rewrite Hsc in Hscle. lia.
      * intros b a Ho. right. unfold owner_ok in inv_owner0. rewrite Ho in inv_owner0.
        destruct inv_owner0 as (_ & _ & _ & _ & Hb & _). specialize (Hscle Bottom).
        rewrite Hsc in Hscle. unfold latest in Hb. rewrite Hcells. lia.
    + destruct (inv_thieves0 _ _ _ H0) as [H1 H2]. split; [by apply Hvok|]. rewrite Hcells.
      eapply thief_ok_fence; [exact H2|apply Hscle].
Qed.
Lemma thief_loads_top g q s j th n t th' :
  inv_with g q s → thieves s !! j = Some (TIdle, th) →
  load Acquire Top n (mem s) th = Some (Word t, th') →
  inv_with g q (set_thief s j (mem s) (TTop t) th').
Proof.
  intros Hi Hj Hl. destruct (inv_thieves _ _ _ Hi _ _ _ Hj) as [Hv _].
  pose proof (inv_shared _ _ _ Hi) as Hs.
  destruct (load_view _ _ _ _ _ _ _ _ _ _ Hs Hv Hl (or_introl eq_refl))
    as (Hv' & _ & _ & _ & _ & Hn & _).
  apply (load_top _ _ _ _ _ _ _ (sh_messages _ _ _ _ Hs)) in Hl as ->.
  eapply inv_thief_local; [done|done|done|]. simpl. lia.
Qed.

(** A thief that gives up. *)
Lemma thief_leaves g q s j p th o l n v th' :
  inv_with g q s → thieves s !! j = Some (p, th) → load o l n (mem s) th = Some (v, th') →
  acquires o = true ∨ l ≠ Bottom ∧ l ≠ ArrayPtr → inv_with g q (set_thief s j (mem s) TIdle th').
Proof.
  intros Hi Hj Hl Ho. destruct (inv_thieves _ _ _ Hi _ _ _ Hj) as [Hv _].
  destruct (load_view _ _ _ _ _ _ _ _ _ _ (inv_shared _ _ _ Hi) Hv Hl Ho) as (Hv' & _).
  by eapply inv_thief_local.
Qed.

Lemma thief_learns_inv g q s j p th from :
  inv_with g q s → thieves s !! j = Some (p, th) →
  (from = cur (oview s) ∨ ∃ k q th', thieves s !! k = Some (q, th') ∧ from = cur th') →
  inv_with g q (set_thief s j (mem s) p (learn from th)).
Proof.
  intros Hi Hj Hf. destruct (inv_thieves _ _ _ Hi _ _ _ Hj) as [Hv Hp].
  assert (view_ok g q (mem s) (caps s) (learn from th)) as Hv'.
  { destruct Hf as [->|(k & p' & th' & Hk & ->)]; apply learn_view; try done; [apply Hi|].
    by destruct (inv_thieves _ _ _ Hi _ _ _ Hk). }
  eapply inv_thief_local; [done|done|done|]. eapply thief_ok_learn; [done|apply join_l].
Qed.

Lemma owner_ok_stolen g x q s s' :
  inv_with g (x :: q) s → owner s' = owner s → oview s' = oview s → caps s' = caps s →
  high (mem s') q = high (mem s) (x :: q) → low (mem s') = low (mem s) + 1 →
  (∀ l, l ≠ Top → cells (mem s') l = cells (mem s) l) → sc (mem s') = sc (mem s) →
  (∀ b a, owner s = OPopFenced b a → b <= low (mem s) → low (mem s) <= Z.of_nat (cur (oview s) Top)) →
  owner_ok s' q.
Proof.
  intros Hi Ho Hv Hc Hh Hl Hm Hsc Hseen. pose proof (inv_owner _ _ _ Hi) as Hok.
  assert (∀ l, l ≠ Top → latest (mem s') l = latest (mem s) l) as Hlat
    by (intros; unfold latest; by rewrite Hm).
  assert (covers (mem s) (rel (oview s)) → covers (mem s') (rel (oview s))) as Hcov
    by (intros H l ??; rewrite Hlat by done; by apply H).
  assert (∀ l, l ≠ Top → newest (mem s') l = newest (mem s) l) as Hnew
    by (intros; unfold newest; by rewrite Hm).
  assert (high (mem s) (x :: q) = low (mem s) + 1 + Z.of_nat (length q)) as Hhigh
    by (unfold high; simpl; lia).
  unfold owner_ok in *. rewrite Ho, Hv, Hc, Hh, Hl, ?Hlat, ?Hnew, ?Hsc by done.
  destruct (owner s); try done.
  - destruct Hok as [H1 H2]. split; [done|by apply Hcov].
  - by rewrite Hnew.
  - destruct Hok as (H1 & H2 & H3 & H4). split_and!; try done. by apply Hcov.
  - destruct Hok as (H1 & H2 & H3 & H4 & H5 & H6). split_and!; try done; [by apply Hcov|].
    destruct (decide (b <= low (mem s))) as [Hb|]; [|left; lia]. right. specialize (Hseen b a eq_refl Hb). lia.
  - destruct Hok as (H1 & H2 & H3 & H4 & H5 & H6). split_and!; try done; [by apply Hcov|].
    intros Hb. pose proof (proj1 (vw_closed _ _ _ _ _ (inv_oview _ _ _ Hi)) Top). unfold low in *. lia.
  - by destruct Hok as (_ & _ & [=] & _).
Qed.

Lemma covers_cells m m' v :
  (∀ l, l ≠ Top → cells m' l = cells m l) → covers m v → covers m' v.
Proof. intros Hm H l ??. unfold latest. rewrite Hm by done. by apply H. Qed.

Lemma knows_cells m m' v :
  (∀ l, l ≠ Top → cells m' l = cells m l) → knows_own m v → knows_own m' v.
Proof. intros Hm H l ?. unfold latest. rewrite Hm by done. by apply H. Qed.

(** A view other than the taker's, when the top moves. *)
Lemma view_taken g x q m m' cs th :
  view_ok g (x :: q) m cs th → low m' = low m + 1 → high m' q = high m (x :: q) → memory_le m m' →
  view_ok g q m' cs th.
Proof.
  intros [H1 H2 H3 H4] Hl Hh Hle.
  split; [by eapply thread_closed_mono|..]; rewrite Hl, Hh; eapply good_sub; done || lia.
Qed.

Lemma thief_wins g q s j t x th m th' :
  inv_with g q s → thieves s !! j = Some (TItem t (Some x), th) →
  exchange SeqCst Top (Word (t + 1)) (mem s) th = Some (Word t, m, th') →
  ∃ q', inv_with g q' (record_event (set_thief s j m TIdle th') (Stolen x)).
Proof.
  intros Hi Hj He. destruct (inv_thieves _ _ _ Hi _ _ _ Hj) as [Hv (Hf & Hd & Hx)].
  assert (low (mem s) = t) as Hlow.
  { apply exchange_inv in He as (msg & Hn & Hval & _); [|apply Hi].
    destruct (ms_top _ _ (sh_messages _ _ _ _ (inv_shared _ _ _ Hi)) _ _ Hn). unfold low. congruence. }
  destruct (Hd Hlow) as (_ & y & [= <-] & Hq). destruct q as [|x' q]; [done|]. injection Hq as ->.
  destruct (exchange_shared _ _ _ _ _ _ _ _ _ (inv_shared _ _ _ Hi) Hv He)
    as (_ & Hlow' & Hhigh & Hs & Hv' & _ & _ & _ & _ & Hcells & Hsc & Hle).
  pose proof (sc_top _ _ _ _ (inv_shared _ _ _ Hi)).
  exists q. pose proof Hi as []. split; simpl; rewrite ?Hlow', ?Hhigh, ?Hsc; try done.
  - left. lia.
  - by eapply view_taken.
  - destruct inv_oknows0. split; by eapply knows_cells.
  - eapply (owner_ok_stolen g x q s); try done. intros b a Ho Hb. rewrite Hlow in *. by eapply Hx.
  - intros j' p0 th0 H0. rewrite Hcells by done.
    apply list_lookup_insert_Some in H0 as [(<- & [= <- <-] & _)|[_ H0]]; [by split|].
    destruct (inv_thieves0 _ _ _ H0) as [H1 H2]. split; [by eapply view_taken|].
    eapply thief_ok_gone; [exact H2|lia].
  - eapply deque_snoc; [done|]. constructor.
Qed.
(** ** Steps of the owner that store nothing *)

Lemma knows_mono m v w : view_le v w → knows_own m v → knows_own m w.
Proof. intros Hle H l Hl. specialize (H l Hl). specialize (Hle l). lia. Qed.

Lemma inv_owner_local g q s o th :
  inv_with g q s → view_ok g q (mem s) (caps s) th → view_le (cur (oview s)) (cur th) →
  view_le (acq (oview s)) (acq th) → owner_ok (set_owner s (mem s) o th) q →
  (∀ b a, o = OPopFenced b a → owner s = o) → inv_with g q (set_owner s (mem s) o th).
Proof.
  intros [] Hv Hc Ha Hok Ho. specialize (Hc Top) as Htop. split; simpl; try done.
  - destruct inv_sctop0; [by left|right; lia].
  - destruct inv_oknows0. split; by eapply knows_mono.
  - lia.
  - intros j p th0 Hj. destruct (inv_thieves0 _ _ _ Hj). split; [done|].
    eapply thief_ok_owner; [done|done|]. intros b a Hb. left. by eapply Ho.
Qed.

Lemma inv_record g q s e : inv_with g q s → deque_step q e q → inv_with g q (record_event s e).
Proof. intros [] He. split; simpl; try done. by eapply deque_snoc. Qed.

(** The owner loads [top_]. *)
Lemma owner_loads_top g q s o n t th :
  inv_with g q s → load o Top n (mem s) (oview s) = Some (Word t, th) →
  view_ok g q (mem s) (caps s) th ∧ view_le (cur (oview s)) (cur th) ∧
  view_le (acq (oview s)) (acq th) ∧ rel th = rel (oview s) ∧
  Z.of_nat (cur (oview s) Top) <= t <= low (mem s) ∧ t <= Z.of_nat (cur th Top).
Proof.
  intros Hi Hl. pose proof (inv_shared _ _ _ Hi) as Hs.
  destruct (load_view _ _ _ _ _ _ _ _ _ _ Hs (inv_oview _ _ _ Hi) Hl)
    as (Hv & Hle & Hla & Hr & Hn & Hn' & _); [by right|].
  apply (load_top _ _ _ _ _ _ _ (sh_messages _ _ _ _ Hs)) in Hl as ->.
  unfold low. split_and!; try done; lia.
Qed.

(** A value the owner stored, as it reads it. *)
Lemma owner_reads (m : memory loc cell) th l v w :
  plain_read l m th = Some v → newest m l = Some w → v = w.
Proof. intros [_ H]%plain_read_inv H'. congruence. Qed.

Lemma newest_array g q m cs a :
  shared_ok g q m cs → newest m ArrayPtr = Some (Ptr a) → a = latest m ArrayPtr.
Proof.
  intros Hs Hn. destruct (latest_message m ArrayPtr) as [msg Hmsg]; [apply Hs|].
  pose proof (newest_at _ _ _ Hn _ Hmsg). pose proof (ms_array _ _ (sh_messages _ _ _ _ Hs) _ _ Hmsg).
  congruence.
Qed.

Lemma owner_push_loads g q s x b n t a th :
  inv_with g q s → owner s = OIdle → plain_read Bottom (mem s) (oview s) = Some (Word b) →
  load Acquire Top n (mem s) (oview s) = Some (Word t, th) →
  plain_read ArrayPtr (mem s) (oview s) = Some (Ptr a) →
  inv_with g q (set_owner s (mem s) (OPush x b t a) th).
Proof.
  intros Hi Ho Hb Hl Ha. destruct (owner_loads_top _ _ _ _ _ _ _ Hi Hl) as (Hv & Hle & Hla & _ & Ht & Ht').
  pose proof (inv_owner _ _ _ Hi) as Hok. unfold owner_ok in Hok. rewrite Ho in Hok. destruct Hok as [Hn _].
  pose proof (owner_reads _ _ _ _ _ Hb Hn) as [= ->]. apply plain_read_inv in Ha as [_ Ha].
  apply inv_owner_local; try done. unfold owner_ok. simpl. split_and!; try done.
  - by apply (newest_array g q _ (caps s)); [apply Hi|].
  - pose proof (inv_room _ _ _ Hi). lia.
Qed.

Lemma capacity_at g q m cs c :
  shared_ok g q m cs → cs !! latest m ArrayPtr = Some c → capacity_now cs = c.
Proof.
  intros Hs Hc. destruct (ms_caps _ _ (sh_messages _ _ _ _ Hs)) as [Hlen _].
  unfold capacity_now. rewrite last_lookup, Hlen. simpl. by rewrite Hc.
Qed.

Lemma owner_push_fits g q s x b t a c :
  inv_with g q s → owner s = OPush x b t a → caps s !! a = Some c → (c - 1 <? b - t) = false →
  inv_with g q (set_owner s (mem s) (OPushReady x b a) (oview s)).
Proof.
  intros Hi Ho Hc Hlt. pose proof (inv_owner _ _ _ Hi) as Hok. unfold owner_ok in Hok. rewrite Ho in Hok.
  destruct Hok as (Hn & Hh & -> & Ht & _). apply inv_owner_local; try done; [apply Hi|].
  unfold owner_ok. simpl. split_and!; try done.
  rewrite (capacity_at _ _ _ _ _ (inv_shared _ _ _ Hi) Hc). apply Z.ltb_ge in Hlt. lia.
Qed.

(** What the owner reads in its array for a position. *)
Lemma newest_item g q m cs c k x :
  shared_ok g q m cs → q !! k = Some x → cs !! latest m ArrayPtr = Some c →
  newest m (item_at (latest m ArrayPtr) c (low m + Z.of_nat k)) = Some (Content (Some x)).
Proof.
  intros Hs Hk Hc. destruct (sh_items _ _ _ _ Hs k x Hk) as (_ & Hb & Hit). cbv zeta in *.
  assert (item_at (latest m ArrayPtr) c (low m + Z.of_nat k) =
    cell_of cs (latest m ArrayPtr) (low m + Z.of_nat k)) as -> by (unfold cell_of; by rewrite Hc).
  destruct (Hit (latest m ArrayPtr)) as [Hw Hval]; [lia|].
  destruct (latest_message m (cell_of cs (latest m ArrayPtr) (low m + Z.of_nat k))) as [msg Hmsg];
    [apply Hs|].
  rewrite (newest_lookup _ _ _ Hmsg). f_equal. eapply Hval; [|done]. lia.
Qed.

Lemma owner_pop_last g q s b a n th c x :
  inv_with g q s → owner s = OPopFenced b a → load Relaxed Top n (mem s) (oview s) = Some (Word b, th) →
  caps s !! a = Some c → plain_read (item_at a c b) (mem s) th = Some (Content x) →
  inv_with g q (set_owner s (mem s) (OPopLast b x) th).
Proof.
  intros Hi Ho Hl Hc Hr. destruct (owner_loads_top _ _ _ _ _ _ _ Hi Hl) as (Hv & Hle & Hla & Hrel & Ht & Ht').
  pose proof (inv_owner _ _ _ Hi) as Hok. unfold owner_ok in Hok. rewrite Ho in Hok.
  destruct Hok as (Hn & Hh & -> & Hcov & Hsc & _). apply inv_owner_local; try done.
  unfold owner_ok. simpl. rewrite Hrel. split_and!; try done. intros Hlow.
  unfold high in Hh. destruct q as [|y [|z q]]; simpl in Hh; [lia| |lia]. exists y. split; [|done].
  pose proof (newest_item _ _ _ _ _ 0 y (inv_shared _ _ _ Hi) eq_refl Hc) as Hnew.
  replace (low (mem s) + Z.of_nat 0) with b in Hnew by lia.
  by pose proof (owner_reads _ _ _ _ _ Hr Hnew) as [= ->].
Qed.

(** The owner finds that the last item went to a thief, or that there was none. *)
Lemma owner_gives_up g q s o n t th b :
  inv_with g q s → load o Top n (mem s) (oview s) = Some (Word t, th) → b < t →
  newest (mem s) Bottom = Some (Word b) → high (mem s) q = b + 1 → covers (mem s) (rel (oview s)) →
  inv_with g q (record_event (set_owner s (mem s) (ORaise b) th) PopNothing).
Proof.
  intros Hi Hl Hlt Hn Hh Hcov.
  destruct (owner_loads_top _ _ _ _ _ _ _ Hi Hl) as (Hv & Hle & Hla & Hrel & Ht & _).
  assert (q = []) as Hq by (unfold high in Hh; destruct q; [done|simpl in Hh; lia]).
  apply inv_record; [|subst; constructor]. apply inv_owner_local; try done.
  unfold owner_ok. simpl. by rewrite Hrel.
Qed.

Lemma owner_pop_loses g q s b x n t th :
  inv_with g q s → owner s = OPopLast b x → load Relaxed Top n (mem s) (oview s) = Some (Word t, th) →
  t ≠ b → inv_with g q (record_event (set_owner s (mem s) (ORaise b) th) PopNothing).
Proof.
  intros Hi Ho Hl Hne. pose proof (inv_owner _ _ _ Hi) as Hok. unfold owner_ok in Hok. rewrite Ho in Hok.
  destruct Hok as (Hn & Hh & Hcov & _ & Hb & _). destruct (owner_loads_top _ _ _ _ _ _ _ Hi Hl) as (_ & _ & _ & _ & Ht & _).
  eapply owner_gives_up; try done. lia.
Qed.

Lemma owner_pop_empty g q s b a n t th :
  inv_with g q s → owner s = OPopFenced b a → load Relaxed Top n (mem s) (oview s) = Some (Word t, th) →
  b < t → inv_with g q (record_event (set_owner s (mem s) (ORaise b) th) PopNothing).
Proof.
  intros Hi Ho Hl Hlt. pose proof (inv_owner _ _ _ Hi) as Hok. unfold owner_ok in Hok. rewrite Ho in Hok.
  destruct Hok as (Hn & Hh & _ & Hcov & _). by eapply owner_gives_up.
Qed.

Lemma owner_ok_learn s q th :
  owner_ok s q → view_le (cur (oview s)) (cur th) → rel th = rel (oview s) →
  owner_ok (set_owner s (mem s) (owner s) th) q.
Proof.
  intros Hok Hle Hr. specialize (Hle Top). unfold owner_ok in *. simpl. rewrite Hr.
  destruct (owner s); naive_solver lia.
Qed.

Lemma owner_learns_inv g q s j p th :
  inv_with g q s → thieves s !! j = Some (p, th) →
  inv_with g q (set_owner s (mem s) (owner s) (learn (cur th) (oview s))).
Proof.
  intros Hi Hj. destruct (inv_thieves _ _ _ Hi _ _ _ Hj) as [Hv _]. apply inv_owner_local; try done.
  - apply learn_view; [apply Hi|done].
  - apply join_l.
  - apply join_l.
  - apply owner_ok_learn; [apply Hi|apply join_l|done].
Qed.

Lemma owner_pop_fences g q s b a m th :
  inv_with g q s → owner s = OPopLowered b a → fence_seq_cst (mem s) (oview s) = (m, th) →
  inv_with g q (set_owner s m (OPopFenced b a) th).
Proof.
  intros Hi Ho Hf.
  destruct (fence_shared _ _ _ _ _ _ _ (inv_shared _ _ _ Hi) (inv_oview _ _ _ Hi) Hf)
    as (Hs & Hv' & Hcells & Hsc & Heq & Hrel & Hle & Hscle).
  pose proof (fence_view g q (mem s) m (caps s)) as Hvok.
  assert (∀ l, latest m l = latest (mem s) l) as Hlat by (intros; unfold latest; by rewrite Hcells).
  assert (low m = low (mem s)) as Hlow by (unfold low; by rewrite Hlat).
  assert (high m q = high (mem s) q) as Hhigh by (unfold high; by rewrite Hlow).
  pose proof Hi as []. specialize (Hle Top) as Htop. specialize (Hscle Top) as Hsctop.
  unfold owner_ok in inv_owner0. rewrite Ho in inv_owner0. destruct inv_owner0 as (Hn & Hh & Ha & Hcov).
  assert (low (mem s) - 1 <= Z.of_nat (cur th Top)) as Hkt
    by (rewrite Hsc in Hsctop; destruct inv_sctop0; lia).
  assert (knows_own m (cur th)) as Hk.
  { intros l Hl. rewrite Hlat. by apply (knows_mono _ _ _ Hle (proj1 inv_oknows0)). }
  split; simpl; rewrite ?Hlow, ?Hhigh; try done.
  - by right.
  - split; [done|by rewrite <- Heq].
  - lia.
  - unfold owner_ok. simpl. rewrite Hhigh, Hlow, Hlat. split_and!; try done.
    + unfold newest in *. by rewrite Hcells.
    + rewrite <- Hrel. by apply knows_covers.
    + rewrite Hsc. by apply Hk.
    + unfold high in Hh. lia.
  - intros j p th0 Hj. destruct (inv_thieves0 _ _ _ Hj) as [H1 H2]. split; [by apply Hvok|]. rewrite Hcells.
    eapply thief_ok_owner; [by eapply thief_ok_fence; [exact H2|apply Hscle]|lia|].
    intros b' a' _. right. by rewrite Hsc.
Qed.
(** ** The owner takes *)

Lemma items_prefix g cs m lo q q' :
  items_ok g cs m lo (q ++ q') → items_ok g cs m lo q.
Proof. intros H k x Hk. apply H. by apply lookup_app_l_Some. Qed.

(** What a thief relies on when the owner takes the last item behind its fence. *)
Lemma thief_ok_popped g sct ot ot' bots lo q x b a msg p th :
  thief_ok g sct ot bots lo (b + 1) (q ++ [x]) (OPopFenced b a) p th →
  lo + Z.of_nat (length q) = b → Z.of_nat ot < b →
  bots !! pred (length bots) = Some msg → value msg = Word b → (length bots ≠ 0)%nat →
  thief_ok g sct ot' bots lo b q OIdle p th.
Proof.
  intros Hp Hlen Hot Hmsg Hval Hne.
  assert (∀ y, lo < b → head (q ++ [x]) = Some y → head q = Some y) as Hhead.
  { intros y Hb. destruct q; [simpl in Hlen; lia|done]. }
  assert (∀ t, (∀ b' a', OPopFenced b a = OPopFenced b' a' → b' <= t → t <= Z.of_nat ot) → t < b) as Hlt.
  { intros t Ht. destruct (decide (t < b)); [done|]. specialize (Ht b a eq_refl). lia. }
  destruct p; simpl in *; try done.
  - destruct Hp as (H1 & H2 & H3). split_and!; [done| |done].
    intros Hl i m w Hi Hm Hw Htw. destruct (H2 Hl i m w Hi Hm Hw Htw). split; [|done].
    destruct (decide (t < b)); [done|]. destruct (H3 b a eq_refl) as [|Hk]; [lia|].
    apply lookup_lt_Some in Hm as Hlt'. assert (i = pred (length bots)) as -> by lia.
    rewrite Hmsg in Hm. injection Hm as <-. rewrite Hval in Hw. injection Hw as <-. lia.
  - destruct Hp as (H1 & H2 & H3). split_and!; [done| |done].
    intros Hl. destruct (H2 Hl). split; [by apply Hlt|done].
  - destruct Hp as (H1 & H2 & H3 & H4). split_and!; [done|done| |done].
    intros Hl. destruct (H3 Hl) as (? & ? & ?). split_and!; [by apply Hlt|done|done].
  - destruct Hp as (H1 & H2 & H3). split_and!; [done| |done].
    intros Hl. destruct (H2 Hl) as (? & y & ? & Hh). pose proof (Hlt _ H3). split; [done|].
    exists y. split; [done|]. apply Hhead; [lia|done].
Qed.

Lemma owner_pop_takes g q s b a n t th c x :
  inv_with g q s → owner s = OPopFenced b a →
  load Relaxed Top n (mem s) (oview s) = Some (Word t, th) → t < b →
  caps s !! a = Some c → plain_read (item_at a c b) (mem s) th = Some (Content (Some x)) →
  ∃ q', inv_with g q' (record_event (set_owner s (mem s) OIdle th) (Popped x)).
Proof.
  intros Hi Ho Hl Hlt Hc Hr. destruct (owner_loads_top _ _ _ _ _ _ _ Hi Hl) as (Hv & Hle & Hla & Hrel & Ht & Ht').
  pose proof (inv_owner _ _ _ Hi) as Hok. unfold owner_ok in Hok. rewrite Ho in Hok.
  destruct Hok as (Hn & Hh & -> & Hcov & Hsc & Hlow). assert (low (mem s) <= b) as Hlb by lia.
  destruct q as [|y q _] using rev_ind; [unfold high in Hh; simpl in Hh; lia|].
  assert (low (mem s) + Z.of_nat (length q) = b) as Hlen
    by (unfold high in Hh; rewrite length_app in Hh; simpl in Hh; lia).
  assert (y = x) as ->.
  { pose proof (newest_item _ _ _ _ _ (length q) y (inv_shared _ _ _ Hi)
      (list_lookup_middle _ _ _ _ eq_refl) Hc) as Hnew.
    rewrite Hlen in Hnew. by pose proof (owner_reads _ _ _ _ _ Hr Hnew) as [= ->]. }
  assert (high (mem s) q = b) as Hhigh by (unfold high; lia).
  assert (∀ v, good g (caps s) (low (mem s)) (high (mem s) (q ++ [x])) v →
    good g (caps s) (low (mem s)) b v) as Hsub by (intros; eapply good_sub; [done|lia|lia]).
  exists q. pose proof Hi as []. specialize (Hle Top) as Htop. split; simpl; rewrite ?Hhigh; try done.
  - destruct inv_shared0 as [S1 S2 S3 S4 S5 S6]. split; rewrite ?Hhigh; try done.
    + by eapply items_prefix.
    + intros l k msg Hk. apply Hsub. by eapply S4.
    + by apply Hsub.
    + intros i msg w Hw Hm Hval j Hj. destruct (S6 i msg w Hw Hm Hval j Hj). split; [|done].
      apply lookup_lt_Some in Hm as Hlt'. assert (i = latest (mem s) Bottom) as -> by (unfold latest in *; lia).
      rewrite (newest_at _ _ _ Hn _ Hm) in Hval. injection Hval as <-. lia.
  - destruct inv_sctop0; [by left|right; lia].
  - destruct Hv. split; rewrite ?Hhigh; auto.
  - destruct inv_oknows0. split; by eapply knows_mono.
  - lia.
  - unfold owner_ok. simpl. rewrite Hhigh, Hrel. done.
  - intros j p th0 Hj. destruct (inv_thieves0 _ _ _ Hj) as [[] H2]. split; [split; rewrite ?Hhigh; auto|].
    rewrite Ho, Hh in H2. destruct (latest_message (mem s) Bottom) as [msg Hmsg]; [apply inv_shared0|].
    eapply thief_ok_popped; [exact H2|done|lia|exact Hmsg|by eapply newest_at|].
    apply lookup_lt_Some in Hmsg. lia.
  - eapply deque_snoc; [done|]. constructor.
Qed.

Lemma owner_pop_wins g q s b x m th :
  inv_with g q s → owner s = OPopLast b (Some x) →
  exchange SeqCst Top (Word (b + 1)) (mem s) (oview s) = Some (Word b, m, th) →
  ∃ q', inv_with g q' (record_event (set_owner s m (ORaise b) th) (Popped x)).
Proof.
  intros Hi Ho He. pose proof (inv_owner _ _ _ Hi) as Hok. unfold owner_ok in Hok. rewrite Ho in Hok.
  destruct Hok as (Hn & Hh & Hcov & Hsc & Hb & Hlast).
  assert (low (mem s) = b) as Hlow.
  { apply exchange_inv in He as (msg & Hmsg & Hval & _); [|apply Hi].
    destruct (ms_top _ _ (sh_messages _ _ _ _ (inv_shared _ _ _ Hi)) _ _ Hmsg). unfold low. congruence. }
  destruct (Hlast Hlow) as (y & [= <-] & ->).
  destruct (exchange_shared _ _ _ _ _ _ _ _ _ (inv_shared _ _ _ Hi) (inv_oview _ _ _ Hi) He)
    as (_ & Hlow' & Hhigh & Hs & Hv' & Htop & Hle & Hla & Hrel & Hcells & Hsc' & Hmle).
  pose proof (sc_top _ _ _ _ (inv_shared _ _ _ Hi)).
  exists []. pose proof Hi as []. split; simpl; rewrite ?Hlow', ?Hhigh, ?Hsc'; try done.
  - right. unfold low in *. lia.
  - destruct inv_oknows0. split; (eapply knows_cells; [done|]); by eapply knows_mono.
  - specialize (Hle Top). lia.
  - unfold owner_ok. simpl. rewrite Hhigh, Hrel. split_and!; try done.
    + unfold newest in *. by rewrite Hcells.
    + by eapply covers_cells.
  - intros j p th0 Hj. rewrite Hcells by done. destruct (inv_thieves0 _ _ _ Hj) as [H1 H2].
    split; [by eapply view_taken|]. eapply (thief_ok_owner _ _ (cur (oview s) Top)); [|apply Hle|done].
    eapply thief_ok_gone; [exact H2|lia].
  - eapply deque_snoc; [done|]. apply (dq_pop []).
Qed.
(** ** The owner stores [bottom_] *)

(** What a store of the owner leaves: the newest message is its own, and it knows it. *)
Record stored (m m' : memory loc cell) (th th' : thread loc) (l : loc) (v : cell) (carried : view loc) : Prop := {
  sd_cells : cells m' l = cells m l ++ [{| value := v; carries := carried; by_rmw := false |}];
  sd_other : ∀ l', l' ≠ l → cells m' l' = cells m l';
  sd_sc : sc m' = sc m;
  sd_ok : memory_ok m' ∧ thread_closed m' th' ∧ memory_le m m';
  sd_cur : cur th' = join (cur th) (at_ l (length (cells m l)));
  sd_acq : acq th' = join (acq th) (at_ l (length (cells m l)));
  sd_rel : rel th' = rel th;
  sd_own : (length (cells m l) = latest m' l)%nat ∧ (0 < length (cells m l))%nat }.

Lemma store_stored o l v m th m' th' :
  memory_ok m → thread_closed m th → store o l v m th = Some (m', th') →
  stored m m' th th' l v (handed_on o l (length (cells m l)) (note l (length (cells m l)) th)).
Proof.
  intros Hm Hth Hst. destruct (store_ok _ _ _ _ _ _ _ Hm Hth Hst) as (? & ? & ?).
  apply store_inv in Hst as (_ & -> & ->). pose proof (ok_inhabited _ Hm l).
  split; try done; [apply cells_push_same|intros; by apply cells_push_other|].
  split; [|done]. rewrite latest_push_same by done. unfold latest. lia.
Qed.

Lemma stored_knows m m' th th' l v c (w w' : view loc) :
  stored m m' th th' l v c → w' = join w (at_ l (length (cells m l))) → knows_own m w → knows_own m' w'.
Proof.
  intros [] -> Hk l' Hl'. unfold join. destruct (decide (l' = l)) as [->|Hne].
  - rewrite at_same. lia.
  - unfold latest. rewrite sd_other0 by done. specialize (Hk l' Hl'). unfold latest in Hk. lia.
Qed.

Lemma stored_newest m m' th th' l v c : stored m m' th th' l v c → newest m' l = Some v.
Proof. intros []. unfold newest. by rewrite sd_cells0, last_snoc. Qed.

Lemma stored_newest_other m m' th th' l v c l' :
  stored m m' th th' l v c → l' ≠ l → newest m' l' = newest m l'.
Proof. intros [] Hne. unfold newest. by rewrite sd_other0. Qed.

Lemma stored_latest m m' th th' l v c l' :
  stored m m' th th' l v c → l' ≠ l → latest m' l' = latest m l'.
Proof. intros [] Hne. unfold latest. by rewrite sd_other0. Qed.

(** The messages after a store, one by one. *)
Lemma stored_lookup m m' th th' l v c l' i msg :
  stored m m' th th' l v c → cells m' l' !! i = Some msg →
  cells m l' !! i = Some msg ∨
  l' = l ∧ i = length (cells m l) ∧ msg = {| value := v; carries := c; by_rmw := false |}.
Proof.
  intros [] Hi. destruct (decide (l' = l)) as [->|Hne]; [|left; by rewrite sd_other0 in Hi].
  rewrite sd_cells0 in Hi. apply lookup_app_Some in Hi as [Hi|[Hi Hi']]; [by left|right].
  apply list_lookup_singleton_Some in Hi' as [Hi' <-]. split_and!; [done|lia|done].
Qed.

Lemma bottom_shared g q g' q' m cs th w m' th' c :
  shared_ok g q m cs → view_ok g q m cs th → covers m (rel th) →
  stored m m' th th' Bottom (Word w) c → c = join (at_ Bottom (length (cells m Bottom))) (rel th) →
  knows_own m (cur th) → knows_own m (acq th) → items_ok g' cs m' (low m) q' →
  (∀ v, closed m v → good g cs (low m) (high m q) v → good g' cs (low m) (high m q') v) →
  fences_ok g' m' (low m) (high m q') →
  shared_ok g' q' m' cs ∧ view_ok g' q' m' cs th'.
Proof.
  intros Hs Hv Hcov Hst -> Hk1 Hk2 Hit Hgood Hf.
  assert (low m' = low m) as Hlow by (unfold low; by rewrite (stored_latest _ _ _ _ _ _ _ _ Hst)).
  assert (high m' q' = high m q') as Hhigh by (unfold high; by rewrite Hlow).
  pose proof Hst as [Hcells Hoth Hsc (Hm' & Hth' & Hle) Hcur Hacq Hrel [Hlen _]].
  assert (∀ v, closed m' v → knows_own m' v → good g' cs (low m) (high m q') v) as Hnew
    by (intros; by apply (good_knows _ _ m'); [| |by apply knows_covers]).
  pose proof Hs as [S1 S2 S3 S4 S5 S6]. destruct Hth' as (C1 & C2 & C3). split.
  - split; rewrite ?Hlow, ?Hhigh; try done.
    + destruct S2 as [M1 M2 M3 M4 M5 M6].
      split; unfold latest in *; rewrite ?Hoth by done; try done.
      * intros i msg Hi. destruct (stored_lookup _ _ _ _ _ _ _ _ _ _ Hst Hi) as [Hi'|(_ & _ & ->)];
          [by eapply M2|by exists w].
      * intros a i. rewrite Hoth by done. apply M4.
      * intros a i. rewrite Hoth by done. apply M6.
    + intros l i msg Hi. destruct (stored_lookup _ _ _ _ _ _ _ _ _ _ Hst Hi) as [Hi'|(_ & _ & ->)].
      * apply Hgood; [by eapply ok_carries|by eapply S4].
      * simpl. apply (good_knows _ _ m'); [done| |].
        -- apply closed_join; [apply closed_at; lia|by rewrite <- Hrel].
        -- intros l' Ht Hb. rewrite (stored_latest _ _ _ _ _ _ _ _ Hst) by done.
           specialize (Hcov l' Ht Hb). unfold join. lia.
    + rewrite Hsc. apply Hgood; [apply S1|done].
  - split; rewrite ?Hlow, ?Hhigh; try done.
    + apply Hnew; [done|]. by eapply stored_knows.
    + apply Hnew; [done|]. by eapply stored_knows.
    + rewrite Hrel. apply Hgood; apply Hv.
Qed.
(** The deque may have grown at its bottom. *)
Lemma thief_ok_grown g g' sct ot bots bots' lo hi hi' q q' o o' p th :
  thief_ok g sct ot bots lo hi q o p th → (∀ b a, o' ≠ OPopFenced b a) → hi <= hi' →
  (lo < hi → born g' lo = born g lo ∧ birth g' lo = birth g lo ∧ head q' = head q) →
  (∀ i msg w, bots' !! i = Some msg → value msg = Word w →
     bots !! i = Some msg ∨ (lo < w → lo < hi' ∧ (born g' lo <= i)%nat)) →
  thief_ok g' sct ot bots' lo hi' q' o' p th.
Proof.
  intros Hp Ho Hhi Hg Hb. destruct p; simpl in *; try done.
  - destruct Hp as (H1 & H2 & H3). split_and!; [done| |by intros ? ? ?%Ho].
    intros Hl i msg w Hi Hm Hw Hlt. subst. destruct (Hb i msg w Hm Hw) as [Hold|Hnew]; [|by apply Hnew].
    destruct (H2 eq_refl i msg w Hi Hold Hw Hlt) as [Hlt' Hborn]. destruct (Hg Hlt') as (-> & _). lia.
  - destruct Hp as (H1 & H2 & H3). split_and!; [done| |by intros ? ? ?%Ho].
    intros Hl. destruct (H2 Hl) as [Hlt Hborn]. subst. destruct (Hg Hlt) as (-> & _). lia.
  - destruct Hp as (H1 & H2 & H3 & H4). split_and!; [done|done| |by intros ? ? ?%Ho].
    intros Hl. destruct (H3 Hl) as (Hlt & Hborn & Hbirth). subst.
    destruct (Hg Hlt) as (-> & -> & _). split_and!; [lia|done|done].
  - destruct Hp as (H1 & H2 & H3). split_and!; [done| |by intros ? ? ?%Ho].
    intros Hl. destruct (H2 Hl) as (Hlt & Hex). subst. destruct (Hg Hlt) as (_ & _ & ->).
    split; [lia|done].
Qed.

(** The rule for the owner's stores of [bottom_]; [th0] is what it knows just before. *)
Lemma inv_bottom g q g' q' s s' th0 w :
  inv_with g q s → view_ok g q (mem s) (caps s) th0 → cur th0 = cur (oview s) → acq th0 = acq (oview s) →
  covers (mem s) (rel th0) → store Relaxed Bottom (Word w) (mem s) th0 = Some (mem s', oview s') →
  caps s' = caps s → thieves s' = thieves s → (∀ b a, owner s' ≠ OPopFenced b a) →
  items_ok g' (caps s) (mem s') (low (mem s)) q' →
  (∀ v, closed (mem s) v → good g (caps s) (low (mem s)) (high (mem s) q) v →
    good g' (caps s) (low (mem s)) (high (mem s) q') v) →
  fences_ok g' (mem s') (low (mem s)) (high (mem s) q') →
  owner_ok s' q' → high (mem s) q' - Z.of_nat (cur (oview s) Top) <= capacity_now (caps s) →
  high (mem s) q <= high (mem s) q' →
  (low (mem s) < high (mem s) q → born g' (low (mem s)) = born g (low (mem s)) ∧
     birth g' (low (mem s)) = birth g (low (mem s)) ∧ head q' = head q) →
  (low (mem s) < w → low (mem s) < high (mem s) q' ∧
     (born g' (low (mem s)) <= length (cells (mem s) Bottom))%nat) →
  deque_run (trace s') q' → inv_with g' q' s'.
Proof.
  intros Hi Hv Hc Ha Hcov Hst Hcaps Hth Ho Hit Hgood Hf Hok Hroom Hgrow Hsame Hw Hrun. pose proof Hi as [].
  apply store_stored in Hst; [|apply inv_shared0|apply Hv]. destruct inv_oknows0 as [K1 K2].
  rewrite <- Hc in K1. rewrite <- Ha in K2.
  destruct (bottom_shared _ _ g' q' _ _ _ _ _ _ _ inv_shared0 Hv Hcov Hst eq_refl K1 K2 Hit Hgood Hf) as [Hs' Hv'].
  assert (low (mem s') = low (mem s)) as Hlow by (unfold low; by rewrite (stored_latest _ _ _ _ _ _ _ _ Hst)).
  assert (high (mem s') q' = high (mem s) q') as Hhigh by (unfold high; by rewrite Hlow).
  pose proof Hst as [Hcells Hoth Hsc (Hm' & Hth' & Hle) Hcur Hacq Hrel [Hlen _]].
  assert (cur (oview s') Top = cur (oview s) Top) as Htop
    by (rewrite Hcur, Hc; unfold join; rewrite at_other by done; lia).
  split; rewrite ?Hcaps, ?Hlow, ?Hhigh, ?Hsc, ?Htop; try done.
  - split; by eapply stored_knows.
  - intros j p th Hj. rewrite Hth in Hj. destruct (inv_thieves0 _ _ _ Hj) as [[(V1 & V2 & V3) V4 V5 V6] Hp].
    split.
    + split; rewrite ?Hlow, ?Hhigh; auto. by eapply thread_closed_mono.
    + eapply thief_ok_grown; [exact Hp|done|done|done|]. intros i msg w' Hi' Hval.
      destruct (stored_lookup _ _ _ _ _ _ _ _ _ _ Hst Hi') as [Hold|(_ & -> & ->)]; [by left|right].
      by injection Hval as ->.
Qed.
Lemma items_bottom g cs m m' th th' v c lo q :
  stored m m' th th' Bottom v c → items_ok g cs m lo q → items_ok g cs m' lo q.
Proof.
  intros Hst Hi k x Hk j. destruct (Hi k x Hk) as (H1 & H2 & H3). fold j in H1, H2, H3.
  pose proof Hst as [Hcells Hoth _ _ _ _ _ [Hlen _]].
  assert (∀ l, l ≠ Bottom → latest m' l = latest m l) as Hlat by (intros; by eapply stored_latest).
  rewrite (Hlat ArrayPtr) by done. split_and!; [|done|].
  - unfold latest in H1, Hlen. unfold latest. lia.
  - intros a Ha. destruct (H3 a Ha) as [H4 H5]. rewrite (Hlat (cell_of cs a j)), Hoth by done. by split.
Qed.

(** [bottom_] changes and the deque does not: nothing is published that was not. *)
Lemma fences_bottom g m m' th th' w c lo hi cs q :
  stored m m' th th' Bottom (Word w) c → fences_ok g m lo hi → items_ok g cs m lo q →
  hi = lo + Z.of_nat (length q) → w <= hi → fences_ok g m' lo hi.
Proof.
  intros Hst Hf Hi -> Hw i msg w' Hsc Hm Hval j Hj. rewrite (sd_sc _ _ _ _ _ _ _ Hst) in Hsc.
  destruct (stored_lookup _ _ _ _ _ _ _ _ _ _ Hst Hm) as [Hold|(_ & -> & ->)]; [by eapply Hf|].
  injection Hval as <-. split; [lia|].
  destruct (lookup_lt_is_Some_2 q (Z.to_nat (j - lo))) as [x Hx]; [lia|].
  destruct (Hi _ _ Hx) as (Hb & _). cbv zeta in Hb.
  replace (lo + Z.of_nat (Z.to_nat (j - lo))) with j in Hb by lia. unfold latest in Hb. lia.
Qed.

Lemma inv_bottom_same g q s m th w o :
  inv_with g q s → covers (mem s) (rel (oview s)) → (∀ b a, o ≠ OPopFenced b a) →
  store Relaxed Bottom (Word w) (mem s) (oview s) = Some (m, th) → w <= high (mem s) q →
  owner_ok (set_owner s m o th) q → inv_with g q (set_owner s m o th).
Proof.
  intros Hi Hcov Ho Hst Hw Hok. pose proof Hi as []. pose proof (sh_items _ _ _ _ inv_shared0) as Hit.
  pose proof Hst as Hst'. apply store_stored in Hst'; [|apply inv_shared0|apply inv_oview0].
  eapply (inv_bottom g q g q s _ (oview s) w); simpl; try done.
  - by eapply items_bottom.
  - eapply fences_bottom; [done|apply inv_shared0|exact Hit|done|done].
  - intros Hlow. split; [lia|]. unfold high in Hw. destruct q as [|x q]; [simpl in Hw; lia|].
    destruct (Hit 0%nat x eq_refl) as (Hb & _). cbv zeta in Hb.
    replace (low (mem s) + Z.of_nat 0) with (low (mem s)) in Hb by lia. unfold latest in Hb. lia.
Qed.

Lemma owner_pop_lowers g q s b a m th :
  inv_with g q s → owner s = OIdle → plain_read Bottom (mem s) (oview s) = Some (Word b) →
  plain_read ArrayPtr (mem s) (oview s) = Some (Ptr a) →
  store Relaxed Bottom (Word (b - 1)) (mem s) (oview s) = Some (m, th) →
  inv_with g q (set_owner s m (OPopLowered (b - 1) a) th).
Proof.
  intros Hi Ho Hb Ha Hst. pose proof (inv_owner _ _ _ Hi) as Hok. unfold owner_ok in Hok. rewrite Ho in Hok.
  destruct Hok as [Hn Hcov]. pose proof (owner_reads _ _ _ _ _ Hb Hn) as [= ->].
  apply plain_read_inv in Ha as [_ Ha]. apply (newest_array g q _ (caps s)) in Ha as ->; [|apply Hi].
  eapply inv_bottom_same; try done; [lia|].
  apply store_stored in Hst; [|apply Hi|apply Hi].
  unfold owner_ok. simpl. unfold high, low. rewrite !(stored_latest _ _ _ _ _ _ _ _ Hst) by done.
  rewrite (stored_newest _ _ _ _ _ _ _ Hst). split_and!; [done|lia|done|].
  intros l Ht Hl. rewrite (stored_latest _ _ _ _ _ _ _ _ Hst) by done.
  rewrite (sd_rel _ _ _ _ _ _ _ Hst). by apply Hcov.
Qed.

Lemma owner_pop_raises g q s b m th :
  inv_with g q s → owner s = ORaise b → store Relaxed Bottom (Word (b + 1)) (mem s) (oview s) = Some (m, th) →
  inv_with g q (set_owner s m OIdle th).
Proof.
  intros Hi Ho Hst. pose proof (inv_owner _ _ _ Hi) as Hok. unfold owner_ok in Hok. rewrite Ho in Hok.
  destruct Hok as (Hn & Hh & Hq & Hcov). eapply inv_bottom_same; try done; [lia|].
  apply store_stored in Hst; [|apply Hi|apply Hi].
  unfold owner_ok. simpl. unfold high, low in *. rewrite !(stored_latest _ _ _ _ _ _ _ _ Hst) by done.
  rewrite (stored_newest _ _ _ _ _ _ _ Hst). split_and!; [by rewrite Hh|].
  intros l Ht Hl. rewrite (stored_latest _ _ _ _ _ _ _ _ Hst) by done.
  rewrite (sd_rel _ _ _ _ _ _ _ Hst). by apply Hcov.
Qed.

(** What [push] publishes: position [b], born with the message it stores. *)
Definition published (g : ghost) (cs : list Z) (m : memory loc cell) (b : Z) : ghost := {|
  born j := if decide (j = b) then length (cells m Bottom) else born g j;
  birth j := if decide (j = b) then latest m ArrayPtr else birth g j;
  wr a j := if decide (j = b) then latest m (cell_of cs (latest m ArrayPtr) b) else wr g a j |}.

Lemma published_same g cs m b a j :
  j ≠ b → born (published g cs m b) j = born g j ∧ birth (published g cs m b) j = birth g j ∧
    wr (published g cs m b) a j = wr g a j.
Proof. intros. simpl. by rewrite !decide_False. Qed.

Lemma published_items g cs m m' th th' v c lo q x b :
  memory_ok m → stored m m' th th' Bottom v c → items_ok g cs m lo q → lo + Z.of_nat (length q) = b →
  newest m (cell_of cs (latest m ArrayPtr) b) = Some (Content (Some x)) →
  items_ok (published g cs m b) cs m' lo (q ++ [x]).
Proof.
  intros Hm Hst Hi Hlen Hn k y Hk j. pose proof (items_bottom _ _ _ _ _ _ _ _ _ _ Hst Hi) as Hi'.
  apply lookup_app_Some in Hk as [Hk|[Hk Hk']].
  - apply lookup_lt_Some in Hk as Hlt. assert (j ≠ b) as Hne by (unfold j; lia).
    destruct (Hi' k y Hk) as (H1 & H2 & H3). fold j in H1, H2, H3.
    destruct (published_same g cs m b 0 j Hne) as (-> & -> & _). split_and!; [done|done|].
    intros a Ha. destruct (published_same g cs m b a j Hne) as (_ & _ & ->). by apply H3.
  - apply list_lookup_singleton_Some in Hk' as [Hk' <-]. assert (j = b) as -> by (unfold j; lia).
    simpl. rewrite !decide_True by done. pose proof Hst as [Hcells Hoth _ _ _ _ _ [Hlat _]].
    rewrite (stored_latest _ _ _ _ _ _ _ ArrayPtr Hst) by done. split_and!; [lia|done|].
    intros a Ha. assert (a = latest m ArrayPtr) as -> by lia.
    rewrite (stored_latest _ _ _ _ _ _ _ (cell_of cs (latest m ArrayPtr) b) Hst) by done.
    rewrite decide_True by done. split; [done|]. intros n msg Hle Hmsg. rewrite Hoth in Hmsg by done. apply lookup_lt_Some in Hmsg as Hlt.
    eapply newest_at; [exact Hn|]. rewrite <- Hmsg. f_equal. unfold latest in *. lia.
Qed.

(** Nobody knows the new message yet. *)
Lemma published_good g cs m lo b v :
  memory_ok m → closed m v → good g cs lo b v → good (published g cs m b) cs lo (b + 1) v.
Proof.
  intros Hm Hv Hg j Hj. destruct (decide (j = b)) as [->|Hne].
  - simpl. rewrite !decide_True by done. specialize (Hv Bottom) as Hb. specialize (Hv ArrayPtr) as Ha.
    pose proof (ok_inhabited _ Hm Bottom). split; [intros|intros a]; unfold latest in *; lia.
  - destruct (Hg j) as [H1 H2]; [lia|].
    destruct (published_same g cs m b 0 j Hne) as (-> & -> & _).
    destruct (published_same g cs m b (birth g j) j Hne) as (_ & _ & ->). split; [done|].
    intros a. destruct (published_same g cs m b a j Hne) as (_ & _ & ->). apply H2.
Qed.

Lemma published_fences g cs m m' th th' c lo b :
  stored m m' th th' Bottom (Word (b + 1)) c → fences_ok g m lo b →
  (∀ j, lo <= j < b → (born g j <= latest m Bottom)%nat) →
  fences_ok (published g cs m b) m' lo (b + 1).
Proof.
  intros Hst Hf Hborn i msg w Hsc Hm Hval j Hj. rewrite (sd_sc _ _ _ _ _ _ _ Hst) in Hsc.
  destruct (stored_lookup _ _ _ _ _ _ _ _ _ _ Hst Hm) as [Hold|(_ & -> & ->)].
  - destruct (Hf i msg w Hsc Hold Hval j Hj) as [Hlt Hb].
    destruct (published_same g cs m b 0 j) as (-> & _); [lia|]. split; [lia|done].
  - injection Hval as <-. split; [lia|]. simpl. case_decide; [done|].
    specialize (Hborn j ltac:(lia)). unfold latest in Hborn. lia.
Qed.

Lemma items_born g cs m lo q j :
  items_ok g cs m lo q → lo <= j < lo + Z.of_nat (length q) → (born g j <= latest m Bottom)%nat.
Proof.
  intros Hi Hj. destruct (lookup_lt_is_Some_2 q (Z.to_nat (j - lo))) as [x Hx]; [lia|].
  destruct (Hi _ _ Hx) as (Hb & _). cbv zeta in Hb.
  by replace (lo + Z.of_nat (Z.to_nat (j - lo))) with j in Hb by lia.
Qed.

Lemma owner_push_publishes g q s x b m th :
  inv_with g q s → owner s = OPushStored x b →
  store Relaxed Bottom (Word (b + 1)) (mem s) (fence_release (oview s)) = Some (m, th) →
  ∃ g' q', inv_with g' q' (record_event (set_owner s m OIdle th) (Pushed x)).
Proof.
  intros Hi Ho Hst. pose proof (inv_owner _ _ _ Hi) as Hok. unfold owner_ok in Hok. rewrite Ho in Hok.
  destruct Hok as (Hn & Hh & Hroom & Hitem). pose proof Hi as [].
  pose proof (sh_items _ _ _ _ inv_shared0) as Hit. destruct inv_oview0 as [Hcl Hcur Hacq Hrel].
  assert (thread_closed (mem s) (fence_release (oview s))) as Hcl' by by apply fence_release_closed.
  assert (high (mem s) (q ++ [x]) = b + 1) as Hhigh
    by (unfold high in *; rewrite length_app; simpl; lia).
  assert (covers (mem s) (cur (oview s))) as Hcov by (apply knows_covers, inv_oknows0).
  pose proof Hst as Hst'. apply store_stored in Hst'; [|apply inv_shared0|done].
  assert (∀ l, l ≠ Bottom → latest m l = latest (mem s) l) as Hlat by (intros; by eapply stored_latest).
  set (g' := published g (caps s) (mem s) b). pose proof (sh_memory _ _ _ _ inv_shared0) as Hm.
  exists g', (q ++ [x]).
  eapply (inv_bottom g q g' (q ++ [x]) s _ (fence_release (oview s)) (b + 1)); simpl; rewrite ?Hhigh, ?Hh; try done.
  - by eapply published_items.
  - intros v Hv. by apply published_good.
  - eapply published_fences; [done|rewrite <- Hh; apply inv_shared0|].
    intros j Hj. eapply items_born; [done|]. unfold high in Hh. lia.
  - unfold owner_ok. simpl.
    split; [|by intros l Ht Hl; rewrite (sd_rel _ _ _ _ _ _ _ Hst'), Hlat by done; apply Hcov].
    rewrite (stored_newest _ _ _ _ _ _ _ Hst'). do 2 f_equal. unfold high, low in *.
    by rewrite (stored_latest _ _ _ _ _ _ _ _ Hst').
  - lia.
  - lia.
  - intros Hlt. rewrite !decide_False by lia. unfold high in Hh. destruct q; [simpl in Hh; lia|done].
  - intros Hlt. split; [lia|]. case_decide; [done|].
    pose proof (items_born _ _ _ _ _ (low (mem s)) Hit). unfold high, latest in *. lia.
  - eapply deque_snoc; [done|]. constructor.
Qed.
(** ** The owner stores items *)

Lemma item_at_distinct a c i j :
  power_of_two c → 0 < Z.abs (i - j) < c → item_at a c i ≠ item_at a c j.
Proof.
  intros Hp Hij [= Heq]. pose proof (power_pos _ Hp) as Hpos.
  assert (∀ k, Z.land k (c - 1) = k `mod` c) as Hmod.
  { intros k. apply land_mask; [done|]. destruct Hp as (e & He & ->). by apply is_pow2_pow. }
  rewrite !Hmod in Heq. pose proof (Z.mod_pos_bound i c Hpos). pose proof (Z.mod_pos_bound j c Hpos).
  apply (mod_distinct i j c); [done|done|lia].
Qed.

Lemma capacity_power g q m cs a c : shared_ok g q m cs → cs !! a = Some c → power_of_two c.
Proof.
  intros Hs Hc. apply (ms_caps _ _ (sh_messages _ _ _ _ Hs)). apply list_elem_of_lookup. by exists a.
Qed.

(** The cells of the items are not the one of the position to be published. *)
Lemma items_item g cs m m' th th' v c lo q cap b :
  stored m m' th th' (item_at (latest m ArrayPtr) cap b) v c → items_ok g cs m lo q →
  cs !! latest m ArrayPtr = Some cap → power_of_two cap →
  lo + Z.of_nat (length q) = b → b - lo < cap → items_ok g cs m' lo q.
Proof.
  intros Hst Hi Hcap Hp Hb Hroom k x Hk j. destruct (Hi k x Hk) as (H1 & H2 & H3). fold j in H1, H2, H3.
  apply lookup_lt_Some in Hk. rewrite !(stored_latest _ _ _ _ _ _ _ _ Hst) by done.
  split_and!; [done|done|]. intros a Ha. destruct (H3 a Ha) as [H4 H5].
  assert (cell_of cs a j ≠ item_at (latest m ArrayPtr) cap b) as Hne.
  { destruct (decide (a = latest m ArrayPtr)) as [->|Hne']; [|unfold cell_of; by intros [= ?]].
    unfold cell_of. rewrite Hcap. apply item_at_distinct; [done|unfold j; lia]. }
  rewrite (stored_latest _ _ _ _ _ _ _ _ Hst), (sd_other _ _ _ _ _ _ _ Hst) by done. by split.
Qed.

Lemma item_shared g q m cs th m' th' a i o c :
  shared_ok g q m cs → view_ok g q m cs th → (a < length cs)%nat →
  stored m m' th th' (Item a i) (Content o) c →
  c = join (at_ (Item a i) (length (cells m (Item a i)))) (rel th) →
  items_ok g cs m' (low m) q → shared_ok g q m' cs ∧ view_ok g q m' cs th'.
Proof.
  intros Hs [V1 V2 V3 V4] Ha Hst -> Hit.
  assert (low m' = low m) as Hlow by (unfold low; by rewrite (stored_latest _ _ _ _ _ _ _ _ Hst)).
  assert (high m' q = high m q) as Hhigh by (unfold high; by rewrite Hlow).
  pose proof Hst as [Hcells Hoth Hsc (Hm' & Hth' & Hle) Hcur Hacq Hrel _].
  pose proof Hs as [S1 S2 S3 S4 S5 S6]. split.
  - split; rewrite ?Hlow, ?Hhigh; try done.
    + destruct S2 as [M1 M2 M3 M4 M5 M6].
      split; unfold latest in *; rewrite ?Hoth by done; try done.
      * intros a' i' n msg Hi. destruct (stored_lookup _ _ _ _ _ _ _ _ _ _ Hst Hi) as [Hi'|(_ & _ & ->)];
          [by eapply M4|by exists o].
      * intros a' i' Ha'. rewrite Hoth; [by apply M6|]. intros [= -> ->]. lia.
    + intros l n msg Hi. destruct (stored_lookup _ _ _ _ _ _ _ _ _ _ Hst Hi) as [Hi'|(_ & _ & ->)];
        [by eapply S4|]. simpl.
      apply (ws_good_ext _ _ _ _ (join (rel th) (at_ (Item a i) (length (cells m (Item a i))))));
        [by apply ws_good_at|intros l'; unfold join; lia].
    + by rewrite Hsc.
    + unfold fences_ok. by rewrite Hsc, Hoth.
  - split; rewrite ?Hlow, ?Hhigh, ?Hcur, ?Hacq, ?Hrel; try done; by apply ws_good_at.
Qed.

Lemma owner_push_stores g q s x b a c m th :
  inv_with g q s → owner s = OPushReady x b a → caps s !! a = Some c →
  plain_write (item_at a c b) (Content (Some x)) (mem s) (oview s) = Some (m, th) →
  inv_with g q (set_owner s m (OPushStored x b) th).
Proof.
  intros Hi Ho Hc Hst. pose proof (inv_owner _ _ _ Hi) as Hok. unfold owner_ok in Hok. rewrite Ho in Hok.
  destruct Hok as (Hn & Hh & -> & Hroom). pose proof Hi as [].
  rewrite (capacity_at _ _ _ _ _ inv_shared0 Hc) in *.
  pose proof (capacity_power _ _ _ _ _ _ inv_shared0 Hc) as Hp.
  pose proof (proj1 (vw_closed _ _ _ _ _ inv_oview0) Top) as Htop.
  apply store_stored in Hst; [|apply inv_shared0|apply inv_oview0].
  assert (low m = low (mem s)) as Hlow by (unfold low; by rewrite (stored_latest _ _ _ _ _ _ _ _ Hst)).
  assert (high m q = high (mem s) q) as Hhigh by (unfold high; by rewrite Hlow).
  destruct (item_shared g q _ _ _ _ _ _ _ _ _ inv_shared0 inv_oview0 (lookup_lt_Some _ _ _ Hc) Hst eq_refl)
    as [Hs' Hv'].
  { eapply items_item; [done|apply inv_shared0|done|done|done|]. unfold low. lia. }
  pose proof Hst as [Hcells Hoth Hsc (Hm' & Hth' & Hle) Hcur Hacq Hrel _].
  assert (cur th Top = cur (oview s) Top) as Hkt
    by (rewrite Hcur; unfold join; rewrite at_other by done; lia).
  split; simpl; rewrite ?Hlow, ?Hhigh, ?Hsc, ?Hkt; try done.
  - destruct inv_oknows0. split; by eapply stored_knows.
  - by rewrite (capacity_at _ _ _ _ _ inv_shared0 Hc).
  - unfold owner_ok. simpl. rewrite Hhigh, Hkt, (stored_latest _ _ _ _ _ _ _ ArrayPtr Hst) by done.
    rewrite (stored_newest_other _ _ _ _ _ _ _ Bottom Hst) by done. split_and!; try done.
    + by rewrite (capacity_at _ _ _ _ _ inv_shared0 Hc).
    + unfold cell_of. rewrite Hc. by apply (stored_newest _ _ _ _ _ _ _ Hst).
  - intros j p th0 Hj. destruct (inv_thieves0 _ _ _ Hj) as [[V1 V2 V3 V4] Hp']. rewrite Hoth by done. split.
    + split; rewrite ?Hlow, ?Hhigh; try done. by eapply thread_closed_mono.
    + by eapply thief_ok_owner.
Qed.
(** ** The owner makes room *)

(** [l] is not a cell of array [a]. *)
Definition outside (a : nat) (l : loc) : Prop := ∀ i, l ≠ Item a i.

Lemma outside_or a l : outside a l ∨ ∃ i, l = Item a i.
Proof.
  destruct l as [| | |a' i]; [by left..|].
  destruct (decide (a' = a)) as [->|]; [right; by eexists|left; by intros i' [= ? _]].
Qed.

(** Only cells of array [a] were stored in, by a thread that released what [th] had. *)
Record copied (a : nat) (m m' : memory loc cell) (th th' : thread loc) : Prop := {
  cp_ok : memory_ok m' ∧ thread_closed m' th' ∧ memory_le m m';
  cp_sc : sc m' = sc m;
  cp_rel : rel th' = rel th;
  cp_other : ∀ l, outside a l → cells m' l = cells m l ∧ cur th' l = cur th l ∧ acq th' l = acq th l;
  cp_cur : knows_own m (cur th) → knows_own m' (cur th');
  cp_acq : knows_own m (acq th) → knows_own m' (acq th');
  cp_messages : ∀ i n msg, cells m' (Item a i) !! n = Some msg →
    cells m (Item a i) !! n = Some msg ∨
    (∃ o, value msg = Content o) ∧ ∀ l, outside a l → carries msg l = rel th l }.

Lemma copied_refl a m th : memory_ok m → thread_closed m th → copied a m m th th.
Proof. intros Hm Hth. split; try done; [split_and!; [done|done|by intros l]|by left]. Qed.

Lemma copied_trans a m1 m2 m3 th1 th2 th3 :
  copied a m1 m2 th1 th2 → copied a m2 m3 th2 th3 → copied a m1 m3 th1 th3.
Proof.
  intros [(_ & _ & A3) A4 A5 A6 A7 A8 A9] [(B1 & B2 & B3) B4 B5 B6 B7 B8 B9]. split.
  - split_and!; [done|done|]. intros l. etrans; [apply A3|apply B3].
  - by rewrite B4.
  - by rewrite B5.
  - intros l Hl. destruct (A6 l Hl) as (<- & <- & <-). by apply B6.
  - auto.
  - auto.
  - intros i n msg Hi. destruct (B9 i n msg Hi) as [Hi'|[Ho Hl]]; [by apply A9|].
    right. split; [done|]. intros l Hout. by rewrite Hl, A5.
Qed.

Lemma copied_store a m m' th th' i o c :
  stored m m' th th' (Item a i) (Content o) c →
  c = join (at_ (Item a i) (length (cells m (Item a i)))) (rel th) → copied a m m' th th'.
Proof.
  intros Hst Hc. pose proof Hst as []. split; try done.
  - intros l Hl. specialize (Hl i). rewrite sd_other0, sd_cur0, sd_acq0 by done.
    unfold join. rewrite at_other by done. split_and!; [done|lia|lia].
  - intros. by eapply stored_knows.
  - intros. by eapply stored_knows.
  - intros i' n msg Hi. destruct (stored_lookup _ _ _ _ _ _ _ _ _ _ Hst Hi) as [|([= ->] & -> & ->)]; [by left|right].
    split; [by eexists|]. intros l Hl. simpl. rewrite Hc. unfold join. rewrite at_other by apply Hl. lia.
Qed.

Lemma copy_items_spec old oc a nc i n m th m' th' :
  old ≠ a → power_of_two nc → Z.of_nat n <= nc → memory_ok m → thread_closed m th →
  (∀ i n msg, cells m (Item old i) !! n = Some msg → ∃ o, value msg = Content o) →
  copy_items old oc a nc i n m th = Some (m', th') →
  copied a m m' th th' ∧
  (∀ l, (∀ k, i <= k < i + Z.of_nat n → l ≠ item_at a nc k) → cells m' l = cells m l) ∧
  ∀ k, i <= k < i + Z.of_nat n → ∃ v c, newest m (item_at old oc k) = Some v ∧
    cells m' (item_at a nc k) = cells m (item_at a nc k) ++ [{| value := v; carries := c; by_rmw := false |}].
Proof.
  intros Hne Hp. revert i m th. induction n as [|n IH]; intros i m th Hn Hm Hth Hold Hcopy.
  { injection Hcopy as <- <-. split_and!; [by apply copied_refl|done|lia]. }
  simpl in Hcopy. destruct (plain_read _ m th) as [v|] eqn:Hr; [|done].
  destruct (plain_write _ _ _ _) as [[m1 th1]|] eqn:Hst; [|done].
  apply plain_read_inv in Hr as [_ Hr]. apply store_stored in Hst; [|done|done].
  destruct (latest_message m (item_at old oc i) Hm) as [msg Hmsg].
  destruct (Hold _ _ _ Hmsg) as [o Ho]. pose proof (newest_at _ _ _ Hr _ Hmsg) as Hv.
  rewrite Ho in Hv. subst v. pose proof (copied_store _ _ _ _ _ _ _ _ Hst eq_refl) as Hc1.
  pose proof Hst as [Hcells Hoth _ (Hm1 & Hth1 & _) _ _ _ _].
  destruct (IH (i + 1) m1 th1) as (Hc2 & Hsame & Hnew); [lia|done|done| |done|].
  { intros i' n' msg'. rewrite Hoth by (intros [= ?]; done). apply Hold. }
  assert (∀ k, i + 1 <= k < i + 1 + Z.of_nat n → item_at a nc i ≠ item_at a nc k) as Hdist
    by (intros; apply item_at_distinct; [done|lia]).
  split_and!; [by eapply copied_trans| |].
  - intros l Hl. rewrite Hsame by (intros; apply Hl; lia). apply Hoth, Hl. lia.
  - intros k Hk. destruct (decide (k = i)) as [->|Hki].
    + eexists _, _. split; [done|]. by rewrite Hsame.
    + destruct (Hnew k) as (v & c & Hv & Hck); [lia|]. exists v, c.
      rewrite (stored_newest_other _ _ _ _ _ _ _ _ Hst) in Hv by (intros [= ?]; done). split; [done|].
      rewrite Hck. f_equal. apply Hoth. intros Heq. apply (Hdist k); [lia|done].
Qed.
(** The copies in the new array are the first messages of its cells. *)
Definition resized (g : ghost) (a : nat) : ghost := {|
  born := born g; birth := birth g;
  wr a' j := if decide (a' = a) then 1%nat else wr g a' j |}.

Lemma cell_of_before cs c a j : (a < length cs)%nat → cell_of (cs ++ [c]) a j = cell_of cs a j.
Proof. intros. unfold cell_of. by rewrite lookup_app_l. Qed.

Lemma cell_of_new cs c j : cell_of (cs ++ [c]) (length cs) j = item_at (length cs) c j.
Proof. unfold cell_of. by rewrite list_lookup_middle. Qed.

(** Who does not know the new array need not know its cells. *)
Lemma good_fresh g cs c lo hi v v' :
  good g cs lo hi v → (v ArrayPtr < length cs)%nat → (∀ l, outside (length cs) l → v' l = v l) →
  good (resized g (length cs)) (cs ++ [c]) lo hi v'.
Proof.
  intros Hg Hlt Hv j Hj. destruct (Hg j Hj) as [H1 H2]. rewrite !Hv by done. simpl.
  assert (∀ a, (a < length cs)%nat → (wr g a j <= v (cell_of cs a j))%nat →
    ((if decide (a = length cs) then 1 else wr g a j) <= v' (cell_of (cs ++ [c]) a j))%nat) as Hcell.
  { intros a Ha Hw. rewrite decide_False by lia. rewrite cell_of_before by done.
    rewrite Hv; [done|]. intros i [= ? _]. lia. }
  split.
  - intros Hb. destruct (H1 Hb) as [Ha Hw]. split; [done|]. apply Hcell; [lia|done].
  - intros a Ha. apply Hcell; [lia|by apply H2].
Qed.

Section resize.
Context (g : ghost) (q : list T) (cs : list Z) (c t : Z) (n : nat).
Context (m0 m m' : memory loc cell) (th0 th th' : thread loc) (carried : view loc).
Context (Hs : shared_ok g q m0 cs) (Hv : view_ok g q m0 cs th0).
Context (Hc : cs !! latest m0 ArrayPtr = Some c).
Context (Hcp : copied (length cs) m0 m th0 th).
Context (Hnew : ∀ k, t <= k < t + Z.of_nat n → ∃ v c', newest m0 (item_at (latest m0 ArrayPtr) c k) = Some v ∧
  cells m (item_at (length cs) (c * 2) k) =
    cells m0 (item_at (length cs) (c * 2) k) ++ [{| value := v; carries := c'; by_rmw := false |}]).
Context (Hst : stored m m' th th' ArrayPtr (Ptr (length cs)) carried).
Context (Hrange : t <= low m0 ∧ high m0 q <= t + Z.of_nat n).

Let Hlen : length cs = S (latest m0 ArrayPtr).
Proof. apply (ms_caps _ _ (sh_messages _ _ _ _ Hs)). Qed.

Lemma resize_cells l : outside (length cs) l → l ≠ ArrayPtr → cells m' l = cells m0 l.
Proof. intros Hl Hne. rewrite (sd_other _ _ _ _ _ _ _ Hst) by done. by apply (cp_other _ _ _ _ _ Hcp). Qed.

Lemma resize_latest l : outside (length cs) l → l ≠ ArrayPtr → latest m' l = latest m0 l.
Proof. intros. unfold latest. by rewrite resize_cells. Qed.

Lemma resize_array : latest m' ArrayPtr = length cs.
Proof.
  destruct (sd_own _ _ _ _ _ _ _ Hst) as [<- _].
  destruct (cp_other _ _ _ _ _ Hcp ArrayPtr) as (-> & _); [done|].
  pose proof (ok_inhabited _ (sh_memory _ _ _ _ Hs) ArrayPtr). unfold latest in Hlen. lia.
Qed.

Lemma resize_low : low m' = low m0.
Proof. unfold low. by rewrite resize_latest. Qed.

Lemma resize_items : items_ok (resized g (length cs)) (cs ++ [c * 2]) m' (low m0) q.
Proof.
  intros k x Hk j. pose proof (sh_items _ _ _ _ Hs k x Hk) as (H1 & H2 & H3). fold j in H1, H2, H3.
  rewrite resize_latest, resize_array by done. simpl. split_and!; [done|lia|]. intros a Ha.
  case_decide as Ha'.
  - subst a. rewrite cell_of_new. apply lookup_lt_Some in Hk as Hlt. unfold high in Hrange.
    destruct (Hnew j) as (v & c' & Hval & Hcells); [lia|].
    pose proof (newest_item _ _ _ _ _ _ _ Hs Hk Hc) as Hx. fold j in Hx. rewrite Hx in Hval.
    injection Hval as <-. pose proof (ms_fresh _ _ (sh_messages _ _ _ _ Hs) (length cs)
      (Z.to_nat (Z.land j (c * 2 - 1))) (le_n _)) as Hone.
    unfold latest. rewrite (sd_other _ _ _ _ _ _ _ Hst) by done. rewrite Hcells.
    unfold item_at in *. rewrite length_app, Hone. split; [done|].
    intros i msg Hi Hmsg. apply lookup_app_Some in Hmsg as [Hm|[_ Hm]].
    + apply lookup_lt_Some in Hm. lia.
    + by apply list_lookup_singleton_Some in Hm as [_ <-].
  - rewrite cell_of_before by lia. destruct (H3 a) as [H4 H5]; [lia|].
    assert (outside (length cs) (cell_of cs a j)) as Hout by (intros i [= ? _]; done).
    rewrite resize_latest, resize_cells by done. by split.
Qed.

Lemma resize_messages : messages_ok m' (cs ++ [c * 2]).
Proof.
  pose proof (sh_messages _ _ _ _ Hs) as [M1 M2 M3 M4 [M5 M6] M7]. split.
  - by rewrite resize_cells.
  - by rewrite resize_cells.
  - intros i msg Hi. destruct (stored_lookup _ _ _ _ _ _ _ _ _ _ Hst Hi) as [Hi'|(_ & -> & ->)].
    + destruct (cp_other _ _ _ _ _ Hcp ArrayPtr) as (E & _); [done|]. rewrite E in Hi'. by apply M3.
    + simpl. f_equal. destruct (sd_own _ _ _ _ _ _ _ Hst) as [-> _]. by rewrite resize_array.
  - intros a i k msg Hi. rewrite (sd_other _ _ _ _ _ _ _ Hst) in Hi by done.
    destruct (decide (a = length cs)) as [->|Hne].
    + destruct (cp_messages _ _ _ _ _ Hcp _ _ _ Hi) as [Hold|[Ho _]]; [by eapply M4|done].
    + destruct (cp_other _ _ _ _ _ Hcp (Item a i)) as (E & _); [intros i' [= ? _]; done|].
      rewrite E in Hi. by eapply M4.
  - rewrite resize_array, length_app. simpl. split; [lia|]. intros c' [Hin|Hin]%elem_of_app; [by apply M6|].
    apply list_elem_of_singleton in Hin as ->. destruct (capacity_power _ _ _ _ _ _ Hs Hc) as (k & Hk & ->).
    exists (k + 1). rewrite Z.pow_add_r by lia. lia.
  - intros a i Ha. rewrite length_app in Ha. simpl in Ha. rewrite resize_cells; [apply M7; lia| |done].
    intros i' [= ? _]. lia.
Qed.
Lemma resize_good v v' :
  closed m0 v → good g cs (low m0) (high m0 q) v → (∀ l, outside (length cs) l → v' l = v l) →
  good (resized g (length cs)) (cs ++ [c * 2]) (low m0) (high m0 q) v'.
Proof.
  intros Hcl Hg Hout. eapply good_fresh; [done| |done]. specialize (Hcl ArrayPtr). lia.
Qed.

Lemma resize_high : high m' q = high m0 q.
Proof. unfold high. by rewrite resize_low. Qed.

Lemma resize_le : memory_le m0 m'.
Proof. intros l. etrans; [apply (cp_ok _ _ _ _ _ Hcp)|apply (sd_ok _ _ _ _ _ _ _ Hst)]. Qed.

(** The views of the others. *)
Lemma resize_view th1 :
  view_ok g q m0 cs th1 → view_ok (resized g (length cs)) q m' (cs ++ [c * 2]) th1.
Proof.
  intros [(C1 & C2 & C3) V1 V2 V3]. split; rewrite ?resize_low, ?resize_high.
  - split_and!; (eapply closed_mono; [apply resize_le|done]).
  - by apply (resize_good (cur th1)).
  - by apply (resize_good (acq th1)).
  - by apply (resize_good (rel th1)).
Qed.

Lemma resize_knows_good v :
  closed m' v → covers m' v → good (resized g (length cs)) (cs ++ [c * 2]) (low m0) (high m0 q) v.
Proof. intros. by eapply good_knows; [apply resize_items|..]. Qed.

Lemma resize_shared :
  knows_own m' (cur th') → (∀ l, (cur th' l <= carried l)%nat) →
  shared_ok (resized g (length cs)) q m' (cs ++ [c * 2]).
Proof.
  intros Hk Hle. pose proof Hs as [S1 S2 S3 S4 S5 S6]. pose proof (sd_ok _ _ _ _ _ _ _ Hst) as (Hm' & Hth' & _).
  split; rewrite ?resize_low, ?resize_high.
  - done.
  - apply resize_messages.
  - apply resize_items.
  - intros l i msg Hi. destruct (ok_carries _ Hm' _ _ _ Hi) as [Hcl _].
    destruct (stored_lookup _ _ _ _ _ _ _ _ _ _ Hst Hi) as [Hi'|(_ & _ & ->)].
    + destruct (outside_or (length cs) l) as [Hout|[i' ->]].
      * destruct (cp_other _ _ _ _ _ Hcp l) as (E & _); [done|].
        rewrite E in Hi'. apply (resize_good (carries msg)); [by eapply ok_carries|by eapply S4|done].
      * destruct (cp_messages _ _ _ _ _ Hcp _ _ _ Hi') as [Hold|[_ Hrel]].
        -- apply (resize_good (carries msg)); [by eapply ok_carries|by eapply S4|done].
        -- apply (resize_good (rel th0)); [apply Hv|apply Hv|done].
    + apply resize_knows_good; [done|]. intros l' Ht Hb. etrans; [by apply Hk|apply Hle].
  - rewrite (sd_sc _ _ _ _ _ _ _ Hst), (cp_sc _ _ _ _ _ Hcp). apply (resize_good (sc m0)); [apply S1|done|done].
  - unfold fences_ok. rewrite (sd_sc _ _ _ _ _ _ _ Hst), (cp_sc _ _ _ _ _ Hcp), resize_cells by done. apply S6.
Qed.

Lemma resize_owner :
  knows_own m' (cur th') → knows_own m' (acq th') →
  view_ok (resized g (length cs)) q m' (cs ++ [c * 2]) th'.
Proof.
  intros K1 K2. pose proof (sd_ok _ _ _ _ _ _ _ Hst) as (_ & (C1 & C2 & C3) & _).
  split; rewrite ?resize_low, ?resize_high; [done| | |].
  - by apply resize_knows_good, knows_covers.
  - by apply resize_knows_good, knows_covers.
  - rewrite (sd_rel _ _ _ _ _ _ _ Hst), (cp_rel _ _ _ _ _ Hcp). apply (resize_good (rel th0)); [apply Hv|apply Hv|done].
Qed.
End resize.

(** What [resize] copied before it publishes the array. *)
Lemma owner_copies g q s x b t a c m th :
  inv_with g q s → owner s = OPush x b t a → caps s !! a = Some c →
  copy_items a c (length (caps s)) (c * 2) t (Z.to_nat (b - t)) (mem s) (oview s) = Some (m, th) →
  copied (length (caps s)) (mem s) m (oview s) th ∧
  ∀ k, t <= k < t + Z.of_nat (Z.to_nat (b - t)) → ∃ v c', newest (mem s) (item_at a c k) = Some v ∧
    cells m (item_at (length (caps s)) (c * 2) k) =
      cells (mem s) (item_at (length (caps s)) (c * 2) k) ++ [{| value := v; carries := c'; by_rmw := false |}].
Proof.
  intros Hi Ho Hc Hcopy. pose proof (inv_owner _ _ _ Hi) as Hok. unfold owner_ok in Hok. rewrite Ho in Hok.
  destruct Hok as (_ & _ & -> & _ & Hroom). pose proof (inv_shared _ _ _ Hi) as Hs.
  rewrite (capacity_at _ _ _ _ _ Hs Hc) in Hroom. pose proof (capacity_power _ _ _ _ _ _ Hs Hc) as Hp.
  pose proof (power_pos _ Hp). pose proof (lookup_lt_Some _ _ _ Hc).
  edestruct copy_items_spec as (Hcp & _ & Hnew); [| | | | | |exact Hcopy|by split].
  - lia.
  - destruct Hp as (k & ? & ->). exists (k + 1). rewrite Z.pow_add_r; lia.
  - lia.
  - apply Hs.
  - apply Hi.
  - apply (ms_item _ _ (sh_messages _ _ _ _ Hs)).
Qed.

Lemma owner_push_resizes g q s x b t a c m th m' th' :
  inv_with g q s → owner s = OPush x b t a → caps s !! a = Some c → (c - 1 <? b - t) = true →
  copy_items a c (length (caps s)) (c * 2) t (Z.to_nat (b - t)) (mem s) (oview s) = Some (m, th) →
  store Release ArrayPtr (Ptr (length (caps s))) m th = Some (m', th') →
  ∃ g', inv_with g' q (add_array (set_owner s m' (OPushReady x b (length (caps s))) th') (c * 2)).
Proof.
  intros Hi Ho Hc Hlt Hcopy Hst. pose proof (inv_owner _ _ _ Hi) as Hok. unfold owner_ok in Hok. rewrite Ho in Hok.
  destruct Hok as (Hn & Hh & -> & Ht & Hroom). pose proof Hi as [].
  rewrite (capacity_at _ _ _ _ _ inv_shared0 Hc) in Hroom.
  pose proof (capacity_power _ _ _ _ _ _ inv_shared0 Hc) as Hp. pose proof (power_pos _ Hp).
  apply Z.ltb_lt in Hlt. pose proof (lookup_lt_Some _ _ _ Hc) as Hlt'.
  pose proof (proj1 (vw_closed _ _ _ _ _ inv_oview0) Top) as Htop.
  destruct (owner_copies _ _ _ _ _ _ _ _ _ _ Hi Ho Hc Hcopy) as [Hcp Hnew].
  pose proof (cp_ok _ _ _ _ _ Hcp) as (Hm & Hth & _).
  apply store_stored in Hst; [|done|done].
  assert (knows_own m' (cur th') ∧ knows_own m' (acq th')) as [K1 K2].
  { destruct inv_oknows0. split; (eapply stored_knows; [done|apply Hst|]).
    - by apply (cp_cur _ _ _ _ _ Hcp).
    - by apply (cp_acq _ _ _ _ _ Hcp). }
  assert (t <= low (mem s) ∧ high (mem s) q <= t + Z.of_nat (Z.to_nat (b - t))) as Hrange by (unfold low; lia).
  assert (∀ l, (cur th' l <= handed_on Release ArrayPtr (length (cells m ArrayPtr))
      (note ArrayPtr (length (cells m ArrayPtr)) th) l)%nat) as Hcarry.
  { intros l. rewrite (sd_cur _ _ _ _ _ _ _ Hst). unfold handed_on. simpl. unfold join. lia. }
  assert (cur th' Top = cur (oview s) Top) as Hkt.
  { rewrite (sd_cur _ _ _ _ _ _ _ Hst). unfold join. rewrite at_other by done.
    destruct (cp_other _ _ _ _ _ Hcp Top) as (_ & -> & _); [done|lia]. }
  assert (∀ l, outside (length (caps s)) l → l ≠ ArrayPtr → cells m' l = cells (mem s) l) as Hcells
    by (intros; by eapply resize_cells).
  assert (low m' = low (mem s)) as Hlow by (unfold low, latest; by rewrite Hcells).
  assert (high m' q = high (mem s) q) as Hhigh by (unfold high; by rewrite Hlow).
  assert (sc m' = sc (mem s)) as Hsc
    by (by rewrite (sd_sc _ _ _ _ _ _ _ Hst), (cp_sc _ _ _ _ _ Hcp)).
  assert (capacity_now (caps s ++ [c * 2]) = c * 2) as Hcap by (unfold capacity_now; by rewrite last_snoc).
  exists (resized g (length (caps s))). split; simpl; rewrite ?Hlow, ?Hhigh, ?Hsc, ?Hkt, ?Hcap; try done.
  - by eapply resize_shared.
  - by eapply resize_owner.
  - rewrite (capacity_at _ _ _ _ _ inv_shared0 Hc) in inv_room0. lia.
  - unfold owner_ok. simpl. rewrite Hhigh, Hkt, Hcap. unfold newest. rewrite Hcells by done.
    split_and!; try done; [symmetry; by eapply (resize_array g q _ 0)|lia].
  - intros j p th1 Hj. destruct (inv_thieves0 _ _ _ Hj) as [H1 H2]. rewrite Hcells by done.
    split; [by eapply resize_view|]. apply (thief_ok_owner _ _ (cur (oview s) Top) _ _ _ _ _ (owner s));
      [|done|done]. exact H2.
Qed.
(** ** Every reachable state *)

Lemma inv_with_initial s : initial s → inv s.
Proof.
  intros (cap & n & Hp & ->). exists {| born _ := 0%nat; birth _ := 0%nat; wr _ _ := 0%nat |}, [].
  assert (∀ v, good {| born _ := 0%nat; birth _ := 0%nat; wr _ _ := 0%nat |} [cap]
    (low (memory_new cells_new)) (high (memory_new cells_new) ([] : list T)) v) as Hg.
  { intros v j Hj. unfold high in Hj. simpl in Hj. lia. }
  assert (∀ l k msg, cells (memory_new cells_new) l !! k = Some msg →
    k = 0%nat ∧ value msg = cells_new l) as Hmsg.
  { intros l [|k] msg Hk; [|done]. by injection Hk as <-. }
  pose proof (power_pos _ Hp). split; simpl.
  - split; try done.
    + apply memory_new_ok.
    + split; try done.
      * by intros k msg [-> Hv]%Hmsg.
      * intros k msg [_ Hv]%Hmsg. by exists 0.
      * by intros k msg [-> Hv]%Hmsg.
      * intros a i k msg [_ Hv]%Hmsg. by exists None.
      * split; [done|]. by intros c ->%list_elem_of_singleton.
    + intros i msg w Hi Hm Hw j Hj. destruct (Hmsg _ _ _ Hm) as [-> Hv]. rewrite Hv in Hw.
      injection Hw as <-. unfold low in Hj. simpl in Hj. lia.
  - left. by unfold low.
  - split; try done. apply thread_new_closed.
  - split; intros l _; unfold latest; simpl; lia.
  - unfold high, low, latest, capacity_now. simpl. lia.
  - split; [done|]. intros l _ _. unfold latest. simpl. lia.
  - intros j p th [[= -> ->] _]%lookup_replicate. by split; [split; [apply thread_new_closed|..]|].
  - constructor.
Qed.
Lemma inv_owner_step s s' : inv s → owner_step s s' → inv s'.
Proof.
  intros (g & q & Hi) Hs. destruct Hs.
  - exists g, q. by eapply owner_push_loads.
  - exists g, q. by eapply owner_push_fits.
  - edestruct owner_push_resizes as [g' ?]; [done..|]. by exists g', q.
  - exists g, q. by eapply owner_push_stores.
  - edestruct owner_push_publishes as (g' & q' & ?); [done..|]. by exists g', q'.
  - exists g, q. by eapply owner_pop_lowers.
  - exists g, q. by eapply owner_pop_fences.
  - edestruct owner_pop_takes as [q' ?]; [done..|]. by exists g, q'.
  - exists g, q. by eapply owner_pop_last.
  - exists g, q. by eapply owner_pop_empty.
  - edestruct owner_pop_wins as [q' ?]; [done..|]. by exists g, q'.
  - exists g, q. by eapply owner_pop_loses.
  - exists g, q. by eapply owner_pop_raises.
  - exists g, q. by eapply owner_learns_inv.
Qed.

Lemma inv_thief_step s s' j p th :
  inv s → thieves s !! j = Some (p, th) → thief_step j s p th s' → inv s'.
Proof.
  intros (g & q & Hi) Hj Hs. destruct Hs.
  - exists g, q. by eapply thief_loads_top.
  - exists g, q. by eapply thief_fences.
  - exists g, q. by eapply thief_checks.
  - exists g, q. eapply thief_leaves; [done|done|done|by left].
  - exists g, q. by eapply thief_loads_array.
  - exists g, q. eapply thief_gets_item; [done|done|done|by left].
  - exists g, q. eapply thief_gets_item; [done|done|done|by right].
  - edestruct thief_wins as [q' ?]; [done..|]. by exists g, q'.
  - exists g, q. eapply thief_leaves; [done|done|done|by right].
  - exists g, q. by eapply thief_learns_inv.
Qed.

Lemma ws_weak_inv s : reachable initial step s → inv s.
Proof.
  apply (reachable_ind' initial step); [apply inv_with_initial|]. intros s1 s2 _ Hi [Hs|j p th Hj Hs].
  - by eapply inv_owner_step.
  - by eapply inv_thief_step.
Qed.

(** ** Nobody is stuck *)

(** A load can always read the newest message. *)
Lemma load_any o (m : memory loc cell) l th :
  memory_ok m → thread_closed m th →
  ∃ msg th', cells m l !! latest m l = Some msg ∧ load o l (latest m l) m th = Some (value msg, th').
Proof.
  intros Hm Hth. destruct (load_newest o l m th Hm Hth) as (v & th' & Hl).
  pose proof Hl as (msg & Hn & <- & _)%load_inv. by exists msg, th'.
Qed.

Lemma load_low o g q m cs th :
  shared_ok g q m cs → thread_closed m th →
  ∃ th', load o Top (latest m Top) m th = Some (Word (low m), th').
Proof.
  intros Hs Hth. destruct (load_any o m Top th) as (msg & th' & Hn & Hl); [apply Hs|done|].
  exists th'. rewrite Hl. by destruct (ms_top _ _ (sh_messages _ _ _ _ Hs) _ _ Hn) as [-> _].
Qed.

Lemma exchange_low o g q m cs th w :
  shared_ok g q m cs → ∃ m' th', exchange o Top w m th = Some (Word (low m), m', th').
Proof.
  intros Hs. destruct (latest_message m Top) as [msg Hn]; [apply Hs|].
  destruct (ms_top _ _ (sh_messages _ _ _ _ Hs) _ _ Hn) as [Hw _].
  unfold exchange. unfold latest in Hn. rewrite Hn. simpl. rewrite Hw. by eexists _, _.
Qed.

Lemma copy_items_defined old oc a nc i n m th :
  old ≠ a → memory_ok m → thread_closed m th → knows_own m (cur th) →
  ∃ r, copy_items old oc a nc i n m th = Some r.
Proof.
  intros Hne. revert i m th. induction n as [|n IH]; intros i m th Hm Hth Hk; [by eexists|]. simpl.
  rewrite plain_read_defined by (done || by apply Hk).
  destruct (latest_message m (item_at old oc i) Hm) as [msg Hmsg].
  rewrite (newest_lookup _ _ _ Hmsg).
  destruct (store_defined Relaxed (item_at a nc i) (value msg) m th Hth) as [[m' th'] Hst]; [by apply Hk|].
  unfold plain_write. rewrite Hst. apply store_stored in Hst; [|done|done].
  apply IH; [apply (sd_ok _ _ _ _ _ _ _ Hst)..|]. eapply stored_knows; [done|apply Hst|done].
Qed.
(** What the owner reads of its own. *)
Lemma owner_plain g q s l th v :
  inv_with g q s → view_le (cur (oview s)) (cur th) → thread_closed (mem s) th → l ≠ Top →
  newest (mem s) l = Some v → plain_read l (mem s) th = Some v.
Proof.
  intros Hi Hle Hth Hl <-. apply plain_read_defined; [done|].
  etrans; [by apply (proj1 (inv_oknows _ _ _ Hi))|apply Hle].
Qed.

Lemma owner_stores g q s o l v th :
  inv_with g q s → cur th = cur (oview s) → thread_closed (mem s) th → l ≠ Top →
  ∃ m th', store o l v (mem s) th = Some (m, th').
Proof.
  intros Hi Hc Hth Hl. destruct (store_defined o l v (mem s) th Hth) as [[m th'] ?]; [|by eexists _, _].
  rewrite Hc. by apply (proj1 (inv_oknows _ _ _ Hi)).
Qed.

Lemma capacity_known g q m cs : shared_ok g q m cs → ∃ c, cs !! latest m ArrayPtr = Some c.
Proof.
  intros Hs. apply lookup_lt_is_Some_2. destruct (ms_caps _ _ (sh_messages _ _ _ _ Hs)) as [-> _]. lia.
Qed.

Lemma newest_ptr g q m cs : shared_ok g q m cs → newest m ArrayPtr = Some (Ptr (latest m ArrayPtr)).
Proof.
  intros Hs. destruct (latest_message m ArrayPtr) as [msg Hmsg]; [apply Hs|].
  rewrite (newest_lookup _ _ _ Hmsg). by rewrite (ms_array _ _ (sh_messages _ _ _ _ Hs) _ _ Hmsg).
Qed.

Lemma owner_can_push s x :
  inv s → owner s = OIdle → ∃ s' b t a, owner_step s s' ∧ owner s' = OPush x b t a.
Proof.
  intros (g & q & Hi) Ho. pose proof (inv_owner _ _ _ Hi) as Hok. unfold owner_ok in Hok. rewrite Ho in Hok.
  destruct Hok as [Hn _]. pose proof (inv_shared _ _ _ Hi) as Hs.
  pose proof (vw_closed _ _ _ _ _ (inv_oview _ _ _ Hi)) as Hth.
  destruct (load_low Acquire _ _ _ _ _ Hs Hth) as [th Hl].
  eexists _, _, _, _. split; [eapply push_loads; [done| |exact Hl|]|done].
  - by eapply owner_plain.
  - eapply owner_plain; [done..|]. by eapply newest_ptr.
Qed.

(** Behind the fence of [pop], whatever it reads from [top_]. *)
Lemma owner_can_pop s b a n v th :
  inv s → owner s = OPopFenced b a → load Relaxed Top n (mem s) (oview s) = Some (v, th) →
  ∃ s', owner_step s s' ∧ oview s' = th ∧ owner s' ≠ owner s.
Proof.
  intros (g & q & Hi) Ho Hl. pose proof (inv_owner _ _ _ Hi) as Hok. unfold owner_ok in Hok. rewrite Ho in Hok.
  destruct Hok as (Hn & Hh & -> & Hcov & Hsc & Hlow). pose proof (inv_shared _ _ _ Hi) as Hs.
  pose proof Hl as (msg & Hmsg & <- & _)%load_inv.
  destruct (ms_top _ _ (sh_messages _ _ _ _ Hs) _ _ Hmsg) as [Hw _]. rewrite Hw in Hl.
  destruct (owner_loads_top _ _ _ _ _ _ _ Hi Hl) as (Hv & Hle & _ & _ & Ht & Ht').
  destruct (capacity_known _ _ _ _ Hs) as [c Hc]. pose proof (vw_closed _ _ _ _ _ Hv) as Hth.
  destruct (Z.lt_trichotomy (Z.of_nat n) b) as [Hlt|[Heq|Hgt]].
  - destruct (lookup_lt_is_Some_2 q (Z.to_nat (b - low (mem s)))) as [x Hx]; [unfold high in Hh; lia|].
    pose proof (newest_item _ _ _ _ _ _ _ Hs Hx Hc) as Hnew.
    replace (low (mem s) + Z.of_nat (Z.to_nat (b - low (mem s)))) with b in Hnew by lia.
    eexists. split; [|split; [|]]; [eapply pop_takes; [done|done|done|done|]|done|by rewrite Ho].
    by eapply owner_plain.
  - destruct (latest_message (mem s) (item_at (latest (mem s) ArrayPtr) c b)) as [im Him]; [apply Hs|].
    destruct (ms_item _ _ (sh_messages _ _ _ _ Hs) _ _ _ _ Him) as [x Hx].
    pose proof (newest_lookup _ _ _ Him) as Hnew. rewrite Hx in Hnew. rewrite Heq in Hl.
    eexists. split; [|split; [|]]; [eapply pop_last; [done|done|done|]|done|by rewrite Ho].
    by eapply owner_plain.
  - eexists. split; [|split; [|]]; [by eapply pop_empty|done|by rewrite Ho].
Qed.

Lemma owner_can_move s : inv s → ∃ s', owner_step s s' ∧ owner s' ≠ owner s.
Proof.
  intros Hinv. pose proof Hinv as (g & q & Hi).
  pose proof (inv_owner _ _ _ Hi) as Hok. unfold owner_ok in Hok.
  pose proof (inv_shared _ _ _ Hi) as Hs. pose proof (vw_closed _ _ _ _ _ (inv_oview _ _ _ Hi)) as Hth.
  destruct (capacity_known _ _ _ _ Hs) as [c Hc]. destruct (owner s) eqn:Ho.
  - destruct Hok as [Hn _].
    destruct (owner_stores g q s Relaxed Bottom (Word (high (mem s) q - 1)) (oview s) Hi) as (m & th & Hst); try done.
    eexists. split; [eapply pop_lowers; [done| | |exact Hst]|done].
    + by eapply owner_plain.
    + eapply owner_plain; [done..|]. by eapply newest_ptr.
  - destruct Hok as (_ & _ & -> & _). destruct (c - 1 <? b - t) eqn:Hlt; [|eexists; split; [by eapply push_fits|done]].
    destruct (copy_items_defined (latest (mem s) ArrayPtr) c (length (caps s)) (c * 2) t (Z.to_nat (b - t))
      (mem s) (oview s)) as [[m th] Hcopy]; [apply lookup_lt_Some in Hc; lia|apply Hs|done|apply Hi|].
    destruct (owner_copies _ _ _ _ _ _ _ _ _ _ Hi Ho Hc Hcopy) as [Hcp _].
    destruct (store_defined Release ArrayPtr (Ptr (length (caps s))) m th) as [[m' th'] Hst];
      [apply Hcp|by apply (cp_cur _ _ _ _ _ Hcp (proj1 (inv_oknows _ _ _ Hi)))|].
    eexists. split; [by eapply push_resizes|done].
  - destruct Hok as (_ & _ & -> & _).
    destruct (owner_stores g q s Relaxed (item_at (latest (mem s) ArrayPtr) c b) (Content (Some x)) (oview s) Hi)
      as (m & th & Hst); try done.
    eexists. split; [by eapply push_stores|done].
  - destruct (owner_stores g q s Relaxed Bottom (Word (b + 1)) (fence_release (oview s)) Hi) as (m & th & Hst);
      [done|by apply fence_release_closed|done|].
    eexists. split; [by eapply push_publishes|done].
  - destruct (fence_seq_cst (mem s) (oview s)) as [m th] eqn:Hf.
    eexists. split; [by eapply pop_fences|done].
  - destruct (load_low Relaxed _ _ _ _ _ Hs Hth) as [th Hl].
    destruct (owner_can_pop s b a _ _ _ Hinv Ho Hl) as (s' & ? & _ & ?). exists s'. by rewrite <- Ho.
  - destruct Hok as (_ & _ & _ & _ & Hb & Hlast). destruct (decide (low (mem s) = b)) as [Hlow|Hne].
    + destruct (Hlast Hlow) as (y & -> & _).
      destruct (exchange_low SeqCst _ _ _ _ (oview s) (Word (b + 1)) Hs) as (m & th & He). rewrite Hlow in He.
      eexists. split; [by eapply pop_wins|done].
    + destruct (load_low Relaxed _ _ _ _ _ Hs Hth) as [th Hl].
      eexists. split; [by eapply pop_loses|done].
  - destruct (owner_stores g q s Relaxed Bottom (Word (b + 1)) (oview s) Hi) as (m & th & Hst); try done.
    eexists. split; [by eapply pop_raises|done].
Qed.
Lemma thief_can_move s j p th :
  inv s → thieves s !! j = Some (p, th) →
  ∃ s' p' th', thief_step j s p th s' ∧ thieves s' !! j = Some (p', th') ∧ p' ≠ p.
Proof.
  intros (g & q & Hi) Hj. destruct (inv_thieves _ _ _ Hi _ _ _ Hj) as [Hv Hp].
  pose proof (inv_shared _ _ _ Hi) as Hs. pose proof (vw_closed _ _ _ _ _ Hv) as Hth.
  assert (∀ p' th' r, (thieves r = <[j := (p', th')]> (thieves s)) → thief_step j s p th r → p' ≠ p →
    ∃ s' p' th', thief_step j s p th s' ∧ thieves s' !! j = Some (p', th') ∧ p' ≠ p) as Hgo.
  { intros p' th' r Hr Hst Hne. exists r, p', th'. split_and!; [done| |done]. rewrite Hr.
    apply list_lookup_insert_eq. by eapply lookup_lt_Some. }
  destruct p as [|t|t|t|t a|t x]; simpl in Hp.
  - destruct (load_low Acquire _ _ _ _ _ Hs Hth) as [th' Hl].
    eapply Hgo; [|by eapply steal_loads_top|]; done.
  - destruct (fence_seq_cst (mem s) th) as [m th'] eqn:Hf.
    eapply Hgo; [|by eapply steal_fences|]; done.
  - destruct (load_any Acquire (mem s) Bottom th) as (msg & th' & Hn & Hl); [apply Hs|done|].
    destruct (ms_bottom _ _ (sh_messages _ _ _ _ Hs) _ _ Hn) as [w Hw]. rewrite Hw in Hl.
    destruct (Z.lt_ge_cases t w); [eapply Hgo; [|by eapply steal_checks|]|eapply Hgo; [|by eapply steal_nothing|]]; done.
  - destruct (load_any Acquire (mem s) ArrayPtr th) as (msg & th' & Hn & Hl); [apply Hs|done|].
    rewrite (ms_array _ _ (sh_messages _ _ _ _ Hs) _ _ Hn) in Hl.
    eapply Hgo; [|by eapply steal_loads_array|]; done.
  - destruct Hp as (_ & Ha & _). pose proof (proj1 Hth ArrayPtr).
    destruct (lookup_lt_is_Some_2 (caps s) a) as [c Hc];
      [destruct (ms_caps _ _ (sh_messages _ _ _ _ Hs)) as [-> _]; lia|].
    destruct (plain_read (item_at a c t) (mem s) th) as [v|] eqn:Hr;
      [|eapply Hgo; [|by apply (steal_races j s t a th c None)|]; done].
    destruct (latest_message (mem s) (item_at a c t)) as [msg Hmsg]; [apply Hs|].
    destruct (ms_item _ _ (sh_messages _ _ _ _ Hs) _ _ _ _ Hmsg) as [x Hx].
    apply plain_read_inv in Hr as Hr'. destruct Hr' as [_ Hn]. rewrite (newest_lookup _ _ _ Hmsg), Hx in Hn.
    injection Hn as <-. eapply Hgo; [|by eapply steal_reads_item|]; done.
  - destruct Hp as (_ & Hd & _). destruct (decide (low (mem s) = t)) as [Hlow|Hne].
    + destruct (Hd Hlow) as (_ & y & -> & _).
      destruct (exchange_low SeqCst _ _ _ _ th (Word (t + 1)) Hs) as (m & th' & He). rewrite Hlow in He.
      eapply Hgo; [|by eapply steal_wins|]; done.
    + destruct (load_low Relaxed _ _ _ _ _ Hs Hth) as [th' Hl].
      eapply Hgo; [|by eapply steal_loses|]; done.
Qed.

(** Who exchanges [top_] has an item to take. *)
Lemma winner_has_item s t m th' :
  inv s →
  (∀ j x th, thieves s !! j = Some (TItem t x, th) →
     exchange SeqCst Top (Word (t + 1)) (mem s) th = Some (Word t, m, th') → is_Some x) ∧
  (∀ x, owner s = OPopLast t x →
     exchange SeqCst Top (Word (t + 1)) (mem s) (oview s) = Some (Word t, m, th') → is_Some x).
Proof.
  intros (g & q & Hi). pose proof (inv_shared _ _ _ Hi) as Hs.
  assert (∀ th, exchange SeqCst Top (Word (t + 1)) (mem s) th = Some (Word t, m, th') → low (mem s) = t) as Hlow.
  { intros th He. destruct (exchange_low SeqCst _ _ _ _ th (Word (t + 1)) Hs) as (? & ? & He'). congruence. }
  split.
  - intros j x th Hj He. destruct (inv_thieves _ _ _ Hi _ _ _ Hj) as [_ (_ & Hd & _)].
    destruct (Hd (Hlow _ He)) as (_ & y & -> & _). by eexists.
  - intros x Ho He. pose proof (inv_owner _ _ _ Hi) as Hok. unfold owner_ok in Hok. rewrite Ho in Hok.
    destruct Hok as (_ & _ & _ & _ & _ & Hlast). destruct (Hlast (Hlow _ He)) as (y & -> & _). by eexists.
Qed.

(** A thief whose read races is too late: [top_] is past its position. *)
Lemma racing_thief_loses s j t a th c :
  inv s → thieves s !! j = Some (TArray t a, th) → caps s !! a = Some c →
  plain_read (item_at a c t) (mem s) th = None → ∃ w, newest (mem s) Top = Some (Word w) ∧ t < w.
Proof.
  intros (g & q & Hi) Hj Hc Hr. pose proof (inv_shared _ _ _ Hi) as Hs.
  destruct (latest_message (mem s) Top) as [msg Hmsg]; [apply Hs|].
  destruct (ms_top _ _ (sh_messages _ _ _ _ Hs) _ _ Hmsg) as [Hw _].
  exists (low (mem s)). split; [by rewrite (newest_lookup _ _ _ Hmsg), Hw|].
  destruct (inv_thieves _ _ _ Hi _ _ _ Hj) as [_ (Hf & _)]. pose proof (sc_top _ _ _ _ Hs).
  destruct (decide (low (mem s) = t)) as [Hlow|]; [|lia].
  destruct (thief_knows_item _ _ _ _ _ _ _ _ Hi Hj Hc Hlow) as (y & _ & _ & Hread). congruence.
Qed.

(** A push overwrites only cells of positions it knows to be taken. *)
Lemma push_overwrites_taken s x b a c t :
  inv s → owner s = OPushReady x b a → caps s !! a = Some c → t < b →
  item_at a c t = item_at a c b → t < Z.of_nat (cur (oview s) Top).
Proof.
  intros (g & q & Hi) Ho Hc Hlt Heq. pose proof (inv_owner _ _ _ Hi) as Hok. unfold owner_ok in Hok.
  rewrite Ho in Hok. destruct Hok as (_ & _ & -> & Hroom). pose proof (inv_shared _ _ _ Hi) as Hs.
  rewrite (capacity_at _ _ _ _ _ Hs Hc) in Hroom. pose proof (capacity_power _ _ _ _ _ _ Hs Hc) as Hp.
  destruct (decide (b - t < c)); [|lia].
  exfalso. by apply (item_at_distinct (latest (mem s) ArrayPtr) c t b); [done|lia|].
Qed.

Lemma top_confined s v : inv s → exchange_confined (mem s) Top v.
Proof.
  intros (g & q & Hi) n msg Hn _ Hlt. pose proof (inv_shared _ _ _ Hi) as Hs.
  destruct (lookup_lt_is_Some_2 (cells (mem s) Top) (S n)) as [msg' Hn']; [unfold latest in Hlt; lia|].
  exists msg'. split; [done|]. by apply (ms_top _ _ (sh_messages _ _ _ _ Hs) _ _ Hn').
Qed.
End deque_weak.
Arguments state : clear implicits.
Arguments cell : clear implicits.

(** ** Properties *)


(** The array has grown; the thief, who still sees the old [bottom_] and the old array,
    steals, and the owner, who still sees the old [top_], pops. *)
Definition stale_run : state nat :=
  end_of exec [Owner (Some 1%nat) (Some 0%nat); Owner None None; Owner None None; Owner None None;
      Owner (Some 2%nat) (Some 0%nat); Owner None None; Owner None None; Owner None None;
      Thief 0 (Some 0%nat); Thief 0 None; Thief 0 (Some 1%nat); Thief 0 (Some 0%nat); Thief 0 (Some 1%nat);
      Thief 0 None;
      Owner None None; Owner None None; Owner None (Some 0%nat)]
    (state_new 1 1).

Lemma ws_stale_reachable : reachable initial step stale_run.
Proof.
  apply end_reachable; [apply ws_exec_step|]. exists 1, 1%nat. split; [by exists 0|done].
Qed.

(** A thief stalls before it reads its cell; the owner takes the item back and pushes
    another into the same cell. *)
Definition racing_run : state nat :=
  end_of exec [Owner (Some 1%nat) (Some 0%nat); Owner None None; Owner None None; Owner None None;
      Thief 0 (Some 0%nat); Thief 0 None; Thief 0 (Some 1%nat); Thief 0 (Some 0%nat);
      Owner None None; Owner None None; Owner None (Some 0%nat); Owner None None; Owner None None;
      Owner (Some 2%nat) (Some 1%nat); Owner None None; Owner None None]
    (state_new 1 1).

Lemma ws_racing_reachable : reachable initial step racing_run.
Proof.
  apply end_reachable; [apply ws_exec_step|]. exists 1, 1%nat. split; [by exists 0|done].
Qed.

