(* ===== verification/Seqlock.v ===== *)
(** * Sequence lock ([include/jellybean/concurrency/seqlock.hpp])

    Writers and readers of shared data, one access a step: the writing callback stores
    one cell at a time, the reading callback loads one cell at a time. The counter is a
    64-bit word and wraps; [history] lists the contents committed so far. *)
From S2P Require Import Prelude.
From S2P Require Import Transition.

Section seqlock.
Context {V : Type}.

(** ** Data *)

(** A [write] whose callback still has the stores [todo] to make: at the head of the
    loop; counter loaded; between the two increments. *)
Inductive writer :=
| WriterIdle
| WriterLoop (todo : list (nat * V))
| WriterCas (todo : list (nat * V)) (s : Z)
| Writing (todo : list (nat * V)) (s : Z).

(** A [read], with the number of commits when it was called: at the head of the loop;
    in the callback; before the second look at the counter. *)
Inductive reader :=
| ReaderIdle
| ReaderLoop (from : nat)
| Reading (from : nat) (s : Z) (result : list V)
| ReaderCheck (from : nat) (s : Z) (result : list V).

Record state := {
  seq_ : Z;
  data : list V;
  writers : list writer;
  readers : list reader;
  history : list (list V);
  results : list (nat * list V * nat) }.

Definition initial (s : state) : Prop := ∃ d nw nr, s = {|
  seq_ := 0; data := d; writers := replicate nw WriterIdle; readers := replicate nr ReaderIdle;
  history := [d]; results := [] |}.

(** ** State updates *)

Definition set_writer (s : state) (i : nat) (w : writer) : state := {|
  seq_ := seq_ s; data := data s; writers := <[i := w]> (writers s); readers := readers s;
  history := history s; results := results s |}.

Definition set_reader (s : state) (j : nat) (r : reader) : state := {|
  seq_ := seq_ s; data := data s; writers := writers s; readers := <[j := r]> (readers s);
  history := history s; results := results s |}.

Definition set_seq (s : state) (n : Z) : state := {|
  seq_ := n; data := data s; writers := writers s; readers := readers s;
  history := history s; results := results s |}.

Definition set_data (s : state) (d : list V) : state := {|
  seq_ := seq_ s; data := d; writers := writers s; readers := readers s;
  history := history s; results := results s |}.

Definition commit (s : state) : state := {|
  seq_ := seq_ s; data := data s; writers := writers s; readers := readers s;
  history := history s ++ [data s]; results := results s |}.

Definition return_value (s : state) (from : nat) (v : list V) : state := {|
  seq_ := seq_ s; data := data s; writers := writers s; readers := readers s;
  history := history s; results := results s ++ [(from, v, length (history s))] |}.

Definition is_odd (s : Z) : bool := negb (Z.land s 1 =? 0).

(** ** Steps *)

(** One step of [write]; the weak exchange may fail for no reason. *)
Inductive writer_step (i : nat) : writer → state → state → Prop :=
| write_called s todo :
    writer_step i WriterIdle s (set_writer s i (WriterLoop todo))
| write_spins s todo :
    is_odd (seq_ s) = true → writer_step i (WriterLoop todo) s s
| write_loads s todo :
    is_odd (seq_ s) = false →
    writer_step i (WriterLoop todo) s (set_writer s i (WriterCas todo (seq_ s)))
| write_locks s todo n :
    seq_ s = n →
    writer_step i (WriterCas todo n) s (set_writer (set_seq s (n +w 1)) i (Writing todo n))
| write_retries s todo n :
    writer_step i (WriterCas todo n) s (set_writer s i (WriterLoop todo))
| write_stores s k v todo n :
    writer_step i (Writing ((k, v) :: todo) n) s
      (set_writer (set_data s (<[k := v]> (data s))) i (Writing todo n))
| write_publishes s n :
    writer_step i (Writing [] n) s (set_writer (commit (set_seq s (n +w 2))) i WriterIdle).

(** One step of [read]. *)
Inductive reader_step (j : nat) : reader → state → state → Prop :=
| read_called s :
    reader_step j ReaderIdle s (set_reader s j (ReaderLoop (length (history s))))
| read_spins s from :
    is_odd (seq_ s) = true → reader_step j (ReaderLoop from) s s
| read_loads s from :
    is_odd (seq_ s) = false →
    reader_step j (ReaderLoop from) s (set_reader s j (Reading from (seq_ s) []))
| read_cell s from n result v :
    data s !! length result = Some v →
    reader_step j (Reading from n result) s (set_reader s j (Reading from n (result ++ [v])))
| read_copied s from n result :
    length result = length (data s) →
    reader_step j (Reading from n result) s (set_reader s j (ReaderCheck from n result))
| read_returns s from n result :
    seq_ s = n →
    reader_step j (ReaderCheck from n result) s
      (set_reader (return_value s from result) j ReaderIdle)
| read_retries s from n result :
    seq_ s ≠ n →
    reader_step j (ReaderCheck from n result) s (set_reader s j (ReaderLoop from)).

Inductive step (s s' : state) : Prop :=
| writer_moves i w : writers s !! i = Some w → writer_step i w s s' → step s s'
| reader_moves j r : readers s !! j = Some r → reader_step j r s s' → step s s'.

(** ** The invariant *)

Definition busy (w : writer) : list nat := match w with Writing _ _ => [0%nat] | _ => [] end.

Definition commits (s : state) : Z := Z.of_nat (length (history s)) - 1.

Definition writing (s : state) : Z := Z.of_nat (occ 0%nat (concat (busy <$> writers s))).

Definition writer_ok (s : state) (w : writer) : Prop :=
  match w with
  | WriterCas _ n => is_odd n = false
  | Writing _ n => n = 2 * commits s
  | _ => True
  end.

(** A reader whose snapshot of the counter is current has copied current data. *)
Definition reader_ok (s : state) (r : reader) : Prop :=
  match r with
  | ReaderIdle => True
  | ReaderLoop from => (from <= length (history s))%nat
  | Reading from n result =>
      (from <= length (history s))%nat ∧ is_odd n = false ∧ 0 <= n <= 2 * commits s ∧
      (seq_ s = n → result = take (length result) (data s))
  | ReaderCheck from n result =>
      (from <= length (history s))%nat ∧ is_odd n = false ∧ 0 <= n <= 2 * commits s ∧
      (seq_ s = n → result = data s)
  end.

(** What was returned is the content of some commit, no older than the call and no
    younger than the return. *)
Definition result_ok (s : state) (r : nat * list V * nat) : Prop :=
  let '(from, v, to) := r in
  ∃ k, (k < to <= length (history s))%nat ∧ (from <= S k)%nat ∧ history s !! k = Some v.

Record seqlock_ok (s : state) : Prop := {
  ok_seq : seq_ s = 2 * commits s + writing s;
  ok_single : writing s <= 1;
  ok_history : 0 <= commits s;
  ok_data : writing s = 0 → last (history s) = Some (data s);
  ok_writers : Forall (writer_ok s) (writers s);
  ok_readers : Forall (reader_ok s) (readers s);
  ok_results : Forall (result_ok s) (results s) }.

(** ** Lemmas *)

Lemma is_odd_spec n : is_odd n = Z.odd n.
Proof.
  unfold is_odd. assert (Z.land n 1 = n `mod` 2) as -> by by apply (Z.land_ones n 1).
  rewrite Zmod_odd. by destruct (Z.odd n).
Qed.

Lemma is_odd_double n w : 0 <= w <= 1 → is_odd (2 * n + w) = (0 <? w).
Proof.
  intros Hw. rewrite is_odd_spec, Z.odd_add, Z.odd_mul. simpl.
  assert (w = 0 ∨ w = 1) as [->| ->] by lia; done.
Qed.

Lemma writing_moves s i w w' :
  writers s !! i = Some w →
  Z.of_nat (occ 0%nat (concat (busy <$> <[i := w']> (writers s)))) + Z.of_nat (occ 0%nat (busy w)) =
  writing s + Z.of_nat (occ 0%nat (busy w')).
Proof.
  intros Hi. unfold writing. pose proof (occ_fmap_insert busy 0%nat (writers s) i w w' Hi). lia.
Qed.

Lemma writing_busy s i w :
  writers s !! i = Some w → Z.of_nat (occ 0%nat (busy w)) <= writing s.
Proof. intros Hi. pose proof (writing_moves s i w WriterIdle Hi). simpl in *. lia. Qed.

Lemma writing_nonneg s : 0 <= writing s.
Proof. unfold writing. lia. Qed.

Lemma seqlock_ok_init s : initial s → seqlock_ok s.
Proof.
  intros (d & nw & nr & ->).
  assert (∀ n, concat (busy <$> replicate n WriterIdle) = []) as Hb
    by (induction n as [|n IH]; [done|]; by rewrite replicate_S, fmap_cons).
  split; unfold writing, commits; simpl; rewrite ?Hb; simpl; try done.
  - by apply Forall_replicate.
  - by apply Forall_replicate.
Qed.

(** The counter is even exactly when nobody writes. *)
Lemma seq_parity s : seqlock_ok s → is_odd (seq_ s) = (0 <? writing s).
Proof.
  intros [Hs H1 _ _ _ _ _]. rewrite Hs. apply is_odd_double. pose proof (writing_nonneg s). lia.
Qed.

Lemma nobody_writes s w : writing s = 0 → w ∈ writers s → busy w = [].
Proof.
  intros H Hin. destruct (busy w) as [|b l] eqn:E; [done|]. exfalso.
  assert (0%nat ∈ concat (busy <$> writers s)) as H0.
  { apply list_elem_of_In, in_concat. exists (busy w). split.
    - apply list_elem_of_In, list_elem_of_fmap. by exists w.
    - destruct w; simpl in *; try done. by left. }
  apply occ_elem in H0. unfold writing in H. lia.
Qed.

Lemma results_grow s d l :
  Forall (result_ok s) (results s) →
  (∀ s', history s' = history s ++ d → results s' = results s ++ l → Forall (result_ok s') l →
     Forall (result_ok s') (results s')).
Proof.
  intros H s' Hh Hr Hl. rewrite Hr. apply Forall_app. split; [|done].
  apply (Forall_impl _ _ _ H). intros [[from v] to] (k & Hk & Hf & Hv). exists k.
  rewrite Hh, length_app. split; [lia|]. split; [done|]. by apply lookup_app_l_Some.
Qed.

(** Steps that change neither counter, data nor history. *)
Lemma place_writer_ok s i w w' :
  seqlock_ok s → writers s !! i = Some w → busy w = busy w' → writer_ok s w' →
  seqlock_ok (set_writer s i w').
Proof.
  intros [Hs H1 Hh Hd Hw Hr Hres] Hi Hb Hw'. pose proof (writing_moves s i w w' Hi) as Hm.
  assert (writing (set_writer s i w') = writing s) as He.
  { unfold writing at 1. simpl. rewrite Hb in Hm. lia. }
  split; rewrite ?He; try done. by apply Forall_insert.
Qed.

Lemma place_reader_ok s j r :
  seqlock_ok s → reader_ok s r → seqlock_ok (set_reader s j r).
Proof. intros [] ?. split; try done. by apply Forall_insert. Qed.

(** Readers cannot validate against a counter above every snapshot. *)
Lemma readers_overtaken s s' :
  (∀ n, is_odd n = false → 0 <= n <= 2 * commits s → seq_ s' ≠ n) →
  (length (history s) <= length (history s'))%nat →
  Forall (reader_ok s) (readers s) → Forall (reader_ok s') (readers s).
Proof.
  intros Hn Hh H. apply (Forall_impl _ _ _ H). clear H. unfold commits in *.
  intros [|from|from n result|from n result]; simpl; unfold commits; [done|lia| |];
    intros (Hf & Ho & Hr & Hc); (split; [lia|]); (split; [done|]); (split; [lia|]);
    intros Heq; exfalso; by eapply Hn.
Qed.

Lemma writer_step_ok s s' i w :
  2 * commits s + 2 < 2 ^ 64 → seqlock_ok s → writers s !! i = Some w → writer_step i w s s' →
  seqlock_ok s'.
Proof.
  intros Hbound Hok Hi Hstep. pose proof Hok as [Hs H1 Hh Hd Hw Hr Hres].
  pose proof (seq_parity s Hok) as Hpar. pose proof (writing_nonneg s) as Hnn.
  pose proof (Forall_lookup_1 _ _ _ _ Hw Hi) as Hwi.
  inversion Hstep as [|? todo Hodd|? todo Heven|? todo n Hn|? todo n|? k v todo n|? n]; subst; clear Hstep;
    simpl in Hwi.
  - by eapply place_writer_ok.
  - done.
  - by eapply place_writer_ok.
  - rewrite Hpar in Hwi. destruct (Z.ltb_spec 0 (writing s)); [done|].
    assert (writing s = 0) as Hw0 by lia. rewrite Hw0, Z.add_0_r in Hs.
    set (s' := set_writer _ _ _).
    assert (writing s' = 1) as Hw1.
    { pose proof (writing_moves s i _ (Writing todo (seq_ s)) Hi) as Hm. unfold writing at 1. simpl in *. lia. }
    assert (seq_ s' = 2 * commits s + 1) as Hs' by (simpl; rewrite Hs; apply u64_small; lia).
    split; rewrite ?Hs', ?Hw1; try done.
    + apply Forall_insert; [done|]. simpl. done.
    + apply (readers_overtaken s s'); [|done|done]. intros n Hev Hn. rewrite Hs'. intros <-.
      rewrite is_odd_double in Hev by lia. done.
  - by eapply place_writer_ok.
  - set (s' := set_writer _ _ _).
    pose proof (writing_moves s i _ (Writing todo n) Hi) as Hm. simpl in Hm.
    assert (writing s' = writing s) as Hw' by (unfold writing at 1; simpl; lia).
    assert (writing s = 1) as Hw1 by (pose proof (writing_busy s i _ Hi); simpl in *; lia).
    split; rewrite ?Hw'; try done; [rewrite Hw1; lia|by apply Forall_insert|].
    apply (readers_overtaken s s'); [|done|done]. intros m Hev Hrange.
    change (seq_ s') with (seq_ s). rewrite Hs, Hw1. intros <-. by rewrite is_odd_double in Hev by lia.
  - set (s' := set_writer _ _ _).
    pose proof (writing_moves s i _ WriterIdle Hi) as Hm. simpl in Hm.
    assert (writing s' = 0) as Hw'.
    { pose proof (writing_busy s i _ Hi). unfold writing at 1. simpl in *. lia. }
    assert (commits s' = commits s + 1) as Hc' by (unfold commits; simpl; rewrite length_app; simpl; lia).
    assert (seq_ s' = 2 * commits s + 2) as Hs' by (simpl; rewrite Hwi; apply u64_small; lia).
    split; rewrite ?Hs', ?Hw', ?Hc'; try lia.
    + intros _. simpl. by rewrite last_snoc.
    + apply Forall_forall. intros w0 Hin. pose proof (nobody_writes s' w0 Hw' Hin) as Hb.
      simpl in Hin. apply list_elem_of_lookup in Hin as [k Hk].
      destruct w0; try done. simpl. apply list_lookup_insert_Some in Hk as [(_ & ? & _)|[_ Hk]]; [done|].
      by apply (Forall_lookup_1 _ _ _ _ Hw Hk).
    + apply (readers_overtaken s s'); [|simpl; rewrite length_app; lia|done].
      intros m _ Hm'. rewrite Hs'. lia.
    + eapply (results_grow s [data s] []); try done. simpl. by rewrite app_nil_r.
Qed.

Lemma reader_step_ok s s' j r :
  seqlock_ok s → readers s !! j = Some r → reader_step j r s s' → seqlock_ok s'.
Proof.
  intros Hok Hj Hstep. pose proof Hok as [Hs H1 Hh Hd Hw Hr Hres].
  pose proof (seq_parity s Hok) as Hpar. pose proof (writing_nonneg s) as Hnn.
  pose proof (Forall_lookup_1 _ _ _ _ Hr Hj) as Hrj.
  inversion Hstep as [|? from Hodd|? from Heven|? from n result v Hv|? from n result Hl
    |? from n result Hn|? from n result Hn]; subst; clear Hstep; simpl in Hrj.
  - apply place_reader_ok; simpl; [done|lia].
  - done.
  - apply place_reader_ok; [done|]. simpl. rewrite Heven in Hpar. split; [done|]. split; [done|].
    destruct (Z.ltb_spec 0 (writing s)); [done|]. split; [lia|done].
  - apply place_reader_ok; [done|]. destruct Hrj as (Hf & Ho & Hrange & Hc). split_and!; try done; try lia.
    intros Heq. rewrite length_app. simpl. rewrite Nat.add_1_r, (take_S_r _ _ v) by done.
    by rewrite <- (Hc Heq).
  - apply place_reader_ok; [done|]. destruct Hrj as (Hf & Ho & Hrange & Hc). split_and!; try done; try lia.
    intros Heq. rewrite (Hc Heq), Hl. by rewrite firstn_all.
  - destruct Hrj as (Hf & Ho & Hrange & Hc). specialize (Hc eq_refl). subst result.
    rewrite Hpar in Ho. destruct (Z.ltb_spec 0 (writing s)); [done|].
    assert (last (history s) = Some (data s)) as Hlast by (apply Hd; lia).
    split; try done.
    + by apply Forall_insert.
    + eapply (results_grow s [] [_]); [done|by rewrite app_nil_r|done|].
      apply Forall_singleton. exists (length (history s) - 1)%nat. unfold commits in *. simpl.
      rewrite last_lookup in Hlast. split; [lia|]. split; [lia|]. by rewrite <- Nat.sub_1_r in Hlast.
  - apply place_reader_ok; simpl; [done|]. by destruct Hrj.
Qed.

Lemma commits_mono s s' : step s s' → commits s <= commits s'.
Proof.
  intros [i w _ Hs|j r _ Hs]; destruct Hs; unfold commits; simpl; rewrite ?length_app; lia.
Qed.

Lemma seqlock_reachable_ok s :
  reachable initial step s → commits s <= 2 ^ 63 - 2 → seqlock_ok s.
Proof.
  apply (reachable_ind_bounded _ _ seqlock_ok commits (2 ^ 63 - 2)).
  - apply seqlock_ok_init.
  - apply commits_mono.
  - intros s1 s2 Hok Hstep Hb. pose proof (commits_mono _ _ Hstep).
    destruct Hstep as [i w Hi Hs|j r Hj Hs]; [|by eapply reader_step_ok].
    apply (writer_step_ok s1 s2 i w); [lia|done|done|done].
Qed.
End seqlock.
Arguments state : clear implicits.

(** ** Properties *)

(** Reads are not torn. In every interleaving of writers and readers with fewer than
    [2^63 - 1] writes, at most one writer is between its two increments, and what a
    [read] returned is, cell for cell, the content some write had committed (or the
    initial one), committed no earlier than the last commit before the call and before
    the return. *)
Theorem seqlock_reads_committed {V} (s : state V) :
  reachable initial step s → commits s <= 2 ^ 63 - 2 →
  Forall (result_ok s) (results s) ∧ writing s <= 1 ∧
  (writing s = 0 → last (history s) = Some (data s)).
Proof. intros Hr Hb. by destruct (seqlock_reachable_ok s Hr Hb). Qed.

Ltac writer_does t := eapply rtc_l; [eapply (writer_moves _ _ 0%nat); [reflexivity|t]|].
Ltac reader_does t := eapply rtc_l; [eapply (reader_moves _ _ 0%nat); [reflexivity|t]|].

(** A read that meets a write and returns what it wrote. *)
Lemma retried_read :
  ∃ s : state nat, reachable initial step s ∧ results s = [(1%nat, [7; 8]%nat, 2%nat)] ∧ commits s = 1.
Proof.
  eexists. split.
  - eexists. split; [exists [1; 2]%nat, 1%nat, 1%nat; reflexivity|].
    reader_does ltac:(apply read_called). reader_does ltac:(by apply read_loads).
    reader_does ltac:(by apply (read_cell _ _ _ _ _ 1%nat)).
    writer_does ltac:(apply (write_called _ _ [(0, 7); (1, 8)]%nat)). writer_does ltac:(by apply write_loads).
    writer_does ltac:(by apply write_locks). writer_does ltac:(apply write_stores).
    reader_does ltac:(by apply (read_cell _ _ _ _ _ 2%nat)).
    reader_does ltac:(by apply read_copied). reader_does ltac:(by apply read_retries).
    writer_does ltac:(apply write_stores). writer_does ltac:(apply write_publishes).
    reader_does ltac:(by apply read_loads). reader_does ltac:(by apply (read_cell _ _ _ _ _ 7%nat)).
    reader_does ltac:(by apply (read_cell _ _ _ _ _ 8%nat)).
    reader_does ltac:(by apply read_copied). reader_does ltac:(apply read_returns; vm_compute; reflexivity).
    apply rtc_refl.
  - split; reflexivity.
Qed.

Lemma seqlock_reads_committed_witness :
  ∃ s : state nat, reachable initial step s ∧ results s = [(1%nat, [7; 8]%nat, 2%nat)] ∧
    Forall (result_ok s) (results s).
Proof.
  destruct retried_read as (s & Hr & Hres & Hc). exists s. split; [done|]. split; [done|].
  apply (seqlock_reads_committed s Hr). rewrite Hc. done.
Defined.
