(* ===== verification/SeqlockWeak.v ===== *)
(** * The sequence lock under weak memory
      ([include/jellybean/concurrency/seqlock.hpp])

    The accesses of [write] and [read] with the memory orders of the source, on the memory
    of [Weak], by any number of threads. The callbacks are arguments of [write] and [read]:
    here they store and load the shared cells one at a time and with relaxed atomics, which
    the lock needs; with plain cells, as the example in the tests has them, they race
    ([plain_cells_race]). A fence is taken with the access next to it. *)
From S2P Require Import Prelude.
From S2P Require Import Transition.
From S2P Require Import Weak.

(** ** Locations *)

Inductive loc := Seq | Cell (j : nat).

#[export] Instance loc_eq_dec : EqDecision loc.
Proof. solve_decision. Defined.

Section seqlock_weak.
Context {V : Type}.

Inductive cell := Word (n : Z) | Data (v : V).

(** Where a thread is. In [write], with the stores its callback has still to make: at the
    head of the loop; even counter loaded; between the increments. In [read], with the
    newest message of the counter it knew of when it called: at the head of the loop; in
    the callback; behind the fence. *)
Inductive point :=
| Idle
| WriteLoop (todo : list (nat * V))
| WriteCas (todo : list (nat * V)) (s : Z)
| Writing (todo : list (nat * V)) (s : Z)
| ReadLoop (from : nat)
| Reading (from : nat) (s : Z) (result : list V)
| ReadCheck (from : nat) (s : Z) (result : list V).

(** [width]: the number of cells; [history]: the contents committed; [results]: what reads
    returned, with what they knew when called. *)
Record state := {
  mem : memory loc cell;
  threads : list (point * thread loc);
  width : nat;
  history : list (list V);
  results : list (nat * list V) }.

Definition cells_new (d : list V) (v0 : V) (l : loc) : cell :=
  match l with Seq => Word 0 | Cell j => Data (default v0 (d !! j)) end.

Definition state_new (d : list V) (v0 : V) (n : nat) : state := {|
  mem := memory_new (cells_new d v0); threads := replicate n (Idle, thread_new);
  width := length d; history := [d]; results := [] |}.

Definition initial (s : state) : Prop := ∃ d v0 n, s = state_new d v0 n.

Definition is_odd (n : Z) : bool := negb (Z.land n 1 =? 0).

(** The newest data of the first [n] cells. *)
Definition contents (m : memory loc cell) (n : nat) : list V :=
  omap (λ j, match newest m (Cell j) with Some (Data v) => Some v | _ => None end) (seq 0 n).

(** ** Steps *)

(** One access of a thread at [p] that knows [th], in a lock of [n] cells; what it commits
    and what it returns. In [write_stores] and [read_cell] the callback [fn] accesses a
    cell, by a relaxed atomic store or load. *)
Inductive access (n : nat) : point → thread loc → memory loc cell →
    point → thread loc → memory loc cell → list (list V) → list (nat * list V) → Prop :=
| write_called th m todo :
    access n Idle th m (WriteLoop todo) th m [] []
| write_spins th m todo k s th' :
    load Relaxed Seq k m th = Some (Word s, th') → is_odd s = true →
    access n (WriteLoop todo) th m (WriteLoop todo) th' m [] []
| write_loads th m todo k s th' :
    load Relaxed Seq k m th = Some (Word s, th') → is_odd s = false →
    access n (WriteLoop todo) th m (WriteCas todo s) th' m [] []
| write_retries th m todo s k s' th' :
    load Relaxed Seq k m th = Some (Word s', th') →
    access n (WriteCas todo s) th m (WriteLoop todo) th' m [] []
| write_locks th m todo s m' th' :
    exchange AcqRel Seq (Word (s +w 1)) m th = Some (Word s, m', th') →
    access n (WriteCas todo s) th m (Writing todo s) (fence_release th') m' [] []
| write_stores th m j v todo s m' th' :
    store Relaxed (Cell j) (Data v) m th = Some (m', th') →
    access n (Writing ((j, v) :: todo) s) th m (Writing todo s) th' m' [] []
| write_publishes th m s m' th' :
    store Release Seq (Word (s +w 2)) m (fence_release th) = Some (m', th') →
    access n (Writing [] s) th m Idle th' m' [contents m n] []
| read_called th m :
    access n Idle th m (ReadLoop (cur th Seq)) th m [] []
| read_spins th m from k s th' :
    load Acquire Seq k m th = Some (Word s, th') → is_odd s = true →
    access n (ReadLoop from) th m (ReadLoop from) th' m [] []
| read_loads th m from k s th' :
    load Acquire Seq k m th = Some (Word s, th') → is_odd s = false →
    access n (ReadLoop from) th m (Reading from s []) th' m [] []
| read_cell th m from s result k v th' :
    (length result < n)%nat → load Relaxed (Cell (length result)) k m th = Some (Data v, th') →
    access n (Reading from s result) th m (Reading from s (result ++ [v])) th' m [] []
| read_copied th m from s result :
    length result = n →
    access n (Reading from s result) th m (ReadCheck from s result) (fence_acquire th) m [] []
| read_returns th m from s result k th' :
    load Relaxed Seq k m th = Some (Word s, th') →
    access n (ReadCheck from s result) th m Idle th' m [] [(from, result)]
| read_retries th m from s result k s' th' :
    load Relaxed Seq k m th = Some (Word s', th') → s' ≠ s →
    access n (ReadCheck from s result) th m (ReadLoop from) th' m [] [].

Inductive step (s : state) : state → Prop :=
| step_access t p th p' th' m' done ret :
    threads s !! t = Some (p, th) →
    access (width s) p th (mem s) p' th' m' done ret →
    step s {| mem := m'; threads := <[t := (p', th')]> (threads s); width := width s;
              history := history s ++ done; results := results s ++ ret |}
| step_learns t t' p th p' th' :
    threads s !! t = Some (p, th) → threads s !! t' = Some (p', th') →
    step s {| mem := mem s; threads := <[t := (p, learn (cur th') th)]> (threads s);
              width := width s; history := history s; results := results s |}.

(** The same as a function: who moves, what an idle thread calls, and the message its load
    reads; [None] is the exchange. *)
Inductive call := Write (todo : list (nat * V)) | Read.

Inductive choice := Act (t : nat) (c : call) (n : option nat) | Learns (t t' : nat).

Definition with_word (o : order) (n : option nat) (m : memory loc cell) (th : thread loc)
    (next : Z → point) : option (point * thread loc) :=
  match n with
  | Some n => match load o Seq n m th with
              | Some (Word w, th') => Some (next w, th')
              | _ => None
              end
  | None => None
  end.

Definition exec_access (width : nat) (c : call) (n : option nat) (p : point) (th : thread loc)
    (m : memory loc cell) :
    option (point * thread loc * memory loc cell * list (list V) * list (nat * list V)) :=
  let loaded (r : option (point * thread loc)) :=
    match r with Some (p', th') => Some (p', th', m, [], []) | None => None end in
  match p, n with
  | Idle, _ =>
      match c with
      | Write todo => Some (WriteLoop todo, th, m, [], [])
      | Read => Some (ReadLoop (cur th Seq), th, m, [], [])
      end
  | WriteLoop todo, _ =>
      loaded (with_word Relaxed n m th (λ w, if is_odd w then WriteLoop todo else WriteCas todo w))
  | WriteCas todo w, Some _ => loaded (with_word Relaxed n m th (λ _, WriteLoop todo))
  | WriteCas todo w, None =>
      match exchange AcqRel Seq (Word (w +w 1)) m th with
      | Some (Word u, m', th') =>
          if u =? w then Some (Writing todo w, fence_release th', m', [], []) else None
      | _ => None
      end
  | Writing ((j, v) :: todo) w, _ =>
      match store Relaxed (Cell j) (Data v) m th with
      | Some (m', th') => Some (Writing todo w, th', m', [], [])
      | None => None
      end
  | Writing [] w, _ =>
      match store Release Seq (Word (w +w 2)) m (fence_release th) with
      | Some (m', th') => Some (Idle, th', m', [contents m width], [])
      | None => None
      end
  | ReadLoop from, _ =>
      loaded (with_word Acquire n m th (λ w, if is_odd w then ReadLoop from else Reading from w []))
  | Reading from w result, Some k =>
      if decide (length result < width)%nat then
        match load Relaxed (Cell (length result)) k m th with
        | Some (Data v, th') => Some (Reading from w (result ++ [v]), th', m, [], [])
        | _ => None
        end
      else None
  | Reading from w result, None =>
      if decide (length result = width) then Some (ReadCheck from w result, fence_acquire th, m, [], [])
      else None
  | ReadCheck from w result, Some k =>
      match load Relaxed Seq k m th with
      | Some (Word u, th') =>
          if decide (u = w) then Some (Idle, th', m, [], [(from, result)])
          else Some (ReadLoop from, th', m, [], [])
      | _ => None
      end
  | ReadCheck _ _ _, None => None
  end.

Definition exec (c : choice) (s : state) : option state :=
  match c with
  | Act t call n =>
      match threads s !! t with
      | Some (p, th) =>
          match exec_access (width s) call n p th (mem s) with
          | Some (p', th', m', done, ret) =>
              Some {| mem := m'; threads := <[t := (p', th')]> (threads s); width := width s;
                      history := history s ++ done; results := results s ++ ret |}
          | None => None
          end
      | None => None
      end
  | Learns t t' =>
      match threads s !! t, threads s !! t' with
      | Some (p, th), Some (p', th') =>
          Some {| mem := mem s; threads := <[t := (p, learn (cur th') th)]> (threads s);
                  width := width s; history := history s; results := results s |}
      | _, _ => None
      end
  end.

Lemma seqlock_with_word_inv o n m th next p' th' :
  with_word o n m th next = Some (p', th') →
  ∃ k w, n = Some k ∧ load o Seq k m th = Some (Word w, th') ∧ p' = next w.
Proof. unfold with_word. intros H. repeat case_match; simplify_eq. eauto. Qed.

Lemma seqlock_exec_access_sound width c n p th m p' th' m' done ret :
  exec_access width c n p th m = Some (p', th', m', done, ret) →
  access width p th m p' th' m' done ret.
Proof.
  unfold exec_access. intros H.
  destruct p; repeat case_match; simplify_eq; try (by econstructor);
    repeat match goal with
    | E : with_word _ _ _ _ _ = Some _ |- _ => apply seqlock_with_word_inv in E as (? & ? & ? & ? & ->)
    | E : (_ =? _) = true |- _ => apply Z.eqb_eq in E; subst
    end; try (by econstructor).
  all: case_match; by econstructor.
Qed.

Lemma seqlock_exec_step c s s' : exec c s = Some s' → step s s'.
Proof.
  unfold exec. intros H. repeat case_match; simplify_eq.
  - eapply step_access; [done|by eapply seqlock_exec_access_sound].
  - by eapply step_learns.
Qed.

(** ** The invariant *)

Definition commits (s : state) : nat := pred (length (history s)).

Definition inside (p : point) : bool := match p with Writing _ _ => true | _ => false end.

(** [ver k j]: the message of cell [j] at commit [k]. *)
Abbreviation versions := (nat → nat → nat).

(** Message [k] of the counter. *)
Record seq_ok (m : memory loc cell) (C : nat) (ver : versions) : Prop := {
  sq_word : ∀ k msg, cells m Seq !! k = Some msg →
    value msg = Word (Z.of_nat k) ∧ (Nat.odd k = true → by_rmw msg = true);
  sq_latest : (2 * C <= latest m Seq <= 2 * C + 1)%nat;
  sq_carries : ∀ k msg j, cells m Seq !! (2 * k)%nat = Some msg →
    (ver k j <= carries msg (Cell j))%nat }.

(** The messages of the cells: what was committed, and what came after a commit carries
    that a writer was inside. *)
Record cells_ok (m : memory loc cell) (n C : nat) (hist : list (list V)) (ver : versions) : Prop := {
  cl_data : ∀ j k msg, cells m (Cell j) !! k = Some msg → ∃ v, value msg = Data v;
  cl_width : ∀ k d, hist !! k = Some d → length d = n;
  cl_version : ∀ k j, (k <= C)%nat → (j < n)%nat → ∃ msg v, cells m (Cell j) !! ver k j = Some msg ∧
    value msg = Data v ∧ hist !! k ≫= (.!! j) = Some v;
  cl_later : ∀ k j i msg, (k <= C)%nat → cells m (Cell j) !! i = Some msg →
    (ver k j < i)%nat → (2 * k + 1 <= carries msg Seq)%nat }.

(** What a thread knows, by where it is. *)
Definition point_ok (m : memory loc cell) (n C : nat) (hist : list (list V)) (ver : versions)
    (p : point) (th : thread loc) : Prop :=
  match p with
  | Idle | WriteLoop _ => True
  | WriteCas _ s => is_odd s = false
  | Writing todo s => s = Z.of_nat (2 * C) ∧ latest m Seq = (2 * C + 1)%nat ∧
      (2 * C + 1 <= cur th Seq)%nat ∧ (2 * C + 1 <= rel th Seq)%nat ∧
      (∀ j, (latest m (Cell j) <= cur th (Cell j))%nat)
  | ReadLoop from => (from <= cur th Seq)%nat
  | Reading from s result => ∃ k, s = Z.of_nat (2 * k) ∧ (k <= C)%nat ∧ (from <= (2 * k) `min` cur th Seq)%nat ∧
      (∀ j, (ver k j <= cur th (Cell j))%nat) ∧ (length result <= n)%nat ∧
      ((∀ j v, result !! j = Some v → hist !! k ≫= (.!! j) = Some v) ∨ (2 * k + 1 <= acq th Seq)%nat)
  | ReadCheck from s result => ∃ k, s = Z.of_nat (2 * k) ∧ (k <= C)%nat ∧ (from <= (2 * k) `min` cur th Seq)%nat ∧
      (hist !! k = Some result ∨ (2 * k + 1 <= cur th Seq)%nat)
  end.

Record inv_with (ver : versions) (s : state) : Prop := {
  inv_memory : memory_ok (mem s);
  inv_history : (0 < length (history s))%nat;
  inv_seq : seq_ok (mem s) (commits s) ver;
  inv_cells : cells_ok (mem s) (width s) (commits s) (history s) ver;
  inv_threads : ∀ t p th, threads s !! t = Some (p, th) → thread_closed (mem s) th ∧
    point_ok (mem s) (width s) (commits s) (history s) ver p th;
  inv_writer : ∀ t t' p p' th th', threads s !! t = Some (p, th) → threads s !! t' = Some (p', th') →
    inside p = true → inside p' = true → t = t';
  inv_unlocked : (∃ t p th, threads s !! t = Some (p, th) ∧ inside p = true) ∨
    latest (mem s) Seq = (2 * commits s)%nat ∧
    (∀ j, latest (mem s) (Cell j) = ver (commits s) j);
  inv_results : ∀ from r, (from, r) ∈ results s →
    ∃ k, (from <= 2 * k)%nat ∧ history s !! k = Some r }.

Definition inv (s : state) : Prop := ∃ ver, inv_with ver s.

(** ** Words *)

Lemma is_odd_nat k : is_odd (Z.of_nat k) = Nat.odd k.
Proof.
  unfold is_odd. rewrite Z.land_ones with (n := 1) by lia. change (2 ^ 1) with 2.
  destruct (Nat.Even_or_Odd k) as [[j ->]|[j ->]].
  - rewrite Nat.odd_even. replace (Z.of_nat (2 * j)) with (Z.of_nat j * 2) by lia.
    by rewrite Z_mod_mult.
  - rewrite Nat.odd_odd. replace (Z.of_nat (2 * j + 1)) with (1 + Z.of_nat j * 2) by lia.
    by rewrite Z_mod_plus_full.
Qed.

Lemma even_double k : Nat.odd k = false → ∃ j, k = (2 * j)%nat.
Proof.
  intros H. destruct (Nat.Even_or_Odd k) as [[j ->]|[j ->]]; [by exists j|].
  by rewrite Nat.odd_odd in H.
Qed.

(** ** Loads *)

(** A load of the counter reads the number of its message. *)
Lemma load_seq o m C ver k th w th' :
  seq_ok m C ver → load o Seq k m th = Some (Word w, th') →
  w = Z.of_nat k ∧ (cur th Seq <= k)%nat ∧ (k <= 2 * C + 1)%nat ∧
  ∃ msg, cells m Seq !! k = Some msg ∧ th' = see o Seq k msg th.
Proof.
  intros Hs (msg & Hn & Hv & Hle & ->)%load_inv. destruct (sq_word _ _ _ Hs _ _ Hn) as [Hw _].
  pose proof (sq_latest _ _ _ Hs) as Hl. apply lookup_lt_Some in Hn as Hlt. unfold latest in Hl.
  split_and!; [congruence|done|lia|by exists msg].
Qed.

(** ** Knowing more *)

Definition thread_le (th th' : thread loc) : Prop :=
  view_le (cur th) (cur th') ∧ view_le (acq th) (acq th') ∧ view_le (rel th) (rel th').

Lemma point_ok_le m n C hist ver p th th' :
  thread_le th th' → point_ok m n C hist ver p th → point_ok m n C hist ver p th'.
Proof.
  intros (H1 & H2 & H3). pose proof (H1 Seq). pose proof (H2 Seq). pose proof (H3 Seq).
  destruct p; simpl; try done; try lia.
  - intros (-> & ? & ? & ? & Hc). split_and!; try done; try lia.
    intros j. specialize (Hc j). specialize (H1 (Cell j)). lia.
  - intros (k & -> & ? & ? & Hc & ? & Hr). exists k. split_and!; try done; try lia.
    + intros j. specialize (Hc j). specialize (H1 (Cell j)). lia.
    + destruct Hr; [by left|right; lia].
  - intros (k & -> & ? & ? & Hr). exists k. split_and!; try done; try lia. destruct Hr; [by left|right; lia].
Qed.

Lemma learn_le from th : thread_le th (learn from th).
Proof. split_and!; simpl; [apply join_l|apply join_l|done]. Qed.

Lemma see_le o l n (msg : message loc cell) th : thread_le th (see o l n msg th).
Proof. split_and!; simpl; [apply join_l|apply join_l|done]. Qed.

(** ** Preservation *)

(** A step that stores nothing. *)
Lemma seqlock_inv_local ver s t p th p' th' ret :
  inv_with ver s → threads s !! t = Some (p, th) → inside p' = inside p →
  thread_closed (mem s) th' → point_ok (mem s) (width s) (commits s) (history s) ver p' th' →
  (∀ from r, (from, r) ∈ ret → ∃ k, (from <= 2 * k)%nat ∧ history s !! k = Some r) →
  inv_with ver {| mem := mem s; threads := <[t := (p', th')]> (threads s); width := width s;
                  history := history s; results := results s ++ ret |}.
Proof.
  intros [] Ht Hin Hcl Hpt Hret.
  assert (t < length (threads s))%nat as Hlt by by eapply lookup_lt_Some.
  assert (∀ t0 p0 th0, <[t := (p', th')]> (threads s) !! t0 = Some (p0, th0) → inside p0 = true →
    ∃ p1 th1, threads s !! t0 = Some (p1, th1) ∧ inside p1 = true) as Hback.
  { intros t0 p0 th0 H0 Hi0. apply list_lookup_insert_Some in H0 as [(<- & [= <- <-] & _)|[_ H0]].
    - exists p, th. split; [done|congruence].
    - by exists p0, th0. }
  split; simpl; try done.
  - intros t0 p0 th0 H0. apply list_lookup_insert_Some in H0 as [(<- & [= <- <-] & _)|[_ H0]]; [done|].
    by eapply inv_threads0.
  - intros t1 t2 p1 p2 th1 th2 H1 H2 Hi1 Hi2.
    destruct (Hback _ _ _ H1 Hi1) as (? & ? & ? & ?). destruct (Hback _ _ _ H2 Hi2) as (? & ? & ? & ?).
    by eapply inv_writer0.
  - destruct inv_unlocked0 as [(t0 & p0 & th0 & H0 & Hi0)|]; [left|by right].
    destruct (decide (t0 = t)) as [->|Hne].
    + exists t, p', th'. rewrite list_lookup_insert_eq by done. split; [done|].
      simplify_eq. congruence.
    + exists t0, p0, th0. by rewrite list_lookup_insert_ne.
  - intros from r [Hr|Hr]%elem_of_app; [by apply inv_results0|by apply Hret].
Qed.

(** A step by which the only thread inside stores, enters or leaves. *)
Lemma inv_store ver ver' C' s t p th p' th' m' done :
  inv_with ver s → threads s !! t = Some (p, th) →
  memory_ok m' → memory_le (mem s) m' →
  C' = (commits s + length done)%nat → seq_ok m' C' ver' → cells_ok m' (width s) C' (history s ++ done) ver' →
  (∀ k j, (k <= commits s)%nat → ver' k j = ver k j) →
  thread_closed m' th' → point_ok m' (width s) C' (history s ++ done) ver' p' th' →
  (∀ t0 p0 th0, t0 ≠ t → threads s !! t0 = Some (p0, th0) → inside p0 = false) →
  (inside p' = true ∨ latest m' Seq = (2 * C')%nat ∧ (∀ j, latest m' (Cell j) = ver' C' j)) →
  inv_with ver' {| mem := m'; threads := <[t := (p', th')]> (threads s); width := width s;
                   history := history s ++ done; results := results s ++ [] |}.
Proof.
  intros [] Ht Hm Hle HC' Hsq Hcl Hver Hth Hpt Hout Hun.
  assert (t < length (threads s))%nat as Hlt by by eapply lookup_lt_Some.
  assert (pred (length (history s ++ done)) = C') as HC.
  { rewrite length_app, HC'. unfold commits in *. lia. }
  split; unfold commits; simpl; rewrite ?HC, ?app_nil_r; try done.
  - rewrite length_app. lia.
  - intros t0 p0 th0 H0. apply list_lookup_insert_Some in H0 as [(<- & [= <- <-] & _)|[Hne H0]]; [done|].
    destruct (inv_threads0 t0 p0 th0 H0) as [Hcl0 Hp0]. split; [by eapply thread_closed_mono|].
    pose proof (Hout t0 p0 th0 ltac:(congruence) H0) as Hi0.
    assert (∀ k, (k <= commits s)%nat → (history s ++ done) !! k = history s !! k) as Hh.
    { intros k Hk. apply lookup_app_l. unfold commits in Hk. lia. }
    destruct p0; simpl in *; try done.
    + destruct Hp0 as (k & -> & Hk & ? & Hc & ? & Hr). exists k.
      split_and!; try done; [lia| |]; [intros j; by rewrite Hver by done|].
      destruct Hr as [Hr|]; [left|by right]. by rewrite Hh.
    + destruct Hp0 as (k & -> & Hk & ? & Hr). exists k.
      split_and!; try done; [lia|]. by rewrite Hh by done.
  - intros t1 t2 p1 p2 th1 th2 H1 H2 Hi1 Hi2.
    apply list_lookup_insert_Some in H1 as [(<- & [= <- <-] & _)|[Hne1 H1]];
      apply list_lookup_insert_Some in H2 as [(<- & [= <- <-] & _)|[Hne2 H2]]; try done.
    + pose proof (Hout t2 p2 th2 ltac:(congruence) H2). congruence.
    + pose proof (Hout t1 p1 th1 ltac:(congruence) H1). congruence.
    + pose proof (Hout t1 p1 th1 ltac:(congruence) H1). congruence.
  - destruct Hun as [Hin|]; [left|by right]. exists t, p', th'.
    by rewrite list_lookup_insert_eq.
  - intros from r Hr. destruct (inv_results0 from r Hr) as (k & ? & Hk). exists k.
    split; [done|]. by apply lookup_app_l_Some.
Qed.

Lemma contents_spec (m : memory loc cell) n hist C ver :
  memory_ok m → cells_ok m n C hist ver →
  length (contents m n) = n ∧ ∀ j, (j < n)%nat → ∃ msg v, cells m (Cell j) !! latest m (Cell j) = Some msg ∧
    value msg = Data v ∧ contents m n !! j = Some v.
Proof.
  intros Hm Hc. unfold contents.
  assert (∀ j, ∃ msg v, cells m (Cell j) !! latest m (Cell j) = Some msg ∧ value msg = Data v ∧
    newest m (Cell j) = Some (Data v)) as Hnew.
  { intros j. destruct (latest_message m (Cell j) Hm) as [msg Hmsg].
    destruct (cl_data _ _ _ _ _ Hc _ _ _ Hmsg) as [v Hv]. exists msg, v.
    split_and!; [done|done|]. rewrite <- Hv. by apply newest_lookup. }
  set (f := λ j, match newest m (Cell j) with Some (Data v) => Some v | _ => None end).
  assert (∀ n a, length (omap f (seq a n)) = n ∧
    ∀ j, (j < n)%nat → omap f (seq a n) !! j = f (a + j)%nat) as Hom.
  { clear n Hc. induction n as [|n IH]; intros a; [split; [done|intros; lia]|].
    destruct (IH (S a)) as [IH1 IH2]. destruct (Hnew a) as (msg & v & _ & _ & Hv).
    assert (f a = Some v) as Hfa by (unfold f; by rewrite Hv). csimpl. rewrite Hfa. split; [simpl; lia|].
    intros [|j] Hj; [by rewrite Nat.add_0_r|]. simpl. rewrite IH2 by lia. f_equal. lia. }
  destruct (Hom n 0%nat) as [H1 H2]. split; [done|]. intros j Hj. destruct (Hnew j) as (msg & v & ? & ? & Hv).
  exists msg, v. split_and!; [done|done|]. rewrite H2 by done. unfold f. simpl. by rewrite Hv.
Qed.

Lemma inv_locks ver s t th todo w m' th' :
  inv_with ver s → threads s !! t = Some (WriteCas todo w, th) →
  Z.of_nat (length (history s)) < 2 ^ 63 →
  exchange AcqRel Seq (Word (w +w 1)) (mem s) th = Some (Word w, m', th') →
  inv_with ver {| mem := m'; threads := <[t := (Writing todo w, fence_release th')]> (threads s);
                  width := width s; history := history s ++ []; results := results s ++ [] |}.
Proof.
  intros Hi Ht Hb He. pose proof (inv_threads _ _ Hi _ _ _ Ht) as [Hcl Hodd]. simpl in Hodd.
  destruct (exchange_ok _ _ _ _ _ _ _ _ (inv_memory _ _ Hi) Hcl He) as (Hm & Hth & Hle).
  apply exchange_inv in He as (msg & Hn & Hv & Hth' & ->); [|apply Hi].
  pose proof (inv_seq _ _ Hi) as Hs. destruct (sq_word _ _ _ Hs _ _ Hn) as [Hw _].
  assert (w = Z.of_nat (latest (mem s) Seq)) as -> by congruence. rewrite is_odd_nat in Hodd.
  pose proof (sq_latest _ _ _ Hs) as Hlat. set (C := commits s) in *.
  assert (latest (mem s) Seq = (2 * C)%nat) as Hl.
  { destruct (even_double _ Hodd) as [j Hj]. lia. }
  pose proof (ok_inhabited _ (inv_memory _ _ Hi) Seq) as Hpos.
  assert (length (cells (mem s) Seq) = (2 * C + 1)%nat) as Hlen by (unfold latest in Hl; lia).
  destruct (inv_unlocked _ _ Hi) as [(t0 & p0 & th0 & H0 & Hi0)|[_ Hcells]].
  { destruct p0; try done. destruct (inv_threads _ _ Hi _ _ _ H0) as [_ (_ & Hl0 & _)].
    fold C in Hl0. lia. }
  fold C in Hcells.
  assert (∀ t0 p0 th0, threads s !! t0 = Some (p0, th0) → inside p0 = false) as Hout.
  { intros t0 p0 th0 H0. destruct p0; try done.
    destruct (inv_threads _ _ Hi _ _ _ H0) as [_ (_ & Hl0 & _)]. fold C in Hl0. lia. }
  assert ((2 * C + 1 <= cur th' Seq)%nat ∧ ∀ j, (latest (mem s) (Cell j) <= cur th' (Cell j))%nat) as [HS HC].
  { rewrite Hth', Hlen, Hl. simpl. unfold join. rewrite !at_same. split; [lia|]. intros j.
    pose proof (sq_carries _ _ _ Hs C msg j) as Hc. rewrite <- Hl in Hc. specialize (Hc Hn).
    rewrite Hcells. lia. }
  eapply (inv_store ver ver C s t _ _ _ _ _ [] Hi Ht); [done|done|simpl; lia| | |done| |..].
  - split.
    + intros k msg'. rewrite cells_push_same. intros [Hk|[Hk Hmsg]]%lookup_app_Some.
      * by apply (sq_word _ _ _ Hs).
      * apply list_lookup_singleton_Some in Hmsg as [Hk' <-]. rewrite Hlen in *.
        assert (k = 2 * C + 1)%nat as -> by lia. simpl. split; [|done]. rewrite Hl. f_equal.
        unfold C, commits in *. word_lia.
    + rewrite latest_push_same by done. lia.
    + intros k msg' j. rewrite cells_push_same. intros [Hk|[Hk Hmsg]]%lookup_app_Some.
      * by apply (sq_carries _ _ _ Hs).
      * apply list_lookup_singleton_Some in Hmsg as [Hk' <-]. lia.
  - rewrite app_nil_r. destruct (inv_cells _ _ Hi) as [C1 C2 C3 C4].
    assert (∀ j, cells (push_message (mem s) Seq {| value := Word (Z.of_nat (latest (mem s) Seq) +w 1);
      carries := join (carries msg) (handed_on AcqRel Seq (length (cells (mem s) Seq)) th');
      by_rmw := true |}) (Cell j) = cells (mem s) (Cell j)) as Hce by (intros; by apply cells_push_other).
    split; intros *; rewrite ?Hce; eauto.
  - by apply fence_release_closed.
  - simpl. rewrite latest_push_same by done. split_and!; try lia.
    intros j. rewrite latest_push_other by done. apply HC.
  - intros t0 p0 th0 _. apply Hout.
  - by left.
Qed.

(** Others are outside while a thread is inside. *)
Lemma others_outside ver s t p th :
  inv_with ver s → threads s !! t = Some (p, th) → inside p = true →
  ∀ t0 p0 th0, t0 ≠ t → threads s !! t0 = Some (p0, th0) → inside p0 = false.
Proof.
  intros Hi Ht Hp t0 p0 th0 Hne H0. destruct (inside p0) eqn:E; [|done]. exfalso. apply Hne.
  by eapply (inv_writer _ _ Hi).
Qed.

Lemma inv_stores ver s t th j v todo w m' th' :
  inv_with ver s → threads s !! t = Some (Writing ((j, v) :: todo) w, th) →
  store Relaxed (Cell j) (Data v) (mem s) th = Some (m', th') →
  inv_with ver {| mem := m'; threads := <[t := (Writing todo w, th')]> (threads s);
                  width := width s; history := history s ++ []; results := results s ++ [] |}.
Proof.
  intros Hi Ht He. pose proof (inv_threads _ _ Hi _ _ _ Ht) as [Hcl Hp]. simpl in Hp.
  destruct Hp as (-> & Hl & Hcur & Hrel & Hknow).
  destruct (store_ok _ _ _ _ _ _ _ (inv_memory _ _ Hi) Hcl He) as (Hm & Hth & Hle).
  apply store_inv in He as (_ & -> & ->). set (C := commits s) in *.
  pose proof (ok_inhabited _ (inv_memory _ _ Hi) (Cell j)) as Hpos.
  pose proof (inv_seq _ _ Hi) as [S1 S2 S3]. pose proof (inv_cells _ _ Hi) as [C1 C2 C3 C4].
  eapply (inv_store ver ver C s t _ _ _ _ _ [] Hi Ht); [done|done|simpl; lia| | |done|done| |..].
  - split.
    + intros k msg. rewrite cells_push_other by done. apply S1.
    + by rewrite latest_push_other.
    + intros k msg i. rewrite cells_push_other by done. apply S3.
  - rewrite app_nil_r. split; [| done| |].
    + intros i k msg. destruct (decide (i = j)) as [->|Hne].
      * rewrite cells_push_same. intros [Hk|[Hk Hmsg]]%lookup_app_Some; [by eapply C1|].
        apply list_lookup_singleton_Some in Hmsg as [_ <-]. by exists v.
      * rewrite cells_push_other by congruence. apply C1.
    + intros k i Hk Hin. destruct (C3 k i Hk Hin) as (msg & u & Hmsg & ? & ?). exists msg, u.
      split_and!; [|done|done]. by eapply prefix_lookup_Some.
    + intros k i i' msg Hk. destruct (decide (i = j)) as [->|Hne].
      * rewrite cells_push_same. intros [Hi'|[Hi' Hmsg]]%lookup_app_Some Hver; [by eapply C4|].
        apply list_lookup_singleton_Some in Hmsg as [_ <-]. simpl. unfold handed_on, join. simpl.
        fold C in Hk. lia.
      * rewrite cells_push_other by congruence. by apply C4.
  - simpl. unfold join. rewrite latest_push_other by done. split_and!; try lia.
    intros i. specialize (Hknow i). destruct (decide (i = j)) as [->|Hne].
    + rewrite latest_push_same, at_same by done. unfold latest. lia.
    + rewrite latest_push_other by congruence. lia.
  - by eapply others_outside.
  - by left.
Qed.

Lemma inv_publishes ver s t th w m' th' :
  inv_with ver s → threads s !! t = Some (Writing [] w, th) →
  Z.of_nat (length (history s)) < 2 ^ 62 →
  store Release Seq (Word (w +w 2)) (mem s) (fence_release th) = Some (m', th') →
  inv {| mem := m'; threads := <[t := (Idle, th')]> (threads s); width := width s;
         history := history s ++ [contents (mem s) (width s)]; results := results s ++ [] |}.
Proof.
  intros Hi Ht Hb He. pose proof (inv_threads _ _ Hi _ _ _ Ht) as [Hcl Hp]. simpl in Hp.
  destruct Hp as (-> & Hl & Hcur & Hrel & Hknow).
  destruct (store_ok _ _ _ _ _ _ _ (inv_memory _ _ Hi) (fence_release_closed _ _ Hcl) He) as (Hm & Hth & Hle).
  apply store_inv in He as (_ & Hth' & ->). set (C := commits s) in *.
  pose proof (ok_inhabited _ (inv_memory _ _ Hi) Seq) as Hpos.
  assert (length (cells (mem s) Seq) = (2 * C + 2)%nat) as Hlen by (unfold latest in Hl; lia).
  pose proof (inv_history _ _ Hi) as Hh0.
  assert (length (history s) = S C) as HhC by (unfold C, commits; lia).
  pose proof (inv_seq _ _ Hi) as [S1 S2 S3]. pose proof (inv_cells _ _ Hi) as Hcells.
  pose proof Hcells as [C1 C2 C3 C4].
  destruct (contents_spec _ _ _ _ _ (inv_memory _ _ Hi) Hcells) as [Hcw Hcont].
  set (ver' := λ k j, if decide (k <= C)%nat then ver k j else latest (mem s) (Cell j)).
  assert (∀ k j, (k <= C)%nat → ver' k j = ver k j) as Hver
    by (intros k j Hk; unfold ver'; by rewrite decide_True).
  assert (∀ j, ver' (S C) j = latest (mem s) (Cell j)) as Hver'
    by (intros j; unfold ver'; rewrite decide_False by lia; done).
  assert (∀ j, (latest (mem s) (Cell j) <= cur th' (Cell j))%nat) as Hknow'.
  { intros j. rewrite Hth'. simpl. unfold join. specialize (Hknow j). lia. }
  exists ver'.
  eapply (inv_store ver ver' (S C) s t _ _ _ _ _ [_] Hi Ht); [done|done|simpl; lia| | |done|done|done|..].
  - split.
    + intros k msg. rewrite cells_push_same. intros [Hk|[Hk Hmsg]]%lookup_app_Some; [by apply S1|].
      apply list_lookup_singleton_Some in Hmsg as [Hk' <-]. rewrite Hlen in *.
      assert (k = 2 * (C + 1))%nat as -> by lia. simpl value. split; [f_equal; word_lia|].
      by rewrite Nat.odd_even.
    + rewrite latest_push_same by done. lia.
    + intros k msg j. rewrite cells_push_same. intros [Hk|[Hk Hmsg]]%lookup_app_Some.
      * rewrite Hver; [by apply S3|]. apply lookup_lt_Some in Hk. lia.
      * apply list_lookup_singleton_Some in Hmsg as [Hk' <-].
        assert (k = S C) as -> by lia. rewrite Hver'. simpl. unfold handed_on, join. simpl.
        specialize (Hknow j). unfold join. lia.
  - assert (∀ m j, cells (push_message (mem s) Seq m) (Cell j) = cells (mem s) (Cell j)) as Hce
      by (intros; by apply cells_push_other).
    split.
    + intros j k msg. rewrite Hce. apply C1.
    + intros k d [Hk|[Hk Hd]]%lookup_app_Some; [by eapply C2|].
      by apply list_lookup_singleton_Some in Hd as [_ <-].
    + intros k j Hk Hj. rewrite Hce. destruct (decide (k <= C)%nat) as [HkC|HkC].
      * rewrite Hver by done. destruct (C3 k j HkC Hj) as (msg & v & ? & ? & ?). exists msg, v.
        split_and!; [done|done|]. by rewrite lookup_app_l by lia.
      * assert (k = S C) as -> by lia. rewrite Hver'. destruct (Hcont j Hj) as (msg & v & ? & ? & Hv).
        exists msg, v. split_and!; [done|done|].
        rewrite lookup_app_r, HhC, Nat.sub_diag by lia. done.
    + intros k j i msg Hk. rewrite Hce. intros Hi' Hlt. destruct (decide (k <= C)%nat) as [HkC|HkC].
      * rewrite Hver in Hlt by done. by eapply C4.
      * assert (k = S C) as -> by lia. rewrite Hver' in Hlt. apply lookup_lt_Some in Hi'.
        unfold latest in Hlt. lia.
  - by eapply others_outside.
  - right. rewrite latest_push_same by done. split; [lia|]. intros j.
    by rewrite latest_push_other, Hver' by done.
Qed.

Lemma access_local n p th m p' th' m' done ret :
  access n p th m p' th' m' done ret → inside p = false → inside p' = false →
  m' = m ∧ done = [].
Proof. by destruct 1. Qed.

(** What a step that stores nothing makes of what the thread knows. *)
Lemma point_ok_local ver s t p th p' th' ret :
  inv_with ver s → threads s !! t = Some (p, th) →
  access (width s) p th (mem s) p' th' (mem s) [] ret → inside p' = false →
  thread_closed (mem s) th' ∧ point_ok (mem s) (width s) (commits s) (history s) ver p' th' ∧
  ∀ from r, (from, r) ∈ ret → ∃ k, (from <= 2 * k)%nat ∧ history s !! k = Some r.
Proof.
  intros Hi Ht Ha Hin. pose proof (inv_threads _ _ Hi _ _ _ Ht) as [Hcl Hp].
  pose proof (inv_seq _ _ Hi) as Hs. pose proof (inv_cells _ _ Hi) as [C1 C2 C3 C4].
  pose proof (inv_memory _ _ Hi) as Hm. set (C := commits s) in *.
  assert (∀ from r, (from, r) ∈ @nil (nat * list V) →
    ∃ k, (from <= 2 * k)%nat ∧ history s !! k = Some r) as Hnil by (by intros ?? ?%elem_of_nil).
  remember (mem s) as m eqn:Em. remember (width s) as n eqn:En. remember [] as done eqn:Ed.
  destruct Ha; subst; simpl in Hin, Hp; try discriminate.
  all: try match goal with H : load _ _ _ _ _ = Some _ |- _ =>
    pose proof (load_closed _ _ _ _ _ _ _ Hm Hcl H) end.
  all: try (split_and!; [done|done|exact Hnil]).
  - split_and!; [by apply fence_acquire_closed||done| |exact Hnil]. simpl. lia.
  - apply (load_seq _ _ _ _ _ _ _ _ Hs) in H as (-> & ? & ? & msg & ? & ->).
    split_and!; [done| |exact Hnil]. eapply (point_ok_le _ _ _ _ _ (ReadLoop from)); [apply see_le|done].
  - apply (load_seq _ _ _ _ _ _ _ _ Hs) in H as (-> & Hle & ? & msg & Hmsg & ->).
    rewrite is_odd_nat in H0. destruct (even_double _ H0) as [j ->].
    split_and!; [done| |exact Hnil]. exists j.
    split_and!; [done|unfold C; lia|simpl; unfold join; lia| |simpl; lia|by left].
    intros i. pose proof (sq_carries _ _ _ Hs j msg i Hmsg). simpl. unfold join. lia.
  - apply load_inv in H0 as (msg & Hmsg & Hv & Hle & ->).
    destruct Hp as (c & -> & Hk & Hf & Hc & Hlen & Hr). split_and!; [done| |exact Hnil].
    exists c. split_and!; [done|done|simpl; unfold join; lia| | |].
    + intros i. specialize (Hc i). simpl. unfold join. lia.
    + rewrite length_app. simpl. lia.
    + destruct Hr as [Hr|]; [|right; simpl; unfold join; lia].
      specialize (Hc (length result)).
      destruct (decide (ver c (length result) = k)) as [Heq|Hne].
      * left. intros i u [Hi'|[Hi' Hu]]%lookup_app_Some; [by apply Hr|].
        apply list_lookup_singleton_Some in Hu as [Hi'' <-].
        replace i with (length result) by lia.
        destruct (C3 c (length result) Hk H) as (msg' & u & Hmsg' & Hu & Hh). congruence.
      * right. pose proof (C4 c (length result) k msg Hk Hmsg ltac:(lia)). simpl. unfold join. lia.
  - destruct Hp as (c & -> & Hk & Hf & Hc & _ & Hr).
    split_and!; [by apply fence_acquire_closed| |exact Hnil]. exists c.
    split_and!; [done|done|simpl; unfold join; lia|].
    destruct Hr as [Hr|]; [left|right; simpl; unfold join; lia].
    destruct (lookup_lt_is_Some_2 (history s) c) as [d Hd].
    { pose proof (inv_history _ _ Hi). unfold C, commits in Hk. lia. }
    rewrite Hd. f_equal. pose proof (C2 c d Hd) as Hw. rewrite Hd in Hr. simpl in Hr.
    apply list_eq. intros i. destruct (result !! i) as [u|] eqn:Hu.
    + by apply Hr.
    + apply lookup_ge_None_2. apply lookup_ge_None_1 in Hu. lia.
  - apply (load_seq _ _ _ _ _ _ _ _ Hs) in H as (Heq & Hle & _).
    destruct Hp as (c & -> & Hk & Hf & Hr). split_and!; [done|done|].
    intros from' r Hr'. apply list_elem_of_singleton in Hr' as [= -> ->]. exists c.
    split; [lia|]. destruct Hr; [done|]. lia.
  - apply (load_seq _ _ _ _ _ _ _ _ Hs) in H as (-> & Hle & _ & msg & _ & ->).
    destruct Hp as (c & -> & Hk & Hf & Hr). split_and!; [done| |exact Hnil].
    simpl. unfold join. rewrite at_same. lia.
Qed.

Lemma seqlock_inv_access ver s t p th p' th' m' done ret :
  inv_with ver s → threads s !! t = Some (p, th) → Z.of_nat (length (history s)) < 2 ^ 62 →
  access (width s) p th (mem s) p' th' m' done ret →
  inv {| mem := m'; threads := <[t := (p', th')]> (threads s); width := width s;
         history := history s ++ done; results := results s ++ ret |}.
Proof.
  intros Hi Ht Hb Ha. destruct (inside p || inside p') eqn:Hin.
  - remember (mem s) as m eqn:Em. remember (width s) as n eqn:En.
    destruct Ha; try discriminate; subst.
    + exists ver. eapply inv_locks; [done|done|lia|done].
    + exists ver. by eapply inv_stores.
    + by eapply inv_publishes.
  - apply orb_false_iff in Hin as [Hp Hp'].
    destruct (access_local _ _ _ _ _ _ _ _ _ Ha Hp Hp') as [-> ->].
    destruct (point_ok_local _ _ _ _ _ _ _ _ Hi Ht Ha Hp') as (? & ? & ?).
    rewrite app_nil_r. exists ver. eapply seqlock_inv_local; try done. congruence.
Qed.

Lemma seqlock_inv_learns ver s t t' p th p' th' :
  inv_with ver s → threads s !! t = Some (p, th) → threads s !! t' = Some (p', th') →
  inv {| mem := mem s; threads := <[t := (p, learn (cur th') th)]> (threads s);
         width := width s; history := history s; results := results s |}.
Proof.
  intros Hi Ht Ht'. pose proof (inv_threads _ _ Hi _ _ _ Ht) as [Hcl Hp].
  pose proof (inv_threads _ _ Hi _ _ _ Ht') as [(Hcl' & _) _].
  exists ver. rewrite <- (app_nil_r (results s)). eapply seqlock_inv_local; try done.
  - by apply learn_closed.
  - eapply point_ok_le; [apply learn_le|done].
  - by intros ?? ?%elem_of_nil.
Qed.

Lemma seqlock_weak_initial s : initial s → inv s.
Proof.
  intros (d & v0 & n & ->). exists (λ _ _, 0%nat).
  assert (∀ t p th, threads (state_new d v0 n) !! t = Some (p, th) → p = Idle ∧ th = thread_new) as Hth.
  { intros t p th H. by apply lookup_replicate_1 in H as [[= -> ->] _]. }
  split; unfold commits; simpl; auto using memory_new_ok.
  - split.
    + intros [|k] msg; [|done]. by intros [= <-].
    + unfold latest. simpl. lia.
    + intros; lia.
  - split.
    + intros j [|k] msg; [|done]. intros [= <-]. by eexists.
    + intros [|k] e; [|done]. by intros [= <-].
    + intros k j Hk Hj. replace k with 0%nat by lia.
      destruct (lookup_lt_is_Some_2 d j Hj) as [v Hv]. eexists _, v. split_and!; [done| |done].
      simpl. by rewrite Hv.
    + intros k j i msg _ H Hlt. apply lookup_lt_Some in H. simpl in H. lia.
  - intros t p th H. destruct (Hth t p th H) as [-> ->]. split; [apply thread_new_closed|done].
  - intros t t' p p' th th' H1 _ Hp. by destruct (Hth _ _ _ H1) as [-> _].
  - by intros ?? ?%elem_of_nil.
Qed.

Lemma history_grows s s' : step s s' →
  Z.of_nat (length (history s)) <= Z.of_nat (length (history s')).
Proof. intros [|]; simpl; rewrite ?length_app; lia. Qed.

Lemma seqlock_weak_inv s :
  reachable initial step s → Z.of_nat (length (history s)) < 2 ^ 62 → inv s.
Proof.
  intros Hr Hb. revert s Hr Hb.
  assert (∀ s, reachable initial step s →
    Z.of_nat (length (history s)) <= 2 ^ 62 - 1 → inv s) as H.
  { apply reachable_ind_bounded; [apply seqlock_weak_initial|apply history_grows|].
    intros s s' [ver Hi] Hs Hb. pose proof (history_grows s s' Hs).
    destruct Hs as [t p th p' th' m' done ret Ht Ha|t t' p th p' th' Ht Ht'].
    - eapply seqlock_inv_access; [done|done|lia|done].
    - by eapply seqlock_inv_learns. }
  intros s Hr Hb. apply H; [done|lia].
Qed.

(** ** Progress *)

Lemma seq_confined m C ver w :
  seq_ok m C ver → is_odd w = false → exchange_confined m Seq (Word w).
Proof.
  intros Hs Hw k msg Hk Hv Hlt. destruct (sq_word _ _ _ Hs _ _ Hk) as [Hv' _].
  assert (w = Z.of_nat k) as -> by congruence. rewrite is_odd_nat in Hw.
  destruct (even_double _ Hw) as [j ->]. unfold latest in Hlt.
  destruct (lookup_lt_is_Some_2 (cells m Seq) (S (2 * j))) as [msg' Hk']; [lia|].
  exists msg'. split; [done|]. apply (sq_word _ _ _ Hs _ _ Hk').
  by rewrite Nat.odd_succ, Nat.even_even.
Qed.

Lemma seqlock_access_enabled ver s t p th :
  inv_with ver s → threads s !! t = Some (p, th) → ∃ p' th' m' done ret,
    access (width s) p th (mem s) p' th' m' done ret.
Proof.
  intros Hi Ht. pose proof (inv_threads _ _ Hi _ _ _ Ht) as [Hcl Hp].
  pose proof (inv_seq _ _ Hi) as Hs. pose proof (inv_memory _ _ Hi) as Hm.
  assert (∀ o, ∃ k w th', load o Seq k (mem s) th = Some (Word w, th')) as Hseq.
  { intros o. destruct (load_newest o Seq (mem s) th Hm Hcl) as (v & th' & Hl).
    pose proof Hl as (msg & Hn & Hv & _)%load_inv. destruct (sq_word _ _ _ Hs _ _ Hn) as [Hw _].
    eexists _, _, th'. rewrite Hl, <- Hv, Hw. done. }
  destruct (Hseq Relaxed) as (kr & wr & thr & Hr). destruct (Hseq Acquire) as (ka & wa & tha & Ha).
  destruct p as [|todo|todo w|todo w|from|from w result|from w result]; simpl in Hp.
  - eexists _, _, _, _, _. apply (write_called _ _ _ []).
  - destruct (is_odd wr) eqn:E; eexists _, _, _, _, _; [by eapply write_spins|by eapply write_loads].
  - eexists _, _, _, _, _. by eapply write_retries.
  - destruct Hp as (-> & Hl & Hc & _ & Hknow). destruct todo as [|[j v] todo].
    + destruct (store_defined Release Seq (Word (Z.of_nat (2 * commits s) +w 2)) (mem s) (fence_release th))
        as [[m' th'] Hst]; [by apply fence_release_closed|simpl in *; lia|].
      eexists _, _, _, _, _. by eapply write_publishes.
    + destruct (store_defined Relaxed (Cell j) (Data v) (mem s) th Hcl) as [[m' th'] Hst]; [apply Hknow|].
      eexists _, _, _, _, _. by eapply write_stores.
  - destruct (is_odd wa) eqn:E; eexists _, _, _, _, _; [by eapply read_spins|by eapply read_loads].
  - destruct Hp as (k & -> & _ & _ & _ & Hlen & _).
    destruct (decide (length result = width s)) as [Heq|Hne].
    + eexists _, _, _, _, _. by eapply read_copied.
    + destruct (load_newest Relaxed (Cell (length result)) (mem s) th Hm Hcl) as (v & th' & Hl).
      pose proof Hl as (msg & Hn & Hv & _)%load_inv.
      destruct (cl_data _ _ _ _ _ (inv_cells _ _ Hi) _ _ _ Hn) as [u Hu].
      eexists _, _, _, _, _. eapply (read_cell _ _ _ _ _ _ _ u); [lia|]. rewrite <- Hu, Hv. exact Hl.
  - destruct (decide (wr = w)) as [->|Hne]; eexists _, _, _, _, _;
      [by eapply read_returns|by eapply read_retries].
Qed.
End seqlock_weak.
Arguments state : clear implicits.
Arguments cell : clear implicits.
Arguments point : clear implicits.

(** ** Properties *)

(** With plain cells a read beside a write is a data race: a reader in its callback is
    about to load a cell whose newest store does not happen before the load. *)
Lemma plain_cells_race {V} (v : V) : ∃ s : state V, reachable initial step s ∧
  ∃ w result th, threads s !! 1%nat = Some (Reading 0 w result, th) ∧ (length result < width s)%nat ∧
    plain_read (Cell (length result)) (mem s) th = None.
Proof.
  set (s := end_of exec [Act 1 Read None; Act 1 Read (Some 0%nat); Act 0 (Write [(0%nat, v)]) None;
    Act 0 Read (Some 0%nat); Act 0 Read None; Act 0 Read None] (state_new [v] v 2)). exists s.
  split; [apply end_reachable; [apply seqlock_exec_step|by eexists _, _, _]|].
  assert ((λ x, (fst x, plain_read (Cell 0) (mem s) (snd x))) <$> threads s !! 1%nat =
    Some (Reading 0 0 [], None)) as H by by vm_compute.
  destruct (threads s !! 1%nat) as [[p th]|]; [|done]. simpl in H. injection H as -> Hr.
  exists 0, [], th. split_and!; [done|by vm_compute; lia|done].
Qed.

(** C26. Under the C++ memory model with the orders and fences of the source, when the
    callbacks access the shared cells by relaxed atomics, with any number of threads that
    write, read and synchronise elsewhere, and fewer than 2^62 writes: what a [read]
    returns is, cell for cell, one committed content (or the initial one), not older than
    the last commit that happened before the call. At most one writer is between its
    increments; its stores and the exchange of the counter take effect on the newest
    values only; no thread is stuck. The condition on the callbacks is needed: some
    reachable state has a reader about to load a cell that a plain load would race on. *)
Theorem seqlock_weak_reads {V} (s : state V) :
  reachable initial step s → Z.of_nat (length (history s)) < 2 ^ 62 →
  (∀ from r, (from, r) ∈ results s → ∃ k, (from <= 2 * k)%nat ∧ history s !! k = Some r) ∧
  (∀ t t' p p' th th', threads s !! t = Some (p, th) → threads s !! t' = Some (p', th') →
     inside p = true → inside p' = true → t = t') ∧
  (∀ t todo w th, threads s !! t = Some (WriteCas todo w, th) → exchange_confined (mem s) Seq (Word w)) ∧
  (∀ t p th, threads s !! t = Some (p, th) → ∃ p' th' m' done ret,
     access (width s) p th (mem s) p' th' m' done ret) ∧
  (∀ v : V, ∃ s' : state V, reachable initial step s' ∧
     ∃ w result th, threads s' !! 1%nat = Some (Reading 0 w result, th) ∧ (length result < width s')%nat ∧
       plain_read (Cell (length result)) (mem s') th = None).
Proof.
  intros Hr Hb. destruct (seqlock_weak_inv s Hr Hb) as [ver Hi].
  split_and!; [apply Hi|apply Hi| | |apply plain_cells_race].
  - intros t todo w th Ht. destruct (inv_threads _ _ Hi _ _ _ Ht) as [_ Hp].
    eapply seq_confined; [apply Hi|done].
  - intros t p th Ht. by eapply seqlock_access_enabled.
Qed.

(** A writer is half through; a reader that has seen its first store, and read the second
    cell as it was, is turned away and returns the new content once it is committed. *)
Definition torn_run : list (choice (V:=nat)) := [
  Act 1 Read None; Act 1 Read (Some 0%nat);
  Act 0 (Write [(0, 7); (1, 8)]%nat) None; Act 0 Read (Some 0%nat); Act 0 Read None; Act 0 Read None;
  Act 1 Read (Some 1%nat); Act 1 Read (Some 0%nat); Act 1 Read None].

Definition retried : state nat :=
  end_of exec (torn_run ++ [Act 1 Read (Some 1%nat); Act 0 Read None; Act 0 Read None;
    Act 1 Read (Some 2%nat); Act 1 Read (Some 1%nat); Act 1 Read (Some 1%nat); Act 1 Read None;
    Act 1 Read (Some 2%nat)]) (state_new [1; 2]%nat 0%nat 2).

Lemma retried_reachable : reachable initial step retried.
Proof. apply end_reachable; [apply seqlock_exec_step|by eexists _, _, _]. Qed.

Lemma seqlock_weak_reads_witness :
  results retried = [(0, [7; 8])]%nat ∧ history retried = [[1; 2]; [7; 8]]%nat ∧
  ∃ k, (0 <= 2 * k)%nat ∧ history retried !! k = Some [7; 8]%nat.
Proof.
  split; [by vm_compute|split; [by vm_compute|]].
  destruct (seqlock_weak_reads retried) as (H & _); [apply retried_reachable|by vm_compute|].
  apply (H 0%nat [7; 8]%nat). replace (results retried) with [(0, [7; 8])]%nat by by vm_compute.
  by left.
Defined.
