(* ===== verification/Fiber.v ===== *)
(** * Tasks ([include/jellybean/scheduler/fiber.hpp])

    Coroutine frames on the heap and the [Task] objects that own them. [T] is the type a
    task returns; [Task<void>] is the instance at [()]. What a coroutine's body does
    between suspensions is not the business of this file: a body is what it still has
    to go through. *)
From S2P Require Import Prelude.

(** A coroutine handle is the address of its frame; a [Task] is its [handle], null or
    not. *)
Abbreviation handle := nat.

Abbreviation Task := (option handle).

Section task.
Context {T : Type} (default_value : T) (moved_from : T → T).

(** ** Frames *)

(** [CoReturn v]: runs to its [co_return v]; [CoThrow]: an exception leaves it;
    [CoSuspend rest]: runs to a suspension point, and goes on with [rest]. *)
Inductive body :=
| CoReturn (v : T)
| CoThrow
| CoSuspend (rest : body).

(** The promise's [value_], and what is left of the body; [None]: suspended at
    [final_suspend]. *)
Record frame := {
  value_ : T;
  rest : option body }.

(** The promise's constructor and [initial_suspend]. *)
Definition frame_new (b : body) : frame := {| value_ := default_value; rest := Some b |}.

Definition done (f : frame) : bool := match rest f with None => true | Some _ => false end.

(** [handle.resume()] on a frame that is there; [unhandled_exception] terminates. *)
Definition resume_frame (f : frame) : outcome frame :=
  match rest f with
  | None => Fault UndefinedBehaviour
  | Some (CoReturn v) => Done {| value_ := v; rest := None |}
  | Some CoThrow => Fault Aborted
  | Some (CoSuspend b) => Done {| value_ := value_ f; rest := Some b |}
  end.

(** [await_resume] moves the value out of the promise. *)
Definition take_value (f : frame) : T * frame :=
  (value_ f, {| value_ := moved_from (value_ f); rest := rest f |}).

(** ** Tasks *)

Abbreviation heap := (gmap handle frame).

Definition task_default : Task := None.

Definition resume (a : handle) (h : heap) : outcome heap :=
  f ← deref (h !! a); f ← resume_frame f; mret (<[a := f]> h).

Definition destroy_frame (a : handle) (h : heap) : outcome heap :=
  _ ← deref (h !! a); mret (delete a h).

(** The move constructor: the new task and what is left of [other]. *)
Definition task_move (other : Task) : Task * Task := (other, None).

(** [if (handle) handle.destroy()]. *)
Definition destroy_task (t : Task) (h : heap) : outcome heap :=
  match t with Some a => destroy_frame a h | None => mret h end.

(** Move assignment between different objects. *)
Definition task_move_assign (this other : Task) (h : heap) : outcome (Task * Task * heap) :=
  h ← destroy_task this h;
  let '(this, other) := task_move other in
  mret (this, other, h).

(** [release]: the handle and what is left of the task. *)
Definition release (t : Task) : Task * Task := (t, None).

Definition await_ready (t : Task) (h : heap) : outcome bool :=
  match t with Some a => f ← deref (h !! a); mret (done f) | None => mret false end.

(** [await_suspend] returns the caller's handle: the caller goes on at once. *)
Definition await_suspend (t : Task) (h : heap) : outcome heap := a ← deref t; resume a h.

Definition await_resume (t : Task) (h : heap) : outcome (T * heap) :=
  a ← deref t; f ← deref (h !! a);
  let '(v, f) := take_value f in mret (v, <[a := f]> h).

(** [co_await] on a task. *)
Definition co_await (t : Task) (h : heap) : outcome (T * heap) :=
  ready ← await_ready t h;
  h ← match ready with true => Done h | false => await_suspend t h end;
  await_resume t h.

(** ** Programs over tasks *)

(** The task objects of a program, [None] once destroyed; the heap; the handles given
    away with [release], which a scheduler resumes; the values awaited. *)
Record world := {
  tasks : list (option Task);
  frames : heap;
  next : handle;
  released : list handle;
  awaited : list T }.

Definition empty_world : world :=
  {| tasks := []; frames := ∅; next := 0%nat; released := []; awaited := [] |}.

(** [Spawn]: a call of a coroutine, whose [get_return_object] makes a new object;
    [Run k]: the scheduler takes the [k]th handle it was given. *)
Inductive operation :=
| Spawn (b : body)
| Default
| Move (j : nat)
| MoveAssign (i j : nat)
| Release (j : nat)
| Await (j : nat)
| Destruct (i : nat)
| Run (k : nat).

Definition object (w : world) (i : nat) : outcome Task := deref (mjoin (tasks w !! i)).

Definition set_tasks (w : world) (ts : list (option Task)) : world := {|
  tasks := ts; frames := frames w; next := next w; released := released w; awaited := awaited w |}.

Definition set_frames (w : world) (h : heap) : world := {|
  tasks := tasks w; frames := h; next := next w; released := released w; awaited := awaited w |}.

Definition spawn (b : body) (w : world) : world := {|
  tasks := tasks w ++ [Some (Some (next w))]; frames := <[next w := frame_new b]> (frames w);
  next := S (next w); released := released w; awaited := awaited w |}.

Definition give_away (t : Task) (w : world) : world := {|
  tasks := tasks w; frames := frames w; next := next w;
  released := released w ++ option_list t; awaited := awaited w |}.

Definition record_value (v : T) (w : world) : world := {|
  tasks := tasks w; frames := frames w; next := next w; released := released w;
  awaited := awaited w ++ [v] |}.

Definition perform (op : operation) (w : world) : outcome world :=
  match op with
  | Spawn b => mret (spawn b w)
  | Default => mret (set_tasks w (tasks w ++ [Some task_default]))
  | Move j =>
      other ← object w j;
      let '(t, other) := task_move other in
      mret (set_tasks w (<[j := Some other]> (tasks w) ++ [Some t]))
  | MoveAssign i j =>
      this ← object w i; other ← object w j;
      if decide (i = j) then mret w
      else
        '(this, other, h) ← task_move_assign this other (frames w);
        mret (set_frames (set_tasks w (<[j := Some other]> (<[i := Some this]> (tasks w)))) h)
  | Release j =>
      t ← object w j;
      let '(h, t) := release t in mret (give_away h (set_tasks w (<[j := Some t]> (tasks w))))
  | Await j =>
      t ← object w j;
      '(v, h) ← co_await t (frames w); mret (record_value v (set_frames w h))
  | Destruct i =>
      t ← object w i;
      h ← destroy_task t (frames w); mret (set_frames (set_tasks w (<[i := None]> (tasks w))) h)
  | Run k =>
      a ← deref (released w !! k);
      f ← deref (frames w !! a);
      if done f then mret w else h ← resume a (frames w); mret (set_frames w h)
  end.

Fixpoint perform_all (ops : list operation) (w : world) : outcome world :=
  match ops with
  | [] => mret w
  | op :: ops => w ← perform op w; perform_all ops w
  end.

(** ** Specification: a task is a coroutine, moved around as a value

    There are no handles: an object holds a coroutine or nothing, and so does the
    scheduler. *)

Record coroutines := {
  held : list (option (option frame));
  scheduled : list frame;
  results : list T }.

Definition no_coroutines : coroutines := {| held := []; scheduled := []; results := [] |}.

(** The coroutine and the value after [co_await]. *)
Definition await_frame (f : frame) : outcome (T * frame) :=
  f ← (if done f then Done f else resume_frame f);
  mret (take_value f).

Definition hold (c : coroutines) (l : list (option (option frame))) : coroutines :=
  {| held := l; scheduled := scheduled c; results := results c |}.

(** [UndefinedBehaviour]: the operation names no object, or awaits an empty task. *)
Definition value_op (op : operation) (c : coroutines) : outcome coroutines :=
  match op with
  | Spawn b => mret (hold c (held c ++ [Some (Some (frame_new b))]))
  | Default => mret (hold c (held c ++ [Some None]))
  | Move j =>
      f ← deref (mjoin (held c !! j));
      mret (hold c (<[j := Some None]> (held c) ++ [Some f]))
  | MoveAssign i j =>
      _ ← deref (mjoin (held c !! i)); f ← deref (mjoin (held c !! j));
      if decide (i = j) then mret c
      else mret (hold c (<[j := Some None]> (<[i := Some f]> (held c))))
  | Release j =>
      f ← deref (mjoin (held c !! j));
      mret {| held := <[j := Some None]> (held c); scheduled := scheduled c ++ option_list f;
              results := results c |}
  | Await j =>
      f ← deref (mjoin (held c !! j)); f ← deref f;
      '(v, f) ← await_frame f;
      mret {| held := <[j := Some (Some f)]> (held c); scheduled := scheduled c;
              results := results c ++ [v] |}
  | Destruct i =>
      _ ← deref (mjoin (held c !! i)); mret (hold c (<[i := None]> (held c)))
  | Run k =>
      f ← deref (scheduled c !! k);
      f ← (if done f then Done f else resume_frame f);
      mret {| held := held c; scheduled := <[k := f]> (scheduled c); results := results c |}
  end.

Fixpoint value_ops (ops : list operation) (c : coroutines) : outcome coroutines :=
  match ops with
  | [] => mret c
  | op :: ops => c ← value_op op c; value_ops ops c
  end.
End task.

(** ** Representation *)

Section representation.
Context {T : Type}.
Implicit Types (h : gmap nat (frame (T := T))) (ts : list (option Task)) (fs : list (option (option (frame (T := T))))).

(** An object and what it holds in the specification. *)
Definition shows h (t : option Task) (f : option (option frame)) : Prop :=
  match t, f with
  | None, None | Some None, Some None => True
  | Some (Some a), Some (Some f) => h !! a = Some f
  | _, _ => False
  end.

Definition handles (t : option Task) : list nat := match t with Some (Some a) => [a] | _ => [] end.

(** How many frames an address has. *)
Definition present {A} (o : option A) : nat := match o with Some _ => 1 | None => 0 end.

(** The objects show what they hold, and each frame has one handle. *)
Record shown h ts fs : Prop := {
  shown_all : Forall2 (shows h) ts fs;
  shown_once : ∀ a, occ a (concat (handles <$> ts)) = present (h !! a) }.

Lemma shown_lookup h ts fs j f :
  shown h ts fs → fs !! j = Some f → ∃ t, ts !! j = Some t ∧ shows h t f.
Proof. intros [H _] Hf. by apply (Forall2_lookup_r _ _ _ _ _ H). Qed.

Lemma shown_none h ts fs j : shown h ts fs → fs !! j = None → ts !! j = None.
Proof.
  intros [H _] Hf. apply lookup_ge_None in Hf. apply lookup_ge_None. by rewrite (Forall2_length _ _ _ H).
Qed.

Lemma handles_insert ts j t t' a :
  ts !! j = Some t →
  (occ a (concat (handles <$> <[j := t']> ts)) + occ a (handles t) =
   occ a (concat (handles <$> ts)) + occ a (handles t'))%nat.
Proof.
  apply occ_fmap_insert.
Qed.

Lemma handles_lookup ts j t a :
  ts !! j = Some t → (occ a (handles t) <= occ a (concat (handles <$> ts)))%nat.
Proof. apply occ_fmap_lookup. Qed.

(** No other object has the handle. *)
Lemma shown_unique h ts fs i j a :
  shown h ts fs → ts !! i = Some (Some (Some a)) → ts !! j = Some (Some (Some a)) → i = j.
Proof.
  intros [_ H] Hi Hj. destruct (decide (i = j)) as [|Hne]; [done|exfalso].
  pose proof (handles_insert ts i _ None a Hi) as H1.
  pose proof (handles_lookup (<[i := None]> ts) j (Some (Some a)) a) as H2.
  rewrite list_lookup_insert_ne in H2 by done. specialize (H2 Hj). specialize (H a). simpl in *.
  destruct (decide (a = a)); [|done]. destruct (h !! a); simpl in *; lia.
Qed.

(** Steps on the objects. *)
Lemma shown_update h ts fs j a f :
  shown h ts fs → ts !! j = Some (Some (Some a)) →
  shown (<[a := f]> h) ts (<[j := Some (Some f)]> fs).
Proof.
  intros Hs Hj. pose proof Hs as [Hf Ho]. split.
  - apply Forall2_same_length_lookup_2; [by rewrite length_insert; eapply Forall2_length|].
    intros i t g Hi Hg. destruct (decide (i = j)) as [->|Hne].
    + rewrite list_lookup_insert_eq in Hg.
      * rewrite Hj in Hi. simplify_eq. apply lookup_insert_eq.
      * rewrite <- (Forall2_length _ _ _ Hf). by eapply lookup_lt_Some.
    + rewrite list_lookup_insert_ne in Hg by done.
      pose proof (Forall2_lookup_lr _ _ _ _ _ _ Hf Hi Hg) as Hsh.
      destruct t as [[b|]|], g as [[g|]|]; simpl in *; try done.
      rewrite lookup_insert_ne; [done|]. intros <-. apply Hne. by eapply shown_unique.
  - intros b. rewrite Ho. destruct (decide (b = a)) as [->|Hne].
    + rewrite lookup_insert_eq. destruct (Forall2_lookup_l _ _ _ _ _ Hf Hj) as ([[g|]|] & _ & Hg); try done.
      simpl in Hg. by rewrite Hg.
    + by rewrite lookup_insert_ne by done.
Qed.

(** An object that holds nothing is replaced by another such. *)
Lemma shown_empty h ts fs j t t' f' :
  shown h ts fs → ts !! j = Some t → handles t = [] → handles t' = [] → shows h t' f' →
  shown h (<[j := t']> ts) (<[j := f']> fs).
Proof.
  intros [Hf Ho] Hj Ht Ht' Hs. split; [by apply Forall2_insert|].
  intros a. pose proof (handles_insert ts j t t' a Hj) as H. rewrite Ht, Ht' in H. simpl in H.
  rewrite <- Ho. lia.
Qed.

Lemma shown_destroy h ts fs j a t' f' :
  shown h ts fs → ts !! j = Some (Some (Some a)) → handles t' = [] → shows ∅ t' f' →
  shown (delete a h) (<[j := t']> ts) (<[j := f']> fs).
Proof.
  intros Hs Hj Ht Hf'. pose proof Hs as [Hf Ho]. split.
  - apply Forall2_same_length_lookup_2; [by rewrite !length_insert; eapply Forall2_length|].
    intros i t g Hi Hg. destruct (decide (i = j)) as [->|Hne].
    + rewrite list_lookup_insert_eq in Hi by by eapply lookup_lt_Some.
      rewrite list_lookup_insert_eq in Hg by (rewrite <- (Forall2_length _ _ _ Hf); by eapply lookup_lt_Some).
      simplify_eq. by destruct t as [[b|]|], g as [[g|]|].
    + rewrite list_lookup_insert_ne in Hi by done. rewrite list_lookup_insert_ne in Hg by done.
      pose proof (Forall2_lookup_lr _ _ _ _ _ _ Hf Hi Hg) as Hsh.
      destruct t as [[b|]|], g as [[g|]|]; simpl in *; try done.
      rewrite lookup_delete_ne; [done|]. intros <-. apply Hne. by eapply shown_unique.
  - intros b. pose proof (handles_insert ts j _ t' b Hj) as H. rewrite Ht in H. simpl in H.
    specialize (Ho b). destruct (decide (a = b)) as [<-|Hne].
    + rewrite lookup_delete_eq. destruct (Forall2_lookup_l _ _ _ _ _ Hf Hj) as ([[g|]|] & _ & Hg); try done.
      simpl in Hg. rewrite Hg in Ho. simpl in *. destruct (decide (a = a)); [lia|done].
    + rewrite lookup_delete_ne by done. simpl in H. destruct (decide (a = b)); [done|lia].
Qed.

(** A handle moves from one object to another that holds nothing. *)
Lemma shown_move h ts fs i j u t f :
  shown h ts fs → i ≠ j → ts !! i = Some u → handles u = [] → ts !! j = Some (Some t) →
  fs !! j = Some (Some f) →
  shown h (<[j := Some None]> (<[i := Some t]> ts)) (<[j := Some None]> (<[i := Some f]> fs)).
Proof.
  intros Hs Hne Hi Hu Hj Hfj. pose proof Hs as [Hf Ho]. split.
  - apply Forall2_insert; [|done]. apply Forall2_insert; [done|].
    exact (Forall2_lookup_lr _ _ _ _ _ _ Hf Hj Hfj).
  - intros a. pose proof (handles_insert ts i u (Some t) a Hi) as H1.
    pose proof (handles_insert (<[i := Some t]> ts) j (Some t) (Some None) a) as H2.
    rewrite list_lookup_insert_ne in H2 by done. specialize (H2 Hj). rewrite Hu in H1. simpl in *.
    rewrite <- Ho. lia.
Qed.

(** A new object that holds nothing, or a new frame. *)
Lemma shown_add_empty h ts ts' fs fs' :
  shown h (ts ++ ts') (fs ++ fs') → length ts = length fs →
  shown h (ts ++ Some None :: ts') (fs ++ Some None :: fs').
Proof.
  intros [Hf Ho] Hl. apply Forall2_app_inv in Hf as [H1 H2]; [|done]. split.
  - apply Forall2_app; [done|]. by constructor.
  - intros a. rewrite <- Ho, !fmap_app, !concat_app, !occ_app. done.
Qed.

Lemma shown_spawn h ts ts' fs fs' a f :
  shown h (ts ++ ts') (fs ++ fs') → length ts = length fs → h !! a = None →
  shown (<[a := f]> h) (ts ++ Some (Some a) :: ts') (fs ++ Some (Some f) :: fs').
Proof.
  intros [Hf Ho] Hl Ha.
  assert (Forall2 (shows (<[a := f]> h)) (ts ++ ts') (fs ++ fs')) as Hf'.
  { apply (Forall2_impl _ _ _ _ Hf). intros [[b|]|] [[g|]|]; simpl; try done. intros Hb.
    rewrite lookup_insert_ne; [done|]. intros <-. by rewrite Ha in Hb. }
  apply Forall2_app_inv in Hf' as [H1 H2]; [|done]. split.
  - apply Forall2_app; [done|]. constructor; [apply lookup_insert_eq|done].
  - intros b. specialize (Ho b). rewrite fmap_app, concat_app, occ_app in Ho |- *. csimpl.
    destruct (decide (a = b)) as [<-|Hne].
    + rewrite lookup_insert_eq. rewrite Ha in Ho. simpl in *. destruct (decide (a = a)); [lia|done].
    + rewrite lookup_insert_ne by done. simpl. destruct (decide (a = b)); [done|lia].
Qed.
End representation.

(** ** Refinement *)

Section refinement.
Context {T : Type} (default_value : T) (moved_from : T → T).
Implicit Types (w : world (T := T)) (c : coroutines (T := T)).

(** All objects: the program's tasks, then the scheduler's handles. *)
Definition slots w : list (option Task) := tasks w ++ ((λ a, Some (Some a)) <$> released w).

Definition cells c : list (option (option frame)) := held c ++ ((λ f, Some (Some f)) <$> scheduled c).

Record represents w c : Prop := {
  rep_shown : shown (frames w) (slots w) (cells c);
  rep_length : length (tasks w) = length (held c);
  rep_next : ∀ a, (next w <= a)%nat → frames w !! a = None;
  rep_results : awaited w = results c }.

Lemma object_represents w c j :
  represents w c →
  match mjoin (held c !! j) with
  | Some f => ∃ t, object w j = Done t ∧ tasks w !! j = Some (Some t) ∧ held c !! j = Some (Some f) ∧
      shows (frames w) (Some t) (Some f)
  | None => object w j = Fault UndefinedBehaviour
  end.
Proof.
  intros [[Hf _] Hl _ _]. apply Forall2_app_inv in Hf as [Hf _]; [|done]. unfold object.
  destruct (held c !! j) as [[f|]|] eqn:Hj; simpl.
  - destruct (Forall2_lookup_r _ _ _ _ _ Hf Hj) as ([t|] & Ht & Hs); [|done]. exists t. by rewrite Ht.
  - by destruct (Forall2_lookup_r _ _ _ _ _ Hf Hj) as ([[a|]|] & -> & Hs).
  - apply lookup_ge_None in Hj. rewrite <- Hl in Hj. by apply lookup_ge_None in Hj as ->.
Qed.

Lemma slots_lookup w j t : tasks w !! j = Some t → slots w !! j = Some t.
Proof. intros. by apply lookup_app_l_Some. Qed.

Lemma cells_lookup c j f : held c !! j = Some f → cells c !! j = Some f.
Proof. intros. by apply lookup_app_l_Some. Qed.

(** A released handle and the coroutine scheduled in its place. *)
Lemma released_represents w c k :
  represents w c →
  match scheduled c !! k with
  | Some f => ∃ a, released w !! k = Some a ∧ frames w !! a = Some f ∧
      slots w !! (length (tasks w) + k)%nat = Some (Some (Some a))
  | None => released w !! k = None
  end.
Proof.
  intros [[Hf _] Hl _ _]. apply Forall2_app_inv in Hf as [_ Hf]; [|done].
  destruct (scheduled c !! k) as [f|] eqn:Hk.
  - destruct (Forall2_lookup_r _ _ _ k (Some (Some f)) Hf) as (t & Ht & Hs); [by rewrite list_lookup_fmap, Hk|].
    rewrite list_lookup_fmap in Ht. destruct (released w !! k) as [a|] eqn:Ha; simplify_eq/=. exists a.
    unfold slots. rewrite lookup_app_r, Nat.add_sub', list_lookup_fmap, Ha by lia. done.
  - apply lookup_ge_None in Hk. apply lookup_ge_None. apply Forall2_length in Hf.
    rewrite !length_fmap in Hf. lia.
Qed.

Lemma represents_frame w c j a :
  represents w c → slots w !! j = Some (Some (Some a)) →
  (a < next w)%nat ∧ ∃ f, cells c !! j = Some (Some (Some f)) ∧ frames w !! a = Some f.
Proof.
  intros [[Hf _] _ Hn _] Hj. destruct (Forall2_lookup_l _ _ _ _ _ Hf Hj) as ([[f|]|] & Hc & Hs); [|done|done].
  simpl in Hs. split; [|by exists f]. destruct (decide (a < next w)%nat) as [|Hge]; [done|].
  rewrite Hn in Hs by lia. done.
Qed.

Lemma insert_slots {A} (l k : list A) j x y :
  l !! j = Some y → <[j := x]> l ++ k = <[j := x]> (l ++ k).
Proof. intros Hj. by rewrite insert_app_l by by eapply lookup_lt_Some. Qed.

Lemma insert_middle {A} (l k : list A) x y n : n = length l → <[n := x]> (l ++ y :: k) = l ++ x :: k.
Proof. intros ->. by rewrite insert_app_r_alt, Nat.sub_diag by lia. Qed.

(** A frame is changed in place, through a task or by the scheduler. *)
Lemma represents_update w c j a f :
  represents w c → tasks w !! j = Some (Some (Some a)) →
  represents (set_frames w (<[a := f]> (frames w))) (hold c (<[j := Some (Some f)]> (held c))).
Proof.
  intros Hrep Hj. pose proof Hrep as [Hs Hl Hn Hr].
  destruct (represents_frame w c j a Hrep (slots_lookup _ _ _ Hj)) as (Ha & g & _).
  assert (∃ x, held c !! j = Some x) as [x Hx]
    by (apply lookup_lt_is_Some_2; rewrite <- Hl; by eapply lookup_lt_Some).
  split; [|by simpl; rewrite length_insert| |done].
  - unfold cells. simpl. rewrite (insert_slots _ _ _ _ _ Hx).
    apply shown_update; [done|]. by apply slots_lookup.
  - intros b Hb. simpl in *. rewrite lookup_insert_ne by lia. by apply Hn.
Qed.

Lemma represents_run w c k a f :
  represents w c → released w !! k = Some a →
  represents (set_frames w (<[a := f]> (frames w)))
    {| held := held c; scheduled := <[k := f]> (scheduled c); results := results c |}.
Proof.
  intros Hrep Hk. pose proof Hrep as [Hs Hl Hn Hr].
  assert (slots w !! (length (tasks w) + k)%nat = Some (Some (Some a))) as Hj.
  { unfold slots. by rewrite lookup_app_r, Nat.add_sub', list_lookup_fmap, Hk by lia. }
  destruct (represents_frame w c _ a Hrep Hj) as (Ha & g & _).
  split; [|done| |done].
  - pose proof (shown_update _ _ _ _ a f Hs Hj) as Hu. unfold cells in *. simpl.
    rewrite list_fmap_insert. by rewrite Hl, insert_app_r in Hu.
  - intros b Hb. simpl in *. rewrite lookup_insert_ne by lia. by apply Hn.
Qed.

(** The objects change and frames may be destroyed. *)
Lemma represents_objects w c h ts fs :
  represents w c → shown h (ts ++ ((λ a, Some (Some a)) <$> released w)) (fs ++ ((λ f, Some (Some f)) <$> scheduled c)) →
  length ts = length fs → (∀ a, h !! a = frames w !! a ∨ h !! a = None) →
  represents (set_frames (set_tasks w ts) h) (hold c fs).
Proof.
  intros [_ _ Hn Hr] Hs Hl Hh. split; [done|done| |done].
  intros a Ha. simpl in *. destruct (Hh a) as [->|?]; [by apply Hn|done].
Qed.

Lemma spawn_represents w c b :
  represents w c →
  represents (spawn default_value b w) (hold c (held c ++ [Some (Some (frame_new default_value b))])).
Proof.
  intros [Hs Hl Hn Hr]. split; [| | |done].
  - unfold slots, cells. simpl. rewrite <- !app_assoc. by apply shown_spawn; [| |apply Hn].
  - simpl. rewrite !length_app. simpl. lia.
  - intros a Ha. simpl in *. rewrite lookup_insert_ne by lia. apply Hn. lia.
Qed.

Lemma default_represents w c :
  represents w c →
  represents (set_tasks w (tasks w ++ [Some task_default])) (hold c (held c ++ [Some None])).
Proof.
  intros Hrep. pose proof Hrep as [Hs Hl _ _].
  apply (represents_objects w c (frames w) (tasks w ++ [Some None]) (held c ++ [Some None])); [done| | |by left].
  - rewrite <- !app_assoc. by apply shown_add_empty.
  - rewrite !length_app. simpl. lia.
Qed.

Lemma move_represents w c j t f :
  represents w c → tasks w !! j = Some (Some t) → held c !! j = Some (Some f) →
  represents (set_tasks w (<[j := Some None]> (tasks w) ++ [Some t]))
    (hold c (<[j := Some None]> (held c) ++ [Some f])).
Proof.
  intros Hrep Ht Hf. pose proof Hrep as [Hs Hl _ _].
  assert (j < length (tasks w))%nat as Hj by by eapply lookup_lt_Some.
  apply (represents_objects w c (frames w) (<[j := Some None]> (tasks w) ++ [Some t])
    (<[j := Some None]> (held c) ++ [Some f])); [done| | |by left].
  - apply (shown_add_empty (frames w) (tasks w) _ (held c)) in Hs; [|done].
    apply (shown_move _ _ _ (length (tasks w)) j (Some None) t f) in Hs; try done; [|lia| | |].
    + rewrite insert_middle in Hs by done. rewrite (insert_middle (held c)) in Hs by done.
      rewrite !insert_app_l in Hs by lia. by rewrite <- !app_assoc.
    + by rewrite lookup_app_r, Nat.sub_diag by lia.
    + by apply lookup_app_l_Some.
    + by apply lookup_app_l_Some.
  - rewrite !length_app, !length_insert. simpl. lia.
Qed.

(** Destroying what an object owns leaves an object that owns nothing. *)
Lemma destroy_represents w c i t f t' :
  represents w c → tasks w !! i = Some (Some t) → held c !! i = Some (Some f) →
  handles t' = [] → (t' = None ∨ t' = Some None) →
  ∃ h, destroy_task t (frames w) = Done h ∧ (∀ a, h !! a = frames w !! a ∨ h !! a = None) ∧
    shown h (<[i := t']> (slots w)) (<[i := (λ _, None) <$> t']> (cells c)).
Proof.
  intros Hrep Ht Hf He Ht'. pose proof Hrep as [Hs Hl _ _]. pose proof (slots_lookup _ _ _ Ht) as Hi.
  assert (∀ h : gmap nat (frame (T := T)), shows h t' ((λ _, None) <$> t')) as Hsh by by destruct Ht' as [->| ->].
  destruct t as [a|]; simpl.
  - destruct (represents_frame w c i a Hrep Hi) as (_ & g & _ & Hg). unfold destroy_frame. rewrite Hg. simpl.
    eexists. split; [done|]. split; [|by apply shown_destroy].
    intros b. destruct (decide (a = b)) as [<-|Hne]; [right; apply lookup_delete_eq|].
    left. by apply lookup_delete_ne.
  - eexists. split; [done|]. split; [by left|]. by apply (shown_empty _ _ _ _ (Some None)).
Qed.

Lemma move_assign_represents w c i j ti fi tj fj :
  represents w c → i ≠ j → tasks w !! i = Some (Some ti) → held c !! i = Some (Some fi) →
  tasks w !! j = Some (Some tj) → held c !! j = Some (Some fj) →
  ∃ h, task_move_assign ti tj (frames w) = Done (tj, None, h) ∧
    represents (set_frames (set_tasks w (<[j := Some None]> (<[i := Some tj]> (tasks w)))) h)
      (hold c (<[j := Some None]> (<[i := Some fj]> (held c)))).
Proof.
  intros Hrep Hne Hti Hfi Htj Hfj. pose proof Hrep as [Hs Hl _ _].
  destruct (destroy_represents w c i ti fi (Some None) Hrep Hti Hfi) as (h & Hd & Hh & Hsh); [done|by right|].
  exists h. unfold task_move_assign. rewrite Hd. split; [done|].
  apply represents_objects; [done| |by rewrite !length_insert|done].
  apply (shown_move _ _ _ i j (Some None) tj fj) in Hsh; try done.
  - rewrite !list_insert_insert_eq in Hsh. unfold slots, cells in Hsh.
    rewrite !insert_app_l in Hsh; [done|..]; rewrite ?length_insert; by eapply lookup_lt_Some.
  - apply list_lookup_insert_eq. by eapply lookup_lt_Some, slots_lookup.
  - rewrite list_lookup_insert_ne by done. by apply slots_lookup.
  - rewrite list_lookup_insert_ne by done. by apply cells_lookup.
Qed.

Lemma release_represents w c j t f :
  represents w c → tasks w !! j = Some (Some t) → held c !! j = Some (Some f) →
  shows (frames w) (Some t) (Some f) →
  represents (give_away t (set_tasks w (<[j := Some None]> (tasks w))))
    {| held := <[j := Some None]> (held c); scheduled := scheduled c ++ option_list f; results := results c |}.
Proof.
  intros Hrep Ht Hf Hsf. pose proof Hrep as [Hs Hl Hn Hr]. split; [|by simpl; rewrite !length_insert|done|done].
  unfold slots, cells. simpl. destruct t as [a|], f as [g|]; try done; simpl.
  - rewrite !fmap_app, !app_assoc.
    assert (length (slots w) = length (cells c)) as Hlen by by eapply Forall2_length, shown_all.
    pose proof (shown_add_empty (frames w) (slots w) [] (cells c) []) as Ha. rewrite !app_nil_r in Ha.
    specialize (Ha Hs Hlen). pose proof (slots_lookup _ _ _ Ht) as Hj. pose proof (cells_lookup _ _ _ Hf) as Hc.
    apply (shown_move _ _ _ (length (slots w)) j (Some None) (Some a) (Some g)) in Ha; try done.
    + rewrite insert_middle in Ha by done. rewrite (insert_middle (cells c)) in Ha by done.
      rewrite !insert_app_l in Ha by (by eapply lookup_lt_Some). unfold slots, cells in Ha.
      rewrite !insert_app_l in Ha by (by eapply lookup_lt_Some). done.
    + apply lookup_lt_Some in Hj. lia.
    + by rewrite lookup_app_r, Nat.sub_diag by lia.
    + by apply lookup_app_l_Some.
    + by apply lookup_app_l_Some.
  - rewrite !app_nil_r, !list_insert_id by done. done.
Qed.

(** [co_await] is resuming the coroutine unless it is done, and taking its value. *)
Lemma co_await_frame a f h :
  h !! a = Some f →
  co_await moved_from (Some a) h =
    match await_frame moved_from f with
    | Done (v, f) => Done (v, <[a := f]> h)
    | Fault e => Fault e
    end.
Proof.
  intros Hf. unfold co_await, await_frame, await_ready, await_suspend, resume, await_resume. rewrite Hf.
  cbn [mbind outcome_bind deref]. destruct (done f); simpl; [by rewrite Hf|]. rewrite Hf. simpl.
  destruct (resume_frame f) as [g|e]; [|done]. simpl. rewrite lookup_insert_eq. simpl.
  by rewrite insert_insert_eq.
Qed.

Lemma await_represents w c j t f :
  represents w c → tasks w !! j = Some (Some t) → shows (frames w) (Some t) (Some f) →
  match (g ← deref f; await_frame moved_from g) with
  | Done (v, g) => ∃ h, co_await moved_from t (frames w) = Done (v, h) ∧
      represents (set_frames w h) (hold c (<[j := Some (Some g)]> (held c)))
  | Fault e => co_await moved_from t (frames w) = Fault e
  end.
Proof.
  intros Hrep Ht Hs. destruct t as [a|], f as [f|]; try done; simpl in *.
  rewrite (co_await_frame a f) by done. destruct (await_frame moved_from f) as [[v g]|e]; [|done].
  eexists. split; [done|]. by apply represents_update.
Qed.

Definition simulates (w' : outcome (world (T := T))) (c' : outcome (coroutines (T := T))) : Prop :=
  match c' with
  | Done c' => ∃ w, w' = Done w ∧ represents w c'
  | Fault e => w' = Fault e
  end.

Lemma perform_simulates op w c :
  represents w c → simulates (perform default_value moved_from op w) (value_op default_value moved_from op c).
Proof.
  intros Hrep. destruct op as [b| |j|i j|j|j|i|k]; simpl.
  - eexists. split; [done|]. by apply spawn_represents.
  - eexists. split; [done|]. by apply default_represents.
  - pose proof (object_represents w c j Hrep) as Hj.
    destruct (mjoin (held c !! j)) as [f|]; [|by rewrite Hj]. destruct Hj as (t & -> & Ht & Hf & _).
    eexists. split; [done|]. by apply move_represents.
  - pose proof (object_represents w c i Hrep) as Hi. pose proof (object_represents w c j Hrep) as Hj.
    destruct (mjoin (held c !! i)) as [fi|]; [|by rewrite Hi]. destruct Hi as (ti & -> & Hti & Hfi & _).
    destruct (mjoin (held c !! j)) as [fj|]; [|by rewrite Hj]. destruct Hj as (tj & -> & Htj & Hfj & _).
    simpl. case_decide as Hij; [by exists w|].
    destruct (move_assign_represents w c i j ti fi tj fj Hrep Hij Hti Hfi Htj Hfj) as (h & -> & Hr).
    simpl. by eexists.
  - pose proof (object_represents w c j Hrep) as Hj.
    destruct (mjoin (held c !! j)) as [f|]; [|by rewrite Hj]. destruct Hj as (t & -> & Ht & Hf & Hs).
    eexists. split; [done|]. by apply release_represents.
  - pose proof (object_represents w c j Hrep) as Hj.
    destruct (mjoin (held c !! j)) as [f|]; [|by rewrite Hj]. destruct Hj as (t & -> & Ht & Hf & Hs).
    simpl. pose proof (await_represents w c j t f Hrep Ht Hs) as Ha.
    destruct f as [f|]; simpl in *; [|by rewrite Ha].
    destruct (await_frame moved_from f) as [[v g]|e]; [|by rewrite Ha].
    destruct Ha as (h & -> & Hr). simpl. eexists. split; [done|].
    destruct Hr as [Hr1 Hr2 Hr3 Hr4]. split; try done. simpl. by rewrite (rep_results _ _ Hrep).
  - pose proof (object_represents w c i Hrep) as Hi.
    destruct (mjoin (held c !! i)) as [f|]; [|by rewrite Hi]. destruct Hi as (t & -> & Ht & Hf & _).
    destruct (destroy_represents w c i t f None Hrep Ht Hf) as (h & Hd & Hh & Hsh); [done|by left|].
    simpl. rewrite Hd. eexists. split; [done|]. apply represents_objects; [done| | |done].
    + unfold slots, cells in Hsh. rewrite !insert_app_l in Hsh; [done|..]; by eapply lookup_lt_Some.
    + rewrite !length_insert. apply (rep_length _ _ Hrep).
  - pose proof (released_represents w c k Hrep) as Hk.
    destruct (scheduled c !! k) as [f|] eqn:Hf; [|by rewrite Hk]. destruct Hk as (a & Hk & Ha & _).
    rewrite Hk. simpl. rewrite Ha. simpl. destruct (done f); simpl.
    + exists w. split; [done|]. rewrite list_insert_id by done. by destruct c.
    + unfold resume. rewrite Ha. simpl. destruct (resume_frame f) as [g|e]; [|done]. simpl.
      eexists. split; [done|]. by apply represents_run.
Qed.
End refinement.

(** ** Properties *)

Section properties.
Context {T : Type} (default_value : T) (moved_from : T → T).

Lemma represents_empty : represents (T := T) empty_world no_coroutines.
Proof. split; [|done|done|done]. split; [constructor|]. intros a. done. Qed.

Lemma perform_all_simulates ops w c :
  represents w c →
  simulates (perform_all default_value moved_from ops w) (value_ops default_value moved_from ops c).
Proof.
  revert w c. induction ops as [|op ops IH]; intros w c Hrep; simpl; [by exists w|].
  pose proof (perform_simulates default_value moved_from op w c Hrep) as Hop.
  destruct (value_op default_value moved_from op c) as [c'|e]; simpl in *; [|by rewrite Hop].
  destruct Hop as (w' & -> & Hw'). simpl. by apply IH.
Qed.

(** C29. Tasks own their frames. Whatever spawns, moves, assignments (to itself included),
    releases, awaits and destructions a program performs, it behaves as one where a task
    is the coroutine itself: it goes wrong only where that one does, by naming no live
    object, awaiting an empty task or letting an exception out of a coroutine. Each frame
    has exactly one owner, a task or the scheduler, none is destroyed twice or used
    afterwards; and once all tasks are destroyed the frames left are the released ones,
    which nothing destroys even when they are done. *)
Theorem tasks_own_their_frames ops :
  simulates (perform_all default_value moved_from ops empty_world)
    (value_ops default_value moved_from ops no_coroutines) ∧
  ∀ w, perform_all default_value moved_from ops empty_world = Done w →
    (∀ a, (occ a (concat (handles <$> tasks w)) + occ a (released w))%nat = present (frames w !! a)) ∧
    (Forall (λ t, t = None) (tasks w) → ∀ a, present (frames w !! a) = occ a (released w)).
Proof.
  pose proof (perform_all_simulates ops _ _ represents_empty) as Hsim. split; [done|].
  intros w Hw. unfold simulates in Hsim.
  destruct (value_ops default_value moved_from ops no_coroutines) as [c|e]; [|by rewrite Hsim in Hw].
  destruct Hsim as (w' & Hw' & Hrep). rewrite Hw in Hw'. injection Hw' as <-.
  assert (∀ a, (occ a (concat (handles <$> tasks w)) + occ a (released w))%nat = present (frames w !! a)) as Ho.
  { intros a. rewrite <- (shown_once _ _ _ (rep_shown _ _ Hrep)). unfold slots.
    rewrite fmap_app, concat_app, occ_app. f_equal. clear.
    induction (released w) as [|b l IH]; [done|]. csimpl. by rewrite IH. }
  split; [done|]. intros Hnone a. rewrite <- Ho. clear Ho.
  assert (concat (handles <$> tasks w) = []) as ->; [|done].
  induction Hnone as [|t ts -> _ IH]; [done|]. csimpl. by rewrite IH.
Qed.

Lemma awaits_step n v x l :
  value_ops default_value moved_from (replicate (S n) (Await 0))
    {| held := [Some (Some {| value_ := x; rest := Some (Nat.iter n CoSuspend (CoReturn v)) |})];
       scheduled := []; results := l |} =
  Done {| held := [Some (Some {| value_ := moved_from v; rest := None |})]; scheduled := [];
          results := l ++ ((λ k, Nat.iter k moved_from x) <$> seq 0 n) ++ [v] |}.
Proof.
  revert x l. induction n as [|n IH]; intros x l; [done|].
  change (replicate (S (S n)) (Await (T := T) 0)) with (Await (T := T) 0 :: replicate (S n) (Await 0)).
  cbn [value_ops value_op]. simpl Nat.iter. cbn -[value_ops replicate seq fmap Nat.iter].
  rewrite IH. do 2 f_equal. rewrite <- app_assoc. f_equal. cbn [seq]. csimpl. do 2 f_equal.
  rewrite <- fmap_S_seq, <- list_fmap_compose. apply list_fmap_ext. intros i k _. simpl.
  by rewrite <- Nat.iter_succ_r.
Qed.

(** [co_await] does not wait. A task whose coroutine returns [v] after [n]
    suspensions is resumed once by each [co_await], which goes on whether or not the
    coroutine is done: the first [n] give the default value, and what a move leaves of
    it, and only the next gives [v]. A coroutine that throws ends the program. *)
Theorem co_await_does_not_wait n v :
  (∃ w, perform_all default_value moved_from
     (Spawn (Nat.iter n CoSuspend (CoReturn v)) :: replicate (S n) (Await 0)) empty_world = Done w ∧
     awaited w = ((λ k, Nat.iter k moved_from default_value) <$> seq 0 n) ++ [v]) ∧
  perform_all default_value moved_from (Spawn (Nat.iter n CoSuspend CoThrow) :: replicate (S n) (Await 0))
    empty_world = Fault Aborted.
Proof.
  split.
  - pose proof (perform_all_simulates
      (Spawn (Nat.iter n CoSuspend (CoReturn v)) :: replicate (S n) (Await 0)) _ _ represents_empty) as Hsim.
    pose proof (awaits_step n v default_value []) as Ha.
    unfold simulates in Hsim. cbn [value_ops value_op] in Hsim.
    unfold no_coroutines, hold, frame_new in Hsim. cbn -[value_ops replicate Nat.iter] in Hsim.
    rewrite Ha in Hsim. destruct Hsim as (w & Hw & Hrep). exists w. split; [done|]. apply (rep_results _ _ Hrep).
  - pose proof (perform_all_simulates
      (Spawn (Nat.iter n CoSuspend CoThrow) :: replicate (S n) (Await 0)) _ _ represents_empty) as Hsim.
    assert (∀ x l, value_ops default_value moved_from (replicate (S n) (Await 0))
      {| held := [Some (Some {| value_ := x; rest := Some (Nat.iter n CoSuspend CoThrow) |})];
         scheduled := []; results := l |} = Fault Aborted) as Ha.
    { clear. induction n as [|n IH]; intros x l; [done|].
      change (replicate (S (S n)) (Await (T := T) 0)) with (Await (T := T) 0 :: replicate (S n) (Await 0)).
      cbn [value_ops value_op]. simpl Nat.iter. cbn -[value_ops replicate Nat.iter]. by rewrite IH. }
    unfold simulates in Hsim. cbn [value_ops value_op] in Hsim.
    unfold no_coroutines, hold, frame_new in Hsim. cbn -[value_ops replicate Nat.iter] in Hsim.
    by rewrite Ha in Hsim.
Qed.
End properties.

(** ** [Task<void>]

    The specialisation keeps no value; it is otherwise the same text. *)

Definition perform_void : operation → world → outcome world := perform () id.

Definition perform_all_void : list operation → world → outcome world := perform_all () id.

(** The world after a session was released and its task destroyed. *)
Definition session_world (left : option body) : world := {|
  tasks := [None]; frames := {[0%nat := {| value_ := (); rest := left |}]};
  next := 1; released := [0%nat]; awaited := [] |}.

Lemma run_session b left :
  resume_frame {| value_ := (); rest := Some b |} = Done {| value_ := (); rest := left |} →
  perform_void (Run 0) (session_world (Some b)) = Done (session_world left).
Proof.
  destruct b as [[]| |b]; intros [= <-]; reflexivity.
Qed.

(** The server's sessions: spawned, released to the scheduler, run to their end. Their
    frames, with the sockets in them, stay. *)
Lemma released_session_stays n :
  perform_all_void (Spawn (Nat.iter n CoSuspend (CoReturn ())) :: Release 0 :: Destruct 0 ::
    replicate (S n) (Run 0)) empty_world = Done (session_world None).
Proof.
  assert (∀ b, perform_all_void (Spawn b :: Release 0 :: Destruct 0 :: replicate (S n) (Run 0)) empty_world =
    perform_all_void (replicate (S n) (Run 0)) (session_world (Some b))) as -> by done.
  induction n as [|n IH]; [done|].
  change (replicate (S (S n)) (Run (T := ()) 0)) with (Run (T := ()) 0 :: replicate (S n) (Run 0)).
  change (Nat.iter (S n) CoSuspend (CoReturn ())) with (CoSuspend (Nat.iter n CoSuspend (CoReturn ()))).
  unfold perform_all_void. cbn [perform_all]. rewrite (run_session _ (Some (Nat.iter n CoSuspend (CoReturn ())))) by done.
  exact IH.
Qed.
