(* ===== verification/Pool.v ===== *)
(** * Continuation pool and future awaitables
      ([src/reactor/continuation_pool.cpp], [include/jellybean/reactor/future_awaitable.hpp])

    Coroutines that wait for a future post a task to the pool; a pool thread blocks on
    the future and schedules the coroutine. One critical section, notification or call a
    step; a wait on the condition variable may end for no reason. What resolves the
    futures is the environment. *)
From S2P Require Import Prelude.
From S2P Require Import Transition.

Section pool.
Context {V : Type}.

(** ** Data *)

Definition num_threads : nat := 4.

(** The state shared by a future and its promise; [Broken]: an exception is stored, as
    when the promise is destroyed unset. *)
Inductive future_state :=
| Pending
| Resolved (v : V)
| Broken.

(** The lambda posted by [await_suspend]: the future moved into it, the coroutine. *)
Record task := {
  fut : nat;
  coroutine : nat }.

(** [worker_loop]: about to lock and evaluate the predicate; in [wait]; blocked in
    [f->get()]; about to schedule the coroutine; returned. *)
Inductive worker :=
| WLock
| WWait
| WGet (t : task)
| WSchedule (t : task) (v : V)
| WDone.

(** A thread that calls [post]: elsewhere, or about to notify. *)
Inductive poster := PIdle | PNotify.

(** The destructor. *)
Inductive destructor := DIdle | DNotify | DJoin | DDone.

(** [posted] and [started] list the tasks pushed and taken, [resumptions] the coroutines
    scheduled with what they find in [result], [direct] those that went on at once, [threw]
    those whose [await_resume] threw. [posted_before]: the length of [posted] when the
    destructor set [stopped_]. *)
Record state := {
  queue : list task;
  stopped : bool;
  workers : list worker;
  posters : list poster;
  dtor : destructor;
  futures : gmap nat future_state;
  posted : list task;
  started : list task;
  resumptions : list (task * V);
  direct : list (task * V);
  threw : list task;
  posted_before : nat;
  terminated : bool }.

(** The constructor's state. *)
Definition initial (s : state) : Prop := ∃ n, s = {|
  queue := []; stopped := false; workers := replicate num_threads WLock;
  posters := replicate n PIdle; dtor := DIdle; futures := ∅; posted := []; started := [];
  resumptions := []; direct := []; threw := []; posted_before := 0; terminated := false |}.

(** ** State updates *)

Definition set_worker (i : nat) (w : worker) (s : state) : state := {|
  queue := queue s; stopped := stopped s; workers := <[i := w]> (workers s); posters := posters s;
  dtor := dtor s; futures := futures s; posted := posted s; started := started s;
  resumptions := resumptions s; direct := direct s; threw := threw s;
  posted_before := posted_before s; terminated := terminated s |}.

Definition set_poster (j : nat) (p : poster) (s : state) : state := {|
  queue := queue s; stopped := stopped s; workers := workers s; posters := <[j := p]> (posters s);
  dtor := dtor s; futures := futures s; posted := posted s; started := started s;
  resumptions := resumptions s; direct := direct s; threw := threw s;
  posted_before := posted_before s; terminated := terminated s |}.

Definition set_dtor (d : destructor) (ws : list worker) (s : state) : state := {|
  queue := queue s; stopped := stopped s; workers := ws; posters := posters s;
  dtor := d; futures := futures s; posted := posted s; started := started s;
  resumptions := resumptions s; direct := direct s; threw := threw s;
  posted_before := posted_before s; terminated := terminated s |}.

Definition set_stopped (s : state) : state := {|
  queue := queue s; stopped := true; workers := workers s; posters := posters s;
  dtor := DNotify; futures := futures s; posted := posted s; started := started s;
  resumptions := resumptions s; direct := direct s; threw := threw s;
  posted_before := length (posted s); terminated := terminated s |}.

Definition push_task (t : task) (s : state) : state := {|
  queue := queue s ++ [t]; stopped := stopped s; workers := workers s; posters := posters s;
  dtor := dtor s; futures := futures s; posted := posted s ++ [t]; started := started s;
  resumptions := resumptions s; direct := direct s; threw := threw s;
  posted_before := posted_before s; terminated := terminated s |}.

Definition take_task (t : task) (q : list task) (s : state) : state := {|
  queue := q; stopped := stopped s; workers := workers s; posters := posters s;
  dtor := dtor s; futures := futures s; posted := posted s; started := started s ++ [t];
  resumptions := resumptions s; direct := direct s; threw := threw s;
  posted_before := posted_before s; terminated := terminated s |}.

Definition set_future (f : nat) (x : future_state) (s : state) : state := {|
  queue := queue s; stopped := stopped s; workers := workers s; posters := posters s;
  dtor := dtor s; futures := <[f := x]> (futures s); posted := posted s; started := started s;
  resumptions := resumptions s; direct := direct s; threw := threw s;
  posted_before := posted_before s; terminated := terminated s |}.

Definition resume_with (t : task) (v : V) (s : state) : state := {|
  queue := queue s; stopped := stopped s; workers := workers s; posters := posters s;
  dtor := dtor s; futures := futures s; posted := posted s; started := started s;
  resumptions := resumptions s ++ [(t, v)]; direct := direct s; threw := threw s;
  posted_before := posted_before s; terminated := terminated s |}.

Definition go_on_with (t : task) (v : V) (s : state) : state := {|
  queue := queue s; stopped := stopped s; workers := workers s; posters := posters s;
  dtor := dtor s; futures := futures s; posted := posted s; started := started s;
  resumptions := resumptions s; direct := direct s ++ [(t, v)]; threw := threw s;
  posted_before := posted_before s; terminated := terminated s |}.

Definition throw_into (t : task) (s : state) : state := {|
  queue := queue s; stopped := stopped s; workers := workers s; posters := posters s;
  dtor := dtor s; futures := futures s; posted := posted s; started := started s;
  resumptions := resumptions s; direct := direct s; threw := threw s ++ [t];
  posted_before := posted_before s; terminated := terminated s |}.

Definition terminate (s : state) : state := {|
  queue := queue s; stopped := stopped s; workers := workers s; posters := posters s;
  dtor := dtor s; futures := futures s; posted := posted s; started := started s;
  resumptions := resumptions s; direct := direct s; threw := threw s;
  posted_before := posted_before s; terminated := true |}.

(** ** Steps *)

(** One step of [worker_loop]; an exception of [f->get()] leaves the thread's function. *)
Inductive worker_step (i : nat) : worker → state → state → Prop :=
| worker_waits s :
    queue s = [] → stopped s = false → worker_step i WLock s (set_worker i WWait s)
| worker_returns s :
    queue s = [] → stopped s = true → worker_step i WLock s (set_worker i WDone s)
| worker_takes s t q :
    queue s = t :: q → worker_step i WLock s (set_worker i (WGet t) (take_task t q s))
| worker_wakes s :
    worker_step i WWait s (set_worker i WLock s)
| worker_gets s t v :
    futures s !! fut t = Some (Resolved v) →
    worker_step i (WGet t) s (set_worker i (WSchedule t v) s)
| worker_throws s t :
    futures s !! fut t = Some Broken → worker_step i (WGet t) s (terminate s)
| worker_schedules s t v :
    worker_step i (WSchedule t v) s (set_worker i WLock (resume_with t v s)).

(** What [notify_one] does: one of the waiting workers goes on, if there is one. *)
Inductive notify_one : list worker → list worker → Prop :=
| notify_some ws i : ws !! i = Some WWait → notify_one ws (<[i := WLock]> ws)
| notify_none ws : WWait ∉ ws → notify_one ws ws.

(** [co_await infer_future(f)] in coroutine [coroutine t] on a reactor's thread: a future
    found settled is read at once; one found pending is posted, whatever became of it
    since. *)
Inductive poster_step (j : nat) : poster → state → state → Prop :=
| await_resolved s t v :
    futures s !! fut t = Some (Resolved v) → poster_step j PIdle s (go_on_with t v s)
| await_broken s t :
    futures s !! fut t = Some Broken → poster_step j PIdle s (throw_into t s)
| await_posts s t :
    is_Some (futures s !! fut t) →
    poster_step j PIdle s (set_poster j PNotify (push_task t s))
| post_notifies s ws :
    notify_one (workers s) ws →
    poster_step j PNotify s (set_poster j PIdle (set_dtor (dtor s) ws s)).

Definition woken (w : worker) : worker := match w with WWait => WLock | _ => w end.

Inductive dtor_step (s : state) : state → Prop :=
| dtor_stops : dtor s = DIdle → dtor_step s (set_stopped s)
| dtor_notifies : dtor s = DNotify → dtor_step s (set_dtor DJoin (woken <$> workers s) s)
| dtor_joins :
    dtor s = DJoin → Forall (λ w, w = WDone) (workers s) →
    dtor_step s (set_dtor DDone (workers s) s).

(** Futures come into being and are resolved, or broken, once. *)
Inductive environment_step (s : state) : state → Prop :=
| future_made f : futures s !! f = None → environment_step s (set_future f Pending s)
| future_set f x : futures s !! f = Some Pending → environment_step s (set_future f x s).

Inductive step (s s' : state) : Prop :=
| worker_moves i w :
    terminated s = false → workers s !! i = Some w → worker_step i w s s' → step s s'
| poster_moves j p :
    terminated s = false → posters s !! j = Some p → poster_step j p s s' → step s s'
| dtor_moves : terminated s = false → dtor_step s s' → step s s'
| environment_moves : terminated s = false → environment_step s s' → step s s'.

(** ** The invariant *)

#[export] Instance task_eq_dec : EqDecision task.
Proof. solve_decision. Defined.

(** The task a worker is at. *)
Definition holds (w : worker) : list task :=
  match w with WGet t | WSchedule t _ => [t] | _ => [] end.

(** Workers that will look at the queue, and notifications that are due. *)
Definition awake (w : worker) : list nat := match w with WLock => [0%nat] | _ => [] end.

Definition due (p : poster) : list nat := match p with PNotify => [0%nat] | PIdle => [] end.

Definition attention (ws : list worker) (ps : list poster) : nat :=
  (occ 0%nat (concat (awake <$> ws)) + occ 0%nat (concat (due <$> ps)))%nat.

Definition worker_ok (s : state) (w : worker) : Prop :=
  match w with
  | WWait => (length (queue s) <= attention (workers s) (posters s))%nat ∧ dtor s ≠ DJoin ∧ dtor s ≠ DDone
  | WSchedule t v => futures s !! fut t = Some (Resolved v)
  | WDone => stopped s = true ∧ (posted_before s <= length (started s))%nat
  | _ => True
  end.

Record pool_ok (s : state) : Prop := {
  ok_queue : posted s = started s ++ queue s;
  ok_once : ∀ t, occ t (started s) =
    (occ t (concat (holds <$> workers s)) + occ t (resumptions s).*1)%nat;
  ok_futures : Forall (λ t, is_Some (futures s !! fut t)) (posted s);
  ok_values : Forall (λ r, futures s !! fut r.1 = Some (Resolved r.2)) (resumptions s ++ direct s);
  ok_workers : Forall (worker_ok s) (workers s);
  ok_stopped : stopped s = match dtor s with DIdle => false | _ => true end;
  ok_joined : dtor s = DDone → Forall (λ w, w = WDone) (workers s);
  ok_before : (posted_before s <= length (posted s))%nat;
  ok_threads : length (workers s) = num_threads }.

Lemma pool_ok_init s : initial s → pool_ok s.
Proof.
  intros (n & ->). split; simpl; try done; try lia.
  all: repeat constructor.
Qed.

(** A future that is settled stays so. *)
Definition settles (fs fs' : gmap nat future_state) : Prop :=
  (∀ f v, fs !! f = Some (Resolved v) → fs' !! f = Some (Resolved v)) ∧
  (∀ f, is_Some (fs !! f) → is_Some (fs' !! f)).

Lemma environment_settles s s' : environment_step s s' → settles (futures s) (futures s').
Proof.
  intros [f Hf|f x Hf]; simpl; split.
  - intros g v Hg. destruct (decide (f = g)) as [->|Hne]; [by rewrite Hf in Hg|].
    by rewrite lookup_insert_ne.
  - intros g Hg. destruct (decide (f = g)) as [->|Hne]; [by rewrite lookup_insert_eq|].
    by rewrite lookup_insert_ne.
  - intros g v Hg. destruct (decide (f = g)) as [->|Hne]; [by rewrite Hf in Hg|].
    by rewrite lookup_insert_ne.
  - intros g Hg. destruct (decide (f = g)) as [->|Hne]; [by rewrite lookup_insert_eq|].
    by rewrite lookup_insert_ne.
Qed.

Lemma environment_ok s s' : pool_ok s → environment_step s s' → pool_ok s'.
Proof.
  intros [H1 H2 H3 H4 H5 H6 H7 H8 H9] Hs. pose proof (environment_settles _ _ Hs) as [Hv Hsome].
  destruct Hs as [f Hf|f x Hf]; split; try done; simpl in *.
  - apply (Forall_impl _ _ _ H3). auto.
  - apply (Forall_impl _ _ _ H4). auto.
  - apply (Forall_impl _ _ _ H5). intros []; simpl; auto.
  - apply (Forall_impl _ _ _ H3). auto.
  - apply (Forall_impl _ _ _ H4). auto.
  - apply (Forall_impl _ _ _ H5). intros []; simpl; auto.
Qed.

(** Workers other than the one that moves. *)
Lemma other_workers_ok s s' ws :
  Forall (worker_ok s) ws →
  (WWait ∈ ws → (length (queue s) <= attention (workers s) (posters s))%nat →
     (length (queue s') <= attention (workers s') (posters s'))%nat) →
  (WWait ∈ ws → dtor s' = dtor s) →
  (∀ f v, futures s !! f = Some (Resolved v) → futures s' !! f = Some (Resolved v)) →
  (stopped s = true → stopped s' = true ∧ posted_before s' = posted_before s) →
  (length (started s) <= length (started s'))%nat →
  Forall (worker_ok s') ws.
Proof.
  intros Hws Hq Hd Hf Hst Hlen. apply Forall_forall. intros w Hw.
  pose proof (proj1 (Forall_forall _ _) Hws w Hw) as Hok. destruct w; simpl in *; try done; auto.
  - destruct Hok as (H1 & H2 & H3). rewrite Hd by done. auto.
  - destruct Hok as (H1 & H2). destruct (Hst H1) as [-> ->]. split; [done|lia].
Qed.

Lemma attention_moves ws ps i w w' :
  ws !! i = Some w →
  (attention (<[i := w']> ws) ps + occ 0%nat (awake w) = attention ws ps + occ 0%nat (awake w'))%nat.
Proof. intros Hi. unfold attention. pose proof (occ_fmap_insert awake 0%nat ws i w w' Hi). lia. Qed.

Lemma working_not_joined s i w :
  pool_ok s → workers s !! i = Some w → w ≠ WDone → dtor s ≠ DDone.
Proof.
  intros Hok Hi Hw Hd. apply Hw. by apply (Forall_lookup_1 _ _ _ _ (ok_joined _ Hok Hd) Hi).
Qed.

Lemma pool_worker_ok s s' i w :
  pool_ok s → workers s !! i = Some w → worker_step i w s s' → pool_ok s'.
Proof.
  intros Hok Hi Hstep. pose proof Hok as [H1 H2 H3 H4 H5 H6 H7 H8 H9].
  pose proof (Forall_lookup_1 _ _ _ _ H5 Hi) as Hwi.
  assert (dtor s ≠ DDone ∨ w = WDone) as [Hd| ->]; [| |by inversion Hstep].
  { destruct w; try by left; eapply working_not_joined. by right. }
  assert (∀ w', (attention (<[i := w']> (workers s)) (posters s) + occ 0%nat (awake w) =
    attention (workers s) (posters s) + occ 0%nat (awake w'))%nat) as Hatt
    by (intros; by apply attention_moves).
  pose proof (λ t w', occ_fmap_insert holds t (workers s) i w w' Hi) as Hh.
  inversion Hstep as [? Hq Hst|? Hq Hst|? t q Hq| |? t v Hf|? t Hf|? t v]; subst; clear Hstep.
  - split; simpl; rewrite ?length_insert; try done.
    + intros u. specialize (H2 u). specialize (Hh u WWait). simpl in *. lia.
    + apply Forall_insert.
      * eapply (other_workers_ok s); try done; simpl. intros _ _. rewrite Hq. simpl. lia.
      * simpl. rewrite Hq. split; [simpl; lia|]. rewrite Hst in H6. by destruct (dtor s).
  - split; simpl; rewrite ?length_insert; try done.
    + intros u. specialize (H2 u). specialize (Hh u WDone). simpl in *. lia.
    + apply Forall_insert.
      * eapply (other_workers_ok s); try done; simpl. intros _ _. rewrite Hq. simpl. lia.
      * simpl. split; [done|]. rewrite H1, Hq, app_nil_r in H8. done.
  - split; simpl; rewrite ?length_insert; try done.
    + rewrite H1, Hq. by rewrite <- app_assoc.
    + intros u. specialize (H2 u). specialize (Hh u (WGet t)). simpl in *. rewrite occ_app. simpl. lia.
    + apply Forall_insert; [|done].
      eapply (other_workers_ok s); try done; simpl; [|rewrite length_app; lia].
      intros _. specialize (Hatt (WGet t)). rewrite Hq. simpl in *. lia.
  - split; simpl; rewrite ?length_insert; try done.
    + intros u. specialize (H2 u). specialize (Hh u WLock). simpl in *. lia.
    + apply Forall_insert; [|done].
      eapply (other_workers_ok s); try done; simpl.
      intros _. specialize (Hatt WLock). simpl in *. lia.
  - split; simpl; rewrite ?length_insert; try done.
    + intros u. specialize (H2 u). specialize (Hh u (WSchedule t v)). simpl in *. lia.
    + apply Forall_insert; [|done].
      eapply (other_workers_ok s); try done; simpl.
      intros _. specialize (Hatt (WSchedule t v)). simpl in *. lia.
  - by split.
  - split; simpl; rewrite ?length_insert; try done.
    + intros u. specialize (H2 u). specialize (Hh u WLock). rewrite fmap_app, occ_app. simpl in *. lia.
    + apply Forall_app in H4 as [H4 H4']. rewrite <- app_assoc. apply Forall_app. split; [done|].
      by apply Forall_cons.
    + apply Forall_insert; [|done].
      eapply (other_workers_ok s); try done; simpl.
      intros _. specialize (Hatt WLock). simpl in *. lia.
Qed.

Lemma notify_one_wakes ws ws' ps :
  notify_one ws ws' →
  (attention ws ps <= attention ws' ps)%nat ∧
  (WWait ∈ ws → (attention ws ps < attention ws' ps)%nat) ∧
  (∀ t, occ t (concat (holds <$> ws')) = occ t (concat (holds <$> ws))) ∧
  length ws' = length ws ∧
  (∀ P : worker → Prop, P WLock → Forall P ws → Forall P ws') ∧
  (Forall (λ w, w = WDone) ws → ws' = ws).
Proof.
  intros [ws0 i Hi|ws0 Hno].
  - pose proof (attention_moves ws0 ps i WWait WLock Hi) as Ha. simpl in Ha. split_and!; try lia.
    + intros t. pose proof (occ_fmap_insert holds t ws0 i WWait WLock Hi) as Hh. simpl in Hh. lia.
    + apply length_insert.
    + intros P HP HF. by apply Forall_insert.
    + intros Hd. by apply (Forall_lookup_1 _ _ _ _ Hd) in Hi.
  - split_and!; try done; lia.
Qed.

Lemma pool_poster_ok s s' j p :
  pool_ok s → posters s !! j = Some p → poster_step j p s s' → pool_ok s'.
Proof.
  intros Hok Hj Hstep. pose proof Hok as [H1 H2 H3 H4 H5 H6 H7 H8 H9].
  inversion Hstep as [? t v Hf|? t Hf|? t Hf|? ws Hn]; subst; clear Hstep.
  - split; simpl; try done. rewrite app_assoc. apply Forall_app. split; [done|]. by apply Forall_singleton.
  - by split.
  - pose proof (occ_fmap_insert due 0%nat (posters s) j PIdle PNotify Hj) as Hd. simpl in Hd.
    split; simpl; try done.
    + by rewrite H1, app_assoc.
    + apply Forall_app. split; [done|]. by apply Forall_singleton.
    + eapply (other_workers_ok s); try done; simpl. intros _. rewrite length_app. unfold attention. simpl. lia.
    + rewrite length_app. lia.
  - pose proof (occ_fmap_insert due 0%nat (posters s) j PNotify PIdle Hj) as Hd. simpl in Hd.
    destruct (notify_one_wakes _ _ (posters s) Hn) as (Ha & Hw & Hh & Hl & HP & Hdone).
    split; simpl; try done.
    + intros t. by rewrite Hh.
    + apply HP; [done|]. eapply (other_workers_ok s); try done; simpl.
      intros Hin. specialize (Hw Hin). unfold attention in *. lia.
    + intros Hdd. rewrite Hdone by auto. auto.
    + by rewrite Hl.
Qed.

Lemma woken_workers (P : worker → Prop) ws :
  (P WWait → P WLock) → Forall P ws → Forall P (woken <$> ws).
Proof.
  intros HP Hf. induction Hf as [|w ws Hw _ IH]; [constructor|]. csimpl. constructor; [|done].
  destruct w; simpl; auto.
Qed.

Lemma woken_holds t ws : occ t (concat (holds <$> (woken <$> ws))) = occ t (concat (holds <$> ws)).
Proof. induction ws as [|w ws IH]; [done|]. csimpl. rewrite !occ_app, IH. by destruct w. Qed.

Lemma woken_not_waiting (ws : list worker) : WWait ∉ woken <$> ws.
Proof. intros ([] & H & _)%list_elem_of_fmap; done. Qed.

Lemma pool_dtor_ok s s' : pool_ok s → dtor_step s s' → pool_ok s'.
Proof.
  intros [H1 H2 H3 H4 H5 H6 H7 H8 H9] [Hd|Hd|Hd Hj].
  - assert (stopped s = false) as Hst by by rewrite H6, Hd.
    split; simpl; try done. apply (Forall_impl _ _ _ H5).
    intros []; simpl; try done; [by rewrite Hd in *; intros (? & ? & ?)|by rewrite Hst; intros []].
  - split; simpl; try done.
    + intros t. by rewrite woken_holds.
    + apply Forall_forall. intros w Hw.
      assert (worker_ok s w) as Hok.
      { apply (proj1 (Forall_forall _ _) (woken_workers (worker_ok s) _ (λ _, I) H5) w Hw). }
      destruct w; try done. by apply woken_not_waiting in Hw.
    + by rewrite Hd in H6.
    + by rewrite length_fmap.
  - split; simpl; try done.
    + apply (Forall_impl _ _ _ Hj). intros w ->. assert (WDone ∈ workers s) as Hw.
      { destruct (workers s) as [|w' ws]; [done|]. apply Forall_cons in Hj as [-> _]. by left. }
      apply (proj1 (Forall_forall _ _) H5 WDone Hw).
    + by rewrite Hd in H6.
Qed.

Lemma pool_reachable_ok s : reachable initial step s → pool_ok s.
Proof.
  apply reachable_ind'; [apply pool_ok_init|]. intros s1 s2 _ Hok Hstep.
  destruct Hstep as [i w _ Hi Hs|j p _ Hj Hs|_ Hs|_ Hs];
    [by eapply pool_worker_ok|by eapply pool_poster_ok|by eapply pool_dtor_ok|by eapply environment_ok].
Qed.

(** A worker that waits neither for a notification nor for a future can move. *)
Lemma worker_can_move s i w :
  pool_ok s → workers s !! i = Some w → queue s ≠ [] → w ≠ WWait →
  (∃ s', worker_step i w s s') ∨ w = WDone ∨ ∃ t, w = WGet t ∧ futures s !! fut t = Some Pending.
Proof.
  intros Hok Hi Hq Hw. destruct w as [| |t|t v|]; [|done| | |by right; left].
  - left. destruct (queue s) as [|t q] eqn:E; [done|]. eexists. by eapply worker_takes.
  - assert (t ∈ posted s) as Ht.
    { rewrite (ok_queue _ Hok). apply elem_of_app. left. apply occ_elem. rewrite (ok_once _ Hok).
      pose proof (occ_fmap_lookup holds t (workers s) i _ Hi) as H. simpl in H.
      destruct (decide (t = t)); [lia|done]. }
    destruct (proj1 (Forall_forall _ _) (ok_futures _ Hok) t Ht) as [[|v|] Hf].
    + right. right. by exists t.
    + left. eexists. by apply worker_gets.
    + left. eexists. by apply worker_throws.
  - left. eexists. apply worker_schedules.
Qed.

(** With a worker asleep, another one will look at the queue or a notification is due. *)
Lemma queue_attended s :
  pool_ok s → queue s ≠ [] → WWait ∈ workers s →
  (∃ i, workers s !! i = Some WLock) ∨ (∃ j, posters s !! j = Some PNotify).
Proof.
  intros Hok Hq Hw. pose proof (proj1 (Forall_forall _ _) (ok_workers _ Hok) _ Hw) as (Hlen & _).
  assert (0 < length (queue s))%nat by (destruct (queue s); simpl; [done|lia]).
  unfold attention in Hlen.
  assert (0 < occ 0%nat (concat (awake <$> workers s)) ∨ 0 < occ 0%nat (concat (due <$> posters s)))%nat
    as [Ho|Ho] by lia; apply occ_elem, list_elem_of_In, in_concat in Ho as (l & Hl & Hin);
    apply list_elem_of_In, list_elem_of_fmap in Hl as (x & -> & Hx);
    apply list_elem_of_lookup in Hx as [k Hk]; [left|right]; exists k; by destruct x.
Qed.

Lemma some_or_all (A : nat → worker → Prop) (B : worker → Prop) ws :
  (∀ i w, ws !! i = Some w → A i w ∨ B w) → (∃ i w, ws !! i = Some w ∧ A i w) ∨ Forall B ws.
Proof.
  revert A. induction ws as [|w ws IH]; intros A H; [by right|].
  destruct (H 0%nat w eq_refl) as [HA|HB]; [left; by exists 0%nat, w|].
  destruct (IH (λ i, A (S i))) as [(i & w' & Hi & HA)|HF].
  - intros i w' Hi. by apply (H (S i)).
  - left. by exists (S i), w'.
  - right. by constructor.
Qed.
End pool.
Arguments state : clear implicits.

(** ** Properties *)

(** C30. Each wait is served once. In every state of the pool tasks are taken in the order
    they were posted, each by one worker, which schedules its coroutine once with the value
    of its own future; so does a coroutine that finds its future resolved. The destructor's
    joins return only when every task posted before it has been run to its end. *)
Theorem pool_serves_each_wait_once {V} (s : state V) :
  reachable initial step s →
  posted s = started s ++ queue s ∧
  (∀ t, occ t (started s) = (occ t (concat (holds <$> workers s)) + occ t (resumptions s).*1)%nat) ∧
  Forall (λ r, futures s !! fut r.1 = Some (Resolved r.2)) (resumptions s ++ direct s) ∧
  (dtor s = DDone → ∀ t, (occ t (take (posted_before s) (posted s)) <= occ t (resumptions s).*1)%nat).
Proof.
  intros Hr. pose proof (pool_reachable_ok s Hr) as Hok. pose proof Hok as [H1 H2 H3 H4 H5 H6 H7 H8 H9].
  split_and!; try done. intros Hd t. specialize (H7 Hd).
  assert (concat (holds <$> workers s) = []) as Hh.
  { clear -H7. induction H7 as [|w ws -> _ IH]; [done|]. csimpl. by rewrite IH. }
  assert ((posted_before s <= length (started s))%nat) as Hlen.
  { destruct (workers s) as [|w ws]; [done|]. apply Forall_cons in H5 as [Hw _].
    apply Forall_cons in H7 as [-> _]. apply Hw. }
  specialize (H2 t). rewrite Hh in H2. simpl in H2. rewrite <- H2, H1, take_app_le by done.
  rewrite <- (take_drop (posted_before s) (started s)) at 2. rewrite occ_app. lia.
Qed.

(** C31. No posted task is slept through. While a task is queued (and no exception has
    ended the process) a worker that is awake can move, or a notification is due and can
    be given, or every worker has returned or blocks on a future that is not settled.
    Once the destructor joins, no worker sleeps. *)
Theorem pool_never_sleeps_on_work {V} (s : state V) :
  reachable initial step s → terminated s = false →
  (queue s ≠ [] →
     (∃ i w s', workers s !! i = Some w ∧ w ≠ WWait ∧ worker_step i w s s') ∨
     (∃ j s', posters s !! j = Some PNotify ∧ poster_step j PNotify s s') ∨
     Forall (λ w, w = WDone ∨ ∃ t, w = WGet t ∧ futures s !! fut t = Some Pending) (workers s)) ∧
  (dtor s = DJoin → WWait ∉ workers s).
Proof.
  intros Hr Ht. pose proof (pool_reachable_ok s Hr) as Hok. split.
  - intros Hq. destruct (some_or_all (λ _ w, w = WWait) (λ w, w ≠ WWait) (workers s))
      as [(k & w & Hk & ->)|Hw]; [by intros i []; [right|left|right..]| |].
    + assert (WWait ∈ workers s) as Hw by by eapply list_elem_of_lookup_2.
      destruct (queue_attended s Hok Hq Hw) as [[i Hi]|[j Hj]].
      * left. destruct (queue s) as [|t q] eqn:E; [done|]. exists i, WLock. eexists.
        split; [done|]. split; [done|]. by eapply worker_takes.
      * right. left. exists j. eexists. split; [done|].
        apply post_notifies. by eapply notify_some.
    + destruct (some_or_all (λ i w, w ≠ WWait ∧ ∃ s', worker_step i w s s')
        (λ w, w = WDone ∨ ∃ t, w = WGet t ∧ futures s !! fut t = Some Pending) (workers s))
        as [(i & w & Hi & Hne & s' & Hs)|HF].
      * intros i w Hi. assert (w ≠ WWait) as Hne.
        { by apply (Forall_lookup_1 _ _ _ _ Hw Hi). }
        destruct (worker_can_move s i w Hok Hi Hq Hne) as [?|?]; [by left|by right].
      * left. by exists i, w, s'.
      * by right; right.
  - intros Hd Hw. pose proof (proj1 (Forall_forall _ _) (ok_workers _ Hok) _ Hw) as (_ & H & _). done.
Qed.

Ltac pool_worker_does k t :=
  eapply rtc_l; [eapply (worker_moves _ _ k); [reflexivity|reflexivity|t]|].

Ltac pool_poster_does t :=
  eapply rtc_l; [eapply (poster_moves _ _ 0%nat); [reflexivity|reflexivity|t]|].

Ltac pool_environment_does t := eapply rtc_l; [apply environment_moves; [reflexivity|t]|].

(** A coroutine starts to wait for the new future [f]. *)
Ltac waits_for f :=
  pool_environment_does ltac:(by apply (future_made _ f));
  pool_poster_does ltac:(apply (await_posts _ _ {| fut := f; coroutine := f |}); by eexists);
  pool_poster_does ltac:(apply post_notifies, notify_none; cbn; rewrite !elem_of_cons, elem_of_nil; naive_solver).

(** Four waits are all there can be, and a broken promise is fatal. With four threads
    blocked on futures that are not settled, a fifth coroutine whose future is resolved is
    not scheduled by any step of a worker; and a future broken while a thread waits for
    it, as the executor leaves those of abandoned requests, ends the process. *)
Theorem pool_blocked_by_four_waits :
  (∃ s : state nat, reachable initial step s ∧ terminated s = false ∧
     (∃ t v, queue s = [t] ∧ futures s !! fut t = Some (Resolved v)) ∧
     ∀ i w s', workers s !! i = Some w → ¬ worker_step i w s s') ∧
  (∃ s : state nat, reachable initial step s ∧ terminated s = true).
Proof.
  split.
  - eexists. split.
    { eexists. split; [exists 1%nat; reflexivity|].
      waits_for 0%nat. waits_for 1%nat. waits_for 2%nat. waits_for 3%nat. waits_for 4%nat.
      pool_worker_does 0%nat ltac:(by eapply worker_takes). pool_worker_does 1%nat ltac:(by eapply worker_takes).
      pool_worker_does 2%nat ltac:(by eapply worker_takes). pool_worker_does 3%nat ltac:(by eapply worker_takes).
      pool_environment_does ltac:(by apply (future_set _ 4%nat (Resolved 7%nat))). apply rtc_refl. }
    split; [done|]. split; [by do 2 eexists|]. intros i w s' Hi Hs.
    do 4 (destruct i as [|i]; [simpl in Hi; injection Hi as <-; inversion Hs; simplify_eq|]). done.
  - eexists. split.
    { eexists. split; [exists 1%nat; reflexivity|]. waits_for 0%nat.
      pool_worker_does 0%nat ltac:(by eapply worker_takes).
      pool_environment_does ltac:(by apply (future_set _ 0%nat Broken)).
      pool_worker_does 0%nat ltac:(by eapply worker_throws). apply rtc_refl. }
    done.
Qed.

(** *** Witnesses *)

(** A wait that is served. *)
Lemma served_wait :
  ∃ s : state nat, reachable initial step s ∧ terminated s = false ∧ queue s = [] ∧
    resumptions s = [({| fut := 0; coroutine := 0 |}, 7%nat)].
Proof.
  eexists. split.
  { eexists. split; [exists 1%nat; reflexivity|]. waits_for 0%nat.
    pool_worker_does 0%nat ltac:(by eapply worker_takes).
    pool_environment_does ltac:(by apply (future_set _ 0%nat (Resolved 7%nat))).
    pool_worker_does 0%nat ltac:(by eapply worker_gets).
    pool_worker_does 0%nat ltac:(by eapply worker_schedules). apply rtc_refl. }
  done.
Qed.

Lemma pool_serves_each_wait_once_witness :
  ∃ s : state nat, reachable initial step s ∧ queue s = [] ∧ length (resumptions s) = 1%nat ∧
    posted s = started s ++ queue s.
Proof.
  destruct served_wait as (s & Hr & Ht & Hq & Hres). exists s. split; [done|]. split; [done|].
  split; [by rewrite Hres|]. apply (pool_serves_each_wait_once s Hr).
Defined.

(** A task posted while all workers sleep; its notification is still due when the
    destructor wakes them. *)
Lemma queued_at_join :
  ∃ s : state nat, reachable initial step s ∧ terminated s = false ∧
    queue s = [{| fut := 0; coroutine := 0 |}] ∧ posters s = [PNotify] ∧ dtor s = DJoin.
Proof.
  eexists. split.
  { eexists. split; [exists 1%nat; reflexivity|].
    pool_worker_does 0%nat ltac:(by apply worker_waits). pool_worker_does 1%nat ltac:(by apply worker_waits).
    pool_worker_does 2%nat ltac:(by apply worker_waits). pool_worker_does 3%nat ltac:(by apply worker_waits).
    pool_environment_does ltac:(by apply (future_made _ 0%nat)).
    pool_poster_does ltac:(apply (await_posts _ _ {| fut := 0; coroutine := 0 |}); by eexists).
    eapply rtc_l; [apply dtor_moves; [reflexivity|by apply dtor_stops]|].
    eapply rtc_l; [apply dtor_moves; [reflexivity|by apply dtor_notifies]|]. apply rtc_refl. }
  done.
Qed.

Lemma pool_never_sleeps_on_work_witness :
  ∃ s : state nat, reachable initial step s ∧ terminated s = false ∧
    queue s = [{| fut := 0; coroutine := 0 |}] ∧ dtor s = DJoin ∧
    ((∃ i w s', workers s !! i = Some w ∧ w ≠ WWait ∧ worker_step i w s s') ∨
     (∃ j s', posters s !! j = Some PNotify ∧ poster_step j PNotify s s') ∨
     Forall (λ w, w = WDone ∨ ∃ t, w = WGet t ∧ futures s !! fut t = Some Pending) (workers s)) ∧
    WWait ∉ workers s.
Proof.
  destruct queued_at_join as (s & Hr & Ht & Hq & _ & Hd). exists s. split_and!; try done.
  - apply (pool_never_sleeps_on_work s Hr Ht). by rewrite Hq.
  - by apply (pool_never_sleeps_on_work s Hr Ht).
Defined.
