(* ===== verification/Reactor.v ===== *)
(** * Reactor ([src/reactor/reactor.cpp], [src/reactor/epoll_backend.cpp],
      [include/jellybean/concurrency/backoff.hpp], the loop of [main] and
      [signal_handler] of [src/server/main.cpp])

    The reactor's thread, other threads that schedule coroutines, and signals, one
    shared access a step. The external queue is the bounded FIFO queue that [Mpmc] shows
    the lock-free one to be; what coroutines, timer callbacks and the kernel do is left
    open. Handles are numbers; [finished] are those at their final suspension point. *)
From S2P Require Import Prelude.
From S2P Require Import Transition.

(** ** Backoff *)

Inductive pause := Spin | YieldThread | SleepTenMicroseconds.

Definition pause_kind (count : Z) : pause :=
  if count <? 10 then Spin else if count <? 20 then YieldThread else SleepTenMicroseconds.

(** [count_++] on a [uint32_t]. *)
Definition paused (count : Z) : Z := u32 (count + 1).

(** ** Data *)

Abbreviation handle := nat.

Definition external_capacity : nat := 1024.

(** Events one call of [epoll_wait] may give. *)
Definition max_events : nat := 128.

(** Where the reactor's thread is: in [main], about to test [g_running]; in [run], about
    to set [running_], about to set [current_]; at the loop condition; draining the
    external queue; popped, about to decrement [external_pending_]; about to swap the
    queues; resuming [scratch_queue_]; in a coroutine; in the timer callbacks; about to
    test [run_queue_], then [external_pending_]; about to poll; resuming the handles of
    events; in one of them; past [main]'s loop. *)
Inductive stage :=
| MTest
| RStart
| RCurrent
| RHead
| RDrain
| RCount
| RSwap
| RResume
| RInside (h : handle)
| RTimers
| RLocal
| RExternal (no_local : bool)
| RPoll (timeout : Z)
| RIo (events : list (option handle))
| RIoInside (h : handle) (events : list (option handle))
| MDone.

(** A thread that calls [schedule] from outside: elsewhere; in the loop of [try_push] with
    its backoff; pushed, about to increment [external_pending_]. *)
Inductive thread :=
| EIdle
| EPush (h : handle) (count : Z)
| ECount.

(** [enqueued]: what was pushed to [run_queue_], [local] the part pushed by the reactor's
    own thread; [taken]: what the loop over [scratch_queue_] reached, [resumed] the part it
    resumed and [skipped] the part that was done; [ext_pushed] and [ext_popped]: the
    history of the external queue. *)
Record state := {
  run_queue : list handle;
  scratch : list handle;
  external : list handle;
  external_pending : Z;
  running : bool;
  current : bool;
  g_running : bool;
  at_ : stage;
  threads : list thread;
  finished : gset handle;
  enqueued : list handle;
  local : list handle;
  taken : list handle;
  resumed : list handle;
  skipped : list handle;
  ext_pushed : list handle;
  ext_popped : list handle }.

Definition initial (s : state) : Prop := ∃ n, s = {|
  run_queue := []; scratch := []; external := []; external_pending := 0; running := false;
  current := false; g_running := true; at_ := MTest; threads := replicate n EIdle;
  finished := ∅; enqueued := []; local := []; taken := []; resumed := []; skipped := [];
  ext_pushed := []; ext_popped := [] |}.

(** ** State updates *)

Definition set_stage (p : stage) (s : state) : state := {|
  run_queue := run_queue s; scratch := scratch s; external := external s;
  external_pending := external_pending s; running := running s; current := current s;
  g_running := g_running s; at_ := p; threads := threads s; finished := finished s;
  enqueued := enqueued s; local := local s; taken := taken s; resumed := resumed s;
  skipped := skipped s; ext_pushed := ext_pushed s; ext_popped := ext_popped s |}.

Definition set_flags (run cur g : bool) (s : state) : state := {|
  run_queue := run_queue s; scratch := scratch s; external := external s;
  external_pending := external_pending s; running := run; current := cur;
  g_running := g; at_ := at_ s; threads := threads s; finished := finished s;
  enqueued := enqueued s; local := local s; taken := taken s; resumed := resumed s;
  skipped := skipped s; ext_pushed := ext_pushed s; ext_popped := ext_popped s |}.

Definition set_thread (j : nat) (t : thread) (s : state) : state := {|
  run_queue := run_queue s; scratch := scratch s; external := external s;
  external_pending := external_pending s; running := running s; current := current s;
  g_running := g_running s; at_ := at_ s; threads := <[j := t]> (threads s); finished := finished s;
  enqueued := enqueued s; local := local s; taken := taken s; resumed := resumed s;
  skipped := skipped s; ext_pushed := ext_pushed s; ext_popped := ext_popped s |}.

Definition set_pending (n : Z) (s : state) : state := {|
  run_queue := run_queue s; scratch := scratch s; external := external s;
  external_pending := n; running := running s; current := current s;
  g_running := g_running s; at_ := at_ s; threads := threads s; finished := finished s;
  enqueued := enqueued s; local := local s; taken := taken s; resumed := resumed s;
  skipped := skipped s; ext_pushed := ext_pushed s; ext_popped := ext_popped s |}.

Definition finish (h : handle) (s : state) : state := {|
  run_queue := run_queue s; scratch := scratch s; external := external s;
  external_pending := external_pending s; running := running s; current := current s;
  g_running := g_running s; at_ := at_ s; threads := threads s; finished := {[h]} ∪ finished s;
  enqueued := enqueued s; local := local s; taken := taken s; resumed := resumed s;
  skipped := skipped s; ext_pushed := ext_pushed s; ext_popped := ext_popped s |}.

(** [run_queue_.push_back(h)] in [schedule] on the reactor's thread. *)
Definition push_local (h : handle) (s : state) : state := {|
  run_queue := run_queue s ++ [h]; scratch := scratch s; external := external s;
  external_pending := external_pending s; running := running s; current := current s;
  g_running := g_running s; at_ := at_ s; threads := threads s; finished := finished s;
  enqueued := enqueued s ++ [h]; local := local s ++ [h]; taken := taken s; resumed := resumed s;
  skipped := skipped s; ext_pushed := ext_pushed s; ext_popped := ext_popped s |}.

Definition push_external (h : handle) (s : state) : state := {|
  run_queue := run_queue s; scratch := scratch s; external := external s ++ [h];
  external_pending := external_pending s; running := running s; current := current s;
  g_running := g_running s; at_ := at_ s; threads := threads s; finished := finished s;
  enqueued := enqueued s; local := local s; taken := taken s; resumed := resumed s;
  skipped := skipped s; ext_pushed := ext_pushed s ++ [h]; ext_popped := ext_popped s |}.

Definition drain_one (h : handle) (q : list handle) (s : state) : state := {|
  run_queue := run_queue s ++ [h]; scratch := scratch s; external := q;
  external_pending := external_pending s; running := running s; current := current s;
  g_running := g_running s; at_ := at_ s; threads := threads s; finished := finished s;
  enqueued := enqueued s ++ [h]; local := local s; taken := taken s; resumed := resumed s;
  skipped := skipped s; ext_pushed := ext_pushed s; ext_popped := ext_popped s ++ [h] |}.

Definition swap_queues (s : state) : state := {|
  run_queue := []; scratch := run_queue s; external := external s;
  external_pending := external_pending s; running := running s; current := current s;
  g_running := g_running s; at_ := at_ s; threads := threads s; finished := finished s;
  enqueued := enqueued s; local := local s; taken := taken s; resumed := resumed s;
  skipped := skipped s; ext_pushed := ext_pushed s; ext_popped := ext_popped s |}.

Definition take_scratch (h : handle) (q : list handle) (s : state) : state := {|
  run_queue := run_queue s; scratch := q; external := external s;
  external_pending := external_pending s; running := running s; current := current s;
  g_running := g_running s; at_ := at_ s; threads := threads s; finished := finished s;
  enqueued := enqueued s; local := local s; taken := taken s ++ [h];
  resumed := resumed s ++ (if decide (h ∈ finished s) then [] else [h]);
  skipped := skipped s ++ (if decide (h ∈ finished s) then [h] else []);
  ext_pushed := ext_pushed s; ext_popped := ext_popped s |}.

(** [Reactor::stop]; epoll's [wakeup] does nothing. *)
Definition stop (s : state) : state := set_flags false (current s) (g_running s) s.

(** [Yield::await_suspend] on the reactor's thread. *)
Definition yield (h : handle) (s : state) : state := if current s then push_local h s else s.

(** ** Steps *)

(** One step of epoll's [poll]: [epoll_wait] gives up to 128 events, or none when it
    fails, whose pointers may be null. *)
Inductive poll_step : stage → state → state → Prop :=
| polls s timeout events :
    (length events <= max_events)%nat → poll_step (RPoll timeout) s (set_stage (RIo events) s)
| io_skips s e events :
    match e with None => True | Some h => h ∈ finished s end →
    poll_step (RIo (e :: events)) s (set_stage (RIo events) s)
| io_resumes s h events :
    h ∉ finished s → poll_step (RIo (Some h :: events)) s (set_stage (RIoInside h events) s)
| io_schedules s h events h' : poll_step (RIoInside h events) s (push_local h' s)
| io_yields s h events : poll_step (RIoInside h events) s (set_stage (RIo events) (yield h s))
| io_suspends s h events : poll_step (RIoInside h events) s (set_stage (RIo events) s)
| io_ends s h events : poll_step (RIoInside h events) s (set_stage (RIo events) (finish h s))
| io_done s : poll_step (RIo []) s (set_stage RHead s).

(** One step of [main]'s loop, of [run] or of what it calls. Coroutines and callbacks may
    schedule, yield, suspend and end. As [Mpmc] shows, [try_pop] may answer nothing though
    the queue is not empty, while an older push is not published. *)
Inductive loop_step : stage → state → state → Prop :=
| main_enters s : g_running s = true → loop_step MTest s (set_stage RStart s)
| main_leaves s : g_running s = false → loop_step MTest s (set_stage MDone s)
| run_starts s : loop_step RStart s (set_stage RCurrent (set_flags true (current s) (g_running s) s))
| run_is_current s : loop_step RCurrent s (set_stage RHead (set_flags (running s) true (g_running s) s))
| run_goes_on s : running s = true → loop_step RHead s (set_stage RDrain s)
| run_returns s : running s = false → loop_step RHead s (set_stage MTest s)
| drain_pops s h q :
    external s = h :: q → loop_step RDrain s (set_stage RCount (drain_one h q s))
| drain_counts s :
    loop_step RCount s (set_stage RDrain (set_pending (external_pending s -w 1) s))
| drain_ends s : loop_step RDrain s (set_stage RSwap s)
| swaps s : loop_step RSwap s (set_stage RResume (swap_queues s))
| resume_takes s h q :
    scratch s = h :: q →
    loop_step RResume s
      (set_stage (if decide (h ∈ finished s) then RResume else RInside h) (take_scratch h q s))
| resume_ends s : scratch s = [] → loop_step RResume s (set_stage RTimers s)
| fiber_schedules s h h' : loop_step (RInside h) s (push_local h' s)
| fiber_yields s h : loop_step (RInside h) s (set_stage RResume (yield h s))
| fiber_suspends s h : loop_step (RInside h) s (set_stage RResume s)
| fiber_ends s h : loop_step (RInside h) s (set_stage RResume (finish h s))
| timer_schedules s h : loop_step RTimers s (push_local h s)
| timers_end s : loop_step RTimers s (set_stage RLocal s)
| tests_local s : loop_step RLocal s (set_stage (RExternal (bool_decide (run_queue s = []))) s)
| tests_external s no_local :
    loop_step (RExternal no_local) s
      (set_stage (RPoll (if no_local && (external_pending s =? 0) then 1 else 0)) s)
| poll_moves p s s' : poll_step p s s' → loop_step p s s'.

(** One step of [schedule] on another thread; epoll's [wakeup] does nothing. [try_push]
    may be refused below the capacity, while the pop that frees the slot is under way. *)
Inductive thread_step (j : nat) : thread → state → state → Prop :=
| schedule_called s h : thread_step j EIdle s (set_thread j (EPush h 0) s)
| push_refused s h n :
    thread_step j (EPush h n) s (set_thread j (EPush h (paused n)) s)
| push_done s h n :
    (length (external s) < external_capacity)%nat →
    thread_step j (EPush h n) s (set_thread j ECount (push_external h s))
| push_counted s :
    thread_step j ECount s (set_thread j EIdle (set_pending (external_pending s +w 1) s)).

(** [signal_handler], run by a thread that has no current reactor or by the reactor's. *)
Inductive signal_step (s : state) : state → Prop :=
| signal_elsewhere : signal_step s (set_flags (running s) (current s) false s)
| signal_here : signal_step s (set_flags (if current s then false else running s) (current s) false s).

Inductive quiet_step (s s' : state) : Prop :=
| loop_moves : loop_step (at_ s) s s' → quiet_step s s'
| thread_moves j t : threads s !! j = Some t → thread_step j t s s' → quiet_step s s'.

Inductive step (s s' : state) : Prop :=
| quiet : quiet_step s s' → step s s'
| signalled : signal_step s s' → step s s'
| stopped : s' = stop s → step s s'.

(** ** The invariant *)

Definition counting (t : thread) : list nat := match t with ECount => [0%nat] | _ => [] end.

(** Pushes that are not counted yet. *)
Definition uncounted (s : state) : Z := Z.of_nat (occ 0%nat (concat (counting <$> threads s))).

(** A pop that is not counted yet. *)
Definition uncounted_pop (s : state) : Z := match at_ s with RCount => 1 | _ => 0 end.

Definition stage_ok (s : state) : Prop :=
  match at_ s with
  | RResume | RInside _ => True
  | RExternal b => scratch s = [] ∧ (b = true → run_queue s = [])
  | RPoll t => scratch s = [] ∧ (t = 0 ∨ t = 1 ∧ run_queue s = [])
  | RIo evs | RIoInside _ evs => scratch s = [] ∧ (length evs <= max_events)%nat
  | _ => scratch s = []
  end.

Record reactor_ok (s : state) : Prop := {
  ok_order : enqueued s = taken s ++ scratch s ++ run_queue s;
  ok_sources : ∀ h, occ h (enqueued s) = (occ h (local s) + occ h (ext_popped s))%nat;
  ok_external : ext_pushed s = ext_popped s ++ external s;
  ok_capacity : (length (external s) <= external_capacity)%nat;
  ok_taken : ∀ h, occ h (taken s) = (occ h (resumed s) + occ h (skipped s))%nat;
  ok_skipped : Forall (λ h, h ∈ finished s) (skipped s);
  ok_pending : external_pending s =
    u64 (Z.of_nat (length (external s)) - uncounted s + uncounted_pop s);
  ok_stage : stage_ok s }.

Lemma reactor_ok_init s : initial s → reactor_ok s.
Proof.
  intros (n & ->). split; simpl; try done; [lia|].
  unfold uncounted. simpl. by rewrite occ_replicate.
Qed.

Lemma push_local_ok h s :
  reactor_ok s → (at_ s = RTimers ∨ (∃ h, at_ s = RInside h) ∨ ∃ h evs, at_ s = RIoInside h evs) →
  reactor_ok (push_local h s).
Proof.
  intros [H1 H2 H3 H4 H5 H6 H7 H8] Hat. split; simpl; try done.
  - by rewrite H1, !app_assoc.
  - intros k. rewrite !occ_app, H2. lia.
  - unfold stage_ok in *. simpl. destruct Hat as [Ha|[(h' & Ha)|(h' & evs & Ha)]]; rewrite Ha in *; done.
Qed.

(** Steps between stages that change nothing else. *)
Lemma set_stage_ok p s :
  reactor_ok s → at_ s ≠ RCount → p ≠ RCount → stage_ok (set_stage p s) → reactor_ok (set_stage p s).
Proof.
  intros [H1 H2 H3 H4 H5 H6 H7 H8] Hc Hp Hs. split; try done. simpl. rewrite H7. f_equal.
  unfold uncounted, uncounted_pop. simpl. destruct (at_ s), p; done.
Qed.

Lemma finish_ok h s : reactor_ok s → reactor_ok (finish h s).
Proof.
  intros [H1 H2 H3 H4 H5 H6 H7 H8]. split; try done. simpl.
  apply (Forall_impl _ _ _ H6). set_solver.
Qed.

Lemma set_flags_ok a b c s : reactor_ok s → reactor_ok (set_flags a b c s).
Proof. by intros []. Qed.

Lemma drain_one_ok s h q :
  reactor_ok s → at_ s = RDrain → external s = h :: q → reactor_ok (set_stage RCount (drain_one h q s)).
Proof.
  intros [H1 H2 H3 H4 H5 H6 H7 H8] Hat Hq. unfold stage_ok in H8. rewrite Hat in H8.
  split; simpl; try done.
  - by rewrite H1, !app_assoc.
  - intros k. rewrite !occ_app, H2. lia.
  - by rewrite H3, Hq, <- app_assoc.
  - rewrite Hq in H4. simpl in H4. lia.
  - rewrite H7, Hq. f_equal. unfold uncounted, uncounted_pop. rewrite Hat. simpl. lia.
Qed.

Lemma drain_counts_ok s :
  reactor_ok s → at_ s = RCount → reactor_ok (set_stage RDrain (set_pending (external_pending s -w 1) s)).
Proof.
  intros [H1 H2 H3 H4 H5 H6 H7 H8] Hat. unfold stage_ok in H8. rewrite Hat in H8.
  split; simpl; try done. rewrite H7. autorewrite with word_rw. f_equal.
  unfold uncounted, uncounted_pop. rewrite Hat. simpl. lia.
Qed.

Lemma swap_queues_ok s : reactor_ok s → at_ s = RSwap → reactor_ok (set_stage RResume (swap_queues s)).
Proof.
  intros [H1 H2 H3 H4 H5 H6 H7 H8] Hat. unfold stage_ok in H8. rewrite Hat in H8.
  split; simpl; try done.
  - by rewrite H1, H8, app_nil_r.
  - rewrite H7. unfold uncounted_pop. by rewrite Hat.
Qed.

Lemma take_scratch_ok s h q :
  reactor_ok s → at_ s = RResume → scratch s = h :: q →
  reactor_ok (set_stage (if decide (h ∈ finished s) then RResume else RInside h) (take_scratch h q s)).
Proof.
  intros [H1 H2 H3 H4 H5 H6 H7 H8] Hat Hq.
  assert (stage_ok (set_stage (if decide (h ∈ finished s) then RResume else RInside h) (take_scratch h q s)))
    as Hst by (unfold stage_ok; simpl; by case_decide).
  split; try done; simpl.
  - by rewrite H1, Hq, <- app_assoc.
  - intros k. rewrite !occ_app, H5. case_decide; simpl; lia.
  - apply Forall_app. split; [done|]. case_decide; [by apply Forall_singleton|done].
  - rewrite H7. f_equal. unfold uncounted, uncounted_pop. rewrite Hat. simpl. by case_decide.
Qed.

Ltac moves_stage Hat :=
  apply set_stage_ok; [try apply set_flags_ok; try apply finish_ok; done|simpl; by rewrite Hat|done|
    unfold stage_ok; simpl].

Lemma yield_ok h p s :
  reactor_ok s → (∃ h, at_ s = RInside h) ∨ (∃ h evs, at_ s = RIoInside h evs) →
  p ≠ RCount → stage_ok (set_stage p (yield h s)) → reactor_ok (set_stage p (yield h s)).
Proof.
  intros Hok Hat Hp Hs. apply set_stage_ok; [|
    unfold yield; destruct (current s); simpl; by destruct Hat as [[? ->]|(? & ? & ->)]|done|done].
  unfold yield. destruct (current s); [|done]. apply push_local_ok; [done|]. by right.
Qed.

Lemma loop_step_ok s s' : reactor_ok s → loop_step (at_ s) s s' → reactor_ok s'.
Proof.
  intros Hok Hstep. pose proof (ok_stage _ Hok) as H8. unfold stage_ok in H8.
  destruct (at_ s) eqn:Hat; inversion Hstep; subst; clear Hstep;
    try match goal with H : poll_step _ _ _ |- _ => inversion H; subst; clear H end;
    try by moves_stage Hat.
  - by apply drain_one_ok.
  - by apply drain_counts_ok.
  - by apply swap_queues_ok.
  - by apply take_scratch_ok.
  - apply push_local_ok; [done|]. right. left. by exists h.
  - apply yield_ok; [done|left; by exists h|done|]. unfold stage_ok, yield. simpl. done.
  - apply push_local_ok; [done|]. by left.
  - moves_stage Hat. split; [done|]. intros H. by apply bool_decide_eq_true in H.
  - moves_stage Hat. destruct H8 as [Hs Hr]. split; [done|].
    destruct no_local; simpl; [|by left]. destruct (external_pending s =? 0); [|by left]. right. auto.
  - moves_stage Hat. split; [by destruct H8|done].
  - moves_stage Hat. destruct H8 as [Hs Hl]. simpl in Hl. split; [done|lia].
  - moves_stage Hat. destruct H8 as [Hs Hl]. simpl in Hl. split; [done|lia].
  - moves_stage Hat. by destruct H8.
  - apply push_local_ok; [done|]. right. right. by do 2 eexists.
  - apply yield_ok; [done|right; by do 2 eexists|done|]. unfold stage_ok, yield. by destruct (current s).
Qed.

Lemma thread_step_ok s s' j t :
  reactor_ok s → threads s !! j = Some t → thread_step j t s s' → reactor_ok s'.
Proof.
  intros [H1 H2 H3 H4 H5 H6 H7 H8] Hj Hstep.
  pose proof (λ t', occ_fmap_insert counting 0%nat (threads s) j t t' Hj) as Hc.
  inversion Hstep as [? h|? h n|? h n Hf|?]; subst; clear Hstep.
  - split; try done. simpl. rewrite H7. f_equal. specialize (Hc (EPush h 0)).
    unfold uncounted, uncounted_pop in *. simpl in *. lia.
  - split; try done. simpl. rewrite H7. f_equal. specialize (Hc (EPush h (paused n))).
    unfold uncounted, uncounted_pop in *. simpl in *. lia.
  - split; try done; simpl.
    + by rewrite H3, app_assoc.
    + rewrite length_app. simpl. unfold external_capacity in *. lia.
    + rewrite H7. f_equal. specialize (Hc ECount). rewrite length_app.
      unfold uncounted, uncounted_pop in *. simpl in *. lia.
  - split; try done. simpl. rewrite H7. autorewrite with word_rw. f_equal. specialize (Hc EIdle).
    unfold uncounted, uncounted_pop in *. simpl in *. lia.
Qed.

Lemma reactor_reachable_ok s : reachable initial step s → reactor_ok s.
Proof.
  apply reachable_ind'; [apply reactor_ok_init|]. intros s1 s2 _ Hok [[Hl|j t Hj Ht]|[]| ->].
  - by apply loop_step_ok with s1.
  - by eapply thread_step_ok.
  - by apply set_flags_ok.
  - by apply set_flags_ok.
  - by apply set_flags_ok.
Qed.

(** The coroutine that runs has not come to its end. *)
Definition inside_ok (s : state) : Prop :=
  match at_ s with RInside h | RIoInside h _ => h ∉ finished s | _ => True end.

Lemma inside_step_ok s s' : inside_ok s → step s s' → inside_ok s'.
Proof.
  intros Hok [[Hl|j t Hj Ht]|[]| ->]; [|by inversion Ht; subst|done..].
  unfold inside_ok in *. destruct (at_ s) eqn:Hat; inversion Hl; subst; simpl; try done;
    try match goal with H : poll_step _ _ _ |- _ => inversion H; subst; simpl; clear H end;
    rewrite ?Hat; try done; try (by case_decide).
  all: unfold yield; by destruct (current s).
Qed.

Lemma reactor_inside_ok s : reachable initial step s → inside_ok s.
Proof.
  apply reachable_ind'; [by intros s1 (n & ->)|]. intros s1 s2 _ Hok Hs. by eapply inside_step_ok.
Qed.

(** A coroutine is logged as resumed when the loop takes it and it is not done, and then
    only. *)
Lemma resumed_step s s' :
  step s s' → (resumed s' = resumed s ∧ (∀ h, at_ s' = RInside h → at_ s = RInside h)) ∨
  (∃ h q, at_ s = RResume ∧ scratch s = h :: q ∧ (h ∉ finished s) ∧ at_ s' = RInside h ∧
     resumed s' = resumed s ++ [h]).
Proof.
  intros [[Hl|j t Hj Ht]|[]| ->]; [|left; by inversion Ht; subst|by left..].
  destruct (at_ s) eqn:Hat; inversion Hl; subst; simpl;
    try match goal with H : poll_step _ _ _ |- _ => inversion H; subst; simpl; clear H end;
    rewrite ?Hat; try by left.
  - case_decide; [left; rewrite app_nil_r; by split|right]. by exists h, q.
  - left. unfold yield. by destruct (current s).
  - left. unfold yield. by destruct (current s).
Qed.

(** Nothing but [stop] or a handler that finds the reactor clears [running_]. *)
Lemma quiet_keeps_running s s' :
  at_ s ≠ MTest → at_ s ≠ MDone → running s = true → quiet_step s s' →
  running s' = true ∧ at_ s' ≠ MTest ∧ at_ s' ≠ MDone ∧ g_running s' = g_running s.
Proof.
  intros Ht Hd Hr [Hl|j t _ Ht'].
  - destruct (at_ s) eqn:Hat; inversion Hl; subst;
      try match goal with H : poll_step _ _ _ |- _ => inversion H; subst; clear H end;
      unfold yield; simpl; rewrite ?Hat; repeat case_match; try done; congruence.
  - by destruct Ht'.
Qed.

(** ** Properties *)

(** C32. The reactor resumes in order, loses nothing and never resumes a coroutine that
    has come to its end. What has been pushed to the run queue, by coroutines, callbacks
    or from outside, is taken in that order, and what is taken is resumed, once for each
    push, unless its coroutine is done; what other threads push enters in the order of
    their pushes, at most 1024 at a time. The coroutine the thread is in, from the run
    queue or from an event, is not done; the thread enters one from the run queue exactly
    when it logs it as resumed, and then it was the next of the queue and not done. *)
Theorem reactor_resumes_in_order s :
  reachable initial step s →
  enqueued s = taken s ++ scratch s ++ run_queue s ∧
  (∀ h, occ h (taken s) = (occ h (resumed s) + occ h (skipped s))%nat) ∧
  Forall (λ h, h ∈ finished s) (skipped s) ∧
  (∀ h, occ h (enqueued s) = (occ h (local s) + occ h (ext_popped s))%nat) ∧
  ext_pushed s = ext_popped s ++ external s ∧ (length (external s) <= external_capacity)%nat ∧
  (∀ h, (at_ s = RInside h ∨ ∃ evs, at_ s = RIoInside h evs) → h ∉ finished s) ∧
  (∀ s', step s s' →
     (resumed s' = resumed s ∧ (∀ h, at_ s' = RInside h → at_ s = RInside h)) ∨
     (∃ h q, at_ s = RResume ∧ scratch s = h :: q ∧ (h ∉ finished s) ∧ at_ s' = RInside h ∧
        resumed s' = resumed s ++ [h])).
Proof.
  intros Hr. pose proof (reactor_inside_ok s Hr) as Hin. unfold inside_ok in Hin.
  destruct (reactor_reachable_ok s Hr). split_and!; try done.
  - intros h [Hat|[evs Hat]]; by rewrite Hat in Hin.
  - apply resumed_step.
Qed.

(** C33. The reactor does not wait on work. It polls with a timeout of 0 or 1 ms, and of
    1 ms only with an empty run queue, and with an external queue that was empty when
    the counter was read unless a push was not counted yet; [external_pending_] is the
    length of the queue up to the pushes and the pop not counted yet, modulo 2^64. *)
Theorem reactor_does_not_wait_on_work s :
  reachable initial step s →
  external_pending s = u64 (Z.of_nat (length (external s)) - uncounted s + uncounted_pop s) ∧
  (∀ t, at_ s = RPoll t → t = 0 ∨ t = 1 ∧ run_queue s = []) ∧
  (∀ b s', at_ s = RExternal b → loop_step (at_ s) s s' → at_ s' = RPoll 1 →
     run_queue s = [] ∧ (external s = [] ∨ ECount ∈ threads s)).
Proof.
  intros Hr. destruct (reactor_reachable_ok s Hr) as [_ _ _ H4 _ _ H7 H8]. split; [done|].
  unfold stage_ok in H8. split.
  - intros t Hat. rewrite Hat in H8. apply H8.
  - intros b s' Hat Hstep Hp. rewrite Hat in H8, Hstep. inversion Hstep as [| | | | | | | | | | | | | | | | | | | |? ? ? Hps]; subst; [|by inversion Hps].
    simpl in Hp.
    destruct b; simpl in Hp; [|done]. destruct (Z.eqb_spec (external_pending s) 0) as [H0|]; [|done].
    destruct H8 as [_ H8]. split; [auto|]. rewrite H7 in H0. unfold uncounted_pop in H0. rewrite Hat in H0.
    unfold external_capacity in H4.
    destruct (decide (uncounted s = 0)) as [Hu|Hu].
    + rewrite Hu in H0. left. destruct (external s); [done|]. simpl in *. rewrite u64_small in H0 by lia. lia.
    + right. unfold uncounted in Hu.
      assert (0%nat ∈ concat (counting <$> threads s)) as Hin by (apply occ_elem; lia).
      apply list_elem_of_In, in_concat in Hin as (l & Hl & Hin).
      apply list_elem_of_In, list_elem_of_fmap in Hl as (t & -> & Ht). by destruct t.
Qed.

Ltac reactor_does t := eapply rtc_l; [apply quiet, loop_moves; cbn; t|].

(** A stop can be lost. A handler that runs before [run] has made the reactor current,
    or on another thread, only clears [g_running], and [run] sets [running_] whatever
    happened before: the server can be past all signals with [g_running] false and never
    leave [run] unless somebody stops it again. *)
Theorem stop_signal_can_be_lost :
  ∃ s, reachable initial step s ∧ g_running s = false ∧
    ∀ s', rtc quiet_step s s' → running s' = true ∧ at_ s' ≠ MTest ∧ at_ s' ≠ MDone ∧ g_running s' = false.
Proof.
  eexists. split; [|split].
  - eexists. split; [exists 0%nat; reflexivity|]. reactor_does ltac:(by apply main_enters).
    eapply rtc_l; [apply signalled, signal_here|].
    reactor_does ltac:(apply run_starts). reactor_does ltac:(apply run_is_current). apply rtc_refl.
  - done.
  - intros s' Hs. refine (rtc_ind_r (λ s', running s' = true ∧ at_ s' ≠ MTest ∧ at_ s' ≠ MDone ∧ g_running s' = false) _ _ _ s' Hs).
    + done.
    + intros s1 s2 _ H12 (Hr & Ht & Hd & Hg).
      destruct (quiet_keeps_running s1 s2 Ht Hd Hr H12) as (? & ? & ? & Hg').
      by rewrite Hg'.
Qed.

(** *** Witnesses *)

(** A coroutine scheduled from outside is resumed. *)
Lemma resumed_from_outside :
  ∃ s, reachable initial step s ∧ resumed s = [7%nat] ∧ ext_pushed s = [7%nat].
Proof.
  eexists. split.
  - eexists. split; [exists 1%nat; reflexivity|].
    eapply rtc_l; [eapply quiet, (thread_moves _ _ 0%nat); [reflexivity|apply (schedule_called _ _ 7%nat)]|].
    eapply rtc_l; [eapply quiet, (thread_moves _ _ 0%nat);
      [reflexivity|apply push_done; simpl; unfold external_capacity; lia]|].
    reactor_does ltac:(by apply main_enters). reactor_does ltac:(apply run_starts).
    reactor_does ltac:(apply run_is_current). reactor_does ltac:(by apply run_goes_on).
    reactor_does ltac:(by apply drain_pops). reactor_does ltac:(apply drain_counts).
    reactor_does ltac:(apply drain_ends). reactor_does ltac:(apply swaps).
    reactor_does ltac:(by apply resume_takes). apply rtc_refl.
  - done.
Qed.

Lemma reactor_resumes_in_order_witness :
  ∃ s, reachable initial step s ∧ resumed s = [7%nat] ∧ enqueued s = taken s ++ scratch s ++ run_queue s.
Proof.
  destruct resumed_from_outside as (s & Hr & Hs & _). exists s. split; [done|]. split; [done|].
  apply (reactor_resumes_in_order s Hr).
Defined.

Lemma reactor_does_not_wait_on_work_witness :
  ∃ s, reachable initial step s ∧ resumed s = [7%nat] ∧
    external_pending s = u64 (Z.of_nat (length (external s)) - uncounted s + uncounted_pop s).
Proof.
  destruct resumed_from_outside as (s & Hr & Hs & _). exists s. split; [done|]. split; [done|].
  apply (reactor_does_not_wait_on_work s Hr).
Defined.
