(* ===== verification/Platform.v ===== *)
(** * Huge pages and processors
      ([src/memory/huge_pages.cpp], [include/jellybean/memory/huge_pages.hpp],
      [src/scheduler/scheduler.cpp])

    Mappings are known by their address and length; what [mmap] and
    [pthread_setaffinity_np] answer is a parameter. *)
From S2P Require Import Prelude.

(** ** Huge pages *)

Definition huge_page_size : Z := 2 * 1024 * 1024.

(** The rounding both functions write out. *)
Definition aligned_size (size_bytes : Z) : Z := align_up size_bytes huge_page_size.

Abbreviation mappings := (gmap Z Z).

Section huge_pages.
Context (mmap : bool → Z → mappings → option Z).

(** [mmap] with or without [MAP_HUGETLB]; a mapping of no bytes fails with EINVAL. *)
Definition map_pages (huge : bool) (len : Z) (ms : mappings) : option (Z * mappings) :=
  if len =? 0 then None
  else (λ p, (p, <[p := len]> ms)) <$> mmap huge len ms.

(** [None]: [nullptr]. *)
Definition allocate_huge_pages (size_bytes : Z) (ms : mappings) : option Z * mappings :=
  let len := aligned_size size_bytes in
  match map_pages true len ms with
  | Some (p, ms) => (Some p, ms)
  | None =>
      match map_pages false len ms with
      | Some (p, ms) => (Some p, ms)
      | None => (None, ms)
      end
  end.

(** [munmap] of a whole mapping; the start of a longer one is unmapped and its rest
    stays; of anything else this development says nothing. *)
Definition munmap (p len : Z) (ms : mappings) : outcome mappings :=
  l ← deref (ms !! p);
  if len =? l then mret (delete p ms)
  else if (0 <? len) && (len <? l) then mret (<[p + len := l - len]> (delete p ms))
  else Fault UndefinedBehaviour.

Definition free_huge_pages (ptr : option Z) (size_bytes : Z) (ms : mappings) : outcome mappings :=
  match ptr with
  | None => mret ms
  | Some p => munmap p (aligned_size size_bytes) ms
  end.

(** A [huge_page_unique_ptr]: the pointer and the deleter's size. *)
Record huge_page_ptr := {
  ptr : Z;
  deleter_size : Z }.

Definition allocate_huge_pages_unique (elem_size count : Z) (ms : mappings) :
    outcome (huge_page_ptr * mappings) :=
  let size := count *w elem_size in
  match allocate_huge_pages size ms with
  | (None, _) => Fault Aborted
  | (Some p, ms) => mret ({| ptr := p; deleter_size := size |}, ms)
  end.

(** [HugePageDeleter::operator()]. *)
Definition delete_pages (h : huge_page_ptr) (ms : mappings) : outcome mappings :=
  free_huge_pages (Some (ptr h)) (deleter_size h) ms.
End huge_pages.

(** ** Processors *)

(** [static_cast]-less conversion of an [unsigned int] to an [int]. *)
Definition int_of_unsigned (n : Z) : Z := if n <? 2 ^ 31 then n else n - 2 ^ 32.

Record CpuCore := {
  cpu_id : Z;
  physical_id : Z;
  numa_node : Z;
  is_p_core : bool }.

Definition core_at (i : nat) : CpuCore := {|
  cpu_id := int_of_unsigned (Z.of_nat i); physical_id := int_of_unsigned (Z.of_nat i);
  numa_node := 0; is_p_core := true |}.

(** [CpuTopology::detect] with what [hardware_concurrency] answers. *)
Definition detect (hardware_concurrency : nat) : list CpuCore := core_at <$> seq 0 hardware_concurrency.

Definition CPU_SETSIZE : Z := 1024.

(** The affinity of the calling thread afterwards. *)
Definition pin_thread_to_cpu (setaffinity : Z → bool) (cpu : Z) : outcome Z :=
  if cpu <? 0 then Fault Aborted
  else if CPU_SETSIZE <=? cpu then Fault Aborted
  else if setaffinity cpu then mret cpu else Fault Aborted.

(** ** Lemmas *)

Lemma aligned_size_spec n :
  0 <= n → n + huge_page_size - 1 < 2 ^ 64 →
  n <= aligned_size n < n + huge_page_size ∧ aligned_size n `mod` huge_page_size = 0.
Proof. intros. by apply align_up_spec. Qed.

(** Sizes within two megabytes of 2^64 round to 0. *)
Lemma aligned_size_wraps n :
  2 ^ 64 - huge_page_size < n < 2 ^ 64 → aligned_size n = 0.
Proof.
  intros Hn. unfold aligned_size, align_up, huge_page_size in *.
  assert (u64 (n + 2 * 1024 * 1024) = n + 2 * 1024 * 1024 - 2 ^ 64) as -> by word_lia.
  rewrite u64_small by lia. change (2 * 1024 * 1024) with (2 ^ 21) in *.
  rewrite (u64_small (2 ^ 21 - 1)) by lia. rewrite land_lnot_mask by lia.
  rewrite Z.mod_small by lia. lia.
Qed.

(** ** Properties *)

(** Huge page arrays fit and are given back. When [count] elements take less than
    2^64 - 2 MiB bytes, [allocate_huge_pages_unique] either aborts, as both [mmap]s
    failed or nothing was asked for, or maps one new region of a multiple of 2 MiB that
    holds them all and less than 2 MiB more, and the deleter unmaps exactly that region.
    The product wraps: 2^61 + 1 elements of 8 bytes get 2 MiB. *)
Theorem huge_page_arrays_fit mmap count elem ms :
  (∀ huge len ms p, mmap huge len ms = Some p → ms !! p = None) →
  0 <= count → 0 < elem → count * elem + huge_page_size - 1 < 2 ^ 64 →
  match allocate_huge_pages_unique mmap elem count ms with
  | Fault f => f = Aborted ∧ (count = 0 ∨ ∀ huge, mmap huge (aligned_size (count * elem)) ms = None)
  | Done (h, ms') =>
      ms !! ptr h = None ∧
      (∃ len, ms' = <[ptr h := len]> ms ∧ len `mod` huge_page_size = 0 ∧
         count * elem <= len < count * elem + huge_page_size) ∧
      delete_pages h ms' = Done ms
  end ∧
  (∀ p, mmap true huge_page_size ms = Some p →
     allocate_huge_pages_unique mmap 8 (2 ^ 61 + 1) ms =
       Done ({| ptr := p; deleter_size := 8 |}, <[p := huge_page_size]> ms)).
Proof.
  intros Hmmap Hc He Hb. split.
  - unfold allocate_huge_pages_unique. unfold huge_page_size in Hb. rewrite u64_small by nia.
    assert (0 <= count * elem) as Hsz by nia. set (size := count * elem) in *.
    destruct (aligned_size_spec size Hsz Hb) as [Hlen Hmod].
    assert (∀ huge p, aligned_size size ≠ 0 → mmap huge (aligned_size size) ms = Some p →
      ms !! p = None ∧
      (∃ len, <[p := aligned_size size]> ms = <[p := len]> ms ∧ len `mod` huge_page_size = 0 ∧
         size <= len < size + huge_page_size) ∧
      delete_pages {| ptr := p; deleter_size := size |} (<[p := aligned_size size]> ms) = Done ms) as Hok.
    { intros huge p Hne Hp. pose proof (Hmmap _ _ _ _ Hp) as Hfresh. split; [done|].
      split; [by exists (aligned_size size)|]. unfold delete_pages, free_huge_pages, munmap. simpl.
      rewrite lookup_insert_eq. simpl. rewrite Z.eqb_refl. by rewrite delete_insert_id. }
    unfold allocate_huge_pages, map_pages. destruct (Z.eqb_spec (aligned_size size) 0) as [H0|H0].
    + split; [done|]. left. unfold size in *. nia.
    + destruct (mmap true (aligned_size size) ms) as [p|] eqn:Ht; simpl; [by eapply Hok|].
      destruct (mmap false (aligned_size size) ms) as [p|] eqn:Hf; simpl; [by eapply Hok|].
      split; [done|]. right. by intros [].
  - intros p Hp. unfold allocate_huge_pages_unique.
    assert (u64 ((2 ^ 61 + 1) * 8) = 8) as -> by by vm_compute.
    unfold allocate_huge_pages, map_pages. assert (aligned_size 8 = huge_page_size) as -> by by vm_compute.
    by rewrite Hp.
Qed.

(** A kernel that maps after everything mapped. *)
Definition mmap_above (_ : bool) (_ : Z) (ms : mappings) : option Z := Some (fresh (dom ms)).

Lemma huge_page_arrays_fit_witness :
  ∃ h ms, allocate_huge_pages_unique mmap_above 4 1000000 ∅ = Done (h, ms) ∧ delete_pages h ms = Done ∅.
Proof.
  destruct (huge_page_arrays_fit mmap_above 1000000 4 ∅) as [H _].
  - intros huge len ms p [= <-]. apply not_elem_of_dom, is_fresh.
  - lia.
  - lia.
  - by vm_compute.
  - destruct (allocate_huge_pages_unique mmap_above 4 1000000 ∅) as [[h ms]|f] eqn:E.
    + exists h, ms. split; [done|]. by destruct H as (_ & _ & H).
    + vm_compute in E. done.
Defined.

(** The processors detected have the ids from 0 on; those below 1024 can be pinned to
    if the kernel lets them, and pinning to any other aborts. *)
Lemma detected_cores_pin setaffinity n i c :
  Z.of_nat n <= 2 ^ 31 → detect n !! i = Some c →
  cpu_id c = Z.of_nat i ∧
  pin_thread_to_cpu setaffinity (cpu_id c) =
    if (Z.of_nat i <? CPU_SETSIZE) && setaffinity (Z.of_nat i) then Done (Z.of_nat i) else Fault Aborted.
Proof.
  intros Hn Hi. unfold detect in Hi. rewrite list_lookup_fmap in Hi.
  destruct (seq 0 n !! i) as [k|] eqn:Hk; [|done]. injection Hi as <-. apply lookup_seq in Hk as [-> Hlt].
  assert (cpu_id (core_at (0 + i)) = Z.of_nat i) as ->.
  { unfold core_at, int_of_unsigned, cpu_id. destruct (Z.ltb_spec (Z.of_nat (0 + i)) (2 ^ 31)); lia. }
  split; [done|]. unfold pin_thread_to_cpu. destruct (Z.ltb_spec (Z.of_nat i) 0); [lia|].
  destruct (Z.leb_spec CPU_SETSIZE (Z.of_nat i)), (Z.ltb_spec (Z.of_nat i) CPU_SETSIZE); [lia|done| |lia].
  simpl. by destruct (setaffinity (Z.of_nat i)).
Qed.
