(* ===== verification/Connections.v ===== *)
(** * Connections ([AsyncAcceptAwaitable], [accept_loop] and [session] of
      [src/server/main.cpp] over [src/net/async_socket.cpp] and
      [src/reactor/epoll_backend.cpp])

    Where the coroutines of the server are: the accept loop and one session per
    connection, the epoll instance they register with, the reactor's queues, the
    continuation pool and the descriptors of the process. [Session] says what a session
    reads and writes and [Reactor] how the queues are served; here is who holds a
    suspended coroutine, and that its descriptor's event resumes it and no other does.

    What the kernel answers is left open within what epoll_ctl(2), epoll_wait(2) and
    accept(2) document. *)
From S2P Require Import Prelude.
From S2P Require Import Transition.
From S2P Require Import Socket.

(** ** The epoll instance *)

(** Coroutine frames are numbered as they are created. *)
Abbreviation handle := nat.

Inductive direction := EPOLLIN | EPOLLOUT.

#[export] Instance direction_eq_dec : EqDecision direction.
Proof. solve_decision. Defined.

(** [epoll_event]; the program always sets [EPOLLONESHOT]. *)
Record epoll_event := {
  wants : direction;
  edge_triggered : bool;
  data_ptr : handle }.

(** An entry of the interest list; one-shot entries stay, disabled, once reported. *)
Record registration := {
  event : epoll_event;
  armed : bool }.

Inductive ctl_result := CtlOk | CtlExists | CtlMissing | CtlRefused.

(** [EPOLL_CTL_ADD]; the kernel may refuse an entry for want of memory or watches. *)
Definition epoll_ctl_add (refused : bool) (fd : Z) (ev : epoll_event)
    (l : gmap Z registration) : ctl_result * gmap Z registration :=
  match l !! fd with
  | Some _ => (CtlExists, l)
  | None =>
      if refused then (CtlRefused, l)
      else (CtlOk, <[fd := {| event := ev; armed := true |}]> l)
  end.

Definition epoll_ctl_mod (fd : Z) (ev : epoll_event)
    (l : gmap Z registration) : ctl_result * gmap Z registration :=
  match l !! fd with
  | Some _ => (CtlOk, <[fd := {| event := ev; armed := true |}]> l)
  | None => (CtlMissing, l)
  end.

(** [EPOLL_CTL_ADD], then [EPOLL_CTL_MOD] if the descriptor is registered; any other
    answer is ignored. *)
Definition add_or_mod (refused : bool) (fd : Z) (ev : epoll_event)
    (l : gmap Z registration) : gmap Z registration :=
  match epoll_ctl_add refused fd ev l with
  | (CtlExists, l) => (epoll_ctl_mod fd ev l).2
  | (_, l) => l
  end.

(** [AsyncReadAwaitable::await_suspend], [AsyncWriteAwaitable::await_suspend] and
    [AsyncAcceptAwaitable::await_suspend]. *)
Definition read_await_suspend (refused : bool) (sock_fd : Z) (h : handle) :=
  add_or_mod refused sock_fd {| wants := EPOLLIN; edge_triggered := true; data_ptr := h |}.

Definition write_await_suspend (refused : bool) (sock_fd : Z) (h : handle) :=
  add_or_mod refused sock_fd {| wants := EPOLLOUT; edge_triggered := true; data_ptr := h |}.

Definition accept_await_suspend (refused : bool) (listen_fd : Z) (h : handle) :=
  add_or_mod refused listen_fd {| wants := EPOLLIN; edge_triggered := false; data_ptr := h |}.

(** [epoll_wait], reporting the descriptors [fds] of those that are armed. *)
Fixpoint epoll_wait (fds : list Z) (l : gmap Z registration) :
    list handle * gmap Z registration :=
  match fds with
  | [] => ([], l)
  | fd :: fds =>
      match l !! fd with
      | Some {| event := ev; armed := true |} =>
          let '(hs, l) := epoll_wait fds (<[fd := {| event := ev; armed := false |}]> l) in
          (data_ptr ev :: hs, l)
      | _ => epoll_wait fds l
      end
  end.

Definition max_events : nat := 128.

(** ** Coroutines *)

(** Where a session is suspended, or ended: at its start; in the reads of the length of
    the model id, of the id, of the count and of the payload; waiting for the response;
    in the writes of the status, the latency, the count and the output. *)
Inductive point :=
| Begin
| ReadLen
| ReadId
| ReadCount
| ReadPayload
| Infer
| WriteStatus
| WriteLatency
| WriteCount
| WritePayload
| Finished.

(** Where a resumed session goes next, [g] what it finds in [g_running] at the head of its
    loop: [co_return], [break] and exceptions end it. *)
Definition session_next (g : bool) (p : point) : list point :=
  let head := if g then ReadLen else Finished in
  match p with
  | Begin => [head]
  | ReadLen => [ReadId; Finished]
  | ReadId => [ReadCount; Finished]
  | ReadCount => [ReadPayload; Infer; Finished]
  | ReadPayload => [ReadPayload; Infer; Finished]
  | Infer => [WriteStatus; Finished]
  | WriteStatus => [WriteLatency]
  | WriteLatency => [WriteCount]
  | WriteCount => [WritePayload; head]
  | WritePayload => [head]
  | Finished => []
  end.

(** Where the accept loop is: at its start, in [co_await AsyncAcceptAwaitable], ended. *)
Inductive accept_point := ABegin | AWait | AEnd.

Inductive frame :=
| Acceptor (p : accept_point)
| Client (sock : AsyncSocket) (p : point).

(** [handle.done()]. *)
Definition done_ (f : frame) : bool :=
  match f with Acceptor AEnd | Client _ Finished => true | _ => false end.

(** What event the coroutine is suspended for. *)
Definition waits_for (f : frame) : option direction :=
  match f with
  | Acceptor AWait => Some EPOLLIN
  | Client _ (ReadLen | ReadId | ReadCount | ReadPayload) => Some EPOLLIN
  | Client _ (WriteStatus | WriteLatency | WriteCount | WritePayload) => Some EPOLLOUT
  | _ => None
  end.

(** ** The process *)

(** [frames]: the coroutines by handle, the accept loop first. [queue]: the reactor's
    queues together. [pool]: the handles of the waits posted to the continuation pool.
    [events]: what [poll] has still to dispatch. [current]: the coroutine that runs on
    the reactor's thread. [lost]: those whose registration the kernel refused.
    [sockets]: the descriptors of sessions; [others]: those of the rest of the process,
    epoll's own and the metrics server's among them. *)
Record state := {
  frames : list frame;
  interest : gmap Z registration;
  queue : list handle;
  pool : list handle;
  events : list handle;
  current : option handle;
  lost : list handle;
  sockets : descriptors;
  others : descriptors;
  g_running : bool }.

Definition set_place (q pl ev : list handle) (cur : option handle) (s : state) : state := {|
  frames := frames s; interest := interest s; queue := q; pool := pl; events := ev;
  current := cur; lost := lost s; sockets := sockets s; others := others s;
  g_running := g_running s |}.

Definition set_frame (h : handle) (f : frame) (s : state) : state := {|
  frames := <[h := f]> (frames s); interest := interest s; queue := queue s; pool := pool s;
  events := events s; current := current s; lost := lost s; sockets := sockets s;
  others := others s; g_running := g_running s |}.

Definition set_interest (l : gmap Z registration) (s : state) : state := {|
  frames := frames s; interest := l; queue := queue s; pool := pool s;
  events := events s; current := current s; lost := lost s; sockets := sockets s;
  others := others s; g_running := g_running s |}.

Definition set_others (fds : descriptors) (s : state) : state := {|
  frames := frames s; interest := interest s; queue := queue s; pool := pool s;
  events := events s; current := current s; lost := lost s; sockets := sockets s;
  others := fds; g_running := g_running s |}.

Definition set_running (b : bool) (s : state) : state := {|
  frames := frames s; interest := interest s; queue := queue s; pool := pool s;
  events := events s; current := current s; lost := lost s; sockets := sockets s;
  others := others s; g_running := b |}.

(** [h] is what an event on [fd] would resume. *)
Definition armed_for (l : gmap Z registration) (fd : Z) (h : handle) : bool :=
  match l !! fd with
  | Some r => armed r && bool_decide (data_ptr (event r) = h)
  | None => false
  end.

(** The running coroutine suspends, [l] the interest list it leaves. *)
Definition suspended (h : handle) (fd : Z) (l : gmap Z registration) (s : state) : state := {|
  frames := frames s; interest := l; queue := queue s; pool := pool s; events := events s;
  current := None; lost := if armed_for l fd h then lost s else lost s ++ [h];
  sockets := sockets s; others := others s; g_running := g_running s |}.

(** The running coroutine reaches its final suspension point; its frame stays. *)
Definition ended (s : state) : state := set_place (queue s) (pool s) (events s) None s.

Section connections.
Context (listen_fd epoll_fd : Z) (limit : nat).

Definition fd_of (f : frame) : Z :=
  match f with Acceptor _ => listen_fd | Client k _ => fd_ k end.

Definition open_fds (s : state) : descriptors := listen_fd :: others s ++ sockets s.

(** [session(AsyncSocket(client_fd, epoll_fd), ...)] and its [schedule]: the socket is
    moved into the frame, the moved-from temporary is destroyed. *)
Definition spawn (sock : AsyncSocket) (s : state) : state :=
  let '(kept, temporary) := socket_move sock in {|
  frames := frames s ++ [Client kept Begin]; interest := interest s;
  queue := queue s ++ [length (frames s)]; pool := pool s; events := events s;
  current := current s; lost := lost s;
  sockets := socket_destroy temporary (sockets s ++ [fd_ sock]);
  others := others s; g_running := g_running s |}.

(** The head of [accept_loop]'s loop. *)
Definition accept_head (refused : bool) (h : handle) (s : state) : state :=
  if g_running s then
    suspended h listen_fd (accept_await_suspend refused listen_fd h (interest s))
      (set_frame h (Acceptor AWait) s)
  else ended (set_frame h (Acceptor AEnd) s).

(** The next suspension point of the running session. *)
Definition session_suspend (refused : bool) (h : handle) (k : AsyncSocket) (p : point)
    (s : state) : state :=
  let s := set_frame h (Client k p) s in
  match waits_for (Client k p) with
  | Some EPOLLIN => suspended h (fd_ k) (read_await_suspend refused (fd_ k) h (interest s)) s
  | Some EPOLLOUT => suspended h (fd_ k) (write_await_suspend refused (fd_ k) h (interest s)) s
  | None => ended s
  end.

(** ** Steps *)

(** [main] has the epoll descriptor, the standard streams and whatever else it opened
    before the listening socket. *)
Definition initial (s : state) : Prop :=
  ∃ fds, epoll_fd ∈ fds ∧ NoDup (listen_fd :: fds) ∧ (length (listen_fd :: fds) <= limit)%nat ∧ s = {|
  frames := [Acceptor ABegin]; interest := ∅; queue := [0%nat]; pool := []; events := [];
  current := None; lost := []; sockets := []; others := fds; g_running := true |}.

(** A descriptor the kernel may give out. *)
Definition fresh_fd (fd : Z) (s : state) : Prop :=
  0 <= fd ∧ (fd ∉ open_fds s) ∧ (length (open_fds s) < limit)%nat.

(** The coroutine [h] runs, from where it was suspended to where it suspends next. A
    failed [fcntl] in the constructor of the socket aborts: the process takes no step. *)
Inductive run_step (h : handle) : frame → state → state → Prop :=
| accept_starts s refused :
    run_step h (Acceptor ABegin) s (accept_head refused h s)
| accept_fails s refused :
    run_step h (Acceptor AWait) s (accept_head refused h s)
| accept_gives s refused fd get set k :
    fresh_fd fd s → socket_new get set fd epoll_fd = Done k →
    run_step h (Acceptor AWait) s (accept_head refused h (spawn k s))
| session_moves s refused k p p' :
    p' ∈ session_next (g_running s) p → p' ≠ Infer →
    run_step h (Client k p) s (session_suspend refused h k p' s)
| session_waits s k p :
    Infer ∈ session_next (g_running s) p →
    run_step h (Client k p) s
      (set_place (queue s) (pool s ++ [h]) (events s) None (set_frame h (Client k Infer) s))
| session_goes_on s k p :
    Infer ∈ session_next (g_running s) p →
    run_step h (Client k p) s (set_frame h (Client k Infer) s).

(** The reactor takes a handle from its queue, polls, dispatches an event; the running
    coroutine moves; a pool thread schedules a coroutine whose future is there; a signal
    clears [g_running]; the rest of the process opens and closes descriptors. *)
Inductive step (s : state) : state → Prop :=
| takes h q :
    current s = None → queue s = h :: q →
    step s (set_place q (pool s) (events s)
      (match frames s !! h with Some f => if done_ f then None else Some h | None => None end) s)
| polls fds hs l :
    current s = None → events s = [] → (length fds <= max_events)%nat →
    epoll_wait fds (interest s) = (hs, l) →
    step s (set_place (queue s) (pool s) hs None (set_interest l s))
| dispatches h hs :
    current s = None → events s = h :: hs →
    step s (set_place (queue s) (pool s) hs
      (match frames s !! h with Some f => if done_ f then None else Some h | None => None end) s)
| runs h f s' :
    current s = Some h → frames s !! h = Some f → run_step h f s s' → step s s'
| pool_schedules p1 h p2 :
    pool s = p1 ++ h :: p2 →
    step s (set_place (queue s ++ [h]) (p1 ++ p2) (events s) (current s) s)
| signalled : step s (set_running false s)
| others_open fd : fresh_fd fd s → step s (set_others (others s ++ [fd]) s)
| others_close o1 fd o2 :
    others s = o1 ++ fd :: o2 → fd ≠ epoll_fd → step s (set_others (o1 ++ o2) s).

(** ** Invariant *)

Definition running_list (s : state) : list handle :=
  match current s with Some h => [h] | None => [] end.

(** The handles that someone other than epoll has. *)
Definition handed (s : state) : list handle :=
  queue s ++ pool s ++ events s ++ running_list s ++ lost s.

Definition armed_count (l : gmap Z registration) (fd : Z) (h : handle) : nat :=
  if armed_for l fd h then 1 else 0.

Definition at_infer (f : frame) : Prop := match f with Client _ Infer => True | _ => False end.

Record conn_ok (s : state) : Prop := {
  ok_fds : fd_of <$> frames s = listen_fd :: sockets s;
  ok_open : NoDup (open_fds s);
  ok_limit : (length (open_fds s) <= limit)%nat;
  ok_places : ∀ h f, frames s !! h = Some f →
    (occ h (handed s) + armed_count (interest s) (fd_of f) h)%nat = if done_ f then 0%nat else 1%nat;
  ok_handed : ∀ h, h ∈ handed s → is_Some (frames s !! h);
  ok_armed : ∀ fd r, interest s !! fd = Some r → armed r = true →
    ∃ f, frames s !! data_ptr (event r) = Some f ∧ fd_of f = fd ∧ waits_for f = Some (wants (event r));
  ok_pool : ∀ h, h ∈ pool s → ∃ f, frames s !! h = Some f ∧ at_infer f;
  ok_events : ∀ h, h ∈ events s → ∃ f, frames s !! h = Some f ∧ is_Some (waits_for f) }.

Lemma occ_handed h s :
  occ h (handed s) = (occ h (queue s) + occ h (pool s) + occ h (events s)
    + occ h (running_list s) + occ h (lost s))%nat.
Proof. unfold handed. rewrite !occ_app. lia. Qed.

Lemma armed_for_spec l fd h :
  armed_for l fd h = true ↔ ∃ r, l !! fd = Some r ∧ armed r = true ∧ data_ptr (event r) = h.
Proof.
  unfold armed_for. destruct (l !! fd) as [r|]; [|naive_solver].
  rewrite andb_true_iff, bool_decide_eq_true. naive_solver.
Qed.

(** Descriptors tell coroutines apart. *)
Lemma ok_inj s h g f f' :
  conn_ok s → frames s !! h = Some f → frames s !! g = Some f' → fd_of f = fd_of f' → h = g.
Proof.
  intros Hok Hh Hg He.
  assert (NoDup (fd_of <$> frames s)) as Hn.
  { rewrite (ok_fds s Hok). pose proof (ok_open s Hok) as Ho. unfold open_fds in Ho.
    apply NoDup_cons in Ho as [H1 H2]. apply NoDup_app in H2 as (_ & _ & H3).
    apply NoDup_cons. split; [|done]. intros ?. apply H1, elem_of_app. by right. }
  eapply (NoDup_lookup (fd_of <$> frames s)); [done| |]; rewrite list_lookup_fmap;
    [by rewrite Hh|]. rewrite Hg. simpl. by rewrite He.
Qed.

Lemma fds_same_frame h f f' (fs : list frame) :
  fs !! h = Some f → fd_of f' = fd_of f → fd_of <$> <[h := f']> fs = fd_of <$> fs.
Proof.
  intros Hh He. rewrite list_fmap_insert, He. apply list_insert_id.
  by rewrite list_lookup_fmap, Hh.
Qed.

(** The coroutine that runs is nowhere else. *)
Lemma running_alone s h f :
  conn_ok s → current s = Some h → frames s !! h = Some f →
  done_ f = false ∧ occ h (queue s) = 0%nat ∧ occ h (pool s) = 0%nat ∧ occ h (events s) = 0%nat ∧
  occ h (lost s) = 0%nat ∧ armed_for (interest s) (fd_of f) h = false.
Proof.
  intros Hok Hc Hf. pose proof (ok_places s Hok h f Hf) as Hp. rewrite occ_handed in Hp.
  unfold running_list in Hp. rewrite Hc in Hp. simpl in Hp. rewrite decide_True in Hp by done.
  unfold armed_count in Hp. destruct (armed_for _ _ _), (done_ f); split_and!; (done || lia).
Qed.

(** The running coroutine goes on to the frame [f'], its handle to where the new
    places [s'] say. *)
Lemma ok_update s s' h f f' :
  conn_ok s → current s = Some h → frames s !! h = Some f → fd_of f' = fd_of f →
  frames s' = <[h := f']> (frames s) → interest s' = interest s →
  sockets s' = sockets s → others s' = others s →
  (∀ i, (occ i (handed s') + occ i [h])%nat =
        (occ i (handed s) + (if done_ f' then 0 else occ i [h]))%nat) →
  (∀ i, i ∈ pool s' → i ∈ pool s ∨ i = h ∧ at_infer f') →
  (∀ i, i ∈ events s' → i ∈ events s) →
  conn_ok s'.
Proof.
  intros Hok Hc Hf Hfd Hfs Hint Hso Hot Hocc Hpool Hev.
  destruct (running_alone s h f Hok Hc Hf) as (Hd & _ & Hnp & Hne & _ & Hna).
  assert (∀ i g, i ≠ h → frames s !! i = Some g → frames s' !! i = Some g) as Hother
    by (intros i g Hi Hg; rewrite Hfs, list_lookup_insert_ne; done).
  assert (frames s' !! h = Some f') as Hh
    by (rewrite Hfs; apply list_lookup_insert_eq; by eapply lookup_lt_Some).
  assert (h ∉ pool s) by (rewrite <- occ_elem; lia).
  assert (h ∉ events s) by (rewrite <- occ_elem; lia).
  split.
  - rewrite Hfs, Hso, (fds_same_frame h f f') by done. by destruct Hok.
  - unfold open_fds. rewrite Hot, Hso. by destruct Hok.
  - unfold open_fds. rewrite Hot, Hso. by destruct Hok.
  - intros i g Hg. specialize (Hocc i). simpl in Hocc. destruct (decide (h = i)) as [<-|Hi].
    + rewrite Hh in Hg. injection Hg as <-. pose proof (ok_places s Hok h f Hf) as Hp.
      rewrite Hfd, Hint. unfold armed_count in *. rewrite Hna, Hd in *. destruct (done_ f'); lia.
    + rewrite Hfs, list_lookup_insert_ne in Hg by done. pose proof (ok_places s Hok i g Hg) as Hp.
      rewrite Hint. destruct (done_ f'); lia.
  - intros i Hi. destruct (decide (h = i)) as [<-|Hn]; [by eexists|].
    assert (i ∈ handed s) as Hin.
    { apply occ_elem in Hi. apply occ_elem. specialize (Hocc i). simpl in Hocc.
      rewrite decide_False in Hocc by done. destruct (done_ f'); lia. }
    destruct (ok_handed s Hok i Hin) as [g Hg]. exists g. by apply Hother.
  - intros fd r Hr Ha. rewrite Hint in Hr. destruct (ok_armed s Hok fd r Hr Ha) as (g & Hg & Hgf & Hw).
    destruct (decide (h = data_ptr (event r))) as [He|Hn]; [|exists g; by rewrite (Hother _ g)].
    exfalso. rewrite <- He, Hf in Hg. injection Hg as <-.
    assert (armed_for (interest s) (fd_of f) h = true); [|congruence].
    apply armed_for_spec. exists r. by rewrite Hgf.
  - intros i [Hi|[-> Hi]]%Hpool; [|by eexists]. destruct (ok_pool s Hok i Hi) as (g & Hg & Hw).
    exists g. split; [|done]. apply Hother; [|done]. by intros ->.
  - intros i Hi%Hev. destruct (ok_events s Hok i Hi) as (g & Hg & Hw).
    exists g. split; [|done]. apply Hother; [|done]. by intros ->.
Qed.

(** The running coroutine registers its descriptor and suspends. *)
Lemma ok_suspended s h f f' refused ev :
  conn_ok s → current s = Some h → frames s !! h = Some f → fd_of f' = fd_of f →
  waits_for f' = Some (wants ev) → data_ptr ev = h →
  conn_ok (suspended h (fd_of f) (add_or_mod refused (fd_of f) ev (interest s)) (set_frame h f' s)).
Proof.
  intros Hok Hc Hf Hfd Hw Hp.
  destruct (running_alone s h f Hok Hc Hf) as (Hd & Hnq & Hnp & Hne & Hnl & Hna).
  assert (done_ f' = false) as Hd' by (by destruct f' as [[]|? []]).
  set (l := add_or_mod refused (fd_of f) ev (interest s)).
  assert (∀ fd, fd ≠ fd_of f → l !! fd = interest s !! fd) as Hl.
  { intros fd Hn. unfold l, add_or_mod, epoll_ctl_add, epoll_ctl_mod.
    destruct (interest s !! fd_of f) eqn:E; [rewrite E; simpl; by rewrite lookup_insert_ne|].
    destruct refused; [done|by rewrite lookup_insert_ne]. }
  assert (∀ r, l !! fd_of f = Some r → armed r = true → event r = ev) as Hev.
  { intros r. unfold l, add_or_mod, epoll_ctl_add, epoll_ctl_mod.
    destruct (interest s !! fd_of f) eqn:E; [rewrite E|destruct refused]; simpl.
    - rewrite lookup_insert_eq. by intros [= <-].
    - by rewrite E.
    - rewrite lookup_insert_eq. by intros [= <-]. }
  assert (∀ i g, i ≠ h → frames s !! i = Some g → <[h := f']> (frames s) !! i = Some g) as Hother
    by (intros i g Hi Hg; rewrite list_lookup_insert_ne; done).
  assert (<[h := f']> (frames s) !! h = Some f') as Hh
    by (apply list_lookup_insert_eq; by eapply lookup_lt_Some).
  split; simpl.
  - rewrite (fds_same_frame h f f') by done. by destruct Hok.
  - by destruct Hok.
  - by destruct Hok.
  - intros i g Hg. rewrite occ_handed. simpl. destruct (decide (h = i)) as [<-|Hi].
    + rewrite Hh in Hg. injection Hg as <-. rewrite Hd', Hfd. unfold armed_count.
      destruct (armed_for l (fd_of f) h); simpl; [lia|].
      rewrite occ_app. simpl. rewrite decide_True by done. lia.
    + rewrite list_lookup_insert_ne in Hg by done. pose proof (ok_places s Hok i g Hg) as Hpl.
      rewrite occ_handed in Hpl. unfold running_list in Hpl. rewrite Hc in Hpl. simpl in Hpl.
      rewrite decide_False in Hpl by done.
      assert (armed_count l (fd_of g) i = armed_count (interest s) (fd_of g) i) as ->.
      { unfold armed_count, armed_for. rewrite Hl; [done|]. intros He. apply Hi. by eapply ok_inj. }
      assert (occ i (if armed_for l (fd_of f) h then lost s else lost s ++ [h]) = occ i (lost s)) as ->;
        [|lia].
      destruct (armed_for l (fd_of f) h); [done|]. rewrite occ_app. simpl. rewrite decide_False by done. lia.
  - intros i Hi. destruct (decide (h = i)) as [<-|Hn]; [by eexists|].
    assert (i ∈ handed s) as [g Hg]%(ok_handed s Hok).
    { apply occ_elem. apply occ_elem in Hi. rewrite occ_handed in *. simpl in Hi.
      destruct (armed_for l (fd_of f) h); rewrite ?occ_app in Hi; simpl in Hi;
        rewrite ?decide_False in Hi by done; lia. }
    exists g. by apply Hother.
  - intros fd r Hr Ha. destruct (decide (fd = fd_of f)) as [->|Hn].
    + rewrite (Hev r Hr Ha), Hp. by exists f'.
    + rewrite Hl in Hr by done. destruct (ok_armed s Hok fd r Hr Ha) as (g & Hg & Hgf & Hgw).
      exists g. split; [|done]. apply Hother; [|done]. intros He. rewrite He, Hf in Hg. naive_solver.
  - intros i Hi. destruct (ok_pool s Hok i Hi) as (g & Hg & Hw').
    exists g. split; [|done]. apply Hother; [|done]. intros ->. apply occ_elem in Hi. lia.
  - intros i Hi. destruct (ok_events s Hok i Hi) as (g & Hg & Hw').
    exists g. split; [|done]. apply Hother; [|done]. intros ->. apply occ_elem in Hi. lia.
Qed.

Lemma ok_rehanded s s' :
  conn_ok s → frames s' = frames s → interest s' = interest s →
  sockets s' = sockets s → others s' = others s →
  (∀ i, occ i (handed s') = occ i (handed s)) →
  (∀ i, i ∈ pool s' → i ∈ pool s) → (∀ i, i ∈ events s' → i ∈ events s) → conn_ok s'.
Proof.
  intros [] Hf Hi Hs Ho Hocc Hp He. unfold open_fds in *.
  split; unfold open_fds; rewrite ?Hf, ?Hi, ?Hs, ?Ho; eauto.
  - intros h f Hh. rewrite Hocc. eauto.
  - intros h Hh. apply ok_handed0, occ_elem. rewrite <- Hocc. by apply occ_elem.
Qed.

Lemma ok_reported s fd ev :
  conn_ok s → interest s !! fd = Some {| event := ev; armed := true |} →
  conn_ok (set_place (queue s) (pool s) (events s ++ [data_ptr ev]) (current s)
    (set_interest (<[fd := {| event := ev; armed := false |}]> (interest s)) s)).
Proof.
  intros Hok Hfd. destruct (ok_armed s Hok fd _ Hfd eq_refl) as (f & Hf & Hff & Hw). simpl in *.
  assert (∀ h g, frames s !! h = Some g →
    (armed_count (<[fd := {| event := ev; armed := false |}]> (interest s)) (fd_of g) h
      + occ h [data_ptr ev])%nat = armed_count (interest s) (fd_of g) h) as Hcount.
  { intros h g Hg. unfold armed_count, armed_for. simpl. destruct (decide (data_ptr ev = h)) as [<-|Hn].
    - assert (g = f) as -> by congruence. rewrite Hff, lookup_insert_eq, Hfd. simpl.
      by rewrite bool_decide_eq_true_2.
    - destruct (decide (fd_of g = fd)) as [He|Hne].
      + destruct Hn. eapply (ok_inj s _ _ f g); [done..|congruence].
      + by rewrite lookup_insert_ne, Nat.add_0_r. }
  destruct Hok. unfold open_fds in *. split; unfold open_fds; simpl; eauto.
  - intros h g Hg. rewrite <- (ok_places0 h g Hg), <- (Hcount h g Hg), !occ_handed.
    simpl. rewrite occ_app. unfold running_list. simpl. lia.
  - intros h Hh. unfold handed in *. simpl in Hh. unfold running_list in Hh. simpl in Hh.
    rewrite !elem_of_app, list_elem_of_singleton in Hh.
    destruct (decide (h = data_ptr ev)) as [->|]; [by eexists|].
    apply ok_handed0. rewrite !elem_of_app. unfold running_list. tauto.
  - intros fd' r Hr Ha. destruct (decide (fd' = fd)) as [->|];
      [rewrite lookup_insert_eq in Hr; by injection Hr as <-|].
    rewrite lookup_insert_ne in Hr by done. eauto.
  - intros h [Hh|Hh]%elem_of_app; [eauto|]. apply list_elem_of_singleton in Hh as ->.
    exists f. by rewrite Hw.
Qed.

Lemma ok_polled fds s hs l :
  conn_ok s → epoll_wait fds (interest s) = (hs, l) →
  conn_ok (set_place (queue s) (pool s) (events s ++ hs) (current s) (set_interest l s)).
Proof.
  revert s hs l. induction fds as [|fd fds IH]; intros s hs l Hok He; simpl in He.
  { injection He as <- <-. eapply ok_rehanded; [exact Hok|done..| |done|]; simpl.
    - intros i. by rewrite !occ_handed, app_nil_r.
    - intros i. by rewrite app_nil_r. }
  destruct (interest s !! fd) as [[ev []]|] eqn:Hfd; [|by apply IH..].
  destruct (epoll_wait fds _) as [hs' l'] eqn:Hw. injection He as <- <-.
  pose proof (IH _ hs' l' (ok_reported s fd ev Hok Hfd) Hw) as H. simpl in H.
  by rewrite <- app_assoc in H.
Qed.

(** A new session: its frame, its descriptor and its place in the queue. *)
Lemma ok_spawned s fd get set k :
  conn_ok s → fresh_fd fd s → socket_new get set fd epoll_fd = Done k → conn_ok (spawn k s).
Proof.
  intros Hok (Hfd & Hn & Hl) Hk.
  assert (fd_ k = fd) as Hkf.
  { unfold socket_new, set_nonblocking in Hk. repeat case_match; simpl in Hk; try done.
    by injection Hk as <-. }
  unfold spawn, socket_move, socket_destroy. simpl.
  assert (∀ h, h ∈ handed s → h ≠ length (frames s)) as Hnew.
  { intros h [f Hf]%(ok_handed s Hok) ->. apply lookup_lt_Some in Hf. lia. }
  assert (∀ h f, frames s !! h = Some f → (frames s ++ [Client k Begin]) !! h = Some f) as Hkeep
    by (intros h f Hf; by apply lookup_app_l_Some).
  assert (∀ fd, armed_for (interest s) fd (length (frames s)) = false) as Hna.
  { intros fd'. destruct (armed_for _ _ _) eqn:E; [|done]. apply armed_for_spec in E as (r & Hr & Ha & Hd).
    destruct (ok_armed s Hok fd' r Hr Ha) as (f & Hf & _). apply lookup_lt_Some in Hf. lia. }
  split; simpl.
  - rewrite fmap_app, (ok_fds s Hok). done.
  - unfold open_fds in *. simpl. rewrite Hkf. rewrite app_assoc.
    apply NoDup_app with (l := listen_fd :: others s ++ sockets s). split_and!.
    + by destruct Hok.
    + intros x Hx ->%list_elem_of_singleton. done.
    + apply NoDup_singleton.
  - unfold open_fds in *. simpl in *. rewrite !length_app in *. simpl. lia.
  - intros h f Hf. rewrite occ_handed. unfold running_list. simpl. rewrite occ_app. simpl.
    apply lookup_app_Some in Hf as [Hf|[Hge Hf]].
    + rewrite decide_False by (apply lookup_lt_Some in Hf; lia).
      pose proof (ok_places s Hok h f Hf) as Hp. rewrite occ_handed in Hp. unfold running_list in Hp. lia.
    + apply list_lookup_singleton_Some in Hf as [Hz <-]. assert (h = length (frames s)) as -> by lia.
      rewrite decide_True by done. unfold armed_count. rewrite Hna. simpl.
      assert (occ (length (frames s)) (handed s) = 0%nat) as Hz0.
      { destruct (occ (length (frames s)) (handed s)) eqn:E; [done|].
        destruct (Hnew (length (frames s))); [apply occ_elem; lia|done]. }
      rewrite occ_handed in Hz0. unfold running_list in Hz0. lia.
  - intros h Hh. unfold handed in Hh. simpl in Hh. unfold running_list in Hh. simpl in Hh.
    destruct (decide (h = length (frames s))) as [->|Hne].
    { rewrite lookup_app_r, Nat.sub_diag by done. by eexists. }
    assert (h ∈ handed s) as [f Hf]%(ok_handed s Hok); [|exists f; by apply Hkeep].
    unfold handed, running_list. rewrite !elem_of_app, list_elem_of_singleton in *. tauto.
  - intros fd' r Hr Ha. destruct (ok_armed s Hok fd' r Hr Ha) as (f & Hf & ?). exists f.
    split; [by apply Hkeep|done].
  - intros h Hh. destruct (ok_pool s Hok h Hh) as (f & Hf & ?). exists f. split; [by apply Hkeep|done].
  - intros h Hh. destruct (ok_events s Hok h Hh) as (f & Hf & ?). exists f. split; [by apply Hkeep|done].
Qed.

Lemma waits_not_done f d : waits_for f = Some d → done_ f = false.
Proof. by destruct f as [[]|? []]. Qed.

(** The running coroutine ends. *)
Lemma ok_ended s h f f' :
  conn_ok s → current s = Some h → frames s !! h = Some f → fd_of f' = fd_of f →
  done_ f' = true → conn_ok (ended (set_frame h f' s)).
Proof.
  intros Hok Hc Hf Hfd Hd. eapply (ok_update s _ h f f'); try done; simpl; try (by left).
  intros i. rewrite !occ_handed, Hd. unfold running_list. simpl. rewrite Hc. simpl. lia.
Qed.

Lemma ok_accept_head s h p refused :
  conn_ok s → current s = Some h → frames s !! h = Some (Acceptor p) →
  conn_ok (accept_head refused h s).
Proof.
  intros Hok Hc Hf. unfold accept_head. destruct (g_running s).
  - by apply (ok_suspended s h (Acceptor p) (Acceptor AWait)).
  - by apply (ok_ended s h (Acceptor p)).
Qed.

Lemma ok_session_suspend s h k p p' refused :
  conn_ok s → current s = Some h → frames s !! h = Some (Client k p) →
  p' ∈ session_next (g_running s) p → p' ≠ Infer → conn_ok (session_suspend refused h k p' s).
Proof.
  intros Hok Hc Hf Hp Hi. unfold session_suspend.
  destruct (waits_for (Client k p')) as [[]|] eqn:Hw.
  - by apply (ok_suspended s h (Client k p) (Client k p')).
  - by apply (ok_suspended s h (Client k p) (Client k p')).
  - apply (ok_ended s h (Client k p)); try done. destruct p'; try done. unfold session_next in Hp. by destruct p, (g_running s); set_solver.
Qed.

Lemma run_step_ok s h f s' :
  conn_ok s → current s = Some h → frames s !! h = Some f →
  run_step h f s s' → conn_ok s'.
Proof.
  intros Hok Hc Hf Hstep. inversion Hstep; subst; simplify_eq.
  - by eapply ok_accept_head.
  - by eapply ok_accept_head.
  - eapply ok_accept_head; [by eapply ok_spawned|done|]. simpl. by apply lookup_app_l_Some.
  - by eapply ok_session_suspend.
  - eapply (ok_update s _ h _ (Client k Infer)); try done; simpl.
    + intros i. rewrite !occ_handed. unfold running_list. simpl. rewrite Hc, occ_app. simpl. lia.
    + intros i [?| ->%list_elem_of_singleton]%elem_of_app; [by left|by right].
  - eapply (ok_update s _ h _ (Client k Infer)); try done; simpl; by left.
Qed.

(** A handle taken from the queue or from an event is not that of an ended coroutine,
    so it is resumed. *)
Lemma handed_not_done s h : conn_ok s → h ∈ handed s → ∃ f, frames s !! h = Some f ∧ done_ f = false.
Proof.
  intros Hok Hh. destruct (ok_handed s Hok h Hh) as [f Hf]. exists f. split; [done|].
  pose proof (ok_places s Hok h f Hf) as Hp. apply occ_elem in Hh. destruct (done_ f); [lia|done].
Qed.

Lemma step_ok s s' : conn_ok s → step s s' → conn_ok s'.
Proof.
  intros Hok Hstep. inversion Hstep as
    [h q Hc Hq|fds hs l Hc He _ Hw|h hs Hc He|h f s'' Hc Hf Hr|p1 h p2 Hp| |fd Hfr|o1 fd o2 Ho Hne]; subst.
  - destruct (handed_not_done s h Hok) as (f & Hf & Hd).
    { unfold handed. rewrite Hq. by left. }
    rewrite Hf, Hd. eapply ok_rehanded; try done; simpl; try done.
    intros i. rewrite !occ_handed. unfold running_list. simpl. rewrite Hc, Hq. simpl. lia.
  - pose proof (ok_polled fds s hs l Hok Hw) as H. by rewrite Hc, He in H.
  - destruct (handed_not_done s h Hok) as (f & Hf & Hd).
    { unfold handed. rewrite He. rewrite !elem_of_app, elem_of_cons. tauto. }
    rewrite Hf, Hd. eapply ok_rehanded; try done; simpl; try done.
    + intros i. rewrite !occ_handed. unfold running_list. simpl. rewrite Hc, He. simpl. lia.
    + intros i Hi. rewrite He. by right.
  - by eapply run_step_ok.
  - eapply ok_rehanded; try done; simpl; try done.
    + intros i. rewrite !occ_handed. unfold running_list. simpl. rewrite Hp, !occ_app. simpl. lia.
    + intros i. rewrite Hp, !elem_of_app, elem_of_cons. tauto.
  - by destruct Hok.
  - destruct Hfr as (_ & Hn & Hl). destruct Hok. unfold open_fds in *. split; try done; unfold open_fds; simpl.
    + rewrite <- app_assoc. simpl. eapply NoDup_Permutation_proper; [|apply NoDup_cons; split; [exact Hn|exact ok_open0]].
      rewrite <- Permutation_middle. apply Permutation_swap.
    + simpl in *. rewrite !length_app in *. simpl. lia.
  - destruct Hok. unfold open_fds in *. rewrite Ho in *.
    split; try done; unfold open_fds; simpl.
    + eapply NoDup_cons_1_2, NoDup_Permutation_proper; [|exact ok_open0].
      rewrite <- !app_assoc. simpl. rewrite <- Permutation_middle. apply Permutation_swap.
    + simpl in *. rewrite !length_app in *. simpl in *. lia.
Qed.

Lemma connections_reachable_ok s : reachable initial step s → conn_ok s.
Proof.
  apply reachable_ind'; [|intros; by eapply step_ok].
  intros ? (fds & _ & Hn & Hl & ->). split; try done; simpl.
  - unfold open_fds. simpl. by rewrite app_nil_r.
  - unfold open_fds. simpl. by rewrite app_nil_r.
  - intros [|h] f Hf; [|done]. simpl in Hf. injection Hf as <-.
    unfold armed_count, armed_for. simpl. by rewrite lookup_empty.
  - intros h Hh. unfold handed in Hh. simpl in Hh. apply list_elem_of_singleton in Hh as ->. by eexists.
  - by setoid_rewrite elem_of_nil.
  - by setoid_rewrite elem_of_nil.
Qed.

(** ** Running out of descriptors *)

(** Nobody closes the epoll descriptor. *)
Lemma epoll_stays_open s : reachable initial step s → epoll_fd ∈ others s.
Proof.
  apply (reachable_ind' initial step (λ s, epoll_fd ∈ others s)); [by intros ? (fds & Hin & _ & _ & ->)|]. intros s1 s2 _ Hin Hs.
  inversion Hs as [| | |h f s'' Hc Hf Hr| | |fd Hfd|o1 fd o2 Ho Hne]; subst; try done.
  - inversion Hr; subst; unfold accept_head, session_suspend, spawn; simpl;
      repeat case_match; simpl; done.
  - simpl. apply elem_of_app. by left.
  - simpl. rewrite Ho in Hin. set_solver.
Qed.

(** Every client that came has gone, and the accept loop waits for the next. *)
Definition drained (fds : descriptors) (s : state) : Prop :=
  (∃ socks, frames s = Acceptor AWait :: ((λ k, Client k Finished) <$> socks)) ∧
  queue s = [] ∧ pool s = [] ∧ events s = [] ∧ current s = None ∧ g_running s = true ∧
  others s = fds ∧ armed_for (interest s) listen_fd 0 = true.

Lemma list_insert_app_r0 {A} (l : list A) x y : <[length l := y]> (l ++ [x]) = l ++ [y].
Proof. induction l; simpl; [done|by f_equal]. Qed.

Lemma fresh_exists s : (length (open_fds s) < limit)%nat → ∃ fd, fresh_fd fd s.
Proof.
  intros Hl. exists (Z.of_nat (fresh (Z.to_nat <$> open_fds s))). split_and!; [lia| |done].
  intros Hin. apply (infinite_is_fresh (Z.to_nat <$> open_fds s)).
  apply list_elem_of_fmap. eexists. split; [|exact Hin]. by rewrite Nat2Z.id.
Qed.

Lemma armed_add_or_mod fd ev l :
  add_or_mod false fd ev l = <[fd := {| event := ev; armed := true |}]> l.
Proof.
  unfold add_or_mod, epoll_ctl_add, epoll_ctl_mod. destruct (l !! fd) eqn:E; [by rewrite E|done].
Qed.

(** An event on a registered descriptor resumes its coroutine. *)
Lemma event_resumes s fd h f :
  current s = None → events s = [] → armed_for (interest s) fd h = true →
  frames s !! h = Some f → done_ f = false →
  ∃ l, (∀ fd', fd' ≠ fd → l !! fd' = interest s !! fd') ∧
    rtc step s (set_place (queue s) (pool s) [] (Some h) (set_interest l s)).
Proof.
  intros Hc He Ha Hf Hd. apply armed_for_spec in Ha as ([ev a] & Hr & Ha & Hp). simpl in *. subst a h.
  exists (<[fd := {| event := ev; armed := false |}]> (interest s)).
  split; [intros; by rewrite lookup_insert_ne|].
  eapply rtc_l; [eapply (polls s [fd] [data_ptr ev]); [done|done|unfold max_events; simpl; lia|simpl; by rewrite Hr]|].
  eapply rtc_l; [by eapply dispatches|]. simpl. rewrite Hf, Hd. apply rtc_refl.
Qed.

(** A client connects and hangs up at once. *)
Lemma client_comes_and_goes fds s :
  drained fds s → (length (open_fds s) < limit)%nat →
  ∃ s', rtc step s s' ∧ drained fds s' ∧ length (open_fds s') = S (length (open_fds s)).
Proof.
  intros ((socks & Hfr) & Hq & Hpl & He & Hc & Hg & Ho & Ha) Hl.
  destruct (fresh_exists s Hl) as [fd Hfresh].
  pose proof Hfresh as (_ & Hn & _).
  assert (fd ≠ listen_fd) as Hne by (intros ->; apply Hn; left).
  destruct (event_resumes s listen_fd 0 (Acceptor AWait)) as (l & _ & R1); try done; [by rewrite Hfr|].
  set (s1 := set_place _ _ _ _ _) in R1.
  set (k := {| fd_ := fd; epoll_fd_ := epoll_fd |}).
  assert (step s1 (accept_head false 0 (spawn k s1))) as R2.
  { eapply (runs _ 0%nat (Acceptor AWait)); [done|simpl; by rewrite Hfr|].
    by apply (accept_gives 0%nat s1 false fd 0 0 k). }
  set (s2 := accept_head _ _ _) in R2.
  set (n := length (frames s)).
  assert (frames s2 = frames s ++ [Client k Begin]) as Hf2.
  { unfold s2, accept_head. simpl. rewrite Hg. simpl. by rewrite Hfr. }
  assert (frames s2 !! n = Some (Client k Begin)) as Hn2
    by (rewrite Hf2, lookup_app_r, Nat.sub_diag; done).
  assert (queue s2 = [n] ∧ pool s2 = [] ∧ events s2 = [] ∧ current s2 = None ∧ g_running s2 = true ∧
    others s2 = fds ∧ sockets s2 = sockets s ++ [fd] ∧ armed_for (interest s2) listen_fd 0 = true)
    as (Q2 & P2 & E2 & C2 & G2 & O2 & S2 & A2).
  { unfold s2, accept_head. simpl. rewrite Hg. simpl. rewrite Hq. split_and!; try done.
    unfold accept_await_suspend. rewrite armed_add_or_mod. unfold armed_for. by rewrite lookup_insert_eq. }
  assert (step s2 (set_place [] [] [] (Some n) s2)) as R3.
  { pose proof (takes s2 n [] C2 Q2) as H. rewrite Hn2, P2, E2 in H. exact H. }
  set (s3 := set_place _ _ _ _ _) in R3.
  assert (step s3 (session_suspend false n k ReadLen s3)) as R4.
  { eapply (runs _ n (Client k Begin)); [done|done|]. apply session_moves; [|done].
    simpl. rewrite G2. by left. }
  set (s4 := session_suspend _ _ _ _ _) in R4.
  assert (frames s4 = frames s ++ [Client k ReadLen]) as Hf4.
  { unfold s4, s3. simpl. rewrite Hf2. unfold n. by rewrite list_insert_app_r0. }
  assert (frames s4 !! n = Some (Client k ReadLen)) as Hn4
    by (rewrite Hf4, lookup_app_r, Nat.sub_diag; done).
  assert (armed_for (interest s4) fd n = true ∧ armed_for (interest s4) listen_fd 0 = true) as [A4 A4'].
  { unfold s4. simpl. unfold read_await_suspend. rewrite armed_add_or_mod. unfold armed_for.
    rewrite lookup_insert_eq, lookup_insert_ne by done. simpl. by rewrite bool_decide_eq_true_2. }
  destruct (event_resumes s4 fd n (Client k ReadLen)) as (l5 & Hl5 & R5); try done.
  set (s5 := set_place _ _ _ _ _) in R5.
  assert (step s5 (session_suspend false n k Finished s5)) as R6.
  { eapply (runs _ n (Client k ReadLen)); [done|done|]. apply session_moves; [|done]. right. by left. }
  eexists. split; [|split].
  - etrans; [exact R1|]. eapply rtc_l; [exact R2|]. eapply rtc_l; [exact R3|]. eapply rtc_l; [exact R4|].
    etrans; [exact R5|]. by eapply rtc_once.
  - split; [|split_and!; try done].
    + exists (socks ++ [k]).
      change (<[n := Client k Finished]> (frames s4) =
        Acceptor AWait :: ((λ k, Client k Finished) <$> socks ++ [k])).
      rewrite Hf4. unfold n. rewrite list_insert_app_r0, Hfr. simpl. by rewrite fmap_app.
    + change (armed_for l5 listen_fd 0 = true). unfold armed_for in *. by rewrite Hl5.
  - change (length (listen_fd :: others s2 ++ sockets s2) = S (length (listen_fd :: others s ++ sockets s))).
    rewrite O2, S2, Ho. simpl. rewrite !length_app. simpl. lia.
Qed.

Section run_out.
Context (fds : descriptors) (Hepoll : epoll_fd ∈ fds) (Hnodup : NoDup (listen_fd :: fds)).
Context (Hroom : (length (listen_fd :: fds) <= limit)%nat).

Lemma drained_start : ∃ s, reachable initial step s ∧ drained fds s.
Proof.
  set (s0 := {| frames := [Acceptor ABegin]; interest := ∅; queue := [0%nat]; pool := []; events := [];
    current := None; lost := []; sockets := []; others := fds; g_running := true |}).
  eexists. split.
  - exists s0. split; [by exists fds|].
    eapply rtc_l; [by apply (takes s0 0%nat [])|].
    eapply rtc_once, (runs _ 0%nat (Acceptor ABegin)); [done|done|].
    apply (accept_starts 0%nat _ false).
  - unfold accept_head. simpl. split_and!; try done; [by exists []|].
    change (armed_for (accept_await_suspend false listen_fd 0 ∅) listen_fd 0 = true).
    unfold accept_await_suspend. rewrite armed_add_or_mod. unfold armed_for.
    by rewrite lookup_insert_eq.
Qed.

Lemma drained_reached n :
  (n <= limit)%nat → ∃ s, reachable initial step s ∧ drained fds s ∧ (n <= length (open_fds s))%nat.
Proof.
  induction n as [|n IH]; intros Hn.
  - destruct drained_start as (s & Hr & Hd). exists s. split_and!; [done|done|lia].
  - destruct IH as (s & Hr & Hd & Hl); [lia|].
    destruct (decide (S n <= length (open_fds s))%nat) as [|Hlt]; [by exists s|].
    destruct (client_comes_and_goes fds s Hd ltac:(lia)) as (s' & Hs & Hd' & Hl').
    exists s'. split_and!; [|done|lia]. destruct Hr as (s0 & Hi & Hr). exists s0. split; [done|]. by etrans.
Qed.
End run_out.

(** A session starts only by taking a descriptor. *)
Lemma step_keeps_sockets s s' :
  step s s' → (length (sockets s) <= length (sockets s'))%nat.
Proof.
  intros Hs. inversion Hs as [| | |h f s'' Hc Hf Hr| | | |]; subst; try (simpl; lia).
  inversion Hr; subst; unfold accept_head, session_suspend, spawn, socket_move, socket_destroy; simpl;
    repeat case_match; simpl; rewrite ?length_app; simpl; lia.
Qed.

Lemma frames_count s : conn_ok s → length (frames s) = S (length (sockets s)).
Proof. intros Hok. by rewrite <- (length_fmap fd_of), (ok_fds s Hok). Qed.

(** Only the registration of a descriptor that epoll does not know can be refused. *)
Lemma suspended_lost s h fd refused ev :
  data_ptr ev = h →
  lost (suspended h fd (add_or_mod refused fd ev (interest s)) s) = lost s ∨
  refused = true ∧ interest s !! fd = None.
Proof.
  intros Hp. simpl. unfold add_or_mod, epoll_ctl_add, epoll_ctl_mod, armed_for.
  destruct (interest s !! fd) as [r|] eqn:E.
  - left. rewrite E. simpl. rewrite lookup_insert_eq. simpl. by rewrite bool_decide_eq_true_2.
  - destruct refused; [by right|left]. rewrite lookup_insert_eq. simpl. by rewrite bool_decide_eq_true_2.
Qed.

Lemma step_lost s s' :
  step s s' → lost s' = lost s ∨
  ∃ h f, current s = Some h ∧ frames s !! h = Some f ∧ interest s !! fd_of f = None.
Proof.
  intros Hs. inversion Hs as [| | |h f s'' Hc Hf Hr| | | |]; subst; try (by left).
  assert (∀ s'' refused, (interest s'' = interest s → lost s'' = lost s → fd_of f = listen_fd →
    lost (accept_head refused h s'') = lost s ∨ interest s !! fd_of f = None)) as Hhead.
  { intros s'' refused Hi Hl Hfd. unfold accept_head. destruct (g_running s''); [|by left].
    unfold accept_await_suspend.
    destruct (suspended_lost (set_frame h (Acceptor AWait) s'') h listen_fd refused
      {| wants := EPOLLIN; edge_triggered := false; data_ptr := h |} eq_refl) as [H|[_ H]]; simpl in *.
    - left. by rewrite H.
    - right. by rewrite Hfd, <- Hi. }
  assert (lost s' = lost s ∨ interest s !! fd_of f = None) as [|]; [|by left|right; by exists h, f].
  inversion Hr; subst; [by apply Hhead..|by apply Hhead| |by left|by left].
  unfold session_suspend. destruct (waits_for (Client k p')) as [[]|] eqn:Hw; [| |by left].
  - destruct (suspended_lost (set_frame h (Client k p') s) h (fd_ k) refused
      {| wants := EPOLLIN; edge_triggered := true; data_ptr := h |} eq_refl) as [H'|[_ H']];
      [by left|by right].
  - destruct (suspended_lost (set_frame h (Client k p') s) h (fd_ k) refused
      {| wants := EPOLLOUT; edge_triggered := true; data_ptr := h |} eq_refl) as [H'|[_ H']];
      [by left|by right].
Qed.

(** ** Properties *)

(** C35. Whatever clients, the kernel, the continuation pool, signals and the rest of the
    process do: each coroutine that has not ended is in exactly one hand (the reactor's
    queue, the pool, an event to dispatch, running, or one armed entry of the interest
    list, that of its own descriptor) and one that has ended in none, so none is resumed
    twice, while it runs, or after its end; an armed entry is for the very event its
    coroutine is suspended for; the pool holds those that wait for a response; no two
    coroutines share a descriptor; and a coroutine is lost to all of them only when the
    kernel refuses the first registration of its descriptor. *)
Theorem each_coroutine_has_one_resumer s :
  reachable initial step s →
  (∀ h f, frames s !! h = Some f →
     (occ h (handed s) + armed_count (interest s) (fd_of f) h)%nat = if done_ f then 0%nat else 1%nat) ∧
  (∀ fd r, interest s !! fd = Some r → armed r = true →
     ∃ f, frames s !! data_ptr (event r) = Some f ∧ fd_of f = fd ∧
       waits_for f = Some (wants (event r))) ∧
  (∀ h, h ∈ events s → ∃ f, frames s !! h = Some f ∧ is_Some (waits_for f)) ∧
  (∀ h, h ∈ pool s → ∃ f, frames s !! h = Some f ∧ at_infer f) ∧
  (∀ h g f f', frames s !! h = Some f → frames s !! g = Some f' → fd_of f = fd_of f' → h = g) ∧
  (∀ s', step s s' → lost s' = lost s ∨
     ∃ h f, current s = Some h ∧ frames s !! h = Some f ∧ interest s !! fd_of f = None).
Proof.
  intros Hok%connections_reachable_ok. pose proof Hok as [].
  split_and!; try done; [intros; by eapply ok_inj|apply step_lost].
Qed.

(** C36. The server runs out of descriptors: the descriptor of a session stays open when
    the session has ended, so all the sessions it ever starts have different ones, fewer
    than the limit of the process less those used elsewhere, epoll's among them; and
    whatever the limit and whatever the process opened first, clients that connect and
    hang up one after another bring a server that runs and was not stopped to a state with
    no session left and no descriptor free, from which no session ever starts again as
    long as the rest of the process keeps as many descriptors as it has. *)
Theorem descriptors_run_out :
  (∀ s, reachable initial step s →
     fd_of <$> frames s = listen_fd :: sockets s ∧ NoDup (listen_fd :: sockets s) ∧
     (epoll_fd ∈ others s) ∧ (S (length (others s)) + length (sockets s) <= limit)%nat) ∧
  (∀ fds, epoll_fd ∈ fds → NoDup (listen_fd :: fds) → (length (listen_fd :: fds) <= limit)%nat →
     ∃ s, reachable initial step s ∧ g_running s = true ∧ others s = fds ∧
       Forall (λ f, done_ f = true) (tail (frames s)) ∧ (length (frames s) + length fds = limit)%nat ∧
       ∀ s', rtc step s s' → (length fds <= length (others s'))%nat →
         length (frames s') = length (frames s)).
Proof.
  split.
  - intros s Hr. pose proof (epoll_stays_open s Hr) as He. apply connections_reachable_ok in Hr as Hok.
    pose proof Hok as [Hfd Ho Hl _ _ _ _ _].
    unfold open_fds in *. split_and!; [done| |done|simpl in Hl; rewrite length_app in Hl; lia].
    apply NoDup_cons in Ho as [H1 H2]. apply NoDup_app in H2 as (_ & _ & H3).
    apply NoDup_cons. split; [|done]. intros ?. apply H1, elem_of_app. by right.
  - intros fds He Hnd Hl. destruct (drained_reached fds He Hnd Hl limit ltac:(lia)) as (s & Hr & Hd & Hf).
    pose proof (connections_reachable_ok s Hr) as Hok. pose proof (ok_limit s Hok) as Hle.
    pose proof Hd as ((socks & Hfr) & _ & _ & _ & _ & Hg & Ho & _).
    assert (length (frames s) + length fds = limit)%nat as Hn.
    { rewrite frames_count by done. unfold open_fds in *. rewrite Ho in *. simpl in *.
      rewrite length_app in *. lia. }
    exists s. split_and!; [done|done|done| |done|].
    + rewrite Hfr. simpl. apply Forall_fmap, Forall_true. done.
    + intros s' Hs Hkeep. assert (conn_ok s') as Hok'.
      { apply connections_reachable_ok. destruct Hr as (s0 & Hi & Hr). exists s0. split; [done|by etrans]. }
      pose proof (ok_limit s' Hok') as Hle'. unfold open_fds in Hle'. simpl in Hle'. rewrite length_app in Hle'.
      assert (length (sockets s) <= length (sockets s'))%nat.
      { clear -Hs. induction Hs as [|x y z Hxy _ IH]; [done|]. apply step_keeps_sockets in Hxy. lia. }
      rewrite (frames_count s) in Hn |- * by done. rewrite (frames_count s') by done. lia.
Qed.
End connections.

(** A process with the three standard streams, epoll as 3, the listening socket as 4. *)
Definition demo_fds : descriptors := [0; 1; 2; 3].

Lemma demo_fds_open n :
  (5 <= n)%nat → 3 ∈ demo_fds ∧ NoDup (4 :: demo_fds) ∧ (length (4%Z :: demo_fds) <= n)%nat.
Proof.
  intros Hn. split; [by apply (bool_decide_unpack _); vm_compute|].
  split; [by apply (bool_decide_unpack _); vm_compute|done].
Qed.

Lemma each_coroutine_has_one_resumer_witness :
  ∃ s, reachable (initial 4 3 8) (step 4 3 8) s ∧ (8 <= length (open_fds 4 s))%nat ∧
    (∀ h f, frames s !! h = Some f →
      (occ h (handed s) + armed_count (interest s) (fd_of 4 f) h)%nat = if done_ f then 0%nat else 1%nat).
Proof.
  destruct (demo_fds_open 8 ltac:(lia)) as (He & Hn & Hl).
  destruct (drained_reached 4 3 8 demo_fds He Hn Hl 8 ltac:(lia)) as (s & Hr & _ & Hf). exists s.
  destruct (each_coroutine_has_one_resumer 4 3 8 s Hr) as (H & _). by split_and!.
Defined.

(** Under a limit of eight, three sessions. *)
Lemma descriptors_run_out_witness :
  ∃ s, reachable (initial 4 3 8) (step 4 3 8) s ∧ length (frames s) = 4%nat ∧ others s = demo_fds ∧
    ∀ s', rtc (step 4 3 8) s s' → (4 <= length (others s'))%nat → length (frames s') = length (frames s).
Proof.
  destruct (demo_fds_open 8 ltac:(lia)) as (He & Hn & Hl).
  destruct (descriptors_run_out 4 3 8) as (_ & H).
  destruct (H demo_fds He Hn Hl) as (s & Hr & _ & Ho & _ & Hf & Hk). exists s.
  split_and!; [done|simpl in Hf; lia|done|exact Hk].
Defined.
