(* ===== verification/MetricsServer.v ===== *)
(** * Metrics server ([MetricsServer] of [src/telemetry/metrics_export.cpp])

    A thread that accepts connections and writes the text of [Metrics] to each, and the
    threads that start, stop and destroy the object, one shared access or system call a
    step. The kernel's answers are left open within what accept(2), shutdown(2), write(2)
    and close(2) document; a client is what the socket can still take and whether it is
    gone. A call of [accept] refers to its socket from then on: closing the descriptor
    does not wake it, [shutdown] does. [listen_fd_] is a plain member that the server's
    thread reads while [stop] may be storing it, a data race; each access is one step
    here. A descriptor that was closed is taken not to be given to another part of the
    process before the server's thread has used it. *)
From S2P Require Import Prelude.
From S2P Require Import Transition.
From S2P Require Import Text.
From S2P Require Import Metrics.

(** ** Data *)

(** Where [accept_loop] is: testing [stopped_]; reading [listen_fd_]; about to enter
    [accept]; in it, on a socket; past a failed one; past a good one; testing the condition
    of the write loop, in [write] and past the loop, with the text, the bytes the client's
    socket took, the count [written] and how the loop ended; returned. *)
Inductive write_end := Whole | Stopped | Failed.

Inductive server :=
| LTest
| LRead
| LAccept (fd : Z)
| LBlocked (socket : nat)
| LFailed
| LSerialize (c : Z)
| LLoop (c : Z) (json sent : text) (written : nat)
| LWrite (c : Z) (json sent : text) (written : nat)
| LClose (c : Z) (json sent : text) (written : nat) (why : write_end)
| LEnded.

(** Where a thread that uses the object is. In [start]: past its exchange of [stopped_],
    about to bind, to listen, to create the thread; about to close after a failure, to
    store [stopped_]. In [stop], called by the destructor or not: past its exchange, about
    to close, to join. In the destructor of [thread_]; past it. *)
Inductive caller :=
| CIdle
| CSocket
| CBind
| CListen
| CThread
| CCloseFailed
| CStore
| CShut (destroying : bool)
| CClose (destroying : bool)
| CJoin (destroying : bool)
| CDestruct
| CGone.

(** [thread_] is [None] unless joinable. [open_fds]: the descriptors this object has open;
    [sockets]: the socket a descriptor last referred to, numbered as they were opened;
    [shut]: the sockets after [shutdown]; [room]: what the sockets of clients can
    take; [gone]: clients that closed. [opened] and [closed] list the descriptors that were;
    [served] the finished connections: the text, what was sent, why it ended.
    [terminated]: [std::terminate] was called; [killed]: by SIGPIPE. *)
Record state := {
  stopped_ : bool;
  listen_fd_ : Z;
  thread_ : option server;
  callers : list caller;
  open_fds : list Z;
  sockets : gmap Z nat;
  shut : list nat;
  room : gmap Z nat;
  gone : list Z;
  opened : list Z;
  closed : list Z;
  served : list (text * text * write_end);
  terminated : bool;
  killed : bool }.

(** The constructor's state. *)
Definition initial (num_callers : nat) (s : state) : Prop := s = {|
  stopped_ := true; listen_fd_ := -1; thread_ := None; callers := replicate num_callers CIdle;
  open_fds := []; sockets := ∅; shut := []; room := ∅; gone := []; opened := []; closed := []; served := [];
  terminated := false; killed := false |}.

(** ** State updates *)

Definition set_server (p : server) (s : state) : state := {|
  stopped_ := stopped_ s; listen_fd_ := listen_fd_ s; thread_ := Some p; callers := callers s;
  open_fds := open_fds s; sockets := sockets s; shut := shut s; room := room s; gone := gone s; opened := opened s;
  closed := closed s; served := served s; terminated := terminated s; killed := killed s |}.

Definition set_caller (i : nat) (c : caller) (s : state) : state := {|
  stopped_ := stopped_ s; listen_fd_ := listen_fd_ s; thread_ := thread_ s;
  callers := <[i := c]> (callers s);
  open_fds := open_fds s; sockets := sockets s; shut := shut s; room := room s; gone := gone s; opened := opened s;
  closed := closed s; served := served s; terminated := terminated s; killed := killed s |}.

Definition set_stopped (b : bool) (s : state) : state := {|
  stopped_ := b; listen_fd_ := listen_fd_ s; thread_ := thread_ s; callers := callers s;
  open_fds := open_fds s; sockets := sockets s; shut := shut s; room := room s; gone := gone s; opened := opened s;
  closed := closed s; served := served s; terminated := terminated s; killed := killed s |}.

Definition set_listen (fd : Z) (s : state) : state := {|
  stopped_ := stopped_ s; listen_fd_ := fd; thread_ := thread_ s; callers := callers s;
  open_fds := open_fds s; sockets := sockets s; shut := shut s; room := room s; gone := gone s; opened := opened s;
  closed := closed s; served := served s; terminated := terminated s; killed := killed s |}.

Definition set_thread (t : option server) (s : state) : state := {|
  stopped_ := stopped_ s; listen_fd_ := listen_fd_ s; thread_ := t; callers := callers s;
  open_fds := open_fds s; sockets := sockets s; shut := shut s; room := room s; gone := gone s; opened := opened s;
  closed := closed s; served := served s; terminated := terminated s; killed := killed s |}.

Definition set_ended (term kill : bool) (s : state) : state := {|
  stopped_ := stopped_ s; listen_fd_ := listen_fd_ s; thread_ := thread_ s; callers := callers s;
  open_fds := open_fds s; sockets := sockets s; shut := shut s; room := room s; gone := gone s; opened := opened s;
  closed := closed s; served := served s; terminated := term; killed := kill |}.

Definition set_clients (r : gmap Z nat) (g : list Z) (s : state) : state := {|
  stopped_ := stopped_ s; listen_fd_ := listen_fd_ s; thread_ := thread_ s; callers := callers s;
  open_fds := open_fds s; sockets := sockets s; shut := shut s; room := r; gone := g; opened := opened s;
  closed := closed s; served := served s; terminated := terminated s; killed := killed s |}.

(** A descriptor the kernel gives out; nothing is known of it. *)
Definition open_fd (fd : Z) (s : state) : state := {|
  stopped_ := stopped_ s; listen_fd_ := listen_fd_ s; thread_ := thread_ s; callers := callers s;
  open_fds := fd :: open_fds s; sockets := <[fd := length (opened s)]> (sockets s);
  shut := shut s;
  room := <[fd := 0%nat]> (room s); gone := base.filter (λ x, x ≠ fd) (gone s);
  opened := opened s ++ [fd];
  closed := closed s; served := served s; terminated := terminated s; killed := killed s |}.

(** [::close(fd)]. *)
Definition close_fd (fd : Z) (s : state) : state := {|
  stopped_ := stopped_ s; listen_fd_ := listen_fd_ s; thread_ := thread_ s; callers := callers s;
  open_fds := base.filter (λ x, x ≠ fd) (open_fds s); sockets := sockets s; shut := shut s; room := room s;
  gone := gone s; opened := opened s;
  closed := closed s ++ [fd]; served := served s; terminated := terminated s; killed := killed s |}.

(** The socket [fd] refers to. *)
Definition socket_of (fd : Z) (s : state) : nat := default 0%nat (sockets s !! fd).

(** [::shutdown(fd, SHUT_RDWR)]. *)
Definition shut_fd (fd : Z) (s : state) : state := {|
  stopped_ := stopped_ s; listen_fd_ := listen_fd_ s; thread_ := thread_ s; callers := callers s;
  open_fds := open_fds s; sockets := sockets s; shut := socket_of fd s :: shut s; room := room s; gone := gone s; opened := opened s;
  closed := closed s; served := served s; terminated := terminated s; killed := killed s |}.

Definition log_served (json sent : text) (why : write_end) (s : state) : state := {|
  stopped_ := stopped_ s; listen_fd_ := listen_fd_ s; thread_ := thread_ s; callers := callers s;
  open_fds := open_fds s; sockets := sockets s; shut := shut s; room := room s; gone := gone s; opened := opened s;
  closed := closed s; served := served s ++ [(json, sent, why)];
  terminated := terminated s; killed := killed s |}.

(** A descriptor that [socket] or [accept] may answer. *)
Definition fresh_fd (fd : Z) (s : state) : Prop := 0 <= fd ∧ fd ∉ open_fds s.

Definition room_of (c : Z) (s : state) : nat := default 0%nat (room s !! c).

(** ** Steps *)

(** A step of [accept_loop] that needs nobody else. [accept] on a closed descriptor fails
    at once; in [accept], only [shutdown] of the socket makes it fail; [write], of what is
    left from [json.data() + written] on, returns once the socket takes a byte, fails or
    kills the process once the client is gone. *)
Inductive server_step : server → state → state → Prop :=
| loop_ends s : stopped_ s = true → server_step LTest s (set_server LEnded s)
| loop_goes_on s : stopped_ s = false → server_step LTest s (set_server LRead s)
| reads_listen_fd s : server_step LRead s (set_server (LAccept (listen_fd_ s)) s)
| accept_bad_fd s fd : fd ∉ open_fds s → server_step (LAccept fd) s (set_server LFailed s)
| accept_enters s fd :
    fd ∈ open_fds s → server_step (LAccept fd) s (set_server (LBlocked (socket_of fd s)) s)
| accept_shut s k : k ∈ shut s → server_step (LBlocked k) s (set_server LFailed s)
| failed_stopped s : stopped_ s = true → server_step LFailed s (set_server LEnded s)
| failed_sleeps s : stopped_ s = false → server_step LFailed s (set_server LTest s)
| serializes s c all :
    server_step (LSerialize c) s (set_server (LLoop c (serialize_metrics_json all) [] 0) s)
| loop_writes s c json sent w :
    (w < length json)%nat → stopped_ s = false →
    server_step (LLoop c json sent w) s (set_server (LWrite c json sent w) s)
| loop_whole s c json sent w :
    (length json <= w)%nat →
    server_step (LLoop c json sent w) s (set_server (LClose c json sent w Whole) s)
| loop_stopped s c json sent w :
    (w < length json)%nat → stopped_ s = true →
    server_step (LLoop c json sent w) s (set_server (LClose c json sent w Stopped) s)
| write_takes s c json sent w n :
    (0 < n <= length json - w)%nat → (n <= room_of c s)%nat →
    server_step (LWrite c json sent w) s
      (set_server (LLoop c json (sent ++ take n (drop w json)) (w + n))
        (set_clients (<[c := (room_of c s - n)%nat]> (room s)) (gone s) s))
| write_fails s c json sent w :
    c ∈ gone s → server_step (LWrite c json sent w) s (set_server (LClose c json sent w Failed) s)
| write_kills s c json sent w :
    c ∈ gone s → server_step (LWrite c json sent w) s (set_ended (terminated s) true s)
| closes_client s c json sent w why :
    server_step (LClose c json sent w why) s
      (set_server LTest (log_served json sent why (close_fd c s))).

(** What clients and the kernel do: somebody connects to the socket [accept] waits on,
    [accept] fails for a reason that will pass, a client reads, a client closes. *)
Inductive client_step : option server → state → state → Prop :=
| accept_gives s k c :
    k ∉ shut s → fresh_fd c s →
    client_step (Some (LBlocked k)) s (set_server (LSerialize c) (open_fd c s))
| accept_passing_error s k : client_step (Some (LBlocked k)) s (set_server LFailed s)
| client_reads t s c n :
    client_step t s (set_clients (<[c := (room_of c s + n)%nat]> (room s)) (gone s) s)
| client_closes t s c : client_step t s (set_clients (room s) (c :: gone s) s).

(** One step of caller [i]. *)
Inductive caller_step (i : nat) : caller → state → state → Prop :=
| start_exchanges s :
    stopped_ s = true → caller_step i CIdle s (set_caller i CSocket (set_stopped false s))
| start_refused s : stopped_ s = false → caller_step i CIdle s s
| socket_gives s fd :
    fresh_fd fd s → caller_step i CSocket s (set_caller i CBind (set_listen fd (open_fd fd s)))
| socket_fails s : caller_step i CSocket s (set_caller i CStore (set_listen (-1) s))
| bind_done s : caller_step i CBind s (set_caller i CListen s)
| bind_fails s : caller_step i CBind s (set_caller i CCloseFailed s)
| listen_done s : caller_step i CListen s (set_caller i CThread s)
| listen_fails s : caller_step i CListen s (set_caller i CCloseFailed s)
| closes_failed s :
    caller_step i CCloseFailed s
      (set_caller i CStore (set_listen (-1) (close_fd (listen_fd_ s) s)))
| stores_stopped s : caller_step i CStore s (set_caller i CIdle (set_stopped true s))
| thread_starts s :
    thread_ s = None → caller_step i CThread s (set_caller i CIdle (set_thread (Some LTest) s))
| thread_assigned s p :
    thread_ s = Some p → caller_step i CThread s (set_ended true (killed s) s)
| thread_throws s : caller_step i CThread s (set_caller i CIdle s)
| stop_exchanges s d :
    stopped_ s = false → caller_step i CIdle s (set_caller i (CShut d) (set_stopped true s))
| stop_refused s : stopped_ s = true → caller_step i CIdle s s
| destroy_stopped s : stopped_ s = true → caller_step i CIdle s (set_caller i CDestruct s)
| stop_no_listener s d :
    listen_fd_ s < 0 → caller_step i (CShut d) s (set_caller i (CJoin d) s)
| stop_shuts s d :
    0 <= listen_fd_ s →
    caller_step i (CShut d) s (set_caller i (CClose d) (shut_fd (listen_fd_ s) s))
| stop_closes s d :
    caller_step i (CClose d) s
      (set_caller i (CJoin d) (set_listen (-1) (close_fd (listen_fd_ s) s)))
| stop_not_joinable s d :
    thread_ s = None →
    caller_step i (CJoin d) s (set_caller i (if d then CDestruct else CIdle) s)
| stop_joins s d :
    thread_ s = Some LEnded →
    caller_step i (CJoin d) s (set_caller i (if d then CDestruct else CIdle) (set_thread None s))
| destroyed s : thread_ s = None → caller_step i CDestruct s (set_caller i CGone s)
| destroyed_joinable s p :
    thread_ s = Some p → caller_step i CDestruct s (set_ended true (killed s) s).

(** A process that was terminated or killed takes no step. *)
Inductive step (s s' : state) : Prop :=
| server_moves p :
    terminated s = false → killed s = false → thread_ s = Some p → server_step p s s' → step s s'
| clients_move :
    terminated s = false → killed s = false → client_step (thread_ s) s s' → step s s'
| caller_moves i c :
    terminated s = false → killed s = false → callers s !! i = Some c → caller_step i c s s' →
    step s s'.

(** ** The invariant, for one caller *)

Definition listener_fds (fd : Z) : list Z := if fd <? 0 then [] else [fd].

Definition client_fds (t : option server) : list Z :=
  match t with
  | Some (LSerialize c | LLoop c _ _ _ | LWrite c _ _ _ | LClose c _ _ _ _) => [c]
  | _ => []
  end.

Definition point_ok (c : caller) (s : state) : Prop :=
  match c with
  | CIdle => if stopped_ s then listen_fd_ s = -1 ∧ thread_ s = None else 0 <= listen_fd_ s
  | CSocket | CStore => stopped_ s = false ∧ listen_fd_ s = -1 ∧ thread_ s = None
  | CBind | CListen | CThread | CCloseFailed =>
      stopped_ s = false ∧ 0 <= listen_fd_ s ∧ thread_ s = None
  | CShut _ => stopped_ s = true ∧ 0 <= listen_fd_ s
  | CClose _ => stopped_ s = true ∧ 0 <= listen_fd_ s ∧ socket_of (listen_fd_ s) s ∈ shut s
  | CJoin _ => stopped_ s = true ∧ listen_fd_ s = -1
  | CDestruct | CGone => stopped_ s = true ∧ listen_fd_ s = -1 ∧ thread_ s = None
  end.

(** What was sent is a prefix of the text, the whole of it if the loop ended so. *)
Definition served_ok (x : text * text * write_end) : Prop :=
  let '(json, sent, why) := x in
  sent `prefix_of` json ∧ (why = Whole → sent = json) ∧ ∃ all, json = serialize_metrics_json all.

(** The first [w] bytes of a metrics text were sent. *)
Definition sending_ok (json sent : text) (w : nat) : Prop :=
  (w <= length json)%nat ∧ sent = take w json ∧ ∃ all, json = serialize_metrics_json all.

(** The socket [accept] waits on is the one [stop] will shut down, or was. *)
Definition server_ok (p : server) (s : state) : Prop :=
  match p with
  | LAccept fd => fd = listen_fd_ s ∨ listen_fd_ s = -1
  | LBlocked k => (0 <= listen_fd_ s ∧ k = socket_of (listen_fd_ s) s) ∨ k ∈ shut s
  | LLoop _ json sent w => sending_ok json sent w
  | LWrite _ json sent w => sending_ok json sent w ∧ (w < length json)%nat
  | LClose _ json sent w why => served_ok (json, sent, why)
  | _ => True
  end.

Record one_ok (s : state) : Prop := {
  ok_caller : ∃ c, callers s = [c] ∧ point_ok c s;
  ok_open : open_fds s ≡ₚ listener_fds (listen_fd_ s) ++ client_fds (thread_ s);
  ok_nodup : NoDup (open_fds s);
  ok_balance : opened s ≡ₚ closed s ++ open_fds s;
  ok_server : ∀ p, thread_ s = Some p → server_ok p s;
  ok_served : Forall served_ok (served s);
  ok_alive : terminated s = false }.

Lemma filter_ne_perm (x : Z) (l : list Z) :
  NoDup l → x ∈ l → l ≡ₚ x :: base.filter (λ y, y ≠ x) l.
Proof.
  induction 1 as [|y l Hy Hl IH]; [by intros ?%elem_of_nil|]. intros [->|Hx]%elem_of_cons.
  - rewrite filter_cons_False by (intros H; by apply H). f_equiv.
    clear IH Hl. induction l as [|z l IH]; [done|]. apply not_elem_of_cons in Hy as [? ?].
    rewrite filter_cons_True by done. f_equiv. by apply IH.
  - rewrite filter_cons_True by (intros ->; done). rewrite (IH Hx) at 1. apply Permutation_swap.
Qed.

Lemma close_perm fd s :
  NoDup (open_fds s) → fd ∈ open_fds s →
  open_fds s ≡ₚ fd :: open_fds (close_fd fd s) ∧ NoDup (open_fds (close_fd fd s)).
Proof. intros Hn Hfd. split; [by apply filter_ne_perm|by apply NoDup_filter]. Qed.

(** Closing an open descriptor keeps the account. *)
Lemma close_balance fd s :
  NoDup (open_fds s) → fd ∈ open_fds s → opened s ≡ₚ closed s ++ open_fds s →
  opened s ≡ₚ closed (close_fd fd s) ++ open_fds (close_fd fd s).
Proof.
  intros Hn Hfd ->. rewrite (proj1 (close_perm fd s Hn Hfd)) at 1. simpl.
  rewrite <- app_assoc. done.
Qed.

Lemma open_balance fd s :
  opened s ≡ₚ closed s ++ open_fds s →
  opened (open_fd fd s) ≡ₚ closed (open_fd fd s) ++ open_fds (open_fd fd s).
Proof. intros H. simpl. rewrite H, <- Permutation_cons_append. apply Permutation_middle. Qed.

(** The server's thread moves on with the descriptors it has. *)
Lemma ok_set_server p q s :
  one_ok s → thread_ s = Some p → client_fds (Some q) = client_fds (Some p) → server_ok q s →
  one_ok (set_server q s).
Proof.
  intros [(c & Hcs & Hc) Ho Hn Hb Hs Hd Ha] Hp Hq Hqo. split; simpl; try done.
  - exists c. split; [done|]. destruct c; simpl in *; rewrite ?Hp in *; try done;
      [destruct (stopped_ s)|..]; naive_solver.
  - by rewrite Ho, Hp, <- Hq.
  - by intros ? [= <-].
Qed.

Lemma ok_clients r g s : one_ok s → one_ok (set_clients r g s).
Proof. by intros []. Qed.

Lemma ok_killed k s : one_ok s → one_ok (set_ended (terminated s) k s).
Proof. by intros []. Qed.

Lemma sending_served json sent w why :
  sending_ok json sent w → (why = Whole → (length json <= w)%nat) → served_ok (json, sent, why).
Proof.
  intros (Hw & -> & Hj) Hwhole. split; [exists (drop w json); symmetry; apply take_drop|]. split; [|done].
  intros Hy. apply firstn_all2. by apply Hwhole.
Qed.

Lemma sending_more json sent w n :
  sending_ok json sent w → (n <= length json - w)%nat →
  sending_ok json (sent ++ take n (drop w json)) (w + n).
Proof.
  intros (Hw & -> & Hj) Hn. split; [lia|]. split; [|done]. by rewrite take_take_drop.
Qed.

(** The descriptor [accept] is called with, if it is open, is the listening one. *)
Lemma accepting_listener s fd :
  one_ok s → thread_ s = Some (LAccept fd) → fd ∈ open_fds s → fd = listen_fd_ s ∧ 0 <= fd.
Proof.
  intros [_ Ho _ _ Hs _ _] Ht Hin. rewrite Ho, Ht in Hin. simpl in Hin. rewrite app_nil_r in Hin.
  unfold listener_fds in Hin. destruct (Z.ltb_spec (listen_fd_ s) 0); [by apply elem_of_nil in Hin|].
  apply list_elem_of_singleton in Hin as ->. by split.
Qed.

Lemma metrics_server_ok p s s' :
  one_ok s → thread_ s = Some p → server_step p s s' → one_ok s'.
Proof.
  intros Hok Hp Hstep. pose proof (ok_server s Hok p Hp) as Hpo.
  inversion Hstep; subst; simpl in Hpo; try (by apply (ok_set_server _ _ s Hok Hp)).
  - apply (ok_set_server _ _ s Hok Hp); [done|by left].
  - apply (ok_set_server _ _ s Hok Hp); [done|]. left.
    by destruct (accepting_listener s fd Hok Hp) as [-> ?].
  - apply (ok_set_server _ _ s Hok Hp); [done|]. split; [lia|]. split; [done|by eexists].
  - apply (ok_set_server _ _ s Hok Hp); [done|]. by eapply sending_served.
  - apply (ok_set_server _ _ s Hok Hp); [done|]. by eapply sending_served.
  - apply (ok_set_server (LWrite c json sent w)); [by apply ok_clients|done|done|].
    destruct Hpo as [Hpo _]. apply sending_more; [done|lia].
  - apply (ok_set_server _ _ s Hok Hp); [done|]. destruct Hpo as [Hpo _]. by eapply sending_served.
  - by apply ok_killed.
  - destruct Hok as [(c' & Hcs & Hc) Ho Hn Hb Hs Hd Ha].
    rewrite Hp in Ho. simpl in Ho.
    assert (c ∈ open_fds s) as Hin by (rewrite Ho; apply elem_of_app; right; by left).
    destruct (close_perm c s Hn Hin) as [Hperm Hn'].
    split; try done.
    + exists c'. split; [done|]. destruct c'; simpl in *; rewrite ?Hp in *; try done;
        [destruct (stopped_ s)|..]; naive_solver.
    + simpl in *. rewrite app_nil_r. apply (Permutation_cons_inv (a := c)). rewrite <- Hperm, Ho.
      by rewrite Permutation_app_comm.
    + exact (close_balance c s Hn Hin Hb).
    + by intros ? [= <-].
    + simpl. apply Forall_app. split; [done|]. by apply Forall_singleton.
Qed.

Lemma fresh_open_nodup fd s : NoDup (open_fds s) → fresh_fd fd s → NoDup (open_fds (open_fd fd s)).
Proof. intros Hn [_ Hf]. by apply NoDup_cons. Qed.

Lemma point_ok_open c fd s : 
  point_ok c s → NoDup (open_fds s) → open_fds s ≡ₚ listener_fds (listen_fd_ s) → fresh_fd fd s →
  thread_ s ≠ None → point_ok c (set_server (LSerialize fd) (open_fd fd s)).
Proof.
  intros Hc Hn Ho [_ Hf] Ht. destruct c; simpl in *; try done; try naive_solver.
  - destruct (stopped_ s); naive_solver.
  - destruct Hc as (H1 & H2 & H3). split_and!; [done|done|]. unfold socket_of in *. simpl.
    rewrite lookup_insert_ne; [done|]. intros ->. apply Hf. rewrite Ho. unfold listener_fds.
    rewrite (proj2 (Z.ltb_ge _ _)) by done. by left.
Qed.

Lemma metrics_client_ok s s' : one_ok s → client_step (thread_ s) s s' → one_ok s'.
Proof.
  intros Hok Hstep. inversion Hstep as [? k c Hl Hfr Ht Hs1 Hs2|? k Ht|t ? c n|t ? c]; subst.
  - symmetry in Ht. destruct Hok as [(c' & Hcs & Hc) Ho Hn Hb Hs Hd Ha]. rewrite Ht in Ho. simpl in Ho.
    rewrite app_nil_r in Ho. split; try done.
    + exists c'. split; [done|]. apply point_ok_open; try done. by rewrite Ht.
    + simpl. rewrite Ho. by rewrite <- Permutation_cons_append.
    + by apply fresh_open_nodup.
    + exact (open_balance c s Hb).
    + by intros ? [= <-].
  - by apply (ok_set_server (LBlocked k)).
  - by apply ok_clients.
  - by apply ok_clients.
Qed.

(** What the only caller changes beside its own point. *)
Lemma ok_called i c c' s s' :
  one_ok s → callers s !! i = Some c → callers s' = callers s → point_ok c' s' →
  open_fds s' ≡ₚ listener_fds (listen_fd_ s') ++ client_fds (thread_ s') → NoDup (open_fds s') →
  opened s' ≡ₚ closed s' ++ open_fds s' → (∀ p, thread_ s' = Some p → server_ok p s') →
  served s' = served s → terminated s' = false → one_ok (set_caller i c' s').
Proof.
  intros [(c0 & Hcs & Hc) Ho Hn Hb Hs Hd Ha] Hi Hcs' Hp Ho' Hn' Hb' Hs' Hd' Ha'.
  rewrite Hcs in Hi. destruct i as [|[|i]]; [|done..]. split; simpl; try done.
  - exists c'. rewrite Hcs', Hcs. split; [done|]. by destruct c'.
  - by rewrite Hd'.
Qed.

(** Closing the listening socket, when nobody can be in [accept] on it. *)
Lemma close_listener s :
  one_ok s → 0 <= listen_fd_ s → thread_ s = None ∨ socket_of (listen_fd_ s) s ∈ shut s →
  let s' := set_listen (-1) (close_fd (listen_fd_ s) s) in
  open_fds s' ≡ₚ listener_fds (-1) ++ client_fds (thread_ s) ∧ NoDup (open_fds s') ∧
  opened s' ≡ₚ closed s' ++ open_fds s' ∧ (∀ p, thread_ s = Some p → server_ok p s').
Proof.
  intros [_ Ho Hn Hb Hs _ _] Hl Hshut. unfold listener_fds in *. rewrite (proj2 (Z.ltb_ge _ _)) in Ho by done.
  assert (listen_fd_ s ∈ open_fds s) as Hin by (rewrite Ho; by left).
  destruct (close_perm _ s Hn Hin) as [Hp Hn']. split_and!; [|done|exact (close_balance _ s Hn Hin Hb)|].
  - simpl in *. apply (Permutation_cons_inv (a := listen_fd_ s)). by rewrite <- Hp, Ho.
  - intros p Hp'. specialize (Hs p Hp'). destruct Hshut as [?|Hshut]; [congruence|].
    destruct p; simpl in *; auto. destruct Hs as [[_ ->]|?]; by right.
Qed.

Lemma metrics_caller_ok i c s s' :
  one_ok s → callers s !! i = Some c → caller_step i c s s' → one_ok s'.
Proof.
  intros Hok Hi Hstep. pose proof Hok as [(c0 & Hcs & Hc) Ho Hn Hb Hs Hd Ha].
  assert (c0 = c) as -> by (rewrite Hcs in Hi; destruct i as [|[|i]]; by simplify_eq/=).
  inversion Hstep as [| |? fd Hfr| | | | | | | |? Ht|? p Ht| | | | |? d Hl|? d Hl|? d|? d Ht|? d Ht| |? p Ht];
    subst; simpl in Hc; try done; try rewrite ?H in Hc;
    try (destruct Hc as (Hc1 & Hc2)); try destruct Hc2 as (Hc2 & Hc3);
    try congruence; try lia;
    try (eapply ok_called; [exact Hok|exact Hi|done|..]; simpl; try done; by (destruct d || idtac)).
  - rewrite Hc2, Hc3 in Ho. simpl in Ho. eapply ok_called; [exact Hok|exact Hi|done|..]; simpl; try done.
    + split_and!; [done|by destruct Hfr|done].
    + unfold listener_fds. rewrite (proj2 (Z.ltb_ge _ _)) by (by destruct Hfr).
      by rewrite Ho, Hc3.
    + by apply fresh_open_nodup.
    + exact (open_balance fd s Hb).
    + by rewrite Hc3.
  - eapply ok_called; [exact Hok|exact Hi|done|..]; simpl; try done; [by rewrite Ho, Hc2|].
    by rewrite Hc3.
  - destruct (close_listener s Hok Hc2 (or_introl Hc3)) as (H1 & H2 & H3 & H4).
    by eapply ok_called; [exact Hok|exact Hi|done|..].
  - eapply ok_called; [exact Hok|exact Hi|done|..]; simpl; try done.
    + by rewrite Hc1.
    + by rewrite Ho, Ht.
    + by intros ? [= <-].
  - eapply ok_called; [exact Hok|exact Hi|done|..]; simpl; try done. by rewrite Hc1.
  - eapply ok_called; [exact Hok|exact Hi|done|..]; simpl; try done.
    + split_and!; [done|done|by left].
    + intros p Hp. specialize (Hs p Hp). destruct p; simpl in *; auto.
      destruct Hs as [?|?]; [by left|by right; right].
  - destruct (close_listener s Hok Hc2 (or_intror Hc3)) as (H1 & H2 & H3 & H4).
    by eapply ok_called; [exact Hok|exact Hi|done|..].
  - eapply ok_called; [exact Hok|exact Hi|done|..]; simpl; try done.
    destruct d; simpl; [done|]. by rewrite Hc1.
  - eapply ok_called; [exact Hok|exact Hi|done|..]; simpl; try done.
    + destruct d; simpl; [done|]. by rewrite Hc1.
    + by rewrite Ho, Ht.
Qed.

Lemma one_reachable_ok s : reachable (initial 1) step s → one_ok s.
Proof.
  apply reachable_ind'.
  - intros ? ->. split; simpl; try done; [by exists CIdle|apply NoDup_nil_2].
  - intros s0 s' _ Hok [p _ _ Hp Hs|_ _ Hs|i c _ _ Hi Hs];
      [by eapply metrics_server_ok|by eapply metrics_client_ok|by eapply metrics_caller_ok].
Qed.

(** ** Stopping *)

(** The steps the server's thread has left once it was stopped. *)
Definition work (s : state) : nat :=
  match thread_ s with
  | None | Some LEnded => 0
  | Some (LTest | LFailed) => 1
  | Some (LBlocked _ | LClose _ _ _ _ _) => 2
  | Some (LAccept _ | LLoop _ _ _ _) => 3
  | Some (LRead | LSerialize _ | LWrite _ _ _ _) => 4
  end.

(** The thread is in [write] on a socket that takes nothing more. *)
Definition waits_for_client (s : state) : Prop :=
  ∃ c json sent w, thread_ s = Some (LWrite c json sent w) ∧ (w < length json)%nat ∧
    room_of c s = 0%nat ∧ c ∉ gone s.

(** Once [stop] joins, the descriptor [accept] is called with is closed, and the socket it
    waits on was shut down. *)
Lemma joining_stopped s d :
  one_ok s → callers s = [CJoin d] →
  stopped_ s = true ∧ (∀ fd, thread_ s = Some (LAccept fd) → fd ∉ open_fds s) ∧
  (∀ k, thread_ s = Some (LBlocked k) → k ∈ shut s).
Proof.
  intros [(c & Hc & Hp) Ho _ _ Hs _ _] Hj. rewrite Hj in Hc. injection Hc as <-.
  destruct Hp as [Hst Hl]. split_and!; [done|intros fd Ht Hfd|intros k Ht].
  - rewrite Ho, Hl, Ht in Hfd. by apply elem_of_nil in Hfd.
  - destruct (Hs _ Ht) as [[? _]|?]; [lia|done].
Qed.

Lemma metrics_joining_moves s d :
  one_ok s → callers s = [CJoin d] →
  (∃ s', caller_step 0 (CJoin d) s s') ∨ (∃ p s', thread_ s = Some p ∧ server_step p s s') ∨
  waits_for_client s.
Proof.
  intros Hok Hj. destruct (thread_ s) as [p|] eqn:Ht; [|left; eexists; by apply stop_not_joinable].
  pose proof (ok_server s Hok p Ht) as Hp. destruct (joining_stopped s d Hok Hj) as (Hs & Ha & Hk).
  destruct p as [| |fd|k| |c|c json sent w|c json sent w|c json sent w why|].
  - right. left. do 2 eexists. split; [done|]. by apply loop_ends.
  - right. left. do 2 eexists. split; [done|]. by apply reads_listen_fd.
  - right. left. do 2 eexists. split; [done|]. apply accept_bad_fd. by apply Ha.
  - right. left. do 2 eexists. split; [done|]. apply accept_shut. by apply Hk.
  - right. left. do 2 eexists. split; [done|]. by apply failed_stopped.
  - right. left. do 2 eexists. split; [done|]. by apply (serializes s c []).
  - right. left. destruct (decide (w < length json)%nat).
    + do 2 eexists. split; [done|]. by apply loop_stopped.
    + do 2 eexists. split; [done|]. apply loop_whole. lia.
  - destruct (decide (c ∈ gone s)) as [Hg|Hg].
    { right. left. do 2 eexists. split; [done|]. by apply write_fails. }
    destruct Hp as [_ Hw]. destruct (room_of c s) as [|n] eqn:Hr.
    + right. right. exists c, json, sent, w. by rewrite Hr.
    + right. left. do 2 eexists. split; [done|].
      apply (write_takes s c json sent w 1); [lia|]. rewrite Hr. lia.
  - right. left. do 2 eexists. split; [done|]. apply closes_client.
  - left. eexists. by apply stop_joins.
Qed.

Lemma joining_work s s' d :
  one_ok s → callers s = [CJoin d] → step s s' →
  (work s' <= work s)%nat ∧
  (∀ p, thread_ s = Some p → server_step p s s' → killed s' = true ∨ (work s' < work s)%nat).
Proof.
  intros Hok Hj Hstep. destruct (joining_stopped s d Hok Hj) as (Hst & _ & Hk).
  assert (∀ p, thread_ s = Some p → server_step p s s' →
    (work s' <= work s)%nat ∧ (killed s' = true ∨ (work s' < work s)%nat)) as Hserver.
  { intros p Ht Hs. inversion Hs; subst; try congruence; unfold work; simpl; rewrite Ht;
      (split; [lia|]); (right; lia) || by left. }
  split; [|intros p Ht Hs; by apply (Hserver p Ht Hs)].
  destruct Hstep as [p _ _ Ht Hs|_ _ Hs|i c _ _ Hi Hs].
  - by apply (Hserver p Ht Hs).
  - inversion Hs as [? k c Hl _ Ht|? k Ht|t ? c n|t ? c]; subst; unfold work; simpl; try lia.
    + by destruct Hl; apply Hk.
    + rewrite <- Ht. lia.
  - rewrite Hj in Hi. destruct i as [|[|i]]; [|done..]. injection Hi as <-.
    inversion Hs; subst; unfold work; simpl; lia.
Qed.

(** Only a write to a client that closed kills the process. *)
Lemma kill_needs_gone s s' :
  step s s' → killed s' = true →
  ∃ c json sent w, thread_ s = Some (LWrite c json sent w) ∧ c ∈ gone s.
Proof.
  intros [p _ Hk Ht Hs|_ Hk Hs|i c _ Hk _ Hs] Hk';
    inversion Hs; subst; simpl in *; try congruence. by do 4 eexists.
Qed.

(** ** Runs *)

Ltac by_caller j tac :=
  eapply rtc_l; [eapply (caller_moves _ _ j); [reflexivity|reflexivity|reflexivity|tac]|simpl].

Ltac by_server tac :=
  eapply rtc_l; [eapply server_moves; [reflexivity|reflexivity|reflexivity|tac]|simpl].

Ltac by_client tac :=
  eapply rtc_l; [eapply clients_move; [reflexivity|reflexivity|simpl; tac]|simpl].

Lemma fresh_on_empty fd s : 0 <= fd → open_fds s = [] → fresh_fd fd s.
Proof. intros H He. split; [done|]. rewrite He. apply not_elem_of_nil. Qed.

(** From [start] to the first [write] to a client, on descriptor 8. *)
Ltac to_first_write :=
  by_caller 0%nat ltac:(by apply start_exchanges);
  by_caller 0%nat ltac:(by apply (socket_gives _ _ 7), fresh_on_empty);
  by_caller 0%nat ltac:(apply bind_done);
  by_caller 0%nat ltac:(apply listen_done);
  by_caller 0%nat ltac:(by apply thread_starts);
  by_server ltac:(by apply loop_goes_on);
  by_server ltac:(apply reads_listen_fd);
  by_server ltac:(apply accept_enters; left);
  by_client ltac:(apply (accept_gives _ _ 8); [apply not_elem_of_nil|]; split;
    [lia|intros Hx; by apply list_elem_of_singleton in Hx]);
  by_server ltac:(apply (serializes _ 8 []));
  by_server ltac:(apply loop_writes; [vm_compute; lia|reflexivity]).

(** The steps of [stop] before it joins. *)
Ltac to_join :=
  by_caller 0%nat ltac:(by apply (stop_exchanges _ _ false));
  by_caller 0%nat ltac:(by apply stop_shuts);
  by_caller 0%nat ltac:(apply stop_closes).

(** A client that does not read, and a stop. *)
Lemma stop_blocked_run :
  ∃ s, reachable (initial 1) step s ∧ callers s = [CJoin false] ∧ killed s = false ∧
    thread_ s = Some (LWrite 8 (serialize_metrics_json []) [] 0) ∧ room_of 8 s = 0%nat ∧ gone s = [].
Proof.
  eexists. split.
  - eexists. split; [reflexivity|]. simpl. to_first_write. to_join. apply rtc_refl.
  - by split_and!.
Qed.

(** A client that reads one byte, and a stop. *)
Lemma stop_served_run :
  ∃ s, reachable (initial 1) step s ∧ callers s = [CIdle] ∧ stopped_ s = true ∧
    opened s = [7; 8] ∧
    served s = [(serialize_metrics_json [], take 1 (serialize_metrics_json []), Stopped)].
Proof.
  eexists. split.
  - eexists. split; [reflexivity|]. simpl. to_first_write.
    by_client ltac:(apply (client_reads _ _ 8 1)).
    by_server ltac:(apply (write_takes _ _ _ _ _ 1); [vm_compute; lia|vm_compute; lia]).
    to_join.
    by_server ltac:(apply loop_stopped; [vm_compute; lia|reflexivity]).
    by_server ltac:(apply closes_client).
    by_server ltac:(by apply loop_ends).
    by_caller 0%nat ltac:(by apply stop_joins).
    apply rtc_refl.
  - by split_and!.
Qed.

(** [stop] on one thread between the exchange of [start] on another and its [socket]. *)
Lemma start_stop_race_run :
  ∃ s, reachable (initial 2) step s ∧ callers s = [CIdle; CIdle] ∧ stopped_ s = true ∧
    killed s = false ∧ terminated s = false ∧ open_fds s = [7] ∧ thread_ s = Some LEnded.
Proof.
  eexists. split.
  - eexists. split; [reflexivity|]. simpl.
    by_caller 0%nat ltac:(by apply start_exchanges).
    by_caller 1%nat ltac:(by apply (stop_exchanges _ _ false)).
    by_caller 1%nat ltac:(by apply stop_no_listener).
    by_caller 1%nat ltac:(by apply stop_not_joinable).
    by_caller 0%nat ltac:(by apply (socket_gives _ _ 7), fresh_on_empty).
    by_caller 0%nat ltac:(apply bind_done).
    by_caller 0%nat ltac:(apply listen_done).
    by_caller 0%nat ltac:(by apply thread_starts).
    by_server ltac:(by apply loop_ends).
    apply rtc_refl.
  - by split_and!.
Qed.

(** ** Properties *)

(** C37. Used by one thread, as [main] does, the metrics server accounts for every
    descriptor: each one it opened is open or was closed once, those open are its
    listening socket and the client it serves, and stopped it has none open and no thread.
    No use of its thread ends in [std::terminate]; only a write to a client that closed
    kills the process, by SIGPIPE. Every connection that ended was sent a prefix of the
    text of the metrics, the whole text unless the server was stopped or a write failed. *)
Theorem metrics_server_accounts s :
  reachable (initial 1) step s →
  opened s ≡ₚ closed s ++ open_fds s ∧
  open_fds s ≡ₚ listener_fds (listen_fd_ s) ++ client_fds (thread_ s) ∧ NoDup (open_fds s) ∧
  (callers s = [CIdle] → stopped_ s = true → open_fds s = [] ∧ thread_ s = None) ∧
  terminated s = false ∧
  (∀ s', step s s' → killed s' = true →
     ∃ c json sent w, thread_ s = Some (LWrite c json sent w) ∧ c ∈ gone s) ∧
  Forall served_ok (served s).
Proof.
  intros Hok%one_reachable_ok. pose proof Hok as [(c & Hc & Hp) Ho Hn Hb _ Hs Ha].
  split_and!; try done; [|intros s' ?; by apply kill_needs_gone].
  intros Hi Hst. rewrite Hi in Hc. injection Hc as <-. simpl in Hp. rewrite Hst in Hp.
  destruct Hp as [Hl Ht]. split; [|done]. rewrite Hl, Ht in Ho. by apply Permutation_nil_r in Ho.
Qed.


(** The exchange of [stopped_] does not make [start] and [stop] safe against each other:
    they can leave a stopped server with its socket open and its thread joinable, whose
    destructor ends the process. *)
Lemma start_stop_race_leaks :
  ∃ s s', reachable (initial 2) step s ∧ callers s = [CIdle; CIdle] ∧ stopped_ s = true ∧
    open_fds s = [7] ∧ rtc step s s' ∧ terminated s' = true.
Proof.
  destruct start_stop_race_run as (s & Hr & Hc & Hs & Hk & Ht & Ho & Hth).
  exists s, (set_ended true (killed s) (set_caller 0 CDestruct s)). split_and!; try done.
  eapply rtc_l.
  - apply (caller_moves _ _ 0%nat CIdle Ht Hk); [by rewrite Hc|by apply destroy_stopped].
  - eapply rtc_once, (caller_moves _ _ 0%nat CDestruct); simpl; [done|done|by rewrite Hc|].
    by apply (destroyed_joinable 0 (set_caller 0 CDestruct s) LEnded).
Qed.

Lemma metrics_server_accounts_witness :
  ∃ s, reachable (initial 1) step s ∧ callers s = [CIdle] ∧ stopped_ s = true ∧
    opened s = [7; 8] ∧ open_fds s = [] ∧ thread_ s = None ∧ closed s ≡ₚ [7; 8] ∧
    served s = [(serialize_metrics_json [], take 1 (serialize_metrics_json []), Stopped)] ∧
    Forall served_ok (served s).
Proof.
  destruct stop_served_run as (s & Hr & Hc & Hst & Hop & Hsv). exists s.
  destruct (metrics_server_accounts s Hr) as (H1 & _ & _ & H2 & _ & _ & H3).
  destruct (H2 Hc Hst) as [Ho Ht]. rewrite Hop, Ho, app_nil_r in H1. by split_and!.
Defined.

