(* ===== verification/Pipeline.v ===== *)
(** * A request's way through the server

    [Session], [Executor] and [TorchBackend] put together, as [session] of
    [src/server/main.cpp], [src/model/model_executor.cpp] and
    [src/inference/torch_backend.cpp] are: a worker hands the requests of a batch, with the
    output buffers of the sessions that made them, to the backend, whose responses and
    buffers go back to those sessions. *)
From S2P Require Import Prelude.
From S2P Require Import Transition.
From S2P Require Import Text.
From S2P Require Import Types.
From S2P Require Import ServerConfig.
From S2P Require Import Socket.
From S2P Require Import Session.
From S2P Require Import TorchBackend.
From S2P Require Executor.

Section pipeline.
Context `{Torch} (loaded : gmap text ModelState) (elapsed : nat → Z).

(** The session's [output_buf], as many zeroes as the input has elements. *)
Definition output_buf (r : InferenceRequest) : list Z :=
  replicate (Z.to_nat (output_capacity r)) 0.

(** The requests as [infer_batch] gets them, each with its output buffer. *)
Definition with_buffers (reqs : list InferenceRequest) : list (InferenceRequest * list Z) :=
  (λ r, (r, output_buf r)) <$> reqs.

(** [meta_->backend->infer_batch(reqs)] as the worker sees it; a batch that does not
    return has no responses. *)
Definition torch_infer_batch (reqs : list InferenceRequest) : list InferenceResponse :=
  match infer_batch loaded elapsed (with_buffers reqs) with
  | Returned ws => resp <$> ws
  | _ => []
  end.

(** What call [p] of an executor, for the request [r], gives to the session that waits for
    it: a response and what is in the output buffer. It is the response of the backend in
    some batch of calls that were made, and the buffer as that batch left it, or one of
    the executor's refusals, with the buffer untouched. *)
Definition delivered (s : Executor.state) (p : nat) (r : InferenceRequest)
    (response : InferenceResponse) (output : list Z) : Prop :=
  (p, response) ∈ Executor.answers s ∧ Executor.calls s !! p = Some r ∧
  ((∃ b k t ws w wait exec,
      b !! k = Some t ∧ Executor.req t = r ∧ Forall (Executor.known (Executor.calls s)) b ∧
      infer_batch loaded elapsed (with_buffers (Executor.req <$> b)) = Returned ws ∧
      ws !! k = Some w ∧ response = Executor.instrument t (resp w) wait exec ∧ output = buffer w) ∨
   (∃ e, response = error_response e ∧ output = output_buf r)).

(** ** A model that works row by row *)

Context (st : ModelState) (id : text) (sh so : list Z).
Hypothesis (loaded_model : loaded !! id = Some st).
Hypothesis (one_output_shape : ∀ x z, sizes x = sh → computes st x z → readable z ∧ sizes z = so).
Hypothesis (rows_apart : ∀ xs zs, xs ≠ [] → Forall (λ x, sizes x = sh) xs → Forall2 (computes st) xs zs →
  ∃ x z, cat xs = inr x ∧ computes st x z ∧ cat zs = inr z).
Hypothesis (chunks_apart : ∀ zs z, zs ≠ [] → Forall (λ z, readable z ∧ sizes z = so) zs → cat zs = inr z →
  ∃ cs, chunk z (length zs) = inr cs ∧ Forall2 same_values cs zs).

(** A request for the model whose input has the length and shape it needs. *)
Definition computable (r : InferenceRequest) : Prop :=
  model_id r = id ∧ ∃ x z, reads st r x ∧ sizes x = sh ∧ computes st x z.

(** What the request gets when it is the only one. *)
Definition alone (r : InferenceRequest) (w : slot) : Prop :=
  infer loaded (latency_ns (resp w)) r (output_buf r) = Returned w.

Lemma batch_gives_alone reqs ws k r w :
  Forall computable reqs → infer_batch loaded elapsed (with_buffers reqs) = Returned ws →
  reqs !! k = Some r → ws !! k = Some w → alone r w.
Proof.
  intros Hg Hb Hr Hw.
  assert ((with_buffers reqs).*1 = reqs) as H1.
  { unfold with_buffers. clear. induction reqs; simpl; [done|by f_equal]. }
  destruct (batching_preserves_answers loaded st id sh so elapsed (with_buffers reqs)) as (ws' & Hb' & Hf);
    [done|by rewrite H1|done..|].
  rewrite Hb in Hb'. injection Hb' as <-.
  assert (with_buffers reqs !! k = Some (r, output_buf r)) as Hk
    by (unfold with_buffers; by rewrite list_lookup_fmap, Hr).
  exact (Forall2_lookup_lr _ _ _ _ _ _ Hf Hk Hw).
Qed.

Lemma known_computable s b :
  Forall computable (Executor.calls s) → Forall (Executor.known (Executor.calls s)) b →
  Forall computable (Executor.req <$> b).
Proof.
  intros Hc Hb. apply Forall_fmap, (Forall_impl _ _ _ Hb). intros t Ht.
  exact (Forall_lookup_1 _ _ _ _ Hc Ht).
Qed.

(** The session's buffer holds what its response says was written. *)
Lemma alone_fits r w : alone r w → fits (resp w) (buffer w).
Proof. intros Ha. by destruct (infer_slot_ok _ _ _ _ _ Ha) as (_ & ? & _). Qed.

Lemma delivered_alone s p r response output :
  Forall computable (Executor.calls s) → delivered s p r response output →
  fits response output ∧
  ((∃ w, alone r w ∧ response_frame response output = response_frame (resp w) (buffer w)) ∨
   ∃ e, response = error_response e).
Proof.
  intros Hc (_ & _ & [(b & k & t & ws & w & wait & exec & Hk & <- & Hb & Hws & Hw & -> & ->)|(e & -> & ->)]).
  - pose proof (batch_gives_alone (Executor.req <$> b) ws k (Executor.req t) w
      (known_computable s b Hc Hb) Hws) as Ha.
    rewrite list_lookup_fmap, Hk in Ha. specialize (Ha eq_refl Hw).
    split; [exact (alone_fits _ _ Ha)|]. left. by exists w.
  - split; [|right; by exists e]. split; simpl; lia.
Qed.

(** What [Executor] shows of answers is enough for delivery. *)
Lemma answers_delivered m s p response :
  0 <= m → reachable Executor.initial (Executor.step m torch_infer_batch) s →
  (p, response) ∈ Executor.answers s →
  ∃ r output, Executor.calls s !! p = Some r ∧ delivered s p r response output.
Proof.
  intros Hm Hr Ha. destruct (Executor.executor_reachable_answers _ _ s Hm Hr) as [_ _ _ _ Hj].
  pose proof (proj1 (Forall_forall _ _) Hj _ Ha) as (t & Ht & Hc & Hjust). simpl in *.
  exists (Executor.req t). destruct Hjust as [(b & k & r0 & wait & exec & Hk & _ & Hb & Hr0 & ->)|Hrf].
  - unfold torch_infer_batch in Hr0.
    destruct (infer_batch loaded elapsed (with_buffers (Executor.req <$> b))) as [ws| |] eqn:Hws; [|done..].
    rewrite list_lookup_fmap in Hr0. destruct (ws !! k) as [w|] eqn:Hw; [|done]. injection Hr0 as <-.
    exists (buffer w). split; [done|]. split; [done|]. split; [done|]. left.
    by exists b, k, t, ws, w, wait, exec.
  - exists (output_buf (Executor.req t)). split; [done|]. split; [done|]. split; [done|]. right.
    rewrite !elem_of_cons in Hrf. destruct Hrf as [->|[->|[->|[->|[]%elem_of_nil]]]]; by eexists.
Qed.

(** The frame of a refused request. *)
Definition refusal_frame : list byte := response_frame (error_response []) [].

Definition own_frame (r : InferenceRequest) (f : list byte) : Prop :=
  (∃ w, alone r w ∧ f = response_frame (resp w) (buffer w)) ∨ f = refusal_frame.

Lemma answers_frames config inf rs (P : InferenceRequest → list byte → Prop) : ∀ k,
  (∀ i r, rs !! i = Some r → ∃ response output,
     inf (k + i)%nat (request_of config r) = Answered response output ∧ fits response output ∧
     P (request_of config r) (response_frame response output)) →
  ∃ fs, answers config inf k rs (concat fs) ∧ Forall2 (λ r f, P (request_of config r) f) rs fs.
Proof.
  induction rs as [|r rs IH]; intros k Hi; [exists []; split; constructor|].
  destruct (Hi 0%nat r eq_refl) as (response & output & Hinf & Hfit & Hp). rewrite Nat.add_0_r in Hinf.
  destruct (IH (S k)) as (fs & Ha & Hf).
  { intros i r' Hr'. destruct (Hi (S i) r' Hr') as (x & y & ? & ? & ?). exists x, y.
    by rewrite Nat.add_succ_r in *. }
  exists (response_frame response output :: fs). split; [|by constructor].
  simpl. by eapply answers_cons.
Qed.

(** ** Properties *)

End pipeline.

(** ** A request served *)

Definition demo_config : ExtendedConfig := {|
  cfg_model_id := []; cfg_model_path := []; cfg_model_repository := txt "models"; cfg_host := [];
  cfg_port := 9000; cfg_input_shape := [1; 2]; cfg_device := Cpu |}.

(** The client sends the floats [3, 4] to model "m". *)
Definition demo_client : client_request := {| rid := [Byte.x6d]; rinput := [3; 4] |}.

Lemma demo_computable : computable the_model (txt "m") [1; 2] (request_of demo_config demo_client).
Proof.
  split; [reflexivity|]. exists {| m_sizes := [1; 2]; m_data := [3; 4] |}. eexists. split_and!.
  - exists 2. by eexists.
  - done.
  - by apply computes_doubled.
Qed.

