(* ===== verification/Registry.v ===== *)
(** * Registries of shared objects ([ModelRegistry] of
      [include/jellybean/inference/registry.hpp], [ActorRegistry] of
      [include/jellybean/actor/registry.hpp], [ActorBase] of
      [include/jellybean/actor/actor.hpp])

    Maps from names or ids to [std::shared_ptr]s under a reader-writer lock: each method
    is one critical section, so one step. Objects are numbered as they are made; [refs] is
    the count in the control block of the pointers to one. *)
From S2P Require Import Prelude.
From S2P Require Import Transition.
From S2P Require Import Text.

Abbreviation object := nat.

Section registry.
Context {K : Type} `{Countable K}.

(** ** Data *)

(** [None] in the map is a null pointer. [held]: the pointers that callers have.
    [destroyed]: the objects whose destructor ran. *)
Record state := {
  entries : gmap K (option object);
  refs : gmap object nat;
  held : list object;
  made : nat;
  destroyed : list object }.

Definition registry_new : state := {|
  entries := ∅; refs := ∅; held := []; made := 0; destroyed := [] |}.

(** ** Shared pointers *)

(** [std::make_shared], by a caller. *)
Definition make_shared (s : state) : state := {|
  entries := entries s; refs := <[made s := 1%nat]> (refs s); held := held s ++ [made s];
  made := S (made s); destroyed := destroyed s |}.

(** The destructor of a pointer: the last one destroys the object. *)
Definition release (o : option object) (s : state) : state :=
  match o with
  | None => s
  | Some p =>
      match refs s !! p with
      | Some (S (S n)) => {|
          entries := entries s; refs := <[p := S n]> (refs s); held := held s; made := made s;
          destroyed := destroyed s |}
      | _ => {|
          entries := entries s; refs := delete p (refs s); held := held s; made := made s;
          destroyed := destroyed s ++ [p] |}
      end
  end.

Definition with_entries (m : gmap K (option object)) (s : state) : state := {|
  entries := m; refs := refs s; held := held s; made := made s; destroyed := destroyed s |}.

Definition with_held (l : list object) (s : state) : state := {|
  entries := entries s; refs := refs s; held := l; made := made s; destroyed := destroyed s |}.

(** ** What the methods do under the lock *)

(** [map[name] = std::move(b)]: the pointer that was there is released. *)
Definition store (name : K) (b : option object) (s : state) : state :=
  let old := mjoin (entries s !! name) in
  release old (with_entries (<[name := b]> (entries s)) s).

(** A copy of the pointer, null if there is none. *)
Definition copy (name : K) (s : state) : option object * state :=
  match entries s !! name with
  | Some (Some p) => (Some p, {|
      entries := entries s; refs := <[p := S (default 0%nat (refs s !! p))]> (refs s);
      held := held s ++ [p]; made := made s; destroyed := destroyed s |})
  | _ => (None, s)
  end.

(** [map.erase(name)]. *)
Definition erase (name : K) (s : state) : state :=
  release (mjoin (entries s !! name)) (with_entries (delete name (entries s)) s).

(** Callers make objects, move one of their pointers (or a null one) into the registry,
    get pointers, erase names and drop pointers. *)
Inductive step (s : state) : state → Prop :=
| makes : step s (make_shared s)
| stores name h1 p h2 :
    held s = h1 ++ p :: h2 →
    step s (store name (Some p) (with_held (h1 ++ h2) s))
| stores_null name : step s (store name None s)
| copies name : step s (copy name s).2
| erases name : step s (erase name s)
| drops h1 p h2 : held s = h1 ++ p :: h2 → step s (release (Some p) (with_held (h1 ++ h2) s)).

(** ** Invariant *)

(** The pointers in the map. *)
Definition stored (m : gmap K (option object)) : list object := omap id (map_to_list m).*2.

Definition pointers (s : state) : list object := stored (entries s) ++ held s.

Record counted (s : state) : Prop := {
  ok_refs : ∀ p, default 0%nat (refs s !! p) = occ p (pointers s);
  ok_positive : ∀ p, refs s !! p ≠ Some 0%nat;
  ok_made : ∀ p, (p < made s)%nat ↔ p ∈ destroyed s ∨ p ∈ pointers s;
  ok_once : NoDup (destroyed s);
  ok_dead : ∀ p, p ∈ destroyed s → p ∉ pointers s }.

Lemma stored_insert x name b m :
  (occ x (stored (<[name := b]> m)) + occ x (option_list (mjoin (m !! name))))%nat =
  (occ x (stored m) + occ x (option_list b))%nat.
Proof.
  assert (∀ m' : gmap K (option object), m' !! name = None →
    ∀ c, occ x (stored (<[name := c]> m')) = (occ x (option_list c) + occ x (stored m'))%nat) as Hnew.
  { intros m' Hm c. unfold stored. rewrite (occ_perm x _ (omap id ((name, c) :: map_to_list m').*2)).
    - simpl. destruct c as [p|]; simpl; [|done]. by destruct (decide (p = x)).
    - by rewrite map_to_list_insert. }
  destruct (m !! name) as [c|] eqn:Hm; simpl.
  - assert (∃ m0, m = <[name := c]> m0 ∧ m0 !! name = None) as (m0 & -> & H0).
    { exists (delete name m). split; [|apply lookup_delete_eq]. symmetry. by apply insert_delete_id. }
    rewrite insert_insert_eq, !Hnew by done. simpl. lia.
  - rewrite Hnew by done. lia.
Qed.

(** The count goes down with a pointer that is gone. *)
Lemma release_counted p s :
  (∀ q, default 0%nat (refs s !! q) = (occ q (pointers s) + occ q [p])%nat) →
  (∀ q, refs s !! q ≠ Some 0%nat) →
  (∀ q, (q < made s)%nat ↔ q ∈ destroyed s ∨ q ∈ p :: pointers s) →
  NoDup (destroyed s) → (∀ q, q ∈ destroyed s → q ∉ p :: pointers s) →
  counted (release (Some p) s).
Proof.
  intros Hr Hpos Hm Ho Hd. pose proof (Hr p) as Hrp. simpl in Hrp. rewrite decide_True in Hrp by done.
  assert (p ∉ destroyed s) as Hnd by (intros Hin; apply (Hd p Hin); by left).
  unfold release. destruct (refs s !! p) as [[|[|n]]|] eqn:Hp; simpl in Hrp; [by destruct (Hpos p)| | |lia].
  - assert (p ∉ pointers s) as Hnp by (rewrite <- occ_elem; lia).
    split; simpl.
    + intros q. specialize (Hr q). simpl in Hr. destruct (decide (p = q)) as [<-|Hne].
      * rewrite lookup_delete_eq. simpl. unfold pointers in *. simpl. lia.
      * rewrite lookup_delete_ne by done. unfold pointers in *. simpl. lia.
    + intros q. destruct (decide (p = q)) as [<-|]; [by rewrite lookup_delete_eq|by rewrite lookup_delete_ne].
    + intros q. rewrite Hm, elem_of_app, elem_of_cons, list_elem_of_singleton. unfold pointers. simpl. tauto.
    + apply NoDup_app. split_and!; [done| |apply NoDup_singleton].
      by intros q Hq ->%list_elem_of_singleton.
    + intros q [Hq| ->%list_elem_of_singleton]%elem_of_app; [|done].
      intros Hin. apply (Hd q Hq). by right.
  - split; simpl; try done.
    + intros q. specialize (Hr q). simpl in Hr. destruct (decide (p = q)) as [<-|Hne].
      * rewrite lookup_insert_eq. simpl. unfold pointers in *. simpl. lia.
      * rewrite lookup_insert_ne by done. unfold pointers in *. simpl. lia.
    + intros q. destruct (decide (p = q)) as [<-|]; [by rewrite lookup_insert_eq|by rewrite lookup_insert_ne].
    + intros q. rewrite Hm, elem_of_cons. unfold pointers in *. simpl.
      assert (p ∈ stored (entries s) ++ held s) by (apply occ_elem; lia).
      split; [|tauto]. intros [?|[-> |?]]; tauto.
    + intros q Hq Hin. apply (Hd q Hq). by right.
Qed.

(** Changing the map under [name], from the pointers held, and releasing what was there. *)
Lemma replaced_counted name b m l s :
  counted s →
  (∀ x, (occ x (stored m) + occ x (option_list (mjoin (entries s !! name))))%nat =
        (occ x (stored (entries s)) + occ x (option_list b))%nat) →
  (∀ q, occ q (held s) = (occ q l + occ q (option_list b))%nat) →
  counted (release (mjoin (entries s !! name)) (with_entries m (with_held l s))).
Proof.
  intros [Hr Hpos Hm Ho Hd] Hst Hl.
  assert (∀ q, (occ q (stored m ++ l) + occ q (option_list (mjoin (entries s !! name))))%nat
    = occ q (pointers s)) as Hocc.
  { intros q. unfold pointers. rewrite !occ_app, Hl. specialize (Hst q). lia. }
  assert (∀ q, q ∈ pointers s ↔ q ∈ option_list (mjoin (entries s !! name)) ++ (stored m ++ l)) as Hin.
  { intros q. rewrite <- !occ_elem, occ_app, <- Hocc. lia. }
  destruct (mjoin (entries s !! name)) as [old|].
  - apply release_counted; unfold pointers; simpl in *; try done.
    + intros q. by rewrite Hr, <- Hocc.
    + intros q. by rewrite Hm, Hin.
    + intros q Hq. rewrite <- Hin. auto.
  - simpl in *. split; unfold pointers; simpl; try done.
    + intros q. rewrite Hr, <- Hocc. lia.
    + intros q. by rewrite Hm, Hin.
    + intros q Hq. rewrite <- Hin. auto.
Qed.

Lemma stored_delete x name m :
  (occ x (stored (delete name m)) + occ x (option_list (mjoin (m !! name))))%nat = occ x (stored m).
Proof.
  pose proof (stored_insert x name None m) as Hi. pose proof (stored_insert x name None (delete name m)) as Hd.
  rewrite insert_delete_eq, lookup_delete_eq in Hd. simpl in *. lia.
Qed.

Lemma with_held_id s : with_held (held s) s = s.
Proof. by destruct s. Qed.

Lemma registry_step_counted s s' : counted s → step s s' → counted s'.
Proof.
  intros Hok Hs. pose proof Hok as [Hr Hpos Hm Ho Hd]. destruct Hs as [|name h1 p h2 Hh|name|name|name|h1 p h2 Hh].
  - assert (made s ∉ pointers s) as Hnew by (intros Hp; pose proof (proj2 (Hm (made s)) (or_intror Hp)); lia).
    assert (made s ∉ destroyed s) as Hnd by (intros Hp; pose proof (proj2 (Hm (made s)) (or_introl Hp)); lia).
    unfold make_shared. split; unfold pointers in *; simpl; try done.
    + intros q. rewrite app_assoc, occ_app. simpl. destruct (decide (made s = q)) as [<-|Hne].
      * rewrite lookup_insert_eq. simpl. rewrite <- occ_elem in Hnew. lia.
      * rewrite lookup_insert_ne by done. rewrite Hr. lia.
    + intros q. destruct (decide (made s = q)) as [<-|]; [by rewrite lookup_insert_eq|by rewrite lookup_insert_ne].
    + intros q. rewrite app_assoc, (elem_of_app (_ ++ _)), list_elem_of_singleton. specialize (Hm q).
      destruct (decide (q = made s)) as [->|]; [split; [tauto|lia]|]. rewrite Nat.lt_succ_r.
      split; [intros ?|intros [?|[?|?]]]; [|apply Nat.lt_le_incl; tauto|apply Nat.lt_le_incl; tauto|done].
      assert (q < made s)%nat by lia. tauto.
    + intros q Hq. rewrite app_assoc, elem_of_app, list_elem_of_singleton. intros [?| ->]; [by apply (Hd q)|done].
  - apply (replaced_counted name (Some p) (<[name := Some p]> (entries s)) (h1 ++ h2) s); [done| |].
    + intros x. apply stored_insert.
    + intros q. rewrite Hh, !occ_app. simpl. lia.
  - rewrite <- (with_held_id s).
    apply (replaced_counted name None (<[name := None]> (entries s)) (held s) s); [done| |].
    + intros x. apply stored_insert.
    + intros q. simpl. lia.
  - unfold copy. destruct (entries s !! name) as [[p|]|] eqn:Hn; [|done..]. simpl.
    assert (p ∈ stored (entries s)) as Hp.
    { unfold stored. apply list_elem_of_omap. exists (Some p). split; [|done].
      apply list_elem_of_fmap. exists (name, Some p). split; [done|]. by apply elem_of_map_to_list. }
    split; unfold pointers in *; simpl; try done.
    + intros q. rewrite app_assoc, occ_app. simpl. destruct (decide (p = q)) as [<-|Hne].
      * rewrite lookup_insert_eq. simpl. rewrite Hr. lia.
      * rewrite lookup_insert_ne by done. rewrite Hr. lia.
    + intros q. destruct (decide (p = q)) as [<-|]; [by rewrite lookup_insert_eq|by rewrite lookup_insert_ne].
    + intros q. rewrite Hm, !elem_of_app, list_elem_of_singleton. split; [tauto|].
      intros [?|[?|[?| ->]]]; tauto.
    + intros q Hq Hin. apply (Hd q Hq). rewrite !elem_of_app, list_elem_of_singleton in *.
      destruct Hin as [?|[?| ->]]; tauto.
  - rewrite <- (with_held_id s).
    apply (replaced_counted name None (delete name (entries s)) (held s) s); [done| |].
    + intros x. rewrite stored_delete. simpl. lia.
    + intros q. simpl. lia.
  - apply release_counted; unfold pointers in *; simpl; rewrite Hh in *; try done.
    + intros q. rewrite Hr, !occ_app. simpl. lia.
    + intros q. rewrite Hm, elem_of_cons, !elem_of_app, elem_of_cons. tauto.
    + intros q Hq Hin. apply (Hd q Hq). rewrite elem_of_cons, !elem_of_app in Hin.
      rewrite !elem_of_app, elem_of_cons. tauto.
Qed.

Lemma registry_counted s : reachable (λ s, s = registry_new) step s → counted s.
Proof.
  apply reachable_ind'; [|intros; by eapply registry_step_counted].
  intros ? ->. split; simpl; try done; [|apply NoDup_nil_2|by intros ? []%elem_of_nil].
  intros p. split; [lia|]. by intros [[]%elem_of_nil|[]%elem_of_nil].
Qed.

Lemma copy_answers name s : (copy name s).1 = mjoin (entries s !! name).
Proof. unfold copy. by destruct (entries s !! name) as [[]|]. Qed.

Lemma entries_release o s : entries (release o s) = entries s.
Proof. unfold release. destruct o as [p|]; [|done]. by destruct (refs s !! p) as [[|[|]]|]. Qed.
End registry.
Arguments state : clear implicits.
Arguments state _ {_ _}.

(** ** The registry of backends *)

Definition register_backend (name : text) (backend : option object) : state text → state text :=
  store name backend.

Definition get_backend (name : text) : state text → option object * state text := copy name.

(** ** The registry of actors and their mailboxes *)

(** [arena_] is a pointer. *)
Record ActorBase := {
  id_ : Z;
  shard_id_ : Z;
  arena_ : option nat }.

Definition id (a : ActorBase) : Z := id_ a.

Definition shard (a : ActorBase) : Z := shard_id_ a.

(** [actor] is [None] for a null pointer; the mailbox passed is then released with the
    parameter it came in. *)
Definition register_actor (actor : option ActorBase) (mailbox : option object) (s : state Z) : state Z :=
  match actor with
  | None => release mailbox s
  | Some a => store (id a) mailbox s
  end.

Definition find_mailbox (id : Z) : state Z → option object * state Z := copy id.

Definition unregister_actor (id : Z) : state Z → state Z := erase id.

(** ** Histories *)

(** A caller's use of the registry of backends. *)
Inductive backend_step (s : state text) : state text → Prop :=
| backend_made : backend_step s (make_shared s)
| backend_registered name h1 p h2 :
    held s = h1 ++ p :: h2 →
    backend_step s (register_backend name (Some p) (with_held (h1 ++ h2) s))
| null_registered name : backend_step s (register_backend name None s)
| backend_got name : backend_step s (get_backend name s).2
| backend_dropped h1 p h2 :
    held s = h1 ++ p :: h2 → backend_step s (release (Some p) (with_held (h1 ++ h2) s)).

(** A caller's use of the registry of actors. *)
Inductive actor_step (s : state Z) : state Z → Prop :=
| mailbox_made : actor_step s (make_shared s)
| actor_registered actor h1 p h2 :
    held s = h1 ++ p :: h2 →
    actor_step s (register_actor actor (Some p) (with_held (h1 ++ h2) s))
| actor_without_mailbox actor : actor_step s (register_actor actor None s)
| mailbox_found id : actor_step s (find_mailbox id s).2
| actor_unregistered id : actor_step s (unregister_actor id s)
| mailbox_dropped h1 p h2 :
    held s = h1 ++ p :: h2 → actor_step s (release (Some p) (with_held (h1 ++ h2) s)).

Lemma backend_history s s' : backend_step s s' → step s s'.
Proof. destruct 1; by econstructor. Qed.

Lemma actor_history s s' : actor_step s s' → s' = s ∨ step s s'.
Proof.
  destruct 1 as [|[a|] h1 p h2 Hh|[a|]|i|i|h1 p h2 Hh].
  5: by left.
  all: right; by econstructor.
Qed.

(** ** Property *)

(** Every object is alive exactly as long as somebody has it: its count is the number of
    pointers to it in the map and with callers, and it was destroyed, once, if there are
    none. *)
Definition accounts {K} `{Countable K} (s : state K) : Prop :=
  (∀ p, default 0%nat (refs s !! p) = occ p (pointers s)) ∧ NoDup (destroyed s) ∧
  (∀ p, (p < made s)%nat → (p ∈ destroyed s ↔ p ∉ pointers s)).

Lemma counted_accounts {K} `{Countable K} (s : state K) : counted s → accounts s.
Proof.
  intros [H1 H2 H3 H4 H5]. split_and!; [done|done|]. intros p Hp. split; [apply H5|].
  intros Hn. apply H3 in Hp. tauto.
Qed.

(** Both registries keep objects alive exactly as long as somebody has them, in every
    history of their methods: no backend or mailbox that the map or a caller points to was
    destroyed, and none that nobody points to is left. What [get_backend] and
    [find_mailbox] answer is what was registered last under the name or id and not
    unregistered since; a null actor registers nothing. *)
Theorem registries_keep_objects_alive :
  (∀ s, reachable (λ s, s = registry_new) backend_step s → accounts s) ∧
  (∀ s, reachable (λ s, s = registry_new) actor_step s → accounts s) ∧
  (∀ s name b name', (get_backend name' (register_backend name b s)).1 =
     if decide (name' = name) then b else (get_backend name' s).1) ∧
  (∀ s actor m i, (find_mailbox i (register_actor actor m s)).1 =
     if decide (Some i = id <$> actor) then m else (find_mailbox i s).1) ∧
  (∀ s i j, (find_mailbox j (unregister_actor i s)).1 =
     if decide (j = i) then None else (find_mailbox j s).1).
Proof.
  split_and!.
  - intros s (s0 & -> & Hr). apply counted_accounts, registry_counted. exists registry_new. split; [done|].
    induction Hr as [|x y z Hxy _ IH]; [apply rtc_refl|]. eapply rtc_l; [by apply backend_history|done].
  - intros s (s0 & -> & Hr). apply counted_accounts, registry_counted. exists registry_new. split; [done|].
    induction Hr as [|x y z Hxy _ IH]; [apply rtc_refl|].
    destruct (actor_history x y Hxy) as [->|]; [done|by eapply rtc_l].
  - intros s name b name'. unfold get_backend, register_backend, store. rewrite !copy_answers, entries_release. simpl.
    case_decide as Hd; [subst; by rewrite lookup_insert_eq|by rewrite lookup_insert_ne].
  - intros s [a|] m i; unfold find_mailbox, register_actor; simpl.
    + unfold store. rewrite !copy_answers, entries_release. simpl.
      case_decide as Hd; [injection Hd as ->; by rewrite lookup_insert_eq|].
      rewrite lookup_insert_ne; [done|]. intros <-. by apply Hd.
    + by rewrite !copy_answers, entries_release.
  - intros s i j. unfold find_mailbox, unregister_actor, erase. rewrite !copy_answers, entries_release. simpl.
    case_decide as Hd; [subst; by rewrite lookup_delete_eq|by rewrite lookup_delete_ne].
Qed.

Lemma registries_keep_objects_alive_witness :
  ∃ s : state Z, reachable (λ s, s = registry_new) actor_step s ∧ destroyed s = [0%nat] ∧ made s = 2%nat ∧
    accounts s.
Proof.
  set (a := {| id_ := 5; shard_id_ := 0; arena_ := None |}).
  assert (∃ s : state Z, reachable (λ s, s = registry_new) actor_step s ∧ destroyed s = [0%nat] ∧ made s = 2%nat)
    as (s & Hr & Hd & Hm).
  { eexists. split.
    - eexists. split; [reflexivity|].
      eapply rtc_l; [apply mailbox_made|]. eapply rtc_l; [by apply (actor_registered _ (Some a) [] 0%nat [])|].
      eapply rtc_l; [apply mailbox_made|]. eapply rtc_l; [by apply (actor_registered _ (Some a) [] 1%nat [])|].
      apply rtc_refl.
    - split; vm_compute; reflexivity. }
  exists s. destruct registries_keep_objects_alive as (_ & H & _). split_and!; try done. by apply H.
Defined.
