(* ===== verification/IoUring.v ===== *)
(** * io_uring backend ([src/reactor/io_uring_backend.cpp],
      [include/jellybean/reactor/io_uring_backend.hpp])

    The other backend of the reactor, which the server does not use. liburing is not part
    of the program: its calls are the fields of [Liburing]. *)
From S2P Require Import Prelude.
From S2P Require Import Transition.
From S2P Require Import Reactor.

(** ** liburing *)

(** [__kernel_timespec]. *)
Record timespec := { tv_sec : Z; tv_nsec : Z }.

(** [wait_cqe_timeout] answers a negative error, or 0 and a completion; with no timespec it
    waits without limit, so that it may not answer at all: [None]. [get_sqe] is a null
    pointer when the submission queue is full. *)
Class Liburing := {
  ring : Type;
  cqe : Type;
  sqe : Type;
  queue_init : Z → option ring;
  queue_exit : ring → ring;
  wait_cqe_timeout : option timespec → ring → option (Z * option cqe * ring);
  cqe_seen : cqe → ring → ring;
  get_sqe : ring → option (sqe * ring);
  prep_read : sqe → Z → Z → Z → Z → sqe;
  set_data : sqe → Z → sqe;
  submit : sqe → ring → ring }.

(** ** The backend *)

Section backend.
Context `{Liburing}.

Definition entries : Z := 4096.

Definition backend_new : outcome ring :=
  match queue_init entries with Some r => Done r | None => Fault Aborted end.

Definition backend_destroy (r : ring) : ring := queue_exit r.

(** The timespec that [poll] fills in; C++ divides toward zero. *)
Definition poll_timespec (timeout_ms : Z) : timespec := {|
  tv_sec := timeout_ms `quot` 1000;
  tv_nsec := (timeout_ms `rem` 1000) * 1000000 |}.

(** ... and what it passes: a null pointer for a timeout of 0. *)
Definition poll_limit (timeout_ms : Z) : option timespec :=
  if 0 <? timeout_ms then Some (poll_timespec timeout_ms) else None.

(** [poll]; [None]: it does not return. A completion is marked seen; what its user data
    points to is not looked at. *)
Definition poll (timeout_ms : Z) (r : ring) : option (outcome (Z * ring)) :=
  match wait_cqe_timeout (poll_limit timeout_ms) r with
  | None => None
  | Some (ret, c, r) =>
      if ret <? 0 then Some (Done (ret, r))
      else match c with
           | Some c => Some (Done (1, cqe_seen c r))
           | None => Some (Fault UndefinedBehaviour)
           end
  end.

(** [submit_read]: the entry is used without a test for a null pointer. *)
Definition submit_read (fd buf len offset user_data : Z) (r : ring) : outcome ring :=
  match get_sqe r with
  | None => Fault UndefinedBehaviour
  | Some (q, r) => Done (submit (set_data (prep_read q fd buf len offset) user_data) r)
  end.
End backend.

(** ** Properties *)

(** For every positive [int] the timespec is normalised, nothing in its computation
    overflows, and it is the timeout exactly. *)
Lemma poll_timespec_exact timeout_ms :
  0 < timeout_ms < 2 ^ 31 →
  poll_limit timeout_ms = Some (poll_timespec timeout_ms) ∧
  0 <= tv_sec (poll_timespec timeout_ms) < 2 ^ 31 ∧
  0 <= tv_nsec (poll_timespec timeout_ms) < 10 ^ 9 ∧
  tv_sec (poll_timespec timeout_ms) * 10 ^ 9 + tv_nsec (poll_timespec timeout_ms) = timeout_ms * 10 ^ 6.
Proof.
  intros Ht. unfold poll_limit, poll_timespec. rewrite (proj2 (Z.ltb_lt _ _)) by lia. simpl.
  rewrite Z.quot_div_nonneg, Z.rem_mod_nonneg by lia.
  split; [done|]. Z.div_mod_to_equations. lia.
Qed.

(** The io_uring backend turns the reactor's timeouts around. For a positive timeout it
    waits that long to the nanosecond, but 0, which the reactor passes when there is work
    in its queues, is waited for without limit: on this backend the reactor polls for
    ever exactly when its run queue is not empty or a push was counted, and for one
    millisecond when it has nothing to do. *)
Theorem io_uring_waits_on_work `{Liburing} s b s' timeout_ms :
  reachable initial step s → at_ s = RExternal b → loop_step (at_ s) s s' → at_ s' = RPoll timeout_ms →
  (poll_limit timeout_ms = None ↔ b = false ∨ external_pending s ≠ 0) ∧
  (b = true → run_queue s' = []) ∧
  (b = false → ∀ r, wait_cqe_timeout None r = None → poll timeout_ms r = None) ∧
  (∀ t, poll_limit timeout_ms = Some t → t = {| tv_sec := 0; tv_nsec := 1000000 |}) ∧
  (∀ t, 0 < t < 2 ^ 31 → ∃ ts, poll_limit t = Some ts ∧ 0 <= tv_nsec ts < 10 ^ 9 ∧
     tv_sec ts * 10 ^ 9 + tv_nsec ts = t * 10 ^ 6).
Proof.
  intros Hr Hat Hstep Hp. destruct (reactor_reachable_ok s Hr) as [_ _ _ _ _ _ _ H8].
  unfold stage_ok in H8. rewrite Hat in H8, Hstep.
  inversion Hstep as [| | | | | | | | | | | | | | | | | | | |? ? ? Hps]; subst; [|by inversion Hps].
  simpl in Hp. injection Hp as <-. split_and!.
  - destruct b, (Z.eqb_spec (external_pending s) 0); simpl; naive_solver.
  - intros ->. by destruct H8 as [_ H8]; apply H8.
  - intros -> r Hw. unfold poll, poll_limit. simpl. by rewrite Hw.
  - intros t. destruct (b && (external_pending s =? 0)); simpl; [|done]. by intros [= <-].
  - intros t Ht. destruct (poll_timespec_exact t Ht) as (H1 & _ & H2 & H3). by eexists.
Qed.
