(* ===== verification/Shutdown.v ===== *)
(** * The end of the server (the tail of [main] in [src/server/main.cpp])

    What happens after the loop: [metrics_server.stop()], then the destructors of [main]'s
    objects in the reverse order of their declarations (the metrics server, the reactor,
    the runtime with its executors), then that of the static [ContinuationPool], all beside
    the pool's threads, which are those of [Pool]. The pool's task ends with
    [r->schedule(h)] on the reactor it was posted from. A pool that was never used is not
    constructed; one without waits does the same. *)
From S2P Require Import Prelude.
From S2P Require Import Transition.
From S2P Require Import Pool.

Section shutdown.
Context {V : Type}.

(** Where [main]'s thread is: in the loop; past it, the reactor still there; in the
    runtime's destructor, the reactor destroyed; past [main], in the destructors of
    statics; the process has exited. *)
Inductive stage := InLoop | Stopping | RuntimeEnds | StaticsEnd | Exited.

(** [resumed_before]: the coroutines the pool had scheduled when the reactor was
    destroyed; [dangling]: it scheduled one on the destroyed reactor. *)
Record process := {
  pool : Pool.state V;
  main_at : stage;
  resumed_before : nat;
  dangling : bool }.

Definition initial (s : process) : Prop := ∃ p,
  s = {| pool := p; main_at := InLoop; resumed_before := 0; dangling := false |} ∧
  Pool.initial p ∧ posters p = [PIdle].

Definition with_pool (p : Pool.state V) (s : process) : process := {|
  pool := p; main_at := main_at s; resumed_before := resumed_before s; dangling := dangling s |}.

Definition goes_to (m : stage) (s : process) : process := {|
  pool := pool s; main_at := m; resumed_before := resumed_before s; dangling := dangling s |}.

Definition reactor_alive (s : process) : bool :=
  match main_at s with InLoop | Stopping => true | _ => false end.

(** A step of a pool thread; scheduling needs the reactor. *)
Definition pool_moves (w : worker (V := V)) (p : Pool.state V) (s : process) : process := {|
  pool := p; main_at := main_at s; resumed_before := resumed_before s;
  dangling := dangling s ||
    match w with WSchedule _ _ => negb (reactor_alive s) | _ => false end |}.

(** [~Reactor]. *)
Definition destroy_reactor (s : process) : process := {|
  pool := pool s; main_at := RuntimeEnds; resumed_before := length (resumptions (pool s));
  dangling := dangling s |}.

(** Executors resolve promises while they run and break those of the requests they leave
    in their queues when they are destroyed; none is pending when they are gone. *)
Inductive live_step (s : process) : process → Prop :=
| pool_thread i w p :
    workers (pool s) !! i = Some w → worker_step i w (pool s) p → live_step s (pool_moves w p s)
| session_waits t p :
    main_at s = InLoop → posters (pool s) !! 0%nat = Some t → poster_step 0 t (pool s) p →
    live_step s (with_pool p s)
| request_made f :
    main_at s = InLoop → futures (pool s) !! f = None →
    live_step s (with_pool (set_future f Pending (pool s)) s)
| request_answered f v :
    main_at s ≠ StaticsEnd → futures (pool s) !! f = Some Pending →
    live_step s (with_pool (set_future f (Resolved v) (pool s)) s)
| request_abandoned f :
    main_at s = RuntimeEnds → futures (pool s) !! f = Some Pending →
    live_step s (with_pool (set_future f Broken (pool s)) s)
| loop_left :
    main_at s = InLoop → posters (pool s) = [PIdle] → live_step s (goes_to Stopping s)
| reactor_destroyed : main_at s = Stopping → live_step s (destroy_reactor s)
| runtime_destroyed :
    main_at s = RuntimeEnds → (∀ f, futures (pool s) !! f ≠ Some Pending) →
    live_step s (goes_to StaticsEnd s)
| pool_destroyed p :
    main_at s = StaticsEnd → dtor_step (pool s) p → live_step s (with_pool p s)
| exits :
    main_at s = StaticsEnd → dtor (pool s) = DDone → live_step s (goes_to Exited s).

(** A process that was terminated or has exited takes no step. *)
Definition step (s s' : process) : Prop :=
  terminated (pool s) = false ∧ main_at s ≠ Exited ∧ live_step s s'.

(** ** Invariant *)

Record process_ok (s : process) : Prop := {
  ok_is_pool : reachable Pool.initial Pool.step (pool s);
  ok_poster : main_at s ≠ InLoop → posters (pool s) = [PIdle];
  ok_dtor : main_at s ≠ StaticsEnd → main_at s ≠ Exited → dtor (pool s) = DIdle;
  ok_cut : dtor (pool s) ≠ DIdle → posted_before (pool s) = length (posted (pool s));
  ok_alive : reactor_alive s = true → dangling s = false;
  ok_dangling : reactor_alive s = false →
    (resumed_before s <= length (resumptions (pool s)))%nat ∧
    (dangling s = true ↔ (resumed_before s < length (resumptions (pool s)))%nat);
  ok_exited : main_at s = Exited → terminated (pool s) = false ∧ dtor (pool s) = DDone }.

Lemma worker_step_keeps i w (p p' : Pool.state V) :
  worker_step i w p p' →
  posters p' = posters p ∧ dtor p' = dtor p ∧ posted p' = posted p ∧ posted_before p' = posted_before p ∧
  length (resumptions p') =
    (length (resumptions p) + match w with WSchedule _ _ => 1 | _ => 0 end)%nat.
Proof. destruct 1; simpl; rewrite ?length_app; simpl; split_and!; done || lia. Qed.

Lemma dtor_step_keeps (p p' : Pool.state V) :
  dtor_step p p' →
  posters p' = posters p ∧ posted p' = posted p ∧ resumptions p' = resumptions p ∧
  dtor p' ≠ DIdle ∧
  (posted_before p' = posted_before p ∧ dtor p ≠ DIdle ∨ posted_before p' = length (posted p)).
Proof. destruct 1 as [H|H|H]; simpl; split_and!; try done; rewrite ?H; auto. Qed.

Lemma process_ok_step s s' : process_ok s → step s s' → process_ok s'.
Proof.
  intros [H1 H2 H3 H4 H5 H6 H7] (Ht & Hx & Hs).
  assert (∀ p, Pool.step (pool s) p → reachable Pool.initial Pool.step p) as Hreach
    by (intros p Hp; by eapply reachable_step).
  assert (∀ f x, futures (pool s) !! f = Some Pending →
    reachable Pool.initial Pool.step (set_future f x (pool s))) as Hset.
  { intros f x Hf. apply Hreach, environment_moves; [done|by apply future_set]. }
  destruct Hs as [i w p Hi Hw|t p Hm Hp Hw|f Hm Hf|f v Hm Hf|f Hm Hf|Hm Hp|Hm|Hm Hf|p Hm Hp|Hm Hd].
  - destruct (worker_step_keeps i w _ _ Hw) as (K1 & K2 & K3 & K4 & K5).
    split; simpl; rewrite ?K1, ?K2, ?K3, ?K4; try done.
    + by eapply Hreach, worker_moves.
    + unfold reactor_alive in *. simpl. intros Ha. rewrite (H5 Ha), Ha. by destruct w.
    + unfold reactor_alive in *. simpl. intros Ha. destruct (H6 Ha) as [G1 G2]. rewrite K5, Ha.
      destruct w; simpl; rewrite ?orb_false_r, ?orb_true_r, ?Nat.add_0_r; (split; [lia|]); try done.
      split; [lia|done].
  - assert (∃ ps, posters p = <[0%nat := ps]> (posters (pool s)) ∧ dtor p = dtor (pool s)) as (ps & Kp & Kd).
    { inversion Hw; subst; simpl; try (exists PIdle; rewrite list_insert_id by done; done); by eexists. }
    split; simpl; try done.
    + by eapply Hreach, (poster_moves _ _ 0%nat).
    + intros Hn. by rewrite Kd, H3 by (by rewrite Hm).
    + intros Hd. rewrite Kd, H3 in Hd by (by rewrite Hm). done.
    + unfold reactor_alive. simpl. by rewrite Hm.
  - split; simpl; try done.
    apply Hreach, environment_moves; [done|by apply future_made].
  - split; simpl; try done. by apply Hset.
  - split; simpl; try done. by apply Hset.
  - split; simpl; try done.
    + intros _ _. by rewrite H3 by (by rewrite Hm).
    + intros _. apply H5. unfold reactor_alive. by rewrite Hm.
  - split; simpl; try done.
    + intros _. by rewrite H2 by (by rewrite Hm).
    + intros _ _. by rewrite H3 by (by rewrite Hm).
    + intros _. split; [done|]. rewrite H5 by (unfold reactor_alive; by rewrite Hm). split; [done|lia].
  - split; simpl; try done.
    + intros _. by rewrite H2 by (by rewrite Hm).
    + intros _. apply H6. unfold reactor_alive. by rewrite Hm.
  - destruct (dtor_step_keeps _ _ Hp) as (K1 & K2 & K3 & K4 & K5).
    split; simpl; rewrite ?K1, ?K2, ?K3; try done.
    + by apply Hreach, dtor_moves.
    + intros _. destruct K5 as [[-> ?]| ->]; [by apply H4|done].
  - split; simpl; try done.
    + intros _. by rewrite H2 by (by rewrite Hm).
    + intros _. apply H6. unfold reactor_alive. by rewrite Hm.
Qed.

Lemma process_reachable_ok s : reachable initial step s → process_ok s.
Proof.
  apply reachable_ind'; [|intros; by eapply process_ok_step].
  intros ? (p & -> & Hp & Hps). split; simpl; try done.
  - by apply reachable_init.
  - by destruct Hp as (n & ->).
  - by destruct Hp as (n & ->).
Qed.

Lemma occ_length {A} `{EqDecision A} (l k : list A) : (∀ x, occ x l = occ x k) → length l = length k.
Proof.
  revert k. induction l as [|a l IH]; intros k Hk.
  - destruct k as [|b k]; [done|]. specialize (Hk b). simpl in Hk. by rewrite decide_True in Hk.
  - assert (a ∈ k) as Ha by (apply occ_elem; rewrite <- Hk; simpl; rewrite decide_True by done; lia).
    apply elem_of_Permutation in Ha as [k' Hp]. rewrite Hp. simpl. f_equal. apply IH.
    intros x. specialize (Hk x). rewrite (occ_perm x _ _ Hp) in Hk. simpl in Hk. lia.
Qed.

(** When the pool's destructor is past its joins every wait was served. *)
Lemma all_resumed s :
  process_ok s → dtor (pool s) = DDone → length (resumptions (pool s)) = length (posted (pool s)).
Proof.
  intros Hok Hd. pose proof (pool_reachable_ok _ (ok_is_pool s Hok)) as [H1 H2 _ _ H5 _ H7 _ H9].
  specialize (H7 Hd). pose proof (ok_cut s Hok ltac:(by rewrite Hd)) as Hc.
  assert (concat (holds <$> workers (pool s)) = []) as Hh.
  { clear -H7. induction H7 as [|w ws -> _ IH]; [done|]. csimpl. by rewrite IH. }
  assert (length (posted (pool s)) <= length (started (pool s)))%nat as Hl.
  { destruct (workers (pool s)) as [|w ws]; [done|]. apply Forall_cons in H5 as [Hw _].
    apply Forall_cons in H7 as [-> _]. destruct Hw as [_ Hw]. by rewrite Hc in Hw. }
  assert (length (started (pool s)) = length (resumptions (pool s)).*1) as Hs.
  { apply occ_length. intros t. rewrite H2, Hh. simpl. lia. }
  rewrite length_fmap in Hs. apply (f_equal length) in H1. rewrite length_app in H1. lia.
Qed.
End shutdown.
Arguments process : clear implicits.

(** ** Runs *)

Ltac main_does t := eapply rtc_l; [split; [reflexivity|split; [done|t]]|simpl].

(** One session waits for a request, and a pool thread takes its wait. *)
Ltac one_wait :=
  main_does ltac:(by apply (request_made _ 0%nat));
  main_does ltac:(eapply session_waits; [reflexivity|reflexivity|];
    apply (await_posts _ _ {| fut := 0; coroutine := 0 |}); by eexists);
  main_does ltac:(eapply session_waits; [reflexivity|reflexivity|];
    apply post_notifies, notify_none; cbn; rewrite !elem_of_cons, elem_of_nil; naive_solver);
  main_does ltac:(eapply (pool_thread _ 0%nat); [reflexivity|by eapply worker_takes]).

Lemma shutdown_starts {V} : ∃ s : process V, initial s ∧
  s = {| pool := {| queue := []; stopped := false; workers := replicate num_threads WLock;
           posters := [PIdle]; dtor := DIdle; futures := ∅; posted := []; started := []; resumptions := [];
           direct := []; threw := []; posted_before := 0; terminated := false |};
         main_at := InLoop; resumed_before := 0; dangling := false |}.
Proof. eexists. split; [|reflexivity]. eexists. split; [reflexivity|]. split; [by exists 1%nat|done]. Qed.

(** The answer comes when the reactor is gone. *)
Lemma dangling_run {V} (v : V) : ∃ s : process V, reachable initial step s ∧ dangling s = true.
Proof.
  destruct (@shutdown_starts V) as (s0 & Hi & ->). eexists. split.
  { eexists. split; [exact Hi|]. one_wait.
    main_does ltac:(by apply loop_left). main_does ltac:(by apply reactor_destroyed).
    main_does ltac:(by apply (request_answered _ 0%nat v)).
    main_does ltac:(eapply (pool_thread _ 0%nat); [reflexivity|by eapply worker_gets]).
    main_does ltac:(eapply (pool_thread _ 0%nat); [reflexivity|by eapply worker_schedules]).
    apply rtc_refl. }
  done.
Qed.

(** The request is still in an executor's queue. *)
Lemma terminated_run {V} : ∃ s : process V, reachable initial step s ∧ terminated (pool s) = true.
Proof.
  destruct (@shutdown_starts V) as (s0 & Hi & ->). eexists. split.
  { eexists. split; [exact Hi|]. one_wait.
    main_does ltac:(by apply loop_left). main_does ltac:(by apply reactor_destroyed).
    main_does ltac:(by apply (request_abandoned _ 0%nat)).
    main_does ltac:(eapply (pool_thread _ 0%nat); [reflexivity|by eapply worker_throws]).
    apply rtc_refl. }
  done.
Qed.

(** One wait, answered in time, and an exit. *)
Lemma clean_run {V} (v : V) : ∃ s : process V, reachable initial step s ∧ main_at s = Exited ∧
  dangling s = false ∧ length (posted (pool s)) = 1%nat.
Proof.
  destruct (@shutdown_starts V) as (s0 & Hi & ->). eexists. split.
  { eexists. split; [exact Hi|]. one_wait.
    main_does ltac:(by apply (request_answered _ 0%nat v)).
    main_does ltac:(eapply (pool_thread _ 0%nat); [reflexivity|by eapply worker_gets]).
    main_does ltac:(eapply (pool_thread _ 0%nat); [reflexivity|by eapply worker_schedules]).
    main_does ltac:(by apply loop_left). main_does ltac:(by apply reactor_destroyed).
    main_does ltac:(apply runtime_destroyed; [done|]; intros f; simpl;
      destruct (decide (f = 0%nat)) as [->|]; [by rewrite lookup_insert_eq|by rewrite !lookup_insert_ne]).
    main_does ltac:(apply pool_destroyed; [done|by apply dtor_stops]).
    main_does ltac:(apply pool_destroyed; [done|by apply dtor_notifies]).
    main_does ltac:(eapply (pool_thread _ 0%nat); [reflexivity|by apply worker_returns]).
    main_does ltac:(eapply (pool_thread _ 1%nat); [reflexivity|by apply worker_returns]).
    main_does ltac:(eapply (pool_thread _ 2%nat); [reflexivity|by apply worker_returns]).
    main_does ltac:(eapply (pool_thread _ 3%nat); [reflexivity|by apply worker_returns]).
    main_does ltac:(apply pool_destroyed; [done|apply dtor_joins; [done|by repeat constructor]]).
    main_does ltac:(by apply exits). apply rtc_refl. }
  by split_and!.
Qed.

(** ** Property *)

(** C40. The server ends well exactly if nobody waits. A process that comes to its exit has
    served every wait posted to the pool, and has not scheduled a coroutine on the
    destroyed reactor exactly if every wait had been served when the reactor was destroyed.
    A request in flight when the loop is left can do both kinds of harm: its late answer
    is scheduled on the destroyed reactor, or its broken promise ends the process. *)
Theorem shutdown_clean_iff_idle {V} (v : V) :
  (∀ s : process V, reachable initial step s → main_at s = Exited →
     terminated (pool s) = false ∧ length (resumptions (pool s)) = length (posted (pool s)) ∧
     (dangling s = false ↔ resumed_before s = length (posted (pool s)))) ∧
  (∃ s : process V, reachable initial step s ∧ dangling s = true) ∧
  (∃ s : process V, reachable initial step s ∧ terminated (pool s) = true).
Proof.
  split; [|split; [by apply dangling_run|apply terminated_run]].
  intros s Hr Hx. pose proof (process_reachable_ok s Hr) as Hok.
  destruct (ok_exited s Hok Hx) as [Ht Hd]. pose proof (all_resumed s Hok Hd) as Hl.
  split; [done|]. split; [done|].
  destruct (ok_dangling s Hok) as [H1 H2]; [unfold reactor_alive; by rewrite Hx|].
  destruct (dangling s); [split; [done|]|split; [|done]].
  - intros He. pose proof (proj1 H2 eq_refl). lia.
  - intros _. destruct (decide (resumed_before s < length (resumptions (pool s)))%nat) as [Hlt|]; [|lia].
    by apply H2 in Hlt.
Qed.

Lemma shutdown_clean_iff_idle_witness :
  ∃ s : process nat, reachable initial step s ∧ main_at s = Exited ∧ resumed_before s = 1%nat.
Proof.
  destruct (clean_run 7%nat) as (s & Hr & Hx & Hd & Hl). exists s. split; [done|]. split; [done|].
  destruct (shutdown_clean_iff_idle 7%nat) as [H _]. destruct (H s Hr Hx) as (_ & _ & Hiff).
  by rewrite <- Hl, <- (proj1 Hiff Hd).
Defined.
